(* ===== verification/_CoqProject ===== *)
-Q . S2P
Prelude.v
Guardrails.v
LoopGuard.v
IsoTp.v
Provider.v
Freeze.v
Router.v
ToolCalls.v
ErrorClassifier.v
Pool.v
Sse.v
Budget.v
BudgetDispatch.v
Engine.v
Text.v
Ordered.v
Dbc.v
DbcText.v
Capture.v
CaptureText.v
Analysis.v
UdsAnalysis.v
Errors.v
EdgeSet.v
Showmap.v
Dict.v
Allocation.v
Coverage.v
Schedule.v
Recovery.v
Effect.v
SessionCore.v
Transcript.v
SessionDb.v
SessionTree.v
Session.v
Utf8.v
Spill.v
Prompt.v
Context.v
Pruning.v
Interaction.v
Compaction.v
Agent.v
JsonValue.v
Params.v
EventBridge.v
Executions.v
Occurrence.v
Journal.v
SchedulerCalls.v
OneTime.v
Dispatch.v
Sql.v
RunEdgeSets.v
Workspace.v
RunCloseout.v
EdgeCapture.v
CloseoutRun.v
Canonical.v
