(* ===== verification/Prelude.v ===== *)
(** * oxfuzz: a verification library

    oxfuzz is a fuzzing workbench: a service core discovers targets, has a
    language model draft harnesses, runs fuzzing engines in a sandbox and triages
    what they find, under guardrails that ask a human first.  Its front ends (GUI,
    CLI, REST) call the service; the service calls the crates below.  This
    library models the crates whose own logic decides something, from the Rust
    sources under [src/crates], and proves what makes them correct.

    ** The parts, their files and how they fit

    - What may run.  [Guardrails] ([hf-guardrails/action.rs], [hitl.rs], [lib.rs],
      [hf-core/armed.rs]): the action taxonomy, the policy, and [authorize], which
      every privileged action passes.  [LoopGuard] ([loop_guard.rs]): the detector
      that stops an agent going round in circles.
    - Calling a model.  [Provider] ([hf-core/provider.rs]): metadata, errors,
      routes.  [Freeze] ([hf-provider/freeze.rs], [health.rs]): which providers are
      out, and until when.  [Router] ([router.rs]): choosing one, against the class
      [FreezeGate] that [Freeze] implements.  [ErrorClassifier]: what a failure
      means.  [Pool] ([pool.rs], [metrics.rs]): retries, failover, permits and
      counters over the four.  [Sse] ([sse.rs], [provider_stream_limits.rs]): the
      frames of a streamed answer.  [ToolCalls]: the calls a stream spells out.
      [Errors] ([hf-core/error.rs]): what the layers above see of a failure.
    - Acting on it.  [Agent] ([hf-agent/lib.rs], [agent_tools.rs], [tools.rs],
      [definition.rs]): a turn of the agent loop, with delegation.  [Prompt]
      ([hf-prompt/agent.rs], [budget.rs], [hf-skills/registry.rs]): the system
      prompt.  [Utf8], [Context], [Pruning], [Compaction] ([hf-context]): what of a
      conversation fits the window, and how it is cut down.  [Spill]
      ([hf-spill/lib.rs]): outputs too long for it.
    - Paying for it.  [Budget] ([hf-storage/model_budget_store.rs]): the ledger.
      [BudgetDispatch] ([hf-service/model_budget.rs], [dispatch.rs]): the decorator
      that reserves before and settles after each attempt.
    - Campaigns.  [Engine]: engine names.  [Allocation]
      ([hf-service/campaign_allocation.rs], [storage.rs]): proposals, approvals,
      and the grants that admit runs.  [Coverage] ([hf-coverage/lib.rs]): noticing
      stagnation.
    - Schedules.  [Schedule] ([hf-scheduler/store.rs], [trigger.rs] and the four
      trigger kinds): when they are due.  [Recovery] ([recovery.rs], [manager.rs]):
      what happens to them while the program is not running.  [JsonValue], [Params]
      ([params.rs], [event.rs]) and [EventBridge] ([event_bridge.rs]): what an event
      fires, and with which parameters.  [Executions] ([executor.rs]): what ran.
      [Occurrence] ([occurrence.rs], [hf-storage/schedule_occurrence_store.rs]): the
      receipts of one-time schedules; [Journal] ([hf-service/scheduler.rs]): the
      same as the scheduler sees them.  [SchedulerCalls], [OneTime], [Dispatch]
      ([manager.rs]): the handlers and tasks that dispatch, and [stop], as programs.
    - Conversations.  [SessionCore] ([hf-core/session.rs]): types and the class
      [TranscriptStore] with its contract.  [Transcript] ([hf-storage/transcript.rs],
      [transcript_display.rs]): the JSONL files that implement it.  [SessionDb]
      ([session_store.rs], [checkpoint_store.rs]): the SQLite rows.  [SessionTree]
      ([hf-session/manager.rs], [state_machine.rs]): the tree the rows form.
      [Session] ([manager.rs], [checkpoint.rs]): changes that span all three stores,
      proved against the contract and not against the files.  [Canonical]
      ([canonical.rs]): one conversation over several channels.
    - Vehicle buses.  [IsoTp] ([hf-automotive/isotp.rs]): reassembly.  [Dbc]
      ([dbc.rs]): parsing signal databases and decoding frames; [DbcText] writes
      such databases, to state that they are read back.  [Capture] ([capture.rs]):
      the four importers of captures; [CaptureText] writes one of their formats.
      [Analysis], [UdsAnalysis] ([analysis.rs]): statistics, differences and
      diagnostic conversations of captures, over the ordered maps of [Ordered].
    - What was covered.  [EdgeSet] ([hf-core/coverage.rs]): the bitmap of a run.
      [Showmap] ([hf-engine/showmap.rs]): what one input covers.  [Dict]
      ([hf-engine/dict.rs]): fuzzing dictionaries.  [RunEdgeSets]
      ([hf-storage/run_edge_sets.rs]): the sets the store retains, over the
      statements and transactions of [Sql].  [Workspace]
      ([hf-service/container/workspace.rs], [harness_workspace.rs], [staging.rs]):
      names and paths of a target's files.  [EdgeCapture] ([container/edge_sets.rs]):
      measuring, recording and comparing sets, as programs that call on all of these.
      [RunCloseout] ([run_closeout.rs]), [CloseoutRun] ([container/run_closeout.rs]):
      the six analyses that follow a run, of which the capture is one, taken up again
      where a pass stopped.

    This file holds what they share: Rust's [Result], integers at their width,
    slices, sorting, debug formatting, the tactics [ok_inv] (a fallible computation
    that returned) and [divlia], and lemmas on lists and maps.  [Effect] is the
    monad of operations that change a state and may fail, with its [wp] rules;
    [Text] is text taken apart by character, and numbers read from it.
    [Interaction] is programs that ask their environment and go on with whatever it
    answers, their traces, and what holds of all of them.

    ** How the code is modelled

    A struct is a record, an enum an inductive type, both with the source's names;
    each function is a definition that takes the same branches in the same order.
    [&mut self] is state passing: an operation returns the state an error leaves
    behind.  Integers are [Z] with the wrapping, saturating or checked operation
    the source uses written out; an [f64] is a [spec_float].  Strings are their
    UTF-8 bytes, or, in [Text] and [Dbc], their code points.  Clock readings,
    random numbers and fresh identifiers are arguments.  What other crates do
    (JSON, SQLite below a statement, hashing, time zones) is a parameter or a
    class; a property that relies on one names what it relies on.  A method under
    one lock is one step; where a lock is released in between, or an [await] lets
    another task in, the halves are separate steps and the theorems quantify over
    interleavings ([Freeze], [Pool]).  Calls that can fail because the system does
    take their failures from a list of failures to come ([Effect]), so a theorem
    over all lists is one over all failures.  A function that only asks others and
    decides on their answers ([Agent], [Compaction], [OneTime], [EdgeCapture],
    [CloseoutRun], [Dispatch]) is a program of [Interaction]:
    its theorems hold for every answer of a model, a tool or the operator.  Where
    what it asks also changes a state it reads later ([CloseoutRun]), the answers are
    served from that state, and the theorems hold wherever the program is stopped.

    ** What is shown

    Authorization: exactly when an action is permitted, and that extensions,
    restarts and sessions never widen it.  Providers: freezes last as documented,
    routing picks an eligible provider, retries end, permits balance, a stream
    does not depend on how it was cut.  Budgets and allocations: sums never exceed
    limits under any history, settlements and revocations are final, a grant runs
    once.  Schedules: what was missed is recovered once, across interruptions; an
    event fires those that listen for it, and events do not cascade for ever; a
    one-time schedule is dispatched at most once and always accounted for; a
    recurring one only past every gate, and no more often in an hour than allowed.
    Sessions: the rows form a tree, the files implement transcripts under torn
    writes, and a change that fails half-way is undone.  Agents: tools that act run
    within the allowlist of whoever acts and under approval, requests fit the
    window, every answer is paid for, and a turn ends as documented.  Contexts:
    windows and prompts fit their budgets, cutting keeps calls with their results,
    and spilled outputs make room for each other oldest first.  Buses: reassembly and decoding
    equal their arithmetic definitions, databases, captures and dictionaries read
    back, importers let through only frames a bus can carry, and streams are
    followed independently.  Coverage: a set is recorded only if it is exactly what
    the replays of a run's whole corpus showed, it never changes afterwards, and
    comparisons count exactly.  Closeouts: what a pass has recorded survives being
    stopped anywhere, a step is taken when it is due and not again, and a trust report
    stands only as long as the rows it audited.

    ** Fuel

    The retry loop of [Pool] has three turns of fuel, which is all the attempts it
    makes; the loops of [Sse] that scan bytes, [Prelude.strip_while],
    [Text.trim_start_matches] and [Dbc.value_pairs] take the length of their text,
    of which every round removes a character, as does [Dict.extract_from]
    ([Dict.extract_fuel]), and [Compaction.chunks] takes that of its list and
    [Utf8.ceil_boundary] that of the string it moves along; [EdgeSet.collect_loop]
    has a turn for each bit of a byte; [Agent.run_turn] takes the depth of delegation, and two
    are enough ([Agent.delegation_terminates]); [Sse.consume] and the cron walks of
    [Recovery] answer [None] when fuel runs out (and
    [Dispatch.acquire_execution_permit] while its wait lasts), and the theorems show a bound
    under which it does not.

    ** Not modelled

    The front ends, which call the service and draw what it answers; the sandbox
    runtime, engine adapters and discovery, which drive Docker, fuzzers, parsers and
    compilers; crash triage, whose rules are regular expressions of another crate;
    knowledge retrieval, which ranks by floating-point sums; the wire formats of
    providers, which serde reads and writes; corpus, schedule and configuration
    files, where what happens is what the file system or the TOML reader does; stores
    with one statement per method; the service's orchestration outside the parts
    above, which is sequences of calls into them.
    Limits of the models to know: stores used from several processes at once are not
    interleaved below their locks; a transition of a session is one step, though its
    reading and writing may cross with another's ([SessionTree.transition_race]); the
    theorem on accepted checkpoints assumes that cron occurrences match their pattern
    and are a minute apart, which a change to or from daylight saving can break
    ([Recovery.regular]); histories of receipts have no deletions by the migration of
    retired engines, and those of closeouts clear runs between passes only; an
    [Instant] past its range and sums of [u32] past theirs, where a debug build
    panics, are a sum ([Freeze.freeze]) and wrap ([Pruning]). *)
From stdpp Require Export base gmap sets list strings pretty numbers.
From Stdlib Require Export ZArith Lia Sorted.
From Stdlib Require Import ZifyBool.

#[global] Open Scope Z_scope.

(** ** Fallible code: Rust's [Result], with the error type first so that
    [Result E] is a monad. *)
Inductive Result (E A : Type) : Type :=
| Ok (a : A)
| Err (e : E).
Arguments Ok {E A} a.
Arguments Err {E A} e.

#[export] Instance Result_ret E : MRet (Result E) := fun A a => Ok a.
#[export] Instance Result_bind E : MBind (Result E) :=
  fun A B f r => match r with Ok a => f a | Err e => Err e end.
#[export] Instance Result_fmap E : FMap (Result E) :=
  fun A B f r => match r with Ok a => Ok (f a) | Err e => Err e end.
#[export] Instance Result_eq_dec E A `{EqDecision E, EqDecision A} :
  EqDecision (Result E A).
Proof. solve_decision. Defined.

(** [Option::ok_or], [Result::is_ok] and [Result::map_err]. *)
Definition ok_or {E A} (e : E) (o : option A) : Result E A :=
  match o with Some a => Ok a | None => Err e end.
Definition is_ok {E A} (r : Result E A) : bool :=
  match r with Ok _ => true | Err _ => false end.
Definition map_err {E F A} (f : E -> F) (r : Result E A) : Result F A :=
  match r with Ok a => Ok a | Err e => Err (f e) end.

(** A computation that returned took each of its steps. *)
Lemma bind_Ok {E A B} (f : A -> Result E B) (r : Result E A) b :
  mbind f r = Ok b <-> exists a, r = Ok a /\ f a = Ok b.
Proof. destruct r; cbn; naive_solver. Qed.
Lemma ok_or_Ok {E A} (e : E) (o : option A) a : ok_or e o = Ok a <-> o = Some a.
Proof. destruct o; cbn; naive_solver. Qed.
Lemma bind_Some {A B} (f : A -> option B) (o : option A) b :
  mbind f o = Some b <-> exists a, o = Some a /\ f a = Some b.
Proof. destruct o; cbn; naive_solver. Qed.
Lemma fmap_Ok {E A B} (f : A -> B) (r : Result E A) b : f <$> r = Ok b <-> exists a, r = Ok a /\ f a = b.
Proof. destruct r; cbn; naive_solver. Qed.
Ltac ok_inv :=
  repeat match goal with
  | H : mbind _ _ = Ok _ |- _ => apply bind_Ok in H as (? & ? & H)
  | H : mbind _ _ = Some _ |- _ => apply bind_Some in H as (? & ? & H)
  | H : fmap _ _ = Ok _ |- _ => apply fmap_Ok in H as (? & ? & H)
  | H : ok_or _ _ = Ok _ |- _ => apply ok_or_Ok in H
  | H : (let '(_, _) := ?p in _) = _ |- _ => destruct p
  | H : (if ?b then _ else _) = _ |- _ => destruct b eqn:?; try done
  | H : Ok _ = Ok _ |- _ => injection H as H
  | H : Some _ = Some _ |- _ => injection H as H
  end.

(** ** Machine integers, as [Z] kept at their width *)
Definition u8_MAX : Z := 255.
Definition u32_MAX : Z := 2 ^ 32 - 1.
Definition u64_MAX : Z := 2 ^ 64 - 1.
Definition usize_MAX : Z := u64_MAX.
Definition i64_MAX : Z := 2 ^ 63 - 1.
Definition i64_MIN : Z := - 2 ^ 63.

Definition is_u8 (z : Z) : Prop := 0 <= z <= u8_MAX.
Definition is_u32 (z : Z) : Prop := 0 <= z <= u32_MAX.
Definition is_u64 (z : Z) : Prop := 0 <= z <= u64_MAX.
Definition is_i64 (z : Z) : Prop := i64_MIN <= z <= i64_MAX.

Definition wrapping (w z : Z) : Z := z mod 2 ^ w.
Definition saturating_add (hi a b : Z) : Z := Z.min hi (a + b).
Definition saturating_sub (a b : Z) : Z := Z.max 0 (a - b).
Definition saturating_mul (hi a b : Z) : Z := Z.min hi (a * b).
Definition saturating_pow (hi a b : Z) : Z := Z.min hi (a ^ b).

(** [i64::checked_add], [i64::checked_mul], [i64::try_from]. *)
Definition i64_of (z : Z) : option Z :=
  if (i64_MIN <=? z) && (z <=? i64_MAX) then Some z else None.
Definition checked_add_i64 (a b : Z) : option Z := i64_of (a + b).
Definition checked_mul_i64 (a b : Z) : option Z := i64_of (a * b).
(** [usize::checked_mul]. *)
Definition checked_mul_usize (a b : Z) : option Z :=
  if a * b <=? usize_MAX then Some (a * b) else None.

(** Bytes, and text as its UTF-8 bytes. *)
Definition bytes : Type := list Ascii.ascii.
Definition code (c : Ascii.ascii) : Z := Z.of_N (Ascii.N_of_ascii c).
Definition byte (n : N) : Ascii.ascii := Ascii.ascii_of_N n.
Definition LF : Ascii.ascii := byte 10.
Definition CR : Ascii.ascii := byte 13.
Arguments LF : simpl never.
Arguments CR : simpl never.

(** Lengths as the machine sees them. *)
Definition zlen {A} (l : list A) : Z := Z.of_nat (length l).

(** [slice::get(a..b)] and [slice::get(a..)]: [None] out of range. *)
Definition slice {A} (l : list A) (a b : Z) : option (list A) :=
  if (0 <=? a) && (a <=? b) && (b <=? zlen l)
  then Some (take (Z.to_nat (b - a)) (drop (Z.to_nat a) l)) else None.
Definition slice_from {A} (l : list A) (a : Z) : option (list A) :=
  if (0 <=? a) && (a <=? zlen l) then Some (drop (Z.to_nat a) l) else None.

(** [Iterator::position] and [slice::contains] over a boolean predicate. *)
Fixpoint position {A} (p : A -> bool) (l : list A) : option nat :=
  match l with
  | [] => None
  | x :: l => if p x then Some 0%nat else S <$> position p l
  end.

(** [Iterator::find_map]. *)
Fixpoint find_map {A B} (f : A -> option B) (l : list A) : option B :=
  match l with
  | [] => None
  | x :: l => match f x with Some b => Some b | None => find_map f l end
  end.

(** [Iterator::take_while]. *)
Fixpoint take_while {A} (p : A -> bool) (l : list A) : list A :=
  match l with
  | [] => []
  | x :: l => if p x then x :: take_while p l else []
  end.

(** ** [{:?}] of strings and string lists

    ASCII is escaped as [char::escape_debug] does; other bytes are passed
    through, which is what it does for printable text. *)
Definition quote : string := String (Ascii.ascii_of_nat 34) EmptyString.
Definition hex_digit (n : N) : Ascii.ascii :=
  Ascii.ascii_of_N (if (n <? 10)%N then 48 + n else 87 + n)%N.
Definition debug_char (c : Ascii.ascii) : string :=
  match Ascii.N_of_ascii c with
  | 0%N => "\0" | 9%N => "\t" | 10%N => "\n" | 13%N => "\r"
  | 34%N => "\" +:+ quote | 92%N => "\\"
  | n =>
      if (n <? 16)%N then "\u{" +:+ String (hex_digit n) "}"
      else if (n <? 32)%N || (n =? 127)%N
      then "\u{" +:+ String (hex_digit (n / 16)) (String (hex_digit (n mod 16)) "}")
      else String c EmptyString
  end.
Fixpoint debug_chars (s : string) : string :=
  match s with EmptyString => EmptyString | String c s => debug_char c +:+ debug_chars s end.
Definition debug_str (s : string) : string := quote +:+ debug_chars s +:+ quote.
Fixpoint join (sep : string) (l : list string) : string :=
  match l with [] => "" | [x] => x | x :: l => x +:+ sep +:+ join sep l end.
Definition debug_strs (l : list string) : string := "[" +:+ join ", " (debug_str <$> l) +:+ "]".

(** [Iterator::max_by_key] keeps the last of equal maxima, [Iterator::min_by]
    the first of equal minima. *)
Definition max_by_key {A} (key : A -> Z) (l : list A) : option A :=
  match l with
  | [] => None
  | x :: l => Some (fold_left (fun x y => if key y <? key x then x else y) l x)
  end.
Definition min_by {A} (cmp : A -> A -> comparison) (l : list A) : option A :=
  match l with
  | [] => None
  | x :: l => Some (fold_left (fun x y => match cmp x y with Gt => y | _ => x end) l x)
  end.

(** ** Lemmas shared by the components *)
Section find_map.
Context {A B : Type} (f : A -> option B).
Lemma find_map_None l : find_map f l = None <-> Forall (fun x => f x = None) l.
  Proof.
    induction l as [|x l IH]; cbn; [by rewrite Forall_nil_iff |].
    rewrite Forall_cons_iff. destruct (f x); naive_solver.
  Qed.
Lemma find_map_app l k :
    find_map f (l ++ k) = match find_map f l with Some b => Some b | None => find_map f k end.
  Proof. induction l as [|x l IH]; cbn; [done |]. by destruct (f x). Qed.
End find_map.

Lemma eq_iff_eq_true (a b : bool) : (a = true <-> b = true) -> a = b.
Proof. destruct a, b; naive_solver. Qed.

Lemma forall_eq_Some {A} (P : A -> Prop) a : (forall x, Some a = Some x -> P x) <-> P a.
Proof. naive_solver. Qed.
Lemma forall_None_eq {A} (P : A -> Prop) : (forall x, None = Some x -> P x) <-> True.
Proof. naive_solver. Qed.

(** Linear arithmetic with divisions. *)
Ltac divlia := Z.to_euclidean_division_equations; lia.

(** Masks and shifts as arithmetic. *)
Lemma land_15 x : Z.land x 15 = x mod 16.
Proof. exact (Z.land_ones x 4 ltac:(lia)). Qed.

Lemma nibble_hi k s : 0 <= s < 16 -> Z.shiftr (16 * k + s) 4 = k.
Proof.
  intros. rewrite Z.shiftr_div_pow2 by done. change (2 ^ 4) with 16.
  symmetry. by apply (Z.div_unique _ 16 k s); [left|].
Qed.
Lemma nibble_lo k s : 0 <= s < 16 -> Z.land (16 * k + s) 15 = s.
Proof.
  intros. rewrite land_15. symmetry. by apply (Z.mod_unique _ 16 k s); [left|].
Qed.

Lemma lor_shiftl_low a b n :
  0 <= n -> 0 <= b < 2 ^ n -> Z.lor (Z.shiftl a n) b = a * 2 ^ n + b.
Proof.
  intros Hn Hb. rewrite <- Z.shiftl_mul_pow2 by done. symmetry. apply Z.add_nocarry_lor.
  apply Z.bits_inj'. intros i Hi. rewrite Z.land_spec, Z.bits_0.
  destruct (Z.lt_ge_cases i n).
  - by rewrite Z.shiftl_spec_low.
  - rewrite <- (Z.mod_small b (2 ^ n)), Z.mod_pow2_bits_high by done. apply andb_false_r.
Qed.

(** Lengths and slices. *)
Lemma zlen_nonneg {A} (l : list A) : 0 <= zlen l.
Proof. unfold zlen. lia. Qed.
Lemma zlen_nil {A} : zlen (@nil A) = 0.
Proof. done. Qed.
Lemma zlen_cons {A} (x : A) l : zlen (x :: l) = zlen l + 1.
Proof. unfold zlen. cbn. lia. Qed.
Lemma zlen_app {A} (l k : list A) : zlen (l ++ k) = zlen l + zlen k.
Proof. unfold zlen. rewrite length_app. lia. Qed.
Lemma zlen_take {A} (l : list A) n : 0 <= n -> zlen (take (Z.to_nat n) l) = Z.min n (zlen l).
Proof. unfold zlen. rewrite length_take. lia. Qed.
Lemma zlen_drop {A} (l : list A) n : 0 <= n -> zlen (drop (Z.to_nat n) l) = Z.max 0 (zlen l - n).
Proof. unfold zlen. rewrite length_drop. lia. Qed.
Lemma zlen_0 {A} (l : list A) : zlen l = 0 -> l = [].
Proof. unfold zlen. destruct l; cbn; [done | lia]. Qed.

Lemma take_zlen {A} (l : list A) : take (Z.to_nat (zlen l)) l = l.
Proof. unfold zlen. by rewrite Nat2Z.id, firstn_all. Qed.
Lemma take_zlen_app {A} (l k : list A) : take (Z.to_nat (zlen l)) (l ++ k) = l.
Proof. unfold zlen. by rewrite Nat2Z.id, take_app_length. Qed.

Lemma slice_Some {A} (l : list A) a b k :
  slice l a b = Some k <->
  0 <= a <= b /\ b <= zlen l /\ k = take (Z.to_nat (b - a)) (drop (Z.to_nat a) l).
Proof. unfold slice. case_match; naive_solver lia. Qed.
Lemma slice_from_Some {A} (l : list A) a k :
  slice_from l a = Some k <-> 0 <= a <= zlen l /\ k = drop (Z.to_nat a) l.
Proof. unfold slice_from. case_match; naive_solver lia. Qed.
Lemma slice_from_Forall {A} (P : A -> Prop) l a k :
  slice_from l a = Some k -> Forall P l -> Forall P k.
Proof. rewrite slice_from_Some. intros [_ ->] ?. by apply Forall_drop. Qed.
Lemma slice_Forall {A} (P : A -> Prop) l a b k :
  slice l a b = Some k -> Forall P l -> Forall P k.
Proof. rewrite slice_Some. intros (_ & _ & ->) ?. by apply Forall_take, Forall_drop. Qed.

#[export] Hint Rewrite @zlen_nil @zlen_cons @zlen_app : zlen.
Ltac zlen_norm := autorewrite with zlen in *.

(** [take_while] for a single value counts a replicated prefix. *)
Lemma take_while_prefix {A} (p : A -> bool) (x : A) l n :
  (forall y, p y = true <-> y = x) ->
  (n <= length (take_while p l))%nat <-> exists rest, l = replicate n x ++ rest.
Proof.
  intros Hp. revert n. induction l as [|y l IH]; intros [|n]; cbn.
  - split; [by eexists | lia].
  - split; [lia | by intros [? [=]]].
  - split; [by eexists | lia].
  - destruct (p y) eqn:E; cbn.
    + apply Hp in E as ->. rewrite <- Nat.succ_le_mono, IH. naive_solver.
    + split; [lia|]. intros [rest [= -> _]]. rewrite (proj2 (Hp x)) in E; done.
Qed.

Lemma concat_replicate_length {A} n (l : list A) :
  length (concat (replicate n l)) = (n * length l)%nat.
Proof. induction n as [|n IH]; cbn; [done|]. by rewrite length_app, IH. Qed.

(** Selecting from a list. *)
Lemma find_map_Some {A B} (f : A -> option B) l b :
  find_map f l = Some b -> exists a, a ∈ l /\ f a = Some b.
Proof.
  induction l as [|x l IH]; cbn; [done|]. destruct (f x) eqn:E.
  - intros [= <-]. exists x. split; [left | done].
  - intros (a & ? & ?)%IH. exists a. split; [by right | done].
Qed.

Lemma max_by_key_Some {A} (key : A -> Z) l :
  l <> [] -> exists x, max_by_key key l = Some x /\ x ∈ l /\ forall y, y ∈ l -> key y <= key x.
Proof.
  destruct l as [|x l]; [done|]. intros _. eexists. split; [done|].
  revert x. induction l as [|y l IH]; intros x; cbn.
  - split; [left|]. by intros y ->%list_elem_of_singleton.
  - destruct (IH (if key y <? key x then x else y)) as [Hin Hmax].
    split; [case_match; set_solver|]. intros z Hz.
    specialize (Hmax (if key y <? key x then x else y) ltac:(left)) as Hx.
    apply elem_of_cons in Hz as [->|[->|Hz]%elem_of_cons].
    + case_match; lia.
    + case_match; lia.
    + apply Hmax. by right.
Qed.

Lemma min_by_Some {A} (cmp : A -> A -> comparison) l :
  l <> [] -> exists x, min_by cmp l = Some x /\ x ∈ l.
Proof.
  destruct l as [|x l]; [done|]. intros _. eexists. split; [done|].
  revert x. induction l as [|y l IH]; intros x; cbn; [left|].
  specialize (IH (match cmp x y with Gt => y | _ => x end)). case_match; set_solver.
Qed.
Lemma min_by_least {A} (cmp : A -> A -> comparison) (P : A -> Prop) (lt : A -> A -> Prop) l x :
  (forall a b, P a -> P b -> cmp a b = Gt <-> lt b a) ->
  (forall a b c, P a -> P b -> P c -> ~ lt b a -> ~ lt c b -> ~ lt c a) ->
  (forall a b, P a -> P b -> lt a b -> ~ lt b a) ->
  Forall P l -> min_by cmp l = Some x -> forall y, y ∈ l -> ~ lt y x.
Proof.
  intros Hcmp Htrans Hasym. destruct l as [|z l]; [done|]. cbn.
  intros [Hz Hl]%Forall_cons_iff [= <-]. revert z Hz.
  induction Hl as [|w l Hw Hl IH]; intros z Hz y; cbn.
  - intros ->%list_elem_of_singleton Hlt. by apply (Hasym z z).
  - set (b := match cmp z w with Gt => w | _ => z end).
    assert (P b /\ ~ lt z b /\ ~ lt w b) as (Hb & Hzb & Hwb).
    { subst b. assert (Hirr : forall a, P a -> ~ lt a a) by (intros a Ha Hlt; by apply (Hasym a a)).
      pose proof (Hcmp z w Hz Hw). destruct (cmp z w); split_and!; auto; try naive_solver.
      all: apply Hasym; naive_solver. }
    assert (Hres : P (fold_left (fun x y => match cmp x y with Gt => y | _ => x end) l b)).
    { clearbody b. clear -Hl Hb. revert b Hb. induction Hl; intros b Hb; cbn; [done|].
      apply IHHl. by case_match. }
    intros Hy. assert (y = z \/ y = w \/ y ∈ l) as Hy' by set_solver.
    assert (~ lt b (fold_left (fun x y => match cmp x y with Gt => y | _ => x end) l b))
      by (apply IH; [done | left]).
    destruct Hy' as [->|[->|Hin]].
    + by apply (Htrans _ b z).
    + by apply (Htrans _ b w).
    + apply IH; [done | by right].
Qed.

(** Strings. *)
Lemma append_assoc (a b c : string) : (a +:+ b) +:+ c = a +:+ (b +:+ c).
Proof. induction a as [|x a IH]; [done|]. change (String x ((a +:+ b) +:+ c) = String x (a +:+ (b +:+ c))). by rewrite IH. Qed.
Lemma append_nil_r (a : string) : a +:+ "" = a.
Proof. induction a as [|x a IH]; [done|]. change (String x (a +:+ "") = String x a). by rewrite IH. Qed.
Lemma concat_snoc (l : list string) x : String.concat "" (l ++ [x]) = String.concat "" l +:+ x.
Proof.
  induction l as [|y l IH]; [done|]. destruct l as [|z l]; [done|].
  cbn [app String.concat] in *. by rewrite IH, !append_assoc.
Qed.

(** The value the last of [l] that has one has, when one is appended. *)
Lemma default_last_snoc {A B} (f : A -> option B) (b : B) l x :
  default b (list.last (omap f (l ++ [x]))) = default (default b (list.last (omap f l))) (f x).
Proof.
  rewrite omap_app; cbn. destruct (f x); cbn; [by rewrite last_snoc | by rewrite app_nil_r].
Qed.

(** [str::trim] on UTF-8: the encodings of the [White_Space] characters. *)
Definition utf8 (bytes : list N) : string :=
  String.string_of_list_ascii (Ascii.ascii_of_N <$> bytes).
Definition white_space : list string :=
  ((fun n => utf8 [n]) <$> [9; 10; 11; 12; 13; 32]%N)
  ++ [utf8 [194; 133]; utf8 [194; 160]; utf8 [225; 154; 128]]%N
  ++ ((fun n => utf8 [226; 128; n]%N) <$> [128; 129; 130; 131; 132; 133; 134; 135; 136; 137; 138; 168; 169; 175]%N)
  ++ [utf8 [226; 129; 159]; utf8 [227; 128; 128]]%N.
Definition drop_prefix (s p : string) : option string :=
  if String.prefix p s then Some (String.substring (String.length p) (String.length s) s) else None.
Definition drop_suffix (s p : string) : option string :=
  let n := (String.length s - String.length p)%nat in
  if (String.length p <=? String.length s)%nat && String.eqb (String.substring n (String.length p) s) p
  then Some (String.substring 0 n s) else None.
Fixpoint strip_while (strip : string -> string -> option string) (fuel : nat) (s : string) : string :=
  match fuel with
  | O => s
  | S fuel =>
      match find_map (strip s) white_space with Some s' => strip_while strip fuel s' | None => s end
  end.
(** Each step removes a byte at least, so [String.length s] steps are enough. *)
Definition trim (s : string) : string :=
  let s := strip_while drop_prefix (String.length s) s in
  strip_while drop_suffix (String.length s) s.

Definition ascii_lower_char (c : Ascii.ascii) : Ascii.ascii :=
  let n := Ascii.N_of_ascii c in
  if ((65 <=? n) && (n <=? 90))%N then Ascii.ascii_of_N (n + 32) else c.
(** [str::to_ascii_lowercase]. *)
Fixpoint to_ascii_lowercase (s : string) : string :=
  match s with
  | EmptyString => EmptyString
  | String c s => String (ascii_lower_char c) (to_ascii_lowercase s)
  end.

(** [slice::sort_by], stable. *)
Fixpoint insert_by {A} (cmp : A -> A -> comparison) (x : A) (l : list A) : list A :=
  match l with
  | [] => [x]
  | y :: l' => match cmp x y with Gt => y :: insert_by cmp x l' | _ => x :: l end
  end.
Definition sort_by {A} (cmp : A -> A -> comparison) (l : list A) : list A :=
  foldr (insert_by cmp) [] l.

Lemma insert_by_perm {A} (cmp : A -> A -> comparison) x l : insert_by cmp x l ≡ₚ x :: l.
Proof.
  induction l as [|y l IH]; cbn; [done|]. destruct (cmp x y); try done.
  rewrite IH. apply Permutation_swap.
Qed.
Lemma sort_by_perm {A} (cmp : A -> A -> comparison) l : sort_by cmp l ≡ₚ l.
Proof. induction l as [|x l IH]; cbn; [done|]. by rewrite insert_by_perm, IH. Qed.
Lemma sort_by_sorted {A} (cmp : A -> A -> comparison) (R : relation A) l :
  Transitive R -> (forall x y, cmp x y = Gt -> R y x) -> (forall x y, cmp x y <> Gt -> R x y) ->
  StronglySorted R (sort_by cmp l).
Proof.
  intros Ht Hg Hn. induction l as [|x l IHl]; cbn; [constructor|].
  revert IHl. unfold sort_by. generalize (foldr (insert_by cmp) [] l). intros l' Hs. induction Hs as [|y l' Hl IH Hy]; cbn.
  - repeat constructor.
  - destruct (cmp x y) eqn:E.
    3: { constructor; [done|]. rewrite insert_by_perm. constructor; [by apply Hg|done]. }
    all: (constructor; [by constructor|]; assert (R x y) by (apply Hn; by rewrite E); constructor; [done|];
      eapply list.Forall_impl; [exact Hy|]; intros z; by apply Ht).
Qed.

(** Tuples compare lexicographically. *)
Definition then_cmp (a b : comparison) : comparison := match a with Eq => b | _ => a end.
Definition cmp_pair (a b : string * string) : comparison :=
  then_cmp (String.compare a.1 b.1) (String.compare a.2 b.2).

(** ** Lists keyed by a string *)
Section keyed.
Context {A B : Type} (key : B -> string).

Lemma filter_key_all i (l : list B) :
  Forall (fun b => key b = i) l -> filter (fun b => key b = i) l = l.
Proof. induction 1 as [|b l Hb _ IH]; [done|]. by rewrite filter_cons_True, IH. Qed.
Lemma filter_key_none i (l : list B) :
  Forall (fun b => key b <> i) l -> filter (fun b => key b = i) l = [].
Proof. induction 1 as [|b l Hb _ IH]; [done|]. by rewrite filter_cons_False. Qed.

(** Lists made per element of a list without duplicate keys. *)
Lemma filter_concat_key (f : A -> list B) (idf : A -> string) (l : list A) (x : A) :
  NoDup (idf <$> l) -> (forall a, a ∈ l -> Forall (fun b => key b = idf a) (f a)) -> x ∈ l ->
  filter (fun b => key b = idf x) (concat (f <$> l)) = f x.
Proof.
  assert (Hno : forall k, ~ idf x ∈ (idf <$> k) -> (forall a, a ∈ k -> Forall (fun b => key b = idf a) (f a)) ->
    filter (fun b => key b = idf x) (concat (f <$> k)) = []).
  { intros k Hx Hk. apply filter_key_none, List.Forall_concat, Forall_fmap, list.Forall_forall.
    intros a Ha. unfold compose. eapply Forall_impl; [|by apply Hk]. cbn. intros b -> Heq. apply Hx.
    rewrite <- Heq. by apply list_elem_of_fmap_2. }
  induction l as [|a l IH]; cbn; [by intros _ _ ?%not_elem_of_nil|].
  intros [Ha Hnd]%list.NoDup_cons Hk Hx. rewrite list.filter_app.
  assert (Hl : forall y, y ∈ l -> Forall (fun b => key b = idf y) (f y)) by (intros; apply Hk; by right).
  assert (Hfa : Forall (fun b => key b = idf a) (f a)) by (apply Hk; left).
  apply elem_of_cons in Hx as [->|Hx].
  - by rewrite (filter_key_all _ _ Hfa), Hno, app_nil_r.
  - rewrite (IH Hnd Hl Hx), filter_key_none; [done|]. eapply Forall_impl; [|exact Hfa]. cbn.
    intros b -> Heq. apply Ha. rewrite Heq. by apply list_elem_of_fmap_2.
Qed.

Lemma same_key_eq (l : list B) a b : NoDup (key <$> l) -> a ∈ l -> b ∈ l -> key a = key b -> a = b.
Proof.
  intros Hnd [i Hi]%list_elem_of_lookup [j Hj]%list_elem_of_lookup E.
  assert (i = j) as <-; [|congruence].
  eapply NoDup_lookup; [exact Hnd| |]; rewrite list_lookup_fmap; [by rewrite Hi|]. rewrite Hj. cbn. by rewrite E.
Qed.

(** A condition on the key alone, under a filter on the key. *)
Lemma filter_filter_key (P : string -> Prop) {HP : forall i, Decision (P i)} i (l : list B) :
  filter (fun b => key b = i) (filter (fun b => P (key b)) l) =
  if decide (P i) then filter (fun b => key b = i) l else [].
Proof.
  induction l as [|b l IH]; [by case_decide|]. rewrite (filter_cons (fun b => P (key b))).
  destruct (decide (P (key b))) as [Hp|Hp].
  - rewrite !filter_cons, IH. repeat case_decide; subst; done.
  - rewrite IH, filter_cons. repeat case_decide; subst; done.
Qed.
End keyed.

(** ** Loops: up to [2 ^ k] iterations of [step] while it gives a next state,
    and whether the loop ended by itself *)
Fixpoint run_loop {S} (step : S -> option S) (k : nat) (s : S) : S * bool :=
  match k with
  | O => match step s with None => (s, true) | Some s' => (s', false) end
  | S k =>
      let '(s', ended) := run_loop step k s in
      if ended then (s', true) else run_loop step k s'
  end.

Section loop.
Context {S : Type} (step : S -> option S).

Inductive iterates : nat -> S -> S -> Prop :=
| iterates_0 s : iterates 0 s s
| iterates_S n s s' s'' : step s = Some s' -> iterates n s' s'' -> iterates (Datatypes.S n) s s''.

Lemma iterates_app n m s s' s'' : iterates n s s' -> iterates m s' s'' -> iterates (n + m) s s''.
Proof. induction 1; [done|]. intros. econstructor; eauto. Qed.

Lemma run_loop_spec k s :
  match run_loop step k s with
  | (s', true) => step s' = None /\ exists n, iterates n s s'
  | (s', false) => iterates (2 ^ k) s s'
  end.
Proof.
  revert s. induction k as [|k IH]; intros s; cbn [run_loop].
  - destruct (step s) as [s'|] eqn:E; [|split; [done|exists 0%nat; constructor]].
    econstructor; [done|constructor].
  - pose proof (IH s) as H. destruct (run_loop step k s) as [s' []]; [done|].
    pose proof (IH s') as H'. destruct (run_loop step k s') as [s'' []].
    + destruct H' as [H1 [n Hn]]. split; [done|]. eexists. by eapply iterates_app.
    + replace (2 ^ Datatypes.S k)%nat with (2 ^ k + 2 ^ k)%nat by (cbn; lia). by eapply iterates_app.
Qed.

(** A loop whose measure falls at every step ends within its initial measure. *)
Lemma run_loop_ends (m : S -> Z) k s :
  (forall s s', step s = Some s' -> m s' < m s /\ 0 <= m s') -> 0 <= m s < 2 ^ Z.of_nat k ->
  exists s' n, run_loop step k s = (s', true) /\ step s' = None /\ iterates n s s'.
Proof.
  intros Hm Hs. assert (Hn : forall n a b, iterates n a b -> 0 <= m a -> Z.of_nat n <= m a).
  { induction 1 as [a|n a b c Hab _ IH]; intros Ha; [lia|]. apply Hm in Hab. lia. }
  pose proof (run_loop_spec k s) as H. destruct (run_loop step k s) as [s' []].
  - destruct H as [H [n Hi]]. by exists s', n.
  - apply Hn in H; [|lia]. rewrite Nat2Z.inj_pow in H. change (Z.of_nat 2) with 2 in H. lia.
Qed.

Lemma iterates_det n m a b c :
  iterates n a b -> step b = None -> iterates m a c -> step c = None -> b = c.
Proof.
  intros Hn Hb. revert m c. induction Hn as [a|n a a' b Ha _ IH]; intros m c Hm Hc.
  - destruct Hm; [done|congruence].
  - destruct Hm as [a|m a a'' c Ha']; [congruence|]. assert (a'' = a') as -> by congruence. eauto.
Qed.
End loop.
Arguments run_loop : simpl never.

(** Insertions one by one make the map of their list. *)
Lemma fold_insert {K A} `{Countable K} (l : list (K * A)) : forall d : gmap K A,
  NoDup (fst <$> l) -> fold_left (fun d p => <[fst p := snd p]> d) l d = list_to_map l ∪ d.
Proof.
  induction l as [|[k a] l IH]; intros d Hn; cbn [fold_left]; [by rewrite (left_id_L _ _)|].
  apply list.NoDup_cons in Hn as [Hk Hn]. rewrite IH by done. cbn.
  rewrite <- insert_union_l, insert_union_r; [done|]. by apply not_elem_of_list_to_map_1.
Qed.
