(* ===== verification/Guardrails.v ===== *)
(** * Guardrails: the approval pipeline in front of privileged actions

    Models [crates/hf-guardrails/src/{action,hitl,lib}.rs] and the activation
    cell of [crates/hf-core/src/armed.rs].  The process state an authorization
    reads is a [World]: the environment variables and the shared [AtomicBool]
    cells behind [ArmedState] handles.  [authorize] returns the requests that
    reached the approval gate together with its verdict, so theorems can speak
    about who was asked.  Log records are not modelled. *)
From S2P Require Import Prelude.

(** ** The action taxonomy *)
Inductive RiskTier := Low | Medium | High | Critical.
#[export] Instance RiskTier_eq_dec : EqDecision RiskTier.
Proof. solve_decision. Defined.

Inductive Action :=
| Discover
| AnalyzeSource (analyzer : string)
| DraftHarness
| CompileHarness
| RunHarness
| PromoteHarness
| RunFuzzer (engine : string) (duration_secs : Z)
| RunConcolic (target : string) (duration_secs : Z)
| VerifyRemediation (engine : string) (duration_secs : Z)
| RunProjectBuild (build_system : string)
| PublishChangeComparison (destination : string)
| PublishFindings (destination : string)
| AutomotiveOffline (operation : string)
| AutomotiveVirtualCan (protocol : string) (duration_secs : Z)
| AutomotivePhysicalBench (interface protocol : string) (duration_secs : Z)
    (sidecar_image_sha256 : string)
| Triage
| CorpusOp
| Chat
| ShellExec (command : string)
| WriteHostFile (path : string)
| AgentTool (name : string).
#[export] Instance Action_eq_dec : EqDecision Action.
Proof. solve_decision. Defined.

Definition kind (a : Action) : string :=
  match a with
  | Discover => "discover"
  | AnalyzeSource _ => "analyze_source"
  | DraftHarness => "draft_harness"
  | CompileHarness => "compile_harness"
  | RunHarness => "run_harness"
  | PromoteHarness => "promote_harness"
  | RunFuzzer _ _ => "run_fuzzer"
  | RunConcolic _ _ => "run_concolic"
  | VerifyRemediation _ _ => "verify_remediation"
  | RunProjectBuild _ => "run_project_build"
  | PublishChangeComparison _ => "publish_change_comparison"
  | PublishFindings _ => "publish_findings"
  | AutomotiveOffline _ => "automotive_offline"
  | AutomotiveVirtualCan _ _ => "automotive_virtual_can"
  | AutomotivePhysicalBench _ _ _ _ => "automotive_physical_bench"
  | Triage => "triage"
  | CorpusOp => "corpus_op"
  | Chat => "chat"
  | ShellExec _ => "shell_exec"
  | WriteHostFile _ => "write_host_file"
  | AgentTool _ => "agent_tool"
  end.

Definition label (a : Action) : string :=
  match a with
  | Discover => "discover targets"
  | AnalyzeSource analyzer => "analyze source with " +:+ analyzer
  | DraftHarness => "draft harness"
  | CompileHarness => "compile harness in sandbox"
  | RunHarness => "run harness (smoke fuzz)"
  | PromoteHarness => "promote harness"
  | RunFuzzer engine d => "run " +:+ engine +:+ " for " +:+ pretty d +:+ "s"
  | RunConcolic target d =>
      "run concolic enrichment for " +:+ target +:+ " for " +:+ pretty d +:+ "s"
  | VerifyRemediation engine d =>
      "verify " +:+ engine +:+ " remediation for " +:+ pretty d +:+ "s"
  | RunProjectBuild b => "run the project's " +:+ b +:+ " build"
  | PublishChangeComparison d => "publish change comparison to " +:+ d
  | PublishFindings d => "publish findings to " +:+ d
  | AutomotiveOffline op => "automotive offline " +:+ op
  | AutomotiveVirtualCan p d =>
      "automotive virtual CAN " +:+ p +:+ " for " +:+ pretty d +:+ "s"
  | AutomotivePhysicalBench i p d sha =>
      "automotive physical CAN interface " +:+ i +:+ " using " +:+ p +:+ " for "
      +:+ pretty d +:+ "s with image sha256:" +:+ sha
  | Triage => "triage crash artifacts"
  | CorpusOp => "corpus operation"
  | Chat => "chat turn"
  | ShellExec command => "shell: " +:+ command
  | WriteHostFile path => "write host file: " +:+ path
  | AgentTool name => "agent tool: " +:+ name
  end.

Definition risk (a : Action) : RiskTier :=
  match a with
  | Discover | DraftHarness | CorpusOp | Chat => Low
  | CompileHarness | AnalyzeSource _ | Triage | AutomotiveOffline _
  | AgentTool _ => Medium
  | RunHarness | PromoteHarness | RunFuzzer _ _ | RunConcolic _ _
  | VerifyRemediation _ _ | RunProjectBuild _ | PublishChangeComparison _
  | PublishFindings _ | AutomotiveVirtualCan _ _
  | AutomotivePhysicalBench _ _ _ _ | WriteHostFile _ => High
  | ShellExec _ => Critical
  end.

(** The derived [Ord] follows declaration order. *)
Definition tier_rank (t : RiskTier) : Z :=
  match t with Low => 0 | Medium => 1 | High => 2 | Critical => 3 end.
Definition tier_le (t u : RiskTier) : bool := tier_rank t <=? tier_rank u.

(** [{:?}] of a tier, and its serde name. *)
Definition tier_debug (t : RiskTier) : string :=
  match t with
  | Low => "Low" | Medium => "Medium" | High => "High" | Critical => "Critical"
  end.
Definition tier_as_str (t : RiskTier) : string :=
  match t with
  | Low => "low" | Medium => "medium" | High => "high" | Critical => "critical"
  end.

(** ** The activation cell ([hf_core::armed]) and the process world *)
Definition ArmedState := positive.

Record World := mkWorld {
  armed_cells : gmap positive bool;
  env : gmap string string;
}.

(** [ArmedState::new] allocates a disarmed cell; [clone] copies the handle. *)
Definition armed_new (w : World) : ArmedState * World :=
  let l := fresh (dom (armed_cells w)) in
  (l, mkWorld (<[l := false]> (armed_cells w)) (env w)).
Definition armed_clone (s : ArmedState) : ArmedState := s.
Definition arm (s : ArmedState) (w : World) : World :=
  mkWorld (<[s := true]> (armed_cells w)) (env w).
Definition disarm (s : ArmedState) (w : World) : World :=
  mkWorld (<[s := false]> (armed_cells w)) (env w).
Definition is_armed (s : ArmedState) (w : World) : bool :=
  default false (armed_cells w !! s).

(** ** Decisions, advice and the traits of the pipeline *)
Inductive Decision :=
| Allow
| RequireApproval (tier : RiskTier) (reason : string)
| Deny (reason : string).

Inductive Advice :=
| Abstain
| AdviceRequireApproval (reason : string).

(** [dyn Advisor], [dyn DenyGuard] and [dyn ApprovalGate]: each is consulted
    through one method. *)
Definition Advisor := World -> Action -> Advice.
Definition DenyGuard := World -> Action -> option string.
Definition ApprovalGate := World -> Action -> string -> bool.

(** ** Approval gates ([hitl.rs]) *)
Definition AutoApprove : ApprovalGate := fun _ _ _ => true.
Definition DenyAll : ApprovalGate := fun _ _ _ => false.
Definition auto_approve_enabled (w : World) : bool :=
  match env w !! "HF_AUTO_APPROVE" with
  | Some v => bool_decide (v ∈ ["1"; "true"; "yes"; "on"])
  | None => false
  end.
Definition EnvApprovalGate : ApprovalGate := fun w _ _ => auto_approve_enabled w.

(** ** The disarmed guard *)
Record DisarmedGuard := mkDisarmedGuard {
  armed : ArmedState;
  arm_required_above : RiskTier;
}.
Definition DisarmedGuard_new (s : ArmedState) : DisarmedGuard :=
  mkDisarmedGuard s Medium.
Definition DisarmedGuard_deny_reason (g : DisarmedGuard) : DenyGuard := fun w a =>
  if is_armed (armed g) w || tier_le (risk a) (arm_required_above g) then None
  else Some ("'" +:+ label a +:+
    "' requires a freshly armed session: restored work does not resume on its own").

(** ** Policy *)
Record GuardrailPolicy := mkPolicy {
  auto_allow_max : RiskTier;
  deny_at : option RiskTier;
}.
Definition default_policy : GuardrailPolicy := mkPolicy Medium (Some Critical).
Definition permissive_policy : GuardrailPolicy := mkPolicy Critical None.

Definition evaluate (p : GuardrailPolicy) (a : Action) : Decision :=
  let tier := risk a in
  let rest :=
    if tier_le tier (auto_allow_max p) then Allow
    else RequireApproval tier
      (tier_debug tier +:+ "-risk action '" +:+ label a +:+ "' requires approval") in
  match deny_at p with
  | Some d =>
      if tier_le d tier then
        Deny (tier_debug tier +:+ "-risk action '" +:+ label a +:+ "' is denied by policy")
      else rest
  | None => rest
  end.

(** ** The engine *)
Inductive GuardrailError := Denied (reason : string).

Record Guardrails := mkGuardrails {
  policy : GuardrailPolicy;
  gate : ApprovalGate;
  advisors : list Advisor;
  guards : list DenyGuard;
}.
Definition new (p : GuardrailPolicy) (g : ApprovalGate) : Guardrails :=
  mkGuardrails p g [] [].
Definition with_approval_gate (gr : Guardrails) (g : ApprovalGate) : Guardrails :=
  mkGuardrails (policy gr) g (advisors gr) (guards gr).
Definition with_advisor (gr : Guardrails) (a : Advisor) : Guardrails :=
  mkGuardrails (policy gr) (gate gr) (advisors gr ++ [a]) (guards gr).
Definition with_guard (gr : Guardrails) (g : DenyGuard) : Guardrails :=
  mkGuardrails (policy gr) (gate gr) (advisors gr) (guards gr ++ [g]).
Definition permissive : Guardrails := new permissive_policy AutoApprove.
Definition env_gated : Guardrails := new default_policy EnvApprovalGate.
Definition from_env_with_gate (w : World) (g : ApprovalGate) : Guardrails :=
  if decide (env w !! "HF_GUARDRAILS" = Some "permissive") then permissive
  else new default_policy g.
Definition from_env (w : World) : Guardrails := from_env_with_gate w EnvApprovalGate.

(** The gate requests an authorization made, in order. *)
Definition Prompts := list (Action * string).

Definition require_approval (gr : Guardrails) (w : World) (a : Action)
    (reason : string) : Prompts * bool :=
  ([(a, reason)], gate gr w a reason).

Definition first_advice (gr : Guardrails) (w : World) (a : Action) : option string :=
  find_map (fun adv : Advisor =>
    match adv w a with
    | AdviceRequireApproval reason => Some reason
    | Abstain => None
    end) (advisors gr).

Definition first_guard_denial (gr : Guardrails) (w : World) (a : Action) : option string :=
  find_map (fun g : DenyGuard => g w a) (guards gr).

Definition resolve_policy (gr : Guardrails) (w : World) (a : Action)
    (advised : option string) : Prompts * Result GuardrailError unit :=
  let ask reason :=
    ([(a, reason)],
     if gate gr w a reason then Ok tt
     else Err (Denied ("approval declined: " +:+ reason))) in
  match evaluate (policy gr) a with
  | Deny reason => ([], Err (Denied reason))
  | RequireApproval _ reason => ask reason
  | Allow =>
      match advised with
      | Some reason => ask reason
      | None => ([], Ok tt)
      end
  end.

(** [authorize] awaits the gate between its second and third phase, so the
    guards read the world [w'] of that later moment. *)
Definition authorize (gr : Guardrails) (w w' : World) (a : Action)
    : Prompts * Result GuardrailError unit :=
  let advised := first_advice gr w a in
  match resolve_policy gr w a advised with
  | (prompts, Err e) => (prompts, Err e)
  | (prompts, Ok _) =>
      match first_guard_denial gr w' a with
      | Some reason => (prompts, Err (Denied reason))
      | None => (prompts, Ok tt)
      end
  end.
Definition authorized (gr : Guardrails) (w w' : World) (a : Action) : bool :=
  is_ok (authorize gr w w' a).2.

(** ** Lemmas *)
Lemma tier_le_spec t u : tier_le t u = true <-> tier_rank t <= tier_rank u.
Proof. unfold tier_le. lia. Qed.

Lemma first_guard_denial_None gr w a :
  first_guard_denial gr w a = None <-> Forall (fun g : DenyGuard => g w a = None) (guards gr).
Proof. apply find_map_None. Qed.

Lemma is_armed_new w s w' : armed_new w = (s, w') -> is_armed s w' = false.
Proof. intros [= <- <-]. unfold is_armed; cbn. by rewrite lookup_insert_eq. Qed.
Lemma is_armed_arm s w : is_armed s (arm (armed_clone s) w) = true.
Proof. unfold is_armed, armed_clone; cbn. by rewrite lookup_insert_eq. Qed.
Lemma is_armed_disarm s w : is_armed s (disarm (armed_clone s) w) = false.
Proof. unfold is_armed, armed_clone; cbn. by rewrite lookup_insert_eq. Qed.
Lemma is_armed_arm_ne s other w : other <> s -> is_armed s (arm other w) = is_armed s w.
Proof. intros. unfold is_armed; cbn. by rewrite lookup_insert_ne. Qed.

Lemma DisarmedGuard_abstains g w a :
  DisarmedGuard_deny_reason g w a = None <->
  is_armed (armed g) w = true \/ tier_le (risk a) (arm_required_above g) = true.
Proof. unfold DisarmedGuard_deny_reason. destruct (is_armed _ _), (tier_le _ _); naive_solver. Qed.

(** What the policy and the advisors ask before an action may proceed. *)
Inductive Consent := Forbidden | Free | Asks (reason : string).
Definition consent (gr : Guardrails) (w : World) (a : Action) : Consent :=
  match evaluate (policy gr) a with
  | Deny _ => Forbidden
  | RequireApproval _ reason => Asks reason
  | Allow => from_option Asks Free (first_advice gr w a)
  end.

Lemma authorized_true gr w w' a :
  authorized gr w w' a = true <->
  match consent gr w a with
  | Forbidden => False
  | Free => True
  | Asks reason => gate gr w a reason = true
  end /\ Forall (fun g : DenyGuard => g w' a = None) (guards gr).
Proof.
  rewrite <- first_guard_denial_None.
  unfold authorized, authorize, resolve_policy, consent.
  destruct (evaluate (policy gr) a); [destruct (first_advice gr w a) | |]; cbn;
    repeat case_match; naive_solver.
Qed.

Lemma consent_app gr w a advs gs :
  consent gr w a <> Free ->
  consent (mkGuardrails (policy gr) (gate gr) (advisors gr ++ advs) gs) w a = consent gr w a.
Proof.
  unfold consent, first_advice; cbn. rewrite find_map_app.
  destruct (evaluate (policy gr) a); [|done..].
  by destruct (find_map _ (advisors gr)).
Qed.

(** ** Properties *)

(** C1: [authorize] permits an action exactly when the policy does not deny it,
    every consent the policy or an advisor asks for was given by the gate, and
    every deny guard abstains afterwards; it asks the gate at most once, with
    the policy's reason or else the first advisor's, and never for an action the
    policy denies. *)
Theorem authorize_iff gr w w' a :
  ((authorize gr w w' a).2 = Ok tt <->
    match evaluate (policy gr) a with
    | Deny _ => False
    | RequireApproval _ reason => gate gr w a reason = true
    | Allow => forall reason, first_advice gr w a = Some reason -> gate gr w a reason = true
    end /\ (forall g, g ∈ guards gr -> g w' a = None)) /\
  (authorize gr w w' a).1 =
    match evaluate (policy gr) a with
    | Deny _ => []
    | RequireApproval _ reason => [(a, reason)]
    | Allow => from_option (fun reason => [(a, reason)]) [] (first_advice gr w a)
    end.
Proof.
  rewrite <- list.Forall_forall, <- first_guard_denial_None.
  unfold authorize, resolve_policy.
  destruct (evaluate (policy gr) a); [destruct (first_advice gr w a) | |]; cbn;
    rewrite ?forall_eq_Some, ?forall_None_eq; repeat case_match; naive_solver.
Qed.

(** The extension points only tighten: whatever advisors and guards are
    registered after the existing ones, an action they leave permitted was
    permitted without them, and the order of the deny guards never decides
    whether an action is permitted. *)
Theorem extensions_only_tighten gr advs gs gs' w w' a :
  (authorized (mkGuardrails (policy gr) (gate gr) (advisors gr ++ advs) (guards gr ++ gs)) w w' a
     = true -> authorized gr w w' a = true) /\
  (guards gr ≡ₚ gs' ->
   authorized (mkGuardrails (policy gr) (gate gr) (advisors gr) gs') w w' a
     = authorized gr w w' a).
Proof.
  split.
  - rewrite !authorized_true; cbn; intros [Hc Hg].
    apply Forall_app in Hg as [Hg _]. split; [|done].
    destruct (consent gr w a) eqn:E; [| done |];
      rewrite consent_app, E in Hc by congruence; done.
  - intros HP. apply eq_iff_eq_true. rewrite !authorized_true; cbn. by rewrite HP.
Qed.

Lemma extensions_only_tighten_witness :
  let w := mkWorld ∅ ∅ in
  let ask : Advisor := fun _ _ => AdviceRequireApproval "manual autonomy" in
  let shell : DenyGuard := fun _ a => if decide (kind a = "shell_exec") then Some "no shell" else None in
  let gr := with_guard (with_guard permissive shell)
    (DisarmedGuard_deny_reason (DisarmedGuard_new 1%positive)) in
  authorized gr w w Triage = true /\
  authorized (mkGuardrails (policy gr) (gate gr) (advisors gr) (rev (guards gr))) w w RunHarness
    = authorized gr w w RunHarness.
Proof.
  intros w ask shell gr.
  pose proof (extensions_only_tighten gr [ask] [shell] (rev (guards gr)) w w) as H.
  split.
  - exact (proj1 (H Triage) eq_refl).
  - apply (proj2 (H RunHarness)), Permutation_swap.
Defined.

(** Consent does not survive a restart: with a disarmed guard installed on
    the cell of a freshly created activation state, no action above the medium
    tier is permitted, whatever the policy, the gate and the other extensions
    say, until some clone of the handle arms it; arming another session's cell
    changes nothing, and disarming withdraws the permission again. *)
Theorem disarmed_until_armed gr w0 w s w1 a :
  armed_new w0 = (s, w1) ->
  DisarmedGuard_deny_reason (DisarmedGuard_new s) ∈ guards gr ->
  tier_rank Medium < tier_rank (risk a) ->
  authorized gr w w1 a = false /\
  (forall other, other <> s -> authorized gr w (arm other w1) a = false) /\
  (forall w2, authorized gr w (disarm (armed_clone s) w2) a = false) /\
  (guards gr = [DisarmedGuard_deny_reason (DisarmedGuard_new s)] ->
   forall w2, authorized gr w (arm (armed_clone s) w2) a
     = authorized (mkGuardrails (policy gr) (gate gr) (advisors gr) []) w w2 a).
Proof.
  intros Hnew Hin Hrisk.
  assert (Hdeny : forall w2, is_armed s w2 = false -> authorized gr w w2 a = false).
  { intros w2 Hw2. apply not_true_is_false. rewrite authorized_true, list.Forall_forall.
    intros [_ Hg]. specialize (Hg _ Hin). rewrite DisarmedGuard_abstains, tier_le_spec in Hg.
    cbn in Hg, Hrisk. destruct Hg; [congruence | lia]. }
  repeat split.
  - by eapply Hdeny, is_armed_new.
  - intros other Hne. apply Hdeny. rewrite is_armed_arm_ne by done. by eapply is_armed_new.
  - intros w2. apply Hdeny, is_armed_disarm.
  - intros Hg w2. apply eq_iff_eq_true. rewrite !authorized_true, Hg; cbn.
    rewrite Forall_singleton, Forall_nil_iff, DisarmedGuard_abstains.
    cbn. rewrite is_armed_arm. unfold consent, first_advice; cbn. naive_solver.
Qed.

Lemma disarmed_until_armed_witness :
  let s := (armed_new (mkWorld ∅ ∅)).1 in
  let w1 := (armed_new (mkWorld ∅ ∅)).2 in
  let gr := with_guard permissive (DisarmedGuard_deny_reason (DisarmedGuard_new s)) in
  authorized gr w1 w1 RunHarness = false /\ authorized gr w1 (arm s w1) RunHarness = true.
Proof.
  intros s w1 gr.
  assert (Hin : DisarmedGuard_deny_reason (DisarmedGuard_new s) ∈ guards gr) by left.
  destruct (disarmed_until_armed gr (mkWorld ∅ ∅) w1 s w1 RunHarness
    eq_refl Hin ltac:(cbn; lia)) as (H1 & _ & _ & H2).
  split; [exact H1 | exact (H2 eq_refl w1)].
Defined.

(** The engine built from the environment permits exactly: everything when
    [HF_GUARDRAILS=permissive]; otherwise low and medium risk freely, high risk
    only under a truthy [HF_AUTO_APPROVE], and never a critical action. *)
Theorem from_env_safe w w' a :
  authorized (from_env w) w w' a = true <->
  env w !! "HF_GUARDRAILS" = Some "permissive" \/
  tier_rank (risk a) <= tier_rank Medium \/
  risk a = High /\ auto_approve_enabled w = true.
Proof.
  rewrite authorized_true. unfold from_env, from_env_with_gate, consent, evaluate.
  case_decide as Hp; cbn; destruct (risk a); cbn; rewrite Forall_nil_iff;
    unfold EnvApprovalGate; intuition (congruence || lia).
Qed.
