(* ===== verification/LoopGuard.v ===== *)
(** * The agent's runaway-loop guard

    Models [crates/hf-guardrails/src/loop_guard.rs].  The [VecDeque] is a list,
    oldest step first; thresholds are [usize] values in [Z]; the set of distinct
    signatures of the drift window is a [gset].  The product in [max_history] is
    the unchecked one of the source, wrapping as a release build does. *)
From S2P Require Import Prelude.

Inductive LoopPattern := Repetition | Oscillation | RedundantToolCall | Drift.

Definition as_str (p : LoopPattern) : string :=
  match p with
  | Repetition => "repetition"
  | Oscillation => "oscillation"
  | RedundantToolCall => "redundant_tool_call"
  | Drift => "drift"
  end.

Record LoopGuardConfig := mkConfig {
  repetition_threshold : Z;
  oscillation_threshold : Z;
  redundant_threshold : Z;
  drift_window : Z;
  enabled : bool;
}.
Definition default_config : LoopGuardConfig := mkConfig 4 3 3 8 true.

Record StepRecord := mkStep {
  action : string;
  args_signature : option string;
}.
#[export] Instance StepRecord_eq_dec : EqDecision StepRecord.
Proof. solve_decision. Defined.
Definition tool (a args : string) : StepRecord := mkStep a (Some args).
Definition bare_action (a : string) : StepRecord := mkStep a None.
Definition signature_key (s : StepRecord) : string * option string :=
  (action s, args_signature s).

Record LoopDetection := mkDetection {
  pattern : LoopPattern;
  reason : string;
}.

Record LoopGuard := mkGuard {
  config : LoopGuardConfig;
  history : list StepRecord;
}.
Definition new (c : LoopGuardConfig) : LoopGuard := mkGuard c [].
Definition with_defaults : LoopGuard := new default_config.

Definition max_history (g : LoopGuard) : Z :=
  let c := config g in
  let widest := Z.max (Z.max (Z.max (repetition_threshold c)
    (wrapping 64 (oscillation_threshold c * 2))) (redundant_threshold c)) (drift_window c) in
  Z.max (saturating_mul usize_MAX widest 2) 1.

Definition reset (g : LoopGuard) : LoopGuard := mkGuard (config g) [].

Definition same_key (s t : StepRecord) : bool :=
  bool_decide (signature_key s = signature_key t).

Definition check_repetition (g : LoopGuard) : option LoopDetection :=
  let threshold := repetition_threshold (config g) in
  if (threshold =? 0) || (zlen (history g) <? threshold) then None
  else
    last ← head (rev (history g));
    let consecutive := zlen (take_while (fun s => same_key s last) (rev (history g))) in
    if threshold <=? consecutive then
      Some (mkDetection Repetition
        ("action '" +:+ action last +:+ "' repeated " +:+ pretty consecutive
         +:+ " times in a row (threshold " +:+ pretty threshold +:+ ")"))
    else None.

Definition check_oscillation (g : LoopGuard) : option LoopDetection :=
  let threshold := oscillation_threshold (config g) in
  needed ← checked_mul_usize threshold 2;
  if (needed =? 0) || (zlen (history g) <? needed) then None
  else
    let tail := take (Z.to_nat needed) (rev (history g)) in
    a ← tail !! 0%nat;
    b ← tail !! 1%nat;
    if same_key a b then None
    else
      let alternates := forallb (fun '(i, s) =>
        if Nat.even i then same_key s a else same_key s b) (imap pair tail) in
      if alternates then
        Some (mkDetection Oscillation
          ("oscillation between '" +:+ action a +:+ "' and '" +:+ action b
           +:+ "' for " +:+ pretty threshold +:+ " cycles"))
      else None.

Definition check_redundant_tool (g : LoopGuard) : option LoopDetection :=
  let threshold := redundant_threshold (config g) in
  if (threshold =? 0) || (zlen (history g) <? threshold) then None
  else
    last ← head (rev (history g));
    sig ← args_signature last;
    let consecutive := zlen (take_while (fun s =>
      bool_decide (action s = action last) && bool_decide (args_signature s = Some sig))
      (rev (history g))) in
    if threshold <=? consecutive then
      Some (mkDetection RedundantToolCall
        ("tool '" +:+ action last +:+ "' called with identical arguments "
         +:+ pretty consecutive +:+ " times (threshold " +:+ pretty threshold +:+ ")"))
    else None.

(** The number of distinct signatures among [l]. *)
Definition distinct (l : list StepRecord) : Z :=
  Z.of_nat (size (list_to_set (signature_key <$> l) : gset (string * option string))).

Definition check_drift (g : LoopGuard) : option LoopDetection :=
  let window := drift_window (config g) in
  if (window <? 4) || (zlen (history g) <? window) then None
  else
    let d := distinct (take (Z.to_nat window) (rev (history g))) in
    if (1 <=? d) && (saturating_mul usize_MAX d 2 <=? window) then
      Some (mkDetection Drift
        ("stuck cycling over " +:+ pretty d +:+ " distinct step(s) across the last "
         +:+ pretty window +:+ " steps"))
    else None.

(** [while history.len() > cap { history.pop_front() }]. *)
Fixpoint pop_front_to (cap : Z) (l : list StepRecord) : list StepRecord :=
  match l with
  | [] => []
  | _ :: l' => if cap <? zlen l then pop_front_to cap l' else l
  end.

Definition or_else {A} (o : option A) (k : option A) : option A :=
  match o with Some a => Some a | None => k end.

Definition record (g : LoopGuard) (step : StepRecord) : LoopGuard * option LoopDetection :=
  if negb (enabled (config g)) then (g, None)
  else
    let g := mkGuard (config g) (pop_front_to (max_history g) (history g ++ [step])) in
    (g, or_else (or_else (or_else (check_redundant_tool g) (check_repetition g))
          (check_oscillation g)) (check_drift g)).

(** A guard fed a whole trace of steps, detections ignored. *)
Definition run (c : LoopGuardConfig) (trace : list StepRecord) : LoopGuard :=
  fold_left (fun g s => (record g s).1) trace (new c).

(** ** Specification: the patterns, on the steps newest first *)
Definition Redundant (n : Z) (recent : list StepRecord) : Prop :=
  0 < n /\ exists a args rest, recent = replicate (Z.to_nat n) (tool a args) ++ rest.
Definition Repeats (n : Z) (recent : list StepRecord) : Prop :=
  0 < n /\ exists s rest, recent = replicate (Z.to_nat n) s ++ rest.
Definition Oscillates (n : Z) (recent : list StepRecord) : Prop :=
  0 < n /\ exists a b rest, a <> b /\
    recent = concat (replicate (Z.to_nat n) [a; b]) ++ rest.
Definition Cycles (w : Z) (recent : list StepRecord) : Prop :=
  4 <= w <= zlen recent /\ distinct (take (Z.to_nat w) recent) * 2 <= w.

(** Thresholds are machine words; the drift window stays below the largest one,
    at which the saturated [distinct * 2] could no longer exceed it. *)
Definition usize_config (c : LoopGuardConfig) : Prop :=
  is_u64 (repetition_threshold c) /\ is_u64 (oscillation_threshold c) /\
  is_u64 (redundant_threshold c) /\ 0 <= drift_window c < usize_MAX.

(** ** Lemmas: each check against its pattern *)
Lemma same_key_spec s t : same_key s t = true <-> s = t.
Proof.
  unfold same_key, signature_key. rewrite bool_decide_eq_true.
  destruct s, t; cbn. naive_solver.
Qed.

Lemma pop_front_to_drop cap l :
  0 <= cap -> pop_front_to cap l = drop (length l - Z.to_nat cap) l.
Proof.
  intros Hc. induction l as [|x l IH]; [done|]. cbn -[Nat.sub]. zlen_norm.
  case_match.
  - rewrite IH. replace (S (length l) - Z.to_nat cap)%nat
      with (S (length l - Z.to_nat cap)) by (unfold zlen in *; lia). done.
  - replace (S (length l) - Z.to_nat cap)%nat with 0%nat by (unfold zlen in *; lia). done.
Qed.

Lemma rev_pop_front_to cap l :
  0 <= cap -> rev (pop_front_to cap l) = take (Z.to_nat cap) (rev l).
Proof. intros Hc. by rewrite pop_front_to_drop, firstn_rev by done. Qed.

Section checks.
Context (g : LoopGuard).
Notation recent := (rev (history g)).

Lemma head_recent n x rest : (0 < n)%nat -> recent = replicate n x ++ rest -> head recent = Some x.
Proof. intros Hn ->. by destruct n; [lia|]. Qed.

Lemma len_recent : zlen recent = zlen (history g).
Proof. unfold zlen. by rewrite length_rev. Qed.

Lemma check_repetition_spec :
  0 <= repetition_threshold (config g) ->
  is_Some (check_repetition g) <-> Repeats (repetition_threshold (config g)) recent.
Proof.
  intros Hn. unfold check_repetition, Repeats. rewrite <- len_recent.
  set (n := repetition_threshold _) in *.
  assert (Hpre : forall s, n <= zlen (take_while (fun t => same_key t s) recent) <->
    exists rest, recent = replicate (Z.to_nat n) s ++ rest).
  { intros s. rewrite <- (take_while_prefix (fun t => same_key t s)) by (intros; apply same_key_spec).
    unfold zlen. lia. }
  destruct (_ || _) eqn:E.
  - split; [by intros []|]. intros (? & s & rest & Hr).
    assert (n = 0 \/ zlen recent < n) as [?|Hl] by lia; [lia|].
    rewrite Hr, zlen_app in Hl. unfold zlen in Hl. rewrite length_replicate in Hl. lia.
  - destruct (head recent) as [s|] eqn:Hs; cbn.
    + case_match eqn:Ec; (split; [|intros (? & s' & rest & Hr)]).
      * intros _. split; [lia|]. exists s. apply Hpre. lia.
      * by eexists.
      * by intros [].
      * exfalso. assert (Some s = Some s') as [= <-]
          by (rewrite <- Hs; exact (head_recent (Z.to_nat n) _ _ ltac:(lia) Hr)).
        assert (n <= zlen (take_while (fun t => same_key t s) recent)) by (apply Hpre; eauto). lia.
    + split; [by intros []|]. intros (? & s & rest & Hr).
      pose proof (head_recent (Z.to_nat n) _ _ ltac:(lia) Hr). unfold tool in *. congruence.
Qed.

Lemma check_redundant_spec :
  0 <= redundant_threshold (config g) ->
  is_Some (check_redundant_tool g) <-> Redundant (redundant_threshold (config g)) recent.
Proof.
  intros Hn. unfold check_redundant_tool, Redundant. rewrite <- len_recent.
  set (n := redundant_threshold _) in *.
  assert (Hpre : forall a s, n <= zlen (take_while (fun t =>
      bool_decide (action t = a) && bool_decide (args_signature t = Some s)) recent) <->
    exists rest, recent = replicate (Z.to_nat n) (tool a s) ++ rest).
  { intros a s. rewrite <- (take_while_prefix (fun t =>
      bool_decide (action t = a) && bool_decide (args_signature t = Some s))).
    - unfold zlen. lia.
    - intros [a' s']; cbn. rewrite andb_true_iff, !bool_decide_eq_true. unfold tool. naive_solver. }
  destruct (_ || _) eqn:E.
  - split; [by intros []|]. intros (? & a & s & rest & Hr).
    assert (n = 0 \/ zlen recent < n) as [?|Hl] by lia; [lia|].
    rewrite Hr, zlen_app in Hl. unfold zlen in Hl. rewrite length_replicate in Hl. lia.
  - destruct (head recent) as [[a [s|]]|] eqn:Hs; cbn.
    + case_match eqn:Ec; (split; [|intros (? & a' & s' & rest & Hr)]).
      * intros _. split; [lia|]. exists a, s. apply Hpre. lia.
      * by eexists.
      * by intros [].
      * exfalso. assert (Some (mkStep a (Some s)) = Some (tool a' s')) as [= <- <-]
          by (rewrite <- Hs; exact (head_recent (Z.to_nat n) _ _ ltac:(lia) Hr)).
        assert (n <= zlen (take_while (fun t =>
          bool_decide (action t = a) && bool_decide (args_signature t = Some s)) recent))
          by (apply Hpre; eauto). lia.
    + split; [by intros []|]. intros (? & a' & s' & rest & Hr).
      pose proof (head_recent (Z.to_nat n) _ _ ltac:(lia) Hr). unfold tool in *. congruence.
    + split; [by intros []|]. intros (? & a' & s' & rest & Hr).
      pose proof (head_recent (Z.to_nat n) _ _ ltac:(lia) Hr). unfold tool in *. congruence.
Qed.

Lemma alternation a b n (l : list StepRecord) :
  length l = (n * 2)%nat ->
  forallb (fun '(i, s) => if Nat.even i then same_key s a else same_key s b) (imap pair l) = true
  <-> l = concat (replicate n [a; b]).
Proof.
  revert l. induction n as [|n IH]; intros l Hl; [by destruct l|].
  destruct l as [|x [|y l]]; [done..|]. cbn in Hl |- *.
  rewrite !andb_true_iff, !same_key_spec.
  assert (Hs : forall f : nat -> nat, (forall i, Nat.even (f i) = Nat.even i) ->
    forallb (fun '(i, s) => if Nat.even i then same_key s a else same_key s b)
      (imap (fun i => pair (f i)) l)
    = forallb (fun '(i, s) => if Nat.even i then same_key s a else same_key s b) (imap pair l)).
  { clear. intros f Hf. apply eq_iff_eq_true. rewrite !forallb_forall.
    setoid_rewrite <- list_elem_of_In. setoid_rewrite elem_of_lookup_imap.
    split; intros H [i s] (j & t & [= -> ->] & Hj).
    - rewrite <- Hf. exact (H _ ltac:(eauto)).
    - rewrite Hf. exact (H (j, t) ltac:(eauto)). }
  assert (x :: y :: l = a :: b :: concat (replicate n [a; b]) <->
    x = a /\ y = b /\ l = concat (replicate n [a; b])) as -> by naive_solver.
  rewrite <- IH by lia. rewrite <- (Hs (fun i => S (S i))) by done.
  unfold compose. naive_solver.
Qed.

Lemma check_oscillation_spec :
  is_u64 (oscillation_threshold (config g)) ->
  is_Some (check_oscillation g) <->
  oscillation_threshold (config g) * 2 <= usize_MAX /\
  Oscillates (oscillation_threshold (config g)) recent.
Proof.
  intros [Hn _]. unfold check_oscillation, Oscillates, checked_mul_usize. rewrite <- len_recent.
  set (n := oscillation_threshold _) in *.
  assert (Hlen : forall a b rest, recent = concat (replicate (Z.to_nat n) [a; b]) ++ rest ->
    zlen recent = n * 2 + zlen rest).
  { intros a b rest ->. rewrite zlen_app. f_equal. unfold zlen.
    rewrite concat_replicate_length; cbn. lia. }
  destruct (n * 2 <=? usize_MAX) eqn:Em; cbn -[usize_MAX]; [|split; [by intros [] | lia]].
  destruct (_ || _) eqn:E.
  - split; [by intros []|]. intros (_ & ? & a & b & rest & _ & Hr).
    apply Hlen in Hr. pose proof (zlen_nonneg rest). lia.
  - assert (Htl : length (take (Z.to_nat (n * 2)) recent) = (Z.to_nat n * 2)%nat).
    { rewrite length_take. unfold zlen in *. lia. }
    pose proof (take_drop (Z.to_nat (n * 2)) recent) as Htd.
    destruct (take _ _) as [|a [|b tl]] eqn:Et; [cbn in Htl; lia..|].
    cbn [lookup list_lookup mbind option_bind].
    pose proof (alternation a b (Z.to_nat n) (a :: b :: tl) Htl) as Halt.
    destruct (same_key a b) eqn:Eab; [|destruct (forallb _ _) eqn:Ef].
    + apply same_key_spec in Eab as ->. split; [by intros []|].
      intros (_ & ? & a' & b' & rest & Hne & Hr). exfalso.
      assert (exists n', Z.to_nat n = S n') as [n' En] by (exists (Nat.pred (Z.to_nat n)); lia).
      rewrite En in Hr. rewrite <- Htd in Hr. cbn in Hr. congruence.
    + split; [intros _|by eexists]. split; [lia|]. split; [lia|]. exists a, b, (drop (Z.to_nat (n * 2)) recent).
      split; [intros ->; by rewrite (proj2 (same_key_spec b b)) in Eab|].
      rewrite <- (proj1 Halt) by done. done.
    + split; [by intros []|]. intros (_ & ? & a' & b' & rest & Hne & Hr). exfalso.
      assert (Ht : take (Z.to_nat (n * 2)) recent = concat (replicate (Z.to_nat n) [a'; b'])).
      { rewrite Hr. apply take_app_length'. rewrite concat_replicate_length; cbn. lia. }
      rewrite Et in Ht.
      assert (exists n', Z.to_nat n = S n') as [n' En] by (exists (Nat.pred (Z.to_nat n)); lia).
      assert (a' = a /\ b' = b) as [-> ->] by (rewrite En in Ht; cbn in Ht; by simplify_eq).
      by apply Halt in Ht.
Qed.

Lemma distinct_pos l : l <> [] -> 1 <= distinct l.
Proof.
  intros Hne. unfold distinct.
  destruct (decide (size (list_to_set (signature_key <$> l) : gset (string * option string)) = 0%nat))
    as [H0|]; [|lia].
  apply size_empty_inv in H0. destruct l as [|x l]; [done|]. cbn in H0. set_solver.
Qed.

Lemma distinct_le l : distinct l <= zlen l.
Proof.
  unfold distinct, zlen. induction l as [|x l IH]; [done|]. cbn.
  pose proof (size_union_alt {[signature_key x]}
    (list_to_set (signature_key <$> l) : gset (string * option string))) as Hu.
  rewrite Hu, size_singleton.
  assert (size (list_to_set (signature_key <$> l) ∖ {[signature_key x]} : gset (string * option string))
    <= size (list_to_set (signature_key <$> l) : gset (string * option string)))%nat
    by (apply subseteq_size; set_solver).
  lia.
Qed.

Lemma check_drift_spec :
  0 <= drift_window (config g) < usize_MAX ->
  is_Some (check_drift g) <-> Cycles (drift_window (config g)) recent.
Proof.
  intros Hw. unfold check_drift, Cycles. rewrite <- len_recent.
  set (w := drift_window _) in *. set (tl := take _ _).
  destruct (_ || _) eqn:E; [split; [by intros [] | lia]|].
  assert (Hl : zlen tl = w) by (subst tl; rewrite zlen_take; lia).
  pose proof (distinct_le tl).
  assert (1 <= distinct tl).
  { apply distinct_pos. intros Hnil. rewrite Hnil in Hl. rewrite zlen_nil in Hl. lia. }
  unfold saturating_mul, usize_MAX, u64_MAX in *.
  destruct (_ && _) eqn:E2; (split; [intros []; try done | intros; try by eexists]); lia.
Qed.
End checks.

(** ** Truncating the history is unobservable *)
Lemma prefix_take {A} (pre : list A) n l :
  (length pre <= n)%nat ->
  (exists rest, take n l = pre ++ rest) <-> (exists rest, l = pre ++ rest).
Proof.
  intros Hn. split; intros [rest Hr].
  - exists (rest ++ drop n l). by rewrite app_assoc, <- Hr, take_drop.
  - exists (take (n - length pre) rest). by rewrite Hr, take_app, (take_ge pre) by lia.
Qed.

Section truncation.
Context (cap : Z) (l : list StepRecord).
Notation kept := (take (Z.to_nat cap) l).

Lemma Redundant_take n : n <= cap -> Redundant n kept <-> Redundant n l.
Proof.
  intros Hn. unfold Redundant. apply Morphisms_Prop.and_iff_morphism; [done|].
  do 2 (apply Morphisms_Prop.ex_iff_morphism; intros ?).
  apply prefix_take. rewrite length_replicate. lia.
Qed.
Lemma Repeats_take n : n <= cap -> Repeats n kept <-> Repeats n l.
Proof.
  intros Hn. unfold Repeats. apply Morphisms_Prop.and_iff_morphism; [done|].
  apply Morphisms_Prop.ex_iff_morphism; intros ?.
  apply prefix_take. rewrite length_replicate. lia.
Qed.
Lemma Oscillates_take n : n * 2 <= cap -> Oscillates n kept <-> Oscillates n l.
Proof.
  intros Hn. unfold Oscillates.
  assert (forall a b, (exists rest, a <> b /\ kept = concat (replicate (Z.to_nat n) [a; b]) ++ rest)
    <-> (exists rest, a <> b /\ l = concat (replicate (Z.to_nat n) [a; b]) ++ rest)) as H.
  { intros a b. pose proof (prefix_take (concat (replicate (Z.to_nat n) [a; b])) (Z.to_nat cap) l) as P.
    rewrite concat_replicate_length in P; cbn in P. specialize (P ltac:(lia)). naive_solver. }
  naive_solver.
Qed.
Lemma Cycles_take w : w <= cap -> Cycles w kept <-> Cycles w l.
Proof.
  intros Hw. unfold Cycles. destruct (Z.le_gt_cases 4 w); [|lia].
  rewrite take_take, zlen_take by lia. replace (_ `min` _)%nat with (Z.to_nat w) by lia. lia.
Qed.
End truncation.

Lemma max_history_spec g : usize_config (config g) ->
  let c := config g in
  repetition_threshold c <= max_history g /\
  (oscillation_threshold c * 2 <= usize_MAX -> oscillation_threshold c * 2 <= max_history g) /\
  redundant_threshold c <= max_history g /\ drift_window c <= max_history g /\ 1 <= max_history g.
Proof.
  unfold usize_config, is_u64, max_history, saturating_mul, wrapping. intros H; cbn zeta.
  pose proof (Z.mod_pos_bound (oscillation_threshold (config g) * 2) (2 ^ 64) ltac:(lia)).
  repeat split; try (unfold usize_MAX, u64_MAX in *; lia).
  intros Hm. assert ((oscillation_threshold (config g) * 2) mod 2 ^ 64
    = oscillation_threshold (config g) * 2) as ->
    by (apply Z.mod_small; unfold usize_MAX, u64_MAX in *; lia).
  unfold usize_MAX, u64_MAX in *; lia.
Qed.

Lemma check_patterns g :
  (forall d, check_redundant_tool g = Some d -> pattern d = RedundantToolCall) /\
  (forall d, check_repetition g = Some d -> pattern d = Repetition) /\
  (forall d, check_oscillation g = Some d -> pattern d = Oscillation) /\
  (forall d, check_drift g = Some d -> pattern d = Drift).
Proof.
  unfold check_redundant_tool, check_repetition, check_oscillation, check_drift.
  repeat split; intros d H; repeat (case_match || simplify_option_eq); by simplify_eq.
Qed.

Lemma run_history c trace :
  enabled c = true -> usize_config c ->
  config (run c trace) = c /\
  rev (history (run c trace)) = take (Z.to_nat (max_history (new c))) (rev trace).
Proof.
  intros He Hc. induction trace as [|s trace IH] using rev_ind; [split; [done | symmetry; apply firstn_nil]|].
  unfold run in *. rewrite fold_left_app. cbn [fold_left].
  destruct (fold_left _ trace (new c)) as [c' h]. cbn in IH. destruct IH as [-> IH].
  unfold record; cbn. rewrite He; cbn. split; [done|].
  assert (max_history (mkGuard c h) = max_history (new c)) as -> by done.
  pose proof (max_history_spec (new c) Hc) as (_ & _ & _ & _ & H1).
  rewrite rev_pop_front_to, !rev_app_distr, IH by lia; cbn.
  destruct (Z.to_nat (max_history (new c))) as [|m] eqn:E; [lia|]; cbn.
  f_equal. rewrite firstn_firstn. f_equal. lia.
Qed.

(** ** Properties *)

(** C3: the guard never retains more than [max_history] steps, and this
    truncation is unobservable: after any trace, recording a step reports
    exactly the first of the four patterns (redundant call, repetition,
    oscillation, drift, in this order) that the whole unbounded trace ends in,
    and reports nothing when it ends in none of them. *)
Theorem record_detects c trace step :
  usize_config c -> enabled c = true ->
  let recent := rev (trace ++ [step]) in
  let R := Redundant (redundant_threshold c) recent in
  let P := Repeats (repetition_threshold c) recent in
  let O := oscillation_threshold c * 2 <= usize_MAX /\
    Oscillates (oscillation_threshold c) recent in
  let D := Cycles (drift_window c) recent in
  zlen (history (run c trace)) <= max_history (new c) /\
  match pattern <$> (record (run c trace) step).2 with
  | Some RedundantToolCall => R
  | Some Repetition => ~ R /\ P
  | Some Oscillation => ~ R /\ ~ P /\ O
  | Some Drift => ~ R /\ ~ P /\ ~ O /\ D
  | None => ~ R /\ ~ P /\ ~ O /\ ~ D
  end.
Proof.
  intros Hc He recent R P O D.
  pose proof (max_history_spec (new c) Hc) as (M1 & M2 & M3 & M4 & M5); cbn in M1, M2, M3, M4.
  split.
  { destruct (run_history c trace He Hc) as [_ Hr]. rewrite <- len_recent, Hr, zlen_take; lia. }
  destruct (run_history c (trace ++ [step]) He Hc) as [Hcfg Hr].
  unfold run in Hcfg, Hr. rewrite fold_left_app in Hcfg, Hr. cbn [fold_left] in Hcfg, Hr.
  fold (run c trace) in Hcfg, Hr.
  destruct (run_history c trace He Hc) as [Hcfg0 _].
  unfold record in *. rewrite Hcfg0, He in *; cbn [negb] in *. cbn [fst snd] in *.
  set (g := mkGuard _ _) in *. change (config g) with c in Hcfg.
  destruct Hc as (H1 & H2 & H3 & H4).
  pose proof (check_redundant_spec g ltac:(apply H3)) as S1.
  pose proof (check_repetition_spec g ltac:(apply H1)) as S2.
  pose proof (check_oscillation_spec g H2) as S3.
  pose proof (check_drift_spec g H4) as S4.
  change (config g) with c in *. rewrite Hr in *.
  rewrite Redundant_take in S1 by done. rewrite Repeats_take in S2 by done.
  rewrite Cycles_take in S4 by done.
  assert (is_Some (check_oscillation g) <-> O) as S3'.
  { rewrite S3. unfold O. destruct (Z.le_gt_cases (oscillation_threshold c * 2) usize_MAX); [|lia].
    rewrite Oscillates_take by auto. done. }
  fold recent R P D in S1, S2, S4.
  pose proof (check_patterns g) as (Q1 & Q2 & Q3 & Q4).
  destruct (check_redundant_tool g), (check_repetition g), (check_oscillation g), (check_drift g);
    cbn; rewrite ?Q1, ?Q2, ?Q3, ?Q4 by done; rewrite <- ?S1, <- ?S2, <- ?S3', <- ?S4;
    rewrite <- ?not_eq_None_Some; naive_solver.
Qed.

Lemma record_detects_witness :
  let a := tool "run_fuzzer" "target=a" in
  let b := tool "triage" "run=1" in
  let recent := rev ([b; a; a; b; a; b; a] ++ [b]) in
  pattern <$> (record (run default_config [b; a; a; b; a; b; a]) b).2 = Some Oscillation /\
  ~ Redundant 3 recent /\ ~ Repeats 4 recent /\
  (3 * 2 <= usize_MAX /\ Oscillates 3 recent).
Proof.
  intros a b recent.
  assert (Hc : usize_config default_config).
  { unfold usize_config, is_u64, usize_MAX, u64_MAX; cbn. lia. }
  exact (conj eq_refl (proj2 (record_detects default_config [b; a; a; b; a; b; a] b Hc eq_refl))).
Defined.
