(* ===== verification/IsoTp.v ===== *)
(** * ISO-TP receiver reassembly

    Models [crates/hf-automotive/src/isotp.rs].  Bytes are [Z] in [0..255]; a
    frame is the list of its data bytes.  [&mut self] is explicit state
    passing: an operation returns the new reassembler with its [Result], so the
    state an error leaves behind is part of the model.  The [usize] subtraction
    in [consecutive_frame] is written with its wrap-around; [push_safe] shows
    that it never wraps. *)
From S2P Require Import Prelude.

Inductive Addressing := Normal | Extended.
#[export] Instance Addressing_eq_dec : EqDecision Addressing.
Proof. solve_decision. Defined.

Record Pdu := mkPdu { data : list Z }.

Inductive IsoTpError :=
| Truncated
| SequenceError (expected got : Z).

Record Reassembler := mkReassembler {
  addressing : Addressing;
  buffer : list Z;
  expected_len : Z;
  next_sn : Z;
  active : bool;
}.

Definition new (a : Addressing) : Reassembler := mkReassembler a [] 0 0 false.
Definition reset (r : Reassembler) : Reassembler := mkReassembler (addressing r) [] 0 0 false.
Definition finish (r : Reassembler) : Reassembler * Pdu :=
  (reset r, mkPdu (take (Z.to_nat (expected_len r)) (buffer r))).

(** The outcome of feeding one frame. *)
Definition Outcome := Result IsoTpError (option Pdu).

Definition single_frame (r : Reassembler) (pci : list Z) : Reassembler * Outcome :=
  let r := reset r in
  let low := Z.land (default 0 (head pci)) 15 in
  let hdr : Result IsoTpError (Z * Z) :=
    if bool_decide (low <> 0) then Ok (low, 1)
    else match pci !! 1%nat with
         | Some b => Ok (b, 2)
         | None => Err Truncated
         end in
  (r,
   '(len, start) ← hdr;
   if len =? 0 then Err Truncated
   else match slice pci start (start + len) with
        | Some d => Ok (Some (mkPdu d))
        | None => Err Truncated
        end).

Definition from_be_bytes (l : list Z) : Z := fold_left (fun acc b => acc * 256 + b) l 0.

(** The declared length of a first frame and where its payload starts. *)
Definition first_frame_header (pci : list Z) : Result IsoTpError (Z * Z) :=
  let high := Z.land (default 0 (head pci)) 15 in
  low ← ok_or Truncated (pci !! 1%nat);
  if (high =? 0) && (low =? 0) then
    bytes ← ok_or Truncated (slice pci 2 6);
    Ok (from_be_bytes bytes, 6)
  else Ok (Z.lor (Z.shiftl high 8) low, 2).

Definition first_frame (r : Reassembler) (pci : list Z) : Reassembler * Outcome :=
  let r := reset r in
  match
    ('(len, payload_start) ← first_frame_header pci;
     if len =? 0 then Err Truncated
     else
       payload ← ok_or Truncated (slice_from pci payload_start);
       if bool_decide (payload = []) || (len <=? zlen payload) then Err Truncated
       else Ok (len, payload))
  with
  | Err e => (r, Err e)
  | Ok (len, payload) =>
      let r := mkReassembler (addressing r) (buffer r ++ payload) len 1 true in
      if expected_len r <=? zlen (buffer r) then
        let '(r, pdu) := finish r in (r, Ok (Some pdu))
      else (r, Ok None)
  end.

Definition consecutive_frame (r : Reassembler) (pci : list Z) : Reassembler * Outcome :=
  if negb (active r) then (r, Ok None)
  else
    let sn := Z.land (default 0 (head pci)) 15 in
    if negb (sn =? next_sn r) then (reset r, Err (SequenceError (next_sn r) sn))
    else if zlen pci =? 1 then (reset r, Err Truncated)
    else
      let remaining := wrapping 64 (expected_len r - zlen (buffer r)) in
      let payload := default [] (slice_from pci 1) in
      let take_n := Z.min remaining (zlen payload) in
      let r := mkReassembler (addressing r)
                 (buffer r ++ take (Z.to_nat take_n) payload)
                 (expected_len r) (Z.land (next_sn r + 1) 15) (active r) in
      if expected_len r <=? zlen (buffer r) then
        let '(r, pdu) := finish r in (r, Ok (Some pdu))
      else (r, Ok None).

Definition push (r : Reassembler) (frame : list Z) : Reassembler * Outcome :=
  let offset := match addressing r with Normal => 0 | Extended => 1 end in
  let pci := default [] (slice_from frame offset) in
  match pci with
  | [] => (reset r, Err Truncated)
  | first :: _ =>
      match Z.shiftr first 4 with
      | 0 => single_frame r pci
      | 1 => first_frame r pci
      | 2 => consecutive_frame r pci
      | _ => (r, Ok None)
      end
  end.

(** One iteration of [reassemble_all]'s loop, and the loop. *)
Definition feed (st : Reassembler * list Pdu) (frame : list Z) : Reassembler * list Pdu :=
  let '(r, pdus) := st in
  match push r frame with
  | (r, Ok (Some pdu)) => (r, pdus ++ [pdu])
  | (r, Ok None) => (r, pdus)
  | (r, Err _) => (reset r, pdus)
  end.
Definition reassemble_all (frames : list (list Z)) (a : Addressing) : list Pdu :=
  (fold_left feed frames (new a, [])).2.

(** ** The state invariant *)
Definition live (r : Reassembler) : Prop :=
  0 < zlen (buffer r) < expected_len r /\ expected_len r <= u32_MAX /\ 0 <= next_sn r <= 15.
Definition wf (r : Reassembler) : Prop :=
  if active r then live r /\ Forall is_u8 (buffer r) else r = new (addressing r).

Lemma reset_new r : reset r = new (addressing r).
Proof. done. Qed.
Lemma wf_idle a : wf (new a).
Proof. done. Qed.

Lemma first_frame_header_bounds pci len start :
  Forall is_u8 pci -> first_frame_header pci = Ok (len, start) ->
  0 <= len <= u32_MAX /\ 0 <= start.
Proof.
  intros Hb. unfold first_frame_header, ok_or; cbn.
  assert (Hhigh : 0 <= default 0 (head pci) <= 255).
  { destruct Hb; cbn; [lia | done]. }
  destruct (pci !! 1%nat) as [low|] eqn:E1; cbn; [|done].
  assert (Hlow : is_u8 low) by (eapply list.Forall_lookup_1; eauto).
  unfold is_u8, u8_MAX, u32_MAX in *.
  case_match; cbn.
  - destruct (slice pci 2 6) as [bs|] eqn:E; cbn; [|done].
    assert (Forall is_u8 bs) as HB by (eapply slice_Forall; eauto).
    apply slice_Some in E as (_ & Hlen & ->). intros [= <- <-].
    assert (H4 : zlen (take (Z.to_nat (6 - 2)) (drop (Z.to_nat 2) pci)) = 4)
      by (rewrite zlen_take, zlen_drop; lia).
    destruct (take _ _) as [|a [|b [|c [|d [|]]]]]; try (unfold zlen in H4; cbn in H4; lia).
    unfold from_be_bytes; cbn.
    repeat (apply Forall_cons_iff in HB as [? HB]). unfold is_u8, u8_MAX in *. lia.
  - intros [= <- <-]. rewrite land_15, lor_shiftl_low by lia.
    pose proof (Z.mod_pos_bound (default 0 (head pci)) 16). lia.
Qed.

(** What one frame may do to the state: it stays well formed, an error leaves
    the receiver idle, and a completed PDU leaves it idle too. *)
Definition step_ok (r r' : Reassembler) (o : Outcome) : Prop :=
  wf r' /\ addressing r' = addressing r /\
  match o with
  | Err _ => r' = new (addressing r)
  | Ok None => True
  | Ok (Some pdu) =>
      r' = new (addressing r) /\ Forall is_u8 (data pdu) /\
      (active r = true /\ zlen (data pdu) = expected_len r \/ 1 <= zlen (data pdu) <= 255)
  end.

Lemma single_frame_ok r pci :
  Forall is_u8 pci -> step_ok r (single_frame r pci).1 (single_frame r pci).2.
Proof.
  intros Hb. unfold single_frame, step_ok; cbn.
  split; [done|]. split; [done|].
  assert (Hhdr : forall len start,
    (if bool_decide (Z.land (default 0 (head pci)) 15 <> 0)
     then Ok (Z.land (default 0 (head pci)) 15, 1)
     else match pci !! 1%nat with Some b => Ok (b, 2) | None => Err Truncated end)
      = Ok (len, start) -> 0 <= len <= 255 /\ 0 <= start).
  { intros len start. case_bool_decide.
    - intros [= <- <-]. rewrite land_15. pose proof (Z.mod_pos_bound (default 0 (head pci)) 16). lia.
    - destruct (pci !! 1%nat) eqn:E1; [|done]. intros [= <- <-].
      eapply list.Forall_lookup_1 in E1; [|done]. unfold is_u8, u8_MAX in *. lia. }
  destruct (if bool_decide _ then _ else _) as [[len start]|]; cbn; [|done].
  destruct (Hhdr _ _ eq_refl) as [Hl Hs].
  destruct (len =? 0) eqn:E0; [done|]. destruct (slice _ _ _) eqn:E; [|done]; cbn.
  split; [done|]. split; [eapply slice_Forall; eauto|]. right.
  apply slice_Some in E as (? & ? & ->). rewrite zlen_take, zlen_drop; lia.
Qed.

Lemma first_frame_ok r pci :
  Forall is_u8 pci -> step_ok r (first_frame r pci).1 (first_frame r pci).2 /\
  forall pdu, (first_frame r pci).2 <> Ok (Some pdu).
Proof.
  intros Hb. unfold first_frame, step_ok.
  destruct (first_frame_header pci) as [[len start]|] eqn:Eh; cbn; [|done].
  pose proof (first_frame_header_bounds _ _ _ Hb Eh) as [? ?].
  destruct (len =? 0) eqn:E0; cbn; [done|].
  destruct (slice_from pci start) as [p|] eqn:Es; cbn; [|done].
  case_bool_decide as Hp; cbn; [done|].
  destruct (len <=? zlen p) eqn:El; cbn; [done|].
  rewrite El; cbn. split; [|done]. unfold wf, live; cbn.
  repeat split; try lia; [|by eapply slice_from_Forall].
  destruct p; [done|]. zlen_norm. pose proof (zlen_nonneg p). lia.
Qed.

Lemma no_wrap r : live r ->
  wrapping 64 (expected_len r - zlen (buffer r)) = expected_len r - zlen (buffer r).
Proof. unfold live. intros H. apply Z.mod_small. unfold u32_MAX in *. lia. Qed.

Lemma consecutive_frame_ok r pci :
  wf r -> Forall is_u8 pci -> pci <> [] ->
  step_ok r (consecutive_frame r pci).1 (consecutive_frame r pci).2.
Proof.
  intros Hwf Hb Hne. unfold consecutive_frame, step_ok.
  destruct (active r) eqn:Ha; cbn; [|done].
  unfold wf in Hwf. rewrite Ha in Hwf. destruct Hwf as [Hlive HB].
  rewrite no_wrap by done. unfold live in Hlive.
  case_match; cbn; [done|]. case_match; cbn; [done|].
  destruct pci as [|b p]; [done|]. cbn -[Z.min].
  assert (slice_from (b :: p) 1 = Some p) as ->.
  { apply slice_from_Some. zlen_norm. pose proof (zlen_nonneg p). split; [lia|done]. }
  apply Forall_cons_iff in Hb as [? Hb].
  cbn -[Z.min]. pose proof (zlen_nonneg p).
  assert (zlen p <> 0) by (zlen_norm; lia).
  set (t := Z.min (expected_len r - zlen (buffer r)) (zlen p)).
  assert (Hlen : zlen (buffer r ++ take (Z.to_nat t) p) = zlen (buffer r) + t)
    by (rewrite zlen_app, zlen_take; lia).
  assert (HF : Forall is_u8 (buffer r ++ take (Z.to_nat t) p))
    by (apply Forall_app; split; [done | by apply Forall_take]).
  case_match eqn:Efin; cbn.
  - split; [done|]. split; [done|]. split; [done|]. split; [by apply Forall_take|].
    left. split; [done|]. rewrite zlen_take by lia. lia.
  - unfold wf, live; cbn. rewrite land_15. pose proof (Z.mod_pos_bound (next_sn r + 1) 16).
    repeat split; try lia. done.
Qed.

Lemma push_step_ok r frame :
  wf r -> Forall is_u8 frame -> step_ok r (push r frame).1 (push r frame).2.
Proof.
  intros Hwf Hb. unfold push.
  set (pci := default [] _).
  assert (Hp : Forall is_u8 pci).
  { subst pci. destruct (slice_from _ _) eqn:E; cbn; [by eapply slice_from_Forall | done]. }
  destruct pci as [|f p] eqn:Epci; [done|].
  repeat case_match; try done;
    first [by apply single_frame_ok | by apply first_frame_ok | by apply consecutive_frame_ok].
Qed.

(** ** The sender's side: segmentation of a payload into frames *)
Definition with_extension (a : Addressing) (ae : Z) (pci : list Z) : list Z :=
  match a with Normal => pci | Extended => ae :: pci end.
Definition ff_header (len : Z) : list Z :=
  if len <=? 4095 then [16 + len / 256; len mod 256]
  else [16; 0; len / 2 ^ 24; len / 2 ^ 16 mod 256; len / 2 ^ 8 mod 256; len mod 256].
Fixpoint cf_frames (sn : Z) (chunks : list (list Z)) : list (list Z) :=
  match chunks with
  | [] => []
  | c :: cs => ((32 + sn) :: c) :: cf_frames ((sn + 1) mod 16) cs
  end.
(** A multi-frame message: the payload is [p0 ++ concat cs ++ last], and the
    last consecutive frame may carry padding. *)
Definition transmit (a : Addressing) (ae : Z) (p0 : list Z) (cs : list (list Z))
    (last pad : list Z) : list (list Z) :=
  with_extension a ae <$>
    ((ff_header (zlen (p0 ++ concat cs ++ last)) ++ p0) :: cf_frames 1 (cs ++ [last ++ pad])).

Lemma push_pci r ae pci :
  push r (with_extension (addressing r) ae pci) =
  match pci with
  | [] => (reset r, Err Truncated)
  | first :: _ =>
      match Z.shiftr first 4 with
      | 0 => single_frame r pci
      | 1 => first_frame r pci
      | 2 => consecutive_frame r pci
      | _ => (r, Ok None)
      end
  end.
Proof.
  unfold push. assert (default [] (slice_from (with_extension (addressing r) ae pci)
    match addressing r with Normal => 0 | Extended => 1 end) = pci) as ->; [|done].
  destruct (addressing r); cbn.
  - assert (slice_from pci 0 = Some pci) as ->; [|done].
    apply slice_from_Some. pose proof (zlen_nonneg pci). split; [lia|done].
  - assert (slice_from (ae :: pci) 1 = Some pci) as ->; [|done].
    apply slice_from_Some. zlen_norm. pose proof (zlen_nonneg pci). split; [lia|done].
Qed.

Lemma ff_header_parse len p0 :
  0 < len <= u32_MAX -> exists first rest,
  ff_header len = first :: rest /\ Z.shiftr first 4 = 1 /\
  first_frame_header (ff_header len ++ p0) = Ok (len, zlen (ff_header len)).
Proof.
  intros Hlen. unfold ff_header, u32_MAX in *.
  destruct (len <=? 4095) eqn:E; do 2 eexists; (split; [done|]).
  - assert (0 <= len / 256 < 16) by (split; [apply Z.div_pos | apply Z.div_lt_upper_bound]; lia).
    change 16 with (16 * 1) at 1. split; [by apply nibble_hi|].
    unfold first_frame_header; cbn -[Z.land Z.lor Z.shiftl Z.modulo Z.div].
    change (16 + len / 256) with (16 * 1 + len / 256). rewrite nibble_lo by done.
    pose proof (Z.mod_pos_bound len 256 ltac:(lia)). pose proof (Z.div_mod len 256).
    case_match; [lia|]. rewrite lor_shiftl_low by lia. repeat f_equal. lia.
  - split; [done|]. unfold first_frame_header; cbn -[Z.land Z.modulo Z.div slice zlen].
    set (bs := [len / 2 ^ 24; len / 2 ^ 16 mod 256; len / 2 ^ 8 mod 256; len mod 256]).
    change (16 :: 0 :: _ :: _ :: _ :: _ :: p0) with (([16; 0] ++ bs) ++ p0).
    assert (slice (([16; 0] ++ bs) ++ p0) 2 6 = Some bs) as ->.
    { apply slice_Some. zlen_norm. pose proof (zlen_nonneg p0). split; [lia|].
      split; [unfold zlen; cbn; lia | done]. }
    cbn -[Z.modulo Z.div]. unfold from_be_bytes; cbn -[Z.modulo Z.div].
    repeat f_equal. Z.to_euclidean_division_equations. lia.
Qed.

Lemma feed_addressing st frame : addressing (feed st frame).1 = addressing st.1.
Proof.
  destruct st as [r acc]; cbn. unfold push, single_frame, first_frame, consecutive_frame, finish.
  repeat (case_match; simplify_eq/=; try done).
Qed.

Lemma push_ff r ae len p0 :
  0 < len <= u32_MAX -> p0 <> [] -> zlen p0 < len ->
  push r (with_extension (addressing r) ae (ff_header len ++ p0))
  = (mkReassembler (addressing r) p0 len 1 true, Ok None).
Proof.
  intros Hlen Hne Hlt. rewrite push_pci.
  destruct (ff_header_parse len p0 Hlen) as (first & rest & Eh & Hhi & Hh).
  rewrite Eh; cbn [app]. rewrite Hhi. rewrite app_comm_cons, <- Eh.
  unfold first_frame. rewrite Hh; cbn -[Z.leb].
  assert (len =? 0 = false) as -> by lia.
  assert (slice_from (ff_header len ++ p0) (zlen (ff_header len)) = Some p0) as ->.
  { apply slice_from_Some. rewrite zlen_app.
    pose proof (zlen_nonneg p0). pose proof (zlen_nonneg (ff_header len)).
    split; [lia|]. unfold zlen. rewrite Nat2Z.id. by rewrite drop_app_length. }
  cbn -[Z.leb]. rewrite bool_decide_eq_false_2 by done. cbn -[Z.leb].
  assert (len <=? zlen p0 = false) as Hf by lia. rewrite Hf; cbn -[Z.leb]. by rewrite Hf.
Qed.

Lemma push_cf r ae c :
  live r -> active r = true -> c <> [] ->
  push r (with_extension (addressing r) ae ((32 + next_sn r) :: c)) =
  let t := Z.min (expected_len r - zlen (buffer r)) (zlen c) in
  let b := buffer r ++ take (Z.to_nat t) c in
  if expected_len r <=? zlen b
  then (new (addressing r), Ok (Some (mkPdu (take (Z.to_nat (expected_len r)) b))))
  else (mkReassembler (addressing r) b (expected_len r) ((next_sn r + 1) mod 16) true, Ok None).
Proof.
  intros Hlive Ha Hne. rewrite push_pci.
  pose proof (no_wrap r Hlive) as Hw. unfold live in Hlive.
  change 32 with (16 * 2). rewrite nibble_hi by lia.
  unfold consecutive_frame. rewrite Ha, Hw.
  cbn -[Z.min Z.leb Z.land Z.mul]. rewrite nibble_lo, Z.eqb_refl by lia. cbn -[Z.min Z.leb Z.land].
  assert (zlen c <> 0) by (intros ?%zlen_0; done).
  pose proof (zlen_nonneg c).
  assert (zlen (16 * 2 + next_sn r :: c) =? 1 = false) as -> by (zlen_norm; lia).
  assert (slice_from (16 * 2 + next_sn r :: c) 1 = Some c) as ->.
  { apply slice_from_Some. zlen_norm. split; [lia|done]. }
  cbn -[Z.min Z.leb Z.land]. rewrite land_15. by case_match.
Qed.

Lemma feed_cf_frames ae last pad cs : forall r acc,
  last <> [] -> Forall (fun c => c <> []) cs ->
  live r -> active r = true ->
  expected_len r = zlen (buffer r ++ concat cs ++ last) ->
  fold_left feed (with_extension (addressing r) ae <$> cf_frames (next_sn r) (cs ++ [last ++ pad]))
    (r, acc)
  = (new (addressing r), acc ++ [mkPdu (buffer r ++ concat cs ++ last)]).
Proof.
  induction cs as [|c cs IH]; intros r acc Hlast Hcs Hlive Ha Hlen; cbn in Hlen |- *.
  - rewrite push_cf; [|done..|by destruct last].
    cbn -[Z.min Z.leb]. rewrite zlen_app in Hlen. rewrite Hlen.
    pose proof (zlen_nonneg pad). pose proof (zlen_nonneg last).
    replace (Z.min _ _) with (zlen last) by (rewrite zlen_app; lia).
    rewrite take_zlen_app, <- zlen_app, (proj2 (Z.leb_le _ _)) by lia.
    by rewrite take_zlen.
  - apply Forall_cons_iff in Hcs as [Hc Hcs].
    rewrite push_cf by done. cbn -[Z.min Z.leb].
    rewrite !zlen_app in Hlen.
    pose proof (zlen_nonneg c). pose proof (zlen_nonneg (concat cs)).
    assert (0 < zlen last) by (pose proof (zlen_nonneg last);
      destruct (Z.eq_dec (zlen last) 0) as [?%zlen_0|]; [done|lia]).
    replace (Z.min _ _) with (zlen c) by lia.
    rewrite take_zlen, zlen_app, (proj2 (Z.leb_gt _ _)) by lia.
    set (r' := mkReassembler _ _ _ _ _).
    rewrite (IH r'); [by subst r'; cbn; rewrite <- !app_assoc | done | done | | done |].
    + unfold live in *; cbn. rewrite zlen_app.
      pose proof (Z.mod_pos_bound (next_sn r + 1) 16). lia.
    + subst r'; cbn. rewrite !zlen_app. lia.
Qed.

(** ** Properties *)

(** C2: whatever frames a receiver has already seen, malformed ones included, a
    multi-frame transmission that follows (first frame, then consecutive frames
    numbered from 1 modulo 16, the last one possibly padded, payloads up to the
    32-bit escape length) is reassembled to exactly its payload, after the PDUs
    of the earlier frames and with no others. *)
Theorem reassembly_roundtrip a ae noise p0 cs last pad :
  p0 <> [] -> Forall (fun c => c <> []) cs -> last <> [] ->
  zlen (p0 ++ concat cs ++ last) <= u32_MAX ->
  reassemble_all (noise ++ transmit a ae p0 cs last pad) a
  = reassemble_all noise a ++ [mkPdu (p0 ++ concat cs ++ last)].
Proof.
  intros Hp0 Hcs Hlast Hlen. unfold reassemble_all. rewrite fold_left_app.
  assert (Ha : forall frames st, addressing st.1 = a ->
    addressing (fold_left feed frames st).1 = a).
  { intros frames. induction frames as [|f frames IH]; intros st Hst; [done|].
    apply (IH (feed st f)). by rewrite feed_addressing. }
  specialize (Ha noise (new a, []) eq_refl).
  destruct (fold_left feed noise (new a, [])) as [r acc]; cbn in Ha |- *.
  assert (0 < zlen last /\ 0 < zlen p0) as [? ?].
  { pose proof (zlen_nonneg last); pose proof (zlen_nonneg p0).
    split; [destruct (Z.eq_dec (zlen last) 0) as [?%zlen_0|]
           |destruct (Z.eq_dec (zlen p0) 0) as [?%zlen_0|]]; done || lia. }
  rewrite !zlen_app in Hlen. pose proof (zlen_nonneg (concat cs)).
  subst a. unfold transmit. cbn [fmap list_fmap fold_left feed].
  rewrite push_ff by (rewrite ?zlen_app; done || lia).
  refine (f_equal snd (feed_cf_frames ae last pad cs
    (mkReassembler (addressing r) p0 (zlen (p0 ++ concat cs ++ last)) 1 true) acc
    Hlast Hcs _ eq_refl eq_refl)).
  unfold live; cbn. rewrite !zlen_app. lia.
Qed.

Lemma reassembly_roundtrip_witness :
  reassemble_all ([[0x30]; [0x23; 1; 2]; [0x10; 200; 7; 7]; []; [0x02; 9; 8]]
    ++ transmit Normal 0 [1; 2; 3; 4; 5; 6] [[7; 8; 9; 10; 11; 12; 13]] [14] [0xAA; 0xAA]) Normal
  = [mkPdu [9; 8]; mkPdu [1; 2; 3; 4; 5; 6; 7; 8; 9; 10; 11; 12; 13; 14]].
Proof.
  rewrite (reassembly_roundtrip Normal 0 _ [1; 2; 3; 4; 5; 6] [[7; 8; 9; 10; 11; 12; 13]]
    [14] [0xAA; 0xAA]); [vm_compute; reflexivity | done | | done | vm_compute; congruence].
  by repeat constructor.
Defined.

(** Over arbitrary frames of bytes the reassembler keeps its invariant (a
    partial message is non-empty and strictly shorter than its declared length,
    at most [u32::MAX]; an idle one holds nothing), so the length subtraction
    never wraps; an error or a completed PDU leaves it idle, a first frame never
    completes a PDU, and a PDU has exactly the declared length. *)
Theorem push_safe r frame :
  wf r -> Forall is_u8 frame ->
  let '(r', o) := push r frame in
  wf r' /\
  (active r = true ->
   wrapping 64 (expected_len r - zlen (buffer r)) = expected_len r - zlen (buffer r)) /\
  match o with
  | Err _ => r' = new (addressing r)
  | Ok None => True
  | Ok (Some pdu) =>
      r' = new (addressing r) /\
      (forall ae pci b, frame = with_extension (addressing r) ae (b :: pci) -> Z.shiftr b 4 <> 1) /\
      (active r = true /\ zlen (data pdu) = expected_len r \/ 1 <= zlen (data pdu) <= 255)
  end.
Proof.
  intros Hwf Hb. pose proof (push_step_ok r frame Hwf Hb) as (H1 & _ & H2).
  destruct (push r frame) as [r' o] eqn:E; cbn in *. repeat split; [done| |].
  - intros Ha. unfold wf in Hwf. rewrite Ha in Hwf. apply no_wrap, Hwf.
  - destruct o as [[pdu|]|]; [|done..]. destruct H2 as (? & ? & ?). repeat split; [done| |done].
    intros ae pci b -> Hs. rewrite push_pci, Hs in E.
    assert (Forall is_u8 (b :: pci)) as Hp
      by (destruct (addressing r); [done | by apply Forall_cons_iff in Hb as [_ ?]]).
    apply (proj2 (first_frame_ok r _ Hp) pdu). by rewrite E.
Qed.

Lemma push_safe_witness :
  let '(r', o) := push (mkReassembler Extended [1; 2; 3] 5 15 true) [0xF1; 0x2F; 4; 5; 6] in
  wf r' /\ r' = new Extended /\ o = Ok (Some (mkPdu [1; 2; 3; 4; 5])).
Proof.
  assert (H1 : wf (mkReassembler Extended [1; 2; 3] 5 15 true)).
  { repeat split; try done. repeat constructor; done. }
  assert (H2 : Forall is_u8 [0xF1; 0x2F; 4; 5; 6]) by (repeat constructor; done).
  exact (conj (proj1 (push_safe _ _ H1 H2)) (conj eq_refl eq_refl)).
Defined.
