(* ===== verification/Provider.v ===== *)
(** * Provider metadata, errors and route requests

    The data of [crates/hf-core/src/provider.rs] that routing and failover work
    with.  An [f64] is a [spec_float]; provider ids and models are strings. *)
From S2P Require Import Prelude.
From Stdlib Require Import SpecFloat.

Abbreviation f64 := spec_float.
Definition f64_of (z : Z) : f64 := binary_normalize 53 1024 z 0 false.
Definition f64_add : f64 -> f64 -> f64 := SFadd 53 1024.
Definition f64_mul : f64 -> f64 -> f64 := SFmul 53 1024.
Definition f64_div : f64 -> f64 -> f64 := SFdiv 53 1024.

Inductive ProviderType := OpenAi | Anthropic | Gemini | Ollama | Azure | OpenRouter | Custom.
Inductive ProviderCapability := Text | Vision | ImageGeneration.
Inductive ToolCallingMode := PromptBased | Native.

Record ProviderMetadata := mkMetadata {
  id : string;
  provider_type : ProviderType;
  model : string;
  tags : list string;
  capabilities : list ProviderCapability;
  max_concurrency : Z;
  context_window : Z;
  cost_per_1k_input : f64;
  cost_per_1k_output : f64;
  tool_calling_mode : ToolCallingMode;
}.

(** [ResponseStreamBudget] is shown through its [Display], a parameter here. *)
Inductive ProviderError :=
| RateLimited (provider : string) (retry_after_secs : Z)
| QuotaExhausted (provider message : string)
| AuthenticationFailed (provider message : string)
| KeyInvalid (provider message : string)
| ServerError (provider message : string)
| NetworkError (message : string)
| NoProviderAvailable (tags : list string)
| ModelBudgetDenied (scope_id reason : string)
| Cancelled
| ResponseBodyLimitExceeded (limit_bytes : Z)
| ResponseStreamLimitExceeded (budget : string) (limit_bytes : Z)
| ParseError (message : string)
| Other (message : string).

Definition display (e : ProviderError) : string :=
  match e with
  | RateLimited provider secs =>
      "rate limited by " +:+ provider +:+ ": retry after " +:+ pretty secs +:+ "s"
  | QuotaExhausted provider message => "quota exhausted for " +:+ provider +:+ ": " +:+ message
  | AuthenticationFailed provider message =>
      "authentication failed for " +:+ provider +:+ ": " +:+ message
  | KeyInvalid provider message => "invalid API key for " +:+ provider +:+ ": " +:+ message
  | ServerError provider message => "server error from " +:+ provider +:+ ": " +:+ message
  | NetworkError message => "network error: " +:+ message
  | NoProviderAvailable tags => "no provider available matching tags " +:+ debug_strs tags
  | ModelBudgetDenied scope reason => "model budget " +:+ scope +:+ ": " +:+ reason
  | Cancelled => "request cancelled"
  | ResponseBodyLimitExceeded n => "response body exceeds " +:+ pretty n +:+ " bytes"
  | ResponseStreamLimitExceeded budget n =>
      "response stream " +:+ budget +:+ " exceeds " +:+ pretty n +:+ " bytes"
  | ParseError message => "response parse error: " +:+ message
  | Other message => message
  end.

Inductive ErrorSeverity := Transient | Permanent | UserActionRequired.
Definition severity (e : ProviderError) : ErrorSeverity :=
  match e with
  | AuthenticationFailed _ _ | KeyInvalid _ _ | QuotaExhausted _ _ => Permanent
  | ModelBudgetDenied _ _ | NoProviderAvailable _ | ResponseBodyLimitExceeded _
  | ResponseStreamLimitExceeded _ _ => UserActionRequired
  | _ => Transient
  end.

Inductive RoutePriority := Critical | Normal | Idle.

Record RouteRequest := mkRoute {
  required_tags : list string;
  preferred_tags : list string;
  preferred_provider_id : option string;
  preferred_model : option string;
  priority : RoutePriority;
}.
Definition default_route : RouteRequest := mkRoute [] [] None None Normal.
Definition with_tags (tags : list string) : RouteRequest := mkRoute tags [] None None Normal.
Definition preferring_tags (tags : list string) : RouteRequest :=
  mkRoute [] tags None None Normal.

(** ** What routing relies on in a freeze manager

    [fg_check m t t'] is the freeze check a selection makes (it may thaw [m]);
    [fg_effective m t] is the state reported at time [t]. *)
Class FreezeGate (M : Type) := {
  fg_check : M -> Z -> Z -> M * bool;
  fg_effective : M -> Z -> bool;
  fg_wf : M -> Prop;
  fg_check_effective : forall m t t', fg_wf m -> t <= t' ->
    (fg_check m t t').2 = fg_effective m t;
  fg_check_stable : forall m t t' u, fg_wf m -> t <= t' -> t' <= u ->
    fg_effective (fg_check m t t').1 u = fg_effective m u;
  fg_check_wf : forall m t t', fg_wf m -> fg_wf (fg_check m t t').1;
}.

(** ** The order of non-NaN floats, as a lexicographic order on integers *)
Definition f64_key (x : f64) : Z * Z * Z :=
  match x with
  | S754_infinity true => (-2, 0, 0)
  | S754_finite true m e => (-1, - e, - Z.pos m)
  | S754_finite false m e => (1, e, Z.pos m)
  | S754_infinity false => (2, 0, 0)
  | S754_zero _ | S754_nan => (0, 0, 0)
  end.
Definition lex_lt (x y : Z * Z * Z) : Prop :=
  x.1.1 < y.1.1 \/ x.1.1 = y.1.1 /\ (x.1.2 < y.1.2 \/ x.1.2 = y.1.2 /\ x.2 < y.2).

Lemma SFcompare_lex x y :
  x <> S754_nan -> y <> S754_nan ->
  (SFcompare x y = Some Lt <-> lex_lt (f64_key x) (f64_key y)) /\
  (SFcompare x y = Some Gt <-> lex_lt (f64_key y) (f64_key x)).
Proof.
  unfold lex_lt. intros Hx Hy.
  destruct x as [?|[]| |[] m e]; destruct y as [?|[]| |[] m' e']; try done; cbn;
    try (split; (split; [intros [=]; lia | intros; (done || lia)])).
  all: change (Pos.compare_cont Eq m m') with (Pos.compare m m').
  all: destruct (Z.compare_spec e e') as [->| |]; cbn;
    try (destruct (Pos.compare_spec m m') as [->| |]; cbn);
    split; (split; [intros [=]; lia | intros; (done || lia)]).
Qed.
