(* ===== verification/Freeze.v ===== *)
(** * Provider freeze and thaw

    Models [crates/hf-provider/src/freeze.rs] and, on top of it, the two
    operations of [crates/hf-provider/src/health.rs] that drive it.  Instants
    and durations are nanoseconds in [Z]; each [Instant::now()] is an argument
    of the operation that reads the clock.  The [RwLock] makes every method body
    atomic, except [is_frozen], which releases its read lock before
    [try_auto_thaw] takes the write lock: its two halves are separate steps, so
    other operations may run in between. *)
From S2P Require Import Prelude Provider.

Definition nanos (secs : Z) : Z := secs * 10 ^ 9.

Record FreezeState := mkState {
  frozen : bool;
  reason : option string;
  frozen_at : option Z;
  thaw_at : option Z;
  consecutive_freezes : Z;
  permanent : bool;
}.

Record FreezeManager := mkManager {
  state : FreezeState;
  base_duration_secs : Z;
  max_duration_secs : Z;
}.

Definition new (base max : Z) : FreezeManager :=
  mkManager (mkState false None None None 0 false) base max.
Definition set_state (m : FreezeManager) (s : FreezeState) : FreezeManager :=
  mkManager s (base_duration_secs m) (max_duration_secs m).

Definition adaptive_duration (m : FreezeManager) (consecutive : Z) : Z :=
  let multiplier := saturating_pow u64_MAX 2 (saturating_sub consecutive 1) in
  nanos (Z.min (saturating_mul u64_MAX (base_duration_secs m) multiplier) (max_duration_secs m)).

(** [freeze], with the readings of its two [Instant::now()] calls.  Their sum with the
    duration is taken to be an [Instant]: for a maximal duration of the order of 2^63
    seconds the code would panic there. *)
Definition freeze (m : FreezeManager) (why : string) (duration : option Z)
    (now1 now2 : Z) : FreezeManager :=
  let s := state m in
  if permanent s then
    set_state m (mkState (frozen s) (reason s) (frozen_at s) (thaw_at s)
      (wrapping 32 (consecutive_freezes s + 1)) true)
  else
    let k := wrapping 32 (consecutive_freezes s + 1) in
    let max := nanos (max_duration_secs m) in
    let explicit := d ← duration; if d =? 0 then None else Some d in
    let target := Z.min (default (adaptive_duration m k) explicit) max in
    set_state m (mkState true (Some why) (Some now1) (Some (now2 + target)) k false).

Definition freeze_permanent (m : FreezeManager) (why : string) (now : Z) : FreezeManager :=
  set_state m (mkState true (Some why) (Some now) None (consecutive_freezes (state m)) true).

Definition thaw (m : FreezeManager) : FreezeManager :=
  set_state m (mkState false None None None 0 false).

Definition try_auto_thaw (m : FreezeManager) (now : Z) : FreezeManager * bool :=
  let s := state m in
  if permanent s then (m, true)
  else
    match thaw_at s with
    | Some t =>
        if t <=? now then
          (set_state m (mkState false None None None (consecutive_freezes s) (permanent s)), false)
        else (m, frozen s)
    | None => (m, frozen s)
    end.

(** The read-locked half of [is_frozen]: an answer, or [None] when it goes on to
    [try_auto_thaw]. *)
Definition is_frozen_read (m : FreezeManager) (now : Z) : option bool :=
  let s := state m in
  if negb (frozen s) then Some false
  else match thaw_at s with
       | Some t => if t <=? now then None else Some true
       | None => Some true
       end.

(** [is_frozen] with nothing running between its halves. *)
Definition is_frozen (m : FreezeManager) (now1 now2 : Z) : FreezeManager * bool :=
  match is_frozen_read m now1 with
  | Some b => (m, b)
  | None => try_auto_thaw m now2
  end.

Record FreezeStatus := mkStatus {
  st_is_frozen : bool;
  st_reason : option string;
  st_frozen_since : option Z;
  st_thaw_at : option Z;
  st_consecutive_freezes : Z;
  st_permanent : bool;
}.
Definition status (m : FreezeManager) (now : Z) : FreezeStatus :=
  let s := state m in
  mkStatus
    (frozen s && (permanent s || match thaw_at s with Some t => now <? t | None => true end))
    (reason s) (frozen_at s) (thaw_at s) (consecutive_freezes s) (permanent s).

(** ** Health checks ([health.rs]): the provider's answer is the argument *)
Inductive HealthOutcome (E : Type) := Healthy | Unhealthy (e : E) | TimedOut.
Arguments Healthy {E}.
Arguments Unhealthy {E} e.
Arguments TimedOut {E}.

Section health.
Context {E : Type} (show : E -> string) (network_error : string -> E).

Definition check (outcome : HealthOutcome E) : Result E unit :=
  match outcome with
  | Healthy => Ok tt
  | Unhealthy e => Err e
  | TimedOut => Err (network_error "health check timed out")
  end.

Definition check_and_thaw (outcome : HealthOutcome E) (m : FreezeManager) (now1 now2 : Z)
    : FreezeManager * Result E unit :=
  match check outcome with
  | Ok _ => (thaw m, Ok tt)
  | Err e => (freeze m ("health check failed: " +:+ show e) None now1 now2, Err e)
  end.
End health.

(** ** Interleavings: any number of threads, each step one atomic section *)
Inductive op :=
| OpFreeze (why : string) (duration : option Z) (now1 now2 : Z)
| OpFreezePermanent (why : string) (now : Z)
| OpThaw
| OpTryAutoThaw (now : Z).

Definition apply_op (m : FreezeManager) (o : op) : FreezeManager :=
  match o with
  | OpFreeze why d n1 n2 => freeze m why d n1 n2
  | OpFreezePermanent why now => freeze_permanent m why now
  | OpThaw => thaw m
  | OpTryAutoThaw now => (try_auto_thaw m now).1
  end.
Definition run (m : FreezeManager) (ops : list op) : FreezeManager := fold_left apply_op ops m.

(** The shape every reachable state has. *)
Definition wf (m : FreezeManager) : Prop :=
  let s := state m in
  0 <= consecutive_freezes s <= u32_MAX /\
  is_u64 (base_duration_secs m) /\ is_u64 (max_duration_secs m) /\
  if permanent s then frozen s = true /\ thaw_at s = None
  else if frozen s then is_Some (thaw_at s) else thaw_at s = None /\ reason s = None.

Lemma wf_new base max : is_u64 base -> is_u64 max -> wf (new base max).
Proof. unfold wf, u32_MAX; cbn. intuition lia. Qed.

Lemma wrapping_u32 z : 0 <= wrapping 32 z <= u32_MAX.
Proof. unfold wrapping, u32_MAX. pose proof (Z.mod_pos_bound z (2 ^ 32) ltac:(lia)). lia. Qed.

Lemma wf_apply m o : wf m -> wf (apply_op m o).
Proof.
  unfold wf. intros (Hc & Hb & Hm & Hs).
  destruct o; cbn; unfold freeze, try_auto_thaw; repeat case_match; cbn in *;
    simplify_eq/=; rewrite ?H, ?H0; cbn; pose proof wrapping_u32;
    split_and!; try done; try (unfold u32_MAX; lia); naive_solver.
Qed.

Lemma wf_run m ops : wf m -> wf (run m ops).
Proof.
  revert m. induction ops as [|o ops IH]; intros m Hm; [done|]. by apply IH, wf_apply.
Qed.

(** ** Lemmas *)
Lemma nanos_mono a b : a <= b -> nanos a <= nanos b.
Proof. unfold nanos. lia. Qed.
Lemma nanos_min a b : nanos (Z.min a b) = Z.min (nanos a) (nanos b).
Proof. unfold nanos. lia. Qed.

(** Saturation at [u64::MAX] never shows below the configured maximum. *)
Lemma adaptive_exact m k :
  is_u64 (base_duration_secs m) -> is_u64 (max_duration_secs m) -> 1 <= k ->
  adaptive_duration m k =
  nanos (Z.min (base_duration_secs m * 2 ^ (k - 1)) (max_duration_secs m)).
Proof.
  intros [Hb _] [_ Hm] Hk. unfold adaptive_duration. f_equal.
  unfold saturating_mul, saturating_pow, saturating_sub.
  rewrite Z.max_r by lia. assert (1 <= 2 ^ (k - 1)) by (apply (Z.pow_le_mono_r 2 0); lia).
  set (p := 2 ^ (k - 1)) in *. unfold u64_MAX in *.
  destruct (Z.eq_dec (base_duration_secs m) 0) as [->|]; [lia|].
  destruct (Z.le_gt_cases p (2 ^ 64 - 1)); [rewrite (Z.min_r _ p); lia|].
  rewrite (Z.min_l _ p) by lia.
  assert (2 ^ 64 - 1 <= base_duration_secs m * (2 ^ 64 - 1)) by nia.
  assert (2 ^ 64 - 1 <= base_duration_secs m * p) by nia. lia.
Qed.

Lemma status_try_auto_thaw m now :
  wf m -> (try_auto_thaw m now).2 = st_is_frozen (status m now).
Proof.
  intros (_ & _ & _ & H). unfold try_auto_thaw, status; cbn.
  destruct (permanent (state m)); cbn; [by destruct H as [-> _]|].
  destruct (frozen (state m)); cbn.
  - destruct H as [t ->]. case_match; cbn; lia.
  - by destruct H as [-> _].
Qed.

Lemma status_is_frozen_read m now b :
  wf m -> is_frozen_read m now = Some b -> b = st_is_frozen (status m now).
Proof.
  intros (_ & _ & _ & H). unfold is_frozen_read, status; cbn.
  destruct (permanent (state m)); cbn.
  - destruct H as [-> ->]; cbn. naive_solver.
  - destruct (frozen (state m)); cbn; [|naive_solver].
    destruct H as [t ->]. case_match; [done|]. intros [= <-]. lia.
Qed.

(** The interface routing is proved against. *)
Lemma is_frozen_status m t t' :
  wf m -> t <= t' -> (is_frozen m t t').2 = st_is_frozen (status m t).
Proof.
  intros Hm Ht. unfold is_frozen. destruct (is_frozen_read m t) as [b|] eqn:E.
  - by apply status_is_frozen_read.
  - rewrite status_try_auto_thaw by done. revert E. unfold is_frozen_read, status; cbn.
    destruct Hm as (_ & _ & _ & Hs). destruct (frozen (state m)); cbn; [|done].
    destruct (permanent (state m)); cbn; [by destruct Hs as [_ ->]|].
    destruct Hs as [e ->]. destruct (e <=? t) eqn:E; [|done]. intros _. lia.
Qed.

Lemma is_frozen_stable m t t' u :
  wf m -> t <= t' -> t' <= u ->
  st_is_frozen (status (is_frozen m t t').1 u) = st_is_frozen (status m u).
Proof.
  intros (_ & _ & _ & Hs) Ht Hu. unfold is_frozen, is_frozen_read, try_auto_thaw.
  destruct (frozen (state m)) eqn:Ef; cbn; [|done].
  destruct (permanent (state m)) eqn:Ep; [destruct Hs as [_ ->]; cbn; by rewrite Ep|].
  destruct Hs as [e He]. rewrite He. destruct (e <=? t) eqn:E; cbn; [|by rewrite Ep, He].
  rewrite (proj2 (Z.leb_le e t')) by lia. cbn. rewrite ?Ef; cbn. lia.
Qed.

Lemma is_frozen_wf m t t' : wf m -> wf (is_frozen m t t').1.
Proof.
  intros Hm. unfold is_frozen. case_match; [done|]. exact (wf_apply m (OpTryAutoThaw t') Hm).
Qed.

#[export] Instance FreezeManager_gate : FreezeGate FreezeManager := {|
  fg_check := is_frozen;
  fg_effective := fun m t => st_is_frozen (status m t);
  fg_wf := wf;
  fg_check_effective := is_frozen_status;
  fg_check_stable := is_frozen_stable;
  fg_check_wf := is_frozen_wf;
|}.

Definition no_thaw (o : op) : bool := match o with OpThaw => false | _ => true end.

Lemma permanent_run m ops :
  permanent (state m) = true -> forallb no_thaw ops = true ->
  permanent (state (run m ops)) = true.
Proof.
  revert m. induction ops as [|o ops IH]; intros m Hp Hops; [done|].
  cbn in Hops. apply andb_true_iff in Hops as [Ho Hops]. apply IH; [|done].
  destruct o; cbn in *; unfold freeze, try_auto_thaw; rewrite ?Hp; done.
Qed.

(** How long a temporary freeze lasts. *)
Definition freeze_target (m : FreezeManager) (d : option Z) : Z :=
  let max := max_duration_secs m in
  match d with
  | Some (Zpos _ as d') => Z.min d' (nanos max)
  | _ => nanos (Z.min (base_duration_secs m
           * 2 ^ (wrapping 32 (consecutive_freezes (state m) + 1) - 1)) max)
  end.

Lemma freeze_state m why d now1 now2 :
  is_u64 (base_duration_secs m) -> is_u64 (max_duration_secs m) ->
  1 <= wrapping 32 (consecutive_freezes (state m) + 1) ->
  match d with Some d' => 0 <= d' | None => True end -> permanent (state m) = false ->
  state (freeze m why d now1 now2)
  = mkState true (Some why) (Some now1) (Some (now2 + freeze_target m d))
      (wrapping 32 (consecutive_freezes (state m) + 1)) false.
Proof.
  intros Hb Hm Hk Hd Hp. unfold freeze, freeze_target. rewrite Hp; cbn. do 3 f_equal.
  set (k := wrapping 32 _) in *. pose proof (adaptive_exact m k Hb Hm Hk) as Ha.
  destruct d as [[|d|d]|]; cbn -[adaptive_duration]; rewrite ?Ha, ?nanos_min; lia.
Qed.

Lemma freeze_holds m why d now1 now2 t :
  wf m -> 1 <= wrapping 32 (consecutive_freezes (state m) + 1) ->
  match d with Some d' => 0 <= d' | None => True end -> t < now2 + freeze_target m d ->
  st_is_frozen (status (freeze m why d now1 now2) t) = true.
Proof.
  intros (_ & Hb & Hm & Hs) Hk Hd Ht. destruct (permanent (state m)) eqn:Hp.
  - destruct Hs as [Hf _]. unfold freeze, status. rewrite Hp; cbn. by rewrite Hf.
  - unfold status. rewrite freeze_state by done. cbn. lia.
Qed.

(** ** Properties *)

(** A temporary freeze lasts, from its second clock reading on, exactly the
    given duration or, when none (or zero) is given, [base * 2^(k-1)] seconds
    for the k-th freeze in a row, never more than the configured maximum even
    where the machine arithmetic saturates; the provider counts as frozen
    strictly before that instant and as thawed from it on; a permanent freeze is
    not downgraded. *)
Theorem freeze_schedule m why d now1 now2 :
  wf m ->
  let k := wrapping 32 (consecutive_freezes (state m) + 1) in
  let max := max_duration_secs m in
  let target :=
    match d with
    | Some (Zpos _ as d') => Z.min d' (nanos max)
    | _ => nanos (Z.min (base_duration_secs m * 2 ^ (k - 1)) max)
    end in
  let m' := freeze m why d now1 now2 in
  match d with Some d' => 0 <= d' | None => True end -> 1 <= k ->
  (permanent (state m) = false ->
   consecutive_freezes (state m') = k /\ reason (state m') = Some why /\
   forall t t', t <= t' -> (is_frozen m' t t').2 = (t <? now2 + target)) /\
  (permanent (state m) = true ->
   forall t t', (is_frozen m' t t').2 = true) /\
  target <= nanos max.
Proof.
  intros (_ & Hb & Hm & Hs) k max target m' Hd Hk.
  assert (Hmax : target <= nanos max).
  { subst target. repeat case_match; rewrite ?nanos_min; lia. }
  split; [|split; [|done]].
  - intros Hp. assert (Hst := freeze_state m why d now1 now2 Hb Hm Hk Hd Hp).
    fold m' k in Hst. rewrite Hst; cbn. split; [done|]. split; [done|]. intros t t' Ht.
    change (freeze_target m d) with target in Hst.
    unfold is_frozen, is_frozen_read, try_auto_thaw. rewrite Hst; cbn.
    destruct (now2 + target <=? t) eqn:E; cbn; [|lia].
    rewrite (proj2 (Z.leb_le _ _)) by lia. cbn. lia.
  - intros Hp t t'. rewrite Hp in Hs. destruct Hs as [Hf Ht]. subst m'.
    unfold freeze, is_frozen, is_frozen_read. rewrite Hp; cbn. by rewrite Hf, Ht.
Qed.

Lemma freeze_schedule_witness :
  let m := freeze (new 30 3600) "503" None 5 7 in
  consecutive_freezes (state (freeze m "429" (Some 0) 10 10)) = 2 /\
  (is_frozen (freeze m "429" (Some 0) 10 10) (nanos 60 + 9) (nanos 60 + 20)).2 = true /\
  (is_frozen (freeze m "429" (Some 0) 10 10) (nanos 60 + 10) (nanos 60 + 20)).2 = false.
Proof.
  intros m.
  assert (Hwf : wf m) by (apply (wf_run (new 30 3600) [OpFreeze "503" None 5 7]), wf_new; done).
  destruct (freeze_schedule m "429" (Some 0) 10 10 Hwf (Z.le_refl 0) ltac:(vm_compute; congruence))
    as (H & _). destruct (H eq_refl) as (H1 & _ & H2).
  split; [exact H1|]. split; rewrite H2; vm_compute; congruence.
Defined.

(** However freezes, thaws, health checks and automatic thaws interleave,
    each half of [is_frozen] answers with the effective status at the moment it
    runs, so a thaw between the two halves is seen, and only an expired
    temporary freeze is thawed automatically. *)
Theorem is_frozen_linearizable base max ops t :
  is_u64 base -> is_u64 max ->
  let m := run (new base max) ops in
  (forall b, is_frozen_read m t = Some b -> b = st_is_frozen (status m t)) /\
  (try_auto_thaw m t).2 = st_is_frozen (status m t) /\
  (frozen (state m) = true -> frozen (state (try_auto_thaw m t).1) = false ->
   permanent (state m) = false /\ exists expiry, thaw_at (state m) = Some expiry /\ expiry <= t).
Proof.
  intros Hb Hm m. assert (Hwf : wf m) by (by apply wf_run, wf_new).
  split; [by intros; apply status_is_frozen_read|]. split; [by apply status_try_auto_thaw|].
  unfold try_auto_thaw. intros Hf. repeat case_match; cbn; intros; try congruence.
  split; [done|]. eexists. split; [done|]. lia.
Qed.

Lemma is_frozen_linearizable_witness :
  let m := run (new 1 10) [OpFreeze "x" None 0 0; OpThaw; OpFreeze "y" (Some 5) 1 1] in
  (try_auto_thaw m 6).2 = st_is_frozen (status m 6) /\ (try_auto_thaw m 6).2 = false.
Proof.
  split; [|reflexivity].
  apply (is_frozen_linearizable 1 10
    [OpFreeze "x" None 0 0; OpThaw; OpFreeze "y" (Some 5) 1 1] 6); split; done.
Defined.

(** A permanent freeze (bad key, exhausted quota) holds at every time and
    under every further operation, failing health checks included, until a
    manual or health-check thaw; that thaw clears it and the backoff count. *)
Theorem permanent_until_thaw m why now ops t t' :
  wf m -> forallb no_thaw ops = true ->
  let m' := run (freeze_permanent m why now) ops in
  (is_frozen m' t t').2 = true /\ st_is_frozen (status m' t) = true /\
  (is_frozen (thaw m') t t').2 = false /\
  forall (E : Type) show network_error (o : HealthOutcome E),
    (is_frozen (check_and_thaw show network_error o m' t t').1 t t').2
    = match o with Healthy => false | _ => true end.
Proof.
  intros Hwf Hops m'.
  assert (Hp : permanent (state m') = true) by (by apply permanent_run).
  assert (Hwf' : wf m') by (by apply wf_run, (wf_apply m (OpFreezePermanent why now))).
  pose proof Hwf' as (_ & _ & _ & H). rewrite Hp in H. destruct H as [Hf Ht].
  unfold is_frozen, is_frozen_read, status; cbn. rewrite Hf, Ht, Hp; cbn.
  split_and!; try done.
  intros E show ne o. unfold check_and_thaw, check, freeze.
  destruct o; cbn; rewrite ?Hp; cbn; rewrite ?Hf, ?Ht; done.
Qed.

Lemma permanent_until_thaw_witness :
  let m' := run (freeze_permanent (new 1 10) "401" 0) [OpFreeze "x" None 0 0; OpTryAutoThaw 99] in
  (is_frozen m' 100 101).2 = true /\ (is_frozen (thaw m') 100 101).2 = false.
Proof.
  assert (Hwf : wf (new 1 10)) by (apply wf_new; split; done).
  destruct (permanent_until_thaw (new 1 10) "401" 0 [OpFreeze "x" None 0 0; OpTryAutoThaw 99]
    100 101 Hwf eq_refl) as (H1 & _ & H2 & _). split; [exact H1 | exact H2].
Defined.
