(* ===== verification/Router.v ===== *)
(** * Tag-based provider routing

    Models [crates/hf-provider/src/router.rs] against the [FreezeGate] interface
    of [Provider], which [Freeze.FreezeManager_gate] implements.
    The freeze check of a candidate may thaw it, so [select] returns the
    providers it leaves behind; the clock is a function from a provider's
    position to the readings its check makes, and [seed] is the
    [subsec_nanos()] reading of the random strategy. *)
From S2P Require Import Prelude Provider.
From Stdlib Require Import SpecFloat.

Record RoutableProvider (M : Type) := mkProvider {
  metadata : ProviderMetadata;
  freeze_manager : M;
  available_permits : Z;
  max_concurrency : Z;
}.
Arguments mkProvider {M}.
Arguments metadata {M}.
Arguments freeze_manager {M}.
Arguments available_permits {M}.
Arguments max_concurrency {M}.

Inductive SelectionStrategy := Priority | Random | LeastLoaded | RoundRobin | CostOptimized.

Record TagBasedRouter := mkRouter {
  next_index : Z;
  strategy : SelectionStrategy;
}.
Definition new : TagBasedRouter := mkRouter 0 Priority.
Definition with_strategy (s : SelectionStrategy) : TagBasedRouter := mkRouter 0 s.

Section routing.
Context {M : Type} `{FreezeGate M}.

(** [tags.iter().all(|tag| meta.tags.contains(tag))]. *)
Definition has_tags (wanted : list string) (p : RoutableProvider M) : bool :=
  forallb (fun tag => bool_decide (tag ∈ tags (metadata p))) wanted.

Definition has_capacity (prio : RoutePriority) (p : RoutableProvider M) : bool :=
  match prio with
  | Idle => 0 <? available_permits p
  | Critical => true
  | Normal => max_concurrency p / 5 <? available_permits p
  end.

(** The freeze check of step 1 on every provider, in order. *)
Definition frozen_check (clock : nat -> Z * Z) (i : nat) (p : RoutableProvider M)
    : RoutableProvider M * bool :=
  let '(m, b) := fg_check (freeze_manager p) (clock i).1 (clock i).2 in
  (mkProvider (metadata p) m (available_permits p) (max_concurrency p), b).
Definition after_checks (clock : nat -> Z * Z) (providers : list (RoutableProvider M))
     : list (RoutableProvider M) :=
  imap (fun i p => (frozen_check clock i p).1) providers.

Definition candidates (clock : nat -> Z * Z) (providers : list (RoutableProvider M))
    (route : RouteRequest) : list nat :=
  fst <$> filter (fun '(i, p) =>
    negb (frozen_check clock i p).2 && has_tags (required_tags route) p
      && has_capacity (priority route) p = true) (imap pair providers).

(** Step 1b. *)
Definition narrow (providers : list (RoutableProvider M)) (route : RouteRequest)
    (cands : list nat) : list nat :=
  match preferred_tags route with
  | [] => cands
  | wanted =>
      match filter (fun i => from_option (has_tags wanted) false (providers !! i) = true) cands with
      | [] => cands
      | preferred => preferred
      end
  end.

Definition model_is (m : string) (providers : list (RoutableProvider M)) (i : nat) : bool :=
  from_option (fun p => bool_decide (model (metadata p) = m)) false (providers !! i).

Definition permits_of (providers : list (RoutableProvider M)) (i : nat) : Z :=
  from_option available_permits 0 (providers !! i).
Definition cost_cmp (providers : list (RoutableProvider M)) (a b : nat) : comparison :=
  match cost_per_1k_input ∘ metadata <$> providers !! a,
        cost_per_1k_input ∘ metadata <$> providers !! b with
  | Some x, Some y => default Eq (SFcompare x y)
  | _, _ => Eq
  end.

Definition apply_strategy (r : TagBasedRouter) (seed : Z) (providers : list (RoutableProvider M))
    (cands : list nat) : TagBasedRouter * option nat :=
  match strategy r with
  | Priority => (r, cands !! 0%nat)
  | Random => (r, cands !! Z.to_nat (seed mod zlen cands))
  | LeastLoaded => (r, max_by_key (permits_of providers) cands)
  | RoundRobin =>
      (mkRouter (wrapping 64 (next_index r + 1)) (strategy r),
       cands !! Z.to_nat (next_index r mod zlen cands))
  | CostOptimized => (r, min_by (cost_cmp providers) cands)
  end.

(** Step 0: an explicit provider choice. *)
Definition select_preferred (providers : list (RoutableProvider M)) (route : RouteRequest)
    (preferred_id : string) : Result ProviderError nat :=
  match position (fun p => bool_decide (id (metadata p) = preferred_id)) providers with
  | None => Err (Other ("preferred provider '" +:+ preferred_id +:+ "' is not registered"))
  | Some i =>
      if from_option (has_tags (required_tags route)) false (providers !! i) then Ok i
      else Err (Other ("preferred provider '" +:+ preferred_id
        +:+ "' does not match required tags " +:+ debug_strs (required_tags route)))
  end.

(** [None] in the result would be the panic of an index out of range or an
    [expect] on no candidate: [select_spec] shows it does not arise. *)
Definition select (r : TagBasedRouter) (clock : nat -> Z * Z) (seed : Z)
    (providers : list (RoutableProvider M)) (route : RouteRequest)
    : TagBasedRouter * list (RoutableProvider M) * option (Result ProviderError nat) :=
  match preferred_provider_id route with
  | Some preferred_id => (r, providers, Some (select_preferred providers route preferred_id))
  | None =>
      let cands := candidates clock providers route in
      let providers' := after_checks clock providers in
      match cands with
      | [] => (r, providers', Some (Err (NoProviderAvailable (required_tags route))))
      | _ =>
          let cands := narrow providers' route cands in
          let exact := m ← preferred_model route;
                       find_map (fun i => if model_is m providers' i then Some i else None) cands in
          match exact with
          | Some i => (r, providers', Some (Ok i))
          | None =>
              let '(r', i) := apply_strategy r seed providers' cands in
              (r', providers', Ok <$> i)
          end
      end
  end.

(** ** Lemmas *)

(** A provider a route may use at the readings [clock i]. *)
Definition eligible (clock : nat -> Z * Z) (providers : list (RoutableProvider M))
    (route : RouteRequest) (i : nat) : Prop :=
  exists p, providers !! i = Some p /\
    fg_effective (freeze_manager p) (clock i).1 = false /\
    (forall tag, tag ∈ required_tags route -> tag ∈ tags (metadata p)) /\
    match priority route with
    | Critical => True
    | Normal => max_concurrency p / 5 < available_permits p
    | Idle => 0 < available_permits p
    end.

Lemma has_tags_spec wanted (p : RoutableProvider M) :
  has_tags wanted p = true <-> forall tag, tag ∈ wanted -> tag ∈ tags (metadata p).
Proof.
  unfold has_tags. rewrite forallb_forall. setoid_rewrite <- list_elem_of_In.
  by setoid_rewrite bool_decide_eq_true.
Qed.

Lemma has_capacity_spec prio (p : RoutableProvider M) :
  has_capacity prio p = true <->
  match prio with
  | Critical => True
  | Normal => max_concurrency p / 5 < available_permits p
  | Idle => 0 < available_permits p
  end.
Proof. destruct prio; cbn; rewrite ?Z.ltb_lt; done. Qed.

Definition pool_ok (clock : nat -> Z * Z) (providers : list (RoutableProvider M)) : Prop :=
  Forall (fun p => fg_wf (freeze_manager p)) providers /\ forall i, (clock i).1 <= (clock i).2.

Section clock.
Context (clock : nat -> Z * Z) (providers : list (RoutableProvider M)).
Context (Hok : pool_ok clock providers).

Lemma elem_of_candidates route i :
  i ∈ candidates clock providers route <-> eligible clock providers route i.
Proof.
  unfold candidates, eligible. rewrite list_elem_of_fmap. split.
  - intros ([j p] & -> & [Hf Hin]%list_elem_of_filter). cbn.
    apply elem_of_lookup_imap in Hin as (j' & p' & [= -> ->] & Hp). exists p'. split; [done|].
    rewrite !andb_true_iff, negb_true_iff, has_tags_spec, has_capacity_spec in Hf.
    destruct Hf as [[Hf ?] ?]. split; [|done].
    revert Hf. unfold frozen_check. destruct (fg_check _ _ _) as [m b] eqn:E; cbn. intros ->.
    rewrite <- fg_check_effective with (t' := (clock j').2), E; [done| |apply Hok].
    by eapply (list.Forall_lookup_1 _ _ _ _ (proj1 Hok)).
  - intros (p & Hp & Hf & Ht & Hc). exists (i, p). split; [done|].
    apply list_elem_of_filter. split; [|apply elem_of_lookup_imap; eauto].
    rewrite !andb_true_iff, negb_true_iff, has_tags_spec, has_capacity_spec.
    split; [split|]; [|done|done]. unfold frozen_check.
    destruct (fg_check _ _ _) as [m b] eqn:E; cbn.
    rewrite <- fg_check_effective with (t' := (clock i).2), E in Hf; [done| |apply Hok].
    by eapply (list.Forall_lookup_1 _ _ _ _ (proj1 Hok)).
Qed.

(** The checks change freeze managers only. *)
Lemma lookup_after_checks i :
  after_checks clock providers !! i = (fun p => (frozen_check clock i p).1) <$> providers !! i.
Proof. unfold after_checks. by rewrite list_lookup_imap. Qed.
Lemma frozen_check_metadata i (p : RoutableProvider M) :
  metadata (frozen_check clock i p).1 = metadata p /\
  available_permits (frozen_check clock i p).1 = available_permits p.
Proof. unfold frozen_check. by destruct (fg_check _ _ _). Qed.

(** Tags of the provider at a position, untouched by the checks. *)
Definition carries (wanted : list string) (i : nat) : Prop :=
  exists p, providers !! i = Some p /\ forall tag, tag ∈ wanted -> tag ∈ tags (metadata p).

Lemma carries_after wanted i :
  from_option (has_tags wanted) false (after_checks clock providers !! i) = true <->
  carries wanted i.
Proof.
  rewrite lookup_after_checks. unfold carries.
  destruct (providers !! i) as [p|]; cbn; [|naive_solver].
  rewrite has_tags_spec, (proj1 (frozen_check_metadata i p)). naive_solver.
Qed.

Lemma elem_of_narrow route i :
  i ∈ narrow (after_checks clock providers) route (candidates clock providers route) <->
  eligible clock providers route i /\
  ((exists j, eligible clock providers route j /\ carries (preferred_tags route) j) ->
   carries (preferred_tags route) i).
Proof.
  rewrite <- elem_of_candidates. unfold narrow.
  destruct (preferred_tags route) as [|t ts] eqn:Et.
  - split; [|by intros []]. intros Hi. split; [done|]. intros _.
    apply elem_of_candidates in Hi as (p & Hp & _). exists p. split; [done|].
    intros tag Htag. by apply not_elem_of_nil in Htag.
  - assert (Hf : forall j, j ∈ filter (fun i => from_option (has_tags (t :: ts)) false
        (after_checks clock providers !! i) = true) (candidates clock providers route) <->
      carries (t :: ts) j /\ j ∈ candidates clock providers route).
    { intros j. by rewrite list_elem_of_filter, carries_after. }
    destruct (filter _ _) as [|x l] eqn:El.
    + split; [|by intros []]. intros Hi. split; [done|]. intros (j & Hj & Hc).
      apply elem_of_candidates in Hj. by destruct (not_elem_of_nil j (proj2 (Hf j) (conj Hc Hj))).
    + rewrite Hf. split; [naive_solver|]. intros [Hi Hc]. split; [|done]. apply Hc.
      exists x. rewrite <- elem_of_candidates. apply and_comm, Hf. left.
Qed.
End clock.

Lemma apply_strategy_elem r seed providers cands :
  cands <> [] -> exists i, (apply_strategy r seed providers cands).2 = Some i /\ i ∈ cands.
Proof.
  intros Hne.
  assert (Hpos : 0 < zlen cands).
  { pose proof (zlen_nonneg cands). destruct (Z.eq_dec (zlen cands) 0) as [?%zlen_0|]; [done|lia]. }
  assert (Hnth : forall z, exists i, cands !! Z.to_nat (z mod zlen cands) = Some i /\ i ∈ cands).
  { intros z. pose proof (Z.mod_pos_bound z (zlen cands) Hpos).
    destruct (lookup_lt_is_Some_2 cands (Z.to_nat (z mod zlen cands))) as [i Hi];
      [unfold zlen in *; lia|]. exists i. split; [done|]. by eapply list_elem_of_lookup_2. }
  unfold apply_strategy. destruct (strategy r); cbn; try apply Hnth.
  - destruct cands as [|i l]; [done|]. exists i. split; [done|left].
  - destruct (max_by_key_Some (permits_of providers) cands Hne) as (i & ? & ? & _). eauto.
  - by apply min_by_Some.
Qed.

(** A position the route's soft preference keeps. *)
Definition narrowed (clock : nat -> Z * Z) (providers : list (RoutableProvider M))
    (route : RouteRequest) (i : nat) : Prop :=
  eligible clock providers route i /\
  ((exists j, eligible clock providers route j /\ carries providers (preferred_tags route) j) ->
   carries providers (preferred_tags route) i).

Lemma model_is_after clock providers mdl i :
  model_is mdl (after_checks clock providers) i = true <->
  exists p, providers !! i = Some p /\ model (metadata p) = mdl.
Proof.
  unfold model_is. rewrite lookup_after_checks. destruct (providers !! i) as [p|]; cbn; [|naive_solver].
  rewrite bool_decide_eq_true, (proj1 (frozen_check_metadata clock i p)). naive_solver.
Qed.

Lemma apply_strategy_in r seed providers cands i :
  (apply_strategy r seed providers cands).2 = Some i -> i ∈ cands.
Proof.
  destruct cands as [|c cs]; [by unfold apply_strategy; destruct (strategy r)|].
  destruct (apply_strategy_elem r seed providers (c :: cs) ltac:(done)) as (j & -> & ?).
  by intros [= <-].
Qed.

Lemma select_eligible r clock seed providers route i :
  pool_ok clock providers -> preferred_provider_id route = None ->
  (select r clock seed providers route).2 = Some (Ok i) -> eligible clock providers route i.
Proof.
  intros Hok Hpref. unfold select. rewrite Hpref.
  destruct (candidates clock providers route) as [|c cs] eqn:Ec; [done|]. rewrite <- Ec.
  destruct (m ← preferred_model route; _) as [j|] eqn:Em; cbn.
  - intros [= ->]. destruct (preferred_model route) as [m|]; [|done]. cbn in Em.
    apply find_map_Some in Em as (a & Ha & Hma). case_match; simplify_eq.
    by apply elem_of_narrow in Ha as [? _].
  - destruct (apply_strategy _ _ _ _) as [r' o] eqn:Es; cbn. destruct o; [|done]. intros [= ->].
    assert (Hi := apply_strategy_in r seed _ _ i (f_equal snd Es)).
    by apply elem_of_narrow in Hi as [? _].
Qed.

(** ** Properties *)

(** The outcome of a route that names no provider. *)
Definition routed (clock : nat -> Z * Z) (providers : list (RoutableProvider M)) (route : RouteRequest)
    (o : option (Result ProviderError nat)) : Prop :=
  match o with
  | None => False
  | Some (Err e) =>
      e = NoProviderAvailable (required_tags route) /\
      forall i, ~ eligible clock providers route i
  | Some (Ok i) =>
      narrowed clock providers route i /\
      forall m j p, preferred_model route = Some m -> narrowed clock providers route j ->
        providers !! j = Some p -> model (metadata p) = m ->
        exists q, providers !! i = Some q /\ model (metadata q) = m
  end.
(** The provider a route names: the first with that identifier. *)
Definition named (providers : list (RoutableProvider M)) (pid : string) (i : nat) : Prop :=
  exists p, providers !! i = Some p /\ id (metadata p) = pid /\
    forall j q, (j < i)%nat -> providers !! j = Some q -> id (metadata q) <> pid.
Definition routed_to (providers : list (RoutableProvider M)) (route : RouteRequest) (pid : string)
    (o : option (Result ProviderError nat)) : Prop :=
  match o with
  | None => False
  | Some (Ok i) => named providers pid i /\ carries providers (required_tags route) i
  | Some (Err e) =>
      (forall i, ~ named providers pid i) /\ e = Other ("preferred provider '" +:+ pid +:+ "' is not registered") \/
      (exists i, named providers pid i /\ ~ carries providers (required_tags route) i) /\
        e = Other ("preferred provider '" +:+ pid +:+ "' does not match required tags " +:+ debug_strs (required_tags route))
  end.
Lemma position_named pid providers :
  match position (fun p : RoutableProvider M => bool_decide (id (metadata p) = pid)) providers with
  | Some i => named providers pid i
  | None => forall i, ~ named providers pid i
  end.
Proof.
  induction providers as [|p l IH]; cbn [position]; [by intros i (p & Hp & _)|]. case_bool_decide as E.
  - exists p. split; [done|]. split; [done|]. lia.
  - destruct (position _ l) as [i|]; cbn [fmap option_fmap option_map].
    + destruct IH as (q & Hq & Hid & Hfirst). exists q. split; [done|]. split; [done|].
      intros [|j] q' Hj Hq'; [by injection Hq' as <-|]. apply (Hfirst j); [lia|done].
    + intros [|i] (q & Hq & Hid & Hfirst); [injection Hq as <-; done|]. apply (IH i). exists q. split; [done|]. split; [done|].
      intros j q' Hj Hq'. apply (Hfirst (S j)); [lia|done].
Qed.
Lemma select_preferred_spec providers route pid : routed_to providers route pid (Some (select_preferred providers route pid)).
Proof.
  unfold select_preferred. pose proof (position_named pid providers) as Hp. destruct (position _ _) as [i|]; [|by left].
  assert (Hc : from_option (has_tags (required_tags route)) false (providers !! i) = true <-> carries providers (required_tags route) i).
  { unfold carries. destruct (providers !! i) as [q|]; cbn; [rewrite has_tags_spec|]; naive_solver. }
  destruct (from_option _ _ _) eqn:E; [split; [done|by apply Hc]|]. right. split; [|done]. exists i. split; [done|]. by intros ?%Hc.
Qed.
Lemma select_routed r clock seed providers route :
  pool_ok clock providers -> preferred_provider_id route = None ->
  routed clock providers route (select r clock seed providers route).2.
Proof.
  intros Hok Hpref. unfold routed, select. rewrite Hpref.
  pose proof (elem_of_candidates clock providers Hok route) as Hc.
  pose proof (elem_of_narrow clock providers Hok route) as Hn.
  fold (narrowed clock providers route) in Hn.
  destruct (candidates clock providers route) as [|c cs] eqn:Ec; cbn zeta.
  { split; [done|]. intros i Hi. apply Hc in Hi. by apply not_elem_of_nil in Hi. }
  set (nr := narrow _ _ _) in *.
  assert (Hne : nr <> []).
  { intros Hnil. destruct (Hn c) as [_ Hin]. rewrite Hnil in Hin.
    assert (Hec : eligible clock providers route c) by (apply Hc; left).
    assert (Hno : forall j, ~ (eligible clock providers route j /\
      ((exists k, eligible clock providers route k /\ carries providers (preferred_tags route) k) ->
        carries providers (preferred_tags route) j))).
    { intros j Hj. apply Hn in Hj. rewrite Hnil in Hj. by apply not_elem_of_nil in Hj. }
    apply (Hno c). split; [done|]. intros (k & Hk & Hck). destruct (Hno k). auto. }
  destruct (m ← preferred_model route; _) as [i|] eqn:Em; cbn.
  - destruct (preferred_model route) as [m|]; [|done]. cbn in Em.
    apply find_map_Some in Em as (a & Ha & Hma). destruct (model_is _ _ _) eqn:E; [|done].
    simplify_eq. split; [by apply Hn|]. intros m' j p [= <-] _ _ _. by apply model_is_after in E.
  - destruct (apply_strategy_elem r seed (after_checks clock providers) nr Hne) as (i & Hi & Hin).
    destruct (apply_strategy _ _ _ _) as [r' o]. cbn in Hi. subst o. cbn.
    split; [by apply Hn|]. intros m j p Hm Hj Hp Hpm. exfalso. rewrite Hm in Em. cbn in Em.
    rewrite find_map_None, list.Forall_forall in Em. apply Hn in Hj. specialize (Em j Hj).
    assert (model_is m (after_checks clock providers) j = true) as Ht
      by (apply model_is_after; eauto). by rewrite Ht in Em.
Qed.

(** C4: routing never panics.  Without an explicit provider it fails, with
    [NoProviderAvailable] and the required tags, exactly when no provider is
    thawed, tagged and has the capacity the code asks for the priority; otherwise it
    picks such a provider, among those carrying the preferred tags when there
    are any, and the preferred model's provider when one of them serves it.  With an
    explicit provider it picks the first of that identifier, whatever its freezes and
    capacity, if it carries the required tags, and fails if there is none or it does
    not.  The capacity asked is: of a critical request none, of a normal one a permit
    beyond the fifth kept for critical requests, of an idle one, the lowest priority,
    any permit, and so one of the reserve ([idle_uses_reserve]), which is a defect of
    the code. *)
Theorem select_spec r clock seed providers route :
  pool_ok clock providers ->
  match preferred_provider_id route with
  | None => routed clock providers route (select r clock seed providers route).2
  | Some pid => routed_to providers route pid (select r clock seed providers route).2
  end.
Proof.
  intros Hok. destruct (preferred_provider_id route) as [pid|] eqn:E; [|by apply select_routed].
  unfold select. rewrite E. apply select_preferred_spec.
Qed.
(** An idle request is let in wherever a normal one is, and where only the reserve is
    left it alone is. *)
Definition at_priority (prio : RoutePriority) (route : RouteRequest) : RouteRequest :=
  mkRoute (required_tags route) (preferred_tags route) (preferred_provider_id route) (preferred_model route) prio.
Theorem idle_uses_reserve (clock : nat -> Z * Z) (providers : list (RoutableProvider M)) (route : RouteRequest) i p :
  providers !! i = Some p -> 0 <= max_concurrency p ->
  (eligible clock providers (at_priority Normal route) i -> eligible clock providers (at_priority Idle route) i) /\
  (eligible clock providers (at_priority Idle route) i -> available_permits p <= max_concurrency p / 5 ->
     ~ eligible clock providers (at_priority Normal route) i).
Proof.
  intros Hp Hm. pose proof (Z.div_pos (max_concurrency p) 5 Hm ltac:(lia)). split.
  - intros (q & Hq & Hf & Ht & Hc). exists q. cbn in *. split; [done|]. split; [done|]. split; [done|]. simplify_eq. lia.
  - intros _ Hr (q & Hq & _ & _ & Hc). cbn in Hc. simplify_eq. lia.
Qed.

(** The successive choices of one router for an unchanging candidate list. *)
Fixpoint choices (r : TagBasedRouter) (providers : list (RoutableProvider M)) (cands : list nat)
    (n : nat) : list (option nat) :=
  match n with
  | O => []
  | S n =>
      let '(r', i) := apply_strategy r 0 providers cands in i :: choices r' providers cands n
  end.

Lemma choices_round_robin r providers cands n :
  strategy r = RoundRobin -> 0 <= next_index r -> next_index r + Z.of_nat n <= u64_MAX ->
  choices r providers cands n =
  (fun k => cands !! Z.to_nat ((next_index r + Z.of_nat k) mod zlen cands)) <$> seq 0 n.
Proof.
  intros Hs. revert r Hs. induction n as [|n IH]; intros r Hs H0 Hn; [done|]. cbn.
  unfold apply_strategy. rewrite Hs. f_equal; [by rewrite Z.add_0_r|].
  assert (wrapping 64 (next_index r + 1) = next_index r + 1) as Hw.
  { apply Z.mod_small. unfold u64_MAX in Hn. lia. }
  rewrite IH, Hw; cbn; [|done|rewrite Hw; lia|rewrite Hw; lia].
  rewrite <- fmap_S_seq, <- list_fmap_compose. apply list_fmap_ext. intros _ k _; cbn.
  do 2 f_equal. f_equal. lia.
Qed.

Definition priced (providers : list (RoutableProvider M)) (i : nat) : Prop :=
  exists p, providers !! i = Some p /\ cost_per_1k_input (metadata p) <> S754_nan.
Definition cheaper (providers : list (RoutableProvider M)) (a b : nat) : Prop :=
  exists p q, providers !! a = Some p /\ providers !! b = Some q /\
    SFcompare (cost_per_1k_input (metadata p)) (cost_per_1k_input (metadata q)) = Some Lt.

Lemma cheaper_lex providers a b p q :
  priced providers a -> priced providers b -> providers !! a = Some p -> providers !! b = Some q ->
  cheaper providers a b <->
  lex_lt (f64_key (cost_per_1k_input (metadata p))) (f64_key (cost_per_1k_input (metadata q))).
Proof.
  intros (? & ? & Hp) (? & ? & Hq) ? ?. simplify_eq. unfold cheaper.
  rewrite <- (proj1 (SFcompare_lex _ _ Hp Hq)). naive_solver.
Qed.

Lemma min_by_cheapest providers cands i :
  Forall (priced providers) cands -> min_by (cost_cmp providers) cands = Some i ->
  forall j, j ∈ cands -> ~ cheaper providers j i.
Proof.
  intros HF Hi. refine (min_by_least _ (priced providers) _ _ _ _ _ _ HF Hi).
  - intros a b Ha Hb. pose proof Ha as (p & Hp & Hpn). pose proof Hb as (q & Hq & Hqn).
    rewrite (cheaper_lex _ _ _ _ _ Hb Ha Hq Hp), <- (proj2 (SFcompare_lex _ _ Hpn Hqn)).
    unfold cost_cmp. rewrite Hp, Hq; cbn. by destruct (SFcompare _ _) as [[]|].
  - intros a b c Ha Hb Hc. pose proof Ha as (p & Hp & _). pose proof Hb as (q & Hq & _).
    pose proof Hc as (o & Ho & _).
    rewrite (cheaper_lex _ _ _ _ _ Hb Ha Hq Hp), (cheaper_lex _ _ _ _ _ Hc Hb Ho Hq),
      (cheaper_lex _ _ _ _ _ Hc Ha Ho Hp). unfold lex_lt. lia.
  - intros a b Ha Hb. pose proof Ha as (p & Hp & _). pose proof Hb as (q & Hq & _).
    rewrite (cheaper_lex _ _ _ _ _ Ha Hb Hp Hq), (cheaper_lex _ _ _ _ _ Hb Ha Hq Hp).
    unfold lex_lt. lia.
Qed.

Lemma round_robin_rotation r providers cands :
  cands <> [] -> strategy r = RoundRobin -> 0 <= next_index r ->
  next_index r + zlen cands <= u64_MAX ->
  choices r providers cands (length cands) =
  Some <$> rotate (Z.to_nat (next_index r mod zlen cands)) cands.
Proof.
  intros Hne Hs H0 Hn. unfold zlen in Hn. rewrite choices_round_robin by (done || lia).
  apply list_eq. intros k. rewrite !list_lookup_fmap.
  assert (0 < length cands)%nat by (destruct cands; [done | cbn; lia]).
  pose proof (Z.mod_pos_bound (next_index r) (zlen cands) ltac:(unfold zlen; lia)) as Hb.
  destruct (decide (k < length cands)%nat) as [Hk|Hk].
  - rewrite lookup_seq_lt, lookup_rotate_r by done; cbn.
    assert (Z.to_nat ((next_index r + Z.of_nat k) mod zlen cands) =
      rotate_nat_add (Z.to_nat (next_index r mod zlen cands)) k (length cands)) as ->.
    { unfold rotate_nat_add. rewrite Z2Nat.id by lia. fold (zlen cands).
      by rewrite Zplus_mod_idemp_l. }
    destruct (lookup_lt_is_Some_2 cands (rotate_nat_add
      (Z.to_nat (next_index r mod zlen cands)) k (length cands))) as [x ->]; [|done].
    apply rotate_nat_add_lt. lia.
  - rewrite lookup_seq_ge, lookup_ge_None_2; [done| |lia]. rewrite length_rotate. lia.
Qed.

(** Among the candidates, the least-loaded strategy picks one with the most
    free permits; the cost strategy picks one no other candidate undercuts when
    no price is NaN; and as many successive round-robin picks as there are
    candidates visit them all once, as a rotation of their list. *)
Theorem strategy_choice r seed providers cands :
  cands <> [] ->
  (strategy r = LeastLoaded -> exists i, (apply_strategy r seed providers cands).2 = Some i /\
    i ∈ cands /\ forall j, j ∈ cands -> permits_of providers j <= permits_of providers i) /\
  (strategy r = CostOptimized -> Forall (priced providers) cands ->
    exists i, (apply_strategy r seed providers cands).2 = Some i /\ i ∈ cands /\
      forall j, j ∈ cands -> ~ cheaper providers j i) /\
  (strategy r = RoundRobin -> 0 <= next_index r -> next_index r + zlen cands <= u64_MAX ->
    choices r providers cands (length cands) =
    Some <$> rotate (Z.to_nat (next_index r mod zlen cands)) cands).
Proof.
  intros Hne. split_and!.
  - intros Hs. unfold apply_strategy. rewrite Hs; cbn.
    destruct (max_by_key_Some (permits_of providers) cands Hne) as (i & ? & ? & ?). eauto.
  - intros Hs HF. unfold apply_strategy. rewrite Hs; cbn.
    destruct (min_by_Some (cost_cmp providers) cands Hne) as (i & Hi & Hin). exists i.
    eauto using min_by_cheapest.
  - intros. by apply round_robin_rotation.
Qed.

End routing.

(** ** Instances of the interface: the concrete freeze manager *)
From S2P Require Import Freeze.

Section concrete.
Definition provider_of (name mdl : string) (tags : list string) (cost : f64) (permits : Z)
    (m : FreezeManager) : RoutableProvider FreezeManager :=
  mkProvider (mkMetadata name OpenAi mdl tags [Text] 10 8192 cost cost Native) m permits 10.
Definition sample_pool : list (RoutableProvider FreezeManager) :=
  [provider_of "a" "small" ["chat"] (S754_finite false 3 0) 9 (freeze_permanent (new 30 600) "401" 0);
   provider_of "b" "small" ["chat"] (S754_finite false 5 0) 2 (new 30 600);
   provider_of "c" "big" ["chat"; "reasoning"] (S754_finite false 7 0) 4 (new 30 600);
   provider_of "d" "big" ["chat"] (S754_finite false 1 1) 9 (new 30 600)].
Definition sample_route : RouteRequest := mkRoute ["chat"] ["reasoning"] None (Some "big") Provider.Normal.
End concrete.

(** Two of ten permits are free: what is kept for critical requests goes to an idle one. *)
Example idle_takes_reserve :
  let pool := [provider_of "b" "small" ["chat"] (S754_finite false 5 0) 2 (new 30 600)] in
  let route := mkRoute ["chat"] [] None None in
  (select (mkRouter 0 Router.Priority) (fun _ => (5, 6)) 0 pool (route Provider.Idle)).2 = Some (Ok 0%nat)
  /\ (select (mkRouter 0 Router.Priority) (fun _ => (5, 6)) 0 pool (route Provider.Normal)).2 = Some (Err (NoProviderAvailable ["chat"])).
Proof. split; vm_compute; reflexivity. Qed.

Lemma select_spec_witness :
  (select (mkRouter 0 LeastLoaded) (fun _ => (5, 6)) 0 sample_pool sample_route).2 = Some (Ok 2%nat)
  /\ narrowed (fun _ => (5, 6)) sample_pool sample_route 2.
Proof.
  assert (Hok : pool_ok (fun _ => (5, 6)) sample_pool).
  { split; [|done]. repeat constructor; done. }
  pose proof (select_spec (mkRouter 0 LeastLoaded) (fun _ => (5, 6)) 0 sample_pool sample_route
    Hok) as H. cbn [preferred_provider_id sample_route] in H.
  assert (E : (select (mkRouter 0 LeastLoaded) (fun _ => (5, 6)) 0 sample_pool sample_route).2
    = Some (Ok 2%nat)) by (vm_compute; reflexivity).
  split; [exact E|]. rewrite E in H. exact (proj1 H).
Defined.

Lemma strategy_choice_witness :
  choices (mkRouter 7 RoundRobin) sample_pool [1%nat; 2%nat; 3%nat] 3
    = Some <$> [2%nat; 3%nat; 1%nat] /\
  exists i, (apply_strategy (mkRouter 0 CostOptimized) 0 sample_pool [1%nat; 2%nat; 3%nat]).2 = Some i
    /\ forall j, j ∈ [1%nat; 2%nat; 3%nat] -> ~ cheaper sample_pool j i.
Proof.
  assert (Hne : [1%nat; 2%nat; 3%nat] <> []) by done.
  destruct (strategy_choice (mkRouter 7 RoundRobin) 0 sample_pool _ Hne) as (_ & _ & H).
  destruct (strategy_choice (mkRouter 0 CostOptimized) 0 sample_pool _ Hne) as (_ & H2 & _).
  split.
  - exact (H eq_refl ltac:(cbn; lia) ltac:(vm_compute; congruence)).
  - destruct (H2 eq_refl) as (i & Hi & _ & Hc); [|by exists i].
    repeat constructor; eexists; (split; [reflexivity|done]).
Defined.
