(* ===== verification/ToolCalls.v ===== *)
(** * Accumulating streamed tool calls

    Models [crates/hf-provider/src/tool_call_accumulator.rs].  The JSON value
    type and its parser belong to [serde_json] and are parameters. *)
From S2P Require Import Prelude.

Record Entry := mkEntry { id : string; name : string; arguments : string }.
Definition default_entry : Entry := mkEntry "" "" "".

Definition MAX_TOOL_CALLS : Z := 1024.

Record ToolCallAccumulatorSet := mkSet {
  entries : list Entry;
  current_indexless : option Z;
}.
Definition empty_set : ToolCallAccumulatorSet := mkSet [] None.

(** One streamed delta: [index], [id], [name], [args]. *)
Record Delta := mkDelta {
  d_index : option Z;
  d_id : option string;
  d_name : option string;
  d_args : option string;
}.

(** [.filter(|value| !value.is_empty())]. *)
Definition non_empty (o : option string) : option string :=
  s ← o; if String.eqb s "" then None else Some s.

(** The slot a delta selects, [None] when it selects none. *)
Definition resolve_index (s : ToolCallAccumulatorSet) (index : option Z)
    (id' name' : option string) : option Z :=
  match index with
  | Some i => Some i
  | None =>
      match id' with
      | Some i => Some (from_option Z.of_nat (zlen (entries s))
                    (position (fun e => String.eqb (id e) i) (entries s)))
      | None =>
          match name' with
          | Some _ => Some (zlen (entries s))
          | None => current_indexless s
          end
      end
  end.

(** [while entries.len() <= index { entries.push(default) }]. *)
Definition grow (index : Z) (l : list Entry) : list Entry :=
  l ++ replicate (Z.to_nat (index + 1 - zlen l)) default_entry.

(** What a delta writes into the entry it selects. *)
Definition update_entry (id' name' args : option string) (e : Entry) : Entry :=
  mkEntry (default (id e) id') (default (name e) name')
    (arguments e +:+ default "" args).

Definition process_delta (s : ToolCallAccumulatorSet) (d : Delta) : ToolCallAccumulatorSet :=
  let id' := non_empty (d_id d) in
  let name' := non_empty (d_name d) in
  match resolve_index s (d_index d) id' name' with
  | None => s
  | Some index =>
      if MAX_TOOL_CALLS <=? index then mkSet (entries s) None
      else mkSet (alter (update_entry id' name' (d_args d)) (Z.to_nat index)
                    (grow index (entries s)))
             (Some index)
  end.

Definition process (ds : list Delta) : ToolCallAccumulatorSet :=
  fold_left process_delta ds empty_set.

Section drain.
Context {Json : Type} (from_str : string -> option Json) (json_string : string -> Json).

Record ToolCallRequest := mkRequest {
  provider_metadata : option Json;
  req_id : string;
  req_name : string;
  req_arguments : Json;
}.

Definition request_of (e : Entry) : ToolCallRequest :=
  mkRequest None (id e) (name e) (default (json_string (arguments e)) (from_str (arguments e))).

Definition drain_completed (s : ToolCallAccumulatorSet)
    : ToolCallAccumulatorSet * list ToolCallRequest :=
  (mkSet [] None,
   request_of <$> filter (fun e => String.eqb (id e) "" = false /\ String.eqb (name e) "" = false)
     (entries s)).
End drain.
Arguments ToolCallRequest : clear implicits.

(** ** Lemmas *)
Definition bounded (s : ToolCallAccumulatorSet) : Prop :=
  zlen (entries s) <= MAX_TOOL_CALLS /\
  match current_indexless s with Some i => 0 <= i < zlen (entries s) | None => True end.

(** A [usize] index, when there is one. *)
Definition indexed_ok (d : Delta) : Prop :=
  match d_index d with Some i => 0 <= i | None => True end.

Lemma zlen_grow i l : 0 <= i -> zlen (grow i l) = Z.max (zlen l) (i + 1).
Proof.
  intros. unfold grow. rewrite zlen_app. unfold zlen at 2. rewrite length_replicate.
  pose proof (zlen_nonneg l). lia.
Qed.

Lemma resolve_index_nonneg s d i :
  bounded s -> indexed_ok d ->
  resolve_index s (d_index d) (non_empty (d_id d)) (non_empty (d_name d)) = Some i -> 0 <= i.
Proof.
  intros [_ Hb] Hd. unfold resolve_index, indexed_ok in *.
  destruct (d_index d); [naive_solver|]. pose proof (zlen_nonneg (entries s)).
  destruct (non_empty (d_id d)).
  - intros [= <-]. destruct (position _ _); cbn; lia.
  - destruct (non_empty (d_name d)); [naive_solver|]. intros E; rewrite E in Hb; lia.
Qed.

Lemma process_delta_bounded s d : bounded s -> indexed_ok d -> bounded (process_delta s d).
Proof.
  intros Hb Hd. unfold process_delta.
  destruct (resolve_index _ _ _ _) as [i|] eqn:E; [|done].
  pose proof (resolve_index_nonneg _ _ _ Hb Hd E). destruct Hb as [Hl _].
  destruct (MAX_TOOL_CALLS <=? i) eqn:Ei; [by split|].
  unfold bounded; cbn. unfold zlen. rewrite length_alter. fold (zlen (grow i (entries s))).
  rewrite zlen_grow by lia. lia.
Qed.

Lemma process_bounded ds : Forall indexed_ok ds -> bounded (process ds).
Proof.
  unfold process. assert (H0 : bounded empty_set) by done. revert H0.
  generalize empty_set. intros s Hs Hds. revert s Hs.
  induction Hds as [|d ds Hd _ IH]; intros s Hs; [done|]. by apply IH, process_delta_bounded.
Qed.

Lemma lookup_grow i l k :
  0 <= i -> default default_entry (grow i l !! k) = default default_entry (l !! k).
Proof.
  intros Hi. unfold grow. destruct (decide (k < length l)%nat).
  - by rewrite lookup_app_l.
  - rewrite lookup_app_r, (lookup_ge_None_2 l) by lia.
    destruct (replicate _ _ !! _) eqn:E; [|done]. by apply lookup_replicate in E as [-> _].
Qed.

(** The entry a list of deltas of one call stands for: the last identifier and
    name given, and all argument fragments in order. *)
Definition gather (i0 : string) (ds : list Delta) : Entry :=
  mkEntry (default i0 (list.last (omap (non_empty ∘ d_id) ds)))
    (default "" (list.last (omap (non_empty ∘ d_name) ds)))
    (String.concat "" (default "" ∘ d_args <$> ds)).

Lemma gather_snoc i0 ds d :
  gather i0 (ds ++ [d])
  = update_entry (non_empty (d_id d)) (non_empty (d_name d)) (d_args d) (gather i0 ds).
Proof.
  unfold gather, update_entry; cbn. rewrite !default_last_snoc, fmap_app; cbn.
  by rewrite concat_snoc.
Qed.

Definition slot (ds : list Delta) (k : nat) : Entry :=
  gather "" (filter (fun d => d_index d = Some (Z.of_nat k)) ds).

Definition complete (e : Entry) : Prop := String.eqb (id e) "" = false /\ String.eqb (name e) "" = false.
#[export] Instance complete_dec e : Decision (complete e).
Proof. unfold complete. apply _. Defined.

Definition indexed (d : Delta) : Prop := exists i, d_index d = Some i /\ 0 <= i.

Lemma process_slots ds k :
  Forall indexed ds -> Z.of_nat k < MAX_TOOL_CALLS ->
  default default_entry (entries (process ds) !! k) = slot ds k.
Proof.
  intros Hds Hk. unfold process, slot. induction ds as [|d ds IH] using rev_ind; [done|].
  apply Forall_app in Hds as [Hds [(i & Hi & Hr) _]%Forall_cons_iff].
  rewrite fold_left_app, list.filter_app. specialize (IH Hds).
  set (s := fold_left process_delta ds empty_set) in *. cbn [fold_left]. unfold process_delta.
  rewrite Hi; cbn [resolve_index].
  destruct (Z.leb_spec MAX_TOOL_CALLS i); cbn [entries];
    [rewrite filter_cons_False, filter_nil, app_nil_r by (rewrite Hi; intros [= ->]; lia); done|].
  destruct (decide (k = Z.to_nat i)) as [->|Hne].
  - rewrite filter_cons_True by (rewrite Hi; f_equal; lia).
    rewrite filter_nil, gather_snoc, <- IH, list_lookup_alter_eq; cbn.
    pose proof (lookup_grow i (entries s) (Z.to_nat i) ltac:(lia)) as Hg.
    destruct (lookup_lt_is_Some_2 (grow i (entries s)) (Z.to_nat i)) as [e He].
    { pose proof (zlen_grow i (entries s) ltac:(lia)). unfold zlen in *. lia. }
    rewrite He in Hg |- *; cbn in *. by rewrite Hg.
  - rewrite filter_cons_False by (rewrite Hi; intros [= ->]; lia).
    rewrite filter_nil, app_nil_r, list_lookup_alter_ne, lookup_grow by lia. done.
Qed.

(** A list and its default-padded reading agree on complete entries. *)
Lemma filter_complete_padded l n :
  (length l <= n)%nat ->
  filter complete ((fun k => default default_entry (l !! k)) <$> seq 0 n) = filter complete l.
Proof.
  revert n. induction l as [|e l IH]; intros n Hn; cbn.
  - clear Hn. generalize 0%nat. induction n as [|n IH]; intros k; cbn; [done|].
    rewrite decide_False by (by intros [? _]). apply IH.
  - destruct n as [|n]; cbn in Hn; [lia|]. cbn [seq].
    rewrite fmap_cons, <- fmap_S_seq, <- list_fmap_compose.
    assert (Hs : (fun k => default default_entry ((e :: l) !! k)) ∘ S
                 = fun k => default default_entry (l !! k)) by done.
    rewrite Hs, !filter_cons, (IH n) by lia. done.
Qed.

(** ** Index-less streams *)
(** The deltas with the call they belong to, and the call in progress. *)
Definition own_step (st : list (string * Delta) * option string) (d : Delta) :=
  let cur := match non_empty (d_id d) with Some i => Some i | None => st.2 end in
  (match cur with Some i => st.1 ++ [(i, d)] | None => st.1 end, cur).
Definition own (ds : list Delta) := fold_left own_step ds ([], None).

Definition first_seen (l : list string) : list string :=
  fold_left (fun acc x => if decide (x ∈ acc) then acc else acc ++ [x]) l [].
Definition call_of (a : list (string * Delta)) (i : string) : Entry :=
  gather i (filter (fun p => p.1 = i) a).*2.

Definition indexless (d : Delta) : Prop :=
  d_index d = None /\ (non_empty (d_id d) = None -> non_empty (d_name d) = None).

Lemma first_seen_snoc l x :
  first_seen (l ++ [x]) = if decide (x ∈ first_seen l) then first_seen l else first_seen l ++ [x].
Proof. unfold first_seen. by rewrite fold_left_app. Qed.
Lemma first_seen_NoDup l : NoDup (first_seen l).
Proof.
  induction l as [|x l IH] using rev_ind; [apply NoDup_nil_2|]. rewrite first_seen_snoc.
  case_decide; [done|]. apply list.NoDup_app. split_and!; [done| |apply NoDup_singleton]. set_solver.
Qed.
Lemma elem_of_first_seen l x : x ∈ first_seen l <-> x ∈ l.
Proof.
  induction l as [|y l IH] using rev_ind; [done|]. rewrite first_seen_snoc.
  case_decide; set_solver.
Qed.

Lemma position_key {A} (key : A -> string) l i k :
  NoDup (key <$> l) -> (key <$> l) !! k = Some i ->
  position (fun e => String.eqb (key e) i) l = Some k.
Proof.
  revert k. induction l as [|x l IH]; intros k Hnd Hk; [done|].
  apply list.NoDup_cons in Hnd as [Hx Hnd]. cbn in *. destruct k as [|k]; cbn in Hk.
  - injection Hk as ->. by rewrite String.eqb_refl.
  - destruct (String.eqb_spec (key x) i) as [<-|_].
    + destruct Hx. by eapply list_elem_of_lookup_2.
    + by rewrite (IH k).
Qed.
Lemma position_key_None {A} (key : A -> string) l i :
  i ∉ (key <$> l) -> position (fun e => String.eqb (key e) i) l = None.
Proof.
  induction l as [|x l IH]; cbn; [done|]. intros [Hx Hl]%not_elem_of_cons.
  rewrite (IH Hl). by destruct (String.eqb_spec (key x) i).
Qed.

Lemma call_of_snoc a i d j :
  call_of (a ++ [(i, d)]) j
  = if decide (i = j) then update_entry (non_empty (d_id d)) (non_empty (d_name d)) (d_args d)
      (call_of a j) else call_of a j.
Proof.
  unfold call_of. rewrite list.filter_app, filter_cons, filter_nil. cbn [fst].
  case_decide; [|by rewrite app_nil_r]. rewrite fmap_app. apply gather_snoc.
Qed.
Lemma call_of_fresh a i : i ∉ a.*1 -> call_of a i = mkEntry i "" "".
Proof.
  intros Hi. unfold call_of. enough (filter (fun p => p.1 = i) a = []) as -> by done.
  induction a as [|[j d] a IH]; [done|]. rewrite fmap_cons in Hi. cbn in Hi.
  apply not_elem_of_cons in Hi as [Hj Hi]. rewrite filter_cons_False by (cbn; congruence).
  by apply IH.
Qed.

Lemma non_empty_Some o s : non_empty o = Some s -> s <> "".
Proof. destruct o as [x|]; cbn; [|done]. destruct (String.eqb_spec x ""); naive_solver. Qed.

Lemma grow_in l k : (k < length l)%nat -> grow (Z.of_nat k) l = l.
Proof.
  intros. unfold grow, zlen. replace (Z.to_nat _) with 0%nat by lia. by rewrite app_nil_r.
Qed.
Lemma alter_end (f : Entry -> Entry) l x : alter f (length l) (l ++ [x]) = l ++ [f x].
Proof. induction l as [|y l IH]; [done|]. cbn. by f_equal. Qed.
Lemma grow_end l : grow (zlen l) l = l ++ [default_entry].
Proof. unfold grow. by replace (Z.to_nat _) with 1%nat by lia. Qed.

(** What the accumulator holds, in terms of the attributed deltas. *)
Definition tracks (s : ToolCallAccumulatorSet) (st : list (string * Delta) * option string) : Prop :=
  entries s = call_of st.1 <$> first_seen st.1.*1 /\
  (forall j, id (call_of st.1 j) = j) /\
  match st.2 with
  | Some i => exists k, first_seen st.1.*1 !! k = Some i /\ current_indexless s = Some (Z.of_nat k)
  | None => current_indexless s = None
  end.

Lemma tracks_ids s st : tracks s st -> id <$> entries s = first_seen st.1.*1.
Proof.
  intros (-> & Hid & _). rewrite <- list_fmap_compose. rewrite <- (list_fmap_id (first_seen _)) at 2.
  apply list_fmap_ext. intros ? j _. apply Hid.
Qed.

(** A delta of a call already seen. *)
Lemma tracks_known s a cur i d k :
  tracks s (a, cur) -> first_seen a.*1 !! k = Some i ->
  (non_empty (d_id d) = None \/ non_empty (d_id d) = Some i) ->
  tracks (mkSet (alter (update_entry (non_empty (d_id d)) (non_empty (d_name d)) (d_args d)) k
            (grow (Z.of_nat k) (entries s))) (Some (Z.of_nat k)))
    (a ++ [(i, d)], Some i).
Proof.
  intros (He & Hid & _) Hk Hd. cbn [fst snd] in *; unfold tracks; cbn [fst snd entries current_indexless].
  assert (HF : first_seen (a ++ [(i, d)]).*1 = first_seen a.*1).
  { rewrite fmap_app; cbn. rewrite first_seen_snoc, decide_True; [done|].
    by eapply list_elem_of_lookup_2. }
  rewrite HF, He. cbn [fst]. rewrite grow_in
    by (rewrite length_fmap; by eapply lookup_lt_Some). split_and!.
  - apply list_eq. intros n. rewrite list_lookup_fmap. destruct (decide (n = k)) as [->|Hn].
    + rewrite list_lookup_alter_eq, list_lookup_fmap, Hk; cbn. by rewrite call_of_snoc, decide_True.
    + rewrite list_lookup_alter_ne, list_lookup_fmap by done.
      destruct (first_seen a.*1 !! n) as [j|] eqn:Hj; [|done]; cbn. f_equal.
      rewrite call_of_snoc, decide_False; [done|]. intros <-.
      by apply Hn, (NoDup_lookup (first_seen a.*1) n k i (first_seen_NoDup _)).
  - intros j. rewrite call_of_snoc. case_decide as Hj; [|apply Hid]. subst j.
    cbn [update_entry id]. rewrite Hid. by destruct Hd as [-> | ->].
  - by exists k.
Qed.

(** The first delta of a call. *)
Lemma tracks_new s a cur i d :
  tracks s (a, cur) -> i ∉ a.*1 -> non_empty (d_id d) = Some i ->
  tracks (mkSet (alter (update_entry (non_empty (d_id d)) (non_empty (d_name d)) (d_args d))
            (length (entries s)) (grow (zlen (entries s)) (entries s))) (Some (zlen (entries s))))
    (a ++ [(i, d)], Some i).
Proof.
  intros (He & Hid & _) Hi Hd. cbn [fst snd] in *; unfold tracks; cbn [fst snd entries current_indexless].
  assert (HF : first_seen (a ++ [(i, d)]).*1 = first_seen a.*1 ++ [i]).
  { rewrite fmap_app; cbn. rewrite first_seen_snoc, decide_False; [done|].
    by rewrite elem_of_first_seen. }
  rewrite HF. split_and!.
  - rewrite grow_end, alter_end, fmap_app. cbn. f_equal.
    + rewrite He. apply list_fmap_ext. intros n j Hj%list_elem_of_lookup_2.
      rewrite call_of_snoc, decide_False; [done|]. intros <-. by apply Hi, elem_of_first_seen.
    + rewrite call_of_snoc, decide_True, call_of_fresh, Hd by done. done.
  - intros j. rewrite call_of_snoc. case_decide as Hj; [|apply Hid]. subst j. cbn. by rewrite Hd.
  - exists (length (first_seen a.*1)). rewrite lookup_app_r, Nat.sub_diag by done.
    split; [done|]. unfold zlen; by rewrite He, length_fmap.
Qed.

Lemma own_snoc ds d : own (ds ++ [d]) = own_step (own ds) d.
Proof. unfold own. by rewrite fold_left_app. Qed.

Lemma first_seen_prefix l k : (length (first_seen l) <= length (first_seen (l ++ k)))%nat.
Proof.
  induction k as [|x k IH] using rev_ind; [by rewrite app_nil_r|].
  rewrite app_assoc, first_seen_snoc. case_decide; [done|]. rewrite length_app; cbn; lia.
Qed.

Lemma tracks_step s st d :
  tracks s st -> indexless d ->
  zlen (first_seen (own_step st d).1.*1) <= MAX_TOOL_CALLS ->
  tracks (process_delta s d) (own_step st d).
Proof.
  destruct st as [a cur]. intros Ht [Hix Hn] Hmax. pose proof (tracks_ids _ _ Ht) as Hids.
  pose proof Ht as (_ & _ & Hcur). cbn [fst snd] in *.
  assert (Hlen : zlen (entries s) = zlen (first_seen a.*1)).
  { unfold zlen. by rewrite <- Hids, length_fmap. }
  unfold process_delta, own_step in *. rewrite Hix. cbn [resolve_index fst snd] in *.
  destruct (non_empty (d_id d)) as [i|] eqn:Hd; cbn [fst snd] in *.
  - destruct (decide (i ∈ a.*1)) as [Hi|Hi].
    + apply elem_of_first_seen, list_elem_of_lookup_1 in Hi as [k Hk].
      rewrite (position_key id _ i k) by (rewrite Hids; auto using first_seen_NoDup). cbn.
      apply lookup_lt_Some in Hk as Hlt.
      rewrite (proj2 (Z.leb_gt _ _)).
      2:{ pose proof (first_seen_prefix a.*1 [i]). rewrite fmap_app in Hmax.
          cbn in Hmax. unfold zlen in *. lia. }
      rewrite Nat2Z.id. pose proof (tracks_known s a cur i d k Ht Hk (or_intror Hd)) as HK.
      by rewrite Hd in HK.
    + rewrite position_key_None by (by rewrite Hids, elem_of_first_seen).
      cbn. rewrite fmap_app in Hmax; cbn in Hmax.
      rewrite first_seen_snoc, decide_False in Hmax by (by rewrite elem_of_first_seen).
      zlen_norm. rewrite (proj2 (Z.leb_gt _ _)) by lia. unfold zlen at 1. rewrite Nat2Z.id.
      pose proof (tracks_new s a cur i d Ht Hi Hd) as HK. by rewrite Hd in HK.
  - rewrite (Hn eq_refl). destruct cur as [i|]; [|by rewrite Hcur].
    destruct Hcur as (k & Hk & ->). apply lookup_lt_Some in Hk as Hlt.
    rewrite (proj2 (Z.leb_gt _ _)).
    2:{ pose proof (first_seen_prefix a.*1 [i]). rewrite fmap_app in Hmax.
        cbn in Hmax. unfold zlen in *. lia. }
    rewrite Nat2Z.id. pose proof (tracks_known s a _ i d k Ht Hk (or_introl Hd)) as HK.
    by rewrite Hd, (Hn eq_refl) in HK.
Qed.

Lemma process_tracks ds :
  Forall indexless ds -> zlen (first_seen (own ds).1.*1) <= MAX_TOOL_CALLS ->
  tracks (process ds) (own ds).
Proof.
  induction ds as [|d ds IH] using rev_ind; intros Hds Hmax.
  - unfold tracks; split_and!; done.
  - apply Forall_app in Hds as [Hds [Hd _]%Forall_cons_iff].
    unfold process in *. rewrite fold_left_app, own_snoc in *. apply tracks_step; [|done..].
    apply IH; [done|]. etrans; [|exact Hmax]. unfold own_step, zlen.
    pose proof (first_seen_prefix (own ds).1.*1). 
    destruct (match non_empty (d_id d) with Some _ => _ | None => _ end); cbn [fst]; [|done].
    rewrite fmap_app. apply Nat2Z.inj_le, first_seen_prefix.
Qed.

(** ** Properties *)
(** However the deltas of indexed calls interleave, each complete call comes
    out once, in index order, with the last identifier and name it was given and
    its own argument fragments in order; deltas past the cap of 1024 slots
    neither grow the set nor disturb any call; draining leaves the set empty. *)
Theorem indexed_calls {Json} (from_str : string -> option Json) (json_string : string -> Json) ds :
  Forall indexed ds ->
  zlen (entries (process ds)) <= MAX_TOOL_CALLS /\
  drain_completed from_str json_string (process ds)
  = (empty_set, request_of from_str json_string <$>
       filter complete (slot ds <$> seq 0 (Z.to_nat MAX_TOOL_CALLS))).
Proof.
  intros Hds. assert (Hb : bounded (process ds)).
  { apply process_bounded. eapply Forall_impl; [|exact Hds]. unfold indexed_ok.
    by intros d (i & -> & ?). }
  destruct Hb as [Hlen _]. split; [done|]. unfold drain_completed. f_equal. f_equal.
  change (filter complete (entries (process ds))
          = filter complete (slot ds <$> seq 0 (Z.to_nat MAX_TOOL_CALLS))).
  rewrite <- (filter_complete_padded (entries (process ds)) (Z.to_nat MAX_TOOL_CALLS))
    by (unfold zlen in Hlen; lia).
  f_equal. apply list_fmap_ext. intros k k' [-> Hk]%lookup_seq. apply process_slots; [done|lia].
Qed.

(** In a stream without indices, where an identifier opens or resumes a call
    and anonymous fragments continue the latest one, up to 1024 calls come out
    once each, in order of first appearance, with exactly the fragments that
    belong to them. *)
Theorem indexless_calls {Json} (from_str : string -> option Json) (json_string : string -> Json) ds :
  Forall indexless ds -> zlen (first_seen (own ds).1.*1) <= MAX_TOOL_CALLS ->
  drain_completed from_str json_string (process ds)
  = (empty_set, request_of from_str json_string <$>
       filter complete (call_of (own ds).1 <$> first_seen (own ds).1.*1)).
Proof.
  intros Hds Hmax. destruct (process_tracks ds Hds Hmax) as [He _].
  unfold drain_completed. by rewrite He.
Qed.

(** Two interleaved calls and a delta past the cap. *)
Definition demo_indexed : list Delta :=
  [mkDelta (Some 0) (Some "a") (Some "f") (Some "{"); mkDelta (Some 1) (Some "b") (Some "g") None;
   mkDelta (Some 0) None (Some "") (Some "}"); mkDelta (Some 4000000000) None None (Some "!");
   mkDelta (Some 1) None None (Some "[]")].
Lemma indexed_calls_witness :
  drain_completed (fun s => Some s) (fun s => s) (process demo_indexed)
  = (empty_set, [mkRequest None "a" "f" "{}"; mkRequest None "b" "g" "[]"]).
Proof.
  rewrite (proj2 (indexed_calls (fun s => Some s) (fun s => s) demo_indexed
    ltac:(repeat constructor; eexists; (split; [reflexivity | done])))).
  vm_compute; reflexivity.
Defined.

Definition demo_indexless : list Delta :=
  [mkDelta None (Some "a") (Some "f") (Some "{"); mkDelta None (Some "b") (Some "g") (Some "[");
   mkDelta None None None (Some "]"); mkDelta None (Some "a") None (Some "}")].
Lemma indexless_calls_witness :
  drain_completed (fun s => Some s) (fun s => s) (process demo_indexless)
  = (empty_set, [mkRequest None "a" "f" "{}"; mkRequest None "b" "g" "[]"]).
Proof.
  rewrite (indexless_calls (fun s => Some s) (fun s => s) demo_indexless
    ltac:(repeat constructor; discriminate) ltac:(vm_compute; discriminate)).
  vm_compute; reflexivity.
Defined.
