(* ===== verification/ErrorClassifier.v ===== *)
(** * Classifying provider failures

    Models [crates/hf-provider/src/error_classifier.rs].  Strings are UTF-8
    bytes.  [to_lowercase] lowers ASCII letters and the two other characters
    whose lower case contains an ASCII letter (the Kelvin sign and the dotted
    capital I); every other character lowers to non-ASCII text, which none of
    the ASCII patterns the module looks for can match, so it is left as it is.
    Durations are seconds. *)
From S2P Require Import Prelude Provider.

Inductive StandardError :=
| ContextWindowExceeded
| RateLimited (retry_after : option Z)
| QuotaExhausted
| AuthenticationFailed
| KeyInvalid
| InsufficientBalance
| ModelNotFound
| ServerError
| NetworkError
| ContentFiltered
| ResponseBodyLimitExceeded
| ResponseStreamLimitExceeded
| ModelBudgetDenied
| Unknown.

Definition freeze_duration (e : StandardError) : option Z :=
  match e with
  | RateLimited retry_after => Some (default 60 retry_after)
  | ServerError => Some (5 * 60)
  | NetworkError => Some 30
  | ModelNotFound => Some 3600
  | AuthenticationFailed => Some (24 * 3600)
  | Unknown => Some 60
  | ModelBudgetDenied | ContextWindowExceeded | ResponseBodyLimitExceeded
  | ResponseStreamLimitExceeded | ContentFiltered | KeyInvalid | QuotaExhausted
  | InsufficientBalance => None
  end.

Definition is_permanent (e : StandardError) : bool :=
  match e with KeyInvalid | QuotaExhausted | InsufficientBalance => true | _ => false end.
Definition is_transient (e : StandardError) : bool :=
  match e with RateLimited _ | ServerError | NetworkError | Unknown => true | _ => false end.
Definition should_freeze (e : StandardError) : bool :=
  match e with
  | ModelBudgetDenied | ContextWindowExceeded | ContentFiltered | ResponseBodyLimitExceeded
  | ResponseStreamLimitExceeded => false
  | _ => true
  end.

(** ** [str] operations *)
Definition lower_char (c : Ascii.ascii) : Ascii.ascii :=
  let n := Ascii.N_of_ascii c in
  if ((65 <=? n) && (n <=? 90))%N then Ascii.ascii_of_N (n + 32) else c.
Definition byte_is (c : Ascii.ascii) (n : N) : bool := (Ascii.N_of_ascii c =? n)%N.

Fixpoint to_lowercase (s : string) : string :=
  match s with
  | EmptyString => EmptyString
  | String c s' =>
      if byte_is c 226 then
        match s' with
        | String c1 (String c2 r) =>
            if byte_is c1 132 && byte_is c2 170 then String (Ascii.ascii_of_N 107) (to_lowercase r)
            else String c (to_lowercase s')
        | _ => String c (to_lowercase s')
        end
      else if byte_is c 196 then
        match s' with
        | String c1 r =>
            if byte_is c1 176 then
              String (Ascii.ascii_of_N 105) (String (Ascii.ascii_of_N 204)
                (String (Ascii.ascii_of_N 135) (to_lowercase r)))
            else String c (to_lowercase s')
        | EmptyString => String c EmptyString
        end
      else String (lower_char c) (to_lowercase s')
  end.

Fixpoint contains (s p : string) : bool :=
  String.prefix p s || match s with EmptyString => false | String _ s' => contains s' p end.

Definition strip_prefix (p s : string) : option string :=
  if String.prefix p s then Some (String.substring (String.length p) (String.length s) s) else None.

Definition is_ascii_digit (c : Ascii.ascii) : bool :=
  let n := Ascii.N_of_ascii c in ((48 <=? n) && (n <=? 57))%N.
(** [&rest[..digit_len]]. *)
Fixpoint leading_digits (s : string) : string :=
  match s with
  | String c s' => if is_ascii_digit c then String c (leading_digits s') else EmptyString
  | EmptyString => EmptyString
  end.
Fixpoint digits_value (acc : Z) (s : string) : Z :=
  match s with
  | EmptyString => acc
  | String c s' => digits_value (10 * acc + (Z.of_N (Ascii.N_of_ascii c) - 48)) s'
  end.
(** [str::parse::<u16>] of a string of digits. *)
Definition parse_u16 (s : string) : option Z :=
  if String.eqb s "" then None
  else if digits_value 0 s <=? 65535 then Some (digits_value 0 s) else None.

(** ** Classification *)
Definition body_contains_any (body : string) (patterns : list string) : bool :=
  let lower := to_lowercase body in existsb (contains lower) patterns.

Definition classify_auth_error (body : string) : StandardError :=
  let lower := to_lowercase body in
  if (contains lower "invalid" && contains lower "key") || contains lower "expired"
     || contains lower "revoked" || contains lower "deactivated"
  then KeyInvalid else AuthenticationFailed.

Definition classify_forbidden_error (body : string) : StandardError :=
  let lower := to_lowercase body in
  if contains lower "quota" || (contains lower "exceeded" && contains lower "limit")
  then QuotaExhausted
  else if contains lower "balance" || contains lower "insufficient" || contains lower "billing"
          || contains lower "payment"
  then InsufficientBalance else AuthenticationFailed.

Definition classify_bad_request (body : string) : StandardError :=
  let lower := to_lowercase body in
  if (contains lower "context" && (contains lower "length" || contains lower "window"))
     || (contains lower "maximum" && contains lower "token")
  then ContextWindowExceeded
  else if contains lower "content_filter" || contains lower "content filter" then ContentFiltered
  else if contains lower "model" && contains lower "not" then ModelNotFound
  else Unknown.

Definition classify_from_body (body : string) : StandardError :=
  let lower := to_lowercase body in
  if contains lower "rate limit" || contains lower "rate_limit" then RateLimited None
  else if contains lower "quota" || (contains lower "exceeded" && contains lower "limit")
  then QuotaExhausted
  else if contains lower "invalid api key" || contains lower "invalid_api_key" then KeyInvalid
  else if contains lower "insufficient" && contains lower "balance" then InsufficientBalance
  else if contains lower "context" && contains lower "length" then ContextWindowExceeded
  else if contains lower "content_filter" || contains lower "content filter" then ContentFiltered
  else Unknown.

Definition classify (status : Z) (body : string) : StandardError :=
  if status =? 401 then classify_auth_error body
  else if status =? 403 then classify_forbidden_error body
  else if status =? 429 then RateLimited None
  else if status =? 404 then
    if body_contains_any body ["model"; "not found"; "does not exist"] then ModelNotFound
    else Unknown
  else if status =? 400 then classify_bad_request body
  else if (500 <=? status) && (status <=? 599) then ServerError
  else if status =? 0 then NetworkError
  else classify_from_body body.

Definition classify_http_message (message : string) : option StandardError :=
  rest ← strip_prefix "HTTP " message;
  status ← parse_u16 (leading_digits rest);
  Some (classify status rest).

Definition classify_provider_error (error : ProviderError) : StandardError :=
  match error with
  | Provider.RateLimited _ retry_after_secs => RateLimited (Some retry_after_secs)
  | Provider.QuotaExhausted _ _ => QuotaExhausted
  | Provider.AuthenticationFailed _ _ => AuthenticationFailed
  | Provider.KeyInvalid _ _ => KeyInvalid
  | Provider.ServerError _ message =>
      default (if contains message "context" && contains message "length"
               then ContextWindowExceeded else ServerError) (classify_http_message message)
  | Provider.ModelBudgetDenied _ _ => ModelBudgetDenied
  | Provider.ResponseBodyLimitExceeded _ => ResponseBodyLimitExceeded
  | Provider.ResponseStreamLimitExceeded _ _ => ResponseStreamLimitExceeded
  | Provider.NetworkError _ => NetworkError
  | Provider.NoProviderAvailable _ | Provider.Cancelled | Provider.ParseError _ => Unknown
  | Provider.Other message => default (classify_from_body message) (classify_http_message message)
  end.

(** ** Building provider errors *)
Definition auth_failure_to_provider_error (provider_id body : string) : ProviderError :=
  let classified :=
    match classify_auth_error body with
    | KeyInvalid => KeyInvalid
    | _ => classify_forbidden_error body
    end in
  match classified with
  | KeyInvalid => Provider.KeyInvalid provider_id body
  | QuotaExhausted | InsufficientBalance => Provider.QuotaExhausted provider_id body
  | _ => Provider.AuthenticationFailed provider_id body
  end.

Definition http_failure_to_provider_error (provider_id : string) (status : Z) (body : string)
    : ProviderError :=
  let message := "HTTP " +:+ pretty status +:+ ": " +:+ body in
  match classify status body with
  | RateLimited retry_after => Provider.RateLimited provider_id (default 60 retry_after)
  | KeyInvalid => Provider.KeyInvalid provider_id message
  | QuotaExhausted | InsufficientBalance => Provider.QuotaExhausted provider_id message
  | AuthenticationFailed => Provider.AuthenticationFailed provider_id message
  | NetworkError => Provider.NetworkError message
  | _ => Provider.ServerError provider_id message
  end.

(** ** Decimal text *)
(** A string of digits, and one whose characters a search for words skips. *)
Fixpoint all_chars (p : Ascii.ascii -> bool) (s : string) : bool :=
  match s with EmptyString => true | String c s => p c && all_chars p s end.
(** Digits, colon and space. *)
Definition is_filler (c : Ascii.ascii) : bool :=
  is_ascii_digit c || byte_is c 58 || byte_is c 32.

Lemma all_chars_app p a b : all_chars p (a +:+ b) = all_chars p a && all_chars p b.
Proof.
  induction a as [|c a IH]; [done|]. change (String c a +:+ b) with (String c (a +:+ b)). cbn.
  by rewrite IH, andb_assoc.
Qed.
Lemma all_chars_impl (p q : Ascii.ascii -> bool) s :
  (forall c, p c = true -> q c = true) -> all_chars p s = true -> all_chars q s = true.
Proof. intros Hpq. induction s as [|c s IH]; cbn; [done|]. rewrite !andb_true_iff. naive_solver. Qed.

Lemma digit_char n : (n < 10)%N ->
  is_ascii_digit (pretty_N_char n) = true /\ Ascii.N_of_ascii (pretty_N_char n) = (48 + n)%N.
Proof.
  intros Hn.
  assert (Hall : Forall (fun k => is_ascii_digit (pretty_N_char (N.of_nat k)) = true /\
    Ascii.N_of_ascii (pretty_N_char (N.of_nat k)) = (48 + N.of_nat k)%N) (seq 0 10))
    by (repeat constructor).
  rewrite list.Forall_forall in Hall. specialize (Hall (N.to_nat n)).
  rewrite N2Nat.id in Hall. apply Hall, elem_of_seq. lia.
Qed.

Lemma pretty_N_go_digits x s :
  digits_value 0 (pretty_N_go x s) = digits_value (Z.of_N x) s /\
  (all_chars is_ascii_digit s = true -> all_chars is_ascii_digit (pretty_N_go x s) = true).
Proof.
  revert s. induction (N.lt_wf_0 x) as [x _ IH]; intros s.
  destruct (decide (x = 0)%N) as [->|Hx]; [by rewrite pretty_N_go_0|].
  rewrite pretty_N_go_step by lia.
  destruct (IH (x / 10)%N (N.div_lt x 10 ltac:(lia) ltac:(lia))
              (String (pretty_N_char (x mod 10)) s)) as [Hv Hd].
  destruct (digit_char (x mod 10) (N.mod_lt x 10 ltac:(lia))) as [Hdig Hval].
  rewrite Hv. split; [|intros; apply Hd; cbn; by rewrite Hdig].
  cbn. rewrite Hval. f_equal. rewrite N2Z.inj_div, N2Z.inj_add, N2Z.inj_mod.
  change (Z.of_N 10) with 10. pose proof (Z.div_mod (Z.of_N x) 10). lia.
Qed.

Lemma pretty_Z_digits n :
  0 <= n -> digits_value 0 (pretty n) = n /\ all_chars is_ascii_digit (pretty n) = true /\
  pretty n <> "".
Proof.
  intros Hn. destruct n as [|p|p]; [done| |lia].
  change (pretty (Zpos p)) with (pretty_N_go (Npos p) "").
  destruct (pretty_N_go_digits (Npos p) "") as [Hv Hd]. split_and!; [by rewrite Hv|by apply Hd|].
  intros E. by rewrite E in Hv.
Qed.

Lemma leading_digits_app d s :
  all_chars is_ascii_digit d = true ->
  leading_digits (d +:+ ": " +:+ s) = d.
Proof.
  induction d as [|c d IH]; [done|]. cbn. intros [Hc Hd]%andb_true_iff.
  change (String c d +:+ ": " +:+ s) with (String c (d +:+ ": " +:+ s)). cbn.
  by rewrite Hc, IH.
Qed.

Lemma prefix_app a b : String.prefix a (a +:+ b) = true.
Proof.
  induction a as [|c a IH]; [by destruct b|]. change (String c a +:+ b) with (String c (a +:+ b)). cbn.
  by destruct (Ascii.ascii_dec c c).
Qed.
Lemma substring_all s n : (String.length s <= n)%nat -> String.substring 0 n s = s.
Proof.
  revert n. induction s as [|c s IH]; intros [|n] Hn; cbn in *; [done..|lia|].
  by rewrite IH by lia.
Qed.
Lemma substring_skip a b n :
  (String.length b <= n)%nat -> String.substring (String.length a) n (a +:+ b) = b.
Proof.
  intros Hn. induction a as [|c a IH]; cbn [String.length].
  - by apply substring_all.
  - change (String c a +:+ b) with (String c (a +:+ b)). cbn. by rewrite IH.
Qed.
Lemma length_append a b : String.length (a +:+ b) = (String.length a + String.length b)%nat.
Proof. induction a as [|c a IH]; [done|]. change (String c a +:+ b) with (String c (a +:+ b)). cbn. by rewrite IH. Qed.

Lemma strip_prefix_app a b : strip_prefix a (a +:+ b) = Some b.
Proof.
  unfold strip_prefix. rewrite prefix_app, substring_skip; [done|]. rewrite length_append. lia.
Qed.

(** ** Words are not found in a status prefix *)
Lemma filler_plain c : is_filler c = true ->
  byte_is c 226 = false /\ byte_is c 196 = false /\ lower_char c = c.
Proof. destruct c as [[] [] [] [] [] [] [] []]; vm_compute; intros [=]; auto. Qed.

Lemma to_lowercase_plain c s :
  is_filler c = true -> to_lowercase (String c s) = String c (to_lowercase s).
Proof.
  intros (H1 & H2 & H3)%filler_plain. cbn. by rewrite H1, H2, H3.
Qed.

Lemma to_lowercase_filler f s :
  all_chars is_filler f = true -> to_lowercase (f +:+ s) = f +:+ to_lowercase s.
Proof.
  induction f as [|c f IH]; [done|]. cbn. intros [Hc Hf]%andb_true_iff.
  change (String c f +:+ s) with (String c (f +:+ s)). by rewrite to_lowercase_plain, IH.
Qed.

(** A pattern the module looks for: it starts with no filler. *)
Definition word (p : string) : bool :=
  match p with String c _ => negb (is_filler c) | EmptyString => false end.

Lemma contains_filler f s p :
  word p = true -> all_chars is_filler f = true -> contains (f +:+ s) p = contains s p.
Proof.
  intros Hp. induction f as [|c f IH]; [done|]. cbn. intros [Hc Hf]%andb_true_iff.
  change (String c f +:+ s) with (String c (f +:+ s)). cbn [contains]. rewrite IH by done.
  destruct p as [|d p]; [done|]. cbn in Hp |- *. destruct (Ascii.ascii_dec d c) as [->|]; [|done].
  by rewrite Hc in Hp.
Qed.

(** Texts in which the same words occur are classified alike. *)
Definition same_words (a b : string) : Prop :=
  forall p, word p = true -> contains (to_lowercase a) p = contains (to_lowercase b) p.

Lemma same_words_filler f s : all_chars is_filler f = true -> same_words (f +:+ s) s.
Proof. intros Hf p Hp. by rewrite to_lowercase_filler, contains_filler. Qed.

Lemma classify_same_words status a b : same_words a b -> classify status a = classify status b.
Proof.
  intros Hw. unfold classify, classify_auth_error, classify_forbidden_error, body_contains_any,
    classify_bad_request, classify_from_body; cbn [existsb].
  rewrite !Hw by reflexivity. reflexivity.
Qed.

Lemma status_prefix_filler n :
  0 <= n -> all_chars is_filler (pretty n +:+ ": ") = true.
Proof.
  intros Hn. rewrite all_chars_app, andb_true_iff. split; [|done].
  apply (all_chars_impl is_ascii_digit); [|by apply pretty_Z_digits].
  intros c Hc. unfold is_filler. by rewrite Hc.
Qed.

Lemma classify_http_message_shape status body :
  0 <= status <= 65535 ->
  classify_http_message ("HTTP " +:+ pretty status +:+ ": " +:+ body) = Some (classify status body).
Proof.
  intros Hs. destruct (pretty_Z_digits status ltac:(lia)) as (Hv & Hd & Hne).
  unfold classify_http_message. rewrite strip_prefix_app; cbn.
  rewrite leading_digits_app by done. unfold parse_u16.
  destruct (String.eqb_spec (pretty status) "") as [|_]; [done|].
  rewrite Hv, (proj2 (Z.leb_le _ _)) by lia. cbn. f_equal.
  apply classify_same_words. rewrite <- append_assoc.
  apply same_words_filler, status_prefix_filler; lia.
Qed.

(** ** Properties *)
(** Turning an HTTP failure into a provider error loses nothing the pool
    acts on: whatever the body, classifying the error again gives the class of
    the status and body (a rate limit with its default delay, an empty balance
    as an exhausted quota), so the decisions to retry, to freeze, for how long
    and whether for good are those of the original failure. *)
Theorem http_failure_reclassified provider_id status body :
  0 <= status <= 65535 ->
  let c := classify status body in
  let c' := classify_provider_error (http_failure_to_provider_error provider_id status body) in
  c' = match c with
       | RateLimited r => RateLimited (Some (default 60 r))
       | InsufficientBalance => QuotaExhausted
       | _ => c
       end /\
  is_transient c' = is_transient c /\ should_freeze c' = should_freeze c /\
  is_permanent c' = is_permanent c /\ freeze_duration c' = freeze_duration c.
Proof.
  intros Hs c c'. assert (Hc : c' = match c with
    | RateLimited r => RateLimited (Some (default 60 r)) | InsufficientBalance => QuotaExhausted
    | _ => c end); [|rewrite Hc; by destruct c].
  subst c c'. unfold http_failure_to_provider_error.
  pose proof (classify_http_message_shape status body Hs) as Hm.
  destruct (classify status body) eqn:E; cbn [classify_provider_error]; by rewrite ?Hm.
Qed.

(** A context-window 400 whose body also says "quota": the status decides. *)
Lemma http_failure_reclassified_witness :
  classify_provider_error (http_failure_to_provider_error "p" 400 "Context LENGTH over quota")
  = ContextWindowExceeded /\
  should_freeze (classify_provider_error
    (http_failure_to_provider_error "p" 400 "Context LENGTH over quota")) = false.
Proof.
  destruct (http_failure_reclassified "p" 400 "Context LENGTH over quota" ltac:(lia))
    as (-> & _ & -> & _).
  split; vm_compute; reflexivity.
Defined.
