(* ===== verification/Pool.v ===== *)
(** * The provider pool

    Models [crates/hf-provider/src/pool.rs] and the counters of
    [crates/hf-provider/src/metrics.rs], on top of [Router], [Freeze] and
    [ErrorClassifier].

    Two views of one code: [chat_completion] is the call seen by its caller,
    with the provider's answers as a function of the attempt, and [exec] splits
    every call into the steps between its [await] points, so that any number of
    calls and streams interleave over the shared semaphores and counters.
    Backoffs are milliseconds, instants nanoseconds. *)
From S2P Require Import Prelude Provider Freeze ErrorClassifier Router.
From Stdlib Require Import SpecFloat.

(** ** [f64] arithmetic ([metrics.rs]) *)
(** [value.floor() as u64] for a positive finite value. *)
Definition f64_floor (value : f64) : Z :=
  match value with S754_finite false m e => Z.shiftl (Z.pos m) e | _ => 0 end.

Definition safe_f64_to_u64 (value : f64) : Z :=
  match value with
  | S754_nan => 0
  | _ =>
      if SFleb value (S754_zero false) then 0
      else match value with
           | S754_infinity _ => u64_MAX
           | _ => if SFleb (f64_of u64_MAX) value then u64_MAX else f64_floor value
           end
  end.

Record ProviderMetrics := mkMetrics {
  total_requests : Z;
  total_errors : Z;
  total_input_tokens : Z;
  total_output_tokens : Z;
  estimated_cost_micros : Z;
}.
Definition new_metrics : ProviderMetrics := mkMetrics 0 0 0 0 0.

(** [AtomicU64::fetch_add] wraps. *)
Definition fetch_add (a b : Z) : Z := wrapping 64 (a + b).

Definition cost_micros (input_tokens output_tokens : Z) (cin cout : f64) : Z :=
  let input_cost := f64_mul (f64_div (f64_of input_tokens) (f64_of 1000)) cin in
  let output_cost := f64_mul (f64_div (f64_of output_tokens) (f64_of 1000)) cout in
  safe_f64_to_u64 (f64_mul (f64_add input_cost output_cost) (f64_of 1000000)).

Definition record_success_with_cost (m : ProviderMetrics) (input_tokens output_tokens : Z)
    (cin cout : f64) : ProviderMetrics :=
  mkMetrics (fetch_add (total_requests m) 1) (total_errors m)
    (fetch_add (total_input_tokens m) input_tokens)
    (fetch_add (total_output_tokens m) output_tokens)
    (fetch_add (estimated_cost_micros m) (cost_micros input_tokens output_tokens cin cout)).

Definition record_error (m : ProviderMetrics) : ProviderMetrics :=
  mkMetrics (fetch_add (total_requests m) 1) (fetch_add (total_errors m) 1)
    (total_input_tokens m) (total_output_tokens m) (estimated_cost_micros m).

(** ** The pool *)
Record ProviderEntry := mkEntry {
  provider : ProviderMetadata;
  freeze_manager : FreezeManager;
  semaphore : Z;
  max_concurrency : Z;
  default_temperature : option f64;
  default_top_p : option f64;
  metrics : ProviderMetrics;
  active_requests : Z;
}.

Record ProviderPoolImpl := mkPool {
  providers : list ProviderEntry;
  router : TagBasedRouter;
  health_check_interval : Z;
  global_semaphore : option Z;
}.

(** The configuration [from_providers] reads; [sampling] has a provider's id,
    temperature and top-p. *)
Record ProviderPoolConfig := mkConfig {
  default_freeze_duration_secs : Z;
  max_freeze_duration_secs : Z;
  max_global_concurrency : option Z;
  selection_strategy : SelectionStrategy;
  health_check_interval_secs : Z;
  sampling : list (string * (option f64 * option f64));
}.

Definition sampling_defaults (c : ProviderPoolConfig) : gmap string (option f64 * option f64) :=
  fold_left (fun m p => <[p.1 := p.2]> m) (sampling c) ∅.

Definition new_entry (c : ProviderPoolConfig) (p : ProviderMetadata) : ProviderEntry :=
  let '(temperature, top_p) := default (None, None) (sampling_defaults c !! id p) in
  mkEntry p (Freeze.new (default_freeze_duration_secs c) (max_freeze_duration_secs c))
    (Provider.max_concurrency p) (Provider.max_concurrency p) temperature top_p new_metrics 0.

Definition from_providers (ps : list ProviderMetadata) (c : ProviderPoolConfig) : ProviderPoolImpl :=
  mkPool (new_entry c <$> ps) (Router.with_strategy (selection_strategy c))
    (Z.max (health_check_interval_secs c) 1) (max_global_concurrency c).

Definition routable_providers (pool : ProviderPoolImpl) : list (RoutableProvider FreezeManager) :=
  (fun e => mkProvider (provider e) (freeze_manager e) (semaphore e) (max_concurrency e))
    <$> providers pool.

Definition find_entry (pool : ProviderPoolImpl) (provider_id : string) : option nat :=
  position (fun e => bool_decide (id (provider e) = provider_id)) (providers pool).

(** Entry updates. *)
Definition set_freeze (m : FreezeManager) (e : ProviderEntry) : ProviderEntry :=
  mkEntry (provider e) m (semaphore e) (max_concurrency e) (default_temperature e)
    (default_top_p e) (metrics e) (active_requests e).
Definition set_metrics (m : ProviderMetrics) (e : ProviderEntry) : ProviderEntry :=
  mkEntry (provider e) (freeze_manager e) (semaphore e) (max_concurrency e)
    (default_temperature e) (default_top_p e) m (active_requests e).
Definition set_slots (permits active : Z) (e : ProviderEntry) : ProviderEntry :=
  mkEntry (provider e) (freeze_manager e) permits (max_concurrency e)
    (default_temperature e) (default_top_p e) (metrics e) active.
Definition with_providers (pool : ProviderPoolImpl) (ps : list ProviderEntry) : ProviderPoolImpl :=
  mkPool ps (router pool) (health_check_interval pool) (global_semaphore pool).
Definition update (pool : ProviderPoolImpl) (i : nat) (f : ProviderEntry -> ProviderEntry)
    : ProviderPoolImpl := with_providers pool (alter f i (providers pool)).

Definition classify_and_freeze (m : FreezeManager) (error : ProviderError) (now1 now2 : Z)
    : FreezeManager :=
  let std_error := classify_provider_error error in
  if negb (should_freeze std_error) then m
  else if is_permanent std_error then Freeze.freeze_permanent m (display error) now1
  else Freeze.freeze m (display error) (nanos <$> freeze_duration std_error) now1 now2.

Definition report_error (pool : ProviderPoolImpl) (provider_id : string) (error : ProviderError)
    (now1 now2 : Z) : ProviderPoolImpl :=
  match find_entry pool provider_id with
  | Some i =>
      update pool i (fun e => set_freeze (classify_and_freeze (freeze_manager e) error now1 now2) e)
  | None => pool
  end.

(** The failure path the two calls share. *)
Definition fail (pool : ProviderPoolImpl) (idx : nat) (error : ProviderError) (now1 now2 : Z)
    : ProviderPoolImpl :=
  let pool := update pool idx (fun e => set_metrics (record_error (metrics e)) e) in
  match providers pool !! idx with
  | Some e => report_error pool (id (provider e)) error now1 now2
  | None => pool
  end.

(** Manual freeze, and thaw through a health check. *)
Definition freeze (pool : ProviderPoolImpl) (provider_id reason : string) (now1 now2 : Z)
    : ProviderPoolImpl :=
  match find_entry pool provider_id with
  | Some i => update pool i (fun e => set_freeze (Freeze.freeze (freeze_manager e) reason None now1 now2) e)
  | None => pool
  end.

Definition thaw (pool : ProviderPoolImpl) (provider_id : string)
    (outcome : HealthOutcome ProviderError) (now1 now2 : Z)
    : ProviderPoolImpl * Result ProviderError unit :=
  match i ← find_entry pool provider_id; e ← providers pool !! i; Some (i, e) with
  | None => (pool, Err (Other ("provider not found: " +:+ provider_id)))
  | Some (i, e) =>
      let '(m, r) :=
        check_and_thaw display Provider.NetworkError outcome (freeze_manager e) now1 now2 in
      (update pool i (set_freeze m), r)
  end.

Record ProviderStatus := mkPStatus {
  ps_id : string;
  ps_is_frozen : bool;
  ps_freeze_reason : option string;
  ps_active_requests : Z;
  ps_total_requests : Z;
  ps_total_errors : Z;
}.
Definition provider_statuses (pool : ProviderPoolImpl) (now : Z) : list ProviderStatus :=
  (fun e => mkPStatus (id (provider e)) (st_is_frozen (status (freeze_manager e) now))
    (st_reason (status (freeze_manager e) now)) (active_requests e)
    (total_requests (metrics e)) (total_errors (metrics e))) <$> providers pool.

(** ** In-call retry *)
Definition MAX_IN_CALL_ATTEMPTS : Z := 3.
Definition MAX_IN_CALL_BACKOFF : Z := 2000.

Definition in_call_backoff (attempt : Z) (class : StandardError) : Z :=
  match class with
  | RateLimited (Some delay) => Z.min (1000 * delay) MAX_IN_CALL_BACKOFF
  | _ =>
      let shift :=
        let n := saturating_sub attempt 1 in Z.min (if n <=? u32_MAX then n else 0) 4 in
      Z.min (250 * Z.shiftl 1 shift) MAX_IN_CALL_BACKOFF
  end.

Record ChatRequest (R : Type) := mkRequest {
  temperature : option f64;
  top_p : option f64;
  request_rest : R;
}.
Arguments mkRequest {R}.
Arguments temperature {R}.
Arguments top_p {R}.
Arguments request_rest {R}.

Record ChatResponse (R : Type) := mkResponse {
  input_tokens : Z;
  output_tokens : Z;
  provider_id : option string;
  response_rest : R;
}.
Arguments mkResponse {R}.
Arguments input_tokens {R}.
Arguments output_tokens {R}.
Arguments provider_id {R}.
Arguments response_rest {R}.

(** [Option::or]. *)
Definition or {A} (a b : option A) : option A := match a with Some _ => a | None => b end.
Definition apply_request_defaults {R} (request : ChatRequest R) (e : ProviderEntry) : ChatRequest R :=
  mkRequest (or (temperature request) (default_temperature e)) (or (top_p request) (default_top_p e))
    (request_rest request).

Section call.
Context {Rq Rs : Type}.

(** The provider: its answer to a request at an attempt. *)
Context (answer : nat -> ProviderMetadata -> ChatRequest Rq -> Result ProviderError (ChatResponse Rs)).

(** The retry loop: calls made, backoffs slept, outcome; [None] when [fuel]
    loop turns do not end it. *)
Fixpoint retry_loop (fuel : nat) (call : nat -> Result ProviderError (ChatResponse Rs))
    (attempt : nat) (slept : list Z)
    : option (nat * list Z * Result ProviderError (ChatResponse Rs)) :=
  match fuel with
  | O => None
  | S fuel =>
      match call attempt with
      | Ok response => Some (S attempt, slept, Ok response)
      | Err e =>
          let class := classify_provider_error e in
          if is_transient class && (Z.of_nat (S attempt) <? MAX_IN_CALL_ATTEMPTS)
          then retry_loop fuel call (S attempt)
                 (slept ++ [in_call_backoff (Z.of_nat (S attempt)) class])
          else Some (S attempt, slept, Err e)
      end
  end.

(** What routing leaves in the pool. *)
Definition after_select (pool : ProviderPoolImpl) (r : TagBasedRouter)
    (ps : list (RoutableProvider FreezeManager)) : ProviderPoolImpl :=
  mkPool (zip_with (fun e p => set_freeze (Router.freeze_manager p) e) (providers pool) ps)
    r (health_check_interval pool) (global_semaphore pool).

(** One call on a pool nothing else uses meanwhile: permits and the active count
    taken for it are given back by its end. *)
Definition chat_completion (pool : ProviderPoolImpl) (clock : nat -> Z * Z) (seed now1 now2 : Z)
    (request : ChatRequest Rq) (route : RouteRequest)
    : option (ProviderPoolImpl * Result ProviderError (ChatResponse Rs)) :=
  let '(r, ps, choice) := select (router pool) clock seed (routable_providers pool) route in
  let pool := after_select pool r ps in
  c ← choice;
  match c with
  | Err e => Some (pool, Err e)
  | Ok idx =>
      entry ← providers pool !! idx;
      let request := apply_request_defaults request entry in
      '(_, _, outcome) ← retry_loop (Z.to_nat MAX_IN_CALL_ATTEMPTS)
                           (fun n => answer n (provider entry) request) 0 [];
      match outcome with
      | Ok response =>
          let meta := provider entry in
          Some (update pool idx (fun e => set_metrics
                  (record_success_with_cost (metrics e) (input_tokens response)
                     (output_tokens response) (cost_per_1k_input meta) (cost_per_1k_output meta)) e),
                Ok (mkResponse (input_tokens response) (output_tokens response)
                      (Some (id meta)) (response_rest response)))
      | Err error => Some (fail pool idx error now1 now2, Err error)
      end
  end.
End call.

(** ** Streams *)
Record StreamMetricsState := mkStream {
  usage : option (Z * Z);
  recorded : bool;
}.
Definition new_stream : StreamMetricsState := mkStream None false.

(** The closure of [unfold]: an item carrying its usage or an error... *)
Definition stream_item (e : ProviderEntry) (st : StreamMetricsState)
    (item : Result ProviderError (option (Z * Z))) (now1 now2 : Z)
    : ProviderEntry * StreamMetricsState :=
  match item with
  | Ok (Some u) => (e, mkStream (Some u) (recorded st))
  | Ok None => (e, st)
  | Err err =>
      if recorded st then (e, st)
      else (set_freeze (classify_and_freeze (freeze_manager e) err now1 now2)
              (set_metrics (record_error (metrics e)) e), mkStream (usage st) true)
  end.
(** ... and the end of the stream. *)
Definition stream_end (e : ProviderEntry) (st : StreamMetricsState) : ProviderEntry :=
  if recorded st then e
  else let '(input, output) := default (0, 0) (usage st) in
       set_metrics (record_success_with_cost (metrics e) input output
         (cost_per_1k_input (provider e)) (cost_per_1k_output (provider e))) e.

(** A stream polled to its end, with the clock readings of each item. *)
Definition consume_stream (e : ProviderEntry)
    (items : list (Result ProviderError (option (Z * Z)) * (Z * Z))) : ProviderEntry :=
  let '(e, st) := fold_left (fun '(e, st) '(item, (n1, n2)) => stream_item e st item n1 n2)
                    items (e, new_stream) in
  stream_end e st.

(** ** Interleaved calls *)
(** Where a call waits between two steps. *)
Inductive Stage := WaitGlobal | WaitProvider | Running | Streaming (st : StreamMetricsState).
Record Flight := mkFlight {
  fl_entry : nat;
  fl_streaming : bool;
  fl_stage : Stage;
}.
Record World := mkWorld {
  pool : ProviderPoolImpl;
  flights : gmap nat Flight;
}.

Inductive Event :=
| Select (fid : nat) (streaming : bool) (clock : nat -> Z * Z) (seed : Z) (route : RouteRequest)
| AcquireGlobal (fid : nat)
| AcquireProvider (fid : nat)
| Answer (fid : nat) (outcome : Result ProviderError (Z * Z)) (now1 now2 : Z)
| Opened (fid : nat) (outcome : Result ProviderError unit) (now1 now2 : Z)
| Item (fid : nat) (item : Result ProviderError (option (Z * Z))) (now1 now2 : Z)
| EndOfStream (fid : nat)
| Drop (fid : nat)
| Freeze (provider_id reason : string) (now1 now2 : Z)
| Thaw (provider_id : string) (outcome : HealthOutcome ProviderError) (now1 now2 : Z).

Definition holds_global (fl : Flight) : bool :=
  match fl_stage fl with WaitGlobal => false | _ => true end.
Definition holds_slot (fl : Flight) : bool :=
  match fl_stage fl with Running | Streaming _ => true | _ => false end.

Definition add_global (n : Z) (pool : ProviderPoolImpl) : ProviderPoolImpl :=
  mkPool (providers pool) (router pool) (health_check_interval pool)
    ((fun g => g + n) <$> global_semaphore pool).
(** Taking a permit and counting the call, and the drop of permit and guard. *)
Definition take_slot (e : ProviderEntry) : ProviderEntry :=
  set_slots (semaphore e - 1) (fetch_add (active_requests e) 1) e.
Definition give_slot (e : ProviderEntry) : ProviderEntry :=
  set_slots (semaphore e + 1) (wrapping 64 (active_requests e - 1)) e.

Definition release (pool : ProviderPoolImpl) (fl : Flight) : ProviderPoolImpl :=
  let pool := if holds_slot fl then update pool (fl_entry fl) give_slot else pool in
  if holds_global fl then add_global 1 pool else pool.

Definition set_stage (fl : Flight) (s : Stage) : Flight :=
  mkFlight (fl_entry fl) (fl_streaming fl) s.

(** One step; [None] when it is not enabled (a wait goes on, a permit is not
    free, no such call). *)
Definition exec (w : World) (ev : Event) : option World :=
  let p := pool w in
  match ev with
  | Select fid streaming clock seed route =>
      if decide (flights w !! fid = None) then
        let '(r, ps, choice) := select (router p) clock seed (routable_providers p) route in
        let p := after_select p r ps in
        match choice with
        | Some (Ok idx) => Some (mkWorld p (<[fid := mkFlight idx streaming WaitGlobal]> (flights w)))
        | _ => Some (mkWorld p (flights w))
        end
      else None
  | AcquireGlobal fid =>
      fl ← flights w !! fid;
      match fl_stage fl, global_semaphore p with
      | WaitGlobal, Some g =>
          if 0 <? g then Some (mkWorld (add_global (-1) p)
                                 (<[fid := set_stage fl WaitProvider]> (flights w)))
          else None
      | WaitGlobal, None => Some (mkWorld p (<[fid := set_stage fl WaitProvider]> (flights w)))
      | _, _ => None
      end
  | AcquireProvider fid =>
      fl ← flights w !! fid;
      e ← providers p !! fl_entry fl;
      match fl_stage fl with
      | WaitProvider =>
          if 0 <? semaphore e
          then Some (mkWorld (update p (fl_entry fl) take_slot)
                       (<[fid := set_stage fl Running]> (flights w)))
          else None
      | _ => None
      end
  | Answer fid outcome now1 now2 =>
      fl ← flights w !! fid;
      match fl_stage fl, fl_streaming fl with
      | Running, false =>
          let p :=
            match outcome with
            | Ok (input, output) =>
                update p (fl_entry fl) (fun e => set_metrics
                  (record_success_with_cost (metrics e) input output
                     (cost_per_1k_input (provider e)) (cost_per_1k_output (provider e))) e)
            | Err err => fail p (fl_entry fl) err now1 now2
            end in
          Some (mkWorld (release p fl) (delete fid (flights w)))
      | _, _ => None
      end
  | Opened fid outcome now1 now2 =>
      fl ← flights w !! fid;
      match fl_stage fl, fl_streaming fl with
      | Running, true =>
          match outcome with
          | Ok _ => Some (mkWorld p (<[fid := set_stage fl (Streaming new_stream)]> (flights w)))
          | Err err => Some (mkWorld (release (fail p (fl_entry fl) err now1 now2) fl)
                               (delete fid (flights w)))
          end
      | _, _ => None
      end
  | Item fid item now1 now2 =>
      fl ← flights w !! fid;
      e ← providers p !! fl_entry fl;
      match fl_stage fl with
      | Streaming st =>
          let '(e', st') := stream_item e st item now1 now2 in
          Some (mkWorld (update p (fl_entry fl) (fun _ => e'))
                  (<[fid := set_stage fl (Streaming st')]> (flights w)))
      | _ => None
      end
  | EndOfStream fid =>
      fl ← flights w !! fid;
      match fl_stage fl with
      | Streaming st =>
          Some (mkWorld (release (update p (fl_entry fl) (fun e => stream_end e st)) fl)
                  (delete fid (flights w)))
      | _ => None
      end
  | Drop fid =>
      fl ← flights w !! fid;
      Some (mkWorld (release p fl) (delete fid (flights w)))
  | Freeze provider_id reason now1 now2 =>
      Some (mkWorld (freeze p provider_id reason now1 now2) (flights w))
  | Thaw provider_id outcome now1 now2 =>
      Some (mkWorld (thaw p provider_id outcome now1 now2).1 (flights w))
  end.

Definition exec_all (w : World) (evs : list Event) : option World :=
  fold_left (fun o ev => w ← o; exec w ev) evs (Some w).

(** ** Lemmas: counting calls in flight *)
Definition count (P : Flight -> bool) (m : gmap nat Flight) : Z :=
  zlen (filter (fun kv => P kv.2 = true) (map_to_list m)).

Lemma count_empty P : count P ∅ = 0.
Proof. done. Qed.
Lemma count_insert P m k fl :
  m !! k = None -> count P (<[k := fl]> m) = count P m + Z.b2z (P fl).
Proof.
  intros Hk. unfold count, zlen. rewrite (map_to_list_insert m k fl Hk), filter_cons.
  cbn. destruct (P fl); case_decide; cbn; try done; lia.
Qed.
Lemma count_delete P m k fl :
  m !! k = Some fl -> count P (delete k m) = count P m - Z.b2z (P fl).
Proof.
  intros Hk. rewrite <- (insert_delete_id m k fl Hk) at 2.
  rewrite count_insert by apply lookup_delete_eq. lia.
Qed.
Lemma count_update P m k fl fl' :
  m !! k = Some fl -> count P (<[k := fl']> m) = count P m - Z.b2z (P fl) + Z.b2z (P fl').
Proof.
  intros Hk. rewrite <- insert_delete_eq, count_insert by apply lookup_delete_eq.
  by rewrite (count_delete P m k fl).
Qed.

(** ** The accounting invariant *)
Definition running_on (i : nat) (fl : Flight) : bool :=
  holds_slot fl && bool_decide (fl_entry fl = i).

Definition entry_ok (n : Z) (e : ProviderEntry) : Prop :=
  0 <= semaphore e /\ semaphore e + n = max_concurrency e /\ max_concurrency e <= usize_MAX /\ 0 <= n /\
  active_requests e = n.
Definition slots_ok (ps : list ProviderEntry) (n : nat -> Z) : Prop :=
  forall i e, ps !! i = Some e -> entry_ok (n i) e.
Definition global_ok (limit g : option Z) (n : Z) : Prop :=
  match limit, g with
  | Some l, Some g => 0 <= g /\ g + n = l
  | None, None => True
  | _, _ => False
  end.

Definition accounted (limit : option Z) (w : World) : Prop :=
  slots_ok (providers (pool w)) (fun i => count (running_on i) (flights w)) /\
  global_ok limit (global_semaphore (pool w)) (count holds_global (flights w)) /\
  map_Forall (fun _ fl => (fl_entry fl < length (providers (pool w)))%nat) (flights w).

(** Updates that leave slots alone. *)
Definition keeps_slots (f : ProviderEntry -> ProviderEntry) : Prop :=
  forall e, semaphore (f e) = semaphore e /\ max_concurrency (f e) = max_concurrency e /\
    active_requests (f e) = active_requests e.
Definition same_slots (ps ps' : list ProviderEntry) : Prop :=
  length ps' = length ps /\
  forall i e', ps' !! i = Some e' -> exists e, ps !! i = Some e /\
    semaphore e' = semaphore e /\ max_concurrency e' = max_concurrency e /\
    active_requests e' = active_requests e.

Lemma same_slots_refl ps : same_slots ps ps.
Proof. split; [done|]. eauto. Qed.
Lemma same_slots_trans a b c : same_slots a b -> same_slots b c -> same_slots a c.
Proof.
  intros [Hl1 H1] [Hl2 H2]. split; [congruence|]. intros i e' (e & He & ? & ? & ?)%H2.
  destruct (H1 i e He) as (e0 & ? & ? & ? & ?). exists e0. split_and!; congruence.
Qed.
Lemma same_slots_alter ps i f : keeps_slots f -> same_slots ps (alter f i ps).
Proof.
  intros Hf. split; [by rewrite length_alter|]. intros j e'. destruct (decide (j = i)) as [->|Hj].
  - rewrite list_lookup_alter_eq. destruct (ps !! i) as [e|]; cbn; [|done]. intros [= <-]. eauto.
  - rewrite list_lookup_alter_ne by done. eauto.
Qed.
Lemma same_slots_ok ps ps' n : same_slots ps ps' -> slots_ok ps n -> slots_ok ps' n.
Proof.
  intros [_ Hs] Hok i e' (e & He & H1 & H2 & H3)%Hs. specialize (Hok i e He).
  unfold entry_ok in *. by rewrite H1, H2, H3.
Qed.

Lemma keeps_set_freeze g : keeps_slots (fun e => set_freeze (g e) e).
Proof. by intros e. Qed.
Lemma keeps_set_metrics g : keeps_slots (fun e => set_metrics (g e) e).
Proof. by intros e. Qed.
#[local] Hint Resolve same_slots_refl same_slots_alter keeps_set_freeze keeps_set_metrics : slots.

Lemma same_slots_report p pid err n1 n2 :
  same_slots (providers p) (providers (report_error p pid err n1 n2)) /\
  global_semaphore (report_error p pid err n1 n2) = global_semaphore p.
Proof.
  unfold report_error. destruct (find_entry p pid); cbn; split; auto with slots.
Qed.
Lemma same_slots_fail p idx err n1 n2 :
  same_slots (providers p) (providers (fail p idx err n1 n2)) /\
  global_semaphore (fail p idx err n1 n2) = global_semaphore p.
Proof.
  unfold fail. set (p' := update p idx _).
  assert (H0 : same_slots (providers p) (providers p'))
    by (apply same_slots_alter, (keeps_set_metrics (fun e => record_error (metrics e)))).
  destruct (providers p' !! idx) as [e|]; [|done].
  destruct (same_slots_report p' (id (provider e)) err n1 n2) as [H1 ->].
  split; [|done]. by eapply same_slots_trans.
Qed.
Lemma same_slots_freeze p pid reason n1 n2 :
  same_slots (providers p) (providers (freeze p pid reason n1 n2)) /\
  global_semaphore (freeze p pid reason n1 n2) = global_semaphore p.
Proof.
  unfold freeze. destruct (find_entry p pid); cbn; split; auto with slots.
Qed.
Lemma same_slots_thaw p pid o n1 n2 :
  same_slots (providers p) (providers (thaw p pid o n1 n2).1) /\
  global_semaphore (thaw p pid o n1 n2).1 = global_semaphore p.
Proof.
  unfold thaw. destruct (i ← find_entry p pid; _) as [[i e]|]; cbn; [|auto with slots].
  destruct (check_and_thaw _ _ _ _ _ _) as [m r]; cbn. split; [|done].
  apply same_slots_alter, (keeps_set_freeze (fun _ => m)).
Qed.

Lemma select_length r clock seed p route :
  length (select r clock seed (routable_providers p) route).1.2 = length (providers p).
Proof.
  unfold select. assert (Hr : length (routable_providers p) = length (providers p))
    by (unfold routable_providers; by rewrite length_fmap).
  assert (Ha : length (after_checks clock (routable_providers p)) = length (providers p))
    by (unfold after_checks; by rewrite length_imap).
  destruct (preferred_provider_id route); [done|]. destruct (candidates _ _ _); [done|].
  destruct (m ← preferred_model route; _); [done|]. by destruct (apply_strategy _ _ _ _).
Qed.

Lemma same_slots_select p r ps :
  length ps = length (providers p) -> same_slots (providers p) (providers (after_select p r ps)).
Proof.
  intros Hl. cbn. split; [rewrite length_zip_with; lia|]. intros i e'.
  rewrite lookup_zip_with_Some. intros (e & q & -> & He & _). exists e. by split_and!.
Qed.

(** Slots taken and given back. *)
Lemma fetch_add_exact a b : 0 <= a + b <= u64_MAX -> fetch_add a b = a + b.
Proof. intros. unfold fetch_add, wrapping, u64_MAX in *. apply Z.mod_small. lia. Qed.
Lemma take_slot_ok n e : entry_ok n e -> 0 < semaphore e -> entry_ok (n + 1) (take_slot e).
Proof.
  unfold entry_ok, take_slot; cbn. intros (? & ? & ? & ? & ->) ?.
  rewrite fetch_add_exact by (unfold usize_MAX in *; lia). lia.
Qed.
Lemma give_slot_ok n e : entry_ok n e -> 0 < n -> entry_ok (n - 1) (give_slot e).
Proof.
  unfold entry_ok, give_slot; cbn. intros (? & ? & ? & ? & ->) ?.
  assert (wrapping 64 (n - 1) = n - 1) as ->;
    [unfold wrapping, usize_MAX, u64_MAX in *; apply Z.mod_small; lia|]. lia.
Qed.

Lemma slots_ok_alter ps n n' i f :
  slots_ok ps n -> (forall j, j <> i -> n' j = n j) ->
  (forall e, ps !! i = Some e -> entry_ok (n i) e -> entry_ok (n' i) (f e)) ->
  slots_ok (alter f i ps) n'.
Proof.
  intros Hok Hn Hf j e. destruct (decide (j = i)) as [->|Hj].
  - rewrite list_lookup_alter_eq. destruct (ps !! i) as [e0|] eqn:He; cbn; [|done].
    intros [= <-]. apply Hf; [done|]. by apply Hok.
  - rewrite list_lookup_alter_ne by done. intros He. rewrite Hn by done. by apply Hok.
Qed.

Lemma count_pos P m k fl : m !! k = Some fl -> P fl = true -> 0 < count P m.
Proof.
  intros Hk HP. rewrite <- (insert_delete_id m k fl Hk), count_insert by apply lookup_delete_eq.
  rewrite HP. unfold count. pose proof (zlen_nonneg (filter (fun kv => P kv.2 = true)
    (map_to_list (delete k m)))). cbn. lia.
Qed.

(** Changing a call's stage without touching what it holds, or releasing it. *)
Lemma accounted_stage limit w p k fl fl' :
  accounted limit w -> flights w !! k = Some fl -> fl_entry fl' = fl_entry fl ->
  holds_slot fl' = holds_slot fl -> holds_global fl' = holds_global fl ->
  same_slots (providers (pool w)) (providers p) -> global_semaphore p = global_semaphore (pool w) ->
  accounted limit (mkWorld p (<[k := fl']> (flights w))).
Proof.
  intros (Hs & Hg & Hf) Hk He Hhs Hhg Hss Hgs. unfold accounted; cbn.
  assert (Hc : forall P, P fl' = P fl -> count P (<[k := fl']> (flights w)) = count P (flights w)).
  { intros P HP. rewrite (count_update P _ _ fl) by done. rewrite HP. lia. }
  split_and!.
  - intros i e Hi. rewrite Hc by (unfold running_on; by rewrite He, Hhs).
    by apply (same_slots_ok _ _ _ Hss Hs).
  - by rewrite Hgs, Hc.
  - rewrite (proj1 Hss). apply map_Forall_insert_2; [|done]. rewrite He. by apply (Hf k fl).
Qed.

Lemma accounted_release limit w p k fl :
  accounted limit w -> flights w !! k = Some fl ->
  same_slots (providers (pool w)) (providers p) -> global_semaphore p = global_semaphore (pool w) ->
  accounted limit (mkWorld (release p fl) (delete k (flights w))).
Proof.
  intros (Hs & Hg & Hf) Hk Hss Hgs. unfold accounted; cbn.
  apply (same_slots_ok _ _ _ Hss) in Hs. rewrite <- Hgs in Hg. split_and!.
  - unfold release. set (n := fun i => count (running_on i) (flights w)) in *.
    assert (Hn : slots_ok (providers (if holds_slot fl then update p (fl_entry fl) give_slot else p))
                   (fun i => n i - Z.b2z (running_on i fl))).
    { destruct (holds_slot fl) eqn:Eh; cbn.
      - apply (slots_ok_alter _ n); [done| |].
        + intros j Hj. unfold running_on. rewrite bool_decide_eq_false_2 by done.
          rewrite andb_false_r. cbn. lia.
        + intros e _ He. unfold running_on. rewrite Eh, bool_decide_eq_true_2 by done.
          apply give_slot_ok; [done|]. apply (count_pos _ _ k fl Hk).
          unfold running_on. by rewrite Eh, bool_decide_eq_true_2.
      - intros i e He. unfold running_on. rewrite Eh. cbn. rewrite Z.sub_0_r. by apply Hs. }
    intros i e He. rewrite (count_delete _ _ k fl) by done. apply Hn. by destruct (holds_global fl).
  - rewrite (count_delete _ _ k fl) by done.
    replace (global_semaphore (release p fl))
      with ((fun g => g + Z.b2z (holds_global fl)) <$> global_semaphore p).
    + destruct limit, (global_semaphore p); cbn in *; try done. destruct (holds_global fl); cbn; lia.
    + unfold release. destruct (holds_slot fl), (holds_global fl); cbn;
        destruct (global_semaphore p) eqn:E; cbn; rewrite ?E; cbn; try done; f_equal; lia.
  - assert (length (providers (release p fl)) = length (providers (pool w))) as ->.
    { rewrite <- (proj1 Hss). unfold release.
      destruct (holds_slot fl), (holds_global fl); cbn; rewrite ?length_alter; done. }
    by apply map_Forall_delete.
Qed.

Lemma accounted_pool limit w p :
  accounted limit w -> same_slots (providers (pool w)) (providers p) ->
  global_semaphore p = global_semaphore (pool w) -> accounted limit (mkWorld p (flights w)).
Proof.
  intros (Hs & Hg & Hf) Hss Hgs. unfold accounted; cbn. split_and!.
  - by apply (same_slots_ok _ _ _ Hss).
  - by rewrite Hgs.
  - by rewrite (proj1 Hss).
Qed.

Lemma running_on_self fl s :
  running_on (fl_entry fl) (set_stage fl s) = holds_slot (set_stage fl s).
Proof. unfold running_on. cbn. by rewrite bool_decide_eq_true_2, andb_true_r. Qed.
Lemma running_on_other i fl s : fl_entry fl <> i -> running_on i (set_stage fl s) = false.
Proof. intros. unfold running_on. cbn. by rewrite bool_decide_eq_false_2, andb_false_r. Qed.

Lemma select_bound r clock seed p route idx :
  (select r clock seed (routable_providers p) route).2 = Some (Ok idx) ->
  (idx < length (providers p))%nat.
Proof.
  assert (Hc : forall i, i ∈ candidates clock (routable_providers p) route ->
                 (i < length (providers p))%nat).
  { intros i. unfold candidates. rewrite list_elem_of_fmap. intros ([j q] & -> & [_ Hin]%list_elem_of_filter).
    apply elem_of_lookup_imap in Hin as (j' & q' & [= -> ->] & Hq%lookup_lt_Some).
    unfold routable_providers in Hq. by rewrite length_fmap in Hq. }
  unfold select. destruct (preferred_provider_id route) as [pid|].
  - cbn. intros [= H]. unfold select_preferred in H. destruct (position _ _) as [i|] eqn:E; [|done].
    destruct (routable_providers p !! i) as [q|] eqn:Eq; cbn in H; [|done]. case_match; simplify_eq.
    apply lookup_lt_Some in Eq. unfold routable_providers in Eq. by rewrite length_fmap in Eq.
  - destruct (candidates _ _ _) as [|c cs] eqn:Ec; [done|]. rewrite <- Ec in *.
    assert (Hn : forall i, i ∈ narrow (after_checks clock (routable_providers p)) route
                   (candidates clock (routable_providers p) route) -> (i < length (providers p))%nat).
    { intros i Hi. apply Hc. unfold narrow in Hi. destruct (preferred_tags route); [done|].
      destruct (filter _ _) as [|x xs] eqn:Ef; [done|]. rewrite <- Ef in Hi.
      by apply list_elem_of_filter in Hi as [_ ?]. }
    destruct (m ← preferred_model route; _) as [j|] eqn:Em; cbn.
    + intros [= ->]. destruct (preferred_model route) as [m|]; [|done]. cbn in Em.
      apply find_map_Some in Em as (a & Ha & Hma). case_match; simplify_eq. by apply Hn.
    + destruct (apply_strategy _ _ _ _) as [r' o] eqn:Es; cbn. destruct o; [|done]. intros [= ->].
      apply Hn. by apply (apply_strategy_in r seed _ _ idx (f_equal snd Es)).
Qed.

Lemma accounted_select limit w fid streaming clock seed route w' :
  accounted limit w -> exec w (Select fid streaming clock seed route) = Some w' ->
  accounted limit w'.
Proof.
  intros Ha. cbn. case_decide as Hfid; [|done].
  pose proof (select_length (router (pool w)) clock seed (pool w) route) as Hl.
  pose proof (select_bound (router (pool w)) clock seed (pool w) route) as Hb.
  destruct (select _ _ _ _ _) as [[r ps] choice]. cbn in Hl, Hb.
  pose proof (same_slots_select (pool w) r ps Hl) as Hss.
  assert (Ha' : accounted limit (mkWorld (after_select (pool w) r ps) (flights w)))
    by (by apply accounted_pool).
  destruct choice as [[idx|e]|]; intros [= <-]; try done.
  destruct Ha' as (Hs & Hg & Hf). unfold accounted. cbn [pool flights] in *.
  assert (Hc : forall P, P (mkFlight idx streaming WaitGlobal) = false ->
    count P (<[fid := mkFlight idx streaming WaitGlobal]> (flights w)) = count P (flights w)).
  { intros P HP. rewrite count_insert, HP by done. cbn; lia. }
  split_and!.
  - intros i e Hi. rewrite Hc by done. by apply Hs.
  - by rewrite Hc.
  - apply map_Forall_insert_2; [|done]. cbn [fl_entry]. rewrite (proj1 Hss). by apply Hb.
Qed.

Lemma accounted_acquire_global limit w fid w' :
  accounted limit w -> exec w (AcquireGlobal fid) = Some w' -> accounted limit w'.
Proof.
  intros Ha. cbn. destruct (flights w !! fid) as [fl|] eqn:Hk; [|done]. cbn.
  destruct (fl_stage fl) eqn:Est; try (by destruct (global_semaphore (pool w))).
  destruct Ha as (Hs & Hg & Hf).
  assert (Hr : forall i, running_on i (set_stage fl WaitProvider) = running_on i fl)
    by (intros i; unfold running_on, holds_slot; by rewrite Est).
  assert (Hh : holds_global fl = false) by (unfold holds_global; by rewrite Est).
  destruct (global_semaphore (pool w)) as [g|] eqn:Eg.
  - destruct (Z.ltb_spec 0 g); [|done]. intros [= <-]. unfold accounted. cbn [pool flights].
    split_and!.
    + intros i e Hi. rewrite (count_update _ _ _ fl), Hr by done.
      replace (_ - _ + _) with (count (running_on i) (flights w)) by lia. by apply Hs.
    + cbn. rewrite Eg, (count_update _ _ _ fl), Hh by done. cbn.
      destruct limit; cbn in *; [|done]. lia.
    + apply map_Forall_insert_2; [|done]. by apply (Hf fid fl).
  - intros [= <-]. unfold accounted. cbn [pool flights]. split_and!.
    + intros i e Hi. rewrite (count_update _ _ _ fl), Hr by done.
      replace (_ - _ + _) with (count (running_on i) (flights w)) by lia. by apply Hs.
    + rewrite Eg. by destruct limit.
    + apply map_Forall_insert_2; [|done]. by apply (Hf fid fl).
Qed.

Lemma accounted_acquire_provider limit w fid w' :
  accounted limit w -> exec w (AcquireProvider fid) = Some w' -> accounted limit w'.
Proof.
  intros (Hs & Hg & Hf). cbn. destruct (flights w !! fid) as [fl|] eqn:Hk; [|done]. cbn.
  destruct (providers (pool w) !! fl_entry fl) as [e|] eqn:He; [|done]. cbn.
  destruct (fl_stage fl) eqn:Est; try done. destruct (Z.ltb_spec 0 (semaphore e)); [|done].
  intros [= <-]. unfold accounted. cbn [pool flights].
  assert (Hns : holds_slot fl = false) by (unfold holds_slot; by rewrite Est).
  split_and!.
  - unfold update, with_providers; cbn [providers].
    apply (slots_ok_alter _ (fun i => count (running_on i) (flights w))); [done| |].
    + intros j Hj. rewrite (count_update _ _ _ fl), running_on_other by done.
      unfold running_on at 2. rewrite Hns. cbn. lia.
    + intros e' He'. rewrite He in He'. injection He' as <-. intros Hok.
      rewrite (count_update _ _ _ fl), running_on_self by done.
      unfold running_on at 2. rewrite Hns. cbn. rewrite Z.sub_0_r. by apply take_slot_ok.
  - cbn. rewrite (count_update _ _ _ fl) by done.
    assert (holds_global fl = true) as -> by (unfold holds_global; by rewrite Est).
    cbn. by replace (_ - 1 + 1) with (count holds_global (flights w)) by lia.
  - unfold update, with_providers; cbn [providers]. rewrite length_alter.
    apply map_Forall_insert_2; [|done]. by apply (Hf fid fl).
Qed.

Lemma stream_item_slots e st item n1 n2 :
  let e' := (stream_item e st item n1 n2).1 in
  semaphore e' = semaphore e /\ max_concurrency e' = max_concurrency e /\
  active_requests e' = active_requests e.
Proof. unfold stream_item. by repeat case_match. Qed.
Lemma stream_end_slots st : keeps_slots (fun e => stream_end e st).
Proof. intros e. unfold stream_end. case_match; [done|]. by destruct (default _ _). Qed.

Lemma accounted_exec limit w ev w' : accounted limit w -> exec w ev = Some w' -> accounted limit w'.
Proof.
  intros Ha. destruct ev; [by apply accounted_select|by apply accounted_acquire_global
    |by apply accounted_acquire_provider|..]; cbn;
    try (destruct (flights w !! fid) as [fl|] eqn:Hk; [|done]; cbn).
  - destruct (fl_stage fl) eqn:Est, (fl_streaming fl); try done. intros [= <-].
    destruct outcome as [[i o]|err]; [|destruct (same_slots_fail (pool w) (fl_entry fl) err now1 now2)];
      eapply accounted_release; try done. apply same_slots_alter. by intros e.
  - destruct (fl_stage fl) eqn:Est, (fl_streaming fl) eqn:Es; try done.
    destruct outcome as [[]|err]; intros [= <-].
    + eapply accounted_stage; try done; [| |apply same_slots_refl];
        unfold holds_slot, holds_global; by rewrite Est.
    + destruct (same_slots_fail (pool w) (fl_entry fl) err now1 now2).
      by eapply accounted_release.
  - destruct (providers (pool w) !! fl_entry fl) as [e|] eqn:He; [|done]. cbn.
    destruct (fl_stage fl) as [| | |st] eqn:Est; try done.
    pose proof (stream_item_slots e st item now1 now2) as Hslots.
    destruct (stream_item e st item now1 now2) as [e' st']. cbn in Hslots. intros [= <-].
    eapply accounted_stage; try done; [by unfold holds_slot; rewrite Est
      |by unfold holds_global; rewrite Est|].
    split; [by cbn; rewrite length_alter|]. intros j e0. cbn.
    destruct (decide (j = fl_entry fl)) as [->|].
    + rewrite list_lookup_alter_eq, He. intros [= <-]. eauto.
    + rewrite list_lookup_alter_ne by done. eauto.
  - destruct (fl_stage fl) as [| | |st]; try done. intros [= <-].
    eapply accounted_release; try done. apply same_slots_alter, stream_end_slots.
  - intros [= <-]. apply (accounted_release limit w); [done..|apply same_slots_refl|done].
  - intros [= <-]. destruct (same_slots_freeze (pool w) provider_id0 reason now1 now2).
    by apply accounted_pool.
  - intros [= <-]. destruct (same_slots_thaw (pool w) provider_id0 outcome now1 now2).
    by apply accounted_pool.
Qed.

Lemma exec_all_cons w ev evs :
  exec_all w (ev :: evs) = (w' ← exec w ev; exec_all w' evs).
Proof.
  unfold exec_all. cbn. destruct (exec w ev) as [w'|]; [done|]. cbn.
  induction evs as [|ev' evs IH]; [done|]. exact IH.
Qed.
Lemma accounted_exec_all limit evs w w' :
  accounted limit w -> exec_all w evs = Some w' -> accounted limit w'.
Proof.
  revert w. induction evs as [|ev evs IH]; intros w Ha; [by intros [= <-]|].
  rewrite exec_all_cons. destruct (exec w ev) as [w1|] eqn:E; [|done]. cbn.
  by apply IH, (accounted_exec limit w ev).
Qed.

Lemma accounted_init ps c :
  Forall (fun p => 0 <= Provider.max_concurrency p <= usize_MAX) ps ->
  match max_global_concurrency c with Some g => 0 <= g | None => True end ->
  accounted (max_global_concurrency c) (mkWorld (from_providers ps c) ∅).
Proof.
  intros Hps Hg. unfold accounted. cbn [pool flights]. split_and!; [| |apply map_Forall_empty].
  - intros i e. cbn. rewrite list_lookup_fmap. destruct (ps !! i) as [p|] eqn:Hp; [|done]. cbn.
    intros [= <-]. pose proof (list.Forall_lookup_1 _ _ _ _ Hps Hp) as Hm. cbn in Hm.
    rewrite count_empty. unfold new_entry. destruct (default _ _). unfold entry_ok; cbn [semaphore max_concurrency active_requests]. lia.
  - rewrite count_empty; cbn. destruct (max_global_concurrency c); cbn; [|done]. lia.
Qed.

(** ** Lemmas: one call *)
Lemma in_call_backoff_bound attempt class :
  match class with RateLimited (Some d) => 0 <= d | _ => True end ->
  0 <= in_call_backoff attempt class <= MAX_IN_CALL_BACKOFF.
Proof.
  intros Hd. unfold in_call_backoff, MAX_IN_CALL_BACKOFF. cbv zeta.
  set (shift := Z.min _ 4).
  assert (0 <= Z.shiftl 1 shift) by (apply Z.shiftl_nonneg; lia).
  destruct class as [|[d|]| | | | | | | | | | | |]; lia.
Qed.

Lemma nanos_pos z : 0 < z -> 0 < nanos z.
Proof. unfold nanos. lia. Qed.

(** How long [error] freezes a provider, [None] for good. *)
Definition freeze_until (m : FreezeManager) (error : ProviderError) (now2 : Z) : option Z :=
  let class := classify_provider_error error in
  if is_permanent class then None
  else Some (now2 + freeze_target m (nanos <$> freeze_duration class)).

Definition retry_after_ok (error : ProviderError) : Prop :=
  match error with Provider.RateLimited _ secs => 0 <= secs | _ => True end.

Lemma classify_http_no_retry_after s d : classify_http_message s <> Some (RateLimited (Some d)).
Proof.
  unfold classify_http_message. destruct (strip_prefix "HTTP " s) as [rest|]; [|done]. cbn.
  destruct (parse_u16 _) as [n|]; [|done]. cbn. intros [= H]. revert H.
  unfold classify, classify_auth_error, classify_forbidden_error, classify_bad_request,
    classify_from_body. by repeat case_match.
Qed.
Lemma classify_retry_after error d :
  classify_provider_error error = RateLimited (Some d) ->
  exists provider, error = Provider.RateLimited provider d.
Proof.
  destruct error; cbn; try done; [naive_solver|..].
  - destruct (classify_http_message message) eqn:E; cbn; [|by case_match].
    intros ->. by apply classify_http_no_retry_after in E.
  - destruct (classify_http_message message) eqn:E; cbn.
    + intros ->. by apply classify_http_no_retry_after in E.
    + unfold classify_from_body. by repeat case_match.
Qed.
Lemma freeze_duration_nonneg error :
  retry_after_ok error ->
  match nanos <$> freeze_duration (classify_provider_error error) with Some d => 0 <= d | None => True end.
Proof.
  intros Hr. destruct (classify_provider_error error) as [|[d|]| | | | | | | | | | | |] eqn:E; cbn;
    try done; try (unfold nanos; lia).
  apply classify_retry_after in E as [p ->]. cbn in Hr. unfold nanos. lia.
Qed.

Lemma classify_and_freeze_holds m error now1 now2 t :
  wf m -> 1 <= wrapping 32 (consecutive_freezes (state m) + 1) -> retry_after_ok error ->
  should_freeze (classify_provider_error error) = true ->
  match freeze_until m error now2 with Some u => t < u | None => True end ->
  st_is_frozen (status (classify_and_freeze m error now1 now2) t) = true.
Proof.
  intros Hm Hk Hr Hf Ht. unfold classify_and_freeze. rewrite Hf. cbn [negb].
  unfold freeze_until in Ht. destruct (is_permanent _); [done|].
  apply freeze_holds; try done. by apply freeze_duration_nonneg.
Qed.

Lemma wf_classify_and_freeze m error now1 now2 : wf m -> wf (classify_and_freeze m error now1 now2).
Proof.
  intros Hm. unfold classify_and_freeze. destruct (negb _); [done|]. destruct (is_permanent _).
  - exact (wf_apply m (OpFreezePermanent _ now1) Hm).
  - exact (wf_apply m (OpFreeze _ _ now1 now2) Hm).
Qed.

Definition ids (p : ProviderPoolImpl) : list string := (fun e => id (provider e)) <$> providers p.

Lemma find_entry_unique p i e :
  NoDup (ids p) -> providers p !! i = Some e -> find_entry p (id (provider e)) = Some i.
Proof.
  unfold ids, find_entry. generalize (providers p) as l. intros l. revert i.
  induction l as [|x l IH]; intros i Hnd Hi; [done|]. cbn.
  rewrite fmap_cons in Hnd. apply list.NoDup_cons in Hnd as [Hx Hnd].
  destruct i as [|i]; cbn in Hi.
  - injection Hi as ->. by rewrite bool_decide_eq_true_2.
  - rewrite bool_decide_eq_false_2.
    + by rewrite (IH i).
    + intros Heq. apply Hx. rewrite Heq. apply list_elem_of_fmap. exists e. split; [done|].
      by eapply list_elem_of_lookup_2.
Qed.

Lemma lookup_update p i j f e :
  providers p !! j = Some e ->
  providers (update p i f) !! j = Some (if decide (j = i) then f e else e).
Proof.
  intros He. cbn. case_decide as Hd; subst.
  - by rewrite list_lookup_alter_eq, He.
  - by rewrite list_lookup_alter_ne.
Qed.
Lemma ids_update p i f : (forall e, provider (f e) = provider e) -> ids (update p i f) = ids p.
Proof.
  intros Hf. unfold ids; cbn. apply list_eq. intros j. rewrite !list_lookup_fmap.
  destruct (decide (j = i)) as [->|].
  - rewrite list_lookup_alter_eq. destruct (providers p !! i); cbn; [|done]. by rewrite Hf.
  - by rewrite list_lookup_alter_ne.
Qed.

(** The failure path on the provider that failed. *)
Lemma fail_entry p idx e error now1 now2 :
  NoDup (ids p) -> providers p !! idx = Some e ->
  providers (fail p idx error now1 now2) !! idx
  = Some (set_freeze (classify_and_freeze (freeze_manager e) error now1 now2)
            (set_metrics (record_error (metrics e)) e)) /\
  forall j, j <> idx -> providers (fail p idx error now1 now2) !! j = providers p !! j.
Proof.
  intros Hnd He. unfold fail. set (p' := update p idx _).
  assert (He' : providers p' !! idx = Some (set_metrics (record_error (metrics e)) e)).
  { unfold p'. rewrite (lookup_update p idx idx _ e He). by rewrite decide_True. }
  rewrite He'. unfold report_error.
  rewrite (find_entry_unique p' idx (set_metrics (record_error (metrics e)) e));
    [|by unfold p'; rewrite ids_update|done].
  split.
  - rewrite (lookup_update p' idx idx _ _ He'). by rewrite decide_True.
  - intros j Hj. cbn. by rewrite !list_lookup_alter_ne.
Qed.

Section call.
Context {Rq Rs : Type}.
Context (call : nat -> Result ProviderError (ChatResponse Rs)).

(** The backoff slept after a failed attempt. *)
Definition backoff_after (k : nat) : Z :=
  match call k with
  | Err e => in_call_backoff (Z.of_nat (S k)) (classify_provider_error e)
  | Ok _ => 0
  end.
Definition retryable (r : Result ProviderError (ChatResponse Rs)) : bool :=
  match r with Err e => is_transient (classify_provider_error e) | Ok _ => false end.

Lemma retry_loop_result :
  exists n, (1 <= n <= 3)%nat /\
    retry_loop (Z.to_nat MAX_IN_CALL_ATTEMPTS) call 0 []
    = Some (n, backoff_after <$> seq 0 (n - 1), call (n - 1)%nat) /\
    (forall k, (k < n - 1)%nat -> retryable (call k) = true) /\
    (retryable (call (n - 1)%nat) = true -> n = 3%nat).
Proof.
  assert (H0 : forall n, (n < 0)%nat -> retryable (call n) = true) by lia.
  change (Z.to_nat MAX_IN_CALL_ATTEMPTS) with 3%nat. cbn [retry_loop].
  destruct (retryable (call 0)) eqn:R0.
  - destruct (call 0%nat) as [r0|e0] eqn:E0; [done|]. cbn in R0. rewrite R0. cbn.
    destruct (retryable (call 1)) eqn:R1.
    + destruct (call 1%nat) as [r1|e1] eqn:E1; [done|]. cbn in R1. rewrite R1. cbn.
      exists 3%nat. unfold backoff_after; cbn. rewrite E0, E1. split; [lia|]. split; [|split].
      * destruct (call 2%nat); [done|]. by rewrite andb_false_r.
      * intros [|[|k]] Hk; [by rewrite E0|by rewrite E1|lia].
      * done.
    + exists 2%nat. unfold backoff_after; cbn. rewrite E0. split; [lia|]. split; [|split].
      * destruct (call 1%nat); [done|]. cbn in R1. by rewrite R1.
      * intros [|k] Hk; [by rewrite E0|lia].
      * by rewrite R1.
  - exists 1%nat. cbn. split; [lia|]. split; [|split; [lia|by rewrite R0]].
    destruct (call 0%nat); [done|]. cbn in R0. by rewrite R0.
Qed.
End call.

Lemma wf_after_select clock seed p route :
  Forall (fun e => wf (freeze_manager e)) (providers p) ->
  let '(r, ps, _) := select (router p) clock seed (routable_providers p) route in
  Forall (fun e => wf (freeze_manager e)) (providers (after_select p r ps)).
Proof.
  intros Hwf.
  assert (Hps : Forall (fun q => wf (Router.freeze_manager q))
                  (select (router p) clock seed (routable_providers p) route).1.2).
  { assert (Hr : Forall (fun q => wf (Router.freeze_manager q)) (routable_providers p))
      by (by apply Forall_fmap).
    assert (Ha : Forall (fun q => wf (Router.freeze_manager q))
                   (after_checks clock (routable_providers p))).
    { apply Forall_lookup_2. intros i q. rewrite lookup_after_checks.
      destruct (routable_providers p !! i) as [q0|] eqn:Eq; cbn; [|done]. intros [= <-].
      unfold frozen_check. destruct (fg_check _ _ _) as [m b] eqn:Ef; cbn.
      pose proof (fg_check_wf (Router.freeze_manager q0) (clock i).1 (clock i).2) as Hw.
      rewrite Ef in Hw. apply Hw. by apply (list.Forall_lookup_1 _ _ _ _ Hr Eq). }
    unfold select. destruct (preferred_provider_id route); [done|]. destruct (candidates _ _ _); [done|].
    destruct (m ← preferred_model route; _); [done|]. by destruct (apply_strategy _ _ _ _). }
  destruct (select _ _ _ _ _) as [[r ps] o]. cbn in *. clear Hwf.
  revert ps Hps. induction (providers p) as [|e l IH]; intros [|q ps] Hps; cbn; try constructor.
  - by apply Forall_cons_iff in Hps as [? _].
  - apply IH. by apply Forall_cons_iff in Hps as [_ ?].
Qed.

Definition managers (p : ProviderPoolImpl) : list FreezeManager := freeze_manager <$> providers p.

Lemma managers_update p i f : (forall e, freeze_manager (f e) = freeze_manager e) ->
  managers (update p i f) = managers p.
Proof.
  intros Hf. unfold managers; cbn. apply list_eq. intros j. rewrite !list_lookup_fmap.
  destruct (decide (j = i)) as [->|].
  - rewrite list_lookup_alter_eq. destruct (providers p !! i); cbn; [|done]. by rewrite Hf.
  - by rewrite list_lookup_alter_ne.
Qed.

(** A frozen provider is not chosen. *)
Lemma select_skips_frozen p r clock seed route idx e :
  Forall (fun e => wf (freeze_manager e)) (providers p) -> (forall i, (clock i).1 <= (clock i).2) ->
  preferred_provider_id route = None -> providers p !! idx = Some e ->
  st_is_frozen (status (freeze_manager e) (clock idx).1) = true ->
  (select r clock seed (routable_providers p) route).2 <> Some (Ok idx).
Proof.
  intros Hwf Hclock Hpref He Hf Hsel. apply select_eligible in Hsel; [|split; [by apply Forall_fmap|done]|done].
  destruct Hsel as (q & Hq & Hth & _). unfold routable_providers in Hq.
  rewrite list_lookup_fmap, He in Hq. injection Hq as <-.
  change (st_is_frozen (status (freeze_manager e) (clock idx).1) = false) in Hth. congruence.
Qed.

Lemma wf_fail p idx error now1 now2 :
  Forall (fun e => wf (freeze_manager e)) (providers p) ->
  Forall (fun e => wf (freeze_manager e)) (providers (fail p idx error now1 now2)).
Proof.
  intros Hwf. unfold fail. set (p' := update p idx _).
  assert (Hwf' : Forall (fun e => wf (freeze_manager e)) (providers p'))
    by (apply Forall_alter; [done|]; by intros e _ ?).
  destruct (providers p' !! idx); [|done]. unfold report_error. destruct (find_entry _ _); [|done].
  apply Forall_alter; [done|]. intros e _ He. by apply wf_classify_and_freeze.
Qed.

(** ** Properties *)
(** A call reaches its provider at least once and at most three times, and
    always ends: every answer but the last was a transient failure, the last is
    the call's outcome, and it is a transient failure only when it was the
    third; each retry waits at most two seconds. *)
Theorem retry_bounded {Rs} (call : nat -> Result ProviderError (ChatResponse Rs)) :
  exists n slept,
    retry_loop (Z.to_nat MAX_IN_CALL_ATTEMPTS) call 0 [] = Some (n, slept, call (n - 1)%nat) /\
    (1 <= n <= 3)%nat /\ length slept = (n - 1)%nat /\
    (forall k, (k < n - 1)%nat -> retryable (call k) = true /\
       slept !! k = Some (backoff_after call k)) /\
    (retryable (call (n - 1)%nat) = true -> n = 3%nat) /\
    Forall (fun b => b <= MAX_IN_CALL_BACKOFF) slept.
Proof.
  destruct (retry_loop_result call) as (n & Hn & Heq & Hk & Hlast).
  exists n, (backoff_after call <$> seq 0 (n - 1)). split_and!; try done; try lia.
  - by rewrite length_fmap, length_seq.
  - intros k Hlt. split; [by apply Hk|]. rewrite list_lookup_fmap.
    rewrite lookup_seq_lt by done. done.
  - apply Forall_fmap, list.Forall_forall. intros k _. unfold compose, backoff_after.
    destruct (call k); [done|]. unfold in_call_backoff. case_match; repeat case_match; lia.
Qed.

(** C5: the call routing gave to provider [idx] always ends. A success names the
    provider that served it and freezes nothing; a failure the provider is not
    to blame for freezes nothing either; any other failure takes exactly that
    provider out of every later choice that does not name it, for good or until
    its freeze ends, and leaves the other providers as they were. *)
Theorem chat_failover {Rq Rs}
    (answer : nat -> ProviderMetadata -> ChatRequest Rq -> Result ProviderError (ChatResponse Rs))
    p clock seed now1 now2 request route r ps idx e :
  Forall (fun e => wf (freeze_manager e)) (providers p) -> (forall i, (clock i).1 <= (clock i).2) ->
  select (router p) clock seed (routable_providers p) route = (r, ps, Some (Ok idx)) ->
  providers (after_select p r ps) !! idx = Some e -> NoDup (ids (after_select p r ps)) ->
  1 <= wrapping 32 (consecutive_freezes (state (freeze_manager e)) + 1) ->
  exists p' result,
    chat_completion answer p clock seed now1 now2 request route = Some (p', result) /\
    match result with
    | Ok response => provider_id response = Some (id (provider e)) /\
                     managers p' = managers (after_select p r ps)
    | Err error =>
        (should_freeze (classify_provider_error error) = false ->
         managers p' = managers (after_select p r ps)) /\
        (forall j, j <> idx -> providers p' !! j = providers (after_select p r ps) !! j) /\
        (should_freeze (classify_provider_error error) = true -> retry_after_ok error ->
         forall r' clock' seed' route',
           (forall i, (clock' i).1 <= (clock' i).2) -> preferred_provider_id route' = None ->
           match freeze_until (freeze_manager e) error now2 with
           | Some u => (clock' idx).1 < u
           | None => True
           end ->
           (select r' clock' seed' (routable_providers p') route').2 <> Some (Ok idx))
    end.
Proof.
  intros Hwf Hclock Hsel He Hnd Hk. unfold chat_completion. rewrite Hsel; cbn [mbind option_bind].
  rewrite He; cbn [mbind option_bind].
  set (call := fun n => answer n (provider e) (apply_request_defaults request e)).
  destruct (retry_loop_result call) as (n & _ & -> & _). cbn [mbind option_bind].
  pose proof (wf_after_select clock seed p route Hwf) as Hwf'. rewrite Hsel in Hwf'.
  destruct (call (n - 1)%nat) as [response|error]; eexists _, _; (split; [done|]).
  - split; [done|]. by apply managers_update.
  - destruct (fail_entry (after_select p r ps) idx e error now1 now2 Hnd He) as [Hidx Hoth].
    split; [|split; [done|]].
    + intros Hs. unfold managers. apply list_eq. intros j. rewrite !list_lookup_fmap.
      destruct (decide (j = idx)) as [->|Hj]; [|by rewrite Hoth].
      rewrite Hidx, He. cbn. unfold classify_and_freeze. by rewrite Hs.
    + intros Hs Hr r' clock' seed' route' Hclock' Hpref Hu.
      eapply select_skips_frozen; try done; [by apply wf_fail|].
      cbn. apply classify_and_freeze_holds; try done.
      by apply (list.Forall_lookup_1 _ _ _ _ Hwf' He).
Qed.

(** C6: however calls, streams, cancellations, freezes and thaws interleave, a
    provider never serves more calls than its limit, its active count is the
    number it serves, and the global limit covers all calls past its gate; when
    nothing is in flight every permit is back. *)
Theorem pool_accounting ps c evs w :
  Forall (fun p => 0 <= Provider.max_concurrency p <= usize_MAX) ps ->
  match max_global_concurrency c with Some g => 0 <= g | None => True end ->
  exec_all (mkWorld (from_providers ps c) ∅) evs = Some w ->
  (forall i e, providers (pool w) !! i = Some e ->
     active_requests e = count (running_on i) (flights w) /\
     active_requests e = max_concurrency e - semaphore e /\
     0 <= semaphore e) /\
  match max_global_concurrency c, global_semaphore (pool w) with
  | Some limit, Some g => 0 <= g /\ g + count holds_global (flights w) = limit
  | None, None => True
  | _, _ => False
  end /\
  (flights w = ∅ ->
     (forall i e, providers (pool w) !! i = Some e ->
        semaphore e = max_concurrency e /\ active_requests e = 0) /\
     global_semaphore (pool w) = max_global_concurrency c).
Proof.
  intros Hps Hg Hex.
  pose proof (accounted_exec_all _ evs _ w (accounted_init ps c Hps Hg) Hex) as (Hs & Hgl & _).
  split_and!.
  - intros i e He. destruct (Hs i e He) as (? & ? & ? & ? & ?). split; [done|]. split; lia.
  - exact Hgl.
  - intros Hno. rewrite Hno in *. split.
    + intros i e He. destruct (Hs i e He) as (? & Hsum & ? & ? & ->).
      rewrite count_empty in *. lia.
    + rewrite count_empty in Hgl. destruct (max_global_concurrency c), (global_semaphore (pool w));
        cbn in Hgl; try done. f_equal. lia.
Qed.

(** A stream polled to its end settles once: by its first error, which is
    counted and freezes the provider as that error asks, or else by its end,
    with the last usage any chunk carried; nothing after the first error
    counts. *)
Theorem stream_settles_once e items :
  consume_stream e items =
  match find_map (fun it => match it with (Err err, t) => Some (err, t) | _ => None end) items with
  | Some (err, (now1, now2)) =>
      set_freeze (classify_and_freeze (freeze_manager e) err now1 now2)
        (set_metrics (record_error (metrics e)) e)
  | None =>
      let '(input, output) :=
        default (0, 0) (list.last (omap (fun it => match it with (Ok u, _) => u | _ => None end) items)) in
      set_metrics (record_success_with_cost (metrics e) input output
        (cost_per_1k_input (provider e)) (cost_per_1k_output (provider e))) e
  end.
Proof.
  unfold consume_stream.
  assert (Hst : fold_left (fun '(e, st) '(item, (n1, n2)) => stream_item e st item n1 n2) items
      (e, new_stream) =
    let u := list.last (omap (fun it => match it with (Ok u, _) => u | _ => None end) items) in
    match find_map (fun it => match it with (Err err, t) => Some (err, t) | _ => None end) items with
    | Some (err, (n1, n2)) =>
        (set_freeze (classify_and_freeze (freeze_manager e) err n1 n2)
           (set_metrics (record_error (metrics e)) e), mkStream u true)
    | None => (e, mkStream u false)
    end).
  { induction items as [|[item [n1 n2]] items IH] using rev_ind; [done|].
    rewrite fold_left_app, IH, find_map_app, omap_app. cbn.
    destruct (find_map _ items) as [[err [m1 m2]]|]; destruct item as [[u|]|err']; cbn;
      rewrite ?app_nil_r, ?last_snoc; done. }
  rewrite Hst. cbv zeta. by destruct (find_map _ items) as [[err [n1 n2]]|].
Qed.

(** ** Witnesses *)
Definition sample_meta (name : string) : ProviderMetadata :=
  mkMetadata name OpenAi "m" ["chat"] [Text] 2 8192 (f64_of 1) (f64_of 2) Native.
Definition sample_config : ProviderPoolConfig := mkConfig 30 3600 (Some 2) Priority 60 [].
Definition sample_pool : ProviderPoolImpl :=
  from_providers [sample_meta "a"; sample_meta "b"] sample_config.
(** Provider [a] is overloaded on every attempt. *)
Definition sample_answer (n : nat) (p : ProviderMetadata) (_ : ChatRequest unit)
    : Result ProviderError (ChatResponse unit) :=
  if String.eqb (id p) "a" then Err (Provider.ServerError "a" "HTTP 503: busy")
  else Ok (mkResponse 10 5 None tt).
Definition at_time (t : Z) : nat -> Z * Z := fun _ => (t, t).
(** After [a] fails, the next call without a named provider goes elsewhere. *)
Lemma chat_failover_witness :
  exists p' result,
    chat_completion sample_answer sample_pool (at_time 0) 0 5 6 (mkRequest None None tt) default_route
    = Some (p', result) /\
    (select (router p') (at_time 100) 0 (routable_providers p') default_route).2 <> Some (Ok 0%nat).
Proof.
  destruct (chat_failover sample_answer sample_pool (at_time 0) 0 5 6 (mkRequest None None tt)
    default_route (router sample_pool) (routable_providers sample_pool) 0
    (new_entry sample_config (sample_meta "a")))
    as (p' & result & Hc & H).
  - repeat constructor; vm_compute; congruence.
  - intros i. apply Z.le_refl.
  - vm_compute. reflexivity.
  - vm_compute. reflexivity.
  - apply (bool_decide_unpack _). vm_compute. exact I.
  - vm_compute. congruence.
  - exists p', result. split; [exact Hc|].
    assert (result = Err (Provider.ServerError "a" "HTTP 503: busy")) as ->
      by (vm_compute in Hc; congruence).
    apply (proj2 (proj2 H)); [vm_compute; reflexivity|exact I|intros; apply Z.le_refl|reflexivity
      |vm_compute; reflexivity].
Defined.

(** A call and a stream share the global limit of 2; the failed call gives its
    permits back while the stream keeps its own. *)
Definition sample_events : list Event :=
  [Select 0 false (at_time 0) 0 default_route; Select 1 true (at_time 1) 0 default_route;
   AcquireGlobal 0; AcquireGlobal 1; AcquireProvider 0; AcquireProvider 1; Opened 1 (Ok tt) 2 3;
   Item 1 (Ok (Some (7, 9))) 4 5; Answer 0 (Err (Provider.NetworkError "reset")) 6 7].
Lemma pool_accounting_witness :
  exists w, exec_all (mkWorld sample_pool ∅) sample_events = Some w /\
    exec w (Select 2 false (at_time 8) 0 default_route) <> None /\
    global_semaphore (pool w) = Some 1 /\ count holds_global (flights w) = 1.
Proof.
  destruct (exec_all (mkWorld sample_pool ∅) sample_events) as [w|] eqn:E;
    [|vm_compute in E; discriminate].
  exists w. split; [reflexivity|].
  destruct (pool_accounting [sample_meta "a"; sample_meta "b"] sample_config sample_events w) as (_ & H & _).
  - repeat constructor; vm_compute; congruence.
  - vm_compute; congruence.
  - exact E.
  - vm_compute in E. injection E as <-. split_and!; [vm_compute; congruence|reflexivity|].
    cbn in H. destruct H as [_ H]. clear -H. cbn in *. lia.
Defined.
