(* ===== verification/Sse.v ===== *)
(** * Streamed provider responses

    Models [crates/hf-provider/src/sse.rs], the limits of
    [crates/hf-core/src/provider_stream_limits.rs] and the read loop its
    consumers run.  Text is its UTF-8 bytes; the HTTP body is the list of chunks
    the transport delivers. *)
From S2P Require Import Prelude Provider.

(** U+FFFD. *)
Definition replacement : bytes := [byte 239; byte 191; byte 189].

Arguments replacement : simpl never.

(** ** UTF-8 as [std::str::from_utf8] reads it *)

(** The ranges of the continuation bytes after a leading byte; [None] when it
    cannot lead. *)
Definition continuations (c : Ascii.ascii) : option (list (Z * Z)) :=
  let b := code c in
  let any := (128, 191) in
  if b <? 128 then Some []
  else if (194 <=? b) && (b <=? 223) then Some [any]
  else if b =? 224 then Some [(160, 191); any]
  else if b =? 237 then Some [(128, 159); any]
  else if (225 <=? b) && (b <=? 239) then Some [any; any]
  else if b =? 240 then Some [(144, 191); any; any]
  else if (241 <=? b) && (b <=? 243) then Some [any; any; any]
  else if b =? 244 then Some [(128, 143); any; any]
  else None.

(** What the bytes start with: a character, an invalid sequence, the beginning
    of a character cut short, or nothing; with the number of bytes. *)
Inductive Unit := UEnd | UChar (n : nat) | UInvalid (n : nat) | UPartial.
Fixpoint follow (n : nat) (ranges : list (Z * Z)) (rest : bytes) : Unit :=
  match ranges with
  | [] => UChar n
  | (lo, hi) :: ranges =>
      match rest with
      | [] => UPartial
      | c :: rest =>
          if (lo <=? code c) && (code c <=? hi) then follow (S n) ranges rest else UInvalid n
      end
  end.
Definition next_unit (b : bytes) : Unit :=
  match b with
  | [] => UEnd
  | c :: rest => match continuations c with None => UInvalid 1 | Some ranges => follow 1 ranges rest end
  end.

(** [Utf8Error]: [valid_up_to] and [error_len]. *)
Inductive Utf8 := Utf8Ok | Utf8Err (valid_up_to : nat) (error_len : option nat).
Fixpoint from_utf8 (fuel : nat) (b : bytes) : Utf8 :=
  match fuel with
  | O => Utf8Ok
  | S fuel =>
      match next_unit b with
      | UEnd => Utf8Ok
      | UPartial => Utf8Err 0 None
      | UInvalid n => Utf8Err 0 (Some n)
      | UChar n =>
          match from_utf8 fuel (drop n b) with
          | Utf8Ok => Utf8Ok
          | Utf8Err k e => Utf8Err (n + k) e
          end
      end
  end.

(** ** Limits *)
Inductive ResponseStreamBudget := Wire | Decoded | Frame.
Definition budget_name (b : ResponseStreamBudget) : string :=
  match b with Wire => "wire_bytes" | Decoded => "decoded_bytes" | Frame => "frame_bytes" end.
Record ResponseStreamLimits := mkLimits {
  wire_limit : Z;
  decoded_limit : Z;
  frame_limit : Z;
}.
Definition resolve (c : ResponseStreamLimits) : Result string ResponseStreamLimits :=
  let check (name : string) (value ceiling : Z) :=
    if (value =? 0) || (ceiling <? value)
    then Some ("response stream " +:+ name +:+ " must be within 1..=" +:+ pretty ceiling) else None in
  let mib := 1024 * 1024 in
  match check "wire_bytes" (wire_limit c) (256 * mib) with
  | Some e => Err e
  | None =>
      match check "decoded_bytes" (decoded_limit c) (768 * mib) with
      | Some e => Err e
      | None =>
          match check "frame_bytes" (frame_limit c) (256 * mib) with Some e => Err e | None => Ok c end
      end
  end.

(** ** The receiver *)
Inductive StreamFraming := Sse | Ndjson.

Record SseStreamState := mkState {
  byte_stream : option (list (Result string bytes));
  pending : bytes;
  limits : ResponseStreamLimits;
  framing : StreamFraming;
  wire_bytes : Z;
  decoded_bytes : Z;
  buffer : bytes;
  bytes_remainder : bytes;
  done : bool;
}.
Definition new (stream : list (Result string bytes)) (l : ResponseStreamLimits) (f : StreamFraming)
    : SseStreamState := mkState (Some stream) [] l f 0 0 [] [] false.

Definition limit_error (s : SseStreamState) (b : ResponseStreamBudget) : ProviderError :=
  ResponseStreamLimitExceeded (budget_name b)
    (match b with
     | Wire => wire_limit (limits s)
     | Decoded => decoded_limit (limits s)
     | Frame => frame_limit (limits s)
     end).

Definition with_buffer (b : bytes) (s : SseStreamState) : SseStreamState :=
  mkState (byte_stream s) (pending s) (limits s) (framing s) (wire_bytes s) (decoded_bytes s) b
    (bytes_remainder s) (done s).
Definition with_remainder (r : bytes) (s : SseStreamState) : SseStreamState :=
  mkState (byte_stream s) (pending s) (limits s) (framing s) (wire_bytes s) (decoded_bytes s) (buffer s)
    r (done s).
Definition with_pending (p : bytes) (s : SseStreamState) : SseStreamState :=
  mkState (byte_stream s) p (limits s) (framing s) (wire_bytes s) (decoded_bytes s) (buffer s)
    (bytes_remainder s) (done s).
Definition with_stream (st : option (list (Result string bytes))) (s : SseStreamState) : SseStreamState :=
  mkState st (pending s) (limits s) (framing s) (wire_bytes s) (decoded_bytes s) (buffer s)
    (bytes_remainder s) (done s).
Definition finished (s : SseStreamState) : SseStreamState :=
  mkState (byte_stream s) (pending s) (limits s) (framing s) (wire_bytes s) (decoded_bytes s) (buffer s)
    (bytes_remainder s) true.

Definition terminate (s : SseStreamState) : SseStreamState :=
  mkState None [] (limits s) (framing s) (wire_bytes s) (decoded_bytes s) [] [] true.

Definition append_text (s : SseStreamState) (text : bytes) : SseStreamState * Result ProviderError unit :=
  if decoded_limit (limits s) - decoded_bytes s <? zlen text then (s, Err (limit_error s Decoded))
  else if frame_limit (limits s) - zlen (buffer s) <? zlen text then (s, Err (limit_error s Frame))
  else (mkState (byte_stream s) (pending s) (limits s) (framing s) (wire_bytes s)
          (decoded_bytes s + zlen text) (buffer s ++ text) (bytes_remainder s) (done s), Ok tt).

(** The loop of [decode_bytes]; each turn drops a byte at least. *)
Fixpoint decode_loop (fuel : nat) (s : SseStreamState) (remaining : bytes)
    : SseStreamState * Result ProviderError unit :=
  match fuel with
  | O => (s, Ok tt)
  | S fuel =>
      match from_utf8 (length remaining) remaining with
      | Utf8Ok => append_text s remaining
      | Utf8Err valid error_len =>
          match append_text s (take valid remaining) with
          | (s, Err e) => (s, Err e)
          | (s, Ok _) =>
              match error_len with
              | None =>
                  let tail := drop valid remaining in
                  if frame_limit (limits s) - zlen (buffer s) <? zlen tail
                  then (s, Err (limit_error s Frame))
                  else (with_remainder (bytes_remainder s ++ tail) s, Ok tt)
              | Some invalid =>
                  match append_text s replacement with
                  | (s, Err e) => (s, Err e)
                  | (s, Ok _) => decode_loop fuel s (drop (valid + invalid) remaining)
                  end
              end
          end
      end
  end.
Definition decode_bytes (s : SseStreamState) (b : bytes) : SseStreamState * Result ProviderError unit :=
  let combined := bytes_remainder s ++ b in
  decode_loop (S (length combined)) (with_remainder [] s) combined.

Definition ends_with (b suffix : bytes) : bool := bool_decide (suffix `suffix_of` b).
Definition complete (f : StreamFraming) (b : bytes) : bool :=
  match f with
  | Sse => ends_with b [LF; LF] || ends_with b [CR; LF; CR; LF]
  | Ndjson => ends_with b [LF]
  end.

(** [while !self.pending.is_empty()]. *)
Fixpoint receive_loop (fuel : nat) (s : SseStreamState) : SseStreamState * Result ProviderError bool :=
  match fuel, pending s with
  | S fuel, (_ :: _) as p =>
      let capacity := Z.min (frame_limit (limits s) - zlen (buffer s) - zlen (bytes_remainder s))
                            (decoded_limit (limits s) - decoded_bytes s) + 1 in
      let window := Z.to_nat (Z.min (zlen p) capacity) in
      let count := match position (fun c => bool_decide (c = LF)) (take window p) with
                   | Some i => S i
                   | None => window
                   end in
      match decode_bytes (with_pending (drop count p) s) (take count p) with
      | (s, Err e) => (s, Err e)
      | (s, Ok _) => if complete (framing s) (buffer s) then (s, Ok true) else receive_loop fuel s
      end
  | _, _ => (s, Ok true)
  end.

Definition receive_next (s : SseStreamState) : SseStreamState * Result ProviderError bool :=
  match pending s with
  | _ :: _ => receive_loop (length (pending s)) s
  | [] =>
      match byte_stream s with
      | Some (Ok b :: stream) =>
          if wire_limit (limits s) - wire_bytes s <? zlen b
          then (with_stream (Some stream) s, Err (limit_error s Wire))
          else
            let s := mkState (Some stream) b (limits s) (framing s) (wire_bytes s + zlen b)
                       (decoded_bytes s) (buffer s) (bytes_remainder s) (done s) in
            receive_loop (length b) s
      | Some (Err error :: stream) =>
          (with_stream (Some stream) s, Err (NetworkError ("stream read error: " +:+ error)))
      | Some [] | None =>
          let s := with_stream None s in
          match bytes_remainder s with
          | [] => (finished s, Ok false)
          | _ =>
              match append_text (with_remainder [] s) replacement with
              | (s, Err e) => (s, Err e)
              | (s, Ok _) => (finished s, Ok false)
              end
          end
      end
  end.

Definition read_next (s : SseStreamState) : SseStreamState * Result ProviderError bool :=
  if done s then (s, Ok false)
  else
    match receive_next s with
    | (s, Err e) => (terminate s, Err e)
    | r => r
    end.

(** ** Extraction *)
Fixpoint find_sub (p b : bytes) : option nat :=
  if bool_decide (p `prefix_of` b) then Some O
  else match b with [] => None | _ :: b => S <$> find_sub p b end.

(** [str::lines]: without the line ending, a final empty line dropped. *)
Fixpoint split_lines (cur b : bytes) : list bytes :=
  match b with
  | [] => match cur with [] => [] | _ => [cur] end
  | c :: b =>
      if bool_decide (c = LF)
      then (match list.last cur with
            | Some d => if bool_decide (d = CR) then take (pred (length cur)) cur else cur
            | None => cur
            end) :: split_lines [] b
      else split_lines (cur ++ [c]) b
  end.
Definition data_of_line (line : bytes) : option string :=
  let line := trim (String.string_of_list_ascii line) in
  data ← drop_prefix line "data:"; Some (trim data).

Definition event_data (raw_event : bytes) : string :=
  join (String LF EmptyString) (omap data_of_line (split_lines [] raw_event)).
Definition is_newline (c : Ascii.ascii) : bool := bool_decide (c = LF) || bool_decide (c = CR).

Definition extract_sse_data (b : bytes) : option (string * bytes) :=
  boundary ← match find_sub [LF; LF] b, find_sub [CR; LF; CR; LF] b with
             | Some x, Some y => Some (Nat.min x y)
             | Some x, None => Some x
             | None, y => y
             end;
  let rest := drop boundary b in
  Some (event_data (take boundary b), drop (length (take_while is_newline rest)) rest).

Definition extract_json_line (b : bytes) : option (string * bytes) :=
  newline_pos ← position (fun c => bool_decide (c = LF)) b;
  Some (String.string_of_list_ascii (take (S newline_pos) b), drop (S newline_pos) b).
Definition extract (f : StreamFraming) (b : bytes) : option (string * bytes) :=
  match f with Sse => extract_sse_data b | Ndjson => extract_json_line b end.

(** The consumer's loop: extract events while there are some, read otherwise;
    [None] in the result when [fuel] does not suffice. *)
Fixpoint consume (fuel : nat) (s : SseStreamState) : option (list string * Result ProviderError unit) :=
  match fuel with
  | O => None
  | S fuel =>
      match extract (framing s) (buffer s) with
      | Some (event, rest) =>
          '(events, r) ← consume fuel (with_buffer rest s); Some (event :: events, r)
      | None =>
          match read_next s with
          | (s, Ok true) => consume fuel s
          | (s, Ok false) =>
              match extract (framing s) (buffer s) with
              | Some (event, rest) =>
                  '(events, r) ← consume fuel (with_buffer rest s); Some (event :: events, r)
              | None => Some ([], Ok tt)
              end
          | (_, Err e) => Some ([], Err e)
          end
      end
  end.

(** ** Specification *)

(** [String::from_utf8_lossy] of the whole body. *)
Fixpoint lossy (fuel : nat) (b : bytes) : bytes :=
  match fuel with
  | O => []
  | S fuel =>
      match next_unit b with
      | UEnd => []
      | UChar n => take n b ++ lossy fuel (drop n b)
      | UInvalid n => replacement ++ lossy fuel (drop n b)
      | UPartial => replacement
      end
  end.
Definition from_utf8_lossy (b : bytes) : bytes := lossy (length b) b.

(** The complete frames of a text, cut as early as possible, and what follows
    the last. *)
Fixpoint split_frames (f : StreamFraming) (acc text : bytes) : list bytes * bytes :=
  match text with
  | [] => ([], acc)
  | c :: text =>
      if complete f (acc ++ [c])
      then let '(frames, tail) := split_frames f [] text in ((acc ++ [c]) :: frames, tail)
      else split_frames f (acc ++ [c]) text
  end.

(** The event of a frame: its data without the terminator, or the line. *)
Definition frame_event (f : StreamFraming) (frame : bytes) : string :=
  match f with
  | Sse => event_data (take (length frame - (if ends_with frame [LF; LF] then 2 else 4)) frame)
  | Ndjson => String.string_of_list_ascii frame
  end.

(** ** Lemmas: UTF-8 *)
Lemma follow_bound ranges n rest :
  match follow n ranges rest with
  | UChar k => (n <= k <= n + length rest)%nat /\ k = (n + length ranges)%nat
  | UInvalid k => (n <= k <= n + length rest)%nat
  | UPartial => (length rest < length ranges)%nat
  | UEnd => False
  end.
Proof.
  revert n rest. induction ranges as [|[lo hi] ranges IH]; intros n rest; cbn; [lia|].
  destruct rest as [|c rest]; cbn; [lia|]. destruct (_ && _); [|lia].
  specialize (IH (S n) rest). destruct (follow (S n) ranges rest); lia.
Qed.
Lemma follow_app ranges n rest more :
  follow n ranges rest <> UPartial -> follow n ranges (rest ++ more) = follow n ranges rest.
Proof.
  revert n rest. induction ranges as [|[lo hi] ranges IH]; intros n rest; cbn; [done|].
  destruct rest as [|c rest]; cbn; [done|]. destruct (_ && _); [apply IH|done].
Qed.

Lemma continuations_length c ranges : continuations c = Some ranges -> (length ranges <= 3)%nat.
Proof. unfold continuations. repeat case_match; intros [= <-]; cbn; lia. Qed.
Lemma continuations_high c ranges :
  continuations c = Some ranges -> Forall (fun '(lo, hi) => 128 <= lo) ranges /\ (ranges <> [] -> 128 <= code c).
Proof.
  unfold continuations. repeat case_match; intros [= <-]; (split; [|done || lia]);
    rewrite ?Forall_cons_iff, ?Forall_nil_iff; lia.
Qed.

Lemma unit_bound b n :
  next_unit b = UChar n \/ next_unit b = UInvalid n -> (1 <= n <= length b)%nat.
Proof.
  destruct b as [|c rest]; cbn; [by intros []|]. destruct (continuations c) as [ranges|].
  - pose proof (follow_bound ranges 1 rest). intros [H'|H']; rewrite H' in H; cbn; lia.
  - intros [|[= <-]]; [done|]. lia.
Qed.
Lemma unit_app b more :
  next_unit b <> UPartial -> next_unit b <> UEnd -> next_unit (b ++ more) = next_unit b.
Proof.
  destruct b as [|c rest]; cbn; [done|]. destruct (continuations c) as [ranges|]; [|done].
  intros H _. by apply follow_app.
Qed.
Lemma unit_end b : next_unit b = UEnd -> b = [].
Proof.
  destruct b as [|c rest]; [done|]. cbn. destruct (continuations c) as [ranges|]; [|done].
  pose proof (follow_bound ranges 1 rest) as H. by destruct (follow 1 ranges rest).
Qed.

(** LF is below the continuation bytes. *)
Lemma follow_no_lf ranges n rest k :
  Forall (fun '(lo, hi) => 128 <= lo) ranges -> follow n ranges rest = UChar k ->
  LF ∉ take (k - n) rest.
Proof.
  revert n rest. induction ranges as [|[lo hi] ranges IH]; intros n rest Hr; cbn.
  - intros [= ->]. rewrite Nat.sub_diag. cbn. apply not_elem_of_nil.
  - apply Forall_cons_iff in Hr as [Hlo Hr]. destruct rest as [|c rest]; [done|].
    destruct (_ && _) eqn:E; [|done]. intros Hk. pose proof (follow_bound ranges (S n) rest) as Hb.
    rewrite Hk in Hb. replace (k - n)%nat with (S (k - S n)) by lia. cbn.
    intros [Hc|Hin]%elem_of_cons; [|by apply (IH (S n) rest Hr Hk)]. subst c.
    change (code LF) with 10 in E. cbn in Hlo. apply andb_prop in E as [?%Z.leb_le _]. lia.
Qed.
Lemma char_no_lf b n : next_unit b = UChar n -> (2 <= n)%nat -> LF ∉ take n b.
Proof.
  destruct b as [|c rest]; cbn; [done|]. destruct (continuations c) as [ranges|] eqn:Ec; [|done].
  intros Hf Hn. destruct (continuations_high c ranges Ec) as [Hr Hc].
  pose proof (follow_bound ranges 1 rest) as Hb. rewrite Hf in Hb. destruct Hb as [_ Hk].
  pose proof (follow_no_lf ranges 1 rest n Hr Hf) as Hin. replace n with (S (n - 1)) by lia. cbn.
  intros [<-|Hin']%elem_of_cons; [|by apply Hin].
  change (code LF) with 10 in Hc. destruct ranges; cbn in *; [lia|]. specialize (Hc ltac:(done)). lia.
Qed.

Lemma follow_partial_lf ranges n rest :
  Forall (fun '(lo, hi) => 128 <= lo) ranges -> follow n ranges rest = UPartial ->
  follow n ranges (rest ++ [LF]) = UInvalid (n + length rest).
Proof.
  revert n rest. induction ranges as [|[lo hi] ranges IH]; intros n rest Hr; [done|].
  apply Forall_cons_iff in Hr as [Hlo Hr]. destruct rest as [|c rest]; cbn.
  - intros _. change (code LF) with 10. rewrite (proj2 (Z.leb_gt lo 10)) by lia. cbn. f_equal. lia.
  - destruct (_ && _); [|done]. intros H. rewrite (IH (S n) rest Hr H). f_equal. lia.
Qed.
Lemma partial_lf r : next_unit r = UPartial -> next_unit (r ++ [LF]) = UInvalid (length r).
Proof.
  destruct r as [|c rest]; [done|]. cbn. destruct (continuations c) as [ranges|] eqn:Ec; [|done].
  intros H. destruct (continuations_high c ranges Ec) as [Hr _].
  by rewrite (follow_partial_lf ranges 1 rest Hr H).
Qed.
Lemma follow_partial_char ranges n rest more k :
  follow n ranges rest = UPartial -> follow n ranges (rest ++ more) = UChar k -> (n + length rest <= k)%nat.
Proof.
  intros H Hk. pose proof (follow_bound ranges n rest) as H1. rewrite H in H1.
  pose proof (follow_bound ranges n (rest ++ more)) as H2. rewrite Hk in H2. lia.
Qed.
Lemma partial_spec r :
  next_unit r = UPartial -> (1 <= length r <= 3)%nat /\
  forall more k, next_unit (r ++ more) = UChar k -> (length r <= k)%nat /\ (2 <= k)%nat.
Proof.
  destruct r as [|c rest]; [done|]. cbn. destruct (continuations c) as [ranges|] eqn:Ec; [|done].
  intros H. pose proof (follow_bound ranges 1 rest) as Hb. rewrite H in Hb.
  pose proof (continuations_length c ranges Ec). split; [lia|]. intros more k Hk.
  pose proof (follow_partial_char _ _ _ _ _ H Hk). pose proof (follow_bound ranges 1 (rest ++ more)) as Hb'.
  rewrite Hk in Hb'. lia.
Qed.

(** ** Lemmas: decoding a stream in pieces

    [decodes b t r]: the bytes [b] give the text [t] and leave the beginning
    [r] of a character. *)
Inductive decodes : bytes -> bytes -> bytes -> Prop :=
| decodes_end : decodes [] [] []
| decodes_char b n t r :
    next_unit b = UChar n -> decodes (drop n b) t r -> decodes b (take n b ++ t) r
| decodes_invalid b n t r :
    next_unit b = UInvalid n -> decodes (drop n b) t r -> decodes b (replacement ++ t) r
| decodes_partial b : next_unit b = UPartial -> decodes b [] b.

Definition lossy_tail (r : bytes) : bytes := match r with [] => [] | _ => replacement end.

Lemma decodes_total b : exists t r, decodes b t r.
Proof.
  remember (length b) as len eqn:El. revert b El. induction (lt_wf len) as [len _ IH'].
  intros b ->. destruct (next_unit b) as [|n|n|] eqn:E.
  - apply unit_end in E as ->. exists [], []. constructor.
  - pose proof (unit_bound b n (or_introl E)).
    destruct (IH' (length (drop n b)) ltac:(rewrite length_drop; lia) (drop n b) eq_refl) as (t & r & Hd).
    eexists _, _. by eapply decodes_char.
  - pose proof (unit_bound b n (or_intror E)).
    destruct (IH' (length (drop n b)) ltac:(rewrite length_drop; lia) (drop n b) eq_refl) as (t & r & Hd).
    eexists _, _. by eapply decodes_invalid.
  - exists [], b. by constructor.
Qed.

Lemma decodes_det b t r t' r' : decodes b t r -> decodes b t' r' -> t = t' /\ r = r'.
Proof.
  intros H. revert t' r'. induction H as [|b n t r E H IH|b n t r E H IH|b E]; intros t' r' H';
    inversion H'; subst; try (cbn in *; congruence);
    repeat match goal with
    | E : next_unit ?b = _, E' : next_unit ?b = _ |- _ => rewrite E in E'; simplify_eq
    | IH : forall t r, decodes _ t r -> _, H : decodes _ _ _ |- _ => apply IH in H as [-> ->]; clear IH
    end; done.
Qed.
Lemma decodes_app b t r c t' r' :
  decodes b t r -> decodes (r ++ c) t' r' -> decodes (b ++ c) (t ++ t') r'.
Proof.
  induction 1 as [|b n t r E H IH|b n t r E H IH|b E]; intros H'; [done| | |done].
  - pose proof (unit_bound b n (or_introl E)). rewrite <- (take_app_le b c n), <- app_assoc by lia.
    apply decodes_char; [by rewrite unit_app; rewrite ?E|]. rewrite drop_app_le by lia. by apply IH.
  - pose proof (unit_bound b n (or_intror E)). rewrite <- app_assoc.
    eapply decodes_invalid; [by rewrite unit_app; rewrite ?E|]. rewrite drop_app_le by lia. by apply IH.
Qed.
Lemma decodes_rest b t r : decodes b t r -> r = [] \/ next_unit r = UPartial.
Proof. induction 1; auto. Qed.
Lemma decodes_no_lf b t r : decodes b t r -> LF ∉ b -> LF ∉ t /\ LF ∉ r.
Proof.
  assert (LF ∉ replacement) by (intros H; set_unfold; naive_solver).
  induction 1 as [|b n t r E H' IH|b n t r E H' IH|b E]; intros Hb; [set_solver| | |set_solver].
  all: destruct IH as [Ht Hr]; [rewrite <- (take_drop n b) in Hb; set_solver|].
  all: split; [|done]; rewrite elem_of_app; intros [Hin|Hin]; try done.
  rewrite <- (take_drop n b) in Hb. set_solver.
Qed.
Lemma decodes_lf b t r : decodes b t r -> LF ∉ b -> exists u, decodes (b ++ [LF]) (t ++ u ++ [LF]) [] /\ LF ∉ u.
Proof.
  intros H Hb. assert (Hlf : decodes [LF] [LF] []).
  { change [LF] with (take 1 [LF] ++ []) at 2. by repeat econstructor. }
  destruct (decodes_rest b t r H) as [->|Hr].
  - exists []. split; [|set_solver]. by eapply decodes_app.
  - exists replacement. split; [|intros ?; set_unfold; naive_solver].
    eapply decodes_app; [done|]. eapply decodes_invalid; [by apply partial_lf|].
    by rewrite drop_app_length.
Qed.
Lemma decodes_lossy b t r fuel : decodes b t r -> (length b <= fuel)%nat -> lossy fuel b = t ++ lossy_tail r.
Proof.
  intros H. revert fuel. induction H as [|b n t r E H IH|b n t r E H IH|b E]; intros fuel Hf.
  - by destruct fuel.
  - pose proof (unit_bound b n (or_introl E)). destruct fuel; [lia|]. cbn. rewrite E, IH, app_assoc; [done|].
    rewrite length_drop. lia.
  - pose proof (unit_bound b n (or_intror E)). destruct fuel; [lia|]. cbn [lossy]. rewrite E, IH, app_assoc; [done|].
    rewrite length_drop. lia.
  - destruct b; [done|]. destruct fuel; cbn in Hf; [lia|]. cbn [lossy]. by rewrite E.
Qed.
Lemma lossy_app b t r c : decodes b t r -> from_utf8_lossy (b ++ c) = t ++ from_utf8_lossy (r ++ c).
Proof.
  intros H. destruct (decodes_total (r ++ c)) as (t' & r' & H'). unfold from_utf8_lossy.
  rewrite (decodes_lossy _ _ _ _ (decodes_app _ _ _ _ _ _ H H')) by done.
  by rewrite (decodes_lossy _ _ _ _ H'), app_assoc.
Qed.

(** [from_utf8] against [decodes]. *)
Lemma from_utf8_decodes b t r fuel :
  decodes b t r -> (length b <= fuel)%nat ->
  match from_utf8 fuel b with
  | Utf8Ok => t = b /\ r = []
  | Utf8Err k None => t = take k b /\ r = drop k b
  | Utf8Err k (Some n) =>
      (1 <= n)%nat /\ (k + n <= length b)%nat /\
      exists t', t = take k b ++ replacement ++ t' /\ decodes (drop (k + n) b) t' r
  end.
Proof.
  intros H. revert fuel. induction H as [|b n t r E H IH|b n t r E H IH|b E]; intros fuel Hf.
  - by destruct fuel.
  - pose proof (unit_bound b n (or_introl E)). destruct fuel; [lia|]. cbn. rewrite E.
    specialize (IH fuel ltac:(rewrite length_drop; lia)). destruct (from_utf8 fuel (drop n b)) as [|k [m|]].
    + destruct IH as [-> ->]. by rewrite take_drop.
    + rewrite drop_drop, length_drop in IH. destruct IH as (? & ? & t' & -> & H').
      split_and!; [done|lia|]. exists t'. rewrite <- take_take_drop, <- app_assoc.
      by replace (n + k + m)%nat with (n + (k + m))%nat by lia.
    + rewrite drop_drop in IH. destruct IH as [-> ->]. by rewrite <- take_take_drop.
  - pose proof (unit_bound b n (or_intror E)). destruct fuel; [lia|]. cbn [from_utf8]. rewrite E.
    split_and!; [lia|lia|]. by exists t.
  - destruct b; [done|]. destruct fuel; cbn in Hf; [lia|]. cbn [from_utf8]. by rewrite E.
Qed.

(** The receiver after [t] has been appended. *)
Definition appended (t : bytes) (s : SseStreamState) : SseStreamState :=
  mkState (byte_stream s) (pending s) (limits s) (framing s) (wire_bytes s) (decoded_bytes s + zlen t)
    (buffer s ++ t) (bytes_remainder s) (done s).

Lemma append_text_ok s t :
  decoded_bytes s + zlen t <= decoded_limit (limits s) ->
  zlen (buffer s) + zlen t <= frame_limit (limits s) -> append_text s t = (appended t s, Ok tt).
Proof.
  intros. unfold append_text.
  by rewrite (proj2 (Z.ltb_ge _ _)), (proj2 (Z.ltb_ge _ _)) by lia.
Qed.
Lemma appended_nil s : appended [] s = s.
Proof. unfold appended. change (zlen (@nil Ascii.ascii)) with 0. rewrite app_nil_r, Z.add_0_r. by destruct s. Qed.
Lemma appended_app t u s : appended u (appended t s) = appended (t ++ u) s.
Proof. unfold appended. cbn. by rewrite zlen_app, app_assoc, Z.add_assoc. Qed.

Lemma decode_loop_ok fuel s b t r :
  decodes b t r -> (length b < fuel)%nat -> decoded_bytes s + zlen t <= decoded_limit (limits s) ->
  zlen (buffer s) + zlen t + zlen r <= frame_limit (limits s) ->
  decode_loop fuel s b = (with_remainder (bytes_remainder s ++ r) (appended t s), Ok tt).
Proof.
  revert s b t. induction fuel as [|fuel IH]; intros s b t H Hf Hd Hb; [lia|]. cbn [decode_loop].
  pose proof (zlen_nonneg r). pose proof (from_utf8_decodes b t r (length b) H ltac:(lia)) as Hu.
  destruct (from_utf8 (length b) b) as [|k [n|]].
  - destruct Hu as [-> ->]. rewrite append_text_ok by lia. rewrite app_nil_r. by destruct s.
  - destruct Hu as (? & ? & t' & -> & H'). rewrite !zlen_app in *. pose proof (zlen_nonneg t').
    pose proof (zlen_nonneg replacement). rewrite append_text_ok by lia.
    rewrite append_text_ok by (cbn; rewrite ?zlen_app; lia). rewrite appended_app.
    rewrite (IH _ _ t'); [..|by cbn; rewrite !zlen_app; lia|by cbn; rewrite !zlen_app; lia].
    + by rewrite appended_app, <- !app_assoc.
    + done.
    + rewrite length_drop. lia.
  - destruct Hu as [-> ->]. rewrite append_text_ok by lia. cbn. rewrite zlen_app.
    by rewrite (proj2 (Z.ltb_ge _ _)) by lia.
Qed.
Lemma decode_bytes_ok s b t r :
  decodes (bytes_remainder s ++ b) t r -> decoded_bytes s + zlen t <= decoded_limit (limits s) ->
  zlen (buffer s) + zlen t + zlen r <= frame_limit (limits s) ->
  decode_bytes s b = (with_remainder r (appended t s), Ok tt).
Proof. intros H Hd Hb. unfold decode_bytes. by rewrite (decode_loop_ok _ _ _ _ _ H) by (cbn; lia). Qed.

(** ** Lemmas: frames *)
Definition open (f : StreamFraming) (b : bytes) : Prop := forall u, u `prefix_of` b -> complete f u = false.
Definition is_frame (f : StreamFraming) (b : bytes) : Prop :=
  complete f b = true /\ exists u c, b = u ++ [c] /\ open f u.
Definition fits (n : Z) (f : StreamFraming) (acc text : bytes) : Prop :=
  let '(frames, tail) := split_frames f acc text in Forall (fun b => zlen b <= n) (tail :: frames).

Lemma complete_lf f b c : complete f (b ++ [c]) = true -> c = LF.
Proof.
  assert (Hs : forall p, ends_with (b ++ [c]) (p ++ [LF]) = true -> c = LF).
  { intros p [k Hk]%bool_decide_eq_true. rewrite app_assoc in Hk. by apply app_inj_tail in Hk as [_ ->]. }
  destruct f; cbn.
  - intros [H|H]%orb_prop; [by apply (Hs [LF])|by apply (Hs [CR; LF; CR])].
  - by apply (Hs []).
Qed.
Lemma prefix_snoc {A} (u b : list A) c : u `prefix_of` b ++ [c] -> u `prefix_of` b \/ u = b ++ [c].
Proof.
  intros [k Hk]. destruct k as [|x k _] using rev_ind.
  - right. by rewrite app_nil_r in Hk.
  - left. rewrite app_assoc in Hk. apply app_inj_tail in Hk as [-> _]. by eexists.
Qed.

Lemma open_nil f : open f [].
Proof. intros u ->%prefix_nil_inv. by destruct f. Qed.
Lemma open_snoc f b c : open f b -> complete f (b ++ [c]) = false -> open f (b ++ [c]).
Proof. intros Hb Hc u [Hu| ->]%prefix_snoc; auto. Qed.
Lemma open_app f b t : open f b -> LF ∉ t -> open f (b ++ t).
Proof.
  revert b. induction t as [|c t IH]; intros b Hb Ht; [by rewrite app_nil_r|].
  rewrite cons_middle, app_assoc. apply IH; [|set_solver]. apply open_snoc; [done|].
  destruct (complete f (b ++ [c])) eqn:E; [|done]. apply complete_lf in E as ->. set_solver.
Qed.

Lemma split_frames_app f acc t text :
  LF ∉ t -> split_frames f acc (t ++ text) = split_frames f (acc ++ t) text.
Proof.
  revert acc. induction t as [|c t IH]; intros acc Ht; [by rewrite app_nil_r|]. cbn.
  destruct (complete f (acc ++ [c])) eqn:E; [apply complete_lf in E as ->; set_solver|].
  rewrite IH by set_solver. by rewrite <- app_assoc.
Qed.
Lemma fits_acc n f acc text : fits n f acc text -> zlen acc <= n.
Proof.
  unfold fits. revert acc. induction text as [|c text IH]; intros acc; cbn.
  - by intros [? _]%Forall_cons_iff.
  - destruct (complete f (acc ++ [c])).
    + destruct (split_frames f [] text) as [frames tail]. rewrite !Forall_cons_iff, zlen_app.
      change (zlen [c]) with 1. lia.
    + intros H%IH. rewrite zlen_app in H. change (zlen [c]) with 1 in H. lia.
Qed.
Lemma fits_next n f acc c text :
  complete f (acc ++ [c]) = true -> fits n f acc (c :: text) -> fits n f [] text.
Proof.
  intros Hc. unfold fits. cbn. rewrite Hc. destruct (split_frames f [] text) as [frames tail].
  rewrite !Forall_cons_iff. naive_solver.
Qed.

Lemma find_sub_Some p b i : find_sub p b = Some i -> exists u v, b = u ++ p ++ v /\ length u = i.
Proof.
  revert i. induction b as [|c b IH]; intros i; cbn; case_bool_decide as Hp; try done.
  1, 2: intros [= <-]; destruct Hp as [v Hv]; by exists [], v.
  intros (j & Hj & ->)%fmap_Some. destruct (IH j Hj) as (u & v & -> & <-). by exists (c :: u), v.
Qed.
Lemma find_sub_None p b u v : find_sub p b = None -> b <> u ++ p ++ v.
Proof.
  revert u. induction b as [|c b IH]; intros u; cbn; case_bool_decide as Hp; try done.
  - intros _ H. apply Hp. symmetry in H. apply app_eq_nil in H as [_ H]. rewrite <- H. by exists v.
  - intros H. apply fmap_None in H. destruct u as [|d u]; cbn.
    + intros Hv. apply Hp. by exists v.
    + intros [= -> Hb]. by apply (IH u H).
Qed.
Lemma sub_complete p b i f :
  (forall u, complete f (u ++ p) = true) -> find_sub p b = Some i ->
  exists u v, b = u ++ p ++ v /\ length u = i /\ (u ++ p) `prefix_of` b /\ complete f (u ++ p) = true.
Proof.
  intros Hf (u & v & -> & <-)%find_sub_Some. exists u, v. split_and!; try done.
  rewrite app_assoc. by exists v.
Qed.
Lemma complete_lflf u : complete Sse (u ++ [LF; LF]) = true.
Proof. cbn. apply orb_true_intro. left. apply bool_decide_eq_true. by exists u. Qed.
Lemma complete_crlf u : complete Sse (u ++ [CR; LF; CR; LF]) = true.
Proof. cbn. apply orb_true_intro. right. apply bool_decide_eq_true. by exists u. Qed.

Lemma position_Some {A} (p : A -> bool) l i :
  position p l = Some i -> exists u x v, l = u ++ x :: v /\ length u = i /\ p x = true /\ Forall (fun y => p y = false) u.
Proof.
  revert i. induction l as [|x l IH]; intros i; cbn; [done|]. destruct (p x) eqn:E.
  - intros [= <-]. by exists [], x, l.
  - intros (j & Hj & ->)%fmap_Some. destruct (IH j Hj) as (u & y & v & -> & <- & Hy & Hu).
    exists (x :: u), y, v. split_and!; try done. by constructor.
Qed.
Lemma position_None {A} (p : A -> bool) l : position p l = None -> Forall (fun y => p y = false) l.
Proof.
  induction l as [|x l IH]; cbn; [by constructor|]. destruct (p x) eqn:E; [done|].
  intros H%fmap_None. constructor; auto.
Qed.

Lemma extract_open f b : open f b -> extract f b = None.
Proof.
  intros H. destruct f; cbn.
  - unfold extract_sse_data. destruct (find_sub [LF; LF] b) as [i|] eqn:E1.
    { destruct (sub_complete _ _ _ Sse complete_lflf E1) as (u & v & _ & _ & Hp & Hc). by rewrite H in Hc. }
    destruct (find_sub [CR; LF; CR; LF] b) as [i|] eqn:E2; [|done].
    destruct (sub_complete _ _ _ Sse complete_crlf E2) as (u & v & _ & _ & Hp & Hc). by rewrite H in Hc.
  - unfold extract_json_line. destruct (position _ b) as [i|] eqn:E; [|done].
    apply position_Some in E as (u & x & v & -> & _ & ->%bool_decide_eq_true & _).
    specialize (H (u ++ [LF])). cbn in H. unfold ends_with in H. rewrite bool_decide_eq_false in H.
    destruct H; [|by exists u]. rewrite (cons_middle LF u v), app_assoc. by exists v.
Qed.

Lemma terminators u w : u ++ [LF; LF] <> w ++ [CR; LF; CR; LF].
Proof. intros H%(f_equal reverse). rewrite !reverse_app in H. done. Qed.

(** A frame's terminator is its only one. *)
Lemma frame_end f b u v : is_frame f b -> b = u ++ v -> complete f u = true -> v = [].
Proof.
  intros (_ & k & c & -> & Hk) Hb Hu. assert (Hp : u `prefix_of` k ++ [c]) by (rewrite Hb; by eexists).
  apply prefix_snoc in Hp as [Hp| ->]; [by rewrite (Hk u Hp) in Hu|].
  rewrite <- (app_nil_r (k ++ [c])) in Hb at 1. by apply app_inv_head in Hb.
Qed.
Lemma take_while_all {A} (p : A -> bool) l : Forall (fun x => p x = true) l -> take_while p l = l.
Proof. induction 1 as [|x l Hx _ IH]; cbn; [done|]. by rewrite Hx, IH. Qed.


Lemma find_end p b u :
  (forall u, complete Sse (u ++ p) = true) -> is_frame Sse b -> b = u ++ p -> find_sub p b = Some (length u).
Proof.
  intros Hp H Hu. destruct (find_sub p b) as [i|] eqn:E.
  - destruct (sub_complete p b i Sse Hp E) as (u' & v & Hb & <- & _ & Hc). rewrite app_assoc in Hb.
    rewrite (frame_end _ _ _ _ H Hb Hc), app_nil_r, Hu in Hb. apply app_inv_tail in Hb as ->. done.
  - destruct (find_sub_None _ _ u [] E). by rewrite app_nil_r.
Qed.
Lemma find_not_end p b :
  (forall u, complete Sse (u ++ p) = true) -> is_frame Sse b -> (forall u, b <> u ++ p) -> find_sub p b = None.
Proof.
  intros Hp H Hu. destruct (find_sub p b) as [i|] eqn:E; [|done].
  destruct (sub_complete p b i Sse Hp E) as (u & v & Hb & <- & _ & Hc). rewrite app_assoc in Hb.
  rewrite (frame_end _ _ _ _ H Hb Hc), app_nil_r in Hb. by destruct (Hu u).
Qed.
Lemma extract_sse_frame b : is_frame Sse b -> extract_sse_data b = Some (frame_event Sse b, []).
Proof.
  intros H. unfold extract_sse_data. cbn [frame_event]. pose proof H as (Hc & _).
  apply orb_prop in Hc as [[u Hu]%bool_decide_eq_true|[u Hu]%bool_decide_eq_true].
  - rewrite (find_end _ _ _ complete_lflf H Hu), (find_not_end _ _ complete_crlf H).
    2: { intros w. rewrite Hu. apply terminators. }
    assert (ends_with b [LF; LF] = true) as -> by (apply bool_decide_eq_true; by exists u).
    cbn. by rewrite Hu, length_app, Nat.add_sub, take_app_length, drop_app_length.
  - rewrite (find_end _ _ _ complete_crlf H Hu), (find_not_end _ _ complete_lflf H).
    2: { intros w. rewrite Hu. apply not_eq_sym, terminators. }
    assert (ends_with b [LF; LF] = false) as ->.
    { apply bool_decide_eq_false. intros [w Hw]. rewrite Hu in Hw. by apply symmetry, terminators in Hw. }
    cbn. by rewrite Hu, length_app, Nat.add_sub, take_app_length, drop_app_length.
Qed.
Lemma extract_frame f b : is_frame f b -> extract f b = Some (frame_event f b, []).
Proof.
  intros H. destruct f; [by apply extract_sse_frame|]. pose proof H as (Hc & k & c & -> & _).
  cbn. unfold extract_json_line. pose proof (complete_lf Ndjson k c Hc) as ->. destruct (position _ _) as [i|] eqn:E.
  - apply position_Some in E as (u & x & v & Hb & <- & ->%bool_decide_eq_true & _).
    rewrite (cons_middle LF u v), app_assoc in Hb.
    assert (v = []) as ->.
    { apply (frame_end Ndjson (k ++ [LF]) (u ++ [LF])); [done|done|]. apply bool_decide_eq_true. by exists u. }
    rewrite app_nil_r in Hb. rewrite Hb. cbn [mbind option_bind].
    replace (S (length u)) with (length (u ++ [LF])) by (rewrite length_app; cbn; lia).
    by rewrite firstn_all, drop_all.
  - apply position_None in E. rewrite Forall_app, Forall_cons_iff in E. destruct E as (_ & E & _).
    by rewrite bool_decide_true in E.
Qed.

(** ** Lemmas: the read loop *)

(** What is still to come of the transport, in bytes; a chunk costs one more. *)
Definition volume (chunks : list bytes) : nat := list_sum ((fun c => S (length c)) <$> chunks).
Definition size (chunks : list bytes) : Z := zlen (concat chunks).

(** The receiver between two frames' ends: [text] is what it has not decoded
    yet, the buffer is the open frame's beginning. *)
Record running (f : StreamFraming) (s : SseStreamState) (chunks : list bytes) (text : bytes) : Prop := {
  run_framing : framing s = f;
  run_done : done s = false;
  run_stream : byte_stream s = Some (Ok <$> chunks);
  run_text : text = from_utf8_lossy (bytes_remainder s ++ pending s ++ concat chunks);
  run_rest : bytes_remainder s = [] \/ next_unit (bytes_remainder s) = UPartial;
  run_rest_lf : LF ∉ bytes_remainder s;
  run_open : open f (buffer s);
  run_wire : wire_bytes s + size chunks <= wire_limit (limits s);
  run_decoded : decoded_bytes s + zlen text <= decoded_limit (limits s);
  run_frame : fits (frame_limit (limits s)) f (buffer s) text;
}.

(** The text a cut character becomes lies in the open frame and is no shorter. *)
Lemma rest_text r more :
  r = [] \/ next_unit r = UPartial ->
  exists u text, from_utf8_lossy (r ++ more) = u ++ text /\ LF ∉ u /\ zlen r <= zlen u.
Proof.
  intros [->|Hr]; [exists [], (from_utf8_lossy more); split_and!; [done|set_solver|done]|].
  destruct (partial_spec r Hr) as [Hlen Hk]. assert (LF ∉ replacement) by (intros H; set_unfold; naive_solver).
  destruct (next_unit (r ++ more)) as [|n|n|] eqn:E; unfold from_utf8_lossy, zlen.
  - apply unit_end, app_eq_nil in E as [-> _]. done.
  - destruct (Hk more n E) as [H1 H2]. pose proof (unit_bound _ _ (or_introl E)).
    destruct (length (r ++ more)) as [|k] eqn:El; [lia|]. cbn. rewrite E. eexists _, _. split; [done|].
    split; [by apply char_no_lf|]. rewrite length_take. lia.
  - pose proof (unit_bound _ _ (or_intror E)). destruct (length (r ++ more)) as [|k] eqn:El; [lia|].
    cbn [lossy]. rewrite E. eexists _, _. split; [done|]. split; [done|].
    change (length replacement) with 3%nat. lia.
  - destruct (length (r ++ more)) as [|k] eqn:El; [rewrite length_app in El; lia|].
    cbn [lossy]. rewrite E. exists replacement, []. rewrite app_nil_r. split_and!; [done|done|].
    change (length replacement) with 3%nat. lia.
Qed.

(** What decoding the next piece of the pending chunk gives. *)
Definition advanced (t r p : bytes) (s : SseStreamState) : SseStreamState :=
  with_remainder r (appended t (with_pending p s)).
Lemma decode_piece f s chunks text c p :
  running f s chunks text -> pending s = c ++ p -> (exists c0 x, c = c0 ++ [x] /\ LF ∉ c0) ->
  exists t r text', text = t ++ text' /\ decode_bytes (with_pending p s) c = (advanced t r p s, Ok tt) /\
    (LF ∉ t \/ exists u, t = u ++ [LF] /\ LF ∉ u) /\
    text' = from_utf8_lossy (r ++ p ++ concat chunks) /\ LF ∉ r /\ (r = [] \/ next_unit r = UPartial).
Proof.
  intros R Hp (c0 & x & -> & Hc0). set (b := bytes_remainder s ++ c0).
  assert (Hb : LF ∉ b) by (pose proof (run_rest_lf _ _ _ _ R); set_solver).
  assert (exists t r, decodes (b ++ [x]) t r /\ LF ∉ r /\ (LF ∉ t \/ exists u, t = u ++ [LF] /\ LF ∉ u /\ r = [])) as (t & r & Hd & Hr & Ht).
  { destruct (decide (x = LF)) as [->|Hx].
    - destruct (decodes_total b) as (t & r & Hd). destruct (decodes_lf b t r Hd Hb) as (u & Hd' & Hu).
      exists (t ++ u ++ [LF]), []. split_and!; [done|set_solver|]. right. exists (t ++ u).
      rewrite app_assoc. split_and!; try done. destruct (decodes_no_lf b t r Hd Hb). set_solver.
    - destruct (decodes_total (b ++ [x])) as (t & r & Hd). exists t, r.
      destruct (decodes_no_lf _ t r Hd ltac:(set_solver)). auto. }
  assert (Htext : text = t ++ from_utf8_lossy (r ++ p ++ concat chunks)).
  { rewrite <- (lossy_app _ _ _ (p ++ concat chunks) Hd), (run_text _ _ _ _ R), Hp. subst b. f_equal.
    by rewrite <- !app_assoc. }
  exists t, r, (from_utf8_lossy (r ++ p ++ concat chunks)). split; [done|].
  assert (Hrest : r = [] \/ next_unit r = UPartial) by (by eapply decodes_rest).
  split; [|split_and!; try done; destruct Ht as [?|(u & ? & ? & _)]; eauto].
  rewrite (decode_bytes_ok _ _ t r); [done|by cbn; rewrite app_assoc|..]; cbn.
  - pose proof (run_decoded _ _ _ _ R) as H. rewrite Htext, zlen_app in H.
    pose proof (zlen_nonneg (from_utf8_lossy (r ++ p ++ concat chunks))). lia.
  - pose proof (run_frame _ _ _ _ R) as H. rewrite Htext in H.
    destruct Ht as [Ht|(u & -> & Hu & ->)].
    + destruct (rest_text r (p ++ concat chunks) Hrest) as (v & text' & Hv & Hv' & Hlen).
      unfold fits in H. rewrite Hv, app_assoc, split_frames_app in H by set_solver.
      apply fits_acc in H. rewrite !zlen_app in H. lia.
    + change (zlen (@nil Ascii.ascii)) with 0. rewrite <- app_assoc in H. unfold fits in H.
      rewrite split_frames_app in H by done. cbn in H.
      destruct (complete f ((buffer s ++ u) ++ [LF])).
      * destruct (split_frames f [] _) as [frames tail]. rewrite !Forall_cons_iff, !zlen_app in H. rewrite zlen_app. lia.
      * apply fits_acc in H. rewrite !zlen_app in H. rewrite zlen_app. lia.
Qed.

(** The open frame after [t]: still open, or ended by it. *)
Lemma open_or_frame f b t text :
  open f b -> (LF ∉ t \/ exists u, t = u ++ [LF] /\ LF ∉ u) ->
  (complete f (b ++ t) = false /\ open f (b ++ t) /\ split_frames f b (t ++ text) = split_frames f (b ++ t) text) \/
  (complete f (b ++ t) = true /\ is_frame f (b ++ t) /\
   split_frames f b (t ++ text) = (let '(frames, tail) := split_frames f [] text in ((b ++ t) :: frames, tail))).
Proof.
  intros Hb [Ht|(u & -> & Hu)].
  - left. pose proof (open_app f b t Hb Ht) as H. split_and!; [by apply H|done|by apply split_frames_app].
  - pose proof (open_app f b u Hb Hu) as H. rewrite <- app_assoc, split_frames_app by done. cbn [split_frames app].
    rewrite app_assoc. destruct (complete f ((b ++ u) ++ [LF])) eqn:E; [right|left].
    + split_and!; [done| |done]. split; [done|]. by exists (b ++ u), LF.
    + split_and!; [done|by apply open_snoc|done].
Qed.

Lemma advance_running f s chunks text c p :
  running f s chunks text -> pending s = c ++ p -> (exists c0 x, c = c0 ++ [x] /\ LF ∉ c0) ->
  exists t r text', decode_bytes (with_pending p s) c = (advanced t r p s, Ok tt) /\
    ((complete f (buffer s ++ t) = false /\ running f (advanced t r p s) chunks text' /\
      split_frames f (buffer s) text = split_frames f (buffer s ++ t) text') \/
     (complete f (buffer s ++ t) = true /\ is_frame f (buffer s ++ t) /\
      running f (with_buffer [] (advanced t r p s)) chunks text' /\
      split_frames f (buffer s) text =
        (let '(frames, tail) := split_frames f [] text' in ((buffer s ++ t) :: frames, tail)))).
Proof.
  intros R Hp Hc. destruct (decode_piece f s chunks text c p R Hp Hc) as (t & r & text' & Htext & Hd & Ht & Htext' & Hr & Hr').
  exists t, r, text'. split; [done|]. destruct R. rewrite Htext, zlen_app in run_decoded0.
  destruct (open_or_frame f (buffer s) t text' run_open0 Ht) as [(Hc' & Ho & Hs)|(Hc' & Hf & Hs)]; [left|right].
  - split_and!; [done| |by rewrite Htext]. split; cbn; try done; [lia|].
    unfold fits in *. by rewrite Htext, Hs in run_frame0.
  - split_and!; [done|done| |by rewrite Htext]. split; cbn; try done; [apply open_nil|lia|].
    unfold fits in *. rewrite Htext, Hs in run_frame0. destruct (split_frames f [] text') as [frames tail].
    rewrite !Forall_cons_iff in *. naive_solver.
Qed.

(** A piece of the pending chunk: up to its first LF, within the window. *)
Definition piece (p : bytes) (window : nat) : nat :=
  match position (fun c => bool_decide (c = LF)) (take window p) with Some i => S i | None => window end.
Lemma piece_ok p n :
  (1 <= n <= length p)%nat ->
  (1 <= piece p n)%nat /\ exists c0 x, take (piece p n) p = c0 ++ [x] /\ LF ∉ c0.
Proof.
  assert (Hlf : forall l, Forall (fun c => bool_decide (c = LF) = false) l -> LF ∉ l).
  { intros l Hl Hin. rewrite list.Forall_forall in Hl. apply Hl in Hin. by rewrite bool_decide_true in Hin. }
  intros Hn. unfold piece. destruct (position _ _) as [i|] eqn:E.
  - apply position_Some in E as (u & x & v & Hw & <- & _ & Hu). split; [lia|]. exists u, x. split; [|by apply Hlf].
    rewrite <- (take_drop n p), Hw. replace ((u ++ x :: v) ++ drop n p) with ((u ++ [x]) ++ v ++ drop n p)
      by (by rewrite <- !app_assoc).
    replace (S (length u)) with (length (u ++ [x])) by (rewrite length_app; cbn; lia). apply take_app_length.
  - split; [lia|]. apply position_None in E. destruct (take n p) as [|x w _] eqn:Ew using rev_ind.
    + apply (f_equal length) in Ew. rewrite length_take in Ew. cbn in Ew. lia.
    + exists w, x. split; [done|]. apply Hlf. by apply Forall_app in E as [E _].
Qed.

(** One read: the open frame goes on, or it is complete. *)
Definition read_ok f (s : SseStreamState) (chunks : list bytes) (text : bytes) (s' : SseStreamState)
    (chunks' : list bytes) : Prop :=
  exists text',
    (running f s' chunks' text' /\ split_frames f (buffer s) text = split_frames f (buffer s') text') \/
    (is_frame f (buffer s') /\ running f (with_buffer [] s') chunks' text' /\
     split_frames f (buffer s) text =
       (let '(frames, tail) := split_frames f [] text' in (buffer s' :: frames, tail))).

Lemma receive_loop_ok f fuel s chunks text :
  running f s chunks text -> (length (pending s) <= fuel)%nat ->
  exists s', receive_loop fuel s = (s', Ok true) /\ read_ok f s chunks text s' chunks /\
    (length (pending s') <= length (pending s))%nat /\ (pending s <> [] -> (length (pending s') < length (pending s))%nat).
Proof.
  revert s text. induction fuel as [|fuel IH]; intros s text R Hf.
  { exists s. split_and!; [done|exists text; by left|done|]. intros H. destruct (pending s); cbn in *; [done|lia]. }
  cbn [receive_loop]. destruct (pending s) as [|a l] eqn:Ep.
  { exists s. rewrite Ep. split_and!; [done| |done|done]. exists text. by left. }
  rewrite <- Ep in *. set (capacity := Z.min _ _ + 1). set (window := Z.to_nat (Z.min (zlen (pending s)) capacity)).
  fold (piece (pending s) window).
  assert (Hw : (1 <= window <= length (pending s))%nat).
  { assert (1 <= capacity).
    { subst capacity. destruct (rest_text (bytes_remainder s) (pending s ++ concat chunks) (run_rest _ _ _ _ R)) as (u & t & Hu & Hu' & Hlen).
      rewrite <- (run_text _ _ _ _ R) in Hu. pose proof (run_frame _ _ _ _ R) as H. unfold fits in H.
      rewrite Hu, split_frames_app in H by done. apply fits_acc in H. rewrite zlen_app in H.
      pose proof (run_decoded _ _ _ _ R). pose proof (zlen_nonneg text). lia. }
    subst window. unfold zlen in *. rewrite Ep in *. cbn in *. lia. }
  destruct (piece_ok _ _ Hw) as [Hc1 Hc]. set (count := piece (pending s) window) in *.
  destruct (advance_running f s chunks text _ (drop count (pending s)) R (eq_sym (take_drop count _)) Hc)
    as (t & r & text' & Hd & H). rewrite Hd.
  change (framing (advanced t r (drop count (pending s)) s)) with (framing s).
  change (buffer (advanced t r (drop count (pending s)) s)) with (buffer s ++ t). rewrite (run_framing _ _ _ _ R).
  assert (Hlen : (length (drop count (pending s)) < length (pending s))%nat) by (rewrite length_drop; lia).
  destruct H as [(-> & R' & Hs)|(-> & Hfr & R' & Hs)].
  - destruct (IH _ _ R' ltac:(cbn; lia)) as (s' & Hl & (text'' & Hr) & H1 & _). exists s'. split; [done|].
    cbn in H1, Hr. split_and!; [|lia|lia]. exists text''. by rewrite Hs.
  - eexists. split; [done|]. cbn. split_and!; [|lia|lia]. exists text'. by right.
Qed.

(** Reading before the end of the transport. *)
Lemma read_next_ok f s chunks text :
  running f s chunks text -> (pending s <> [] \/ chunks <> []) ->
  exists s' chunks', read_next s = (s', Ok true) /\ read_ok f s chunks text s' chunks' /\
    (length (pending s') + volume chunks' < length (pending s) + volume chunks)%nat.
Proof.
  intros R H. unfold read_next, receive_next. rewrite (run_done _ _ _ _ R).
  destruct (decide (pending s = [])) as [Ep|Ep].
  - destruct H as [|Hc]; [done|]. destruct chunks as [|c chunks]; [done|]. rewrite Ep.
    pose proof (run_stream _ _ _ _ R) as ->. cbn [fmap list_fmap]. pose proof (run_wire _ _ _ _ R) as Hw.
    unfold size in Hw. cbn in Hw. rewrite zlen_app in Hw. pose proof (zlen_nonneg (concat chunks)).
    rewrite (proj2 (Z.ltb_ge _ _)) by lia. set (s1 := mkState _ c _ _ _ _ _ _ _).
    assert (R1 : running f s1 chunks text).
    { destruct R. split; cbn; try done; [|unfold size; lia]. rewrite run_text0, Ep. done. }
    destruct (receive_loop_ok f (length c) s1 chunks text R1 ltac:(done)) as (s' & -> & Hr & Hl & _).
    exists s', chunks. split_and!; [done|done|].
    change (pending s1) with c in Hl. change (volume (c :: chunks)) with (S (length c) + volume chunks)%nat. cbn. lia.
  - destruct (receive_loop_ok f (length (pending s)) s chunks text R ltac:(done)) as (s' & Hl & Hr & _ & Hlt).
    specialize (Hlt Ep). exists s', chunks. destruct (pending s); [done|]. rewrite Hl. split_and!; [done|done|]. lia.
Qed.

(** The end of the transport: a cut character is replaced, the open frame stays open. *)
Lemma read_end f s text :
  running f s [] text -> pending s = [] ->
  exists s', read_next s = (s', Ok false) /\ framing s' = f /\ open f (buffer s') /\
    split_frames f (buffer s) text = ([], buffer s').
Proof.
  intros R Hp. unfold read_next, receive_next. rewrite (run_done _ _ _ _ R), Hp.
  pose proof (run_stream _ _ _ _ R) as ->. cbn [fmap list_fmap]. pose proof (run_text _ _ _ _ R) as Ht.
  rewrite Hp in Ht. cbn in Ht. rewrite app_nil_r in Ht.
  destruct (bytes_remainder s) as [|a r] eqn:Er; cbn [bytes_remainder with_stream]; rewrite ?Er.
  - eexists. split; [done|]. cbn. split_and!; [by apply R|apply (run_open _ _ _ _ R)|]. by rewrite Ht.
  - assert (Hd : next_unit (a :: r) = UPartial) by (destruct (run_rest _ _ _ _ R) as [|]; congruence).
    assert (LF ∉ replacement) by (intros H; set_unfold; naive_solver).
    assert (Htext : text = replacement) by (rewrite Ht; unfold from_utf8_lossy; cbn [length lossy]; by rewrite Hd).
    clear Ht. subst text. destruct R.
    assert (Hs : split_frames f (buffer s) replacement = ([], buffer s ++ replacement)).
    { rewrite <- (app_nil_r replacement) at 1. by rewrite split_frames_app. }
    unfold fits in run_frame0. rewrite Hs, Forall_cons_iff, zlen_app in run_frame0.
    rewrite append_text_ok by (cbn; lia). eexists. split; [done|]. cbn.
    split_and!; [done|by apply open_app|done].
Qed.

(** Without a budget exceeded, the events are those of the text's frames, and
    the loop ends. *)
Lemma consume_running f fuel s chunks text :
  running f s chunks text -> (2 * (length (pending s) + volume chunks) < fuel)%nat ->
  consume fuel s = Some (frame_event f <$> (split_frames f (buffer s) text).1, Ok tt).
Proof.
  revert s chunks text. induction (lt_wf fuel) as [fuel _ IH]. intros s chunks text R Hf.
  destruct fuel as [|fuel]; [lia|]. cbn [consume]. rewrite (run_framing _ _ _ _ R), (extract_open _ _ (run_open _ _ _ _ R)).
  destruct (decide (pending s = [] /\ chunks = [])) as [[Hp ->]|Hn].
  { destruct (read_end f s text R Hp) as (s' & -> & -> & Ho & Hs). by rewrite (extract_open _ _ Ho), Hs. }
  destruct (read_next_ok f s chunks text R) as (s' & chunks' & -> & (text' & Hr) & Hlt).
  { destruct (pending s), chunks; naive_solver. }
  destruct Hr as [[R' ->]|(Hfr & R' & ->)].
  - by apply (IH fuel ltac:(lia) s' chunks'); [|lia].
  - destruct fuel as [|fuel]; [lia|]. cbn [consume].
    change (framing s') with (framing (with_buffer [] s')). rewrite (run_framing _ _ _ _ R'), (extract_frame _ _ Hfr).
    rewrite (IH fuel ltac:(lia) _ _ _ R' ltac:(cbn; lia)). cbn. by destruct (split_frames f [] text').
Qed.

(** ** The property *)

(** C22: the events a consumer gets do not depend on how the transport cuts the
    body: they are those of the frames of the whole body decoded at once (with
    the replacement character for what is not UTF-8), whenever the body, its
    text and each frame are within the budgets; and the loop ends. *)
Theorem chunking_invariant (f : StreamFraming) (l : ResponseStreamLimits) (chunks frames : list bytes)
    (tail : bytes) (fuel : nat) :
  split_frames f [] (from_utf8_lossy (concat chunks)) = (frames, tail) ->
  size chunks <= wire_limit l -> zlen (from_utf8_lossy (concat chunks)) <= decoded_limit l ->
  Forall (fun b => zlen b <= frame_limit l) (tail :: frames) -> (2 * volume chunks < fuel)%nat ->
  consume fuel (new (Ok <$> chunks) l f) = Some (frame_event f <$> frames, Ok tt).
Proof.
  intros Es Hw Hd Hf Hfuel.
  assert (R : running f (new (Ok <$> chunks) l f) chunks (from_utf8_lossy (concat chunks))).
  { split; cbn; try done; [by left|apply not_elem_of_nil|apply open_nil|]. unfold fits. by rewrite Es. }
  rewrite (consume_running _ _ _ _ _ R Hfuel). cbn [buffer new]. by rewrite Es.
Qed.

(** A CRLF event and a cut one, the chunks splitting a two-byte character, a
    terminator, and an invalid byte in between. *)
Definition sample_body : list bytes :=
  [String.list_ascii_of_string "data: a" ++ [byte 195]; [byte 169; CR; LF; CR];
   [LF] ++ String.list_ascii_of_string "data: " ++ [byte 255]; String.list_ascii_of_string "b" ++ [LF]; []; [LF] ++ String.list_ascii_of_string "data: c"; [byte 226]].
Definition sample_frames : list bytes * bytes :=
  Eval vm_compute in split_frames Sse [] (from_utf8_lossy (concat sample_body)).
Theorem chunking_invariant_witness :
  consume 200 (new (Ok <$> sample_body) (mkLimits 64 64 16) Sse) =
    Some ([String.string_of_list_ascii (String.list_ascii_of_string "a" ++ [byte 195; byte 169]);
          String.string_of_list_ascii (replacement ++ String.list_ascii_of_string "b")], Ok tt).
Proof.
  assert (H0 : split_frames Sse [] (from_utf8_lossy (concat sample_body)) = (sample_frames.1, sample_frames.2))
    by (vm_compute; reflexivity).
  assert (H1 : size sample_body <= 64) by (vm_compute; discriminate).
  assert (H2 : zlen (from_utf8_lossy (concat sample_body)) <= 64) by (vm_compute; discriminate).
  assert (H3 : Forall (fun b => zlen b <= 16) (sample_frames.2 :: sample_frames.1)).
  { unfold sample_frames. cbn [fst snd]. rewrite !Forall_cons_iff, Forall_nil_iff. vm_compute.
    split_and!; try exact I; discriminate. }
  assert (H4 : (2 * volume sample_body < 200)%nat) by (vm_compute; lia).
  rewrite (chunking_invariant Sse (mkLimits 64 64 16) _ _ _ _ H0 H1 H2 H3 H4). vm_compute. reflexivity.
Defined.
