(* ===== verification/Budget.v ===== *)
(** * The model budget ledger

    Models [crates/hf-storage/src/model_budget_store.rs]: the two tables of
    [migrations/0041_model_budgets.sql] as a map of scope rows and a list of
    attempt rows.  The write that opens each transaction serializes it, so a
    transaction is one function on the ledger; a failing statement (a CHECK, a
    key, a missing row) rolls it back.  Integers are SQLite's and Rust's [i64];
    the UUID a reservation draws is an argument. *)
From S2P Require Import Prelude.

Record ModelBudgetPolicy := mkPolicy {
  p_scope_id : string;
  p_policy_json : string;
  max_calls : option Z;
  max_tokens : option Z;
  max_cost_microusd : option Z;
}.

Record ModelBudgetCharge := mkCharge {
  c_provider : string;
  c_model : string;
  input_tokens : Z;
  output_tokens : Z;
  c_cost_microusd : Z;
}.

(** A row of [model_budget_scopes]. *)
Record Scope := mkScope {
  policy_json : string;
  calls : Z;
  tokens : Z;
  cost_microusd : Z;
  terminal_reason : option string;
  blocked : bool;
}.

Inductive AttemptState := Reserved | Settled | Overrun.
#[export] Instance AttemptState_eq_dec : EqDecision AttemptState.
Proof. solve_decision. Defined.

(** A row of [model_budget_attempts]. *)
Record Attempt := mkAttempt {
  id : string;
  scope_id : string;
  provider : string;
  model : string;
  reserved_input : Z;
  reserved_output : Z;
  reserved_cost : Z;
  observed : option (Z * Z * Z);
  astate : AttemptState;
}.

Record Ledger := mkLedger {
  scopes : gmap string Scope;
  attempts : list Attempt;
}.
Definition empty_ledger : Ledger := mkLedger ∅ [].

Inductive StorageError := RowNotFound | ConstraintViolation.
Inductive ModelBudgetAdmission :=
| AdmReserved (id : string)
| AdmDenied (reason : string).

(** The CHECK constraints. *)
Definition scope_check (s : Scope) : bool :=
  (0 <=? calls s) && (0 <=? tokens s) && (0 <=? cost_microusd s).
Definition attempt_check (a : Attempt) : bool :=
  (0 <=? reserved_input a) && (0 <=? reserved_output a) && (0 <=? reserved_cost a).

Definition exceeds (value limit : option Z) : bool :=
  match value, limit with
  | None, _ => true
  | Some value, Some limit => limit <? value
  | Some _, None => false
  end.

(** The balances after a charge, [None] where [i64] overflows. *)
Definition new_calls (s : Scope) : option Z := checked_add_i64 (calls s) 1.
Definition new_tokens (s : Scope) (c : ModelBudgetCharge) : option Z :=
  value ← checked_add_i64 (input_tokens c) (output_tokens c);
  checked_add_i64 (tokens s) value.
Definition new_cost (s : Scope) (c : ModelBudgetCharge) : option Z :=
  checked_add_i64 (cost_microusd s) (c_cost_microusd c).

Definition denial (s : Scope) (p : ModelBudgetPolicy) (c : ModelBudgetCharge) : option string :=
  if negb (String.eqb (policy_json s) (p_policy_json p)) then Some "scope_limits_changed"
  else if blocked s then Some "usage_exceeded_reservation"
  else if exceeds (new_calls s) (max_calls p) then Some "calls_exhausted"
  else if exceeds (new_tokens s c) (max_tokens p) then Some "tokens_exhausted"
  else if exceeds (new_cost s c) (max_cost_microusd p) then Some "cost_exhausted"
  else None.

(** [INSERT ... ON CONFLICT DO NOTHING]. *)
Definition ensure_scope (p : ModelBudgetPolicy) (m : gmap string Scope) : gmap string Scope :=
  match m !! p_scope_id p with
  | Some _ => m
  | None => <[p_scope_id p := mkScope (p_policy_json p) 0 0 0 None false]> m
  end.

Definition reserve_model_budget (l : Ledger) (p : ModelBudgetPolicy) (c : ModelBudgetCharge)
    (new_id : string) : Ledger * Result StorageError ModelBudgetAdmission :=
  let m := ensure_scope p (scopes l) in
  match m !! p_scope_id p with
  | None => (l, Err RowNotFound)
  | Some s =>
      match denial s p c with
      | Some reason =>
          (mkLedger (<[p_scope_id p := mkScope (policy_json s) (calls s) (tokens s)
                         (cost_microusd s) (Some reason) (blocked s)]> m) (attempts l),
           Ok (AdmDenied reason))
      | None =>
          match new_calls s, new_tokens s c, new_cost s c with
          | Some n, Some t, Some k =>
              let s' := mkScope (policy_json s) n t k (terminal_reason s) (blocked s) in
              let a := mkAttempt new_id (p_scope_id p) (c_provider c) (c_model c)
                         (input_tokens c) (output_tokens c) (c_cost_microusd c) None Reserved in
              if scope_check s' && attempt_check a
                 && negb (existsb (fun b => String.eqb (id b) new_id) (attempts l))
              then (mkLedger (<[p_scope_id p := s']> m) (attempts l ++ [a]), Ok (AdmReserved new_id))
              else (l, Err ConstraintViolation)
          | _, _, _ => (l, Err ConstraintViolation)
          end
      end
  end.

(** [UPDATE model_budget_attempts SET ... WHERE id = ? AND state = ?]. *)
Definition open_attempt (i : string) (a : Attempt) : bool :=
  String.eqb (id a) i && bool_decide (astate a = Reserved).
Definition observe (i : string) (o : Z * Z * Z) (st : AttemptState) (a : Attempt) : Attempt :=
  if open_attempt i a
  then mkAttempt (id a) (scope_id a) (provider a) (model a) (reserved_input a) (reserved_output a)
         (reserved_cost a) (Some o) st
  else a.

Definition within_reservation (a : Attempt) (input output cost : Z) : bool :=
  (0 <=? input) && (0 <=? output) && (0 <=? cost) && (input <=? reserved_input a)
  && (output <=? reserved_output a) && (cost <=? reserved_cost a).

Definition refund (t k : Z) (s : Scope) : Scope :=
  mkScope (policy_json s) (calls s) (tokens s - t) (cost_microusd s - k) (terminal_reason s) (blocked s).
Definition block (s : Scope) : Scope :=
  mkScope (policy_json s) (calls s) (tokens s) (cost_microusd s)
    (Some "usage_exceeded_reservation") true.

Definition settle_model_budget (l : Ledger) (i : string) (input output cost : Z)
    : Ledger * Result StorageError bool :=
  match find_map (fun a => if String.eqb (id a) i then Some a else None) (attempts l) with
  | None => (l, Err RowNotFound)
  | Some a =>
      if negb (existsb (open_attempt i) (attempts l))
      then (l, Ok (bool_decide (astate a = Settled)))
      else if within_reservation a input output cost then
        let t := (reserved_input a - input) + (reserved_output a - output) in
        let k := reserved_cost a - cost in
        let m := alter (refund t k) (scope_id a) (scopes l) in
        if from_option scope_check true (m !! scope_id a)
        then (mkLedger m (observe i (input, output, cost) Settled <$> attempts l), Ok true)
        else (l, Err ConstraintViolation)
      else (mkLedger (alter block (scope_id a) (scopes l))
              (observe i (input, output, cost) Overrun <$> attempts l), Ok false)
  end.

Definition model_budget_snapshot (l : Ledger) (s : string) : option Scope := scopes l !! s.

(** ** Runs *)
Inductive Op :=
| OpReserve (p : ModelBudgetPolicy) (c : ModelBudgetCharge) (new_id : string)
| OpSettle (i : string) (input output cost : Z).
Definition apply (l : Ledger) (o : Op) : Ledger :=
  match o with
  | OpReserve p c i => (reserve_model_budget l p c i).1
  | OpSettle i input output cost => (settle_model_budget l i input output cost).1
  end.
Definition run (ops : list Op) : Ledger := fold_left apply ops empty_ledger.

(** ** What the ledger adds up to *)
Definition charge_tokens (a : Attempt) : Z :=
  match astate a, observed a with
  | Settled, Some (i, o, _) => i + o
  | _, _ => reserved_input a + reserved_output a
  end.
Definition charge_cost (a : Attempt) : Z :=
  match astate a, observed a with Settled, Some (_, _, k) => k | _, _ => reserved_cost a end.

(** The total of [f] over a scope's attempts. *)
Fixpoint total (f : Attempt -> Z) (s : string) (l : list Attempt) : Z :=
  match l with
  | [] => 0
  | a :: l => (if String.eqb (scope_id a) s then f a else 0) + total f s l
  end.
Definition overran (s : string) (a : Attempt) : bool :=
  String.eqb (scope_id a) s && bool_decide (astate a = Overrun).

Definition attempt_ok (a : Attempt) : Prop :=
  attempt_check a = true /\
  match astate a, observed a with
  | Settled, Some (i, o, k) => within_reservation a i o k = true
  | Settled, None => False
  | _, _ => True
  end.

Definition le_limit (v : Z) (limit : option Z) : Prop :=
  match limit with Some m => v <= m | None => True end.

Section limits.
(** The limits a serialized policy stands for. *)
Context (limits_of : string -> option Z * option Z * option Z).

Definition consistent (o : Op) : Prop :=
  match o with
  | OpReserve p _ _ =>
      limits_of (p_policy_json p) = (max_calls p, max_tokens p, max_cost_microusd p) /\
      match max_calls p with Some m => 0 <= m | None => True end /\
      match max_tokens p with Some m => 0 <= m | None => True end /\
      match max_cost_microusd p with Some m => 0 <= m | None => True end
  | OpSettle _ _ _ _ => True
  end.

Definition scope_ok (l : list Attempt) (s : string) (sc : Scope) : Prop :=
  calls sc = total (fun _ => 1) s l /\ tokens sc = total charge_tokens s l /\
  cost_microusd sc = total charge_cost s l /\ blocked sc = existsb (overran s) l /\
  let '(lc, lt, lk) := limits_of (policy_json sc) in
  le_limit (calls sc) lc /\ le_limit (tokens sc) lt /\ le_limit (cost_microusd sc) lk.

Definition balanced (l : Ledger) : Prop :=
  NoDup (id <$> attempts l) /\ Forall attempt_ok (attempts l) /\
  Forall (fun a => is_Some (scopes l !! scope_id a)) (attempts l) /\
  map_Forall (scope_ok (attempts l)) (scopes l).

Lemma total_app f s l k : total f s (l ++ k) = total f s l + total f s k.
Proof. induction l as [|a l IH]; cbn; [done|]. rewrite IH. lia. Qed.
Lemma total_absent f s l : Forall (fun a => scope_id a <> s) l -> total f s l = 0.
Proof.
  induction 1 as [|a l Ha _ IH]; cbn; [done|]. by rewrite (proj2 (String.eqb_neq _ _) Ha), IH.
Qed.
Lemma overran_ne s a : scope_id a <> s -> overran s a = false.
Proof. intros Ha. unfold overran. by rewrite (proj2 (String.eqb_neq _ _) Ha). Qed.
Lemma overran_absent s l : Forall (fun a => scope_id a <> s) l -> existsb (overran s) l = false.
Proof.
  induction 1 as [|a l Ha _ IH]; cbn; [done|]. unfold overran at 1.
  by rewrite (proj2 (String.eqb_neq _ _) Ha), IH.
Qed.

Lemma charges_bound a : attempt_ok a ->
  0 <= charge_tokens a <= reserved_input a + reserved_output a /\
  0 <= charge_cost a <= reserved_cost a.
Proof.
  unfold attempt_ok, attempt_check, charge_tokens, charge_cost, within_reservation.
  intros [Hc Ho]. destruct (astate a); [lia| |lia]. destruct (observed a) as [[[i o] k]|]; lia.
Qed.

Lemma ensure_scope_balanced l p m :
  balanced l -> consistent (OpReserve p (mkCharge "" "" 0 0 0) "") -> m = ensure_scope p (scopes l) ->
  balanced (mkLedger m (attempts l)) /\
  exists s, m !! p_scope_id p = Some s /\
    (policy_json s = p_policy_json p -> limits_of (policy_json s)
       = (max_calls p, max_tokens p, max_cost_microusd p)).
Proof.
  intros (Hnd & Ha & Hs & Hsc) (Hl & H1 & H2 & H3) ->. unfold ensure_scope.
  destruct (scopes l !! p_scope_id p) as [s|] eqn:E.
  { split; [by split_and!|]. exists s. split; [done|]. by intros ->. }
  rewrite lookup_insert_eq. split; [|eexists; split; [done|]; intros _; exact Hl].
  assert (Habs : Forall (fun a => scope_id a <> p_scope_id p) (attempts l)).
  { eapply Forall_impl; [|exact Hs]. intros a [x Hx] Heq. rewrite Heq in Hx. congruence. }
  split_and!; [done..| |].
  - eapply Forall_impl; [|exact Hs]. cbn. intros a [x Hx]. apply lookup_insert_is_Some'. eauto.
  - apply map_Forall_insert_2; [|done]. unfold scope_ok; cbn.
    rewrite !total_absent, overran_absent, Hl by done. split_and!; try done; unfold le_limit.
    all: repeat case_match; lia.
Qed.

Lemma le_limit_exceeds v limit : exceeds (Some v) limit = false -> le_limit v limit.
Proof. unfold le_limit; cbn. destruct limit; [|done]. lia. Qed.

Lemma denial_none s p c : denial s p c = None ->
  policy_json s = p_policy_json p /\ blocked s = false /\
  exceeds (new_calls s) (max_calls p) = false /\ exceeds (new_tokens s c) (max_tokens p) = false /\
  exceeds (new_cost s c) (max_cost_microusd p) = false.
Proof.
  unfold denial. destruct (String.eqb_spec (policy_json s) (p_policy_json p)); [|done].
  destruct (blocked s); [done|]. repeat (case_match; try done).
Qed.

Lemma i64_of_Some z v : i64_of z = Some v -> v = z.
Proof. unfold i64_of. case_match; naive_solver. Qed.
Lemma new_tokens_Some s c t :
  new_tokens s c = Some t -> t = tokens s + (input_tokens c + output_tokens c).
Proof.
  unfold new_tokens, checked_add_i64. destruct (i64_of (input_tokens c + _)) as [v|] eqn:E; [|done].
  cbn. apply i64_of_Some in E as ->. apply i64_of_Some.
Qed.

Lemma scope_ok_snoc_ne l a s sc : scope_id a <> s -> scope_ok l s sc -> scope_ok (l ++ [a]) s sc.
Proof.
  intros Ha. unfold scope_ok. rewrite !total_app, existsb_app. cbn. unfold overran at 3.
  rewrite (proj2 (String.eqb_neq _ _) Ha). cbn. by rewrite !Z.add_0_r, orb_false_r.
Qed.

Lemma reserve_balanced l p c i :
  balanced l -> consistent (OpReserve p c i) -> balanced (reserve_model_budget l p c i).1.
Proof.
  intros Hb Hcons. unfold reserve_model_budget.
  destruct (ensure_scope_balanced l p _ Hb Hcons eq_refl) as [Hb' (s & Hs & Hlim)].
  set (m := ensure_scope p (scopes l)) in *. rewrite Hs.
  pose proof Hb' as (Hnd & Hat & Hsc & Hok). cbn [scopes attempts] in *.
  pose proof (Hok _ _ Hs) as Hsok.
  destruct (denial s p c) as [reason|] eqn:Hden.
  - split_and!; cbn [scopes attempts fst]; [done..| |].
    + eapply Forall_impl; [|exact Hsc]. intros a Ha. by apply lookup_insert_is_Some'; right.
    + by apply map_Forall_insert_2.
  - destruct (denial_none _ _ _ Hden) as (Hjson & Hblk & Hec & Het & Hek).
    destruct (new_calls s) as [n|] eqn:En; [|done]. destruct (new_tokens s c) as [t|] eqn:Et; [|done].
    destruct (new_cost s c) as [k|] eqn:Ek; [|done].
    destruct (_ && _ && negb _) eqn:Hchk; [|done]. rewrite !andb_true_iff in Hchk.
    destruct Hchk as [[_ Hac] Hfresh]. apply i64_of_Some in En, Ek. apply new_tokens_Some in Et.
    set (a := mkAttempt _ _ _ _ _ _ _ _ _) in *.
    assert (Hnew : i ∉ (id <$> attempts l)).
    { intros (b & Hid & Hin)%list_elem_of_fmap. apply negb_true_iff in Hfresh.
      assert (existsb (fun b => String.eqb (id b) i) (attempts l) = true); [|congruence].
      apply existsb_exists. exists b. split; [by apply list_elem_of_In|]. rewrite <- Hid.
      apply String.eqb_refl. }
    split_and!; cbn [scopes attempts fst].
    + rewrite fmap_app. apply list.NoDup_app. split_and!; [done| |apply NoDup_singleton].
      intros x Hx ->%list_elem_of_singleton. done.
    + apply Forall_app. split; [done|]. by repeat constructor.
    + apply Forall_app. split.
      * eapply Forall_impl; [|exact Hsc]. intros b Hbs. by apply lookup_insert_is_Some'; right.
      * constructor; [|constructor]. cbn. rewrite lookup_insert_eq. eauto.
    + intros s0 sc0. destruct (decide (s0 = p_scope_id p)) as [->|Hne].
      * rewrite lookup_insert_eq. intros [= <-]. destruct Hsok as (H1 & H2 & H3 & H4 & _).
        unfold scope_ok; cbn. rewrite (Hlim Hjson), !total_app, existsb_app. cbn.
        assert (overran (p_scope_id p) a = false) as -> by (unfold overran; apply andb_false_r).
        rewrite String.eqb_refl, H4, orb_false_r; cbn.
        split_and!; try lia; by apply le_limit_exceeds.
      * rewrite lookup_insert_ne by done. intros Hsc0. apply scope_ok_snoc_ne; [|by apply Hok].
        intros Heq. by apply Hne.
Qed.

(** Settling changes exactly one row. *)
Lemma observe_other i o st l : Forall (fun a => id a <> i) l -> observe i o st <$> l = l.
Proof.
  induction 1 as [|a l Ha _ IH]; [done|]. rewrite fmap_cons, IH. f_equal.
  unfold observe, open_attempt. by rewrite (proj2 (String.eqb_neq _ _) Ha).
Qed.
Lemma NoDup_split i l a :
  NoDup (id <$> l) -> find_map (fun a => if String.eqb (id a) i then Some a else None) l = Some a ->
  exists l1 l2, l = l1 ++ a :: l2 /\ id a = i /\
    Forall (fun b => id b <> i) l1 /\ Forall (fun b => id b <> i) l2.
Proof.
  induction l as [|b l IH]; [done|]. rewrite fmap_cons. intros [Hb Hnd]%list.NoDup_cons. cbn.
  destruct (String.eqb_spec (id b) i) as [Hi|Hi].
  - intros [= <-]. exists [], l. split_and!; try done.
    apply list.Forall_forall. intros x Hx Heq. apply Hb. rewrite Hi, <- Heq.
    by apply list_elem_of_fmap_2.
  - intros (l1 & l2 & -> & ? & ? & ?)%IH; [|done]. exists (b :: l1), l2. by split_and!; [..|constructor|].
Qed.
Lemma open_absent i l : Forall (fun b => id b <> i) l -> existsb (open_attempt i) l = false.
Proof.
  induction 1 as [|b l Hb _ IH]; [done|]. cbn. unfold open_attempt at 1.
  by rewrite (proj2 (String.eqb_neq _ _) Hb), IH.
Qed.

(** The row a settlement finds, and what it does to the rest. *)
Lemma settle_cases l i input output cost :
  NoDup (id <$> attempts l) ->
  match settle_model_budget l i input output cost with
  | (l', r) =>
      l' = l \/
      exists l1 a l2, attempts l = l1 ++ a :: l2 /\ id a = i /\ astate a = Reserved /\
        if within_reservation a input output cost
        then r = Ok true /\
             l' = mkLedger (alter (refund ((reserved_input a - input) + (reserved_output a - output))
                       (reserved_cost a - cost)) (scope_id a) (scopes l))
                    (l1 ++ observe i (input, output, cost) Settled a :: l2)
        else r = Ok false /\
             l' = mkLedger (alter block (scope_id a) (scopes l))
                    (l1 ++ observe i (input, output, cost) Overrun a :: l2)
  end.
Proof.
  intros Hnd. unfold settle_model_budget. destruct (find_map _ _) as [a|] eqn:Ef; [|by left].
  apply NoDup_split in Ef as (l1 & l2 & Hl & Hi & H1 & H2); [|done].
  destruct (existsb (open_attempt i) (attempts l)) eqn:Eo; cbn [negb]; [|by left].
  rewrite Hl, existsb_app in Eo. cbn in Eo. rewrite !open_absent in Eo by done.
  rewrite orb_false_r in Eo. unfold open_attempt in Eo. apply andb_true_iff in Eo as [_ Eo].
  apply bool_decide_eq_true in Eo.
  assert (Hmap : forall o st, observe i o st <$> attempts l = l1 ++ observe i o st a :: l2).
  { intros o st. rewrite Hl, fmap_app, fmap_cons, !observe_other by done. done. }
  destruct (within_reservation a input output cost) eqn:Ew.
  - destruct (from_option _ _ _); [|by left]. right. exists l1, a, l2. rewrite Ew, Hmap. by split_and!.
  - right. exists l1, a, l2. rewrite Ew, Hmap. by split_and!.
Qed.

Lemma observe_reserved i o st a : id a = i -> astate a = Reserved ->
  observe i o st a = mkAttempt (id a) (scope_id a) (provider a) (model a) (reserved_input a)
    (reserved_output a) (reserved_cost a) (Some o) st.
Proof.
  intros Hi Hs. unfold observe, open_attempt. by rewrite Hi, String.eqb_refl, bool_decide_eq_true_2.
Qed.

(** Replacing an attempt and its scope's row together. *)
Lemma balanced_replace l l1 a a' l2 f :
  balanced l -> attempts l = l1 ++ a :: l2 -> id a' = id a -> scope_id a' = scope_id a ->
  attempt_ok a' ->
  (forall sc, scope_ok (attempts l) (scope_id a) sc -> scope_ok (l1 ++ a' :: l2) (scope_id a) (f sc)) ->
  balanced (mkLedger (alter f (scope_id a) (scopes l)) (l1 ++ a' :: l2)).
Proof.
  intros (Hnd & Hat & Hsc & Hok) Hl Hid Hs Hok' Hf. rewrite Hl in Hnd, Hat, Hsc.
  assert (Hdom : forall s, is_Some (scopes l !! s) -> is_Some (alter f (scope_id a) (scopes l) !! s)).
  { intros s [x Hx]. destruct (decide (scope_id a = s)) as [->|];
      [rewrite lookup_alter_eq, Hx | rewrite lookup_alter_ne by done]; eauto. }
  unfold balanced; cbn [scopes attempts]. split_and!.
  - rewrite fmap_app, fmap_cons in *. by rewrite Hid.
  - apply Forall_app in Hat as [? [_ ?]%Forall_cons_iff]. apply Forall_app. split; [done|by constructor].
  - apply Forall_app in Hsc as [H1 [H2 H3]%Forall_cons_iff]. apply Forall_app.
    split; [|constructor; [rewrite Hs; by apply Hdom|]]; (eapply Forall_impl; [|done]); cbn; auto.
  - intros s sc. destruct (decide (scope_id a = s)) as [<-|Hne].
    + rewrite lookup_alter_eq. destruct (scopes l !! scope_id a) as [sc0|] eqn:E; [|done]. cbn.
      intros [= <-]. apply Hf, Hok, E.
    + rewrite lookup_alter_ne by done. intros E. specialize (Hok s sc E).
      unfold scope_ok in *. rewrite Hl in Hok. rewrite !total_app, existsb_app in Hok |- *. cbn in Hok |- *.
      rewrite (overran_ne s a), (proj2 (String.eqb_neq _ _) Hne) in Hok by done.
      rewrite (overran_ne s a'), Hs, (proj2 (String.eqb_neq _ _) Hne) by congruence. exact Hok.
Qed.

Lemma settle_balanced l i input output cost :
  balanced l -> balanced (settle_model_budget l i input output cost).1.
Proof.
  intros Hb. pose proof Hb as (Hnd & Hat & _ & _).
  pose proof (settle_cases l i input output cost Hnd) as H.
  destruct (settle_model_budget _ _ _ _ _) as [l' r]. cbn. destruct H as [-> | H]; [done|].
  destruct H as (l1 & a & l2 & Hl & Hi & Hst & H). rewrite Hl in Hat.
  apply Forall_app in Hat as [_ [Haok _]%Forall_cons_iff]. pose proof (charges_bound a Haok) as Hba.
  assert (Hra : charge_tokens a = reserved_input a + reserved_output a /\ charge_cost a = reserved_cost a)
    by (unfold charge_tokens, charge_cost; by rewrite Hst).
  assert (Hoa : overran (scope_id a) a = false)
    by (unfold overran; by rewrite Hst, andb_false_r).
  destruct (within_reservation a input output cost) eqn:Ew; destruct H as [_ ->];
    rewrite (observe_reserved i _ _ a Hi Hst); set (a' := mkAttempt _ _ _ _ _ _ _ _ _).
  - assert (Hok' : attempt_ok a') by (split; [exact (proj1 Haok)|exact Ew]).
    apply balanced_replace; try done. intros sc (H1 & H2 & H3 & H4 & H5).
    unfold scope_ok. cbn. rewrite Hl in *. rewrite !total_app, existsb_app in *. cbn in *.
    rewrite String.eqb_refl, Hoa in *. unfold overran at 2. cbn.
    rewrite String.eqb_refl; cbn. unfold within_reservation in Ew.
    destruct (limits_of (policy_json sc)) as [[lc lt] lk].
    split_and!; try lia; [done|..]; unfold le_limit in *; repeat case_match; try done; lia.
  - assert (Hok' : attempt_ok a') by (split; [exact (proj1 Haok)|exact I]).
    apply balanced_replace; try done. intros sc (H1 & H2 & H3 & H4 & H5).
    unfold scope_ok. cbn. rewrite Hl in *. rewrite !total_app, existsb_app in *. cbn in *.
    rewrite String.eqb_refl in *. unfold overran at 2. cbn. rewrite String.eqb_refl; cbn.
    split_and!; try lia; [|done]. by rewrite orb_true_r.
Qed.

End limits.

(** ** Settlement is final *)
Lemma find_in l a :
  NoDup (id <$> l) -> a ∈ l ->
  find_map (fun b => if String.eqb (id b) (id a) then Some b else None) l = Some a.
Proof.
  induction l as [|b l IH]; [by intros _ ?%not_elem_of_nil|].
  rewrite fmap_cons. intros [Hb Hnd]%list.NoDup_cons [->|Hin]%elem_of_cons; cbn.
  - by rewrite String.eqb_refl.
  - rewrite (proj2 (String.eqb_neq _ _)); [by apply IH|].
    intros Heq. apply Hb. rewrite Heq. by apply list_elem_of_fmap_2.
Qed.
Lemma open_in l a :
  NoDup (id <$> l) -> a ∈ l ->
  existsb (open_attempt (id a)) l = bool_decide (astate a = Reserved).
Proof.
  intros Hnd Hin.
  destruct (NoDup_split (id a) l a Hnd (find_in l a Hnd Hin)) as (l1 & l2 & -> & _ & H1 & H2).
  rewrite existsb_app. cbn. rewrite !open_absent, orb_false_r by done.
  unfold open_attempt. by rewrite String.eqb_refl.
Qed.

Lemma total_nonneg f s l : Forall (fun b => 0 <= f b) l -> 0 <= total f s l.
Proof. induction 1; cbn; [done|]. case_match; lia. Qed.
Lemma charges_nonneg l : Forall attempt_ok l ->
  Forall (fun b => 0 <= charge_tokens b) l /\ Forall (fun b => 0 <= charge_cost b) l.
Proof.
  intros Hl. split; (eapply Forall_impl; [|exact Hl]); intros b Hb; apply charges_bound in Hb; lia.
Qed.
(** An attempt's own charge is part of its scope's total. *)
Lemma total_ge f a l : Forall (fun b => 0 <= f b) l -> a ∈ l -> f a <= total f (scope_id a) l.
Proof.
  induction 1 as [|b l Hb Hl IH]; [by intros ?%not_elem_of_nil|].
  intros [->|Hin]%elem_of_cons; cbn.
  - rewrite String.eqb_refl. pose proof (total_nonneg f (scope_id b) l Hl). lia.
  - specialize (IH Hin). case_match; lia.
Qed.

(** A refund passes the CHECK constraints. *)
Lemma refund_check lim l a sc input output cost :
  balanced lim l -> a ∈ attempts l -> astate a = Reserved -> scopes l !! scope_id a = Some sc ->
  within_reservation a input output cost = true ->
  scope_check (refund ((reserved_input a - input) + (reserved_output a - output))
    (reserved_cost a - cost) sc) = true.
Proof.
  intros (_ & Hat & _ & Hok) Hin Hst Hs Ew. destruct (Hok _ _ Hs) as (Hc & Ht & Hk & _).
  destruct (charges_nonneg _ Hat) as [P1 P2].
  apply (total_ge _ a) in P1, P2; [|done..].
  pose proof (total_nonneg (fun _ => 1) (scope_id a) (attempts l)
    ltac:(apply list.Forall_forall; intros; lia)).
  unfold charge_tokens at 1 in P1. unfold charge_cost at 1 in P2. rewrite Hst in P1, P2.
  unfold scope_check, refund, within_reservation in *; cbn. lia.
Qed.

Lemma settle_open_within lim l a input output cost :
  balanced lim l -> a ∈ attempts l -> astate a = Reserved ->
  within_reservation a input output cost = true ->
  exists m, settle_model_budget l (id a) input output cost
    = (mkLedger m (observe (id a) (input, output, cost) Settled <$> attempts l), Ok true).
Proof.
  intros Hb Hin Hst Ew. pose proof Hb as (Hnd & _ & Hsc & _). unfold settle_model_budget.
  rewrite find_in, open_in, Hst by done. cbn [negb bool_decide decide_rel]. rewrite Ew.
  rewrite list.Forall_forall in Hsc. destruct (Hsc a Hin) as [sc Hs].
  rewrite lookup_alter_eq, Hs. cbn [fmap option_fmap option_map from_option].
  rewrite (refund_check lim l a sc) by done. rewrite bool_decide_eq_true_2 by done. cbn. eauto.
Qed.

Lemma settle_closed l a input output cost :
  NoDup (id <$> attempts l) -> a ∈ attempts l -> astate a <> Reserved ->
  settle_model_budget l (id a) input output cost = (l, Ok (bool_decide (astate a = Settled))).
Proof.
  intros Hnd Hin Hs. unfold settle_model_budget. rewrite find_in, open_in by done.
  by rewrite bool_decide_eq_false_2.
Qed.

(** A settlement's answer, and the attempt that will give it again. *)
Lemma settle_result lim l i input output cost :
  balanced lim l ->
  let '(l1, r) := settle_model_budget l i input output cost in
  match r with
  | Ok b => exists a, a ∈ attempts l1 /\ id a = i /\ astate a <> Reserved /\
              b = bool_decide (astate a = Settled)
  | Err e => e = RowNotFound /\ l1 = l /\ i ∉ (id <$> attempts l)
  end.
Proof.
  intros Hb. pose proof Hb as (Hnd & _).
  destruct (decide (i ∈ (id <$> attempts l))) as [(a & -> & Hin)%list_elem_of_fmap|Hi].
  2:{ unfold settle_model_budget. destruct (find_map _ _) as [a|] eqn:Ef; [|done].
      apply find_map_Some in Ef as (b & Hin & Hbi). destruct (String.eqb_spec (id b) i); [|done].
      destruct Hi. apply list_elem_of_fmap. eauto. }
  assert (Hobs : forall o st, observe (id a) o st a ∈ observe (id a) o st <$> attempts l)
    by (intros; by apply list_elem_of_fmap_2).
  destruct (decide (astate a = Reserved)) as [Hst|Hst].
  2:{ rewrite settle_closed by done. exists a. by split_and!. }
  destruct (within_reservation a input output cost) eqn:Ew.
  - destruct (settle_open_within lim l a input output cost) as [m ->]; [done..|].
    exists (observe (id a) (input, output, cost) Settled a). split; [apply Hobs|].
    by rewrite (observe_reserved (id a) _ _ a eq_refl Hst).
  - unfold settle_model_budget. rewrite find_in, open_in, bool_decide_eq_true_2, Ew by done. cbn.
    exists (observe (id a) (input, output, cost) Overrun a). split; [apply Hobs|].
    by rewrite (observe_reserved (id a) _ _ a eq_refl Hst).
Qed.

(** Other operations leave an open attempt open. *)
Definition settles (i : string) (o : Op) : bool :=
  match o with OpSettle j _ _ _ => String.eqb i j | OpReserve _ _ _ => false end.
Lemma open_apply l o a : settles (id a) o = false -> a ∈ attempts l -> a ∈ attempts (apply l o).
Proof.
  intros Ho Hin. destruct o as [p c i|i input output cost]; cbn in *.
  - unfold reserve_model_budget. repeat case_match; try done. cbn. apply elem_of_app. by left.
  - assert (Hobs : forall x st, observe i x st a = a).
    { intros. unfold observe, open_attempt. by rewrite Ho. }
    unfold settle_model_budget. repeat (case_match; try done); cbn;
      [rewrite <- (Hobs (input, output, cost) Settled)|rewrite <- (Hobs (input, output, cost) Overrun)];
      by apply list_elem_of_fmap_2.
Qed.
Lemma open_run l ops a : Forall (fun o => settles (id a) o = false) ops -> a ∈ attempts l ->
  a ∈ attempts (fold_left apply ops l).
Proof.
  intros Hops. revert l. induction Hops as [|o ops Ho _ IH]; intros l Hin; [done|].
  by apply IH, open_apply.
Qed.
Lemma balanced_fold lim l ops :
  balanced lim l -> Forall (consistent lim) ops -> balanced lim (fold_left apply ops l).
Proof.
  intros Hl Hops. revert l Hl. induction Hops as [|o ops Ho _ IH]; intros l Hl; [done|].
  apply IH. destruct o; cbn; [by apply reserve_balanced|by apply settle_balanced].
Qed.

Lemma run_balanced lim ops : Forall (consistent lim) ops -> balanced lim (run ops).
Proof.
  apply balanced_fold. split_and!; cbn; [apply NoDup_nil_2|constructor|constructor|apply map_Forall_empty].
Qed.

(** An overrun stays on record. *)
Lemma overran_apply s l o :
  existsb (overran s) (attempts l) = true -> existsb (overran s) (attempts (apply l o)) = true.
Proof.
  rewrite !existsb_exists. intros (a & Ha & Hs).
  assert (Hobs : forall i x st, observe i x st a = a).
  { intros. unfold observe, open_attempt. unfold overran in Hs. apply andb_true_iff in Hs as [_ Hs].
    apply bool_decide_eq_true in Hs. rewrite bool_decide_eq_false_2 by congruence.
    by rewrite andb_false_r. }
  exists a. split; [|done]. rewrite <- list_elem_of_In in *.
  destruct o; cbn; unfold reserve_model_budget, settle_model_budget; repeat case_match; try done;
    cbn; try (apply elem_of_app; by left).
  all: rewrite <- (Hobs i (input, output, cost) Settled) || rewrite <- (Hobs i (input, output, cost) Overrun).
  all: try by apply list_elem_of_fmap_2.
  rewrite (Hobs i _ Settled), <- (Hobs i (input, output, cost) Overrun). by apply list_elem_of_fmap_2.
Qed.
Lemma overran_run s l ops : existsb (overran s) (attempts l) = true ->
  existsb (overran s) (attempts (fold_left apply ops l)) = true.
Proof.
  revert l. induction ops as [|o ops IH]; intros l Hl; [done|]. by apply IH, overran_apply.
Qed.

Lemma reserve_blocked lim l p c i :
  balanced lim l -> existsb (overran (p_scope_id p)) (attempts l) = true ->
  exists reason, (reserve_model_budget l p c i).2 = Ok (AdmDenied reason).
Proof.
  intros (_ & _ & Hsc & Hok) Ho. assert (exists s, scopes l !! p_scope_id p = Some s) as [s Hs].
  { apply existsb_exists in Ho as (a & Ha & [Hs _]%andb_true_iff).
    apply String.eqb_eq in Hs. rewrite <- Hs. rewrite list.Forall_forall in Hsc.
    apply Hsc. by apply list_elem_of_In. }
  assert (Hb : blocked s = true) by (destruct (Hok _ _ Hs) as (_ & _ & _ & -> & _); done).
  unfold reserve_model_budget, ensure_scope. rewrite Hs, Hs.
  unfold denial. rewrite Hb. destruct (negb _); eauto.
Qed.

(** ** Properties *)
(** C7: after any run of reservations and settlements, valid or not, every
    scope's balance is exactly what its attempts add up to (full reservations
    until settled, observed usage afterwards, overruns at their reservation),
    it is blocked exactly when one of them overran, and calls, tokens and cost
    are within the limits its policy stands for. *)
Theorem ledger_balanced limits_of ops s sc :
  Forall (consistent limits_of) ops -> scopes (run ops) !! s = Some sc ->
  let l := attempts (run ops) in
  calls sc = total (fun _ => 1) s l /\ tokens sc = total charge_tokens s l /\
  cost_microusd sc = total charge_cost s l /\
  (blocked sc = true <-> exists a, a ∈ l /\ scope_id a = s /\ astate a = Overrun) /\
  Forall (fun a => 0 <= charge_tokens a <= reserved_input a + reserved_output a /\
                   0 <= charge_cost a <= reserved_cost a) l /\
  let '(lc, lt, lk) := limits_of (policy_json sc) in
  le_limit (calls sc) lc /\ le_limit (tokens sc) lt /\ le_limit (cost_microusd sc) lk.
Proof.
  intros Hops Hs l. destruct (run_balanced limits_of ops Hops) as (_ & Hat & _ & Hok).
  destruct (Hok s sc Hs) as (H1 & H2 & H3 & H4 & H5). split_and!; try done.
  - rewrite H4, existsb_exists. split.
    + intros (a & Ha & [Hi Ho]%andb_true_iff). exists a. rewrite list_elem_of_In.
      by rewrite String.eqb_eq in Hi; rewrite bool_decide_eq_true in Ho.
    + intros (a & Ha & Hi & Ho). exists a. rewrite <- list_elem_of_In. split; [done|].
      unfold overran. by rewrite Hi, String.eqb_refl, bool_decide_eq_true_2.
  - eapply Forall_impl; [|exact Hat]. apply charges_bound.
Qed.

(** Settling an attempt is final. It fails only for an unknown attempt, and
    then changes nothing; once it has answered, settling again with any figures
    gives the same answer and changes nothing; and when the answer is that
    usage exceeded the reservation, no later reservation in that scope is ever
    admitted, whatever happens in between. *)
Theorem settle_final limits_of ops i input output cost :
  Forall (consistent limits_of) ops ->
  let '(l, r) := settle_model_budget (run ops) i input output cost in
  match r with
  | Err e => e = RowNotFound /\ l = run ops /\ i ∉ (id <$> attempts l)
  | Ok b =>
      (forall input' output' cost', settle_model_budget l i input' output' cost' = (l, Ok b)) /\
      (b = false -> forall a later p c j,
         a ∈ attempts l -> id a = i -> p_scope_id p = scope_id a -> Forall (consistent limits_of) later ->
         exists reason, (reserve_model_budget (fold_left apply later l) p c j).2 = Ok (AdmDenied reason))
  end.
Proof.
  intros Hops. pose proof (run_balanced limits_of ops Hops) as Hb.
  pose proof (settle_result limits_of _ i input output cost Hb) as Hr.
  pose proof (settle_balanced limits_of _ i input output cost Hb) as Hb'.
  destruct (settle_model_budget _ _ _ _ _) as [l [b|e]]; cbn in Hb'.
  2:{ destruct Hr as (-> & -> & ?). by split_and!. }
  destruct Hr as (a & Ha & Hi & Hne & Hbd). split.
  - intros. rewrite <- Hi, (settle_closed l a) by (done || apply Hb'). by rewrite Hbd.
  - intros -> a' later p c j Ha' Hi' Hp Hlater.
    assert (a' = a) as ->.
    { destruct Hb' as (Hnd & _). apply list_elem_of_lookup in Ha as [n Hn], Ha' as [n' Hn'].
      assert (n = n') as ->; [|congruence]. apply (NoDup_lookup (id <$> attempts l) n n' i Hnd);
        rewrite list_lookup_fmap; [rewrite Hn | rewrite Hn']; cbn; congruence. }
    apply (reserve_blocked limits_of).
    + by apply balanced_fold.
    + apply overran_run. apply existsb_exists. exists a. split; [by apply list_elem_of_In|].
      unfold overran. rewrite <- Hp, String.eqb_refl. apply bool_decide_eq_true_2.
      symmetry in Hbd. apply bool_decide_eq_false in Hbd. by destruct (astate a).
Qed.

(** ** Witnesses *)
Definition sample_limits (_ : string) : option Z * option Z * option Z := (Some 2, Some 100, None).
Definition sample_policy : ModelBudgetPolicy := mkPolicy "trial" "{}" (Some 2) (Some 100) None.
Definition sample_ops : list Op :=
  [OpReserve sample_policy (mkCharge "p" "m" 40 20 7) "a"; OpSettle "a" 10 5 3;
   OpReserve sample_policy (mkCharge "p" "m" 60 20 7) "b";
   OpReserve sample_policy (mkCharge "p" "m" 1 1 1) "c"].

(** The first attempt's refund admits the second; the third call is denied. *)
Lemma ledger_balanced_witness :
  exists sc, scopes (run sample_ops) !! "trial" = Some sc /\
    tokens sc = 95 /\ terminal_reason sc = Some "calls_exhausted" /\ calls sc <= 2.
Proof.
  destruct (scopes (run sample_ops) !! "trial") as [sc|] eqn:E; [|vm_compute in E; discriminate].
  exists sc. split; [reflexivity|].
  destruct (ledger_balanced sample_limits sample_ops "trial" sc) as (_ & Ht & _ & _ & _ & Hl & _).
  - repeat constructor; vm_compute; congruence.
  - exact E.
  - split_and!; [rewrite Ht; vm_compute; reflexivity| |exact Hl].
    vm_compute in E. injection E as <-. reflexivity.
Defined.

(** Attempt [b] overruns: the scope stays closed. *)
Lemma settle_final_witness :
  let '(l, r) := settle_model_budget (run sample_ops) "b" 61 20 7 in
  r = Ok false /\ settle_model_budget l "b" 1 1 1 = (l, Ok false) /\
  exists reason, (reserve_model_budget l sample_policy (mkCharge "p" "m" 1 1 1) "d").2
                 = Ok (AdmDenied reason).
Proof.
  pose proof (settle_final sample_limits sample_ops "b" 61 20 7) as H.
  destruct (settle_model_budget (run sample_ops) "b" 61 20 7) as [l r] eqn:E.
  assert (r = Ok false) as -> by (vm_compute in E; congruence).
  destruct H as [H1 H2]; [repeat constructor; vm_compute; congruence|].
  split; [reflexivity|]. split; [apply H1|].
  apply (H2 eq_refl (mkAttempt "b" "trial" "p" "m" 60 20 7 (Some (61, 20, 7)) Overrun) []);
    [|reflexivity|reflexivity|constructor].
  vm_compute in E. injection E as <-. right. left.
Defined.
