(* ===== verification/BudgetDispatch.v ===== *)
(** * Budgeted provider calls

    Models [crates/hf-service/src/model_budget.rs] and
    [crates/hf-service/src/model_budget/dispatch.rs] on top of the [Budget]
    ledger: the policy an operator configures and the decorator that reserves
    before, and settles after, every upstream attempt.  JSON values, their
    serialization and error texts of other crates are parameters; whether the
    store connects is an argument of each use. *)
From S2P Require Import Prelude Provider Budget.
From Stdlib Require Import SpecFloat.

Record ModelBudgetSettings := mkSettings {
  scope_id : option string;
  max_calls : option Z;
  max_tokens : option Z;
  max_cost_microusd : option Z;
  max_output_tokens : Z;
}.
#[export] Instance ModelBudgetSettings_eq_dec : EqDecision ModelBudgetSettings.
Proof. solve_decision. Defined.

Definition default_settings : ModelBudgetSettings := mkSettings None None None None 4096.

Definition is_some {A} (o : option A) : bool := match o with Some _ => true | None => false end.
Definition enabled (s : ModelBudgetSettings) : bool :=
  is_some (max_calls s) || is_some (max_tokens s) || is_some (max_cost_microusd s).

Definition scope_byte (c : Ascii.ascii) : bool :=
  let n := Ascii.N_of_ascii c in
  ((48 <=? n) && (n <=? 57))%N || ((65 <=? n) && (n <=? 90))%N || ((97 <=? n) && (n <=? 122))%N
  || existsb (N.eqb n) [45; 95; 46; 58]%N.

Definition bad_limit (l : option Z) : bool :=
  match l with Some v => (v =? 0) || (i64_MAX <? v) | None => false end.

(** [validate]; [feature] is the [model-budgets] build flag. *)
Definition validate (feature : bool) (s : ModelBudgetSettings) : Result string unit :=
  if negb feature && negb (bool_decide (s = default_settings))
  then Err "model_budget requires the model-budgets feature"
  else if (max_output_tokens s =? 0) || (1000000 <? max_output_tokens s)
  then Err "model_budget.max_output_tokens must be within 1..=1000000"
  else
    match find_map (fun '(name, limit) => if bad_limit limit then Some name else None)
            [("max_calls", max_calls s); ("max_tokens", max_tokens s);
             ("max_cost_microusd", max_cost_microusd s)] with
    | Some name => Err ("model_budget." +:+ name +:+ " must be within 1..=i64::MAX")
    | None =>
        match scope_id s with
        | Some scope =>
            if String.eqb scope "" || (128 <? Z.of_nat (String.length scope))
               || negb (forallb scope_byte (String.list_ascii_of_string scope))
            then Err "model_budget.scope_id must contain 1..=128 ASCII letters, digits, or -_.:"
            else if negb (enabled s)
            then Err "model_budget.scope_id requires at least one spending limit"
            else Ok tt
        | None =>
            if enabled s then Err "model_budget.scope_id is required when a limit is configured"
            else Ok tt
        end
    end.

(** ** Pricing *)
(** [f64::ceil], as an integer; [None] when not finite. *)
Definition f64_ceil (x : f64) : option Z :=
  match x with
  | S754_zero _ => Some 0
  | S754_finite false m e => Some (if 0 <=? e then Z.pos m * 2 ^ e else - (- Z.pos m / 2 ^ (- e)))
  | S754_finite true m e => Some (if 0 <=? e then - Z.pos m * 2 ^ e else - (Z.pos m / 2 ^ (- e)))
  | S754_infinity _ | S754_nan => None
  end.

(** The charge of [tokens] at a rate, in microdollars. *)
Definition charge (tokens : Z) (rate : f64) : option Z :=
  rate ← f64_ceil (f64_mul rate (f64_of 1000000));
  if (rate <? 0) || (2 ^ 63 <=? rate) then None
  else if tokens <? 0 then None
  else if 2 ^ 128 <=? tokens * rate then None
  else i64_of ((tokens * rate + 999) / 1000).

Definition price (input output : Z) (input_rate output_rate : f64) : Result string Z :=
  ok_or "cost_allowance_overflow"
    (i ← charge input input_rate; o ← charge output output_rate; checked_add_i64 i o).

(** ** Requests and usage *)
Inductive RequestMode := TextChat | ImageGeneration.
Inductive TokenUsageSource := ProviderReported | Estimated.

Record TokenUsage := mkUsage {
  u_input_tokens : Z;
  u_output_tokens : Z;
  cache_read_tokens : option Z;
  cache_write_tokens : option Z;
  source : TokenUsageSource;
}.

Record ChatRequest (J R : Type) := mkRequest {
  request_mode : RequestMode;
  request_model : option string;
  request_max_tokens : option Z;
  extra : J;
  request_rest : R;
}.
Arguments mkRequest {J R}.
Arguments request_mode {J R}.
Arguments request_model {J R}.
Arguments request_max_tokens {J R}.
Arguments extra {J R}.
Arguments request_rest {J R}.

(** An admitted attempt. *)
Record Attempt := mkAttempt {
  att_id : string;
  input_price : f64;
  output_price : f64;
  priced : bool;
}.

(** Input and output tokens a usage report stands for. *)
Definition settled_input (u : TokenUsage) : Z :=
  u_input_tokens u + default 0 (cache_read_tokens u) + default 0 (cache_write_tokens u).

Section dispatch.
Context {J R : Type} (is_null is_empty_object : J -> bool).
Context (to_json : ModelBudgetSettings -> Result string string).
Context (show_storage : StorageError -> string) (try_from_error : string).

(** The controller: its settings, or why they could not be loaded. *)
Context (settings : Result string ModelBudgetSettings).

Definition denied (reason : string) : ProviderError :=
  ModelBudgetDenied
    match settings with Ok s => default "configuration" (scope_id s) | Err _ => "configuration" end
    reason.

(** [OnceCell::get_or_try_init] of the store. *)
Definition store (connect : Result string unit) : Result ProviderError unit :=
  map_err (fun e => denied ("accounting_unavailable: " +:+ e)) connect.
Definition controller_settings : Result ProviderError ModelBudgetSettings :=
  map_err (fun e => denied ("invalid_configuration: " +:+ e)) settings.

(** [i64::try_from] of a limit, transposed. *)
Definition limit_i64 (l : option Z) : Result ProviderError (option Z) :=
  match l with
  | None => Ok None
  | Some v => match i64_of v with Some v => Ok (Some v) | None => Err (denied try_from_error) end
  end.

Definition is_priced (m : ProviderMetadata) : bool :=
  let positive x := match x with S754_finite false _ _ => true | _ => false end in
  positive (cost_per_1k_input m) && positive (cost_per_1k_output m).

Definition metered (s : ModelBudgetSettings) : bool :=
  is_some (max_tokens s) || is_some (max_cost_microusd s).

(** Request parameters whose spend the reservation could not bound. *)
Definition unbounded_parameters (m : ProviderMetadata) (request : ChatRequest J R) : bool :=
  match request_mode request with TextChat => false | _ => true end
  || match request_model request with Some md => negb (String.eqb md (Provider.model m)) | None => false end
  || negb (is_null (extra request) || is_empty_object (extra request)).

Definition set_max_tokens (n : Z) (r : ChatRequest J R) : ChatRequest J R :=
  mkRequest (request_mode r) (request_model r) (Some n) (extra r) (request_rest r).

(** Everything of [reserve] before the ledger: the request to send, the policy
    and the charge. *)
Definition prepare (m : ProviderMetadata) (request : ChatRequest J R)
    : Result ProviderError (ChatRequest J R * ModelBudgetPolicy * ModelBudgetCharge) :=
  s ← controller_settings;
  if metered s && unbounded_parameters m request then Err (denied "unbounded_request_parameters")
  else if is_some (max_cost_microusd s) && negb (is_priced m) then Err (denied "unknown_pricing")
  else
    let output := match request_max_tokens request with
                  | None => max_output_tokens s
                  | Some limit => Z.min limit (max_output_tokens s)
                  end in
    if (output =? 0) || (context_window m =? 0) then Err (denied "unbounded_token_allowance")
    else
      input ← ok_or (denied "token_allowance_overflow") (i64_of (context_window m));
      cost ← (if is_priced m
              then map_err denied (price input output (cost_per_1k_input m) (cost_per_1k_output m))
              else Ok 0);
      scope ← ok_or (denied "missing_scope") (scope_id s);
      json ← map_err denied (to_json s);
      mc ← limit_i64 (max_calls s);
      mt ← limit_i64 (max_tokens s);
      mk ← limit_i64 (max_cost_microusd s);
      Ok (set_max_tokens output request, mkPolicy scope json mc mt mk,
          mkCharge (Provider.id m) (Provider.model m) input output cost).

Definition reserve (l : Ledger) (m : ProviderMetadata) (request : ChatRequest J R)
    (connect : Result string unit) (new_id : string)
    : Ledger * Result ProviderError (ChatRequest J R * Attempt) :=
  match prepare m request with
  | Err e => (l, Err e)
  | Ok (effective, policy, charge) =>
      match store connect with
      | Err e => (l, Err e)
      | Ok _ =>
          match reserve_model_budget l policy charge new_id with
          | (l', Err e) => (l', Err (denied ("reservation_failed: " +:+ show_storage e)))
          | (l', Ok (AdmDenied reason)) => (l', Err (denied reason))
          | (l', Ok (AdmReserved i)) =>
              (l', Ok (effective, mkAttempt i (cost_per_1k_input m) (cost_per_1k_output m) (is_priced m)))
          end
      end
  end.

Definition settle (l : Ledger) (a : Attempt) (u : TokenUsage) (connect : Result string unit)
    : Ledger * Result ProviderError unit :=
  if match source u with ProviderReported => false | _ => true end
     || (u_input_tokens u =? 0) || (u_output_tokens u =? 0)
  then (l, Ok tt)
  else
    let input := settled_input u in
    let output := u_output_tokens u in
    match if priced a then map_err denied (price input output (input_price a) (output_price a))
          else Ok 0 with
    | Err e => (l, Err e)
    | Ok cost =>
        match store connect with
        | Err e => (l, Err e)
        | Ok _ =>
            match settle_model_budget l (att_id a) input output cost with
            | (l', Err e) => (l', Err (denied ("settlement_failed: " +:+ show_storage e)))
            | (l', Ok true) => (l', Ok tt)
            | (l', Ok false) => (l', Err (denied "usage_exceeded_reservation"))
            end
        end
    end.

(** [chat_completion]: the ledger left, the requests sent upstream, and the
    outcome; [inner] is the provider. *)
Definition chat_completion {A} (inner : ChatRequest J R -> Result ProviderError (TokenUsage * A))
    (l : Ledger) (m : ProviderMetadata) (request : ChatRequest J R)
    (connect connect' : Result string unit) (new_id : string)
    : Ledger * list (ChatRequest J R) * Result ProviderError A :=
  match reserve l m request connect new_id with
  | (l, Err e) => (l, [], Err e)
  | (l, Ok (request, attempt)) =>
      match inner request with
      | Err e => (l, [request], Err e)
      | Ok (usage, response) =>
          match settle l attempt usage connect' with
          | (l, Err e) => (l, [request], Err e)
          | (l, Ok _) => (l, [request], Ok response)
          end
      end
  end.

(** The [unfold] of a stream: the usage seen last and whether an item failed,
    then settlement at its end, whose failure is one more item. *)
Definition stream_state (items : list (Result ProviderError (option TokenUsage)))
    : option TokenUsage * bool :=
  fold_left (fun '(usage, failed) item =>
    match item with
    | Ok (Some u) => (Some u, failed)
    | Ok None => (usage, failed)
    | Err _ => (usage, true)
    end) items (None, false).

Definition stream_end (l : Ledger) (a : Attempt)
    (items : list (Result ProviderError (option TokenUsage))) (connect : Result string unit)
    : Ledger * option ProviderError :=
  match stream_state items with
  | (Some usage, false) =>
      match settle l a usage connect with
      | (l, Err e) => (l, Some e)
      | (l, Ok _) => (l, None)
      end
  | _ => (l, None)
  end.

Definition chat_completion_stream
    (inner : ChatRequest J R -> Result ProviderError (list (Result ProviderError (option TokenUsage))))
    (l : Ledger) (m : ProviderMetadata) (request : ChatRequest J R)
    (connect connect' : Result string unit) (new_id : string)
    : Ledger * list (ChatRequest J R) * Result ProviderError (option ProviderError) :=
  match reserve l m request connect new_id with
  | (l, Err e) => (l, [], Err e)
  | (l, Ok (request, attempt)) =>
      match inner request with
      | Err e => (l, [request], Err e)
      | Ok items =>
          let '(l, e) := stream_end l attempt items connect' in (l, [request], Ok e)
      end
  end.
End dispatch.

(** ** Lemmas: pricing *)
Lemma i64_of_in z : i64_MIN <= z <= i64_MAX -> i64_of z = Some z.
Proof. intros H. unfold i64_of. by destruct (_ && _) eqn:E; [|lia]. Qed.
Lemma i64_of_range z v : i64_of z = Some v -> v = z /\ i64_MIN <= v <= i64_MAX.
Proof. unfold i64_of. destruct (_ && _) eqn:E; [|done]. intros [= <-]. lia. Qed.

Lemma charge_mono t t' rate c :
  charge t rate = Some c -> 0 <= t' <= t -> exists c', charge t' rate = Some c' /\ 0 <= c' <= c.
Proof.
  unfold charge. destruct (f64_ceil _) as [r|]; [|done]. cbn.
  destruct ((r <? 0) || (2 ^ 63 <=? r)) eqn:Er; [done|]. destruct (Z.ltb_spec t 0); [done|].
  destruct (Z.leb_spec (2 ^ 128) (t * r)); [done|]. intros [-> Hc]%i64_of_range Ht.
  assert (0 <= t' * r <= t * r) by nia.
  assert (0 <= (t' * r + 999) / 1000) by (apply Z.div_pos; lia).
  assert ((t' * r + 999) / 1000 <= (t * r + 999) / 1000) by (apply Z.div_le_mono; lia).
  destruct (Z.ltb_spec t' 0); [lia|]. destruct (Z.leb_spec (2 ^ 128) (t' * r)); [lia|].
  eexists. split; [apply i64_of_in; unfold i64_MIN; lia|lia].
Qed.

Lemma price_mono i o i' o' ri ro c :
  price i o ri ro = Ok c -> 0 <= i' <= i -> 0 <= o' <= o ->
  exists c', price i' o' ri ro = Ok c' /\ 0 <= c' <= c.
Proof.
  unfold price. destruct (charge i ri) as [ci|] eqn:Ei; [|done]. cbn.
  destruct (charge o ro) as [co|] eqn:Eo; [|done]. cbn.
  destruct (checked_add_i64 ci co) as [x|] eqn:Ex; [|done]. intros [= <-] Hi Ho.
  destruct (charge_mono _ i' _ _ Ei Hi) as (ci' & -> & ?).
  destruct (charge_mono _ o' _ _ Eo Ho) as (co' & -> & ?). cbn.
  unfold checked_add_i64 in *. apply i64_of_range in Ex as [-> ?].
  rewrite i64_of_in by (unfold i64_MIN in *; lia). exists (ci' + co'). split; [done|lia].
Qed.

(** ** Lemmas: reservations *)
(** Settling keeps every row's reservation and scope. *)
Definition same_reservation (a b : Budget.Attempt) : Prop :=
  Budget.id a = Budget.id b /\ Budget.scope_id a = Budget.scope_id b /\
  reserved_input a = reserved_input b /\ reserved_output a = reserved_output b /\
  reserved_cost a = reserved_cost b.

Lemma same_reservation_refl l : Forall2 same_reservation l l.
Proof. induction l; by repeat constructor. Qed.
Lemma observe_same i o st l : Forall2 same_reservation (observe i o st <$> l) l.
Proof.
  induction l as [|a l IH]; [done|]. rewrite fmap_cons. constructor; [|done].
  unfold observe. by case_match.
Qed.
Lemma settle_same l i input output cost :
  Forall2 same_reservation (attempts (settle_model_budget l i input output cost).1) (attempts l).
Proof.
  unfold settle_model_budget. destruct (find_map _ _); cbn; [|apply same_reservation_refl].
  destruct (negb _); [apply same_reservation_refl|].
  repeat case_match; cbn; apply observe_same || apply same_reservation_refl.
Qed.

Lemma reserve_admitted l p c i l' j :
  reserve_model_budget l p c i = (l', Ok (AdmReserved j)) ->
  j = i /\ attempts l' = attempts l ++ [Budget.mkAttempt i (p_scope_id p) (c_provider c) (c_model c)
    (input_tokens c) (output_tokens c) (c_cost_microusd c) None Reserved].
Proof.
  unfold reserve_model_budget. repeat case_match; intros; simplify_eq/=; done.
Qed.
Lemma reserve_refused l p c i :
  (forall j, (reserve_model_budget l p c i).2 <> Ok (AdmReserved j)) ->
  attempts (reserve_model_budget l p c i).1 = attempts l.
Proof.
  unfold reserve_model_budget. repeat case_match; cbn; try done. intros Hn. by destruct (Hn i).
Qed.

Section runs.
Context {J R : Type} (is_null is_empty_object : J -> bool).
Context (to_json : ModelBudgetSettings -> Result string string).
Context (show_storage : StorageError -> string) (try_from_error : string).
Context (s : ModelBudgetSettings).

Notation request := (ChatRequest J R).
Notation prepare := (prepare is_null is_empty_object to_json try_from_error (Ok s)).
Notation reserve := (reserve is_null is_empty_object to_json show_storage try_from_error (Ok s)).
Notation settle := (settle show_storage (Ok s)).

(** What an admitted request may look like. *)
Definition bounded_request (m : ProviderMetadata) (r : request) : Prop :=
  exists n, request_max_tokens r = Some n /\ 1 <= n <= max_output_tokens s /\
    (metered s = true -> request_mode r = TextChat /\
       (forall md, request_model r = Some md -> md = Provider.model m) /\
       (is_null (extra r) || is_empty_object (extra r) = true)).

Definition limits (_ : string) : option Z * option Z * option Z :=
  (max_calls s, max_tokens s, max_cost_microusd s).

Lemma limit_i64_Some l l' : limit_i64 try_from_error (Ok s) l = Ok l' -> l' = l.
Proof.
  destruct l as [v|]; cbn; [|by intros [= <-]]. destruct (i64_of v) eqn:E; [|done].
  apply i64_of_range in E as [-> _]. by intros [= <-].
Qed.

Lemma prepare_Ok m r r' p c :
  prepare m r = Ok (r', p, c) ->
  match request_max_tokens r with Some n => 0 <= n | None => True end -> 0 <= context_window m ->
  0 <= max_output_tokens s ->
  bounded_request m r' /\
  request_max_tokens r' = Some (output_tokens c) /\ input_tokens c = context_window m /\
  scope_id s = Some (p_scope_id p) /\
  (Budget.max_calls p, Budget.max_tokens p, Budget.max_cost_microusd p) = limits (p_policy_json p) /\
  (if is_priced m
   then price (input_tokens c) (output_tokens c) (cost_per_1k_input m) (cost_per_1k_output m)
        = Ok (c_cost_microusd c)
   else c_cost_microusd c = 0).
Proof.
  intros H Hr Hw Hmo. unfold BudgetDispatch.prepare in H.
  cbn [controller_settings map_err mbind Result_bind] in H.
  destruct (metered s && unbounded_parameters is_null is_empty_object m r) eqn:Eu; [done|].
  destruct (is_some _ && _); [done|]. cbv zeta in H.
  set (output := match request_max_tokens r with None => _ | Some _ => _ end) in H.
  destruct ((output =? 0) || (context_window m =? 0)) eqn:Ez; [done|].
  destruct (i64_of (context_window m)) as [input|] eqn:Ei; [|done].
  apply i64_of_range in Ei as [-> _]. cbn [ok_or mbind Result_bind] in H.
  destruct (if is_priced m then _ else _) as [cost|] eqn:Ec; [|done]. cbn [mbind Result_bind] in H.
  destruct (scope_id s) as [scope|] eqn:Es; [|done]. cbn [ok_or mbind Result_bind] in H.
  destruct (map_err _ (to_json s)) as [json|] eqn:Ej; [|done]. cbn [mbind Result_bind] in H.
  destruct (limit_i64 _ _ (max_calls s)) as [mc|] eqn:E1; [|done]. cbn [mbind Result_bind] in H.
  destruct (limit_i64 _ _ (max_tokens s)) as [mt|] eqn:E2; [|done]. cbn [mbind Result_bind] in H.
  destruct (limit_i64 _ _ (max_cost_microusd s)) as [mk|] eqn:E3; [|done]. cbn [mbind Result_bind] in H.
  apply limit_i64_Some in E1, E2, E3. simplify_eq/=.
  assert (Hout : 1 <= output <= max_output_tokens s).
  { subst output. destruct (request_max_tokens r); lia. }
  split_and!; try done.
  - exists output. split; [done|]. split; [done|]. intros Hm. rewrite Hm in Eu. cbn in Eu.
    unfold unbounded_parameters in Eu. rewrite !orb_false_iff in Eu. destruct Eu as [[H1 H2] H3].
    cbn. split; [by destruct (request_mode r)|]. split; [|by apply negb_false_iff].
    intros md Hmd. rewrite Hmd in H2. by apply negb_false_iff, String.eqb_eq in H2.
  - destruct (is_priced m); [|congruence]. unfold map_err in Ec.
    destruct (price _ _ _ _); congruence.
Qed.

(** ** Runs of calls *)
Inductive Kind (A : Type) :=
| Whole (inner : request -> Result ProviderError (TokenUsage * A))
| Stream (inner : request -> Result ProviderError (list (Result ProviderError (option TokenUsage)))).
Arguments Whole {A}.
Arguments Stream {A}.

Record Call (A : Type) := mkCall {
  call_meta : ProviderMetadata;
  call_request : request;
  call_connects : Result string unit * Result string unit;
  call_id : string;
  call_kind : Kind A;
}.
Arguments mkCall {A}.
Arguments call_meta {A}.
Arguments call_request {A}.
Arguments call_connects {A}.
Arguments call_id {A}.
Arguments call_kind {A}.

(** One call: the ledger it leaves and the requests it sends upstream. *)
Definition do_call {A} (l : Ledger) (c : Call A) : Ledger * list request :=
  let '(k, k') := call_connects c in
  match call_kind c with
  | Whole inner =>
      (chat_completion is_null is_empty_object to_json show_storage try_from_error (Ok s)
         inner l (call_meta c) (call_request c) k k' (call_id c)).1
  | Stream inner =>
      (chat_completion_stream is_null is_empty_object to_json show_storage try_from_error (Ok s)
         inner l (call_meta c) (call_request c) k k' (call_id c)).1
  end.
Definition run_calls {A} (cs : list (Call A)) : Ledger * list request :=
  fold_left (fun '(l, sent) c => let '(l, r) := do_call l c in (l, sent ++ r)) cs
    (empty_ledger, []).

(** Machine types of a call's inputs. *)
Definition call_ok {A} (c : Call A) : Prop :=
  match request_max_tokens (call_request c) with Some n => 0 <= n | None => True end /\
  0 <= context_window (call_meta c).
Definition settings_ok : Prop :=
  0 <= max_output_tokens s /\
  match max_calls s with Some n => 0 <= n | None => True end /\
  match max_tokens s with Some n => 0 <= n | None => True end /\
  match max_cost_microusd s with Some n => 0 <= n | None => True end.

(** Every request sent has its own reservation. *)
Definition backed (r : request) (a : Budget.Attempt) : Prop :=
  request_max_tokens r = Some (reserved_output a) /\ scope_id s = Some (Budget.scope_id a) /\
  exists m, bounded_request m r.
Definition ledger_ok (l : Ledger) (sent : list request) : Prop :=
  balanced limits l /\ Forall2 backed sent (attempts l).

Lemma backed_same sent l l' :
  Forall2 backed sent l -> Forall2 same_reservation l' l -> Forall2 backed sent l'.
Proof.
  intros H1 H2. revert l' H2. induction H1 as [|r a rs l (Hm & Hs & He) _ IH];
    intros l' H2; inversion H2 as [|b ? bs ? (_ & Hsc & _ & Ho & _) Hrest]; subst; constructor; [|by apply IH].
  unfold backed. by rewrite Hsc, Ho.
Qed.

Lemma settle_ok l sent a u k : ledger_ok l sent -> ledger_ok (settle l a u k).1 sent.
Proof.
  intros [Hb Hs]. unfold BudgetDispatch.settle.
  destruct (_ || _ || _); [done|]. destruct (if priced a then _ else _) as [cost|]; [|done].
  destruct (store _ k); [|done].
  pose proof (settle_balanced limits l (att_id a) (settled_input u) (u_output_tokens u) cost Hb).
  pose proof (settle_same l (att_id a) (settled_input u) (u_output_tokens u) cost).
  destruct (settle_model_budget _ _ _ _ _) as [l' [[]|]]; cbn in *; split; try done;
    by eapply backed_same.
Qed.

Lemma reserve_ok l sent m r k i :
  settings_ok -> match request_max_tokens r with Some n => 0 <= n | None => True end ->
  0 <= context_window m -> ledger_ok l sent ->
  match reserve l m r k i with
  | (l', Err _) => ledger_ok l' sent
  | (l', Ok (r', _)) => ledger_ok l' (sent ++ [r'])
  end.
Proof.
  intros (Hmo & Hs1 & Hs2 & Hs3) Hr Hw [Hb Hs]. unfold BudgetDispatch.reserve.
  destruct (prepare m r) as [[[r' p] c]|e] eqn:Ep; [|done].
  destruct (store _ k); [|done].
  destruct (prepare_Ok _ _ _ _ _ Ep Hr Hw Hmo) as (Hbr & Hout & _ & Hscope & Hlim & _).
  assert (Hcons : consistent limits (OpReserve p c i)).
  { unfold limits in Hlim. injection Hlim as E1 E2 E3. cbn. by rewrite E1, E2, E3. }
  pose proof (reserve_balanced limits l p c i Hb Hcons) as Hb'.
  destruct (reserve_model_budget l p c i) as [l' [[j|reason]|e]] eqn:Er; cbn in Hb'.
  - destruct (reserve_admitted _ _ _ _ _ _ Er) as [-> Ha]. split; [done|]. rewrite Ha.
    apply Forall2_app; [done|]. constructor; [|constructor]. split_and!; try done. eauto.
  - split; [done|]. pose proof (reserve_refused l p c i) as Hn. rewrite Er in Hn; cbn in Hn. by rewrite Hn.
  - split; [done|]. pose proof (reserve_refused l p c i) as Hn. rewrite Er in Hn; cbn in Hn. by rewrite Hn.
Qed.

Lemma do_call_ok {A} l sent (c : Call A) :
  settings_ok -> call_ok c -> ledger_ok l sent ->
  ledger_ok (do_call l c).1 (sent ++ (do_call l c).2).
Proof.
  intros Hs [Hr Hw] Hl. unfold do_call, chat_completion, chat_completion_stream.
  destruct (call_connects c) as [k k'].
  pose proof (reserve_ok l sent (call_meta c) (call_request c) k (call_id c) Hs Hr Hw Hl) as H.
  destruct (call_kind c) as [inner|inner];
    destruct (reserve _ _ _ _ _) as [l' [[r' a]|e]]; cbn; rewrite ?app_nil_r; try done.
  - destruct (inner r') as [[u x]|e]; cbn; [|done].
    pose proof (settle_ok l' _ a u k' H). by destruct (settle _ _ _ _) as [l2 []].
  - destruct (inner r') as [items|e]; cbn; [|done]. unfold stream_end.
    destruct (stream_state items) as [[u|] []]; cbn; try done.
    pose proof (settle_ok l' _ a u k' H). by destruct (settle _ _ _ _) as [l2 []].
Qed.

Lemma run_calls_ok {A} (cs : list (Call A)) :
  settings_ok -> Forall call_ok cs -> ledger_ok (run_calls cs).1 (run_calls cs).2.
Proof.
  intros Hs. unfold run_calls.
  assert (H0 : ledger_ok empty_ledger []) by (split; [apply (run_balanced limits []); constructor|constructor]).
  revert H0. generalize empty_ledger, (@nil request). intros l sent Hl Hcs. revert l sent Hl.
  induction Hcs as [|c cs Hc _ IH]; intros l sent Hl; [done|]. cbn.
  pose proof (do_call_ok l sent c Hs Hc Hl) as H. destruct (do_call l c) as [l' r]. by apply IH.
Qed.

Lemma total_all f sc l : Forall (fun a => Budget.scope_id a = sc) l -> total (fun _ => f) sc l = f * zlen l.
Proof.
  induction 1 as [|a l Ha _ IH]; cbn; [unfold zlen; cbn; lia|].
  rewrite Ha, String.eqb_refl, IH. unfold zlen; cbn. lia.
Qed.

Lemma validate_limits feature : validate feature s = Ok tt -> enabled s = true ->
  exists scope, scope_id s = Some scope.
Proof.
  unfold validate. intros H He. destruct (_ && _); [done|]. destruct (_ || _); [done|].
  destruct (find_map _ _); [done|]. destruct (scope_id s); [eauto|]. by rewrite He in H.
Qed.
End runs.
Arguments Whole {J R A}.
Arguments Stream {J R A}.
Arguments mkCall {J R A}.

(** ** Properties *)
(** C8: no request reaches a provider without its own reservation in the
    configured scope. Over any calls and streams, whatever the providers
    answer, report or fail with, the requests sent never outnumber the call
    limit, each has an explicit output cap within the operator's, and the
    tokens and cost accounted for stay within their limits; when tokens or cost
    are limited, requests whose spend a reservation cannot bound are not sent. *)
Theorem contacts_within_budget {J R A} (is_null is_empty_object : J -> bool) to_json show_storage
    try_from_error feature s (cs : list (Call (J := J) (R := R) A)) :
  validate feature s = Ok tt -> enabled s = true -> settings_ok s -> Forall call_ok cs ->
  let '(l, sent) := run_calls is_null is_empty_object to_json show_storage try_from_error s cs in
  Forall2 (backed is_null is_empty_object s) sent (attempts l) /\
  le_limit (zlen sent) (max_calls s) /\
  exists scope, scope_id s = Some scope /\
    le_limit (total charge_tokens scope (attempts l)) (max_tokens s) /\
    le_limit (total charge_cost scope (attempts l)) (max_cost_microusd s).
Proof.
  intros Hv He Hs Hcs. pose proof (run_calls_ok is_null is_empty_object to_json show_storage
    try_from_error s cs Hs Hcs) as Hok.
  destruct (run_calls _ _ _ _ _ _ _) as [l sent]. destruct Hok as [Hb Hbk]. cbn [fst snd] in *.
  destruct (validate_limits s feature Hv He) as [scope Hscope]. split; [done|].
  assert (Hall : Forall (fun a => Budget.scope_id a = scope) (attempts l)).
  { clear -Hbk Hscope. induction Hbk as [|r a rs as_ (_ & Hsc & _) _ IH]; constructor; [|done]. congruence. }
  assert (Hlen : zlen sent = zlen (attempts l)) by (unfold zlen; by rewrite (Forall2_length Hbk)).
  destruct Hs as (_ & Hs1 & Hs2 & Hs3). destruct (attempts l) as [|a l0] eqn:El.
  { split; [rewrite Hlen; unfold le_limit; by destruct (max_calls s)|]. exists scope. split; [done|].
    cbn. split; unfold le_limit; by repeat case_match. }
  destruct Hb as (_ & _ & Hsc & Hok). rewrite El in Hsc, Hok. cbn in Hsc.
  apply Forall_cons_iff in Hsc as [[sc Hlook] _].
  apply Forall_cons_iff in Hall as Ha. destruct Ha as [Ha _]. rewrite Ha in Hlook.
  destruct (Hok _ _ Hlook) as (H1 & H2 & H3 & _ & H5). cbn [limits] in H5.
  rewrite total_all, Z.mul_1_l in H1 by done. rewrite H1, H2, H3 in H5. rewrite Hlen.
  destruct H5 as (? & ? & ?). split; [done|]. exists scope. by split_and!.
Qed.

(** A provider that keeps to what was reserved settles cleanly: a report of
    at most the context window of input, caches included, and at most the
    request's output cap is never an overrun of tokens or cost, however many
    other reservations and settlements came in between. *)
Theorem settle_within {J R A} (is_null is_empty_object : J -> bool) to_json show_storage
    try_from_error s (cs : list (Call (J := J) (R := R) A)) m
    (r : ChatRequest J R) k i l (r' : ChatRequest J R) att n later u :
  settings_ok s -> Forall call_ok cs ->
  match request_max_tokens r with Some n => 0 <= n | None => True end -> 0 <= context_window m ->
  reserve is_null is_empty_object to_json show_storage try_from_error (Ok s)
    (run_calls is_null is_empty_object to_json show_storage try_from_error s cs).1 m r k i
  = (l, Ok (r', att)) ->
  Forall (consistent (limits s)) later -> Forall (fun o => settles i o = false) later ->
  0 <= settled_input u <= context_window m ->
  request_max_tokens r' = Some n -> 0 <= u_output_tokens u <= n ->
  (settle show_storage (Ok s) (fold_left apply later l) att u (Ok tt)).2 = Ok tt.
Proof.
  intros Hs Hcs Hr Hw Hres Hlater Hno Hin Hn Hout.
  destruct (run_calls_ok is_null is_empty_object to_json show_storage try_from_error s cs Hs Hcs)
    as [Hb _].
  set (l0 := (run_calls _ _ _ _ _ _ _).1) in *. unfold reserve in Hres.
  destruct (prepare _ _ _ _ _ _ _) as [[[r1 p] c]|e] eqn:Ep; [|done]. destruct (store _ k); [|done].
  destruct (reserve_model_budget l0 p c i) as [l1 [[j|reason]|e]] eqn:Er; simplify_eq/=.
  destruct (prepare_Ok _ _ _ _ _ _ _ _ _ _ Ep Hr Hw (proj1 Hs)) as (_ & Hcap & Hci & _ & Hlim & Hprice).
  destruct (reserve_admitted _ _ _ _ _ _ Er) as [-> Ha].
  assert (Hcons : consistent (limits s) (OpReserve p c i)).
  { destruct Hs as (_ & ? & ? & ?). unfold limits in Hlim. injection Hlim as E1 E2 E3. cbn.
    by rewrite E1, E2, E3. }
  pose proof (reserve_balanced (limits s) l0 p c i Hb Hcons) as Hb1. rewrite Er in Hb1. cbn in Hb1.
  set (row := Budget.mkAttempt _ _ _ _ _ _ _ _ _) in Ha.
  pose proof (balanced_fold (limits s) l later Hb1 Hlater) as Hb2.
  assert (Hopen : row ∈ attempts (fold_left apply later l)).
  { apply open_run; [done|]. rewrite Ha. apply elem_of_app. right. left. }
  unfold settle. destruct (_ || _ || _) eqn:Eu; [done|]. cbn [priced att_id].
  assert (exists cost, 0 <= cost <= c_cost_microusd c /\
    (if is_priced m then map_err (denied (Ok s)) (price (settled_input u) (u_output_tokens u)
       (input_price (mkAttempt i (cost_per_1k_input m) (cost_per_1k_output m) (is_priced m)))
       (output_price (mkAttempt i (cost_per_1k_input m) (cost_per_1k_output m) (is_priced m))))
     else Ok 0) = Ok cost) as (cost & Hcost & ->).
  { rewrite Hcap in Hn. injection Hn as Hn. cbn [input_price output_price]. destruct (is_priced m).
    - destruct (price_mono _ _ (settled_input u) (u_output_tokens u) _ _ _ Hprice) as (cost & -> & ?);
        [lia..|]. by exists cost.
    - exists 0. split; [lia|done]. }
  cbn [store map_err]. rewrite Hcap in Hn. injection Hn as Hn.
  destruct (settle_open_within (limits s) _ row (settled_input u) (u_output_tokens u) cost Hb2 Hopen eq_refl)
    as [mm Hset].
  { unfold within_reservation, row; cbn. lia. }
  change i with (Budget.id row). by rewrite Hset.
Qed.

(** ** Witnesses *)
Definition sample_settings : ModelBudgetSettings :=
  mkSettings (Some "trial") (Some 2) (Some 1000) None 100.
Definition sample_meta : ProviderMetadata :=
  mkMetadata "p" OpenAi "m" [] [Text] 4 300 (f64_of 3) (f64_of 15) Native.
Definition sample_request : ChatRequest unit unit := mkRequest TextChat None None tt tt.
Definition sample_usage : TokenUsage := mkUsage 120 40 (Some 10) None ProviderReported.
Definition sample_call (i : string) (u : Result ProviderError (TokenUsage * unit)) :=
  mkCall (J := unit) (R := unit) sample_meta sample_request (Ok tt, Ok tt) i (Whole (fun _ => u)).
(** The first call settles below its reservation, the second fails and keeps
    its own, the third is denied. *)
Definition sample_calls :=
  [sample_call "a" (Ok (sample_usage, tt)); sample_call "b" (Err (NetworkError "reset"));
   sample_call "c" (Ok (sample_usage, tt))].
Definition sample_run :=
  run_calls (fun _ => true) (fun _ => false) (fun _ => Ok "{}") (fun _ => "storage error")
    "out of range" sample_settings sample_calls.

Lemma contacts_within_budget_witness :
  length sample_run.2 = 2%nat /\ le_limit (zlen sample_run.2) (Some 2) /\
  total charge_tokens "trial" (attempts sample_run.1) = 170 + 400.
Proof.
  split; [vm_compute; reflexivity|]. split; [|vm_compute; reflexivity].
  pose proof (contacts_within_budget (fun _ => true) (fun _ => false) (fun _ => Ok "{}")
    (fun _ => "storage error") "out of range" true sample_settings sample_calls) as H.
  change sample_run with (run_calls (fun _ => true) (fun _ => false) (fun _ => Ok "{}")
    (fun _ => "storage error") "out of range" sample_settings sample_calls).
  destruct (run_calls _ _ _ _ _ _ _) as [l sent].
  apply H; [reflexivity|reflexivity|repeat split; vm_compute; congruence|].
  repeat constructor; vm_compute; congruence.
Defined.

Lemma settle_within_witness :
  exists l r' att,
    reserve (fun _ => true) (fun _ => false) (fun _ => Ok "{}") (fun _ => "storage error")
      "out of range" (Ok sample_settings)
      (run_calls (J := unit) (R := unit) (A := unit) (fun _ => true) (fun _ => false) (fun _ => Ok "{}")
         (fun _ => "storage error") "out of range" sample_settings []).1
      sample_meta sample_request (Ok tt) "a" = (l, Ok (r', att)) /\
    (settle (fun _ => "storage error") (Ok sample_settings) l att sample_usage (Ok tt)).2 = Ok tt.
Proof.
  eexists _, _, _. split; [vm_compute; reflexivity|].
  eapply (settle_within (fun _ => true) (fun _ => false) (fun _ => Ok "{}") (fun _ => "storage error")
    "out of range" sample_settings ([] : list (Call (J := unit) (R := unit) unit)) sample_meta sample_request (Ok tt) "a" _ _ _ 100 [] sample_usage);
    try (vm_compute; reflexivity); try (repeat split; vm_compute; congruence);
    try (repeat constructor; vm_compute; congruence); constructor.
Defined.
