(* ===== verification/Engine.v ===== *)
(** * Fuzzing engines

    Models the names of [crates/hf-core/src/engine.rs] and
    [crates/hf-core/src/retired_engine.rs]. *)
From S2P Require Import Prelude.

Inductive EngineKind := AflPlusPlus | Honggfuzz | LibFuzzer | Syzkaller | GoNative.
#[export] Instance EngineKind_eq_dec : EqDecision EngineKind.
Proof. solve_decision. Defined.

Definition ALL : list EngineKind := [LibFuzzer; AflPlusPlus; Honggfuzz; Syzkaller].

Definition as_str (k : EngineKind) : string :=
  match k with
  | AflPlusPlus => "afl++"
  | Honggfuzz => "honggfuzz"
  | LibFuzzer => "libfuzzer"
  | Syzkaller => "syzkaller"
  | GoNative => "go-native"
  end.

Definition advertised_ids : string := join ", " (sort_by String.compare (as_str <$> ALL)).

Definition RETIRED_ENGINE_IDS : list string := ["clusterfuzzlite"; "cfl"; "cflite"].
Definition is_retired_engine_id (value : string) : bool :=
  let value := trim value in
  existsb (fun i => String.eqb (to_ascii_lowercase value) (to_ascii_lowercase i)) RETIRED_ENGINE_IDS.

Definition from_str (s : string) : Result string EngineKind :=
  let trimmed := trim s in
  if is_retired_engine_id trimmed
  then Err ("fuzzing engine '" +:+ trimmed +:+ "' has been retired; choose one of: " +:+ advertised_ids)
  else
    let lower := to_ascii_lowercase trimmed in
    let named := fun names => existsb (String.eqb lower) names in
    if named ["afl++"; "aflplusplus"; "afl"] then Ok AflPlusPlus
    else if named ["honggfuzz"; "hfuzz"] then Ok Honggfuzz
    else if named ["libfuzzer"; "libfuzz"; "lf"] then Ok LibFuzzer
    else if named ["syzkaller"; "syz"] then Ok Syzkaller
    else if named ["go-native"; "gonative"; "go"] then Ok GoNative
    else Err ("unknown fuzzing engine '" +:+ lower +:+ "' (expected one of: " +:+ advertised_ids +:+ ")").

(** Every canonical name parses back, and the advertised list is the documented one. *)
Lemma from_str_as_str k : from_str (as_str k) = Ok k.
Proof. by destruct k. Qed.
Lemma advertised_ids_value : advertised_ids = "afl++, honggfuzz, libfuzzer, syzkaller".
Proof. done. Qed.
Lemma retired_rejected : is_ok (from_str " ClusterFuzzLite ") = false.
Proof. done. Qed.
