(* ===== verification/Text.v ===== *)
(** * Text and numbers as Rust's standard library reads them

    A [&str] that is taken apart character by character is the list of its
    characters' code points.  [split_whitespace], [trim], [lines], [split_once]
    and the [FromStr] instances of integers and of [f64], which rounds the exact
    decimal to the nearest float, and [f64::mul_add], which rounds once. *)
From S2P Require Import Prelude Provider.
From Stdlib Require Import SpecFloat Ascii.

Abbreviation Text := (list Z).
Definition t (s : string) : Text := code <$> String.list_ascii_of_string s.
Definition chr (c : Ascii.ascii) : Z := code c.
Definition is_char (c : Ascii.ascii) (d : Z) : bool := d =? chr c.
Arguments is_char c%_char d.

(** ** Characters *)
Definition is_whitespace (c : Z) : bool :=
  ((9 <=? c) && (c <=? 13)) || (c =? 32) || (c =? 133) || (c =? 160) || (c =? 5760)
  || ((8192 <=? c) && (c <=? 8202)) || (c =? 8232) || (c =? 8233) || (c =? 8239) || (c =? 8287) || (c =? 12288).
Definition is_digit (c : Z) : bool := (48 <=? c) && (c <=? 57).
Definition ascii_lowercase (c : Z) : Z := if (65 <=? c) && (c <=? 90) then c + 32 else c.

Definition text_lowercase (s : Text) : Text := ascii_lowercase <$> s.
Definition eq_ignore_ascii_case (a b : Text) : bool := bool_decide (text_lowercase a = text_lowercase b).

(** [str::as_bytes]: the UTF-8 encoding. *)
Definition char_bytes (c : Z) : list Z :=
  if c <? 128 then [c]
  else if c <? 2048 then [192 + c / 64; 128 + c mod 64]
  else if c <? 65536 then [224 + c / 4096; 128 + c / 64 mod 64; 128 + c mod 64]
  else [240 + c / 262144; 128 + c / 4096 mod 64; 128 + c / 64 mod 64; 128 + c mod 64].
Definition as_bytes (s : Text) : list Z := s ≫= char_bytes.

(** ** Taking text apart *)
Fixpoint trim_start_by (p : Z -> bool) (s : Text) : Text :=
  match s with c :: r => if p c then trim_start_by p r else s | [] => [] end.
Definition trim_end_by (p : Z -> bool) (s : Text) : Text := reverse (trim_start_by p (reverse s)).
Definition trim (s : Text) : Text := trim_end_by is_whitespace (trim_start_by is_whitespace s).

Fixpoint starts_with (p s : Text) : bool :=
  match p, s with
  | [], _ => true
  | a :: p, b :: s => (a =? b) && starts_with p s
  | _ :: _, [] => false
  end.
(** [trim_start_matches] of a non-empty pattern; every round removes a character. *)
Fixpoint trim_start_matches (fuel : nat) (p s : Text) : Text :=
  match fuel with
  | O => s
  | S fuel => if starts_with p s then trim_start_matches fuel p (drop (length p) s) else s
  end.

Fixpoint split_once (p : Z -> bool) (s : Text) : option (Text * Text) :=
  match s with
  | [] => None
  | c :: r => if p c then Some ([], r) else '(a, b) ← split_once p r; Some (c :: a, b)
  end.
Fixpoint split_once_str (p s : Text) : option (Text * Text) :=
  if starts_with p s then Some ([], drop (length p) s)
  else match s with [] => None | c :: r => '(a, b) ← split_once_str p r; Some (c :: a, b) end.

Definition text_contains (p s : Text) : bool := match split_once_str p s with Some _ => true | None => false end.
Definition ends_with (p s : Text) : bool := starts_with (reverse p) (reverse s).
(** [str::split] on a character. *)
Fixpoint split_on (p : Z -> bool) (s : Text) : list Text :=
  match s with
  | [] => [[]]
  | c :: r => if p c then [] :: split_on p r else match split_on p r with w :: ws => (c :: w) :: ws | [] => [[c]] end
  end.

(** The word under way, and the words after it. *)
Fixpoint words (s : Text) : Text * list Text :=
  match s with
  | [] => ([], [])
  | c :: r =>
      let '(w, ws) := words r in
      if is_whitespace c then ([], match w with [] => ws | _ => w :: ws end) else (c :: w, ws)
  end.
Definition split_whitespace (s : Text) : list Text :=
  let '(w, ws) := words s in match w with [] => ws | _ => w :: ws end.

Fixpoint split_inclusive_lf (s : Text) : list Text :=
  match s with
  | [] => []
  | c :: r =>
      if c =? 10 then [c] :: split_inclusive_lf r
      else match split_inclusive_lf r with [] => [[c]] | l :: ls => (c :: l) :: ls end
  end.
Definition strip_suffix (c : Z) (l : Text) : option Text :=
  match reverse l with d :: r => if d =? c then Some (reverse r) else None | [] => None end.
Definition strip_line_end (l : Text) : Text :=
  match strip_suffix 10 l with Some l => default l (strip_suffix 13 l) | None => l end.
Definition lines (s : Text) : list Text := strip_line_end <$> split_inclusive_lf s.

(** ** Integers *)
Fixpoint digits_value (acc : Z) (s : Text) : option Z :=
  match s with
  | [] => Some acc
  | c :: r => if is_digit c then digits_value (acc * 10 + (c - 48)) r else None
  end.
Definition digits (s : Text) : option Z := match s with [] => None | _ => digits_value 0 s end.
Definition strip_char (k : Z) (s : Text) : option Text :=
  match s with c :: r => if c =? k then Some r else None | [] => None end.
Definition strip_plus (s : Text) : Text := default s (strip_char 43 s).
Definition parse_unsigned (hi : Z) (s : Text) : option Z :=
  n ← digits (strip_plus s); if n <=? hi then Some n else None.
Definition parse_i64 (s : Text) : option Z :=
  match strip_char 45 s with
  | Some r => n ← digits r; i64_of (- n)
  | None => n ← digits (strip_plus s); i64_of n
  end.

(** [from_str_radix] of an unsigned integer with greatest value [hi]. *)
Definition to_digit (radix c : Z) : option Z :=
  d ← (if is_digit c then Some (c - 48)
       else if (97 <=? ascii_lowercase c) && (ascii_lowercase c <=? 122) then Some (ascii_lowercase c - 87) else None);
  if d <? radix then Some d else None.
Fixpoint radix_value (radix acc : Z) (s : Text) : option Z :=
  match s with
  | [] => Some acc
  | c :: r => d ← to_digit radix c; radix_value radix (acc * radix + d) r
  end.
Definition from_str_radix (hi radix : Z) (s : Text) : option Z :=
  match strip_plus s with
  | [] => None
  | s => n ← radix_value radix 0 s; if n <=? hi then Some n else None
  end.

(** ** Floats *)
(** The float nearest to [n * 10 ^ e]. *)
Definition decimal (n : Z) (e : Z) : f64 :=
  match n with
  | Zpos p =>
      if 0 <=? e then binary_normalize 53 1024 (n * 10 ^ e) 0 false
      else
        let '(q, e, l) := SFdiv_core_binary 53 1024 n 0 (10 ^ (- e)) 0 in
        binary_round_aux 53 1024 false q e l
  | _ => S754_zero false
  end.

Fixpoint span_digits (s : Text) : Text * Text :=
  match s with
  | [] => ([], [])
  | c :: r => if is_digit c then let '(a, b) := span_digits r in (c :: a, b) else ([], s)
  end.
(** [e[+|-]digits], or nothing. *)
Definition parse_exponent (s : Text) : option Z :=
  match s with
  | [] => Some 0
  | c :: r =>
      if ascii_lowercase c =? 101 then
        match strip_char 45 r with
        | Some r => n ← digits r; Some (- n)
        | None => digits (strip_plus r)
        end
      else None
  end.
Definition parse_number (s : Text) : option f64 :=
  let '(whole, rest) := span_digits s in
  let '(fraction, rest) := match strip_char 46 rest with Some r => span_digits r | None => ([], rest) end in
  n ← digits (whole ++ fraction);
  e ← parse_exponent rest;
  Some (decimal n (e - zlen fraction)).
Definition parse_unsigned_f64 (s : Text) : option f64 :=
  let l := ascii_lowercase <$> s in
  if bool_decide (l = t "inf") || bool_decide (l = t "infinity") then Some (S754_infinity false)
  else if bool_decide (l = t "nan") then Some S754_nan
  else parse_number s.
Definition parse_f64 (s : Text) : option f64 :=
  match strip_char 45 s with
  | Some r => SFopp <$> parse_unsigned_f64 r
  | None => parse_unsigned_f64 (strip_plus s)
  end.
Definition is_finite (x : f64) : bool :=
  match x with S754_zero _ | S754_finite _ _ _ => true | _ => false end.

(** [f64::mul_add]: [x * y + z], rounded once. *)
Definition signed (s : bool) (m : Z) : Z := if s then - m else m.
Definition mul_add (x y z : f64) : f64 :=
  match x, y with
  | S754_nan, _ | _, S754_nan => S754_nan
  | S754_infinity _, S754_zero _ | S754_zero _, S754_infinity _ => S754_nan
  | S754_infinity sx, S754_infinity sy
  | S754_infinity sx, S754_finite sy _ _
  | S754_finite sx _ _, S754_infinity sy => SFadd 53 1024 (S754_infinity (xorb sx sy)) z
  | S754_zero sx, S754_zero sy
  | S754_zero sx, S754_finite sy _ _
  | S754_finite sx _ _, S754_zero sy => SFadd 53 1024 (S754_zero (xorb sx sy)) z
  | S754_finite sx mx ex, S754_finite sy my ey =>
      match z with
      | S754_nan | S754_infinity _ => z
      | S754_zero _ => SFmul 53 1024 x y
      | S754_finite sz mz ez =>
          let e := Z.min (ex + ey) ez in
          binary_normalize 53 1024
            (Z.shiftl (signed (xorb sx sy) (Zpos mx * Zpos my)) (ex + ey - e)
             + Z.shiftl (signed sz (Zpos mz)) (ez - e)) e false
      end
  end.

Example parse_f64_ex : parse_f64 (t "0.125") = Some (SFdiv 53 1024 (f64_of 1) (f64_of 8)).
Proof. reflexivity. Qed.
Example parse_f64_ex2 : parse_f64 (t "-40") = Some (f64_of (-40)) /\ parse_f64 (t "1.5e2") = Some (f64_of 150) /\ parse_f64 (t ".") = None /\ parse_f64 (t "1e400") = Some (S754_infinity false) /\ parse_f64 (t "NaN") = Some S754_nan
 /\ parse_f64 (t "0.1") = Some (S754_finite false 7205759403792794 (-56)).
Proof. vm_compute. repeat split. Qed.
Example words_ex : split_whitespace (t "  a  bc d ") = [t "a"; t "bc"; t "d"]. Proof. reflexivity. Qed.

(** ** Ranges of parsed integers *)
Lemma land_low a k : 0 <= k -> 0 <= Z.land a (Z.ones k) < 2 ^ k.
Proof. intros. rewrite Z.land_ones by done. apply Z.mod_pos_bound. lia. Qed.
(** A flag above the bits of a number. *)
Lemma land_flag n k (b : bool) : 0 <= k -> 0 <= n < 2 ^ k ->
  (Z.land (n + if b then 2 ^ k else 0) (2 ^ k) =? 0) = negb b.
Proof.
  intros Hk Hn. assert (Hl : Z.land n (2 ^ k) = 0).
  { apply Z.bits_inj'. intros i Hi. rewrite Z.land_spec, Z.bits_0. destruct (Z.eq_dec i k) as [->|].
    - rewrite <- (Z.mod_small n (2 ^ k)), Z.mod_pow2_bits_high by lia. done.
    - rewrite Z.pow2_bits_false by done. apply andb_false_r. }
  destruct b; cbn [negb]; [|rewrite Z.add_0_r; lia].
  replace (n + 2 ^ k) with (Z.lor (Z.shiftl 1 k) n) by (rewrite lor_shiftl_low by lia; lia).
  rewrite Z.land_lor_distr_l, Hl, Z.lor_0_r, Z.shiftl_1_l, Z.land_diag. pose proof (Z.pow_pos_nonneg 2 k). lia.
Qed.
Lemma digits_value_nonneg s : forall acc n, 0 <= acc -> digits_value acc s = Some n -> 0 <= n.
Proof.
  induction s as [|c s IH]; intros acc n Ha; cbn; [naive_solver|].
  unfold is_digit. destruct ((48 <=? c) && (c <=? 57)) eqn:E; [|done]. apply IH. lia.
Qed.
Lemma parse_unsigned_range hi s n : parse_unsigned hi s = Some n -> 0 <= n <= hi.
Proof.
  unfold parse_unsigned, digits. intros H. ok_inv. subst. split; [|lia].
  destruct (strip_plus s); [done|]. eapply digits_value_nonneg; [|done]. done.
Qed.
Lemma to_digit_range radix c d : to_digit radix c = Some d -> 0 <= d < radix.
Proof. unfold to_digit, is_digit. intros H. ok_inv; simplify_eq; lia. Qed.
Lemma radix_value_nonneg radix s : forall acc n, 0 <= radix -> 0 <= acc -> radix_value radix acc s = Some n -> 0 <= n.
Proof.
  induction s as [|c s IH]; intros acc n Hr Ha H; cbn in H; [by simplify_eq|]. ok_inv.
  eapply IH; [done| |done]. apply to_digit_range in H0. nia.
Qed.
Lemma from_str_radix_range hi radix s n : 0 <= radix -> from_str_radix hi radix s = Some n -> 0 <= n <= hi.
Proof.
  unfold from_str_radix. intros Hr H. destruct (strip_plus s); [done|]. ok_inv. subst.
  split; [|lia]. eapply radix_value_nonneg; [exact Hr| |eassumption]; done.
Qed.

(** ** Text put together again *)
Definition avoids (p : Z -> bool) (s : Text) : bool := forallb (fun c => negb (p c)) s.
Lemma avoids_app p a b : avoids p (a ++ b) = avoids p a && avoids p b.
Proof. apply forallb_app. Qed.
Lemma avoids_cons p c s : avoids p (c :: s) = negb (p c) && avoids p s.
Proof. done. Qed.
Lemma avoids_impl (p q : Z -> bool) s : (forall c, p c = true -> q c = true) -> avoids q s = true -> avoids p s = true.
Proof.
  intros H. unfold avoids. rewrite !forallb_forall. intros Hs c Hc. specialize (Hs c Hc).
  apply negb_true_iff in Hs. apply negb_true_iff. destruct (p c) eqn:E; [|done]. by rewrite (H c E) in Hs.
Qed.
Lemma split_once_at p a c b : avoids p a = true -> p c = true -> split_once p (a ++ c :: b) = Some (a, b).
Proof.
  intros Ha Hc. induction a as [|x a IH]; cbn; [by rewrite Hc|]. cbn in Ha. apply andb_true_iff in Ha as [Hx Ha].
  apply negb_true_iff in Hx. rewrite Hx. cbn. by rewrite IH.
Qed.
Lemma split_once_none p a : avoids p a = true -> split_once p a = None.
Proof.
  induction a as [|x a IH]; cbn; [done|]. intros [Hx Ha]%andb_true_iff. apply negb_true_iff in Hx. rewrite Hx. cbn. by rewrite IH.
Qed.

Lemma starts_with_refl p b : starts_with p (p ++ b) = true.
Proof. induction p; cbn; [done|]. by rewrite Z.eqb_refl. Qed.
Lemma split_once_str_at c p a b :
  avoids (fun x => x =? c) a = true -> split_once_str (c :: p) (a ++ (c :: p) ++ b) = Some (a, b).
Proof.
  induction a as [|x a IH]; intros Ha.
  - cbn. rewrite Z.eqb_refl, starts_with_refl. cbn. by rewrite drop_app_length.
  - rewrite avoids_cons in Ha. apply andb_true_iff in Ha as [Hx%negb_true_iff Ha].
    change ((x :: a) ++ ?r) with (x :: (a ++ r)). cbn [split_once_str starts_with].
    rewrite Z.eqb_sym, Hx. cbn [andb]. by rewrite IH.
Qed.

(** A word is not empty and holds no white space. *)
Definition word (w : Text) : Prop := w <> [] /\ avoids is_whitespace w = true.
Lemma words_word w r : avoids is_whitespace w = true ->
  words (w ++ r) = (w ++ fst (words r), snd (words r)).
Proof.
  induction w as [|c w IH]; cbn; [by destruct (words r)|]. intros [Hc Hw]%andb_true_iff. apply negb_true_iff in Hc.
  by rewrite IH, Hc.
Qed.
Lemma split_whitespace_space c r : is_whitespace c = true -> split_whitespace (c :: r) = split_whitespace r.
Proof. intros Hc. unfold split_whitespace. cbn. destruct (words r) as [w ws]. rewrite Hc. by destruct w. Qed.
Lemma split_whitespace_word w c r : word w -> is_whitespace c = true ->
  split_whitespace (w ++ c :: r) = w :: split_whitespace r.
Proof.
  intros [Hn Hw] Hc. unfold split_whitespace. rewrite words_word by done. cbn. destruct (words r) as [v ws]. rewrite Hc. cbn.
  rewrite app_nil_r. destruct w; [done|]. by destruct v.
Qed.
Lemma split_whitespace_last w : word w -> split_whitespace w = [w].
Proof.
  intros [Hn Hw]. unfold split_whitespace. rewrite <- (app_nil_r w) at 1. rewrite words_word by done. cbn.
  rewrite app_nil_r. by destruct w.
Qed.

Lemma trim_start_word p c r : p c = false -> trim_start_by p (c :: r) = c :: r.
Proof. intros H. cbn. by rewrite H. Qed.
Lemma trim_end_word p c r : p c = false -> trim_end_by p (r ++ [c]) = r ++ [c].
Proof. intros H. unfold trim_end_by. rewrite reverse_app, reverse_singleton. cbn [app trim_start_by]. rewrite H. by rewrite reverse_cons, reverse_involutive. Qed.
Lemma trim_end_one p c r : p c = true -> trim_end_by p (r ++ [c]) = trim_end_by p r.
Proof. intros H. unfold trim_end_by. rewrite reverse_app, reverse_singleton. cbn [app trim_start_by]. by rewrite H. Qed.

Lemma trim_line a r b : is_whitespace a = false -> is_whitespace b = false -> trim (a :: r ++ [b]) = a :: r ++ [b].
Proof.
  intros Ha Hb. unfold trim. rewrite trim_start_word by done. by rewrite (trim_end_word _ b (a :: r)).
Qed.
Lemma trim_wordless s : avoids is_whitespace s = true -> trim s = s.
Proof.
  intros Hw. assert (Hstart : forall l, avoids is_whitespace l = true -> trim_start_by is_whitespace l = l).
  { intros [|c l]; [done|]. cbn. intros [Hc _]%andb_true_iff. apply negb_true_iff in Hc. by rewrite Hc. }
  unfold trim, trim_end_by. rewrite (Hstart s Hw), Hstart, reverse_involutive; [done|].
  unfold avoids in *. rewrite forallb_forall in *. intros c Hc. apply Hw.
  eapply Permutation_in; [apply reverse_Permutation|done].
Qed.

Lemma split_inclusive_line l r : avoids (fun c => c =? 10) l = true ->
  split_inclusive_lf (l ++ 10 :: r) = (l ++ [10]) :: split_inclusive_lf r.
Proof.
  induction l as [|c l IH]; cbn; [done|]. intros [Hc Hl]%andb_true_iff. apply negb_true_iff in Hc. by rewrite Hc, IH.
Qed.
Lemma strip_suffix_snoc c l : strip_suffix c (l ++ [c]) = Some l.
Proof. unfold strip_suffix. rewrite reverse_app, reverse_singleton. cbn [app trim_start_by]. by rewrite Z.eqb_refl, reverse_involutive. Qed.
Lemma strip_suffix_other c d l : d <> c -> strip_suffix c (l ++ [d]) = None.
Proof. intros H. unfold strip_suffix. rewrite reverse_app, reverse_singleton. cbn [app trim_start_by]. by replace (d =? c) with false by lia. Qed.
(** Lines of which none contains a line feed or ends in a carriage return. *)
Definition line_ok (l : Text) : Prop := avoids (fun c => c =? 10) l = true /\ exists r c, l = r ++ [c] /\ c <> 13.
Lemma lines_unlines ls : Forall line_ok ls -> lines (concat ((fun l => l ++ [10]) <$> ls)) = ls.
Proof.
  unfold lines. induction 1 as [|l ls (Hl & r & c & -> & Hc) _ IH]; [done|].
  rewrite fmap_cons. cbn [concat]. rewrite <- app_assoc. cbn [app]. rewrite split_inclusive_line by done.
  rewrite fmap_cons, IH. f_equal. unfold strip_line_end. rewrite strip_suffix_snoc, strip_suffix_other by done. done.
Qed.

(** ** Decimal digits *)
Fixpoint show_digits (fuel : nat) (n : Z) (acc : Text) : Text :=
  match fuel with
  | O => acc
  | S fuel =>
      let acc := (48 + n mod 10) :: acc in
      if n <? 10 then acc else show_digits fuel (n / 10) acc
  end.
(** A number has no more decimal digits than binary ones. *)
Definition show_unsigned (n : Z) : Text := show_digits (S (Z.to_nat (Z.log2 n))) n [].
Definition show_i64 (n : Z) : Text := if n <? 0 then 45 :: show_unsigned (- n) else show_unsigned n.

Lemma digits_value_app a b : forall acc, digits_value acc (a ++ b) = v ← digits_value acc a; digits_value v b.
Proof. induction a as [|c a IH]; intros acc; cbn; [done|]. case_match; [apply IH|done]. Qed.
Lemma digits_show n : 0 <= n -> exists s,
  show_unsigned n = s /\ s <> [] /\ forallb is_digit s = true /\ digits_value 0 s = Some n.
Proof.
  intros Hn. unfold show_unsigned.
  assert (Hgen : forall fuel n acc, 0 <= n -> n < 2 ^ Z.of_nat fuel -> forallb is_digit acc = true ->
    exists s, show_digits fuel n acc = s ++ acc /\ forallb is_digit s = true /\ digits_value 0 s = Some n /\
              (fuel <> O -> s <> [])).
  { clear. induction fuel as [|fuel IH]; intros n acc Hn Hf Ha.
    - exists []. cbn in *. split_and!; try done. f_equal. lia.
    - cbn [show_digits]. assert (Hd : is_digit (48 + n mod 10) = true) by (unfold is_digit; divlia).
      destruct (n <? 10) eqn:E.
      + exists [48 + n mod 10]. cbn. rewrite Hd. split_and!; try done. f_equal. rewrite Z.mod_small by lia. lia.
      + destruct (IH (n / 10) ((48 + n mod 10) :: acc)) as (s & -> & Hs & Hv & _);
          [divlia| |by cbn; rewrite Hd|].
        { rewrite Nat2Z.inj_succ, Z.pow_succ_r in Hf by lia. pose proof (Z.pow_pos_nonneg 2 (Z.of_nat fuel)). divlia. }
        exists (s ++ [48 + n mod 10]). rewrite <- app_assoc. split; [done|].
        rewrite forallb_app, Hs. cbn. rewrite Hd. split; [done|]. split; [|by destruct s].
        rewrite digits_value_app, Hv. cbn. rewrite Hd. f_equal. divlia. }
  destruct (Hgen (S (Z.to_nat (Z.log2 n))) n []) as (s & -> & Hs & Hv & Hne); [done| |done|].
  - rewrite Nat2Z.inj_succ, Z2Nat.id by apply Z.log2_nonneg. destruct (decide (n = 0)) as [->|]; [done|].
    apply Z.log2_spec. lia.
  - exists s. rewrite app_nil_r. split_and!; try done. by apply Hne.
Qed.
Lemma no_sign c s : forallb is_digit s = true -> is_digit c = false -> strip_char c s = None.
Proof.
  destruct s as [|x s]; [done|]. intros [Hx _]%andb_true_iff Hc. cbn. case_match eqn:E; [|done].
  apply Z.eqb_eq in E as ->. congruence.
Qed.
Lemma parse_show_unsigned hi n : 0 <= n <= hi -> parse_unsigned hi (show_unsigned n) = Some n.
Proof.
  intros Hn. destruct (digits_show n) as (s & -> & Hne & Hd & Hv); [lia|]. unfold parse_unsigned, strip_plus.
  rewrite no_sign by done. cbn [default]. unfold digits. destruct s; [done|]. cbn [mbind option_bind].
  rewrite Hv. cbn. by replace (n <=? hi) with true by lia.
Qed.
Lemma parse_show_i64 n : is_i64 n -> parse_i64 (show_i64 n) = Some n.
Proof.
  intros Hn. unfold show_i64, is_i64 in *.
  assert (Hi : i64_of n = Some n) by (unfold i64_of; by replace ((i64_MIN <=? n) && (n <=? i64_MAX)) with true by lia).
  destruct (n <? 0) eqn:E.
  - destruct (digits_show (- n)) as (s & -> & Hne & Hd & Hv); [lia|]. cbn. unfold digits. destruct s; [done|].
    rewrite Hv. cbn. by rewrite Z.opp_involutive.
  - destruct (digits_show n) as (s & -> & Hne & Hd & Hv); [lia|]. unfold parse_i64, strip_plus. rewrite !no_sign by done.
    cbn [default]. unfold digits. destruct s; [done|]. rewrite Hv. done.
Qed.

(** What holds of every number below a bound is checked number by number. *)
Lemma digit_check (P : Z -> Prop) `{forall d, Decision (P d)} n :
  forallb (fun d => bool_decide (P d)) (seqZ 0 n) = true -> forall d, 0 <= d < n -> P d.
Proof.
  rewrite forallb_forall. intros Hp d Hd. eapply bool_decide_eq_true_1, Hp, list_elem_of_In, elem_of_seqZ. lia.
Qed.
