(* ===== verification/Ordered.v ===== *)
(** * Ordered keys, [BTreeMap] and [BTreeSet]

    [Ord] as a class with its laws, the orders that [derive(Ord)] gives tuples,
    options, lists and structs, and the ordered map as the association list its
    iteration yields: sorted by key, each key once.  [entry] is
    [map.entry(k).or_default()] followed by an update; a set is a map to the unit
    type, as in the standard library. *)
From S2P Require Import Prelude.

(** ** Ordered types *)
Class Ordered (K : Type) := {
  cmp : K -> K -> comparison;
  cmp_eq a b : cmp a b = Eq <-> a = b;
  cmp_opp a b : cmp b a = CompOpp (cmp a b);
  cmp_trans a b c : cmp a b = Lt -> cmp b c = Lt -> cmp a c = Lt }.

Lemma cmp_refl `{Ordered K} a : cmp a a = Eq.
Proof. by apply cmp_eq. Qed.
Lemma cmp_lt_ne `{Ordered K} a b : cmp a b = Lt -> a <> b.
Proof. intros E ->. by rewrite cmp_refl in E. Qed.
Lemma cmp_gt_lt `{Ordered K} a b : cmp a b = Gt -> cmp b a = Lt.
Proof. intros E. by rewrite cmp_opp, E. Qed.
#[export] Hint Resolve cmp_refl cmp_gt_lt cmp_trans : ordered.

#[export] Program Instance Ordered_Z : Ordered Z := {| cmp := Z.compare |}.
Next Obligation. apply Z.compare_eq_iff. Qed.
Next Obligation. apply Z.compare_antisym. Qed.
Next Obligation. intros a b c. rewrite !Z.compare_lt_iff. lia. Qed.

(** The first difference decides. *)
Definition then_with (c d : comparison) : comparison := match c with Eq => d | _ => c end.
Lemma then_with_lt c d : then_with c d = Lt <-> c = Lt \/ c = Eq /\ d = Lt.
Proof. destruct c; cbn; naive_solver. Qed.
Lemma then_with_eq c d : then_with c d = Eq <-> c = Eq /\ d = Eq.
Proof. destruct c; cbn; naive_solver. Qed.
Lemma then_with_opp c d : CompOpp (then_with c d) = then_with (CompOpp c) (CompOpp d).
Proof. by destruct c. Qed.
Lemma then_with_trans `{Ordered A} (a b c : A) x y z :
  (x = Lt -> y = Lt -> z = Lt) ->
  then_with (cmp a b) x = Lt -> then_with (cmp b c) y = Lt -> then_with (cmp a c) z = Lt.
Proof.
  rewrite !then_with_lt. intros Hx [E|[E X]] [F|[F Y]].
  - left. by eapply cmp_trans.
  - apply cmp_eq in F as <-. by left.
  - apply cmp_eq in E as ->. by left.
  - apply cmp_eq in E as ->. apply cmp_eq in F as ->. right. split; [apply cmp_refl|auto].
Qed.

#[export] Program Instance Ordered_prod `{Ordered A, Ordered B} : Ordered (A * B) :=
  {| cmp x y := then_with (cmp x.1 y.1) (cmp x.2 y.2) |}.
Next Obligation. intros. rewrite then_with_eq, !cmp_eq. destruct a, b. naive_solver. Qed.
Next Obligation. intros. cbv beta. by rewrite then_with_opp, <- !cmp_opp. Qed.
Next Obligation. intros A ? B ? a b c. apply then_with_trans, cmp_trans. Qed.

Definition cmp_option `{Ordered A} (x y : option A) : comparison :=
  match x, y with None, None => Eq | None, Some _ => Lt | Some _, None => Gt | Some a, Some b => cmp a b end.
#[export] Program Instance Ordered_option `{Ordered A} : Ordered (option A) := {| cmp := cmp_option |}.
Next Obligation. intros A ? [a|] [b|]; cbn; rewrite ?cmp_eq; naive_solver. Qed.
Next Obligation. intros A ? [a|] [b|]; cbn; auto using cmp_opp. Qed.
Next Obligation. intros A ? [a|] [b|] [c|]; cbn; try done. apply cmp_trans. Qed.

Fixpoint cmp_list `{Ordered A} (x y : list A) : comparison :=
  match x, y with
  | [], [] => Eq
  | [], _ :: _ => Lt
  | _ :: _, [] => Gt
  | a :: x, b :: y => then_with (cmp a b) (cmp_list x y)
  end.
#[export] Program Instance Ordered_list `{Ordered A} : Ordered (list A) := {| cmp := cmp_list |}.
Next Obligation.
  intros A ? a. induction a as [|x a IH]; intros [|y b]; cbn; [naive_solver..|]. rewrite then_with_eq, cmp_eq, IH. naive_solver.
Qed.
Next Obligation.
  intros A ? a. induction a as [|x a IH]; intros [|y b]; cbn; [done..|]. by rewrite then_with_opp, IH, <- cmp_opp.
Qed.
Next Obligation.
  intros A ? a. induction a as [|x a IH]; intros [|y b] [|z c]; cbn; try done. apply then_with_trans. eauto.
Qed.

(** Structs and enums compare as the tuples of their fields. *)
Program Definition Ordered_via {A K} `{Ordered K} (f : A -> K) (f_inj : forall a b, f a = f b -> a = b) : Ordered A :=
  {| cmp a b := cmp (f a) (f b) |}.
Next Obligation. intros. rewrite cmp_eq. naive_solver. Qed.
Next Obligation. intros. apply cmp_opp. Qed.
Next Obligation. intros A K H f f_inj a b c. apply cmp_trans. Qed.

(** ** Maps *)
Definition BTreeMap (K V : Type) : Type := list (K * V).
Definition BTreeSet (K : Type) : Type := BTreeMap K unit.
Definition keys {K V} (m : BTreeMap K V) : list K := fst <$> m.

Section maps.
Context {K V : Type} `{Ordered K}.

Fixpoint get (k : K) (m : BTreeMap K V) : option V :=
  match m with
  | [] => None
  | (j, v) :: m => match cmp k j with Lt => None | Eq => Some v | Gt => get k m end
  end.
Fixpoint entry (f : option V -> V) (k : K) (m : BTreeMap K V) : BTreeMap K V :=
  match m with
  | [] => [(k, f None)]
  | (j, v) :: m' =>
      match cmp k j with
      | Lt => (k, f None) :: m
      | Eq => (j, f (Some v)) :: m'
      | Gt => (j, v) :: entry f k m'
      end
  end.
(** [BTreeMap::insert]: the map afterwards; [get] tells the value it replaces. *)
Definition insert_key (k : K) (v : V) (m : BTreeMap K V) : BTreeMap K V := entry (fun _ => v) k m.

Definition ascending (l : list K) : Prop := StronglySorted (fun a b => cmp a b = Lt) l.
Definition ordered (m : BTreeMap K V) : Prop := ascending (keys m).

Lemma get_entry f k m : get k (entry f k m) = Some (f (get k m)).
Proof.
  induction m as [|[j v] m IH]; cbn; [by rewrite cmp_refl|].
  destruct (cmp k j) eqn:E; cbn; rewrite ?cmp_refl, ?E; done.
Qed.
Lemma get_entry_ne f k j m : j <> k -> get j (entry f k m) = get j m.
Proof.
  intros Hne. assert (Hjk : cmp j k <> Eq) by (by rewrite cmp_eq).
  induction m as [|[i v] m IH]; cbn; [by destruct (cmp j k)|].
  destruct (cmp k i) eqn:E; cbn.
  - apply cmp_eq in E as ->. by destruct (cmp j i).
  - destruct (cmp j k) eqn:F; [done| |done]. by rewrite (cmp_trans j k i).
  - by rewrite IH.
Qed.

Lemma keys_entry f k m i : i ∈ keys (entry f k m) <-> i = k \/ i ∈ keys m.
Proof.
  induction m as [|[j v] m IH]; cbn; [set_solver|].
  destruct (cmp k j) eqn:E; cbn; [apply cmp_eq in E as ->|..]; unfold keys in *; set_solver.
Qed.
Lemma ordered_nil : ordered ([] : BTreeMap K V).
Proof. constructor. Qed.
Lemma ordered_entry f k m : ordered m -> ordered (entry f k m).
Proof.
  unfold ordered, ascending. induction m as [|[j v] m IH]; intros Hm; cbn; [repeat constructor|].
  inversion Hm as [|? ? Hs Hj]; subst. destruct (cmp k j) eqn:E; cbn.
  - by constructor.
  - constructor; [done|]. constructor; [done|]. eapply list.Forall_impl; [exact Hj|]. intros i. cbn. eauto with ordered.
  - constructor; [by apply IH|]. apply list.Forall_forall. intros i [->|Hi]%keys_entry; [auto with ordered|].
    by apply (proj1 (list.Forall_forall _ _) Hj).
Qed.

Lemma get_below k m : Forall (fun j => cmp k j = Lt) (keys m) -> get k m = None.
Proof. destruct m as [|[j v] m]; [done|]. cbn. intros Hk. inversion Hk. by destruct (cmp k j). Qed.
Lemma get_pair k v m : ordered m -> get k m = Some v <-> (k, v) ∈ m.
Proof.
  unfold ordered, ascending. induction m as [|[j w] m IH]; intros Hm; cbn; [set_solver|].
  inversion Hm as [|? ? Hs Hj]; subst. specialize (IH Hs). rewrite elem_of_cons.
  assert (Hin : forall i u, (i, u) ∈ m -> cmp j i = Lt).
  { intros i u Hi. apply (proj1 (list.Forall_forall _ _) Hj), list_elem_of_fmap. by exists (i, u). }
  destruct (cmp k j) eqn:E.
  - apply cmp_eq in E as ->. split; [intros [= ->]; by left|]. intros [[= ->]|Hi%Hin]; [done|].
    by rewrite cmp_refl in Hi.
  - split; [done|]. intros [[= -> ->]|Hi%Hin]; [by rewrite cmp_refl in E|].
    specialize (cmp_trans _ _ _ E Hi). by rewrite cmp_refl.
  - rewrite IH. split; [by right|]. intros [[= -> ->]|?]; [by rewrite cmp_refl in E|done].
Qed.
Lemma get_key k m : ordered m -> is_Some (get k m) <-> k ∈ keys m.
Proof.
  intros Hm. unfold keys. rewrite list_elem_of_fmap. split.
  - intros [v Hv%get_pair]; [|done]. by exists (k, v).
  - intros ([j v] & -> & Hv). exists v. by apply get_pair.
Qed.
Lemma get_absent k m : ordered m -> get k m = None <-> k ∉ keys m.
Proof. intros Hm. rewrite <- get_key, eq_None_not_Some by done. done. Qed.
Lemma ordered_NoDup m : ordered m -> NoDup (keys m).
Proof.
  unfold ordered, ascending. induction 1 as [|a l Hs IH Ha]; constructor; [|done]. intros Hin.
  pose proof (proj1 (list.Forall_forall _ _) Ha a Hin) as E. cbn in E. by rewrite cmp_refl in E.
Qed.

(** Two maps that answer alike are the same map. *)
Lemma ordered_ext m1 : forall m2, ordered m1 -> ordered m2 -> (forall k, get k m1 = get k m2) -> m1 = m2.
Proof.
  assert (Hlow : forall k j v (m : BTreeMap K V), ordered ((j, v) :: m) -> cmp k j <> Gt -> get k m = None).
  { intros k j v m Hm Hk. apply get_below. inversion Hm as [|? ? Hs Hj]; subst. eapply list.Forall_impl; [exact Hj|].
    intros i Hi. cbn in Hi. destruct (cmp k j) eqn:E; [by apply cmp_eq in E as ->|eauto with ordered|done]. }
  induction m1 as [|[j1 v1] m1 IH]; intros [|[j2 v2] m2] H1 H2 Hg; [done|..].
  - specialize (Hg j2). cbn in Hg. by rewrite cmp_refl in Hg.
  - specialize (Hg j1). cbn in Hg. by rewrite cmp_refl in Hg.
  - assert (j1 = j2) as ->.
    { apply cmp_eq. destruct (cmp j1 j2) eqn:E; [done| |].
      - specialize (Hg j1). cbn in Hg. by rewrite cmp_refl, E in Hg.
      - apply cmp_gt_lt in E. specialize (Hg j2). cbn in Hg. by rewrite cmp_refl, E in Hg. }
    pose proof (Hg j2) as Hv. cbn in Hv. rewrite cmp_refl in Hv. injection Hv as ->. f_equal.
    apply IH; [by inversion H1|by inversion H2|]. intros k. specialize (Hg k). cbn in Hg.
    destruct (cmp k j2) eqn:E; [|..|done]; by rewrite !(Hlow k j2 v2) by (done || by rewrite E).
Qed.
End maps.
Arguments ordered {K V _} m.

(** Two ascending lists of the same keys are the same list. *)
Lemma ascending_ext `{Ordered K} (a b : list K) : ascending a -> ascending b -> (forall k, k ∈ a <-> k ∈ b) -> a = b.
Proof.
  assert (Hk : forall l : list K, keys ((fun k => (k, tt)) <$> l) = l).
  { intros l. unfold keys. rewrite <- list_fmap_compose. apply list_fmap_id. }
  intros Ha Hb Hab. rewrite <- (Hk a), <- (Hk b). f_equal.
  assert (Ho : forall l : list K, ascending l -> ordered ((fun k => (k, tt)) <$> l)) by (intros l Hl; unfold ordered; by rewrite Hk).
  apply ordered_ext; [by apply Ho..|]. intros k.
  assert (Hg : forall l : list K, ascending l -> is_Some (get k ((fun k => (k, tt)) <$> l)) <-> k ∈ l).
  { intros l Hl. rewrite get_key by by apply Ho. by rewrite Hk. }
  specialize (Hab k). rewrite <- (Hg a Ha), <- (Hg b Hb) in Hab.
  destruct (get k _) as [[]|], (get k _) as [[]|]; try done; exfalso; naive_solver.
Qed.

(** ** Sets *)
Definition insert_elem `{Ordered K} (k : K) (s : BTreeSet K) : BTreeSet K := insert_key k tt s.

(** ** Maps built by one update for each element of a list *)
Section grouping.
Context {A K V : Type} `{Ordered K} `{!EqDecision K} (key : A -> K) (upd : option V -> A -> V).

Definition group_step (m : BTreeMap K V) (x : A) : BTreeMap K V := entry (fun o => upd o x) (key x) m.
Definition group (l : list A) : BTreeMap K V := fold_left group_step l [].
Definition group_value (l : list A) : option V := fold_left (fun o x => Some (upd o x)) l None.

Lemma group_app l x : group (l ++ [x]) = group_step (group l) x.
Proof. apply fold_left_app. Qed.
Lemma group_ordered l : ordered (group l).
Proof. induction l using rev_ind; [apply ordered_nil|]. rewrite group_app. by apply ordered_entry. Qed.
(** The value of a key comes from the elements with that key, in their order. *)
Lemma get_group k l : get k (group l) = group_value (filter (fun x => key x = k) l).
Proof.
  induction l as [|x l IH] using rev_ind; [done|]. rewrite group_app, list.filter_app. unfold group_step, group_value.
  rewrite fold_left_app. rewrite filter_cons, filter_nil. case_decide as E; cbn [fold_left].
  - rewrite <- E, get_entry, E, IH. done.
  - rewrite get_entry_ne by congruence. apply IH.
Qed.
Lemma group_keys k l : k ∈ keys (group l) <-> k ∈ key <$> l.
Proof.
  induction l as [|x l IH] using rev_ind; [set_solver|]. rewrite group_app. unfold group_step.
  rewrite keys_entry, IH, fmap_app. set_solver.
Qed.
End grouping.

Example group_ex :
  group (fun x => x mod 3) (fun o x => default [] o ++ [x]) [5; 3; 4; 7; 8] = [(0, [3]); (1, [4; 7]); (2, [5; 8])].
Proof. reflexivity. Qed.
