(* ===== verification/Dbc.v ===== *)
(** * CAN databases

    Models [crates/hf-automotive/src/dbc.rs]: parsing DBC text and decoding
    frames.  Bytes are [Z] in [0..255], integers of a width are [Z]. *)
From S2P Require Import Prelude Provider Text.
From Stdlib Require Import SpecFloat Ascii.

Inductive ByteOrder := Little | Big.
Inductive ValueType := Unsigned | Signed.
Inductive Multiplex := Plain | Multiplexor | Multiplexed (selector : Z).
#[export] Instance Multiplex_eq_dec : EqDecision Multiplex.
Proof. solve_decision. Defined.

Record Signal := mkSignal {
  name : Text;
  start_bit : Z;
  length : Z;
  byte_order : ByteOrder;
  value_type : ValueType;
  factor : f64;
  offset : f64;
  min : f64;
  max : f64;
  unit : Text;
  multiplex : Multiplex;
  value_table : gmap Z Text;
}.
Record Message := mkMessage {
  id : Z;
  extended : bool;
  message_name : Text;
  dlc : Z;
  signals : list Signal;
}.
Abbreviation Database := (gmap (Z * bool) Message).
Record ValueTableDef := mkDef {
  def_id : Z;
  def_extended : bool;
  signal : Text;
  table : gmap Z Text;
}.
Record DecodedSignal := mkDecoded {
  d_name : Text;
  raw : Z;
  value : f64;
  d_unit : Text;
  label : option Text;
}.
Record DecodedFrame := mkFrame { frame_message : Text; frame_signals : list DecodedSignal }.

Inductive DbcError :=
| Malformed (kind : string) (line : Z) (reason : string)
| OrphanSignal (line : Z).

(** ** Parsing *)
Definition has_extended_flag (raw_id : Z) : bool := negb (Z.land raw_id 0x80000000 =? 0).
Definition arbitration_id (raw_id : Z) : Z := Z.land raw_id 0x1FFFFFFF.

Definition parse_message (line : Text) (line_no : Z) : Result DbcError Message :=
  let malformed reason := Malformed "BO_" line_no reason in
  '(head, tail) ← ok_or (malformed "missing ':' separator"%string) (split_once (is_char ":") line);
  match split_whitespace head with
  | [_; raw; name] =>
      raw_id ← ok_or (malformed "id is not an unsigned integer"%string) (parse_unsigned u32_MAX raw);
      if bool_decide (name = []) then Err (malformed "empty message name"%string)
      else
        first ← ok_or (malformed "missing DLC"%string) (hd_error (split_whitespace tail));
        dlc ← ok_or (malformed "DLC is not a byte"%string) (parse_unsigned u8_MAX first);
        if 64 <? dlc then Err (malformed "DLC exceeds the CAN FD payload limit"%string)
        else Ok (mkMessage (arbitration_id raw_id) (has_extended_flag raw_id) name dlc [])
  | _ => Err (malformed "expected `BO_ <id> <name>:`"%string)
  end.

(** The text between the first [open] and the first [close] after it. *)
Definition between (open close : Ascii.ascii) (s : Text) : option Text :=
  '(_, rest) ← split_once (is_char open) s; fst <$> split_once (is_char close) rest.
Definition parse_pair (open close sep : Ascii.ascii) (tail : Text) : option (f64 * f64) :=
  inner ← between open close tail;
  '(a, b) ← split_once (is_char sep) inner;
  x ← parse_f64 (trim a); y ← parse_f64 (trim b); Some (x, y).
Arguments parse_pair (open close sep)%_char tail.
Definition parse_factor_offset : Text -> option (f64 * f64) := parse_pair "(" ")" ",".
Definition parse_min_max : Text -> option (f64 * f64) := parse_pair "[" "]" "|".
Definition QUOTE : Ascii.ascii := byte 34.
Definition parse_quoted : Text -> option Text := between QUOTE QUOTE.

Definition parse_multiplex (e : string -> DbcError) (token : option Text) : Result DbcError Multiplex :=
  match token with
  | None => Ok Plain
  | Some tok =>
      if bool_decide (tok = t "M") then Ok Multiplexor
      else match tok with
           | c :: rest =>
               if is_char "m" c
               then Multiplexed <$> ok_or (e "invalid multiplex selector"%string) (parse_unsigned u64_MAX rest)
               else Err (e "unrecognized multiplex indicator"%string)
           | [] => Err (e "unrecognized multiplex indicator"%string)
           end
  end.
(** ["<start>|<len>@<order><type>"]. *)
Definition parse_layout (e : string -> DbcError) (token : Text) : Result DbcError (Z * Z * ByteOrder * ValueType) :=
  '(start_str, rest) ← ok_or (e "missing '|' in bit layout"%string) (split_once (is_char "|") token);
  '(len_str, order_type) ← ok_or (e "missing '@' in bit layout"%string) (split_once (is_char "@") rest);
  start_bit ← ok_or (e "invalid start bit"%string) (parse_unsigned 65535 start_str);
  length ← ok_or (e "invalid length"%string) (parse_unsigned 65535 len_str);
  if negb ((1 <=? length) && (length <=? 64))
  then Err (e "signal length must be between 1 and 64 bits"%string)
  else
    byte_order ← match hd_error order_type with
                 | Some c => if is_char "1" c then Ok Little else if is_char "0" c then Ok Big
                             else Err (e "byte order must be 0 or 1"%string)
                 | None => Err (e "byte order must be 0 or 1"%string)
                 end;
    value_type ← match order_type !! 1%nat with
                 | Some c => if is_char "+" c then Ok Unsigned else if is_char "-" c then Ok Signed
                             else Err (e "value type must be + or -"%string)
                 | None => Err (e "value type must be + or -"%string)
                 end;
    if bool_decide (is_Some (order_type !! 2%nat)) then Err (e "unexpected text after the bit layout"%string)
    else Ok (start_bit, length, byte_order, value_type).

Definition parse_signal (line : Text) (line_no : Z) : Result DbcError Signal :=
  let malformed reason := Malformed "SG_" line_no reason in
  '(head, tail) ← ok_or (malformed "missing ':' separator"%string) (split_once (is_char ":") line);
  let head_tokens := split_whitespace head in
  name ← ok_or (malformed "missing signal name"%string) (head_tokens !! 1%nat);
  multiplex ← parse_multiplex malformed (head_tokens !! 2%nat);
  let tail := trim tail in
  bitspec_token ← ok_or (malformed "missing bit layout"%string) (hd_error (split_whitespace tail));
  '(start_bit, length, byte_order, value_type) ← parse_layout malformed bitspec_token;
  '(factor, offset) ← ok_or (malformed "invalid (factor,offset)"%string) (parse_factor_offset tail);
  if negb (is_finite factor) || negb (is_finite offset)
  then Err (malformed "factor and offset must be finite"%string)
  else
    '(min, max) ← ok_or (malformed "invalid [min|max]"%string) (parse_min_max tail);
    if negb (is_finite min) || negb (is_finite max)
    then Err (malformed "minimum and maximum must be finite"%string)
    else Ok (mkSignal name start_bit length byte_order value_type factor offset min max
               (default [] (parse_quoted tail)) multiplex ∅).

(** The ["<value> "label""] pairs; every round removes two characters, so
    the length of the cursor is enough fuel. *)
Fixpoint value_pairs (fuel : nat) (e : string -> DbcError) (cursor : Text) (table : gmap Z Text)
    : Result DbcError (gmap Z Text) :=
  match fuel, split_once (is_char QUOTE) cursor with
  | S fuel, Some (value_part, after) =>
      token ← ok_or (e "missing value before label"%string) (list.last (split_whitespace (trim value_part)));
      value ← ok_or (e "value is not an integer"%string) (parse_i64 token);
      '(label, cursor) ← ok_or (e "unterminated label"%string) (split_once (is_char QUOTE) after);
      value_pairs fuel e cursor (<[value := label]> table)
  | _, _ => Ok table
  end.
Definition parse_value_table (line : Text) (line_no : Z) : Result DbcError ValueTableDef :=
  let malformed reason := Malformed "VAL_" line_no reason in
  let body := trim_end_by (is_char ";") (trim (trim_start_matches (List.length line) (t "VAL_") line)) in
  match split_whitespace body with
  | raw :: signal_name :: _ =>
      raw_id ← ok_or (malformed "id is not an unsigned integer"%string) (parse_unsigned u32_MAX raw);
      let remainder := trim (from_option snd [] (split_once_str signal_name body)) in
      table ← value_pairs (List.length remainder) malformed remainder ∅;
      Ok (mkDef (arbitration_id raw_id) (has_extended_flag raw_id) signal_name table)
  | _ => Err (malformed "expected `VAL_ <id> <signal> ...`"%string)
  end.

(** What has been read so far. *)
Record Reading := mkReading { messages : list Message; value_tables : list ValueTableDef }.
Definition same_id (m k : Message) : bool := (id m =? id k) && Bool.eqb (extended m) (extended k).
Definition push_signal (m : Message) (s : Signal) : Message :=
  mkMessage (id m) (extended m) (message_name m) (dlc m) (signals m ++ [s]).
(** One line of the document, numbered from 1. *)
Definition parse_line (r : Reading) (index : nat) (raw_line : Text) : Result DbcError Reading :=
  let line := trim raw_line in
  let line_no := Z.of_nat index + 1 in
  match hd_error (split_whitespace line) with
  | Some tok =>
      if bool_decide (tok = t "BO_") then
        message ← parse_message line line_no;
        if existsb (same_id message) (messages r)
        then Err (Malformed "BO_" line_no "duplicate message id")
        else Ok (mkReading (messages r ++ [message]) (value_tables r))
      else if bool_decide (tok = t "SG_") then
        message ← ok_or (OrphanSignal line_no) (list.last (messages r));
        signal ← parse_signal line line_no;
        if existsb (fun s => bool_decide (name s = name signal)) (signals message)
        then Err (Malformed "SG_" line_no "duplicate signal name")
        else Ok (mkReading (removelast (messages r) ++ [push_signal message signal]) (value_tables r))
      else if bool_decide (tok = t "VAL_") then
        def ← parse_value_table line line_no; Ok (mkReading (messages r) (value_tables r ++ [def]))
      else Ok r
  | None => Ok r
  end.
Fixpoint parse_lines (r : Reading) (index : nat) (ls : list Text) : Result DbcError Reading :=
  match ls with
  | [] => Ok r
  | l :: ls => r ← parse_line r index l; parse_lines r (S index) ls
  end.

Definition with_table (tb : gmap Z Text) (s : Signal) : Signal :=
  mkSignal (name s) (start_bit s) (length s) (byte_order s) (value_type s) (factor s) (offset s)
    (min s) (max s) (unit s) (multiplex s) tb.
Fixpoint set_first_table (signal : Text) (tb : gmap Z Text) (l : list Signal) : list Signal :=
  match l with
  | [] => []
  | s :: l => if bool_decide (name s = signal) then with_table tb s :: l else s :: set_first_table signal tb l
  end.
Definition apply_table (d : Database) (def : ValueTableDef) : Database :=
  match d !! (def_id def, def_extended def) with
  | Some m =>
      <[(def_id def, def_extended def) :=
          mkMessage (id m) (extended m) (message_name m) (dlc m) (set_first_table (signal def) (table def) (signals m))]> d
  | None => d
  end.
Definition insert_message (d : Database) (m : Message) : Database := <[(id m, extended m) := m]> d.
Definition parse (text : Text) : Result DbcError Database :=
  r ← parse_lines (mkReading [] []) 0 (lines text);
  Ok (fold_left apply_table (value_tables r) (fold_left insert_message (messages r) ∅)).

(** ** Decoding *)
Definition bit_at (data : list Z) (pos : Z) : option Z :=
  value ← data !! Z.to_nat (pos / 8); Some (Z.land (Z.shiftr value (pos mod 8)) 1).
Fixpoint little_bits (data : list Z) (start : Z) (n : nat) (offset raw : Z) : option Z :=
  match n with
  | O => Some raw
  | S n => bit ← bit_at data (start + offset); little_bits data start n (offset + 1) (Z.lor raw (Z.shiftl bit offset))
  end.
Definition next_pos (pos : Z) : Z := if pos mod 8 =? 0 then pos + 15 else pos - 1.
Fixpoint big_bits (data : list Z) (n : nat) (pos raw : Z) : option Z :=
  match n with
  | O => Some raw
  | S n => bit ← bit_at data pos; big_bits data n (next_pos pos) (Z.lor (wrapping 64 (Z.shiftl raw 1)) bit)
  end.
Definition extract_raw (data : list Z) (start_bit length : Z) (order : ByteOrder) : option Z :=
  if (length =? 0) || (64 <? length) then None
  else match order with
       | Little => little_bits data start_bit (Z.to_nat length) 0 0
       | Big => big_bits data (Z.to_nat length) start_bit 0
       end.

(** [u64::cast_signed]; [i64::wrapping_sub]. *)
Definition cast_signed (z : Z) : Z := if z <? 2 ^ 63 then z else z - 2 ^ 64.
Definition wrapping_sub_i64 (a b : Z) : Z := cast_signed (wrapping 64 (a - b)).
Definition signed_value (raw length : Z) (v : ValueType) : Z :=
  match v with
  | Signed =>
      if (length <? 64) && (Z.land (Z.shiftr raw (length - 1)) 1 =? 1)
      then wrapping_sub_i64 (cast_signed raw) (cast_signed (wrapping 64 (Z.shiftl 1 length)))
      else cast_signed raw
  | Unsigned => cast_signed raw
  end.

Definition signal_raw (data : list Z) (s : Signal) : option Z :=
  extract_raw data (start_bit s) (length s) (byte_order s).
Definition decode_signal (data : list Z) (switch : option Z) (s : Signal) : option DecodedSignal :=
  if match multiplex s with Multiplexed selector => bool_decide (switch <> Some selector) | _ => false end then None
  else
    raw_bits ← signal_raw data s;
    let raw := signed_value raw_bits (length s) (value_type s) in
    let base := match value_type s with Unsigned => f64_of raw_bits | Signed => f64_of raw end in
    Some (mkDecoded (name s) raw (mul_add base (factor s) (offset s)) (unit s) (value_table s !! raw)).
Definition switch_of (m : Message) (data : list Z) : option Z :=
  s ← List.find (fun s => bool_decide (multiplex s = Multiplexor)) (signals m); signal_raw data s.
Definition decode (d : Database) (id : Z) (extended : bool) (data : list Z) : option DecodedFrame :=
  message ← d !! (id, extended);
  Some (mkFrame (message_name message) (omap (decode_signal data (switch_of message data)) (signals message))).

(** ** The bits of a frame *)

(** The frame as one number, first byte lowest, and first byte highest. *)
Definition le_value (data : list Z) : Z := foldr (fun b v => b + 256 * v) 0 data.
Definition be_value (data : list Z) : Z := fold_left (fun v b => 256 * v + b) data 0.
(** How many bits of the frame, first byte and highest bit first, precede the bit at [pos]. *)
Definition from_top (pos : Z) : Z := 8 * (pos / 8) + 7 - pos mod 8.
(** The bits of a signal, cut out of the frame by division. *)
Definition field (data : list Z) (start length : Z) (o : ByteOrder) : option Z :=
  let n := 8 * zlen data in
  match o with
  | Little =>
      if start + length <=? n then Some ((le_value data / 2 ^ start) mod 2 ^ length) else None
  | Big =>
      if from_top start + length <=? n
      then Some ((be_value data / 2 ^ (n - from_top start - length)) mod 2 ^ length) else None
  end.

Lemma be_le (data : list Z) : be_value data = le_value (reverse data).
Proof.
  unfold be_value, le_value. change (reverse data) with (rev_append data []).
  rewrite <- List.rev_alt, List.fold_left_rev_right.
  generalize 0. induction data as [|b data IH]; intros v; [done|]. cbn [fold_left]. rewrite IH.
  f_equal. apply Z.add_comm.
Qed.
Lemma le_value_nonneg (data : list Z) : Forall is_u8 data -> 0 <= le_value data.
Proof. induction 1 as [|b data Hb _ IH]; [done|]. change (0 <= b + 256 * le_value data). unfold is_u8 in Hb. lia. Qed.

Lemma bit_at_le (data : list Z) (pos : Z) :
  Forall is_u8 data -> 0 <= pos ->
  bit_at data pos = if pos <? 8 * zlen data then Some ((le_value data / 2 ^ pos) mod 2) else None.
Proof.
  intros Hd. revert pos. induction Hd as [|b data Hb _ IH]; intros pos Hpos.
  - unfold bit_at. replace (pos <? 8 * zlen []) with false by (unfold zlen; cbn; lia). done.
  - rewrite zlen_cons. cbn [le_value foldr]. fold (le_value data). unfold is_u8, u8_MAX in Hb.
    destruct (decide (pos < 8)) as [Hlt|Hge].
    + replace (pos <? 8 * (zlen data + 1)) with true by (pose proof (zlen_nonneg data); lia).
      unfold bit_at. rewrite Z.div_small, Z.mod_small by lia.
      change ((b :: data) !! Z.to_nat 0) with (Some b). cbn [mbind option_bind]. f_equal.
      rewrite Z.shiftr_div_pow2 by lia. change 1 with (Z.ones 1). rewrite Z.land_ones by lia. change (2 ^ 1) with 2.
      replace (b + 256 * le_value data) with (b + (2 ^ (7 - pos) * le_value data * 2) * 2 ^ pos).
      2:{ replace 256 with (2 ^ (7 - pos) * 2 * 2 ^ pos); [ring|].
          rewrite <- Z.mul_assoc, (Z.mul_comm 2), Z.mul_assoc, <- Z.pow_add_r by lia.
          by replace (7 - pos + pos) with 7 by lia. }
      rewrite Z.div_add by (apply Z.pow_nonzero; lia). by rewrite Z_mod_plus_full.
    + replace (bit_at (b :: data) pos) with (bit_at data (pos - 8)).
      2:{ unfold bit_at. replace (pos / 8) with ((pos - 8) / 8 + 1) by divlia.
          rewrite Z2Nat.inj_add, Nat.add_comm by divlia. change (Z.to_nat 1) with 1%nat. by replace (pos mod 8) with ((pos - 8) mod 8) by divlia. }
      rewrite IH by lia. replace (pos - 8 <? 8 * zlen data) with (pos <? 8 * (zlen data + 1)) by lia.
      case_match; [|done]. do 2 f_equal. replace (2 ^ pos) with (256 * 2 ^ (pos - 8)).
      2:{ change 256 with (2 ^ 8). rewrite <- Z.pow_add_r by lia. f_equal. lia. }
      rewrite <- Z.div_div by lia. f_equal. rewrite Z.mul_comm, Z.div_add by lia. rewrite Z.div_small; lia.
Qed.

Lemma bit_at_be (data : list Z) (pos : Z) :
  Forall is_u8 data -> 0 <= pos ->
  bit_at data pos =
    if from_top pos <? 8 * zlen data
    then Some ((be_value data / 2 ^ (8 * zlen data - 1 - from_top pos)) mod 2) else None.
Proof.
  intros Hd Hpos. unfold from_top. rewrite be_le.
  replace (8 * (pos / 8) + 7 - pos mod 8 <? 8 * zlen data) with (pos / 8 <? zlen data) by divlia.
  destruct (pos / 8 <? zlen data) eqn:E.
  2:{ unfold bit_at. rewrite lookup_ge_None_2; [done|]. unfold zlen in E. lia. }
  assert (Hz : zlen (reverse data) = zlen data) by (unfold zlen; by rewrite length_reverse).
  set (k := 8 * zlen data - 1 - (8 * (pos / 8) + 7 - pos mod 8)).
  assert (Hbit : bit_at data pos = bit_at (reverse data) k).
  { unfold bit_at, k.
    replace ((8 * zlen data - 1 - (8 * (pos / 8) + 7 - pos mod 8)) mod 8) with (pos mod 8) by divlia.
    rewrite reverse_lookup by (unfold zlen in *; divlia). do 2 f_equal. unfold zlen in *. divlia. }
  rewrite Hbit, bit_at_le, Hz; [|by apply Forall_reverse|subst k; divlia].
  replace (k <? 8 * zlen data) with true by (subst k; divlia). done.
Qed.

Lemma little_bits_spec (data : list Z) start n : forall off v,
  Forall is_u8 data -> 0 <= start -> 0 <= off -> v = (le_value data / 2 ^ start) mod 2 ^ off ->
  little_bits data start n off v =
    if (n =? 0)%nat || (start + off + Z.of_nat n <=? 8 * zlen data)
    then Some ((le_value data / 2 ^ start) mod 2 ^ (off + Z.of_nat n)) else None.
Proof.
  induction n as [|n IH]; intros off v Hd Hs Ho Hv.
  - cbn. by rewrite Z.add_0_r, Hv.
  - cbn [little_bits]. rewrite bit_at_le by (done || lia).
    destruct (start + off <? 8 * zlen data) eqn:E; cbn [mbind option_bind].
    2:{ cbn [Nat.eqb orb]. case_match; [lia|done]. }
    pose proof (Z.mod_pos_bound (le_value data / 2 ^ start) (2 ^ off) (Z.pow_pos_nonneg 2 off ltac:(lia) Ho)).
    pose proof (Z.mod_pos_bound (le_value data / 2 ^ (start + off)) 2 ltac:(lia)).
    rewrite IH; [|done|done|lia|].
    + replace (off + 1 + Z.of_nat n) with (off + Z.of_nat (S n)) by lia. cbn [Nat.eqb orb].
      destruct n; cbn [Nat.eqb orb]; repeat case_match; done || lia.
    + rewrite Z.lor_comm, Hv.
      rewrite (Z.pow_add_r 2 off 1), Z.rem_mul_r by (apply Z.pow_nonzero || lia; lia).
      rewrite Z.div_div, <- Z.pow_add_r by (apply Z.pow_nonzero || lia; lia).
      rewrite lor_shiftl_low by done. change (2 ^ 1) with 2. ring.
Qed.

Lemma from_top_next (pos : Z) : from_top (next_pos pos) = from_top pos + 1.
Proof. unfold from_top, next_pos. case_match; divlia. Qed.
Lemma next_pos_nonneg (pos : Z) : 0 <= pos -> 0 <= next_pos pos.
Proof. unfold next_pos. case_match; divlia. Qed.
Lemma from_top_nonneg (pos : Z) : 0 <= pos -> 0 <= from_top pos.
Proof. unfold from_top. divlia. Qed.

Lemma big_bits_spec (data : list Z) n : forall pos k v,
  Forall is_u8 data -> 0 <= pos -> 0 <= k -> k + Z.of_nat n <= 64 ->
  v = (be_value data / 2 ^ (8 * zlen data - from_top pos)) mod 2 ^ k ->
  big_bits data n pos v =
    if (n =? 0)%nat || (from_top pos + Z.of_nat n <=? 8 * zlen data)
    then Some ((be_value data / 2 ^ (8 * zlen data - from_top pos - Z.of_nat n)) mod 2 ^ (k + Z.of_nat n)) else None.
Proof.
  induction n as [|n IH]; intros pos k v Hd Hp Hk Hn Hv.
  - cbn. by rewrite Z.add_0_r, Z.sub_0_r, Hv.
  - cbn [big_bits]. rewrite bit_at_be by done.
    destruct (from_top pos <? 8 * zlen data) eqn:E; cbn [mbind option_bind].
    2:{ cbn [Nat.eqb orb]. case_match; [lia|done]. }
    set (low := 8 * zlen data - 1 - from_top pos).
    pose proof (Z.mod_pos_bound (be_value data / 2 ^ low) 2 ltac:(lia)).
    rewrite (IH _ (k + 1)); [|done|by apply next_pos_nonneg|lia|lia|].
    + rewrite from_top_next. replace (from_top pos + 1 + Z.of_nat n) with (from_top pos + Z.of_nat (S n)) by lia.
      replace (8 * zlen data - (from_top pos + 1) - Z.of_nat n) with (8 * zlen data - from_top pos - Z.of_nat (S n)) by lia.
      replace (k + 1 + Z.of_nat n) with (k + Z.of_nat (S n)) by lia. cbn [Nat.eqb orb].
      destruct n; cbn [Nat.eqb orb]; repeat case_match; done || lia.
    + rewrite from_top_next. replace (8 * zlen data - (from_top pos + 1)) with low by (subst low; lia).
      assert (Hv2 : v = (be_value data / 2 ^ low / 2) mod 2 ^ k).
      { rewrite Hv. f_equal. rewrite Z.div_div by lia. f_equal.
        replace (8 * zlen data - from_top pos) with (Z.succ low) by (subst low; lia).
        rewrite Z.pow_succ_r by (subst low; lia). ring. }
      assert (0 <= v < 2 ^ k) by (rewrite Hv2; apply Z.mod_pos_bound; lia).
      assert (2 ^ (k + 1) <= 2 ^ 64) by (apply Z.pow_le_mono_r; lia).
      rewrite Z.pow_add_r in * by lia. change (2 ^ 1) with 2 in *.
      unfold wrapping. rewrite Z.mod_small by (rewrite Z.shiftl_mul_pow2 by lia; lia).
      rewrite lor_shiftl_low by (change (2 ^ 1) with 2; lia).
      rewrite (Z.mul_comm (2 ^ k) 2), Z.rem_mul_r, <- Hv2 by lia. change (2 ^ 1) with 2. ring.
Qed.

(** The bits [extract_raw] collects one by one are the field cut out at once. *)
Lemma extract_raw_field (data : list Z) start len o :
  Forall is_u8 data -> 0 <= start -> 1 <= len <= 64 -> extract_raw data start len o = field data start len o.
Proof.
  intros Hd Hs Hl. unfold extract_raw. replace ((len =? 0) || (64 <? len)) with false by lia. destruct o; cbn [field].
  - rewrite little_bits_spec; [|done|done|lia|by rewrite Z.mod_1_r].
    rewrite Z.add_0_r, Z.add_0_l, Z2Nat.id by lia. by replace (Z.to_nat len =? 0)%nat with false by lia.
  - rewrite (big_bits_spec _ _ _ 0); [|done|done|lia|lia|by rewrite Z.mod_1_r].
    rewrite Z.add_0_l, Z2Nat.id by lia. by replace (Z.to_nat len =? 0)%nat with false by lia.
Qed.
Lemma field_range (data : list Z) start len o z : 0 <= len -> field data start len o = Some z -> 0 <= z < 2 ^ len.
Proof. intros Hl. unfold field. intros H. repeat case_match; simplify_eq; apply Z.mod_pos_bound; lia. Qed.

(** [bits] read as a [len]-bit integer, in two's complement when signed. *)
Definition integer (bits len : Z) (v : ValueType) : Z :=
  match v with Unsigned => bits | Signed => if bits <? 2 ^ (len - 1) then bits else bits - 2 ^ len end.
Lemma signed_value_integer bits len v :
  1 <= len <= 64 -> 0 <= bits < 2 ^ len -> signed_value bits len v = cast_signed (wrapping 64 (integer bits len v)).
Proof.
  intros Hl Hb. assert (2 ^ len <= 2 ^ 64) by (apply Z.pow_le_mono_r; lia).
  assert (Hp : 2 ^ len = 2 * 2 ^ (len - 1)) by (rewrite <- Z.pow_succ_r by lia; f_equal; lia).
  destruct v; cbn [signed_value integer]; unfold wrapping; [by rewrite Z.mod_small by lia|].
  change 1 with (Z.ones 1) at 2. rewrite Z.land_ones, Z.shiftr_div_pow2 by lia. change (2 ^ 1) with 2.
  assert (Hq : bits / 2 ^ (len - 1) = if bits <? 2 ^ (len - 1) then 0 else 1).
  { case_match; [by rewrite Z.div_small by lia|]. symmetry. apply (Z.div_unique _ _ 1 (bits - 2 ^ (len - 1))); lia. }
  rewrite Hq. case_match; cbn [Z.modulo].
  - rewrite andb_false_r. by rewrite Z.mod_small by lia.
  - destruct (len <? 64) eqn:E; cbn [andb].
    + unfold wrapping_sub_i64. f_equal. unfold wrapping.
      assert (2 ^ len <= 2 ^ 63) by (apply Z.pow_le_mono_r; lia).
      rewrite Z.shiftl_mul_pow2, Z.mul_1_l, (Z.mod_small (2 ^ len)) by lia. unfold cast_signed.
      replace (bits <? 2 ^ 63) with true by lia. case_match; [done|].
      replace (bits - (2 ^ len - 2 ^ 64)) with (bits - 2 ^ len + 1 * 2 ^ 64) by lia. apply Z_mod_plus_full.
    + replace len with 64 by lia. replace (bits - 2 ^ 64) with (bits + (-1) * 2 ^ 64) by lia.
      rewrite Z_mod_plus_full, Z.mod_small; [done|]. replace len with 64 in Hb by lia. done.
Qed.

(** ** What parsing accepts *)
Definition selector_ok (x : Multiplex) : Prop :=
  match x with Multiplexed n => is_u64 n | _ => True end.
Definition signal_ok (s : Signal) : Prop :=
  0 <= start_bit s <= 65535 /\ 1 <= length s <= 64 /\ is_finite (factor s) /\ is_finite (offset s) /\
  is_finite (min s) /\ is_finite (max s) /\ selector_ok (multiplex s) /\ map_Forall (fun v _ => is_i64 v) (value_table s).
Definition message_ok (m : Message) : Prop :=
  0 <= id m < 2 ^ 29 /\ 0 <= dlc m <= 64 /\ NoDup (name <$> signals m) /\ Forall signal_ok (signals m).
Definition database_ok (d : Database) : Prop :=
  map_Forall (fun k m => k = (id m, extended m) /\ message_ok m) d.
Definition def_ok (def : ValueTableDef) : Prop := map_Forall (fun v _ => is_i64 v) (table def).

Lemma parse_i64_range s n : parse_i64 s = Some n -> is_i64 n.
Proof.
  unfold parse_i64. intros H. assert (exists m, i64_of m = Some n) as [m Hm].
  { case_match; ok_inv; eauto. }
  unfold i64_of in Hm. ok_inv. unfold is_i64. lia.
Qed.
Ltac ranges :=
  repeat match goal with
  | H : parse_unsigned _ _ = Some _ |- _ => apply parse_unsigned_range in H
  | H : parse_i64 _ = Some _ |- _ => apply parse_i64_range in H
  end.
Lemma arbitration_id_range a : 0 <= arbitration_id a < 2 ^ 29.
Proof. apply (land_low a 29). lia. Qed.

Lemma parse_message_ok line n m :
  parse_message line n = Ok m -> message_ok m /\ signals m = [].
Proof.
  unfold parse_message. intros H. ok_inv. destruct (split_whitespace _) as [|a [|b [|c [|]]]]; try done.
  ok_inv. ranges. subst m. cbn. split; [|done]. repeat split; cbn; try apply arbitration_id_range; try lia; constructor.
Qed.
Lemma parse_multiplex_ok e token x : parse_multiplex e token = Ok x -> selector_ok x.
Proof.
  unfold parse_multiplex. intros H. destruct token as [[|c r]|]; ok_inv; try done; subst; try done.
  by ranges.
Qed.
Lemma parse_layout_ok e token a b o v :
  parse_layout e token = Ok (a, b, o, v) -> 0 <= a <= 65535 /\ 1 <= b <= 64.
Proof.
  unfold parse_layout. intros H. ok_inv. ranges. simplify_eq. lia.
Qed.
Lemma parse_signal_ok line n s : parse_signal line n = Ok s -> signal_ok s /\ value_table s = ∅.
Proof.
  unfold parse_signal. intros H. ok_inv.
  repeat match goal with H : _ || _ = false |- _ => apply orb_false_iff in H as [? ?] end.
  repeat match goal with H : negb _ = false |- _ => apply negb_false_iff in H end. subst s.
  match goal with H : parse_layout _ _ = Ok _ |- _ => apply parse_layout_ok in H as [? ?] end.
  match goal with H : parse_multiplex _ _ = Ok _ |- _ => apply parse_multiplex_ok in H end.
  split; [|done]. split_and!; cbn; try done; try lia; by apply Is_true_true.
Qed.
Lemma value_pairs_ok fuel : forall e cursor tb tb',
  map_Forall (fun v _ => is_i64 v) tb -> value_pairs fuel e cursor tb = Ok tb' ->
  map_Forall (fun v (_ : Text) => is_i64 v) tb'.
Proof.
  induction fuel as [|fuel IH]; intros e cursor tb tb' Htb H; cbn [value_pairs] in H; [by simplify_eq|].
  destruct (split_once _ cursor) as [[value_part after]|]; [|by simplify_eq]. ok_inv.
  eapply IH; [|done]. apply map_Forall_insert_2; [|done]. by ranges.
Qed.
Lemma parse_value_table_ok line n def : parse_value_table line n = Ok def -> def_ok def.
Proof.
  unfold parse_value_table. intros H. destruct (split_whitespace _) as [|raw [|s r]]; [done..|].
  ok_inv. subst def. eapply value_pairs_ok; [|done]. apply map_Forall_empty.
Qed.

Definition reading_ok (r : Reading) : Prop :=
  Forall message_ok (messages r) /\ NoDup ((fun m => (id m, extended m)) <$> messages r) /\
  Forall def_ok (value_tables r).
Lemma existsb_same_id m l : existsb (same_id m) l = false -> (id m, extended m) ∉ ((fun k => (id k, extended k)) <$> l).
Proof.
  intros H Hin. apply list_elem_of_fmap in Hin as (k & [= H1 H2] & Hk). apply list_elem_of_In in Hk.
  assert (existsb (same_id m) l = true); [|congruence]. apply existsb_exists. exists k. split; [done|].
  unfold same_id. rewrite H1, H2, Z.eqb_refl. by destruct (extended k).
Qed.
Lemma existsb_name n l : existsb (fun s => bool_decide (name s = n)) l = false -> n ∉ name <$> l.
Proof.
  intros H Hin. apply list_elem_of_fmap in Hin as (s & -> & Hs). apply list_elem_of_In in Hs.
  assert (existsb (fun s' => bool_decide (name s' = name s)) l = true); [|congruence].
  apply existsb_exists. exists s. split; [done|]. by apply bool_decide_eq_true.
Qed.
Lemma parse_line_ok r index line r' : reading_ok r -> parse_line r index line = Ok r' -> reading_ok r'.
Proof.
  intros (Hm & Hn & Hd). unfold parse_line. destruct (hd_error _); intros H; [|by simplify_eq]. ok_inv; subst.
  - match goal with H : parse_message _ _ = Ok _ |- _ => apply parse_message_ok in H as [? ?] end.
    split_and!; cbn; [apply Forall_app; split; [done|by constructor]|..|done].
    rewrite fmap_app. apply list.NoDup_app. split_and!; [done| |apply NoDup_singleton].
    intros k Hk ->%list_elem_of_singleton. by eapply existsb_same_id.
  - match goal with H : list.last _ = Some _ |- _ => apply last_Some in H as [ms Hl] end.
    match goal with H : parse_signal _ _ = Ok _ |- _ => apply parse_signal_ok in H as [? ?] end.
    rewrite Hl in *. rewrite removelast_last. apply Forall_app in Hm as [Hl' Hx]. apply Forall_inv in Hx.
    destruct Hx as (? & ? & ? & ?). split_and!; cbn; [|by rewrite fmap_app in *|done].
    apply Forall_app. split; [done|]. apply Forall_singleton. split; [done|]. split; [done|]. split.
    + cbn [push_signal signals]. rewrite fmap_app. apply list.NoDup_app. split_and!; [done| |apply NoDup_singleton].
      intros k Hk ->%list_elem_of_singleton. by eapply existsb_name.
    + apply Forall_app. split; [done|by constructor].
  - split_and!; cbn; [done..|]. apply Forall_app. split; [done|]. constructor; [|done]. by eapply parse_value_table_ok.
  - by split_and!.
Qed.
Lemma parse_lines_ok ls : forall r index r', reading_ok r -> parse_lines r index ls = Ok r' -> reading_ok r'.
Proof.
  induction ls as [|l ls IH]; intros r index r' Hr H; cbn [parse_lines] in H; ok_inv; [by subst|].
  eapply IH; [|done]. by eapply parse_line_ok.
Qed.

Lemma set_first_table_ok signal tb l :
  map_Forall (fun v _ => is_i64 v) tb -> Forall signal_ok l ->
  Forall signal_ok (set_first_table signal tb l) /\ name <$> set_first_table signal tb l = name <$> l.
Proof.
  intros Ht. induction 1 as [|s l Hs Hl IH]; cbn [set_first_table]; [done|]. case_match.
  - split; [|done]. constructor; [|done]. destruct Hs as (? & ? & ? & ? & ? & ? & ? & ?). by repeat (split; [done|]).
  - destruct IH as [IH1 IH2]. split; [by constructor|]. by rewrite !fmap_cons, IH2.
Qed.
Lemma apply_table_ok d def : database_ok d -> def_ok def -> database_ok (apply_table d def).
Proof.
  intros Hd Hf. unfold apply_table. destruct (d !! _) as [m|] eqn:E; [|done].
  destruct (Hd _ _ E) as (Hk & Hi & Hl & Hn & Hs).
  destruct (set_first_table_ok (signal def) (table def) (signals m) Hf Hs) as [Hs' Hn'].
  apply map_Forall_insert_2; [|done]. split; [done|].
  split; [done|]. split; [done|]. split; [|done]. cbn [signals]. by rewrite Hn'.
Qed.
Lemma parse_ok text d : parse text = Ok d -> database_ok d.
Proof.
  unfold parse. intros H. ok_inv. subst d.
  match goal with H : parse_lines _ _ _ = Ok ?r |- _ => apply parse_lines_ok in H as (Hm & _ & Hd); [|by split_and!; constructor] end.
  assert (H0 : database_ok ∅) by apply map_Forall_empty. revert H0. generalize (∅ : Database).
  induction Hm as [|m l Hm' Hl IH]; intros d H0; cbn [fold_left].
  - revert d H0. induction Hd as [|def l Hdef Hl IH]; intros d H0; cbn [fold_left]; [done|]. by apply IH, apply_table_ok.
  - apply IH. by apply map_Forall_insert_2.
Qed.

(** ** Decoding as arithmetic *)
Definition as_i64 (z : Z) : Z := cast_signed (wrapping 64 z).
Definition switch_value (m : Message) (data : list Z) : option Z :=
  x ← List.find (fun s => bool_decide (multiplex s = Multiplexor)) (signals m);
  field data (start_bit x) (length x) (byte_order x).
Definition present (m : Message) (data : list Z) (s : Signal) : bool :=
  match multiplex s with
  | Multiplexed selector => bool_decide (switch_value m data = Some selector)
  | _ => true
  end.
(** What a frame says of a signal of its message. *)
Definition reading_of (m : Message) (data : list Z) (s : Signal) : option DecodedSignal :=
  if present m data s then
    bits ← field data (start_bit s) (length s) (byte_order s);
    let n := integer bits (length s) (value_type s) in
    Some (mkDecoded (name s) (as_i64 n) (mul_add (f64_of n) (factor s) (offset s)) (unit s) (value_table s !! as_i64 n))
  else None.

Lemma as_i64_id n : is_i64 n -> as_i64 n = n.
Proof.
  unfold is_i64, i64_MIN, i64_MAX, as_i64, cast_signed, wrapping. intros H.
  destruct (decide (0 <= n)); [rewrite Z.mod_small by lia; case_match; lia|].
  replace (n mod 2 ^ 64) with (n + 2 ^ 64); [case_match; lia|].
  apply (Z.mod_unique _ _ (-1)); lia.
Qed.
Lemma integer_range bits len v :
  1 <= len <= 64 -> 0 <= bits < 2 ^ len -> is_i64 (integer bits len v) \/ v = Unsigned /\ len = 64.
Proof.
  intros Hl Hb. assert (Hp : 2 ^ len = 2 * 2 ^ (len - 1)) by (rewrite <- Z.pow_succ_r by lia; f_equal; lia).
  assert (2 ^ (len - 1) <= 2 ^ 63) by (apply Z.pow_le_mono_r; lia).
  unfold is_i64, i64_MIN, i64_MAX. destruct v; cbn [integer]; [|case_match; lia].
  destruct (decide (len = 64)); [by right|]. assert (2 ^ len <= 2 ^ 63) by (apply Z.pow_le_mono_r; lia). lia.
Qed.
Lemma signal_raw_field data s :
  Forall is_u8 data -> signal_ok s -> signal_raw data s = field data (start_bit s) (length s) (byte_order s).
Proof. intros Hd (? & ? & _). apply extract_raw_field; [done|lia|lia]. Qed.

Lemma switch_of_value m data :
  Forall is_u8 data -> message_ok m -> switch_of m data = switch_value m data.
Proof.
  intros Hd (_ & _ & _ & Hs). unfold switch_of, switch_value. destruct (List.find _ _) as [s|] eqn:E; [|done].
  apply find_some in E as [Hin _]. cbn. apply signal_raw_field; [done|].
  rewrite list.Forall_forall in Hs. by apply Hs, list_elem_of_In.
Qed.
Lemma decode_signal_reading m data s :
  Forall is_u8 data -> message_ok m -> signal_ok s ->
  decode_signal data (switch_of m data) s = reading_of m data s.
Proof.
  intros Hd Hm Hs. unfold decode_signal, reading_of, present. rewrite switch_of_value, signal_raw_field by done.
  destruct Hs as (_ & Hl & _).
  assert (Hbody : forall bits, field data (start_bit s) (length s) (byte_order s) = Some bits ->
    signed_value bits (length s) (value_type s) = as_i64 (integer bits (length s) (value_type s)) /\
    match value_type s with Unsigned => f64_of bits | Signed => f64_of (signed_value bits (length s) (value_type s)) end
    = f64_of (integer bits (length s) (value_type s))).
  { intros bits Hb. apply field_range in Hb; [|lia]. pose proof (signed_value_integer bits (length s) (value_type s) Hl Hb) as E.
    split; [done|]. destruct (value_type s) eqn:Ev; [done|]. rewrite E. f_equal.
    destruct (integer_range bits (length s) Signed Hl Hb) as [?|[? _]]; [|done]. by apply as_i64_id. }
  destruct (multiplex s); [| |case_bool_decide; case_bool_decide; try done].
  all: destruct (field _ _ _ _) as [bits|] eqn:Hf; [|done]; cbn [mbind option_bind];
    destruct (Hbody bits eq_refl) as [E1 E2]; by rewrite E2, E1.
Qed.

(** C27: whatever the text, a database that parses is well formed (each message
    under its own 29-bit identifier, of at most 64 bytes, with signals of
    different names, 1 to 64 bits wide, scaled by finite numbers), and decoding
    any frame with it never fails: an unknown identifier gives nothing, and a
    known one gives, in the order of definition, every signal whose bits are all
    in the frame and that the multiplexor selects, with the integer its bits
    spell in the frame read as one little- or big-endian number, in two's
    complement when signed, scaled with one rounding; that integer is reported
    exactly, except for an unsigned one of 64 bits, which is reported as the
    [i64] with the same bits. *)
Theorem decode_reads_fields (text : Text) (d : Database) (i : Z) (e : bool) (data : list Z) :
  parse text = Ok d -> Forall is_u8 data ->
  database_ok d /\
  decode d i e data =
    (m ← d !! (i, e); Some (mkFrame (message_name m) (omap (reading_of m data) (signals m)))) /\
  (forall m s bits, d !! (i, e) = Some m -> s ∈ signals m -> field data (start_bit s) (length s) (byte_order s) = Some bits ->
     let n := integer bits (length s) (value_type s) in
     bits = n mod 2 ^ length s /\ (as_i64 n = n \/ value_type s = Unsigned /\ length s = 64)).
Proof.
  intros Hd%parse_ok Hu. split; [done|]. split.
  - unfold decode. destruct (d !! (i, e)) as [m|] eqn:E; [|done]. destruct (Hd _ _ E) as [_ Hm]. cbn [mbind option_bind].
    do 2 f_equal. pose proof Hm as (_ & _ & _ & Hs). clear E. apply list_omap_ext. induction Hs; constructor; [|done].
    by apply decode_signal_reading.
  - intros m s bits E Hin Hb. destruct (Hd _ _ E) as (_ & _ & _ & _ & Hs).
    rewrite list.Forall_forall in Hs. destruct (Hs _ Hin) as (_ & Hl & _).
    apply field_range in Hb; [|lia]. split.
    + destruct (value_type s); cbn [integer]; [by rewrite Z.mod_small|]. case_match; [by rewrite Z.mod_small|].
      replace (bits - 2 ^ length s) with (bits + (-1) * 2 ^ length s) by lia. by rewrite Z_mod_plus_full, Z.mod_small.
    + destruct (integer_range bits (length s) (value_type s) Hl Hb) as [?|?]; [left; by apply as_i64_id|by right].
Qed.

(** ** A database of two messages *)
Definition quoted (s : string) : string := quote +:+ s +:+ quote.
Definition document (ls : list string) : Text := t (String.concat (String (byte 10) "") ls).
Definition sample_dbc : Text := document [
  "BO_ 100 EngineData: 8 ECU";
  " SG_ Temperature : 7|16@0- (1,-40) [-40|215] " +:+ quoted "degC" +:+ " ECU";
  "BO_ 2147483848 Multiplexed: 8 ECU";
  " SG_ Mode M : 0|8@1+ (1,0) [0|255] " +:+ quoted "" +:+ " ECU";
  " SG_ VoltageA m0 : 8|16@1+ (0.5,0) [0|655] " +:+ quoted "V" +:+ " ECU";
  " SG_ CurrentB m1 : 8|16@1+ (0.1,0) [0|6553] " +:+ quoted "A" +:+ " ECU";
  "VAL_ 2147483848 Mode 0 " +:+ quoted "voltage" +:+ " 1 " +:+ quoted "current" +:+ " ;"].
Definition sample_database : Database := match parse sample_dbc with Ok d => d | Err _ => ∅ end.

Lemma decode_reads_fields_witness :
  parse sample_dbc = Ok sample_database /\ Forall is_u8 [0; 232; 3] /\ database_ok sample_database /\
  decode sample_database 200 true [0; 232; 3] =
    Some (mkFrame (t "Multiplexed")
      [mkDecoded (t "Mode") 0 (f64_of 0) [] (Some (t "voltage")); mkDecoded (t "VoltageA") 1000 (f64_of 500) (t "V") None]) /\
  (raw <$> from_option frame_signals [] (decode sample_database 100 false [128; 0])) = [-32768].
Proof.
  assert (Hp : parse sample_dbc = Ok sample_database) by (vm_compute; reflexivity).
  assert (Hu : Forall is_u8 [0; 232; 3]) by (repeat constructor; unfold is_u8, u8_MAX; lia).
  destruct (decode_reads_fields sample_dbc sample_database 200 true [0; 232; 3] Hp Hu) as (Hok & Hd & _).
  split; [exact Hp|]. split; [exact Hu|]. split; [exact Hok|]. split; [rewrite Hd|]; vm_compute; reflexivity.
Defined.

Example malformed_signal : parse (document ["BO_ 1 X: 8 E"; " SG_ Broken : notbits@1+ (1,0) E"]) =
  Err (Malformed "SG_" 2 "missing '|' in bit layout").
Proof. reflexivity. Qed.
Example zero_length : parse (document ["BO_ 1 X: 8 E"; " SG_ B : 0|0@1+ (1,0) [0|1] E"]) =
  Err (Malformed "SG_" 2 "signal length must be between 1 and 64 bits").
Proof. reflexivity. Qed.
Example orphan_signal : parse (document [" SG_ Lonely : 0|8@1+ (1,0)"]) = Err (OrphanSignal 1).
Proof. reflexivity. Qed.
Example unsigned_64 : option_map (map raw) (option_map frame_signals (match parse (document ["BO_ 1 X: 8 E"; " SG_ A : 0|64@1+ (1,0) [0|1] E"]) with Ok d => decode d 1 false (replicate 8 255) | Err _ => None end)) = Some [-1].
Proof. reflexivity. Qed.
