(* ===== verification/DbcText.v ===== *)
(** * Writing CAN databases

    The DBC text of a database, line by line as the format puts it, and that
    [Dbc.parse] reads it back.  The writer is a specification: the program only
    reads databases.  How a float is written is a parameter. *)
From S2P Require Import Prelude Provider Text Dbc.
From Stdlib Require Import SpecFloat Ascii.

(** ** The format *)
Definition ident_char (c : Z) : bool :=
  is_digit c || ((65 <=? c) && (c <=? 90)) || ((97 <=? c) && (c <=? 122)) || (c =? 95).
(** Characters of identifiers and numbers. *)
Definition plain (c : Z) : bool := ident_char c || (c =? 43) || (c =? 45) || (c =? 46).
Definition identifier (s : Text) : bool :=
  match s with c :: r => ident_char c && negb (is_digit c) && forallb ident_char r | [] => false end.
(** Text between quotes. *)
Definition quotable (s : Text) : bool := avoids (fun c => (c =? 34) || (c =? 10)) s.

Section printing.
Context (show : f64 -> Text).

Definition raw_id (m : Message) : Z := id m + if extended m then 2 ^ 31 else 0.
Definition print_message (m : Message) : Text :=
  t "BO_ " ++ show_unsigned (raw_id m) ++ t " " ++ message_name m ++ t ": " ++ show_unsigned (dlc m) ++ t " ECU".
Definition print_multiplex (x : Multiplex) : Text :=
  match x with Plain => [] | Multiplexor => t "M " | Multiplexed n => t "m" ++ show_unsigned n ++ t " " end.
Definition print_layout (s : Signal) : Text :=
  show_unsigned (start_bit s) ++ t "|" ++ show_unsigned (length s) ++ t "@"
  ++ t match byte_order s with Little => "1" | Big => "0" end ++ t match value_type s with Unsigned => "+" | Signed => "-" end.
Definition print_pair (open a sep b close : Text) : Text := open ++ a ++ sep ++ b ++ close.
Definition print_quoted (s : Text) : Text := t quote ++ s ++ t quote.
Definition print_signal (s : Signal) : Text :=
  t " SG_ " ++ name s ++ t " " ++ print_multiplex (multiplex s) ++ t ": " ++ print_layout s
  ++ t " (" ++ show (factor s) ++ t "," ++ show (offset s) ++ t ") [" ++ show (min s) ++ t "|" ++ show (max s) ++ t "] "
  ++ print_quoted (unit s) ++ t " ECU".
Definition print_pairs (l : list (Z * Text)) : Text :=
  concat ((fun '(v, label) => t " " ++ show_i64 v ++ t " " ++ print_quoted label) <$> l).
Definition print_table (m : Message) (s : Signal) : Text :=
  t "VAL_ " ++ show_unsigned (raw_id m) ++ t " " ++ name s ++ print_pairs (map_to_list (value_table s)) ++ t " ;".
Definition print_lines (ms : list Message) : list Text :=
  concat ((fun m => print_message m :: (print_signal <$> signals m)) <$> ms)
  ++ concat ((fun m => print_table m <$> signals m) <$> ms).
Definition print (ms : list Message) : Text := concat ((fun l => l ++ [10]) <$> print_lines ms).

Definition writable_float (x : f64) : Prop :=
  is_finite x = true /\ parse_f64 (show x) = Some x /\ forallb plain (show x) = true.
Definition writable_signal (s : Signal) : Prop :=
  signal_ok s /\ identifier (name s) = true /\ quotable (unit s) = true /\
  map_Forall (fun _ label => quotable label = true) (value_table s) /\
  writable_float (factor s) /\ writable_float (offset s) /\ writable_float (min s) /\ writable_float (max s).
Definition writable (m : Message) : Prop :=
  message_ok m /\ identifier (message_name m) = true /\ Forall writable_signal (signals m).

(** ** Characters of a line *)
Definition delimiter (c : Z) : bool :=
  is_whitespace c || (c =? 34) || (c =? 40) || (c =? 41) || (c =? 44) || (c =? 58) || (c =? 59) || (c =? 64)
  || (c =? 91) || (c =? 93) || (c =? 124).
Lemma plain_delimiter s : forallb plain s = true -> avoids delimiter s = true.
Proof.
  unfold avoids. rewrite !forallb_forall. intros H c Hc. specialize (H c Hc).
  unfold plain, ident_char, is_digit, delimiter, is_whitespace in *. lia.
Qed.
Lemma plain_avoids p s : (forall c, p c = true -> delimiter c = true) -> forallb plain s = true -> avoids p s = true.
Proof. intros Hp Hs. by eapply avoids_impl, plain_delimiter. Qed.
Lemma forallb_impl (p q : Z -> bool) s : (forall c, p c = true -> q c = true) -> forallb p s = true -> forallb q s = true.
Proof. intros H. rewrite !forallb_forall. auto. Qed.
Lemma show_unsigned_plain n : 0 <= n -> forallb plain (show_unsigned n) = true /\ show_unsigned n <> [].
Proof.
  intros Hn. destruct (digits_show n Hn) as (s & -> & Hne & Hd & _). split; [|done].
  eapply forallb_impl; [|done]. unfold plain, ident_char. lia.
Qed.
Lemma show_i64_plain n : forallb plain (show_i64 n) = true /\ show_i64 n <> [].
Proof.
  unfold show_i64. case_match; [|apply show_unsigned_plain; lia].
  destruct (show_unsigned_plain (- n)) as [Hp _]; [lia|].
  split; [|done]. change (plain 45 && forallb plain (show_unsigned (- n)) = true). by rewrite Hp.
Qed.
Lemma identifier_plain s : identifier s = true -> forallb plain s = true /\ s <> [].
Proof.
  destruct s as [|c s]; [done|]. cbn. intros [[Hc _]%andb_true_iff Hs]%andb_true_iff. split; [|done].
  apply andb_true_iff. split; [unfold plain; by rewrite Hc|]. eapply forallb_impl; [|done]. unfold plain. lia.
Qed.
Lemma plain_word s : forallb plain s = true /\ s <> [] -> word s.
Proof. intros [Hp Hn]. split; [done|]. apply plain_avoids; [|done]. unfold delimiter. intros c ->. done. Qed.
Lemma trim_plain s : forallb plain s = true -> trim s = s.
Proof. intros Hp. apply trim_wordless. apply plain_avoids; [unfold delimiter; intros c ->; done|done]. Qed.

Lemma delimiter_char c x : delimiter (chr c) = true -> is_char c x = true -> delimiter x = true.
Proof. intros H ->%Z.eqb_eq. done. Qed.
Lemma delimiter_space x : is_whitespace x = true -> delimiter x = true.
Proof. unfold delimiter. by intros ->. Qed.

(** Texts put together from plain words avoid every delimiter between them. *)
Ltac avoid :=
  repeat (rewrite avoids_app || rewrite avoids_cons); rewrite ?andb_true_iff;
  repeat match goal with |- _ /\ _ => split end; try reflexivity; try assumption;
  (apply plain_avoids;
    [ first [exact delimiter_space | by intros ? ->%Z.eqb_eq | intros ? ?; eapply delimiter_char; [|eassumption]; reflexivity]
    | first [assumption | match goal with H : forallb plain ?s = true /\ _ |- forallb plain ?s = true => apply H end] ]).

(** ** Reading a message line *)
Lemma raw_id_parts m :
  0 <= id m < 2 ^ 29 ->
  0 <= raw_id m <= u32_MAX /\ arbitration_id (raw_id m) = id m /\ has_extended_flag (raw_id m) = extended m.
Proof.
  intros Hi. unfold raw_id, u32_MAX, arbitration_id, has_extended_flag. split; [case_match; lia|]. split.
  - change 0x1FFFFFFF with (Z.ones 29). rewrite Z.land_ones by lia. case_match; [|by rewrite Z.add_0_r, Z.mod_small].
    change (2 ^ 31) with (4 * 2 ^ 29). by rewrite Z_mod_plus_full, Z.mod_small.
  - change 0x80000000 with (2 ^ 31). rewrite land_flag by lia. by destruct (extended m).
Qed.
Lemma parse_message_printed m n :
  message_ok m -> identifier (message_name m) = true ->
  parse_message (print_message m) n = Ok (mkMessage (id m) (extended m) (message_name m) (dlc m) []).
Proof.
  intros (Hi & Hdl & _) Hname. destruct (raw_id_parts m Hi) as (Hr & Ha & He).
  pose proof (show_unsigned_plain (raw_id m) ltac:(lia)) as Hraw.
  pose proof (show_unsigned_plain (dlc m) ltac:(lia)) as Hdlc. apply identifier_plain in Hname.
  unfold parse_message, print_message.
  replace (t "BO_ " ++ show_unsigned (raw_id m) ++ t " " ++ message_name m ++ t ": " ++ show_unsigned (dlc m) ++ t " ECU")
    with ((t "BO_" ++ 32 :: show_unsigned (raw_id m) ++ 32 :: message_name m) ++ chr ":" :: 32 :: show_unsigned (dlc m) ++ 32 :: t "ECU")
    by (cbn; by rewrite <- !app_assoc).
  rewrite split_once_at; [|avoid|done]. cbn [ok_or mbind Result_bind].
  rewrite split_whitespace_word, split_whitespace_word, split_whitespace_last; try done; try by apply plain_word.
  rewrite parse_show_unsigned by done. cbn [ok_or mbind Result_bind]. rewrite bool_decide_false by apply Hname.
  rewrite split_whitespace_space, split_whitespace_word; [|by apply plain_word|done..]. cbn [hd_error ok_or mbind Result_bind].
  rewrite parse_show_unsigned by (unfold u8_MAX; lia). cbn [ok_or mbind Result_bind].
  replace (64 <? dlc m) with false by lia. by rewrite Ha, He.
Qed.

(** ** Reading a signal line *)
Lemma parse_layout_printed e s :
  signal_ok s -> parse_layout e (print_layout s) = Ok (start_bit s, length s, byte_order s, value_type s).
Proof.
  intros (Hs & Hl & _). pose proof (show_unsigned_plain (start_bit s) ltac:(lia)) as Hps.
  pose proof (show_unsigned_plain (length s) ltac:(lia)) as Hpl.
  unfold parse_layout, print_layout.
  change (t "|" ++ show_unsigned (length s) ++ ?r) with (chr "|" :: show_unsigned (length s) ++ r).
  rewrite split_once_at; [|avoid|done]. cbn [ok_or mbind Result_bind].
  change (t "@" ++ ?r) with (chr "@" :: r).
  rewrite split_once_at; [|avoid|done]. cbn [ok_or mbind Result_bind].
  rewrite !parse_show_unsigned by lia. cbn [ok_or mbind Result_bind].
  replace ((1 <=? length s) && (length s <=? 64)) with true by lia. cbn [negb].
  by destruct (byte_order s), (value_type s).
Qed.
Lemma parse_multiplex_printed e x :
  selector_ok x ->
  parse_multiplex e (split_whitespace (print_multiplex x) !! 0%nat) = Ok x.
Proof.
  intros Hx. destruct x as [| |n]; [done|done|]. cbn [print_multiplex].
  pose proof (show_unsigned_plain n ltac:(cbn in Hx; unfold is_u64 in Hx; lia)) as Hp.
  change (t "m" ++ show_unsigned n ++ t " ") with ((chr "m" :: show_unsigned n) ++ 32 :: []).
  rewrite split_whitespace_word; [|split; [done|avoid]|done]. cbn [lookup list_lookup parse_multiplex].
  rewrite bool_decide_false by done.
  change (is_char "m" (chr "m")) with true. cbn [ok_or fmap].
  rewrite parse_show_unsigned by done. done.
Qed.
Lemma between_at open close a b c :
  avoids (is_char open) a = true -> avoids (is_char close) b = true ->
  between open close (a ++ chr open :: b ++ chr close :: c) = Some b.
Proof.
  intros Ha Hb. unfold between. rewrite split_once_at; [|done|unfold is_char; lia]. cbn.
  rewrite split_once_at; [done|done|unfold is_char; lia].
Qed.
Lemma parse_pair_at open close sep a x y c :
  delimiter (chr open) = true -> delimiter (chr close) = true -> delimiter (chr sep) = true ->
  chr close <> chr sep -> avoids (is_char open) a = true -> writable_float x -> writable_float y ->
  parse_pair open close sep (a ++ chr open :: (show x ++ chr sep :: show y) ++ chr close :: c) = Some (x, y).
Proof.
  intros Ho Hc Hs Hne Ha (_ & Hx & Hpx) (_ & Hy & Hpy). unfold parse_pair. rewrite between_at; [|done|].
  2:{ rewrite avoids_app, avoids_cons, !andb_true_iff. split_and!.
      - apply plain_avoids; [|done]. intros z. by apply delimiter_char.
      - unfold is_char. lia.
      - apply plain_avoids; [|done]. intros z. by apply delimiter_char. }
  cbn [mbind option_bind]. rewrite split_once_at; [|apply plain_avoids; [intros z; by apply delimiter_char|done]|unfold is_char; lia].
  cbn [mbind option_bind]. by rewrite !trim_plain, Hx, Hy.
Qed.
Lemma print_layout_word s : signal_ok s -> word (print_layout s) /\ (forall c, delimiter (chr c) = true ->
    chr c <> chr "|" -> chr c <> chr "@" -> avoids (is_char c) (print_layout s) = true).
Proof.
  intros (Hs & Hl & _). pose proof (show_unsigned_plain (start_bit s) ltac:(lia)) as Hps.
  pose proof (show_unsigned_plain (length s) ltac:(lia)) as Hpl. unfold print_layout. split.
  - split; [destruct Hps as [_ Hps]; by destruct (show_unsigned (start_bit s))|].
    destruct (byte_order s), (value_type s); avoid.
  - intros c Hc Hbar Hat. repeat rewrite avoids_app. rewrite !andb_true_iff. split_and!.
    1,3: apply plain_avoids; [intros z; by apply delimiter_char|apply Hps || apply Hpl].
    1: change (t "|") with [chr "|"]. 2: change (t "@") with [chr "@"].
    1,2: rewrite avoids_cons, andb_true_r; apply negb_true_iff, Z.eqb_neq; congruence.
    all: apply plain_avoids; [intros z; by apply delimiter_char|by destruct (byte_order s), (value_type s)].
Qed.
Lemma trim_words w r b : word w -> is_whitespace b = false -> trim (w ++ r ++ [b]) = w ++ r ++ [b].
Proof.
  intros [Hn Hw] Hb. destruct w as [|a w]; [done|]. cbn in Hw. apply andb_true_iff in Hw as [Ha%negb_true_iff _].
  cbn [app]. rewrite app_assoc. by apply trim_line.
Qed.

Lemma multiplex_avoids x : selector_ok x -> avoids (is_char ":") (print_multiplex x) = true.
Proof.
  destruct x as [| |n]; [done..|]. cbn [selector_ok print_multiplex]. unfold is_u64. intros Hn.
  pose proof (show_unsigned_plain n ltac:(lia)) as Hp. avoid.
Qed.
Lemma parse_signal_printed s n :
  writable_signal s -> parse_signal (trim (print_signal s)) n = Ok (with_table ∅ s).
Proof.
  intros (Hok & Hname & Hunit & _ & Hf & Ho & Hmin & Hmax).
  pose proof (print_layout_word s Hok) as [Hlay Hdel]. apply identifier_plain in Hname.
  pose proof Hok as (_ & _ & _ & _ & _ & _ & Hsel & _).
  pose proof (fun e => parse_layout_printed e s Hok) as Hread.
  set (lay := print_layout s) in *.
  set (rest := t "(" ++ show (factor s) ++ t "," ++ show (offset s) ++ t ") [" ++ show (min s) ++ t "|" ++ show (max s)
                 ++ t "] " ++ print_quoted (unit s) ++ t " EC").
  set (head := t " " ++ name s ++ t " " ++ print_multiplex (multiplex s)).
  assert (Hline : trim (print_signal s) = (t "SG_" ++ head) ++ chr ":" :: 32 :: (lay ++ t " " ++ rest ++ [chr "U"])).
  { transitivity (trim (t "SG_" ++ (head ++ t ": " ++ lay ++ t " " ++ rest) ++ [chr "U"])).
    - unfold print_signal. subst head rest. rewrite <- !app_assoc. reflexivity.
    - rewrite trim_words; [|split; [done|reflexivity]|done]. rewrite <- !app_assoc. reflexivity. }
  change (t "SG_" ++ head) with (t "SG_" ++ 32 :: name s ++ 32 :: print_multiplex (multiplex s)) in Hline.
  unfold parse_signal. rewrite Hline, split_once_at; [|pose proof (multiplex_avoids _ Hsel); avoid|done]. cbn [ok_or mbind Result_bind].
  rewrite (split_whitespace_word (t "SG_")) by (done || by split).
  rewrite split_whitespace_word by (done || by apply plain_word).
  cbn [lookup list_lookup ok_or mbind Result_bind]. rewrite parse_multiplex_printed by done. cbn [mbind Result_bind].
  assert (Htrim : trim (32 :: lay ++ t " " ++ rest ++ [chr "U"]) = lay ++ 32 :: (rest ++ [chr "U"])).
  { change (32 :: lay ++ t " " ++ rest ++ [chr "U"]) with (32 :: lay ++ (t " " ++ rest) ++ [chr "U"]).
    change (trim (32 :: ?x)) with (trim x). by apply trim_words. }
  rewrite Htrim. clear Htrim.
  rewrite (split_whitespace_word lay) by done. cbn [hd_error ok_or mbind Result_bind].
  rewrite Hread. cbn [mbind Result_bind].
  set (body := lay ++ 32 :: rest ++ [chr "U"]).
  pose proof Hf as (Hff & _ & Hpf). pose proof Ho as (Hfo & _ & Hpo).
  pose proof Hmin as (Hfn & _ & Hpn). pose proof Hmax as (Hfx & _ & Hpx).
  assert (Hscale : parse_factor_offset body = Some (factor s, offset s)).
  { replace body with ((lay ++ [32]) ++ chr "(" :: (show (factor s) ++ chr "," :: show (offset s)) ++ chr ")" ::
        (t " [" ++ show (min s) ++ t "|" ++ show (max s) ++ t "] " ++ print_quoted (unit s) ++ t " ECU")).
    - apply parse_pair_at; try done. rewrite avoids_app, Hdel; done.
    - subst body rest. unfold print_quoted. rewrite <- ?app_assoc. cbn [app]. rewrite <- ?app_assoc. reflexivity. }
  assert (Hrange : parse_min_max body = Some (min s, max s)).
  { replace body with ((lay ++ t " (" ++ show (factor s) ++ t "," ++ show (offset s) ++ t ") ")
        ++ chr "[" :: (show (min s) ++ chr "|" :: show (max s)) ++ chr "]" :: (t " " ++ print_quoted (unit s) ++ t " ECU")).
    - apply parse_pair_at; try done. repeat rewrite avoids_app. rewrite Hdel by done. avoid.
    - subst body rest. unfold print_quoted. rewrite <- ?app_assoc. cbn [app]. rewrite <- ?app_assoc. reflexivity. }
  assert (Hquoted : parse_quoted body = Some (unit s)).
  { replace body with ((lay ++ t " (" ++ show (factor s) ++ t "," ++ show (offset s) ++ t ") ["
        ++ show (min s) ++ t "|" ++ show (max s) ++ t "] ") ++ chr QUOTE :: unit s ++ chr QUOTE :: t " ECU").
    - apply between_at; [repeat rewrite avoids_app; rewrite Hdel by done; avoid|].
      eapply avoids_impl; [|exact Hunit]. intros c ->%Z.eqb_eq. done.
    - subst body rest. unfold print_quoted. rewrite <- ?app_assoc. cbn [app]. rewrite <- ?app_assoc. reflexivity. }
  rewrite Hscale, Hrange, Hquoted. cbn [ok_or mbind Result_bind default]. rewrite Hff, Hfo, Hfn, Hfx. reflexivity.
Qed.

(** ** Reading a value table *)
Lemma value_pairs_step fuel e (a : Text) v label (rest : Text) tb :
  a = [] \/ a = [32] -> is_i64 v -> quotable label = true ->
  value_pairs (S fuel) e (a ++ show_i64 v ++ t " " ++ print_quoted label ++ rest) tb
  = value_pairs fuel e rest (<[v := label]> tb).
Proof.
  intros Ha Hv Hl. pose proof (show_i64_plain v) as Hp.
  replace (a ++ show_i64 v ++ t " " ++ print_quoted label ++ rest)
    with ((a ++ show_i64 v ++ t " ") ++ chr QUOTE :: (label ++ chr QUOTE :: rest)).
  2:{ unfold print_quoted. rewrite <- ?app_assoc. cbn [app]. rewrite <- ?app_assoc. reflexivity. }
  cbn [value_pairs]. rewrite split_once_at; [|destruct Ha as [-> | ->]; avoid|done].
  assert (Ht : trim (a ++ show_i64 v ++ t " ") = show_i64 v).
  { transitivity (trim (show_i64 v ++ [32])); [by destruct Ha as [-> | ->]|]. unfold trim.
    destruct (show_i64 v) as [|c l] eqn:E; [by destruct Hp|].
    assert (Hw : avoids is_whitespace (c :: l) = true) by apply (plain_word _ Hp).
    assert (Hc : is_whitespace c = false) by (rewrite avoids_cons in Hw; by apply andb_true_iff in Hw as [?%negb_true_iff _]).
    cbn [app]. rewrite trim_start_word by done. rewrite (trim_end_one _ 32 (c :: l)) by done.
    rewrite <- (trim_plain (c :: l)) at 2 by apply Hp. unfold trim. by rewrite trim_start_word. }
  rewrite Ht, split_whitespace_last by (by apply plain_word). cbn [list.last ok_or mbind Result_bind].
  rewrite parse_show_i64 by done. cbn [ok_or mbind Result_bind].
  rewrite split_once_at; [done| |done]. eapply avoids_impl; [|exact Hl]. intros c ->%Z.eqb_eq. done.
Qed.
Lemma value_pairs_printed e l : forall fuel tb,
  (List.length l <= fuel)%nat -> Forall (fun p => is_i64 (fst p) /\ quotable (snd p) = true) l ->
  value_pairs fuel e (print_pairs l) tb = Ok (fold_left (fun d p => <[fst p := snd p]> d) l tb).
Proof.
  induction l as [|[v label] l IH]; intros fuel tb Hf Hl; [by destruct fuel|].
  inversion Hl as [|? ? [Hv Hlab] Hl']; subst. cbn [fst snd] in *. destruct fuel as [|fuel]; [cbn in Hf; lia|].
  change (print_pairs ((v, label) :: l)) with ((t " " ++ show_i64 v ++ t " " ++ print_quoted label) ++ print_pairs l).
  rewrite <- !app_assoc. rewrite (value_pairs_step _ _ (t " ")) by (done || by right).
  cbn [fold_left]. apply IH; [cbn in Hf; lia|done].
Qed.

Lemma print_pairs_end v label l : exists r : Text, print_pairs ((v, label) :: l) = r ++ t quote.
Proof.
  revert v label. induction l as [|[w k] l IH]; intros v label.
  - exists (t " " ++ show_i64 v ++ t " " ++ t quote ++ label). unfold print_pairs. cbn [fmap list_fmap concat].
    unfold print_quoted. by rewrite app_nil_r, <- ?app_assoc.
  - destruct (IH w k) as [r Hr]. exists ((t " " ++ show_i64 v ++ t " " ++ print_quoted label) ++ r).
    rewrite <- app_assoc, <- Hr. done.
Qed.
(** What is left of the pairs once the cursor is trimmed. *)
Lemma trim_pairs l : trim (print_pairs l ++ [32]) = drop 1 (print_pairs l).
Proof.
  destruct l as [|[v label] l]; [done|]. destruct (print_pairs_end v label l) as [r Hr].
  assert (Hs : exists r', print_pairs ((v, label) :: l) = 32 :: show_i64 v ++ r') by (eexists; unfold print_pairs;
    cbn [fmap list_fmap concat]; rewrite <- !app_assoc; reflexivity).
  destruct Hs as [r' Hr']. destruct r as [|x r]; [by rewrite Hr' in Hr|]. rewrite Hr' in Hr.
  change ((x :: r) ++ t quote) with (x :: (r ++ [34])) in Hr. injection Hr as _ Hr. rewrite Hr'. cbn [drop].
  destruct (show_i64 v) as [|c k] eqn:E; [by destruct (show_i64_plain v) as [_ ?]|].
  assert (Hc : is_whitespace c = false).
  { pose proof (plain_word _ (show_i64_plain v)) as [_ Hw]. rewrite E, avoids_cons in Hw.
    by apply andb_true_iff in Hw as [?%negb_true_iff _]. }
  unfold trim. change (trim_start_by is_whitespace ((32 :: (c :: k) ++ r') ++ [32]))
    with (trim_start_by is_whitespace (c :: (k ++ r') ++ [32])).
  rewrite trim_start_word by done. change (c :: (k ++ r') ++ [32]) with (((c :: k) ++ r') ++ [32]).
  rewrite trim_end_one by done. rewrite Hr. by apply trim_end_word.
Qed.

Lemma identifier_avoids_digits s n :
  identifier s = true -> 0 <= n -> exists c r, s = c :: r /\ avoids (fun x => x =? c) (show_unsigned n ++ [32]) = true.
Proof.
  destruct s as [|c r]; [done|]. unfold identifier. intros [[Hc Hd]%andb_true_iff _]%andb_true_iff Hn. exists c, r. split; [done|].
  destruct (digits_show n Hn) as (s & -> & _ & Hs & _). rewrite avoids_app, avoids_cons, !andb_true_iff. split_and!;
    [|unfold ident_char, is_digit in Hc; lia|done].
  unfold avoids. rewrite forallb_forall in *. intros x Hx. specialize (Hs x Hx). apply negb_true_iff. apply negb_true_iff in Hd.
  destruct (x =? c) eqn:E; [|done]. apply Z.eqb_eq in E as ->. congruence.
Qed.
Lemma print_pairs_length l : (List.length l <= List.length (drop 1 (print_pairs l)))%nat.
Proof.
  assert (H : forall l, (2 * List.length l <= List.length (print_pairs l))%nat).
  { clear. intros l. induction l as [|[v k] l' IH]; [cbn; lia|].
    change (print_pairs ((v, k) :: l')) with ((t " " ++ show_i64 v ++ t " " ++ print_quoted k) ++ print_pairs l').
    rewrite !length_app. cbn [List.length]. change (List.length (t " ")) with 1%nat. lia. }
  specialize (H l). rewrite length_drop. lia.
Qed.
Lemma value_pairs_trimmed e l fuel tb :
  (List.length l <= fuel)%nat -> Forall (fun p => is_i64 (fst p) /\ quotable (snd p) = true) l ->
  value_pairs fuel e (drop 1 (print_pairs l)) tb = Ok (fold_left (fun d p => <[fst p := snd p]> d) l tb).
Proof.
  intros Hf Hl. destruct l as [|[v k] l]; [by destruct fuel|]. destruct fuel as [|fuel]; [cbn in Hf; lia|].
  inversion Hl as [|? ? [Hv Hk] Hl']; subst. cbn [fst snd] in *.
  change (drop 1 (print_pairs ((v, k) :: l))) with ([] ++ (show_i64 v ++ t " " ++ print_quoted k) ++ print_pairs l).
  rewrite <- !app_assoc, value_pairs_step by (done || by left). cbn [fold_left].
  apply value_pairs_printed; [cbn in Hf; lia|done].
Qed.
Lemma parse_value_table_printed m s n :
  message_ok m -> writable_signal s ->
  parse_value_table (print_table m s) n = Ok (mkDef (id m) (extended m) (name s) (value_table s)).
Proof.
  intros (Hi & _) (Hok & Hname & _ & Hlabels & _). destruct (raw_id_parts m Hi) as (Hr & Ha & He).
  pose proof (plain_word _ (show_unsigned_plain (raw_id m) ltac:(lia))) as Hraw.
  pose proof (plain_word _ (identifier_plain _ Hname)) as Hword.
  destruct (identifier_avoids_digits _ (raw_id m) Hname ltac:(lia)) as (c & r & Hn & Hav).
  set (pairs := map_to_list (value_table s)).
  assert (Hbody : trim_end_by (is_char ";") (trim (trim_start_matches (List.length (print_table m s)) (t "VAL_") (print_table m s)))
     = (show_unsigned (raw_id m) ++ [32]) ++ name s ++ (print_pairs pairs ++ [32])).
  { change (trim_start_matches (List.length (print_table m s)) (t "VAL_") (print_table m s))
      with (32 :: show_unsigned (raw_id m) ++ t " " ++ name s ++ print_pairs pairs ++ t " ;").
    change (trim (32 :: ?x)) with (trim x).
    replace (show_unsigned (raw_id m) ++ t " " ++ name s ++ print_pairs pairs ++ t " ;")
      with (show_unsigned (raw_id m) ++ (t " " ++ name s ++ print_pairs pairs ++ t " ") ++ [chr ";"])
      by (rewrite <- !app_assoc; reflexivity).
    rewrite trim_words by done. rewrite app_assoc, trim_end_one by done.
    replace (show_unsigned (raw_id m) ++ t " " ++ name s ++ print_pairs pairs ++ t " ")
      with ((show_unsigned (raw_id m) ++ t " " ++ name s ++ print_pairs pairs) ++ [32])
      by (rewrite <- !app_assoc; reflexivity).
    rewrite trim_end_word by done. by rewrite <- !app_assoc. }
  unfold parse_value_table. rewrite Hbody. clear Hbody.
  assert (Hwords : exists ws, split_whitespace ((show_unsigned (raw_id m) ++ [32]) ++ name s ++ print_pairs pairs ++ [32])
     = show_unsigned (raw_id m) :: name s :: ws).
  { rewrite <- app_assoc. change ([32] ++ ?x) with (32 :: x). rewrite split_whitespace_word by done.
    destruct pairs as [|[v k] l].
    { change (print_pairs [] ++ [32]) with (32 :: []). rewrite split_whitespace_word by done. by eexists. }
    change (print_pairs ((v, k) :: l) ++ [32]) with (32 :: ((show_i64 v ++ t " " ++ print_quoted k) ++ print_pairs l) ++ [32]).
    rewrite split_whitespace_word by done. by eexists. }
  destruct Hwords as [ws ->]. cbv beta iota zeta. rewrite parse_show_unsigned by done. cbn [ok_or mbind Result_bind].
  rewrite Hn, split_once_str_at by done. cbn [from_option snd]. rewrite trim_pairs.
  assert (Hp : Forall (fun p => is_i64 (fst p) /\ quotable (snd p) = true) pairs).
  { apply list.Forall_forall. intros [v k] Hin. apply elem_of_map_to_list in Hin. split; cbn.
    - destruct Hok as (_ & _ & _ & _ & _ & _ & _ & Ht). exact (Ht _ _ Hin).
    - exact (Hlabels _ _ Hin). }
  rewrite value_pairs_trimmed by (done || apply print_pairs_length).
  rewrite fold_insert by apply NoDup_fst_map_to_list. unfold pairs. rewrite list_to_map_to_list, (right_id_L _ _).
  cbn [mbind Result_bind]. by rewrite Ha, He.
Qed.

(** ** Reading a whole document *)
Lemma parse_lines_app a : forall b r n,
  parse_lines r n (a ++ b) = r' ← parse_lines r n a; parse_lines r' (n + List.length a) b.
Proof.
  induction a as [|l a IH]; intros b r n; [by rewrite Nat.add_0_r|]. cbn [app parse_lines List.length].
  destruct (parse_line r n l) as [r'|]; [|done]. cbn [mbind Result_bind]. rewrite IH. by rewrite Nat.add_succ_comm.
Qed.
(** The message before its value tables are read. *)
Definition blank (m : Message) : Message :=
  mkMessage (id m) (extended m) (message_name m) (dlc m) (with_table ∅ <$> signals m).
Lemma print_message_ends m : writable m -> trim (print_message m) = print_message m /\ line_ok (print_message m).
Proof.
  intros ((Hi & Hd & _) & Hname & _). destruct (raw_id_parts m Hi) as (Hr & _).
  pose proof (show_unsigned_plain (raw_id m) ltac:(lia)) as Hraw.
  pose proof (show_unsigned_plain (dlc m) ltac:(lia)) as Hdlc. apply identifier_plain in Hname.
  assert (He : print_message m = t "BO_" ++ (t " " ++ show_unsigned (raw_id m) ++ t " " ++ message_name m ++ t ": "
     ++ show_unsigned (dlc m) ++ t " EC") ++ [chr "U"]) by (unfold print_message; rewrite <- !app_assoc; reflexivity).
  split; [rewrite He; by apply trim_words|]. split; [|rewrite He, app_assoc; eexists _, _; split; [done|done]].
  unfold print_message. avoid.
Qed.
Lemma print_signal_ends s : writable_signal s -> line_ok (print_signal s).
Proof.
  intros (Hok & Hname & Hunit & _ & (_ & _ & Hf) & (_ & _ & Ho) & (_ & _ & Hmin) & (_ & _ & Hmax)).
  pose proof (print_layout_word s Hok) as [[_ Hlay] _]. apply identifier_plain in Hname.
  assert (Hlf : avoids (fun c => c =? 10) (print_layout s) = true).
  { eapply avoids_impl; [|exact Hlay]. by intros c ->%Z.eqb_eq. }
  assert (Hu : avoids (fun c => c =? 10) (unit s) = true).
  { eapply avoids_impl; [|exact Hunit]. intros c ->%Z.eqb_eq. done. }
  assert (Hm : avoids (fun c => c =? 10) (print_multiplex (multiplex s)) = true).
  { destruct Hok as (_ & _ & _ & _ & _ & _ & Hsel & _). destruct (multiplex s) as [| |n]; [done..|]. cbn [print_multiplex].
    pose proof (show_unsigned_plain n) as Hp. cbn [selector_ok] in Hsel. unfold is_u64 in Hsel. specialize (Hp ltac:(lia)). avoid. }
  split; [unfold print_signal, print_quoted; avoid|].
  unfold print_signal. change (t " ECU") with (t " EC" ++ [chr "U"]). rewrite !app_assoc. eexists _, _. split; [done|done].
Qed.
Lemma print_table_ends m s : message_ok m -> writable_signal s -> trim (print_table m s) = print_table m s /\ line_ok (print_table m s).
Proof.
  intros (Hi & _) (Hok & Hname & _ & Hlab & _). destruct (raw_id_parts m Hi) as (Hr & _).
  pose proof (show_unsigned_plain (raw_id m) ltac:(lia)) as Hraw. apply identifier_plain in Hname.
  assert (Hp : avoids (fun c => c =? 10) (print_pairs (map_to_list (value_table s))) = true).
  { assert (Hl : Forall (fun p : Z * Text => quotable (snd p) = true) (map_to_list (value_table s))).
    { apply list.Forall_forall. intros [v k] Hin. apply elem_of_map_to_list in Hin. exact (Hlab _ _ Hin). }
    induction Hl as [|[v k] l Hk _ IH]; [done|].
    change (print_pairs ((v, k) :: l)) with ((t " " ++ show_i64 v ++ t " " ++ print_quoted k) ++ print_pairs l).
    pose proof (show_i64_plain v) as Hv.
    assert (Hk' : avoids (fun c => c =? 10) k = true) by (eapply avoids_impl; [|exact Hk]; intros c ->%Z.eqb_eq; done).
    unfold print_quoted. avoid. }
  assert (He : print_table m s = t "VAL_" ++ (t " " ++ show_unsigned (raw_id m) ++ t " " ++ name s
     ++ print_pairs (map_to_list (value_table s)) ++ t " ") ++ [chr ";"])
    by (unfold print_table; rewrite <- !app_assoc; reflexivity).
  split; [rewrite He; by apply trim_words|]. split; [|rewrite He, app_assoc; eexists _, _; split; [done|done]].
  unfold print_table. avoid.
Qed.

Lemma parse_line_message r n m :
  writable m -> (id m, extended m) ∉ ((fun k => (id k, extended k)) <$> messages r) ->
  parse_line r n (print_message m) = Ok (mkReading (messages r ++ [mkMessage (id m) (extended m) (message_name m) (dlc m) []]) (value_tables r)).
Proof.
  intros Hm Hnew. destruct (print_message_ends m Hm) as [Ht _]. unfold parse_line. rewrite Ht.
  unfold print_message at 1. change (t "BO_ " ++ ?x) with (t "BO_" ++ 32 :: x).
  rewrite split_whitespace_word by (done || by split). cbn [hd_error]. rewrite bool_decide_true by done.
  destruct Hm as (Hok & Hname & _). rewrite parse_message_printed by done. cbn [mbind Result_bind].
  destruct (existsb _ _) eqn:E; [|done]. exfalso. apply Hnew. apply existsb_exists in E as (k & Hk & Hs).
  apply list_elem_of_fmap. exists k. split; [|by apply list_elem_of_In]. unfold same_id in Hs. cbn in Hs.
  apply andb_true_iff in Hs as [->%Z.eqb_eq ->%Bool.eqb_prop]. done.
Qed.
Lemma trim_signal s : exists r, trim (print_signal s) = t "SG_" ++ 32 :: r.
Proof.
  set (mid := name s ++ t " " ++ print_multiplex (multiplex s) ++ t ": " ++ print_layout s
    ++ t " (" ++ show (factor s) ++ t "," ++ show (offset s) ++ t ") [" ++ show (min s) ++ t "|" ++ show (max s) ++ t "] "
    ++ print_quoted (unit s) ++ t " EC").
  exists (mid ++ [chr "U"]). transitivity (trim (t "SG_" ++ (t " " ++ mid) ++ [chr "U"])).
  - unfold print_signal. subst mid. rewrite <- !app_assoc. reflexivity.
  - rewrite trim_words; [|split; [done|reflexivity]|done]. rewrite <- !app_assoc. reflexivity.
Qed.
Lemma parse_line_signal ms m tb n s :
  writable_signal s -> name s ∉ name <$> signals m ->
  parse_line (mkReading (ms ++ [m]) tb) n (print_signal s) = Ok (mkReading (ms ++ [push_signal m (with_table ∅ s)]) tb).
Proof.
  intros Hs Hnew. pose proof (parse_signal_printed s (Z.of_nat n + 1) Hs) as Hp. unfold parse_line.
  replace (hd_error (split_whitespace (trim (print_signal s)))) with (Some (t "SG_")).
  2:{ destruct (trim_signal s) as [r ->]. by rewrite split_whitespace_word by (done || by split). }
  rewrite bool_decide_false, bool_decide_true by done. cbn [messages value_tables].
  rewrite last_snoc. cbn [ok_or mbind Result_bind]. rewrite Hp. cbn [mbind Result_bind].
  destruct (existsb _ _) eqn:E.
  - exfalso. apply Hnew. apply existsb_exists in E as (k & Hk & Hb). apply bool_decide_eq_true in Hb. cbn in Hb.
    apply list_elem_of_fmap. exists k. split; [done|by apply list_elem_of_In].
  - by rewrite removelast_last.
Qed.
Lemma parse_line_table r n m s :
  message_ok m -> writable_signal s ->
  parse_line r n (print_table m s) = Ok (mkReading (messages r) (value_tables r ++ [mkDef (id m) (extended m) (name s) (value_table s)])).
Proof.
  intros Hm Hs. destruct (print_table_ends m s Hm Hs) as [Ht _]. unfold parse_line. rewrite Ht.
  rewrite parse_value_table_printed by done. unfold print_table. change (t "VAL_ " ++ ?x) with (t "VAL_" ++ 32 :: x).
  rewrite split_whitespace_word by (done || by split). cbn [hd_error].
  rewrite !bool_decide_false, bool_decide_true by done. done.
Qed.

Lemma parse_signals ms m tb : forall todo n,
  Forall writable_signal todo -> NoDup ((name <$> signals m) ++ (name <$> todo)) ->
  parse_lines (mkReading (ms ++ [m]) tb) n (print_signal <$> todo) =
    Ok (mkReading (ms ++ [mkMessage (id m) (extended m) (message_name m) (dlc m) (signals m ++ (with_table ∅ <$> todo))]) tb).
Proof.
  intros todo. revert m. induction todo as [|s todo IH]; intros m n Hw Hn.
  - cbn. rewrite app_nil_r. by destruct m.
  - inversion Hw; subst. rewrite !fmap_cons in *. cbn [parse_lines].
    rewrite parse_line_signal; [|done|].
    2:{ apply list.NoDup_app in Hn as (_ & Hd & _). intros Hin. apply (Hd _ Hin). left. }
    cbn [mbind Result_bind]. rewrite IH; [|done|].
    + cbn [push_signal id extended message_name dlc signals]. by rewrite <- app_assoc.
    + cbn [push_signal signals]. rewrite fmap_app. cbn [fmap list_fmap with_table name]. by rewrite <- app_assoc.
Qed.
Definition keys (ms : list Message) : list (Z * bool) := (fun m => (id m, extended m)) <$> ms.
Lemma parse_messages ms tb : forall todo n,
  Forall writable todo -> NoDup (keys (ms ++ todo)) ->
  parse_lines (mkReading ms tb) n (concat ((fun m => print_message m :: (print_signal <$> signals m)) <$> todo)) =
    Ok (mkReading (ms ++ (blank <$> todo)) tb).
Proof.
  intros todo. revert ms. induction todo as [|m todo IH]; intros ms n Hw Hn.
  - cbn. by rewrite app_nil_r.
  - inversion Hw as [|? ? Hm Hw']; subst. rewrite !fmap_cons. cbn [concat app parse_lines].
    rewrite parse_line_message; [|done|].
    2:{ unfold keys in Hn. rewrite fmap_app in Hn. apply list.NoDup_app in Hn as (_ & Hd & _).
        intros Hin. apply (Hd _ Hin). left. }
    cbn [mbind Result_bind messages value_tables]. rewrite parse_lines_app.
    pose proof Hm as ((_ & _ & Hnames & _) & _ & Hs).
    rewrite parse_signals by done. cbn [mbind Result_bind id extended message_name dlc signals app].
    fold (blank m). rewrite IH; [|done|]; [by rewrite <- app_assoc|].
    unfold keys in *. rewrite !fmap_app in *. by rewrite <- app_assoc.
Qed.
Definition defs_of (m : Message) : list ValueTableDef :=
  (fun s => mkDef (id m) (extended m) (name s) (value_table s)) <$> signals m.
Lemma parse_tables ms : forall todo tb n,
  Forall writable todo ->
  parse_lines (mkReading ms tb) n (concat ((fun m => print_table m <$> signals m) <$> todo)) =
    Ok (mkReading ms (tb ++ concat (defs_of <$> todo))).
Proof.
  induction todo as [|m todo IH]; intros tb n Hw; [cbn; by rewrite app_nil_r|].
  inversion Hw as [|? ? Hm Hw']; subst. rewrite !fmap_cons. cbn [concat]. rewrite parse_lines_app.
  assert (Hone : forall l tb n, Forall writable_signal l ->
    parse_lines (mkReading ms tb) n (print_table m <$> l) =
      Ok (mkReading ms (tb ++ ((fun s => mkDef (id m) (extended m) (name s) (value_table s)) <$> l)))).
  { induction l as [|s l IHl]; intros tb' n' Hl; [cbn; by rewrite app_nil_r|]. inversion Hl; subst.
    rewrite !fmap_cons. cbn [parse_lines]. rewrite parse_line_table by (done || apply Hm). cbn [mbind Result_bind messages value_tables].
    rewrite IHl by done. by rewrite <- app_assoc. }
  rewrite Hone by apply Hm. cbn [mbind Result_bind]. rewrite IH by done. by rewrite <- app_assoc.
Qed.

(** ** The value tables find their signals *)
Lemma with_own_table s : with_table (value_table s) (with_table ∅ s) = s.
Proof. by destruct s. Qed.
Lemma set_first_table_at s l1 l2 :
  name s ∉ name <$> l1 ->
  set_first_table (name s) (value_table s) (l1 ++ with_table ∅ s :: l2) = l1 ++ s :: l2.
Proof.
  induction l1 as [|x l1 IH]; intros Hn; cbn [app set_first_table].
  - rewrite bool_decide_true by done. by rewrite with_own_table.
  - rewrite fmap_cons in Hn. apply not_elem_of_cons in Hn as [Hx Hn]. rewrite bool_decide_false by congruence. by rewrite IH.
Qed.
Lemma apply_tables_one m : forall todo l d,
  d !! (id m, extended m) = Some (mkMessage (id m) (extended m) (message_name m) (dlc m) (l ++ (with_table ∅ <$> todo))) ->
  NoDup (name <$> (l ++ todo)) ->
  fold_left apply_table ((fun s => mkDef (id m) (extended m) (name s) (value_table s)) <$> todo) d =
    <[(id m, extended m) := mkMessage (id m) (extended m) (message_name m) (dlc m) (l ++ todo)]> d.
Proof.
  induction todo as [|s todo IH]; intros l d Hd Hn.
  - cbn [fmap list_fmap fold_left] in *. symmetry. by apply insert_id.
  - rewrite !fmap_cons in *. cbn [fold_left]. unfold apply_table at 2. cbn [def_id def_extended signal table]. rewrite Hd.
    cbn [id extended message_name dlc signals]. rewrite set_first_table_at.
    2:{ rewrite fmap_app in Hn. apply list.NoDup_app in Hn as (_ & H & _). intros Hin. apply (H _ Hin). left. }
    rewrite (IH (l ++ [s])).
    + by rewrite <- app_assoc, insert_insert_eq.
    + by rewrite lookup_insert_eq, <- app_assoc.
    + by rewrite <- app_assoc.
Qed.
Lemma apply_tables_all : forall ms d,
  (forall m, m ∈ ms -> d !! (id m, extended m) = Some (blank m) /\ NoDup (name <$> signals m)) -> NoDup (keys ms) ->
  fold_left apply_table (concat (defs_of <$> ms)) d = fold_left insert_message ms d.
Proof.
  induction ms as [|m ms IH]; intros d Hd Hn; [done|]. rewrite fmap_cons. cbn [concat fold_left].
  rewrite fold_left_app. destruct (Hd m ltac:(left)) as [Hm Hnames].
  unfold defs_of at 2. rewrite (apply_tables_one m _ [] d) by done. cbn [app].
  replace (mkMessage (id m) (extended m) (message_name m) (dlc m) (signals m)) with m by (by destruct m).
  inversion Hn as [|? ? Hk Hn']; subst. unfold insert_message at 2. apply IH; [|done].
  intros x Hx. destruct (Hd x ltac:(by right)) as [Hx' Hnx]. split; [|done].
  rewrite lookup_insert_ne; [done|]. intros E. apply Hk. rewrite E. apply list_elem_of_fmap. by exists x.
Qed.
Definition entries (ms : list Message) : list ((Z * bool) * Message) := (fun m => ((id m, extended m), m)) <$> ms.
Lemma entries_keys ms : fst <$> entries ms = keys ms.
Proof. unfold entries, keys. by rewrite <- list_fmap_compose. Qed.
Lemma keys_blank ms : keys (blank <$> ms) = keys ms.
Proof. unfold keys. by rewrite <- list_fmap_compose. Qed.
Lemma fold_insert_message ms : forall d : Database,
  NoDup (keys ms) -> fold_left insert_message ms d = list_to_map (entries ms) ∪ d.
Proof.
  intros d Hn. rewrite <- fold_insert by (by rewrite entries_keys). clear Hn. revert d.
  induction ms as [|m ms IH]; intros d; [done|]. cbn. apply IH.
Qed.

Lemma print_lines_ok ms : Forall writable ms -> Forall line_ok (print_lines ms).
Proof.
  intros Hw. unfold print_lines. apply Forall_app. rewrite list.Forall_forall in Hw.
  split; apply list.Forall_forall; intros l Hl; apply list_elem_of_In, in_concat in Hl as (k & Hk%list_elem_of_In & Hl%list_elem_of_In);
    apply list_elem_of_fmap in Hk as (m & -> & Hm); specialize (Hw m Hm); pose proof Hw as (Hok & _ & Hs);
    rewrite list.Forall_forall in Hs.
  - apply elem_of_cons in Hl as [-> | (s & -> & Hin)%list_elem_of_fmap]; [by apply print_message_ends|].
    by apply print_signal_ends, Hs.
  - apply list_elem_of_fmap in Hl as (s & -> & Hin). apply print_table_ends; [done|by apply Hs].
Qed.

(** C28: a database written as DBC text is read back as it was: every message
    under its identifier with its signals in order, their layout, scaling,
    range, unit, multiplexing and value tables, provided names are identifiers,
    labels and units can stand between quotes, and the text of each number that
    is not an integer is read as that number. *)
Theorem parse_print (ms : list Message) :
  Forall writable ms -> NoDup (keys ms) -> parse (print ms) = Ok (list_to_map (entries ms)).
Proof.
  intros Hw Hn. unfold parse, print. rewrite lines_unlines.
  2:{ by apply print_lines_ok. }
  unfold print_lines. rewrite parse_lines_app, parse_messages by done. cbn [mbind Result_bind app].
  rewrite parse_tables by done. cbn [mbind Result_bind app messages value_tables]. f_equal.
  assert (Hblank : forall m, m ∈ ms ->
    fold_left insert_message (blank <$> ms) ∅ !! (id m, extended m) = Some (blank m) /\ NoDup (name <$> signals m)).
  { intros m Hm. split; [|rewrite list.Forall_forall in Hw; apply (Hw m Hm)].
    rewrite fold_insert_message, (right_id_L _ _) by (by rewrite keys_blank).
    apply elem_of_list_to_map_1; [by rewrite entries_keys, keys_blank|]. unfold entries.
    rewrite <- list_fmap_compose. apply list_elem_of_fmap. by exists m. }
  rewrite apply_tables_all by done.
  rewrite !fold_insert_message by (by rewrite ?keys_blank). rewrite map_union_empty. apply map_eq. intros k.
  rewrite lookup_union. destruct (list_to_map (entries ms) !! k) as [m|] eqn:E; [by rewrite union_Some_l|].
  rewrite (left_id_L _ _). apply not_elem_of_list_to_map_1. apply not_elem_of_list_to_map_2 in E.
  by rewrite entries_keys, keys_blank, <- entries_keys.
Qed.
End printing.

(** ** A database written and read *)
#[export] Instance spec_float_eq_dec : EqDecision spec_float.
Proof. solve_decision. Defined.
#[export] Instance selector_ok_dec x : Decision (selector_ok x).
Proof. destruct x; cbn; unfold is_u64; apply _. Defined.
#[export] Instance is_i64_dec z : Decision (is_i64 z).
Proof. unfold is_i64. apply _. Defined.
#[export] Instance signal_ok_dec s : Decision (signal_ok s).
Proof. unfold signal_ok. apply _. Defined.
#[export] Instance message_ok_dec m : Decision (message_ok m).
Proof. unfold message_ok. apply _. Defined.
#[export] Instance writable_float_dec show x : Decision (writable_float show x).
Proof. unfold writable_float. apply _. Defined.
#[export] Instance writable_signal_dec show s : Decision (writable_signal show s).
Proof. unfold writable_signal. apply _. Defined.
#[export] Instance writable_dec show m : Decision (writable show m).
Proof. unfold writable. apply _. Defined.
Definition sample_numbers : list (f64 * string) :=
  [(f64_of 0, "0"); (f64_of 1, "1"); (f64_of 255, "255"); (f64_of (-40), "-40");
   (f64_div (f64_of 1) (f64_of 2), "0.5"); (f64_of 1000, "1e3")].
Definition sample_show (x : f64) : Text :=
  from_option (fun p => t (snd p)) [] (List.find (fun p => bool_decide (x = fst p)) sample_numbers).
Definition sample_signal (name : string) (x : Multiplex) (start len : Z) (o : ByteOrder) (v : ValueType)
    (factor offset : f64) (table : gmap Z Text) : Signal :=
  mkSignal (t name) start len o v factor offset (f64_of (-40)) (f64_of 1000) (t "km/h (max)") x table.
Definition sample_messages : list Message := [
  mkMessage 100 false (t "Engine") 8
    [sample_signal "Temperature" Plain 7 16 Big Signed (f64_of 1) (f64_of (-40)) ∅];
  mkMessage 100 true (t "Mux_2") 64
    [sample_signal "Mode" Multiplexor 0 8 Little Unsigned (f64_of 1) (f64_of 0)
       (<[0 := t "slow; steady"]> (<[-1 := t "off"]> ∅));
     sample_signal "Volt" (Multiplexed 0) 8 64 Little Unsigned (f64_div (f64_of 1) (f64_of 2)) (f64_of 255) ∅]].
Lemma parse_print_witness :
  Forall (writable sample_show) sample_messages /\ NoDup (keys sample_messages) /\
  parse (print sample_show sample_messages) = Ok (list_to_map (entries sample_messages)) /\
  List.length (lines (print sample_show sample_messages)) = 8%nat.
Proof.
  assert (Hw : Forall (writable sample_show) sample_messages) by (apply (bool_decide_unpack _); vm_compute; exact I).
  assert (Hn : NoDup (keys sample_messages)) by (apply (bool_decide_unpack _); vm_compute; exact I).
  split; [exact Hw|]. split; [exact Hn|]. split; [|vm_compute; reflexivity].
  apply (parse_print sample_show sample_messages Hw Hn).
Defined.
