(* ===== verification/Capture.v ===== *)
(** * Captures

    Models [crates/hf-automotive/src/capture.rs]: frames read from [candump -l]
    logs, Vector ASCII traces, CRTD logs and GVRET tables.  Every format is a
    function of one line and the loop over lines is shared; only the Vector format
    carries something from line to line, the base of its numbers. *)
From S2P Require Import Prelude Text.
From Stdlib Require Import Ascii.

(** ** Frames *)
Inductive Direction := Rx | Tx.
Inductive FrameKind := Data | Remote | Error.
#[export] Instance Direction_eq_dec : EqDecision Direction.
Proof. solve_decision. Defined.
#[export] Instance FrameKind_eq_dec : EqDecision FrameKind.
Proof. solve_decision. Defined.

Record FrameRecord := mkFrameRecord {
  timestamp_micros : Z;
  channel : Text;
  id : Z;
  extended : bool;
  fd : bool;
  kind : FrameKind;
  data : list Z;
  direction : option Direction;
}.
#[export] Instance FrameRecord_eq_dec : EqDecision FrameRecord.
Proof. solve_decision. Defined.
Inductive Format := Candump | VectorAsc | Crtd | GvretCsv.
Record ImportError := mkImportError { format : string; line : Z; reason : string }.

(** ** Numbers in a capture *)
Definition hex_nibble (b : Z) : option Z :=
  if (48 <=? b) && (b <=? 57) then Some (b - 48)
  else if (97 <=? b) && (b <=? 102) then Some (b - 97 + 10)
  else if (65 <=? b) && (b <=? 70) then Some (b - 65 + 10)
  else None.
(** [chunks_exact(2)] taken as bytes. *)
Fixpoint hex_pairs (l : list Z) : option (list Z) :=
  match l with
  | a :: b :: l =>
      high ← hex_nibble a; low ← hex_nibble b; rest ← hex_pairs l;
      Some (Z.lor (Z.shiftl high 4) low :: rest)
  | _ => Some []
  end.
Definition hex_bytes (text : Text) : option (list Z) :=
  let text := as_bytes (trim text) in
  if negb (zlen text mod 2 =? 0) then None else hex_pairs text.

Definition checked_u64 (z : Z) : option Z := if z <=? u64_MAX then Some z else None.
Definition seconds_to_micros (text : Text) : option Z :=
  let '(secs, frac) := default (text, []) (split_once (is_char ".") text) in
  secs ← parse_unsigned u64_MAX secs;
  if negb (forallb is_digit (as_bytes frac)) then None
  else
    let digits := take 6 (as_bytes frac) in
    let micros_digits := digits ++ replicate (6 - length digits) (chr "0") in
    micros ← (if bool_decide (micros_digits = []) then Some 0 else parse_unsigned u64_MAX micros_digits);
    product ← checked_u64 (secs * 1000000);
    checked_u64 (product + micros).

(** ** SocketCAN candump *)
Definition parse_candump_frame (frame : Text) : option (Z * bool * bool * FrameKind * list Z) :=
  '(id_str, rest) ← split_once (is_char "#") frame;
  let id_len := zlen (as_bytes id_str) in
  if (id_len =? 0) || (8 <? id_len) then None
  else
    raw_id ← from_str_radix u32_MAX 16 id_str;
    let extended := id_len =? 8 in
    let id := Z.land raw_id 0x1FFFFFFF in
    match strip_char (chr "#") rest with
    | Some fd_rest =>
        _ ← (first ← head (as_bytes fd_rest); hex_nibble first);
        data ← hex_bytes (drop 1 fd_rest);
        if 64 <? zlen data then None else Some (id, extended, true, Data, data)
    | None =>
        match strip_char (chr "R") rest with
        | Some remote =>
            if bool_decide (remote = []) then Some (id, extended, false, Remote, [])
            else
              dlc ← parse_unsigned u8_MAX remote;
              if 8 <? dlc then None else Some (id, extended, false, Remote, [])
        | None =>
            let kind := if extended && negb (Z.land raw_id 0x20000000 =? 0) then Error else Data in
            data ← hex_bytes rest;
            if 8 <? zlen data then None else Some (id, extended, false, kind, data)
        end
    end.

(** What a line does: the state for the next one and the frame it adds, if any. *)
Definition candump_line (st : unit) (line_no : Z) (raw : Text) : Result ImportError (unit * option FrameRecord) :=
  let err reason := mkImportError "candump" line_no reason in
  let line := trim raw in
  if bool_decide (line = []) then Ok (st, None)
  else
    match split_whitespace line with
    | stamp :: iface :: body :: _ =>
        ts ← ok_or (err "invalid timestamp"%string)
               (inner ← strip_char (chr "(") stamp; inner ← strip_suffix (chr ")") inner; seconds_to_micros inner);
        '(id, extended, fd, kind, data) ← ok_or (err "invalid frame body"%string) (parse_candump_frame body);
        Ok (st, Some (mkFrameRecord ts iface id extended fd kind data None))
    | _ => Err (err "expected `(ts) iface id#data`"%string)
    end.

(** ** Vector ASCII *)
Definition strip_extended_suffix (token : Text) : Text * bool :=
  match strip_suffix (chr "x") token with
  | Some base => (base, true)
  | None => match strip_suffix (chr "X") token with Some base => (base, true) | None => (token, false) end
  end.
Fixpoint radix_bytes (radix : Z) (tokens : list Text) : option (list Z) :=
  match tokens with
  | [] => Some []
  | token :: tokens => b ← from_str_radix u8_MAX radix token; rest ← radix_bytes radix tokens; Some (b :: rest)
  end.
Definition maximum_id (extended : bool) : Z := if extended then 0x1FFFFFFF else 0x7FF.

Definition asc_frame (radix line_no : Z) (tokens : list Text) : Result ImportError (option FrameRecord) :=
  let err reason := mkImportError "vector-asc" line_no reason in
  match tokens with
  | stamp :: chan :: id_token :: dir :: mode :: dlc_token :: bytes =>
      match parse_f64 stamp with
      | None => Ok None
      | Some _ =>
          if eq_ignore_ascii_case chan (t "canfd") || eq_ignore_ascii_case id_token (t "errorframe") then Ok None
          else
            match (if bool_decide (dir = t "Rx") then Some Rx else if bool_decide (dir = t "Tx") then Some Tx else None) with
            | None => Ok None
            | Some direction =>
                ts ← ok_or (err "invalid timestamp"%string) (seconds_to_micros stamp);
                let '(id_text, extended) := strip_extended_suffix id_token in
                id ← ok_or (err "invalid id"%string) (from_str_radix u32_MAX radix id_text);
                if maximum_id extended <? id then Err (err "id exceeds the declared frame format"%string)
                else
                  let is_remote := eq_ignore_ascii_case mode (t "r") in
                  dlc ← ok_or (err "invalid dlc"%string) (parse_unsigned usize_MAX dlc_token);
                  if 8 <? dlc then Err (err "classic CAN dlc exceeds 8"%string)
                  else
                    '(kind, data) ←
                      (if is_remote then Ok (Remote, [])
                       else if zlen tokens <? 6 + dlc then Err (err "fewer data bytes than declared dlc"%string)
                       else
                         bytes ← ok_or (err "invalid data byte"%string) (radix_bytes radix (take (Z.to_nat dlc) bytes));
                         Ok (Data, bytes));
                    Ok (Some (mkFrameRecord ts chan id extended false kind data (Some direction)))
            end
      end
  | _ => Ok None
  end.
Definition asc_line (radix line_no : Z) (raw : Text) : Result ImportError (Z * option FrameRecord) :=
  let line := trim raw in
  if bool_decide (line = []) then Ok (radix, None)
  else
    let lower := text_lowercase line in
    if starts_with (t "base") lower then Ok (if text_contains (t "dec") lower then 10 else radix, None)
    else
      frame ← asc_frame radix line_no (split_whitespace line);
      Ok (radix, frame).

(** ** CRTD *)
Definition crtd_line (st : unit) (line_no : Z) (raw : Text) : Result ImportError (unit * option FrameRecord) :=
  let err reason := mkImportError "crtd" line_no reason in
  let line := trim raw in
  if bool_decide (line = []) then Ok (st, None)
  else
    match split_whitespace line with
    | stamp :: type_token :: rest =>
        ts ← ok_or (err "invalid timestamp"%string) (seconds_to_micros stamp);
        let type_body := trim_start_by is_digit type_token in
        let bus := take (length type_token - length type_body) type_token in
        match (match type_body with
               | c :: _ => if is_char "R" c then Some Rx else if is_char "T" c then Some Tx else None
               | [] => None
               end) with
        | None => Ok (st, None)
        | Some direction =>
            let extended := ends_with (t "29") type_body in
            if negb (ends_with (t "11") type_body) && negb extended then Ok (st, None)
            else
              match rest with
              | [] => Err (err "missing arbitration id"%string)
              | id_token :: bytes =>
                  raw_id ← ok_or (err "invalid id"%string) (from_str_radix u32_MAX 16 id_token);
                  data ← ok_or (err "invalid data byte"%string) (radix_bytes 16 bytes);
                  if 8 <? zlen data then Err (err "classic CAN payload exceeds 8 bytes"%string)
                  else
                    Ok (st, Some (mkFrameRecord ts (if bool_decide (bus = []) then t "1" else bus)
                                    (Z.land raw_id 0x1FFFFFFF) extended false Data data (Some direction)))
              end
        end
    | _ => Ok (st, None)
    end.

(** ** GVRET *)
Fixpoint gvret_bytes (err : string -> ImportError) (fields : list Text) : Result ImportError (list Z) :=
  match fields with
  | [] => Ok []
  | field :: fields =>
      if bool_decide (field = []) then Err (err "missing data byte"%string)
      else
        b ← ok_or (err "invalid data byte"%string) (from_str_radix u8_MAX 16 field);
        rest ← gvret_bytes err fields;
        Ok (b :: rest)
  end.
Definition gvret_line (st : unit) (line_no : Z) (raw : Text) : Result ImportError (unit * option FrameRecord) :=
  let err reason := mkImportError "gvret-csv" line_no reason in
  let line := trim raw in
  if bool_decide (line = []) then Ok (st, None)
  else if starts_with (t "Time Stamp") line then Ok (st, None)
  else
    let fields := trim <$> split_on (is_char ",") line in
    match fields with
    | stamp :: id_field :: flag :: bus :: len_field :: bytes =>
        ts ← ok_or (err "invalid timestamp"%string)
               (if text_contains (t ".") stamp then seconds_to_micros stamp else parse_unsigned u64_MAX stamp);
        let flag := text_lowercase flag in
        extended ← ok_or (err "invalid extended flag"%string)
                     (if bool_decide (flag = t "true" \/ flag = t "1") then Some true
                      else if bool_decide (flag = t "false" \/ flag = t "0") then Some false else None);
        id ← ok_or (err "invalid id"%string) (from_str_radix u32_MAX 16 id_field);
        if maximum_id extended <? id then Err (err "id exceeds the declared frame format"%string)
        else
          len ← ok_or (err "invalid length"%string) (parse_unsigned usize_MAX len_field);
          if 8 <? len then Err (err "classic CAN payload exceeds 8 bytes"%string)
          else if zlen fields <? saturating_add usize_MAX 5 len
          then Err (err "fewer data bytes than declared length"%string)
          else
            data ← gvret_bytes err (take (Z.to_nat len) bytes);
            Ok (st, Some (mkFrameRecord ts bus id extended false Data data None))
    | _ => Err (err "expected at least 5 columns"%string)
    end.

(** ** The loop over lines *)
Fixpoint each_line {S} (body : S -> Z -> Text -> Result ImportError (S * option FrameRecord))
    (st : S) (line_no : Z) (ls : list Text) : Result ImportError (list FrameRecord) :=
  match ls with
  | [] => Ok []
  | raw :: ls =>
      '(st, frame) ← body st line_no raw;
      rest ← each_line body st (line_no + 1) ls;
      Ok (option_list frame ++ rest)
  end.
Definition parse_lines (f : Format) (ls : list Text) : Result ImportError (list FrameRecord) :=
  match f with
  | Candump => each_line candump_line tt 1 ls
  | VectorAsc => each_line asc_line 16 1 ls
  | Crtd => each_line crtd_line tt 1 ls
  | GvretCsv => each_line gvret_line tt 1 ls
  end.
Definition parse (f : Format) (text : Text) : Result ImportError (list FrameRecord) := parse_lines f (lines text).

(** The cases of the module's own tests. *)
Definition unlines (ls : list string) : Text := concat ((fun l => t l ++ [10]) <$> ls).
Example candump_ex :
  parse Candump (unlines ["(1633072800.123456) can0 123#DEADBEEF"; "(1633072800.234567) can0 18FEF100#0102030405060708";
                          "(1633072800.345678) can1 200#R8"; "(1633072800.567890) can0 123##11122334455667788"])
  = Ok [mkFrameRecord 1633072800123456 (t "can0") 0x123 false false Data [0xDE; 0xAD; 0xBE; 0xEF] None;
        mkFrameRecord 1633072800234567 (t "can0") 0x18FEF100 true false Data [1; 2; 3; 4; 5; 6; 7; 8] None;
        mkFrameRecord 1633072800345678 (t "can1") 0x200 false false Remote [] None;
        mkFrameRecord 1633072800567890 (t "can0") 0x123 false true Data [0x11; 0x22; 0x33; 0x44; 0x55; 0x66; 0x77; 0x88] None].
Proof. vm_compute. reflexivity. Qed.
Example candump_malformed_ex :
  parse Candump (unlines ["(1.0) can0 123#ZZ"]) = Err (mkImportError "candump" 1 "invalid frame body")
  /\ parse Candump (t "(1.0) can0 123#A" ++ [233] ++ t "B") = Err (mkImportError "candump" 1 "invalid frame body")
  /\ parse Candump (t "(1.123456garbage) can0 123#00") = Err (mkImportError "candump" 1 "invalid timestamp").
Proof. vm_compute. done. Qed.
Example asc_ex :
  parse VectorAsc (unlines ["date Wed Sep 27 10:00:00.000 2017"; "base hex  timestamps absolute"; "Begin Triggerblock";
    "0.123456 1 7DF Rx d 3 12 34 56"; "0.234000 1 18DB33F1x Tx d 2 02 10"; "0.240000 1 300 Rx r 8";
    "0.250000 1 400 Rx ErrorFrame"; "End TriggerBlock"])
  = Ok [mkFrameRecord 123456 (t "1") 0x7DF false false Data [0x12; 0x34; 0x56] (Some Rx);
        mkFrameRecord 234000 (t "1") 0x18DB33F1 true false Data [2; 0x10] (Some Tx);
        mkFrameRecord 240000 (t "1") 0x300 false false Remote [] (Some Rx)].
Proof. vm_compute. reflexivity. Qed.
Example crtd_ex :
  parse Crtd (unlines ["1542473901.020305 1R11 213 00 11 22 33"; "1542473901.030 2T29 18FEF100 AA BB";
    "1542473901.040 CXX vehicle started"])
  = Ok [mkFrameRecord 1542473901020305 (t "1") 0x213 false false Data [0; 0x11; 0x22; 0x33] (Some Rx);
        mkFrameRecord 1542473901030000 (t "2") 0x18FEF100 true false Data [0xAA; 0xBB] (Some Tx)].
Proof. vm_compute. reflexivity. Qed.
Example gvret_ex :
  parse GvretCsv (unlines ["Time Stamp,ID,Extended,Bus,LEN,D1,D2,D3,D4,D5,D6,D7,D8";
    "166064000,0000021A,false,0,8,FE,36,12,FE,69,05,07,AD,"; "166064000,0000027A,false,0,7,30,30,0D,8C,09,15,00,00,"])
  = Ok [mkFrameRecord 166064000 (t "0") 0x21A false false Data [0xFE; 0x36; 0x12; 0xFE; 0x69; 5; 7; 0xAD] None;
        mkFrameRecord 166064000 (t "0") 0x27A false false Data [0x30; 0x30; 0x0D; 0x8C; 9; 0x15; 0] None].
Proof. vm_compute. reflexivity. Qed.

(** ** What the importers let through *)
Definition wf_frame (fmt : Format) (f : FrameRecord) : Prop :=
  is_u64 (timestamp_micros f) /\ 0 <= id f <= 0x1FFFFFFF /\
  Forall is_u8 (data f) /\ zlen (data f) <= (if fd f then 64 else 8) /\
  (kind f <> Data -> fd f = false) /\ (kind f = Remote -> data f = []) /\ (kind f = Error -> extended f = true) /\
  (fmt = VectorAsc \/ fmt = GvretCsv -> id f <= maximum_id (extended f)).

Ltac ranges :=
  repeat match goal with
  | H : parse_unsigned _ _ = Some _ |- _ => apply parse_unsigned_range in H
  | H : from_str_radix _ _ _ = Some _ |- _ => apply from_str_radix_range in H; [|done]
  end.
Lemma hex_nibble_range b n : hex_nibble b = Some n -> 0 <= n < 16.
Proof. unfold hex_nibble. intros H. repeat case_match; simplify_eq; lia. Qed.
Lemma hex_pairs_u8 : forall l d, hex_pairs l = Some d -> Forall is_u8 d.
Proof.
  fix IH 1. intros [|a [|b l]] d H; [cbn in H; simplify_eq; constructor..|]. cbn in H. ok_inv. subst.
  apply hex_nibble_range in H0, H1. constructor; [|eapply IH; eassumption].
  rewrite lor_shiftl_low by lia. unfold is_u8, u8_MAX. lia.
Qed.
Lemma hex_bytes_u8 s d : hex_bytes s = Some d -> Forall is_u8 d.
Proof. unfold hex_bytes. intros H. ok_inv. by eapply hex_pairs_u8. Qed.
Lemma seconds_to_micros_u64 s n : seconds_to_micros s = Some n -> is_u64 n.
Proof.
  unfold seconds_to_micros, checked_u64. destruct (default _ _) as [secs frac]. intros H. ok_inv; subst; ranges;
    unfold is_u64; lia.
Qed.
Lemma id_mask_range n : 0 <= Z.land n 0x1FFFFFFF <= 0x1FFFFFFF.
Proof. pose proof (land_low n 29 ltac:(done)) as H. change (Z.ones 29) with 0x1FFFFFFF in H. lia. Qed.
Lemma radix_bytes_u8 radix l d : 0 <= radix -> radix_bytes radix l = Some d -> Forall is_u8 d /\ zlen d = zlen l.
Proof.
  intros Hr. revert d. induction l as [|w l IH]; intros d H; cbn in H; [by simplify_eq|]. ok_inv. subst.
  apply from_str_radix_range in H0; [|done]. destruct (IH _ H1) as [Hu Hl].
  split; [by constructor|]. rewrite !zlen_cons. lia.
Qed.
Lemma gvret_bytes_u8 e l d : gvret_bytes e l = Ok d -> Forall is_u8 d /\ zlen d = zlen l.
Proof.
  revert d. induction l as [|w l IH]; intros d H; cbn in H; [by simplify_eq|]. ok_inv. subst.
  apply from_str_radix_range in H0; [|done]. destruct (IH _ H1) as [Hu Hl].
  split; [by constructor|]. rewrite !zlen_cons. lia.
Qed.

Ltac capture_ranges :=
  ranges;
  repeat match goal with
  | H : seconds_to_micros _ = Some _ |- _ => apply seconds_to_micros_u64 in H
  | H : hex_bytes _ = Some _ |- _ => apply hex_bytes_u8 in H
  | H : radix_bytes _ _ = Some _ |- _ => apply radix_bytes_u8 in H; [|done]; destruct H
  | H : gvret_bytes _ _ = Ok _ |- _ => apply gvret_bytes_u8 in H; destruct H
  end.
Lemma parse_candump_frame_wf w ts iface i e f k d :
  is_u64 ts -> parse_candump_frame w = Some (i, e, f, k, d) -> wf_frame Candump (mkFrameRecord ts iface i e f k d None).
Proof.
  intros Hts H. unfold parse_candump_frame in H. ok_inv. pose proof (id_mask_range x). unfold wf_frame. cbn.
  destruct (strip_char (chr "#") l0); [|destruct (strip_char (chr "R") l0); [case_bool_decide|]]; ok_inv; simplify_eq.
  all: capture_ranges.
  all: split_and!; try done; try lia; try naive_solver.
Qed.
Lemma candump_line_wf st n raw st' f : candump_line st n raw = Ok (st', Some f) -> wf_frame Candump f.
Proof.
  unfold candump_line. intros H. ok_inv. destruct (split_whitespace _) as [|a [|b [|c r]]]; [done..|]. ok_inv. simplify_eq.
  apply parse_candump_frame_wf with (w := c); [|done]. eapply seconds_to_micros_u64; done.
Qed.
(** Frames of the three formats without FD and error frames. *)
Lemma classic_wf fmt ts ch i e k d dir :
  is_u64 ts -> 0 <= i <= 0x1FFFFFFF -> (fmt <> Crtd -> i <= maximum_id e) ->
  (k = Remote /\ d = [] \/ k = Data /\ Forall is_u8 d /\ zlen d <= 8) ->
  wf_frame fmt (mkFrameRecord ts ch i e false k d dir).
Proof.
  intros Hts Hi Hm Hd. unfold wf_frame. cbn.
  assert (Forall is_u8 d /\ zlen d <= 8) as [Hu Hl] by naive_solver (constructor || done).
  split_and!; naive_solver.
Qed.
Lemma maximum_id_range e : maximum_id e <= 0x1FFFFFFF.
Proof. by destruct e. Qed.
Lemma asc_line_wf radix n raw radix' f : 0 <= radix -> asc_line radix n raw = Ok (radix', Some f) -> wf_frame VectorAsc f.
Proof.
  unfold asc_line, asc_frame. intros Hr H. ok_inv. simplify_eq.
  destruct (split_whitespace _) as [|stamp [|chan [|id_token [|dir [|mode [|dlc_token bytes]]]]]]; try done.
  destruct (parse_f64 stamp); [|done]. ok_inv. destruct (if bool_decide (dir = t "Rx") then _ else _); [|done].
  ok_inv; simplify_eq; pose proof (maximum_id_range b); capture_ranges.
  all: apply classic_wf; [done|lia|lia|].
  - by left.
  - right. split_and!; [done..|]. match goal with H : zlen _ = zlen (take _ _) |- _ => rewrite H end. rewrite zlen_take by lia. lia.
Qed.
Lemma crtd_line_wf st n raw st' f : crtd_line st n raw = Ok (st', Some f) -> wf_frame Crtd f.
Proof.
  unfold crtd_line. intros H. ok_inv. destruct (split_whitespace _) as [|stamp [|type_token rest]]; [done..|]. ok_inv.
  destruct (match trim_start_by is_digit type_token with [] => None | _ => _ end); [|done].
  ok_inv. destruct rest as [|id_token bytes]; [done|]. ok_inv. simplify_eq. pose proof (id_mask_range x0). capture_ranges.
  apply classic_wf; [done|done|done|]. right. split_and!; [done..|lia].
Qed.
Lemma gvret_line_wf st n raw st' f : gvret_line st n raw = Ok (st', Some f) -> wf_frame GvretCsv f.
Proof.
  unfold gvret_line. intros H. ok_inv. destruct (trim <$> _) as [|stamp [|id_field [|flag [|bus [|len_field bytes]]]]]; [done..|].
  ok_inv; simplify_eq; (match goal with _ : (maximum_id ?b <? _) = false |- _ => pose proof (maximum_id_range b) end);
    capture_ranges; (apply classic_wf; [done|lia|lia|]); right; (split_and!; [done..|]);
    (match goal with H : zlen _ = zlen (take _ _) |- _ => rewrite H end); rewrite zlen_take by lia; lia.
Qed.

Lemma each_line_Forall {S} (P : FrameRecord -> Prop) (I : S -> Prop) body :
  (forall st n raw st' o, I st -> body st n raw = Ok (st', o) -> I st' /\ forall f, o = Some f -> P f) ->
  forall ls st n fs, I st -> each_line (S := S) body st n ls = Ok fs -> Forall P fs.
Proof.
  intros Hb. induction ls as [|raw ls IH]; intros st n fs HI H; cbn in H; [by simplify_eq|]. ok_inv. subst.
  destruct (Hb _ _ _ _ _ HI H0) as [HI' Ho]. apply list.Forall_app. split; [|by eapply IH].
  destruct o; cbn; auto.
Qed.

(** Every importer lets through only frames a CAN bus can carry: the
    identifier fits 29 bits (and the declared format, where the importer checks it),
    a payload is bytes and no longer than classic CAN or CAN FD allows, a remote frame
    has none, and the time stamp fits 64 bits. *)
Theorem parse_wf fmt text fs : parse fmt text = Ok fs -> Forall (wf_frame fmt) fs.
Proof.
  unfold parse, parse_lines. destruct fmt; intros H.
  - eapply (each_line_Forall _ (fun _ => True)); [| |exact H]; [|done]. intros st n raw st' o _ Hb. split; [done|]. intros f ->.
    by eapply candump_line_wf.
  - eapply (each_line_Forall _ (fun radix => 0 <= radix)); [| |exact H]; [|done]. intros st n raw st' o Hr Hb. split.
    + unfold asc_line in Hb. ok_inv; simplify_eq; lia.
    + intros f ->. by eapply asc_line_wf.
  - eapply (each_line_Forall _ (fun _ => True)); [| |exact H]; [|done]. intros st n raw st' o _ Hb. split; [done|]. intros f ->.
    by eapply crtd_line_wf.
  - eapply (each_line_Forall _ (fun _ => True)); [| |exact H]; [|done]. intros st n raw st' o _ Hb. split; [done|]. intros f ->.
    by eapply gvret_line_wf.
Qed.
Lemma parse_wf_witness :
  parse GvretCsv (t "166064000,0000021A,false,0,2,FE,36,") = Ok [mkFrameRecord 166064000 (t "0") 0x21A false false Data [0xFE; 0x36] None]
  /\ Forall (wf_frame GvretCsv) [mkFrameRecord 166064000 (t "0") 0x21A false false Data [0xFE; 0x36] None].
Proof.
  assert (H : parse GvretCsv (t "166064000,0000021A,false,0,2,FE,36,")
              = Ok [mkFrameRecord 166064000 (t "0") 0x21A false false Data [0xFE; 0x36] None]) by (vm_compute; reflexivity).
  split; [exact H|]. exact (parse_wf GvretCsv _ _ H).
Defined.

(** A log line with a seven-digit identifier makes a standard frame no CAN bus has. *)
Example candump_wide_standard_id :
  parse Candump (t "(1.0) can0 FFFFFFF#00") = Ok [mkFrameRecord 1000000 (t "can0") 0xFFFFFFF false false Data [0] None].
Proof. vm_compute. reflexivity. Qed.

(** An import stops at the first line it cannot read and says which: the lines before
    it all read. *)
Lemma each_line_Err {S} body ls : forall (st : S) n e, each_line body st n ls = Err e ->
  exists before raw after fs st', ls = before ++ raw :: after /\ each_line body st n before = Ok fs /\
    body st' (n + zlen before) raw = Err e.
Proof.
  induction ls as [|raw ls IH]; intros st n e H; cbn in H; [done|]. destruct (body st n raw) as [[st1 o]|e1] eqn:E; cbn in H.
  - destruct (each_line body st1 (n + 1) ls) as [fs|e2] eqn:E2; cbn in H; [done|]. injection H as ->.
    destruct (IH _ _ _ E2) as (before & bad & after & fs & st' & -> & Hok & Hbad).
    exists (raw :: before), bad, after, (option_list o ++ fs), st'. cbn. rewrite E. cbn. rewrite Hok.
    split_and!; [done..|]. rewrite zlen_cons. by replace (n + (zlen before + 1)) with (n + 1 + zlen before) by lia.
  - injection H as ->. exists [], raw, ls, [], st. split_and!; [done..|]. by rewrite Z.add_0_r.
Qed.
Lemma ok_or_Err {E A} (e : E) (o : option A) x : ok_or e o = Err x <-> o = None /\ x = e.
Proof. destruct o; cbn; naive_solver. Qed.
Lemma bind_Err {E A B} (f : A -> Result E B) (r : Result E A) e :
  mbind f r = Err e <-> r = Err e \/ exists a, r = Ok a /\ f a = Err e.
Proof. destruct r; cbn; naive_solver. Qed.
Ltac err_inv :=
  repeat match goal with
  | H : Ok _ = Err _ |- _ => discriminate H
  | H : Err _ = Err _ |- _ => injection H as <-
  | H : mbind _ _ = Err _ |- _ => apply bind_Err in H as [H|(? & _ & H)]
  | H : ok_or _ _ = Err _ |- _ => apply ok_or_Err in H as [_ ->]
  | H : match ?x with _ => _ end = Err _ |- _ => destruct x
  end.
Lemma gvret_bytes_Err f l e : gvret_bytes f l = Err e -> exists reason, e = f reason.
Proof. induction l as [|w l IH]; cbn; intros H; err_inv; eauto. Qed.
Lemma error_names_line :
  (forall st n raw e, candump_line st n raw = Err e -> line e = n) /\ (forall r n raw e, asc_line r n raw = Err e -> line e = n) /\
  (forall st n raw e, crtd_line st n raw = Err e -> line e = n) /\ (forall st n raw e, gvret_line st n raw = Err e -> line e = n).
Proof.
  split_and!; intros st n raw e H.
  - unfold candump_line in H. err_inv; done.
  - unfold asc_line, asc_frame in H. err_inv; done.
  - unfold crtd_line in H. err_inv; done.
  - unfold gvret_line in H. err_inv; try done. apply gvret_bytes_Err in H as [? ->]. done.
Qed.
(** An import fails on the first line it cannot read, and the error names it. *)
Theorem parse_error_line fmt text e : parse fmt text = Err e ->
  exists before raw after fs, lines text = before ++ raw :: after /\ line e = zlen before + 1 /\ parse_lines fmt before = Ok fs.
Proof.
  unfold parse, parse_lines. destruct error_names_line as (H1 & H2 & H3 & H4).
  destruct fmt; intros (before & raw & after & fs & st & E & Hok & Hbad)%each_line_Err;
    exists before, raw, after, fs; (split; [done|]); (split; [|done]);
    [apply H1 in Hbad|apply H2 in Hbad|apply H3 in Hbad|apply H4 in Hbad]; lia.
Qed.
