(* ===== verification/CaptureText.v ===== *)
(** * Writing candump logs

    A printer for [candump -l] logs as [can-utils] writes them, and the theorem that
    [Capture.parse] reads back every capture it can express. *)
From S2P Require Import Prelude Text Capture.
From Stdlib Require Import Ascii.

(** ** The printer *)
Definition hex_char (d : Z) : Z := if d <? 10 then 48 + d else 55 + d.
(** The last [w] digits of a number, in a base with its digits. *)
Fixpoint fixed (digit : Z -> Z) (base : Z) (w : nat) (n : Z) : Text :=
  match w with O => [] | S w => fixed digit base w (n / base) ++ [digit (n mod base)] end.
Definition hex_fixed : nat -> Z -> Text := fixed hex_char 16.
Definition dec_fixed : nat -> Z -> Text := fixed (fun d => 48 + d) 10.
Definition print_payload (d : list Z) : Text := d ≫= hex_fixed 2.

Definition error_flag (f : FrameRecord) : bool := bool_decide (kind f = Error).
Definition raw_id (f : FrameRecord) : Z := id f + if error_flag f then 2 ^ 29 else 0.
Definition print_body (f : FrameRecord) : Text :=
  hex_fixed (if extended f then 8 else 3) (raw_id f) ++ [chr "#"] ++
  (if fd f then chr "#" :: chr "0" :: print_payload (data f)
   else match kind f with Remote => [chr "R"] | _ => print_payload (data f) end).
Definition print_stamp (micros : Z) : Text :=
  show_unsigned (micros / 1000000) ++ [chr "."] ++ dec_fixed 6 (micros mod 1000000).
Definition print_line (f : FrameRecord) : Text :=
  [chr "("] ++ print_stamp (timestamp_micros f) ++ [chr ")"; 32] ++ channel f ++ [32] ++ print_body f.
Definition print (fs : list FrameRecord) : Text := concat ((fun f => print_line f ++ [10]) <$> fs).

(** What a log line can express: an interface name without spaces, no direction, and
    a standard identifier of three digits. *)
Definition expressible (f : FrameRecord) : Prop :=
  wf_frame Candump f /\ word (channel f) /\ direction f = None /\ (extended f = false -> id f < 16 ^ 3).

(** ** Digits *)
Section digits.
Context (digit : Z -> Z) (base : Z) (Hbase : 1 < base).
Lemma fixed_length w n : length (fixed digit base w n) = w.
Proof. revert n. induction w as [|w IH]; intros n; cbn; [done|]. rewrite length_app, IH. cbn. lia. Qed.
Lemma fixed_forall (p : Z -> bool) w n : (forall d, 0 <= d < base -> p (digit d) = true) -> forallb p (fixed digit base w n) = true.
Proof.
  intros Hp. revert n. induction w as [|w IH]; intros n; cbn; [done|]. rewrite forallb_app, IH. cbn.
  rewrite Hp; [done|]. apply Z.mod_pos_bound. lia.
Qed.
(** A reader that takes one digit at a time reads the number back. *)
Lemma fixed_value (value : Z -> Text -> option Z) w : (forall acc, value acc [] = Some acc) ->
  (forall acc a b, value acc (a ++ b) = v ← value acc a; value v b) ->
  (forall acc d, 0 <= d < base -> value acc [digit d] = Some (acc * base + d)) ->
  forall n, 0 <= n < base ^ Z.of_nat w -> value 0 (fixed digit base w n) = Some n.
Proof.
  intros Hnil Happ Hone. induction w as [|w IH]; intros n Hn; cbn [fixed].
  - rewrite Hnil. f_equal. cbn in Hn. lia.
  - rewrite Nat2Z.inj_succ, Z.pow_succ_r in Hn by lia. rewrite Happ, IH.
    + cbn. rewrite Hone by (apply Z.mod_pos_bound; lia). f_equal. pose proof (Z_div_mod_eq_full n base). lia.
    + split; [apply Z.div_pos; lia|]. apply Z.div_lt_upper_bound; lia.
Qed.
End digits.

Lemma hex_char_digit d : 0 <= d < 16 -> to_digit 16 (hex_char d) = Some d.
Proof. revert d. by apply (digit_check (fun d => to_digit 16 (hex_char d) = Some d)). Qed.
Lemma hex_char_nibble d : 0 <= d < 16 -> hex_nibble (hex_char d) = Some d.
Proof. revert d. by apply (digit_check (fun d => hex_nibble (hex_char d) = Some d)). Qed.

(** The characters of hexadecimal numbers: ASCII, no space, no [#], [R] or sign. *)
Definition hexadecimal (c : Z) : bool :=
  (c <? 128) && negb (is_whitespace c) && negb (is_char "#" c) && negb (is_char "R" c) && negb (is_char "+" c).
Lemma hex_fixed_chars w n : forallb hexadecimal (hex_fixed w n) = true.
Proof. apply fixed_forall; [done|]. by apply (digit_check (fun d => hexadecimal (hex_char d) = true)). Qed.
Lemma dec_fixed_digits w n : forallb is_digit (dec_fixed w n) = true.
Proof. apply fixed_forall; [done|]. unfold is_digit. lia. Qed.
Lemma forallb_imply (p q : Z -> bool) s : (forall c, p c = true -> q c = true) -> forallb p s = true -> forallb q s = true.
Proof. rewrite !forallb_forall. auto. Qed.
Lemma ascii_bytes s : forallb (fun c => c <? 128) s = true -> as_bytes s = s.
Proof.
  unfold as_bytes. induction s as [|c s IH]; [done|]. intros [Hc Hs]%andb_true_iff. cbn. unfold char_bytes. rewrite Hc. cbn.
  f_equal. by apply IH.
Qed.

Lemma radix_value_app radix a b : forall acc, radix_value radix acc (a ++ b) = v ← radix_value radix acc a; radix_value radix v b.
Proof. induction a as [|c a IH]; intros acc; cbn; [done|]. destruct (to_digit radix c); cbn; [apply IH|done]. Qed.
Lemma hex_fixed_parse hi w n : (0 < w)%nat -> 0 <= n < 16 ^ Z.of_nat w -> n <= hi -> from_str_radix hi 16 (hex_fixed w n) = Some n.
Proof.
  intros Hw Hn Hhi. unfold from_str_radix, strip_plus.
  assert (Hv : radix_value 16 0 (hex_fixed w n) = Some n).
  { apply (fixed_value hex_char 16 ltac:(done) (radix_value 16)); [done|intros; apply radix_value_app| |done].
    intros acc d Hd. cbn. by rewrite hex_char_digit. }
  pose proof (hex_fixed_chars w n) as Hc. pose proof (fixed_length hex_char 16 w n) as Hl.
  fold (hex_fixed w n) in Hl. destruct (hex_fixed w n) as [|c s]; [cbn in Hl; lia|]. cbn [strip_char].
  assert (c =? 43 = false) as ->.
  { cbn in Hc. unfold hexadecimal, is_char in Hc. change (chr "+") with 43 in Hc. lia. }
  cbn [default]. rewrite Hv. cbn. by replace (n <=? hi) with true by lia.
Qed.
Lemma dec_fixed_parse hi w n : (0 < w)%nat -> 0 <= n < 10 ^ Z.of_nat w -> n <= hi -> parse_unsigned hi (dec_fixed w n) = Some n.
Proof.
  intros Hw Hn Hhi. unfold parse_unsigned, strip_plus. rewrite no_sign; [|apply dec_fixed_digits|done]. cbn [default].
  unfold digits. pose proof (fixed_length (fun d => 48 + d) 10 w n) as Hl. fold (dec_fixed w n) in Hl.
  assert (Hv : digits_value 0 (dec_fixed w n) = Some n).
  { apply (fixed_value (fun d => 48 + d) 10 ltac:(done) digits_value); [done|intros; apply digits_value_app| |done].
    intros acc d Hd. cbn. replace (is_digit (48 + d)) with true by (unfold is_digit; lia). f_equal. lia. }
  destruct (dec_fixed w n); [cbn in Hl; lia|]. rewrite Hv. cbn. by replace (n <=? hi) with true by lia.
Qed.

(** ** The parts of a line *)
Lemma hexadecimal_avoids p s : (forall c, p c = true -> hexadecimal c = false) -> forallb hexadecimal s = true -> avoids p s = true.
Proof. intros Hp. apply forallb_imply. intros c Hc. destruct (p c) eqn:E; [|done]. by rewrite (Hp c E) in Hc. Qed.
Lemma payload_chars d : forallb hexadecimal (print_payload d) = true.
Proof. unfold print_payload. induction d as [|b d IH]; [done|]. cbn [mbind list_bind]. by rewrite forallb_app, hex_fixed_chars. Qed.
Lemma hexadecimal_word s : forallb hexadecimal s = true -> avoids is_whitespace s = true.
Proof. apply hexadecimal_avoids. intros c. unfold hexadecimal. intros ->. cbn. by rewrite andb_false_r. Qed.
Lemma hexadecimal_bytes s : forallb hexadecimal s = true -> as_bytes s = s.
Proof. intros H. apply ascii_bytes. revert H. apply forallb_imply. unfold hexadecimal. intros c. lia. Qed.
Lemma payload_strip c d : hexadecimal c = false -> strip_char c (print_payload d) = None.
Proof.
  intros Hc. pose proof (payload_chars d) as H. destruct (print_payload d) as [|x s]; [done|]. cbn in *.
  destruct (x =? c) eqn:E; [|done]. apply Z.eqb_eq in E as ->. by rewrite Hc in H.
Qed.
Lemma payload_parse d : Forall is_u8 d -> hex_bytes (print_payload d) = Some d.
Proof.
  intros Hd. unfold hex_bytes. rewrite trim_wordless by apply hexadecimal_word, payload_chars.
  rewrite hexadecimal_bytes by apply payload_chars.
  assert (Hp : zlen (print_payload d) = 2 * zlen d /\ hex_pairs (print_payload d) = Some d).
  { unfold print_payload. induction Hd as [|b d Hb _ [IHl IHp]]; [done|]. cbn [mbind list_bind]. rewrite zlen_app, zlen_cons.
    change (zlen (hex_fixed 2 b)) with 2. split; [lia|]. unfold is_u8, u8_MAX in Hb.
    change (hex_fixed 2 b) with [hex_char (b / 16 mod 16); hex_char (b mod 16)]. cbn [app hex_pairs].
    rewrite !hex_char_nibble by (apply Z.mod_pos_bound; lia). cbn [mbind option_bind].
    change (fun n : Z => _) with (hex_fixed 2). rewrite IHp. cbn [mbind option_bind].
    rewrite lor_shiftl_low by (try lia; apply Z.mod_pos_bound; lia). do 2 f_equal. divlia. }
  destruct Hp as [-> ->]. by rewrite Z.mul_comm, Z_mod_mult.
Qed.

Lemma stamp_parse m : is_u64 m -> seconds_to_micros (print_stamp m) = Some m.
Proof.
  intros Hm. unfold is_u64 in Hm. unfold seconds_to_micros, print_stamp. cbn [app].
  destruct (digits_show (m / 1000000)) as (s & Hs & _ & Hd & _); [divlia|].
  rewrite split_once_at; [|rewrite Hs; revert Hd; apply forallb_imply; unfold is_digit, is_char; change (chr ".") with 46; lia|done].
  cbn [default Datatypes.id]. rewrite parse_show_unsigned by divlia. cbn [mbind option_bind].
  pose proof (dec_fixed_digits 6 (m mod 1000000)) as Hf.
  rewrite (ascii_bytes (dec_fixed 6 _)) by (revert Hf; apply forallb_imply; unfold is_digit; lia). rewrite Hf. cbn [negb].
  pose proof (fixed_length (fun d => 48 + d) 10 6 (m mod 1000000)) as Hl. fold (dec_fixed 6 (m mod 1000000)) in Hl.
  rewrite take_ge, Hl by lia. cbn [Nat.sub replicate]. rewrite app_nil_r. case_bool_decide as E; [by rewrite E in Hl|].
  rewrite dec_fixed_parse by (try divlia; cbn; unfold u64_MAX; divlia). cbn [mbind option_bind].
  unfold checked_u64. rewrite (proj2 (Z.leb_le _ _)) by divlia. cbn [mbind option_bind].
  replace (m / 1000000 * 1000000 + m mod 1000000) with m by divlia. by rewrite (proj2 (Z.leb_le _ _)) by lia.
Qed.

Lemma frame_id_parts f : 0 <= id f < 2 ^ 29 ->
  Z.land (raw_id f) 0x1FFFFFFF = id f /\ negb (Z.land (raw_id f) 0x20000000 =? 0) = error_flag f.
Proof.
  intros Hi. unfold raw_id. split.
  - change 0x1FFFFFFF with (Z.ones 29). rewrite Z.land_ones by lia.
    destruct (error_flag f); [|by rewrite Z.add_0_r, Z.mod_small].
    replace (id f + 2 ^ 29) with (id f + 1 * 2 ^ 29) by lia. by rewrite Z_mod_plus_full, Z.mod_small.
  - change 0x20000000 with (2 ^ 29). rewrite land_flag by lia. apply negb_involutive.
Qed.

Lemma body_parse f : expressible f ->
  parse_candump_frame (print_body f) = Some (id f, extended f, fd f, kind f, data f).
Proof.
  intros ((_ & Hi & Hu & Hl & Hk & Hr & He & _) & _ & _ & Hs). unfold parse_candump_frame, print_body. cbn [app].
  destruct (frame_id_parts f ltac:(lia)) as [Hid Hflag].
  assert (Hraw : 0 <= raw_id f < 16 ^ Z.of_nat (if extended f then 8 else 3)%nat /\ raw_id f <= u32_MAX).
  { unfold raw_id, error_flag, u32_MAX. case_bool_decide as E.
    - rewrite He by done. change (Z.of_nat 8) with 8. lia.
    - destruct (extended f); [change (Z.of_nat 8) with 8; lia|]. change (Z.of_nat 3) with 3. specialize (Hs eq_refl). lia. }
  pose proof (hex_fixed_chars (if extended f then 8 else 3) (raw_id f)) as Hc.
  rewrite split_once_at; [|revert Hc; apply hexadecimal_avoids; unfold hexadecimal; intros c ->; cbn; lia|done].
  assert (Hz : zlen (hex_fixed (if extended f then 8 else 3) (raw_id f)) = if extended f then 8 else 3)
    by (unfold zlen, hex_fixed; rewrite fixed_length; by destruct (extended f)).
  cbn [mbind option_bind]. rewrite hexadecimal_bytes, Hz, hex_fixed_parse by (try done; destruct (extended f); lia).
  cbn [mbind option_bind]. rewrite Hid, Hflag.
  replace ((_ =? 0) || (8 <? _)) with false by by destruct (extended f).
  replace ((if extended f then 8 else 3) =? 8) with (extended f) by by destruct (extended f).
  destruct (fd f) eqn:Hfd.
  - cbn [strip_char]. change (chr "#" =? chr "#") with true. cbv iota.
    change (drop 1 (chr "0" :: print_payload (data f))) with (print_payload (data f)). rewrite payload_parse by done.
    change (list.head (as_bytes (chr "0" :: print_payload (data f)))) with (Some (chr "0")). cbn.
    replace (64 <? zlen (data f)) with false by lia. destruct (kind f); [done|..]; by specialize (Hk ltac:(done)).
  - destruct (kind f) eqn:Hkind.
    2: { cbn. by rewrite Hr. }
    all: rewrite !payload_strip by done; rewrite payload_parse by done; cbn [mbind option_bind].
    all: replace (8 <? zlen (data f)) with false by lia; unfold error_flag; rewrite Hkind.
    + by rewrite andb_false_r.
    + by rewrite He.
Qed.

(** ** The line and the log *)
Lemma stamp_word m : is_u64 m -> forallb (fun c => is_digit c || (c =? chr ".")) (print_stamp m) = true.
Proof.
  intros Hm. unfold is_u64 in Hm. unfold print_stamp. destruct (digits_show (m / 1000000)) as (s & -> & _ & Hd & _); [divlia|].
  rewrite !forallb_app. cbn [forallb]. rewrite Z.eqb_refl, orb_true_r. cbn [andb].
  pose proof (dec_fixed_digits 6 (m mod 1000000)) as Hf.
  by rewrite !(forallb_imply is_digit) by (done || intros c ->; done).
Qed.
Lemma body_ends f : exists r b, print_body f = r ++ [b] /\ forallb (fun c => negb (is_whitespace c)) (print_body f) = true /\ is_whitespace b = false /\ b <> 13.
Proof.
  assert (Hw : forallb (fun c => negb (is_whitespace c)) (print_body f) = true).
  { unfold print_body. pose proof (hexadecimal_word _ (hex_fixed_chars (if extended f then 8 else 3) (raw_id f))) as Ha.
    pose proof (hexadecimal_word _ (payload_chars (data f))) as Hb. unfold avoids in *.
    rewrite !forallb_app, Ha. cbn [forallb andb]. change (negb (is_whitespace (chr "#"))) with true. cbn [andb].
    by destruct (fd f), (kind f); cbn. }
  destruct (print_body f) as [|c s] eqn:E using rev_ind.
  { unfold print_body in E. by apply app_eq_nil in E as [_ [??]%app_eq_nil]. }
  exists s, c. split; [done|]. split; [done|]. rewrite forallb_app in Hw. cbn in Hw.
  apply andb_true_iff in Hw as [_ Hc]. rewrite andb_true_r in Hc. apply negb_true_iff in Hc. split; [done|]. by intros ->.
Qed.
Definition stamp_token (f : FrameRecord) : Text := chr "(" :: print_stamp (timestamp_micros f) ++ [chr ")"].
Lemma stamp_token_word f : is_u64 (timestamp_micros f) -> word (stamp_token f).
Proof.
  intros Hm. split; [done|]. unfold stamp_token. rewrite avoids_cons, avoids_app. apply andb_true_iff. split; [done|].
  rewrite andb_true_r. generalize (stamp_word _ Hm). apply forallb_imply. intros c.
  unfold is_digit, is_whitespace. change (chr ".") with 46. lia.
Qed.
Lemma print_line_parts f : print_line f = stamp_token f ++ 32 :: channel f ++ 32 :: print_body f.
Proof. unfold print_line, stamp_token. cbn [app]. rewrite <- app_assoc. done. Qed.
Lemma print_line_split f : expressible f ->
  trim (print_line f) = print_line f /\ split_whitespace (print_line f) = [stamp_token f; channel f; print_body f] /\
  line_ok (print_line f).
Proof.
  intros ((Hts & _) & Hch & _). pose proof (stamp_token_word f Hts) as Hst.
  destruct (body_ends f) as (r & b & Hb & Hw & Hbs & Hcr).
  assert (Hbw : word (print_body f)) by (split; [by rewrite Hb; destruct r|done]).
  assert (Hend : print_line f = chr "(" :: (print_stamp (timestamp_micros f) ++ [chr ")"] ++ 32 :: channel f ++ 32 :: r) ++ [b]).
  { rewrite print_line_parts, Hb. unfold stamp_token. cbn [app]. rewrite <- !app_assoc. cbn [app].
    by rewrite <- app_assoc. }
  split; [rewrite Hend; by apply trim_line|]. split.
  - rewrite print_line_parts, !split_whitespace_word by done. by rewrite split_whitespace_last.
  - split; [|by eexists (_ :: _), b; split; [exact Hend|]].
    rewrite print_line_parts, !avoids_app, !avoids_cons, !avoids_app, !avoids_cons. change (negb (32 =? 10)) with true.
    assert (Hlf : forall c, (c =? 10) = true -> is_whitespace c = true) by (intros c ->%Z.eqb_eq; done).
    rewrite (avoids_impl _ is_whitespace (stamp_token f)), (avoids_impl _ is_whitespace (channel f)),
      (avoids_impl _ is_whitespace (print_body f)); try first [exact Hlf|apply Hst|apply Hch|apply Hbw|done].
Qed.
Lemma candump_line_printed f st n : expressible f -> candump_line st n (print_line f) = Ok (st, Some f).
Proof.
  intros Hf. destruct (print_line_split f Hf) as (Ht & Hs & _ & r & b & Hl & _). unfold candump_line. rewrite Ht, Hs.
  rewrite bool_decide_eq_false_2 by (rewrite Hl; by destruct r).
  unfold stamp_token. change (strip_char (chr "(") (chr "(" :: ?s)) with (Some s). cbn [mbind option_bind].
  rewrite strip_suffix_snoc. cbn [mbind option_bind]. rewrite stamp_parse by apply Hf. cbn [ok_or mbind Result_bind].
  rewrite body_parse by done. cbn. destruct f. destruct Hf as (_ & _ & Hd & _). cbn in *. by subst.
Qed.

(** A capture written as a [candump -l] log is read back frame by frame as it
    was: time stamps to the microsecond, interfaces, identifiers of both widths, FD,
    remote and error frames, and payloads. *)
Theorem candump_roundtrip fs : Forall expressible fs -> parse Candump (print fs) = Ok fs.
Proof.
  intros Hfs. unfold parse, parse_lines, print. change (?g <$> fs) with (compose (fun l => l ++ [10]) print_line <$> fs).
  rewrite list_fmap_compose, lines_unlines.
  - generalize 1. induction Hfs as [|f fs Hf _ IH]; intros n; [done|]. rewrite fmap_cons. cbn [each_line].
    rewrite candump_line_printed by done. cbn. by rewrite IH.
  - apply Forall_fmap. eapply list.Forall_impl; [exact Hfs|]. intros f Hf. apply (print_line_split f Hf).
Qed.
Definition sample_capture : list FrameRecord := [
  mkFrameRecord 1633072800123456 (t "can0") 0x123 false false Data [0xDE; 0xAD; 0xBE; 0xEF] None;
  mkFrameRecord 1633072800234567 (t "can0") 0x18FEF100 true false Data [1; 2; 3; 4; 5; 6; 7; 8] None;
  mkFrameRecord 1633072800345678 (t "can1") 0x200 false false Remote [] None;
  mkFrameRecord 7 (t "vcan0") 0x80 true false Error [0; 8] None;
  mkFrameRecord 18446744073709551615 (t "can0") 0x7FF false true Data [0x11; 0x22] None].
Lemma candump_roundtrip_witness :
  Forall expressible sample_capture /\ parse Candump (print sample_capture) = Ok sample_capture.
Proof.
  assert (H : Forall expressible sample_capture).
  { repeat constructor; cbn; unfold is_u64, is_u8, u8_MAX, u64_MAX; try lia; try done. }
  split; [exact H|]. exact (candump_roundtrip sample_capture H).
Defined.
Example print_ex : print [mkFrameRecord 1633072800123456 (t "can0") 0x123 false false Data [0xDE; 0xAD] None]
  = t "(1633072800.123456) can0 123#DEAD" ++ [10].
Proof. vm_compute. reflexivity. Qed.
