(* ===== verification/Analysis.v ===== *)
(** * Analysis of captures

    Models [crates/hf-automotive/src/analysis.rs] over the frames of [Capture]:
    statistics of a bus, bytes that change and the difference of two captures
    ([UdsAnalysis] has the diagnostic conversations).  [BTreeMap] and [BTreeSet] are
    those of [Ordered]; counters are [usize] values no larger than the number of
    frames. *)
From S2P Require Import Prelude Text Ordered Capture.
From S2P Require Provider.
From stdpp Require sorting.

(** ** Identities *)
Record FrameIdentity := mkIdentity { identity_id : Z; identity_extended : bool }.
#[export] Instance FrameIdentity_eq_dec : EqDecision FrameIdentity.
Proof. solve_decision. Defined.
Definition identity (f : FrameRecord) : FrameIdentity := mkIdentity (id f) (extended f).

(** The derived orders: fields in turn, variants in the order they are declared. *)
#[export] Program Instance Ordered_bool : Ordered bool := Ordered_via Z.b2z _.
Next Obligation. by intros [] []. Qed.
#[export] Program Instance Ordered_FrameIdentity : Ordered FrameIdentity :=
  Ordered_via (fun i => (identity_id i, identity_extended i)) _.
Next Obligation. intros [] []. cbn. congruence. Qed.
(** ** Bus statistics *)
Record IdStats := mkIdStats { stats_identity : FrameIdentity; count : Z; avg_period_micros : option Z }.
Record BusStats := mkBusStats {
  frame_count : Z;
  unique_ids : Z;
  first_micros : Z;
  last_micros : Z;
  duration_micros : Z;
  frames_per_second : SpecFloat.spec_float;
  per_id : list IdStats;
}.

Definition average_period (sorted : list Z) : option Z :=
  if zlen sorted <? 2 then None
  else
    last ← list.last sorted; first ← head sorted;
    Some ((last - first) / (zlen sorted - 1)).
Definition push_value {A} (o : option (list A)) (a : A) : list A := default [] o ++ [a].
Definition stats_step (acc : Z * Z * BTreeMap FrameIdentity (list Z)) (f : FrameRecord) :
    Z * Z * BTreeMap FrameIdentity (list Z) :=
  let '(first, last, timestamps) := acc in
  (Z.min first (timestamp_micros f), Z.max last (timestamp_micros f),
   entry (fun o => push_value o (timestamp_micros f)) (identity f) timestamps).
Definition id_stats (entry : FrameIdentity * list Z) : IdStats :=
  let stamps := sorting.merge_sort Z.le entry.2 in
  mkIdStats entry.1 (zlen stamps) (average_period stamps).
Definition bus_stats (frames : list FrameRecord) : BusStats :=
  if bool_decide (frames = []) then mkBusStats 0 0 0 0 0 (Provider.f64_of 0) []
  else
    let '(first, last, timestamps) := fold_left stats_step frames (u64_MAX, 0, []) in
    let duration := saturating_sub last first in
    let frames_per_second :=
      if duration =? 0 then Provider.f64_of 0
      else Provider.f64_div (Provider.f64_of (zlen frames))
             (Provider.f64_div (Provider.f64_of duration) (Provider.f64_of 1000000)) in
    let per_id := id_stats <$> timestamps in
    mkBusStats (zlen frames) (zlen per_id) first last duration frames_per_second per_id.

(** ** Change maps *)
Record ChangeMap := mkChangeMap {
  map_identity : FrameIdentity;
  observations : Z;
  byte_changed : list bool;
  distinct_values : list Z;
}.
(** The bytes seen at a position, and the number of payloads that have one. *)
Definition see (position : nat) (acc : BTreeSet Z * Z) (payload : list Z) : BTreeSet Z * Z :=
  match payload !! position with
  | Some byte => (insert_elem byte acc.1, acc.2 + 1)
  | None => acc
  end.
Definition seen_at (position : nat) (payloads : list (list Z)) : BTreeSet Z * Z :=
  fold_left (see position) payloads ([], 0).
Definition width (payloads : list (list Z)) : nat := foldr Nat.max 0%nat (length <$> payloads).
Definition change_map (entry : FrameIdentity * list (list Z)) : ChangeMap :=
  let '(identity, observations) := entry in
  let positions := seq 0 (width observations) in
  mkChangeMap identity (zlen observations)
    ((fun position =>
        let '(seen, present) := seen_at position observations in
        (1 <? zlen seen) || negb (present =? zlen observations)) <$> positions)
    ((fun position => zlen (seen_at position observations).1) <$> positions).
Definition change_maps (frames : list FrameRecord) : list ChangeMap :=
  change_map <$> group identity (fun o f => push_value o (data f)) frames.

(** ** Differences *)
Record CaptureDiff := mkDiff {
  only_in_first : list FrameIdentity;
  only_in_second : list FrameIdentity;
  changed : list FrameIdentity;
}.
Definition payload_sets (frames : list FrameRecord) : BTreeMap FrameIdentity (BTreeSet (list Z)) :=
  group identity (fun o f => insert_elem (data f) (default [] o)) frames.
(** What the loop over the first capture does with one identity. *)
Definition compare_entry (b : BTreeMap FrameIdentity (BTreeSet (list Z))) (acc : list FrameIdentity * list FrameIdentity)
    (e : FrameIdentity * BTreeSet (list Z)) : list FrameIdentity * list FrameIdentity :=
  let '(only, changed) := acc in
  match get e.1 b with
  | None => (only ++ [e.1], changed)
  | Some other => if bool_decide (other <> e.2) then (only, changed ++ [e.1]) else (only, changed)
  end.
Definition contains_key {K V} `{Ordered K} (k : K) (m : BTreeMap K V) : bool := bool_decide (is_Some (get k m)).
Definition diff (first second : list FrameRecord) : CaptureDiff :=
  let a := payload_sets first in
  let b := payload_sets second in
  let '(only_in_first, changed) := fold_left (compare_entry b) a ([], []) in
  mkDiff only_in_first (List.filter (fun i => negb (contains_key i a)) (keys b)) changed.

(** The cases of the module's own tests. *)
Definition capture (ls : list string) : list FrameRecord :=
  match parse Candump (unlines ls) with Ok fs => fs | Err _ => [] end.
Example bus_stats_ex :
  let s := bus_stats (capture ["(1.000000) can0 100#00"; "(1.100000) can0 100#01"; "(1.200000) can0 200#AA"]) in
  (frame_count s, unique_ids s, duration_micros s, per_id s)
  = (3, 2, 200000, [mkIdStats (mkIdentity 0x100 false) 2 (Some 100000); mkIdStats (mkIdentity 0x200 false) 1 None]).
Proof. vm_compute. reflexivity. Qed.
Example change_maps_ex :
  change_maps (capture ["(1.0) can0 123#AA0011"; "(1.1) can0 123#AA0022"; "(1.2) can0 123#AA0033"])
  = [mkChangeMap (mkIdentity 0x123 false) 3 [false; false; true] [1; 1; 3]]
  /\ change_maps (capture ["(1.0) can0 123#AA"; "(1.1) can0 123#AABB"])
  = [mkChangeMap (mkIdentity 0x123 false) 2 [false; true] [1; 1]].
Proof. vm_compute. done. Qed.
Example diff_ex :
  diff (capture ["(1.0) can0 100#00"; "(1.0) can0 200#AA"]) (capture ["(1.0) can0 100#01"; "(1.0) can0 300#BB"])
  = mkDiff [mkIdentity 0x200 false] [mkIdentity 0x300 false] [mkIdentity 0x100 false].
Proof. vm_compute. done. Qed.
(** ** Sets and groups of frames *)
Definition of_id (i : FrameIdentity) (frames : list FrameRecord) : list FrameRecord :=
  filter (fun f => identity f = i) frames.

Lemma set_ext {K} `{Ordered K} (a b : BTreeSet K) : ordered a -> ordered b -> (forall k, k ∈ keys a <-> k ∈ keys b) -> a = b.
Proof.
  intros Ha Hb Hk. apply ordered_ext; [done..|]. intros k. specialize (Hk k). rewrite <- !get_key in Hk by done.
  destruct (get k a) as [[]|], (get k b) as [[]|]; try done; exfalso; naive_solver.
Qed.
Definition to_set {A K} `{Ordered K} (f : A -> K) (l : list A) : BTreeSet K := fold_left (fun s a => insert_elem (f a) s) l [].
Lemma to_set_spec {A K} `{Ordered K} (f : A -> K) l :
  ordered (to_set f l) /\ forall k, k ∈ keys (to_set f l) <-> k ∈ f <$> l.
Proof.
  unfold to_set. induction l as [|a l IH] using rev_ind; [split; [apply ordered_nil|done]|].
  rewrite fold_left_app. cbn [fold_left]. destruct IH as [IHo IHk]. split; [by apply ordered_entry|]. intros k.
  unfold insert_elem, insert_key. rewrite keys_entry, IHk, fmap_app. set_solver.
Qed.

(** The value of a group that only gathers is what a fold from the empty one gathers. *)
Lemma group_value_fold {A V} (empty : V) (step : V -> A -> V) (l : list A) :
  group_value (fun o a => step (default empty o) a) l = if bool_decide (l = []) then None else Some (fold_left step l empty).
Proof.
  unfold group_value. induction l as [|a l IH] using rev_ind; [done|]. rewrite !fold_left_app, IH. cbn.
  rewrite (bool_decide_eq_false_2 (l ++ [a] = [])) by (by destruct l). by case_bool_decide as E; [subst|].
Qed.
Lemma push_values {A B} (g : A -> B) l : forall acc, fold_left (fun o a => o ++ [g a]) l acc = acc ++ (g <$> l).
Proof.
  induction l as [|a l IH]; intros acc; cbn; [by rewrite app_nil_r|]. rewrite IH, <- app_assoc. done.
Qed.
Lemma get_group_fold {V} (empty : V) (step : V -> FrameRecord -> V) i frames :
  get i (group identity (fun o f => step (default empty o) f) frames)
  = if bool_decide (of_id i frames = []) then None else Some (fold_left step (of_id i frames) empty).
Proof. rewrite get_group. apply group_value_fold. Qed.
Lemma of_id_nil i frames : of_id i frames = [] <-> i ∉ identity <$> frames.
Proof.
  unfold of_id. rewrite list_elem_of_fmap. split.
  - intros E (f & -> & Hf). apply (not_elem_of_nil (A := FrameRecord) f). rewrite <- E. by apply list_elem_of_filter.
  - intros Hn. destruct (filter _ frames) as [|f l] eqn:E; [done|]. exfalso. apply Hn. exists f.
    assert (f ∈ filter (fun f => identity f = i) frames) as [? ?]%list_elem_of_filter by (rewrite E; left). done.
Qed.

(** ** The difference of two captures *)
Definition seen (i : FrameIdentity) (frames : list FrameRecord) : Prop := i ∈ identity <$> frames.
#[export] Instance seen_dec i frames : Decision (seen i frames).
Proof. unfold seen. apply _. Defined.
Definition carried (i : FrameIdentity) (frames : list FrameRecord) (payload : list Z) : Prop :=
  payload ∈ data <$> of_id i frames.

Lemma get_payload_sets i frames :
  get i (payload_sets frames) = if bool_decide (of_id i frames = []) then None else Some (to_set data (of_id i frames)).
Proof. apply (get_group_fold [] (fun s f => insert_elem (data f) s)). Qed.
Lemma payload_sets_ordered frames : ordered (payload_sets frames).
Proof. apply group_ordered. Qed.
Lemma payload_sets_keys i frames : i ∈ keys (payload_sets frames) <-> seen i frames.
Proof. apply group_keys. Qed.
Lemma payload_sets_None i frames : get i (payload_sets frames) = None <-> ~ seen i frames.
Proof. by rewrite get_absent, payload_sets_keys by apply payload_sets_ordered. Qed.
Lemma payload_sets_Some i frames s : get i (payload_sets frames) = Some s ->
  ordered s /\ (forall p, p ∈ keys s <-> carried i frames p).
Proof. rewrite get_payload_sets. case_bool_decide; [done|]. intros [= <-]. apply to_set_spec. Qed.

Definition differs (b : BTreeMap FrameIdentity (BTreeSet (list Z))) (e : FrameIdentity * BTreeSet (list Z)) : bool :=
  match get e.1 b with Some other => bool_decide (other <> e.2) | None => false end.
Lemma compare_entries b a : forall only changed,
  fold_left (compare_entry b) a (only, changed)
  = (only ++ (List.filter (fun e => negb (contains_key e.1 b)) a).*1, changed ++ (List.filter (differs b) a).*1).
Proof.
  induction a as [|e a IH]; intros only changed; cbn [fold_left List.filter]; [by rewrite !app_nil_r|].
  unfold compare_entry at 2, differs at 1, contains_key at 1. destruct (get e.1 b) as [other|].
  - rewrite (bool_decide_eq_true_2 (is_Some _)) by by eexists. cbn [negb]. case_bool_decide; rewrite IH; cbn; by rewrite <- ?app_assoc.
  - rewrite (bool_decide_eq_false_2 (is_Some _)) by (by intros [? ?]). cbn [negb]. rewrite IH. cbn. by rewrite <- app_assoc.
Qed.
Lemma ascending_filter {K V} `{Ordered K} (p : K * V -> bool) (m : BTreeMap K V) : ordered m -> ascending (List.filter p m).*1.
Proof.
  unfold ordered, ascending, keys. induction m as [|e m IH]; intros Hm; cbn; [constructor|]. inversion Hm as [|? ? Hs Hj]; subst.
  destruct (p e); cbn; [|by apply IH]. constructor; [by apply IH|]. apply list.Forall_forall. intros i Hi.
  apply (proj1 (list.Forall_forall _ _) Hj). apply list_elem_of_fmap in Hi as (x & -> & Hx).
  apply list_elem_of_fmap. exists x. split; [done|]. apply list_elem_of_In, filter_In in Hx as [Hx _]. by apply list_elem_of_In.
Qed.
Lemma ascending_filter_keys {K} `{Ordered K} (p : K -> bool) (l : list K) : ascending l -> ascending (List.filter p l).
Proof.
  unfold ascending. induction 1 as [|k l Hs IH Hk]; cbn; [constructor|]. destruct (p k); [|done]. constructor; [done|].
  apply list.Forall_forall. intros i Hi%list_elem_of_In%filter_In. apply (proj1 (list.Forall_forall _ _) Hk), list_elem_of_In, Hi.
Qed.
Lemma elem_filter_keys {K V} `{Ordered K} (p : K * V -> bool) (m : BTreeMap K V) k : ordered m ->
  k ∈ (List.filter p m).*1 <-> exists v, get k m = Some v /\ p (k, v) = true.
Proof.
  intros Hm. rewrite list_elem_of_fmap. split.
  - intros ([j v] & -> & Hx%list_elem_of_In%filter_In). exists v. rewrite get_pair by done. split; [|apply Hx].
    apply list_elem_of_In, Hx.
  - intros (v & Hv & Hp). exists (k, v). split; [done|]. apply list_elem_of_In, filter_In. split; [|done].
    apply list_elem_of_In. by apply get_pair.
Qed.
Lemma contains_key_spec i frames : contains_key i (payload_sets frames) = true <-> seen i frames.
Proof. unfold contains_key. rewrite bool_decide_eq_true, get_key, payload_sets_keys; [done|apply payload_sets_ordered]. Qed.

(** Comparing two captures reports, in order and without repetition, exactly the
    identities seen in one of them only, and exactly those seen in both whose sets of
    payloads are not the same; a standard and an extended identifier never count as one. *)
Theorem diff_exact a b :
  let d := diff a b in
  (forall i, i ∈ only_in_first d <-> seen i a /\ ~ seen i b) /\
  (forall i, i ∈ only_in_second d <-> seen i b /\ ~ seen i a) /\
  (forall i, i ∈ changed d <-> seen i a /\ seen i b /\ ~ (forall p, carried i a p <-> carried i b p)) /\
  ascending (only_in_first d) /\ ascending (only_in_second d) /\ ascending (changed d).
Proof.
  unfold diff. rewrite compare_entries. cbn [app only_in_first only_in_second changed].
  pose proof (payload_sets_ordered a) as Ha. pose proof (payload_sets_ordered b) as Hb.
  split_and!.
  - intros i. rewrite elem_filter_keys by done. cbn. rewrite <- (payload_sets_keys i a), <- get_key by done.
    rewrite <- (contains_key_spec i b). setoid_rewrite negb_true_iff. setoid_rewrite <- not_true_iff_false. unfold is_Some. naive_solver.
  - intros i. rewrite list_elem_of_In, filter_In, <- list_elem_of_In, payload_sets_keys, <- (contains_key_spec i a).
    by rewrite negb_true_iff, <- not_true_iff_false.
  - intros i. rewrite elem_filter_keys by done. unfold differs. cbn.
    rewrite <- (payload_sets_keys i a), <- (payload_sets_keys i b), <- !get_key by done.
    destruct (get i (payload_sets a)) as [sa|] eqn:Ea; [|unfold is_Some; naive_solver].
    destruct (get i (payload_sets b)) as [sb|] eqn:Eb; [|unfold is_Some; naive_solver].
    apply payload_sets_Some in Ea as [Hoa Hca], Eb as [Hob Hcb]. split.
    + intros (v & [= <-] & Hne%bool_decide_eq_true_1). split_and!; [done..|]. intros Hall. apply Hne, set_ext; [done..|].
      intros k. by rewrite Hca, Hcb, Hall.
    + intros (_ & _ & Hne). exists sa. split; [done|]. apply bool_decide_eq_true_2. intros ->. apply Hne. intros p.
      by rewrite <- Hca, <- Hcb.
  - by apply ascending_filter.
  - by apply ascending_filter_keys.
  - by apply ascending_filter.
Qed.

(** ** Change maps *)
Lemma gathered {A} (g : FrameRecord -> A) frames e :
  e ∈ group identity (fun o f => push_value o (g f)) frames <-> seen e.1 frames /\ e.2 = g <$> of_id e.1 frames.
Proof.
  destruct e as [i v]. rewrite <- get_pair by apply group_ordered. unfold push_value.
  rewrite (get_group_fold [] (fun o f => o ++ [g f])), push_values. cbn [app fst snd].
  case_bool_decide as E; [|assert (seen i frames) by (apply dec_stable; intros Hn%of_id_nil; done)]; [|naive_solver].
  apply of_id_nil in E. naive_solver.
Qed.
Lemma grouped_identities {A B} (g : FrameRecord -> A) (h : FrameIdentity * list A -> B) (label : B -> FrameIdentity) frames :
  (forall e, label (h e) = e.1) ->
  let m := h <$> group identity (fun o f => push_value o (g f)) frames in
  ascending (label <$> m) /\ forall i, i ∈ label <$> m <-> seen i frames.
Proof.
  intros Hl m. subst m. rewrite <- list_fmap_compose.
  rewrite (list_fmap_ext (label ∘ h) fst) by (intros ? e _; apply Hl). split.
  - apply group_ordered.
  - intros i. apply group_keys.
Qed.

Definition bytes_at (position : nat) (payloads : list (list Z)) : list Z := omap (fun p => p !! position) payloads.
Lemma seen_at_spec position payloads :
  seen_at position payloads = (to_set (fun b => b) (bytes_at position payloads), zlen (bytes_at position payloads)).
Proof.
  unfold seen_at, bytes_at. induction payloads as [|p l IH] using rev_ind; [done|].
  rewrite fold_left_app, IH, omap_app. cbn. unfold see. destruct (p !! position); cbn; [|by rewrite !app_nil_r].
  unfold to_set. rewrite fold_left_app, zlen_app. done.
Qed.
Lemma zlen_distinct {A} (l : list A) : NoDup l -> 1 < zlen l -> exists a b, a ∈ l /\ b ∈ l /\ a <> b.
Proof.
  destruct l as [|a [|b l]]; unfold zlen; cbn; [lia..|]. intros Hd _. exists a, b. inversion Hd as [|? ? Ha]; subst. set_solver.
Qed.
Lemma distinct_zlen {A} (l : list A) a b : a ∈ l -> b ∈ l -> a <> b -> 1 < zlen l.
Proof. destruct l as [|x [|y l]]; unfold zlen; cbn; [set_solver..|lia]. Qed.
Lemma set_size (l : list Z) : zlen (to_set (fun b => b) l) = Z.of_nat (size (list_to_set l : gset Z)).
Proof.
  destruct (to_set_spec (fun b : Z => b) l) as [Ho Hk]. pose proof (ordered_NoDup _ Ho) as Hd.
  replace (list_to_set l : gset Z) with (list_to_set (keys (to_set (fun b => b) l)) : gset Z).
  - rewrite size_list_to_set by done. unfold keys, zlen. by rewrite length_fmap.
  - apply set_eq. intros b. rewrite !elem_of_list_to_set, Hk, list_fmap_id. done.
Qed.
Lemma omap_all {A B} (f : A -> option B) l : length (omap f l) = length l <-> forall a, a ∈ l -> is_Some (f a).
Proof.
  assert (Hle : forall l, (length (omap f l) <= length l)%nat) by (clear; intros l; induction l as [|a l IH]; cbn; [|case_match; cbn]; lia).
  induction l as [|a l IH]; cbn; [split; [set_solver|done]|]. specialize (Hle l).
  destruct (f a) eqn:E; cbn; rewrite ?IH.
  - split; [|intros Hall; f_equal; apply IH; set_solver]. intros [= Hl]. rewrite IH in Hl. set_solver.
  - split; [lia|]. intros Hall. destruct (Hall a ltac:(left)) as [? ?]. congruence.
Qed.
Lemma width_reached payloads position : (position < width payloads)%nat -> exists p, p ∈ payloads /\ is_Some (p !! position).
Proof.
  unfold width. induction payloads as [|p l IH]; cbn; [lia|]. intros Hlt.
  destruct (Nat.lt_ge_cases position (length p)) as [Hp|Hp].
  - exists p. split; [left|]. by apply lookup_lt_is_Some_2.
  - destruct IH as (q & Hq & Hs); [lia|]. exists q. split; [by right|done].
Qed.
Lemma byte_changes payloads position : (position < width payloads)%nat ->
  let '(seen, present) := seen_at position payloads in
  (1 <? zlen seen) || negb (present =? zlen payloads) = true
  <-> exists p q, p ∈ payloads /\ q ∈ payloads /\ p !! position <> q !! position.
Proof.
  intros Hw. rewrite seen_at_spec. destruct (to_set_spec (fun b : Z => b) (bytes_at position payloads)) as [Ho Hk].
  set (s := to_set _ _) in *. rewrite orb_true_iff, negb_true_iff, Z.ltb_lt, Z.eqb_neq.
  assert (Hin : forall b, b ∈ keys s <-> exists p, p ∈ payloads /\ p !! position = Some b).
  { intros b. rewrite Hk, list_fmap_id. apply list_elem_of_omap. }
  assert (Hks : zlen (keys s) = zlen s) by (unfold keys, zlen; by rewrite length_fmap).
  split.
  - intros [Hs|Hp].
    + rewrite <- Hks in Hs. destruct (zlen_distinct _ (ordered_NoDup _ Ho) Hs) as (a & b & (p & Hp & Ea)%Hin & (q & Hq & Eb)%Hin & Hne).
      exists p, q. rewrite Ea, Eb. split_and!; [done..|congruence].
    + destruct (width_reached _ _ Hw) as (p & Hp' & [b Hb]).
      destruct (decide (Exists (fun q => q !! position = None) payloads)) as [(q & Hq & E)%list.Exists_exists|Hn].
      { exists p, q. rewrite Hb, E. done. }
      exfalso. apply Hp. unfold zlen. f_equal. apply omap_all. intros q Hq. apply not_eq_None_Some. intros E.
      apply Hn, list.Exists_exists. by exists q.
  - intros (p & q & Hp & Hq & Hne). destruct (decide (zlen (bytes_at position payloads) = zlen payloads)) as [E|]; [left|by right].
    unfold zlen in E. apply Nat2Z.inj in E. pose proof (proj1 (omap_all _ _) E) as Hall.
    destruct (Hall p Hp) as [a Ea], (Hall q Hq) as [b Eb]. rewrite <- Hks. apply (distinct_zlen _ a b).
    + apply Hin. eauto.
    + apply Hin. eauto.
    + congruence.
Qed.

(** A change map flags a byte position of an identity exactly when two of its
    frames differ there, in value or in having the byte at all, and counts the distinct
    values seen there; there is one map for each identity, in order, as wide as its
    longest payload. *)
Theorem change_maps_exact frames :
  let maps := change_maps frames in
  ascending (map_identity <$> maps) /\ (forall i, i ∈ map_identity <$> maps <-> seen i frames) /\
  forall m, m ∈ maps ->
    let payloads := data <$> of_id (map_identity m) frames in
    observations m = zlen payloads /\
    length (byte_changed m) = width payloads /\ length (distinct_values m) = width payloads /\
    forall position, (position < width payloads)%nat ->
      (byte_changed m !! position = Some true
       <-> exists p q, p ∈ payloads /\ q ∈ payloads /\ p !! position <> q !! position) /\
      distinct_values m !! position = Some (Z.of_nat (size (list_to_set (bytes_at position payloads) : gset Z))).
Proof.
  unfold change_maps. destruct (grouped_identities data change_map map_identity frames) as [Ha Hs]; [by intros [? ?]|].
  split; [done|]. split; [done|]. intros m ([i payloads] & -> & [_ Hp]%gathered)%list_elem_of_fmap. cbn in Hp.
  cbn [change_map map_identity observations byte_changed distinct_values]. rewrite <- Hp, !length_fmap, length_seq.
  split_and!; [done..|]. intros position Hw. rewrite !list_lookup_fmap, lookup_seq_lt by done. cbn.
  pose proof (byte_changes payloads position Hw) as Hc. split.
  - destruct (seen_at position payloads). rewrite <- Hc. split; [by intros [= E]|intros E; by rewrite E].
  - rewrite seen_at_spec. cbn [fst]. by rewrite set_size.
Qed.

(** ** Bus statistics *)
Definition stamps_of (frames : list FrameRecord) : list Z := timestamp_micros <$> frames.
Lemma stats_fold frames : forall lo hi m,
  fold_left stats_step frames (lo, hi, m)
  = (fold_left Z.min (stamps_of frames) lo, fold_left Z.max (stamps_of frames) hi,
     fold_left (group_step identity (fun o f => push_value o (timestamp_micros f))) frames m).
Proof. induction frames as [|f frames IH]; intros lo hi m; cbn; [done|]. by rewrite IH. Qed.
Lemma fold_min l : forall a, let m := fold_left Z.min l a in m <= a /\ (forall x, x ∈ l -> m <= x) /\ (m = a \/ m ∈ l).
Proof.
  induction l as [|x l IH]; intros a; cbn; [split_and!; [lia|set_solver|by left]|].
  destruct (IH (Z.min a x)) as (Ha & Hl & Hin). split; [lia|]. split.
  - intros y [->|Hy]%elem_of_cons; [lia|by apply Hl].
  - destruct Hin as [E|E]; [|right; by right]. rewrite E. destruct (Z.min_spec a x) as [[_ ->]|[_ ->]]; [by left|right; by left].
Qed.
Lemma fold_max l a : fold_left Z.max l a = - fold_left Z.min (Z.opp <$> l) (- a).
Proof.
  revert a. induction l as [|x l IH]; intros a; cbn; [lia|]. rewrite IH. do 2 f_equal. lia.
Qed.
Lemma fold_max_spec l a : let m := fold_left Z.max l a in a <= m /\ (forall x, x ∈ l -> x <= m) /\ (m = a \/ m ∈ l).
Proof.
  cbn. rewrite fold_max. destruct (fold_min (Z.opp <$> l) (- a)) as (Ha & Hl & Hin). split; [lia|]. split.
  - intros x Hx. specialize (Hl (- x)). rewrite list_elem_of_fmap in Hl. lapply Hl; [lia|]. by exists x.
  - destruct Hin as [->|(y & Hy & Hin)%list_elem_of_fmap]; [left; lia|]. right. by replace (- _) with y by lia.
Qed.

Lemma average_sorted l : StronglySorted Z.le l ->
  (zlen l < 2 -> average_period l = None) /\
  forall lo hi, 2 <= zlen l -> lo ∈ l -> hi ∈ l -> (forall x, x ∈ l -> lo <= x <= hi) ->
    average_period l = Some ((hi - lo) / (zlen l - 1)).
Proof.
  intros Hs. unfold average_period. split; [intros Hl; by replace (zlen l <? 2) with true by lia|].
  intros lo hi Hl Hlo Hhi Hb. replace (zlen l <? 2) with false by lia.
  destruct l as [|a l _] using rev_ind; [by apply not_elem_of_nil in Hlo|]. rewrite last_snoc. cbn [mbind option_bind].
  assert (Ha : a = hi).
  { apply Z.le_antisymm; [apply Hb; set_solver|]. apply elem_of_app in Hhi as [Hhi|Hhi]; [|set_solver].
    by apply (sorting.StronglySorted_app_1_elem_of Z.le l [a]) with (x1 := hi) (x2 := a) in Hs; [|set_solver..]. }
  subst a. destruct l as [|b l]; [unfold zlen in Hl; cbn in Hl; lia|]. cbn [app head mbind option_bind]. do 3 f_equal.
  apply Z.le_antisymm; [|apply (Hb b); left]. cbn in Hs. inversion Hs as [|? ? _ Hall]; subst.
  apply elem_of_cons in Hlo as [->|Hlo]; [done|]. by apply (proj1 (list.Forall_forall _ _) Hall).
Qed.
Lemma id_stats_spec e : let s := id_stats e in
  stats_identity s = e.1 /\ count s = zlen e.2 /\ (zlen e.2 < 2 -> avg_period_micros s = None) /\
  forall lo hi, 2 <= zlen e.2 -> lo ∈ e.2 -> hi ∈ e.2 -> (forall x, x ∈ e.2 -> lo <= x <= hi) ->
    avg_period_micros s = Some ((hi - lo) / (zlen e.2 - 1)).
Proof.
  cbn. pose proof (sorting.merge_sort_Permutation Z.le e.2) as Hp.
  assert (Hz : zlen (sorting.merge_sort Z.le e.2) = zlen e.2) by (unfold zlen; by rewrite Hp).
  destruct (average_sorted (sorting.merge_sort Z.le e.2)) as [Hn Ha]; [apply sorting.StronglySorted_merge_sort; apply _|].
  rewrite Hz in *. split_and!; [done..|]. intros lo hi Hl Hlo Hhi Hb. apply Ha; rewrite ?Hp; [done..|].
  intros x. rewrite Hp. apply Hb.
Qed.

(** The statistics of a capture count its frames, list every identity once, in
    order, with the number of its frames and their mean distance (none for a single
    frame), and give the earliest and the latest time stamp and the span between. *)
Theorem bus_stats_exact frames :
  frames <> [] -> Forall (fun f => is_u64 (timestamp_micros f)) frames ->
  let s := bus_stats frames in
  frame_count s = zlen frames /\ unique_ids s = zlen (per_id s) /\
  ascending (stats_identity <$> per_id s) /\ (forall i, i ∈ stats_identity <$> per_id s <-> seen i frames) /\
  first_micros s ∈ stamps_of frames /\ last_micros s ∈ stamps_of frames /\
  (forall x, x ∈ stamps_of frames -> first_micros s <= x <= last_micros s) /\
  duration_micros s = last_micros s - first_micros s /\
  forall e, e ∈ per_id s ->
    let stamps := stamps_of (of_id (stats_identity e) frames) in
    count e = zlen stamps /\ (zlen stamps < 2 -> avg_period_micros e = None) /\
    forall lo hi, 2 <= zlen stamps -> lo ∈ stamps -> hi ∈ stamps -> (forall x, x ∈ stamps -> lo <= x <= hi) ->
      avg_period_micros e = Some ((hi - lo) / (zlen stamps - 1)).
Proof.
  intros Hne Hu. unfold bus_stats. rewrite bool_decide_eq_false_2, stats_fold by done.
  change (fold_left (group_step ?k ?u) frames []) with (group k u frames). cbn.
  destruct (fold_min (stamps_of frames) u64_MAX) as (_ & Hmin & Hm).
  destruct (fold_max_spec (stamps_of frames) 0) as (_ & Hmax & HM).
  assert (Hx : forall x, x ∈ stamps_of frames -> is_u64 x).
  { intros x (f & -> & Hf)%list_elem_of_fmap. by apply (proj1 (list.Forall_forall _ _) Hu). }
  destruct frames as [|f frames]; [done|]. set (all := f :: frames) in *.
  assert (Hf : timestamp_micros f ∈ stamps_of all) by (left).
  assert (Hlo : fold_left Z.min (stamps_of all) u64_MAX ∈ stamps_of all).
  { destruct Hm as [E|]; [|done]. pose proof (Hmin _ Hf). pose proof (Hx _ Hf). unfold is_u64 in *.
    rewrite E. by replace u64_MAX with (timestamp_micros f) by lia. }
  assert (Hhi : fold_left Z.max (stamps_of all) 0 ∈ stamps_of all).
  { destruct HM as [E|]; [|done]. pose proof (Hmax _ Hf). pose proof (Hx _ Hf). unfold is_u64 in *.
    rewrite E. by replace 0 with (timestamp_micros f) by lia. }
  destruct (grouped_identities timestamp_micros id_stats stats_identity all) as [Ha Hs]; [by intros [? ?]|].
  split_and!; try done.
  - intros x Hxx. split; [by apply Hmin|by apply Hmax].
  - unfold saturating_sub. pose proof (Hmin _ Hhi). lia.
  - intros e ([i stamps] & -> & [_ Hst]%gathered)%list_elem_of_fmap. cbn [fst snd] in Hst. unfold stamps_of.
    destruct (id_stats_spec (i, stamps)) as (Hi & Hc & Hn & Hav). cbn [fst snd] in *. rewrite Hi, <- Hst. done.
Qed.
