(* ===== verification/UdsAnalysis.v ===== *)
(** * Diagnostic conversations in a capture

    Models [uds_state_analysis] of [crates/hf-automotive/src/analysis.rs]: every
    stream of a capture has an ISO-TP receiver of its own ([IsoTp]), the messages it
    completes are classified as UDS states, and states and transitions are gathered
    over all streams. *)
From S2P Require Import Prelude Text Ordered Capture Analysis.
From S2P Require IsoTp.

(** ** Streams and states *)
Record UdsStream := mkStream {
  stream_channel : Text;
  stream_identity : FrameIdentity;
  stream_direction : option Direction;
}.
#[export] Instance UdsStream_eq_dec : EqDecision UdsStream.
Proof. solve_decision. Defined.

Inductive UdsState :=
| Request (service : Z) (subfunction : option Z)
| PositiveResponse (service : Z) (subfunction : option Z)
| NegativeResponse (service code : Z)
| Other (service : Z).
#[export] Instance UdsState_eq_dec : EqDecision UdsState.
Proof. solve_decision. Defined.

(** The derived orders: fields in turn, variants in the order they are declared. *)
#[export] Program Instance Ordered_Direction : Ordered Direction :=
  Ordered_via (fun d => match d with Rx => 0 | Tx => 1 end) _.
Next Obligation. by intros [] []. Qed.
#[export] Program Instance Ordered_UdsStream : Ordered UdsStream :=
  Ordered_via (fun s => (stream_channel s, stream_identity s, stream_direction s)) _.
Next Obligation. intros [] []. cbn. congruence. Qed.
#[export] Program Instance Ordered_UdsState : Ordered UdsState :=
  Ordered_via (fun s => match s with
                        | Request i f => (0, i, f)
                        | PositiveResponse i f => (1, i, f)
                        | NegativeResponse i c => (2, i, Some c)
                        | Other i => (3, i, None)
                        end) _.
Next Obligation. intros [] []; cbn; congruence. Qed.

(** ** Diagnostic states *)
Definition classify_uds_state (payload : list Z) : option UdsState :=
  match payload with
  | [] => None
  | service :: rest =>
      if service =? 0x7f then
        match rest with
        | rejected :: code :: _ => Some (NegativeResponse rejected code)
        | _ => Some (Other service)
        end
      else if (0x40 <=? service) && (service <? 0x7f) then Some (PositiveResponse (service - 0x40) (head rest))
      else if service <? 0x40 then Some (Request service (head rest))
      else Some (Other service)
  end.

Record Tracking := mkTracking {
  receivers : BTreeMap UdsStream IsoTp.Reassembler;
  previous : BTreeMap UdsStream UdsState;
  states : BTreeSet (UdsStream * UdsState);
  transitions : BTreeMap (UdsStream * UdsState * UdsState) Z;
  completed_pdus : Z;
  malformed_frames : Z;
}.
Definition stream_of (f : FrameRecord) : UdsStream := mkStream (channel f) (identity f) (direction f).
Definition with_receivers (r : BTreeMap UdsStream IsoTp.Reassembler) (st : Tracking) : Tracking :=
  mkTracking r (previous st) (states st) (transitions st) (completed_pdus st) (malformed_frames st).
Definition malformed (st : Tracking) : Tracking :=
  mkTracking (receivers st) (previous st) (states st) (transitions st) (completed_pdus st) (malformed_frames st + 1).
Definition completed (st : Tracking) : Tracking :=
  mkTracking (receivers st) (previous st) (states st) (transitions st) (completed_pdus st + 1) (malformed_frames st).
Definition observe (stream : UdsStream) (state : UdsState) (st : Tracking) : Tracking :=
  let from := get stream (previous st) in
  mkTracking (receivers st) (insert_key stream state (previous st)) (insert_elem (stream, state) (states st))
    (match from with
     | Some from => entry (fun n => default 0 n + 1) (stream, from, state) (transitions st)
     | None => transitions st
     end)
    (completed_pdus st) (malformed_frames st).
Definition relevant (f : FrameRecord) : bool := bool_decide (kind f = Data) && negb (bool_decide (data f = [])).
Definition track (st : Tracking) (f : FrameRecord) : Tracking :=
  if negb (relevant f) then st
  else
    let stream := stream_of f in
    let receiver := default (IsoTp.new IsoTp.Normal) (get stream (receivers st)) in
    let '(receiver, outcome) := IsoTp.push receiver (data f) in
    let st := with_receivers (insert_key stream receiver (receivers st)) st in
    match outcome with
    | Ok (Some pdu) =>
        let st := completed st in
        match classify_uds_state (IsoTp.data pdu) with
        | None => st
        | Some state => observe stream state st
        end
    | Ok None => st
    | Err _ => malformed st
    end.

Record UdsStateAnalysis := mkAnalysis {
  a_completed_pdus : Z;
  a_malformed_frames : Z;
  unique_states : list (UdsStream * UdsState);
  a_transitions : list (UdsStream * UdsState * UdsState * Z);
}.
Definition uds_state_analysis (frames : list FrameRecord) : UdsStateAnalysis :=
  let st := fold_left track frames (mkTracking [] [] [] [] 0 0) in
  mkAnalysis (completed_pdus st) (malformed_frames st) (keys (states st)) (transitions st).

(** The cases of the module's own tests. *)
Example uds_ex :
  let s := mkStream (t "can0") (mkIdentity 0x7E0 false) None in
  let ask := Request 0x10 (Some 1) in
  let answer := PositiveResponse 0x10 (Some 1) in
  uds_state_analysis (capture ["(1.0) can0 7E0#021001"; "(1.1) can0 7E0#025001"; "(1.2) can0 7E0#021001"; "(1.3) can0 7E0#025001"])
  = mkAnalysis 4 0 [(s, ask); (s, answer)] [(s, ask, answer, 2); (s, answer, ask, 1)]
  /\ uds_state_analysis (capture ["(1.0) can0 7E0#1008"]) = mkAnalysis 0 1 [] [].
Proof. vm_compute. done. Qed.


(** ** What each stream carries *)
Definition on_stream (s : UdsStream) (f : FrameRecord) : Prop := relevant f = true /\ stream_of f = s.
#[export] Instance on_stream_dec s f : Decision (on_stream s f).
Proof. unfold on_stream. apply _. Defined.
Definition payloads (s : UdsStream) (frames : list FrameRecord) : list (list Z) := data <$> filter (on_stream s) frames.
(** The receiver of a stream on its own: [IsoTp.reassemble_all] with its state. *)
Definition receive (s : UdsStream) (frames : list FrameRecord) : IsoTp.Reassembler * list IsoTp.Pdu :=
  fold_left IsoTp.feed (payloads s frames) (IsoTp.new IsoTp.Normal, []).
Definition messages (s : UdsStream) (frames : list FrameRecord) : list IsoTp.Pdu :=
  IsoTp.reassemble_all (payloads s frames) IsoTp.Normal.
(** The states a stream goes through, and the steps between them. *)
Definition decoded (s : UdsStream) (frames : list FrameRecord) : list UdsState :=
  omap (fun p => classify_uds_state (IsoTp.data p)) (messages s frames).
Fixpoint steps (l : list UdsState) : list (UdsState * UdsState) :=
  match l with a :: ((b :: _) as r) => (a, b) :: steps r | _ => [] end.
Definition times (a b : UdsState) (l : list UdsState) : Z := zlen (filter (fun p => p = (a, b)) (steps l)).
(** The frames a receiver refuses. *)
Fixpoint refused (r : IsoTp.Reassembler) (ps : list (list Z)) : Z :=
  match ps with
  | [] => 0
  | p :: ps =>
      let '(r, o) := IsoTp.push r p in
      refused r ps + match o with Err _ => 1 | Ok _ => 0 end
  end.
Definition malformed_on (s : UdsStream) (frames : list FrameRecord) : Z :=
  refused (IsoTp.new IsoTp.Normal) (payloads s frames).
Definition sum (l : list Z) : Z := foldr Z.add 0 l.

Lemma push_error_reset r f r' e : IsoTp.push r f = (r', Err e) -> IsoTp.reset r' = r'.
Proof.
  unfold IsoTp.push, IsoTp.single_frame, IsoTp.first_frame, IsoTp.consecutive_frame, IsoTp.finish.
  repeat (case_match; simplify_eq/=; try done); naive_solver.
Qed.
Lemma feed_push st f : IsoTp.feed st f =
  let '(r, o) := IsoTp.push st.1 f in (r, st.2 ++ match o with Ok (Some pdu) => [pdu] | _ => [] end).
Proof.
  destruct st as [r pdus]. cbn. destruct (IsoTp.push r f) as [r' [[pdu|]|e]] eqn:E; rewrite ?app_nil_r; [done..|].
  by rewrite (push_error_reset _ _ _ _ E).
Qed.
Lemma refused_app ps qs : forall r pdus,
  refused r (ps ++ qs) = refused r ps + refused (fold_left IsoTp.feed ps (r, pdus)).1 qs.
Proof.
  induction ps as [|p ps IH]; intros r pdus; cbn [app refused fold_left]; [done|]. rewrite feed_push. cbn [fst snd].
  destruct (IsoTp.push r p) as [r' o].
  rewrite (IH r' (pdus ++ match o with Ok (Some pdu) => [pdu] | _ => [] end)). lia.
Qed.
Lemma receive_messages s frames : (receive s frames).2 = messages s frames.
Proof. done. Qed.

Lemma payloads_snoc s frames f :
  payloads s (frames ++ [f]) = payloads s frames ++ if decide (on_stream s f) then [data f] else [].
Proof. unfold payloads. rewrite list.filter_app, filter_cons, filter_nil, fmap_app. by case_decide. Qed.
Lemma payloads_other s frames f : ~ on_stream s f -> payloads s (frames ++ [f]) = payloads s frames.
Proof. intros Hn. rewrite payloads_snoc. case_decide; [done|]. by rewrite app_nil_r. Qed.
Lemma steps_snoc l x : steps (l ++ [x]) = steps l ++ match list.last l with Some y => [(y, x)] | None => [] end.
Proof.
  induction l as [|a [|b l] IH]; [done..|]. change (steps ((a :: b :: l) ++ [x])) with ((a, b) :: steps ((b :: l) ++ [x])).
  rewrite IH. done.
Qed.
Lemma times_snoc a b l x :
  times a b (l ++ [x]) = times a b l + if bool_decide (list.last l = Some a /\ x = b) then 1 else 0.
Proof.
  unfold times. rewrite steps_snoc, list.filter_app, zlen_app. f_equal. destruct (list.last l) as [y|].
  - rewrite filter_cons, filter_nil. case_decide as E; case_bool_decide as F; try done; naive_solver.
  - case_bool_decide; naive_solver.
Qed.
Lemma sum_changed {A} (g h : A -> Z) (a : A) d l : NoDup l -> a ∈ l -> (forall x, x <> a -> h x = g x) -> h a = g a + d ->
  sum (h <$> l) = sum (g <$> l) + d.
Proof.
  unfold sum. intros Hd Ha Hother Hh. induction Hd as [|x l Hx _ IH]; [by apply not_elem_of_nil in Ha|]. cbn.
  apply elem_of_cons in Ha as [->|Ha].
  - rewrite Hh. assert (h <$> l = g <$> l) as ->; [|lia]. apply list_fmap_ext. intros i y Hy. apply Hother. intros ->.
    apply Hx. by eapply list_elem_of_lookup_2.
  - rewrite IH by done. rewrite (Hother x) by congruence. lia.
Qed.

(** ** What the analysis has found, stream by stream *)
Record tracks (frames : list FrameRecord) (st : Tracking) : Prop := mk_tracks {
  t_receivers s : default (IsoTp.new IsoTp.Normal) (get s (receivers st)) = (receive s frames).1;
  t_previous s : get s (previous st) = list.last (decoded s frames);
  t_states : ordered (states st) /\ forall s x, (s, x) ∈ keys (states st) <-> x ∈ decoded s frames;
  t_transitions : ordered (transitions st) /\ forall s a b,
    get (s, a, b) (transitions st) = if times a b (decoded s frames) =? 0 then None else Some (times a b (decoded s frames));
  t_completed ss : NoDup ss -> (forall f, f ∈ frames -> relevant f = true -> stream_of f ∈ ss) ->
    completed_pdus st = sum ((fun s => zlen (messages s frames)) <$> ss);
  t_malformed ss : NoDup ss -> (forall f, f ∈ frames -> relevant f = true -> stream_of f ∈ ss) ->
    malformed_frames st = sum ((fun s => malformed_on s frames) <$> ss);
}.

Section one_frame.
Context (frames : list FrameRecord) (f : FrameRecord) (Hf : relevant f = true).
Abbreviation s0 := (stream_of f).
Abbreviation pushed := (IsoTp.push (receive s0 frames).1 (data f)).
Abbreviation completes := (match pushed.2 with Ok (Some pdu) => [pdu] | _ => [] end).

Lemma here : on_stream s0 f.
Proof. done. Qed.
Lemma elsewhere s : s <> s0 -> payloads s (frames ++ [f]) = payloads s frames.
Proof. intros Hs. apply payloads_other. by intros [_ ?]. Qed.
Lemma receive_here : receive s0 (frames ++ [f]) = (pushed.1, (receive s0 frames).2 ++ completes).
Proof.
  unfold receive at 1. rewrite payloads_snoc, decide_True by apply here. rewrite fold_left_app. cbn [fold_left].
  fold (receive s0 frames). rewrite feed_push. by destruct pushed.
Qed.
Lemma messages_here : messages s0 (frames ++ [f]) = messages s0 frames ++ completes.
Proof. rewrite <- !receive_messages, receive_here. done. Qed.
Lemma malformed_here : malformed_on s0 (frames ++ [f]) = malformed_on s0 frames + match pushed.2 with Err _ => 1 | Ok _ => 0 end.
Proof.
  unfold malformed_on. rewrite payloads_snoc, decide_True by apply here. rewrite (refused_app _ _ _ []).
  fold (receive s0 frames). cbn. destruct pushed. done.
Qed.
Lemma decoded_here : decoded s0 (frames ++ [f])
  = decoded s0 frames ++ omap (fun p => classify_uds_state (IsoTp.data p)) completes.
Proof. unfold decoded. by rewrite messages_here, omap_app. Qed.
Lemma decoded_elsewhere s : s <> s0 -> decoded s (frames ++ [f]) = decoded s frames.
Proof. intros Hs. unfold decoded, messages. by rewrite elsewhere. Qed.

(** A relevant frame counts what it completes, and observes the state it decodes. *)
Abbreviation states_found := (omap (fun p => classify_uds_state (IsoTp.data p)) completes).
Definition counted (st : Tracking) : Tracking :=
  mkTracking (insert_key s0 pushed.1 (receivers st)) (previous st) (states st) (transitions st)
    (completed_pdus st + zlen completes) (malformed_frames st + match pushed.2 with Err _ => 1 | Ok _ => 0 end).
Lemma track_relevant st : tracks frames st ->
  track st f = fold_left (fun st x => observe s0 x st) states_found (counted st) /\
  (states_found = [] \/ exists x, states_found = [x]).
Proof.
  intros Ht. unfold track, counted. rewrite Hf, (t_receivers _ _ Ht). cbn [negb].
  destruct pushed as [r [[pdu|]|e]]; cbn [fst snd omap list_omap]; unfold with_receivers, completed, malformed; cbn;
    rewrite ?Z.add_0_r; [destruct (classify_uds_state _); eauto|eauto..].
Qed.
Lemma observed_previous s x st : get s (previous (observe s0 x st)) = if decide (s = s0) then Some x else get s (previous st).
Proof. cbn. case_decide as E; [subst; apply get_entry|by apply get_entry_ne]. Qed.

Lemma t_previous_step st : tracks frames st -> forall s,
  get s (previous (track st f)) = list.last (decoded s (frames ++ [f])).
Proof.
  intros Ht s. destruct (track_relevant st Ht) as [-> [E|[x E]]]; destruct (decide (s = s0)) as [->|Hs].
  - rewrite decoded_here, E, app_nil_r. apply (t_previous _ _ Ht).
  - rewrite decoded_elsewhere, E by done. apply (t_previous _ _ Ht).
  - rewrite decoded_here, E, last_snoc. cbn [fold_left]. by rewrite observed_previous, decide_True.
  - rewrite decoded_elsewhere, E by done. cbn [fold_left]. rewrite observed_previous, decide_False by done.
    apply (t_previous _ _ Ht).
Qed.
Lemma t_states_step st : tracks frames st ->
  ordered (states (track st f)) /\ forall s x, (s, x) ∈ keys (states (track st f)) <-> x ∈ decoded s (frames ++ [f]).
Proof.
  intros Ht. destruct (t_states _ _ Ht) as [Ho Hk].
  assert (Hd : forall s, decoded s (frames ++ [f]) = decoded s frames ++ if decide (s = s0) then states_found else []).
  { intros s. case_decide as E; [subst; apply decoded_here|by rewrite decoded_elsewhere, app_nil_r]. }
  destruct (track_relevant st Ht) as [-> [E|[x E]]]; rewrite E in *; cbn [fold_left].
  - split; [done|]. intros s y. rewrite Hd. case_decide; rewrite app_nil_r; apply Hk.
  - split; [by apply ordered_entry|]. intros s y.
    change (states (observe s0 x (counted st))) with (insert_elem (s0, x) (states st)). unfold insert_elem, insert_key. rewrite keys_entry, Hk, Hd, elem_of_app.
    case_decide; set_solver.
Qed.
Lemma t_transitions_step st : tracks frames st ->
  ordered (transitions (track st f)) /\ forall s a b,
    get (s, a, b) (transitions (track st f))
    = if times a b (decoded s (frames ++ [f])) =? 0 then None else Some (times a b (decoded s (frames ++ [f]))).
Proof.
  intros Ht. destruct (t_transitions _ _ Ht) as [Ho Hk].
  destruct (track_relevant st Ht) as [-> [E|[x E]]]; cbn [fold_left]; rewrite E; cbn [fold_left].
  - split; [done|]. intros s a b. cbn. rewrite Hk. destruct (decide (s = s0)) as [->|]; [|by rewrite decoded_elsewhere].
    by rewrite decoded_here, E, app_nil_r.
  - cbn. rewrite (t_previous _ _ Ht). destruct (list.last (decoded s0 frames)) as [from|] eqn:El.
    + split; [by apply ordered_entry|]. intros s a b. destruct (decide ((s, a, b) = (s0, from, x))) as [[= -> -> ->]|Hne].
      * rewrite get_entry, Hk, decoded_here, E, times_snoc, El, bool_decide_eq_true_2 by done.
        assert (0 <= times from x (decoded s0 frames)) by (unfold times; apply zlen_nonneg).
        replace (_ + 1 =? 0) with false by lia. f_equal. destruct (_ =? 0) eqn:E0; cbn [default]; unfold Datatypes.id; lia.
      * rewrite get_entry_ne, Hk by done. destruct (decide (s = s0)) as [->|]; [|by rewrite decoded_elsewhere].
        rewrite decoded_here, E, times_snoc, El, bool_decide_eq_false_2, Z.add_0_r by naive_solver. done.
    + split; [done|]. intros s a b. rewrite Hk. destruct (decide (s = s0)) as [->|]; [|by rewrite decoded_elsewhere].
      rewrite decoded_here, E, times_snoc, El, bool_decide_eq_false_2, Z.add_0_r by naive_solver. done.
Qed.
End one_frame.

Lemma tracks_nil : tracks [] (mkTracking [] [] [] [] 0 0).
Proof.
  assert (Hz : forall (g : UdsStream -> Z) ss, (forall s, g s = 0) -> sum (g <$> ss) = 0).
  { intros g ss Hg. unfold sum. induction ss as [|s ss IH]; cbn; [done|]. rewrite Hg, IH. done. }
  constructor; try done.
  - split; [apply ordered_nil|]. intros s x. split; [by intros ?%not_elem_of_nil|by intros ?%not_elem_of_nil].
  - split; [apply ordered_nil|done].
  - intros ss _ _. symmetry. by apply Hz.
  - intros ss _ _. symmetry. by apply Hz.
Qed.
Lemma tracks_irrelevant frames st f : relevant f = false -> tracks frames st -> tracks (frames ++ [f]) (track st f).
Proof.
  intros Hf [H1 H2 H3 H4 H5 H6]. unfold track. rewrite Hf. cbn [negb].
  assert (Hp : forall s, payloads s (frames ++ [f]) = payloads s frames).
  { intros s. apply payloads_other. intros [? _]. congruence. }
  assert (Hd : forall s, decoded s (frames ++ [f]) = decoded s frames) by (intros s; unfold decoded, messages; by rewrite Hp).
  constructor.
  - intros s. unfold receive. rewrite Hp. apply H1.
  - intros s. rewrite Hd. apply H2.
  - split; [apply H3|]. intros s x. rewrite Hd. apply H3.
  - split; [apply H4|]. intros s a b. rewrite Hd. apply H4.
  - intros ss Hn Hc. rewrite (H5 ss) by set_solver. f_equal. apply list_fmap_ext. intros i s _. unfold messages. by rewrite Hp.
  - intros ss Hn Hc. rewrite (H6 ss) by set_solver. f_equal. apply list_fmap_ext. intros i s _. unfold malformed_on. by rewrite Hp.
Qed.
Lemma tracks_frame frames st f : tracks frames st -> tracks (frames ++ [f]) (track st f).
Proof.
  intros Ht. destruct (relevant f) eqn:Hf; [|by apply tracks_irrelevant].
  assert (Hkeep : forall l st', receivers (fold_left (fun st x => observe (stream_of f) x st) l st') = receivers st'
    /\ completed_pdus (fold_left (fun st x => observe (stream_of f) x st) l st') = completed_pdus st'
    /\ malformed_frames (fold_left (fun st x => observe (stream_of f) x st) l st') = malformed_frames st').
  { induction l as [|x l IH]; intros st'; [done|]. cbn [fold_left]. apply (IH (observe (stream_of f) x st')). }
  destruct (track_relevant frames f Hf st Ht) as [E _]. constructor.
  - intros s. rewrite E. destruct (Hkeep (omap (fun p => classify_uds_state (IsoTp.data p))
      (match (IsoTp.push (receive (stream_of f) frames).1 (data f)).2 with Ok (Some pdu) => [pdu] | _ => [] end))
      (counted frames f st)) as [-> _]. cbn [counted receivers]. unfold insert_key.
    destruct (decide (s = stream_of f)) as [->|Hs].
    + by rewrite get_entry, receive_here.
    + rewrite get_entry_ne by done. unfold receive. rewrite elsewhere by done. apply (t_receivers _ _ Ht).
  - by apply t_previous_step.
  - by apply t_states_step.
  - by apply t_transitions_step.
  - intros ss Hn Hc. rewrite E. edestruct Hkeep as (_ & -> & _). cbn [counted completed_pdus].
    rewrite (t_completed _ _ Ht ss) by set_solver. symmetry. apply sum_changed with (a := stream_of f); [done|set_solver|..].
    + intros s Hs. unfold messages. by rewrite elsewhere.
    + by rewrite messages_here, zlen_app.
  - intros ss Hn Hc. rewrite E. edestruct Hkeep as (_ & _ & ->). cbn [counted malformed_frames].
    rewrite (t_malformed _ _ Ht ss) by set_solver. symmetry. apply sum_changed with (a := stream_of f); [done|set_solver|..].
    + intros s Hs. unfold malformed_on. by rewrite elsewhere.
    + by rewrite malformed_here.
Qed.
Lemma tracks_all frames : tracks frames (fold_left track frames (mkTracking [] [] [] [] 0 0)).
Proof.
  induction frames as [|f frames IH] using rev_ind; [apply tracks_nil|]. rewrite fold_left_app. by apply tracks_frame.
Qed.

(** C29: however the streams of a capture are interleaved, the analysis finds for
    each what its own ISO-TP receiver, [IsoTp.reassemble_all], would find if the stream
    were alone: the states reported are those of its messages, each transition is
    reported with the number of times the stream takes it, and the messages completed
    and frames refused are the sums over the streams. *)
Theorem streams_independent frames :
  let a := uds_state_analysis frames in
  ascending (unique_states a) /\ (forall s x, (s, x) ∈ unique_states a <-> x ∈ decoded s frames) /\
  ascending (a_transitions a).*1 /\
  (forall s from to n, (s, from, to, n) ∈ a_transitions a <-> n = times from to (decoded s frames) /\ 0 < n) /\
  forall ss, NoDup ss -> (forall f, f ∈ frames -> relevant f = true -> stream_of f ∈ ss) ->
    a_completed_pdus a = sum ((fun s => zlen (messages s frames)) <$> ss) /\
    a_malformed_frames a = sum ((fun s => malformed_on s frames) <$> ss).
Proof.
  destruct (tracks_all frames) as [_ _ [Hso Hsk] [Hto Htk] Hc Hm]. unfold uds_state_analysis. cbn. split_and!; try done.
  - intros s from to n. rewrite <- get_pair, Htk by done. pose proof (zlen_nonneg (filter (fun p => p = (from, to)) (steps (decoded s frames)))) as Hp.
    fold (times from to (decoded s frames)) in Hp. case_match eqn:E; [naive_solver lia|]. split; [intros [= <-]; lia|].
    by intros [-> _].
  - intros ss Hn Hcov. split; [by apply Hc|by apply Hm].
Qed.
