(* ===== verification/Errors.v ===== *)
(** * Classified errors

    [crates/hf-core/src/error.rs], and the conversion of provider errors in
    [provider.rs]. *)
From S2P Require Import Prelude Provider.

Inductive ClassifiedError :=
| Provider (message : string)
| Sandbox (message : string)
| Engine (message : string)
| HarnessError (message : string)
| Storage (message : string)
| Validation (message : string)
| Timeout
| Internal (message : string).
Definition display_classified (e : ClassifiedError) : string :=
  match e with
  | Provider m => "provider error: " +:+ m
  | Sandbox m => "sandbox error: " +:+ m
  | Engine m => "engine error: " +:+ m
  | HarnessError m => "harness error: " +:+ m
  | Storage m => "storage error: " +:+ m
  | Validation m => "validation error: " +:+ m
  | Timeout => "timeout"
  | Internal m => "internal: " +:+ m
  end.
(** [From<ProviderError>], which [?] applies. *)
Definition from_provider_error (e : ProviderError) : ClassifiedError := Provider (display e).
