(* ===== verification/EdgeSet.v ===== *)
(** * Covered edges

    Models [EdgeSet] of [crates/hf-core/src/coverage.rs], the bitmap of the coverage
    map offsets a run covers.  The bitmap implements a finite set of offsets; a loop
    over its bytes is a fold over their indices. *)
From S2P Require Import Prelude Text Errors.

Definition EDGE_SET_BYTES : nat := Z.to_nat (64 * 1024).
Definition EDGE_SET_CAPACITY : Z := Z.of_nat EDGE_SET_BYTES * 8.
#[global] Opaque EDGE_SET_BYTES.

(** ** The bitmap *)
Record EdgeSet := mkEdgeSet { bits : list Z }.
Definition new : EdgeSet := mkEdgeSet (replicate EDGE_SET_BYTES 0).
Definition byte_at (s : EdgeSet) (i : nat) : Z := default 0 (bits s !! i).
Definition capacity_error (edge : Z) : ClassifiedError :=
  Validation ("edge id " +:+ pretty edge +:+ " exceeds the edge-set capacity of " +:+ pretty EDGE_SET_CAPACITY +:+ " offsets").
Definition set (s : EdgeSet) (edge : Z) : Result ClassifiedError EdgeSet :=
  if EDGE_SET_CAPACITY <=? edge then Err (capacity_error edge)
  else Ok (mkEdgeSet (alter (fun byte => Z.lor byte (Z.shiftl 1 (edge mod 8))) (Z.to_nat (edge / 8)) (bits s))).
Definition contains (s : EdgeSet) (edge : Z) : bool :=
  (edge <? Z.of_nat EDGE_SET_BYTES * 8) && negb (Z.land (byte_at s (Z.to_nat (edge / 8))) (Z.shiftl 1 (edge mod 8)) =? 0).

(** The positions of the ones of a byte, lowest first. *)
Definition ones (byte : Z) : list Z := filter (fun i => Z.testbit byte i = true) (seqZ 0 8).
Definition count_ones (byte : Z) : Z := zlen (ones byte).
Definition sum (l : list Z) : Z := foldr Z.add 0 l.
Definition count (s : EdgeSet) : Z := sum (count_ones <$> bits s).
Definition as_bytes (s : EdgeSet) : list Z := bits s.
Definition from_bytes (bytes : list Z) : Result ClassifiedError EdgeSet :=
  if bool_decide (length bytes = EDGE_SET_BYTES) then Ok (mkEdgeSet bytes)
  else Err (Validation ("edge-set map must be exactly " +:+ pretty (Z.of_nat EDGE_SET_BYTES) +:+ " bytes, got " +:+ pretty (zlen bytes))).

(** ** Differences *)
Record EdgeSetDiff := mkEdgeSetDiff {
  only_a : Z;
  only_b : Z;
  common : Z;
  union : Z;
  only_a_sample : list Z;
  only_b_sample : list Z;
}.
Definition default_diff : EdgeSetDiff := mkEdgeSetDiff 0 0 0 0 [] [].
Definition not_u8 (b : Z) : Z := 255 - b.
Definition trailing_zeros (mask : Z) : Z := default 8 (head (ones mask)).
(** [while mask != 0 && sample.len() < sample_cap]; a byte has eight bits to clear. *)
Fixpoint collect_loop (fuel : nat) (cap : nat) (base mask : Z) (sample : list Z) : list Z :=
  match fuel with
  | O => sample
  | S fuel =>
      if negb (mask =? 0) && (length sample <? cap)%nat
      then collect_loop fuel cap base (Z.land mask (mask - 1)) (sample ++ [base + trailing_zeros mask])
      else sample
  end.
Definition collect (cap byte_index : nat) (mask : Z) (sample : list Z) : list Z :=
  if (cap <=? length sample)%nat then sample else collect_loop 8 cap (Z.of_nat byte_index * 8) mask sample.
Definition diff_byte (s other : EdgeSet) (cap : nat) (d : EdgeSetDiff) (byte_index : nat) : EdgeSetDiff :=
  let a := byte_at s byte_index in
  let b := byte_at other byte_index in
  mkEdgeSetDiff (only_a d + count_ones (Z.land a (not_u8 b))) (only_b d + count_ones (Z.land b (not_u8 a)))
    (common d + count_ones (Z.land a b)) (union d + count_ones (Z.lor a b))
    (collect cap byte_index (Z.land a (not_u8 b)) (only_a_sample d))
    (collect cap byte_index (Z.land b (not_u8 a)) (only_b_sample d)).
Definition diff (s other : EdgeSet) (sample_cap : nat) : EdgeSetDiff :=
  fold_left (diff_byte s other sample_cap) (seq 0 EDGE_SET_BYTES) default_diff.

(** ** The set a bitmap stands for *)
Definition wf (s : EdgeSet) : Prop := length (bits s) = EDGE_SET_BYTES /\ Forall is_u8 (bits s).
(** The offsets below a bound that satisfy a test, in order. *)
Definition offsets (bound : Z) (p : Z -> bool) : list Z := filter (fun e => p e = true) (seqZ 0 bound).
Definition elements (s : EdgeSet) : list Z := offsets EDGE_SET_CAPACITY (contains s).

Lemma byte_at_u8 s i : wf s -> is_u8 (byte_at s i).
Proof.
  intros [_ Hu]. unfold byte_at. destruct (bits s !! i) eqn:E; cbn; [by eapply list.Forall_lookup_1|done].
Qed.
Lemma contains_bit s e : 0 <= e < EDGE_SET_CAPACITY -> contains s e = Z.testbit (byte_at s (Z.to_nat (e / 8))) (e mod 8).
Proof.
  intros He. unfold contains. replace (e <? _) with true by (unfold EDGE_SET_CAPACITY in He; lia). cbn [andb].
  assert (Hm : 0 <= e mod 8) by (apply Z.mod_pos_bound; lia). set (k := e mod 8) in *. set (b := byte_at _ _).
  rewrite Z.shiftl_1_l. destruct (Z.testbit b k) eqn:E.
  - apply negb_true_iff, Z.eqb_neq. intros H0. apply (f_equal (fun z => Z.testbit z k)) in H0.
    rewrite Z.land_spec, E, Z.pow2_bits_true, Z.bits_0 in H0 by done. done.
  - apply negb_false_iff, Z.eqb_eq, Z.bits_inj'. intros i Hi. rewrite Z.land_spec, Z.bits_0.
    destruct (Z.eq_dec i k) as [->|]; [by rewrite E|]. rewrite Z.pow2_bits_false by done. apply andb_false_r.
Qed.
Lemma empty_wf : wf new.
Proof. split; [apply length_replicate|]. apply list.Forall_replicate. done. Qed.
Lemma contains_new e : 0 <= e < EDGE_SET_CAPACITY -> contains new e = false.
Proof.
  intros He. rewrite contains_bit by done. unfold byte_at, new. cbn [bits].
  destruct (replicate EDGE_SET_BYTES 0 !! _) as [b|] eqn:E; [|apply Z.bits_0]. apply lookup_replicate in E as [-> _]. apply Z.bits_0.
Qed.
Lemma lor_u8 a b : is_u8 a -> is_u8 b -> is_u8 (Z.lor a b).
Proof.
  unfold is_u8, u8_MAX. intros Ha Hb. split; [apply Z.lor_nonneg; lia|].
  assert (Z.lor a b < 2 ^ 8); [|lia]. destruct (Z.eq_dec (Z.lor a b) 0) as [->|]; [done|].
  apply Z.log2_lt_pow2; [pose proof (proj2 (Z.lor_nonneg a b)); lia|]. rewrite Z.log2_lor by lia.
  apply Z.max_lub_lt; (destruct (Z.eq_dec a 0) as [->|]; destruct (Z.eq_dec b 0) as [->|]);
    try done; apply Z.log2_lt_pow2; lia.
Qed.
Lemma set_spec s e s' : wf s -> 0 <= e -> set s e = Ok s' ->
  wf s' /\ e < EDGE_SET_CAPACITY /\ forall x, 0 <= x < EDGE_SET_CAPACITY -> contains s' x = (x =? e) || contains s x.
Proof.
  intros Hwf He. unfold set. destruct (EDGE_SET_CAPACITY <=? e) eqn:Ec; [done|]. intros [= <-]. destruct Hwf as [Hl Hu].
  assert (Hm : forall x, 0 <= x mod 8 < 8) by (intros x; apply Z.mod_pos_bound; lia).
  split; [|split; [lia|]].
  - split; [cbn; by rewrite length_alter|]. cbn. apply Forall_alter; [done|]. intros b _ Hb. apply lor_u8; [done|].
    rewrite Z.shiftl_1_l. specialize (Hm e). unfold is_u8, u8_MAX. assert (2 ^ (e mod 8) <= 2 ^ 7) by (apply Z.pow_le_mono_r; lia). lia.
  - intros x Hx. rewrite !contains_bit by done. unfold byte_at. cbn [bits].
    destruct (decide (x / 8 = e / 8)) as [Eq|Ne].
    + rewrite Eq, list_lookup_alter_eq. destruct (bits s !! Z.to_nat (e / 8)) as [b|] eqn:Eb; cbn.
      * rewrite Z.lor_spec, Z.shiftl_1_l, orb_comm. f_equal. pose proof (Hm e). pose proof (Hm x).
        destruct (Z.eq_dec (x mod 8) (e mod 8)) as [E|E].
        -- rewrite E, Z.pow2_bits_true by lia. symmetry. apply Z.eqb_eq. divlia.
        -- rewrite Z.pow2_bits_false by done. symmetry. apply Z.eqb_neq. intros ->. done.
      * apply lookup_ge_None_1 in Eb. unfold EDGE_SET_CAPACITY in Ec. exfalso. divlia.
    + rewrite list_lookup_alter_ne; [|intros E; apply Ne; apply Z2Nat.inj in E; divlia].
      replace (x =? e) with false; [done|]. symmetry. apply Z.eqb_neq. by intros ->.
Qed.

(** ** A byte at a time *)
Lemma ones_bit b i : i ∈ ones b <-> 0 <= i < 8 /\ Z.testbit b i = true.
Proof. unfold ones. rewrite list_elem_of_filter, elem_of_seqZ. naive_solver lia. Qed.
Lemma ones_lowest : forall b, 0 <= b < 256 -> b <> 0 -> ones b = trailing_zeros b :: ones (Z.land b (b - 1)).
Proof.
  apply (digit_check (fun b => b <> 0 -> ones b = trailing_zeros b :: ones (Z.land b (b - 1)))). vm_compute. reflexivity.
Qed.
Lemma land_u8 a b : is_u8 a -> is_u8 (Z.land a b).
Proof.
  unfold is_u8, u8_MAX. intros Ha. pose proof (land_low (Z.land a b) 8 ltac:(done)) as H.
  replace (Z.land (Z.land a b) (Z.ones 8)) with (Z.land a b) in H; [lia|].
  rewrite <- Z.land_assoc, (Z.land_comm b), Z.land_assoc, Z.land_ones, Z.mod_small by lia. done.
Qed.
Lemma not_u8_bit b i : is_u8 b -> 0 <= i < 8 -> Z.testbit (not_u8 b) i = negb (Z.testbit b i).
Proof.
  intros Hb Hi. unfold not_u8. replace (255 - b) with (Z.lnot b + 256) by (unfold Z.lnot; lia).
  rewrite <- (Z.mod_pow2_bits_low _ 8) by lia. change (2 ^ 8) with 256.
  rewrite <- Z_mod_plus_full with (b := -1). replace (Z.lnot b + 256 + -1 * 256) with (Z.lnot b) by lia.
  change 256 with (2 ^ 8). rewrite Z.mod_pow2_bits_low by lia. by rewrite Z.lnot_spec by lia.
Qed.
Lemma length_ones b : (length (ones b) <= 8)%nat.
Proof. unfold ones. etrans; [apply length_filter|]. by rewrite length_seqZ. Qed.
Lemma collect_loop_spec cap base : forall fuel mask sample, is_u8 mask -> (length (ones mask) <= fuel)%nat ->
  collect_loop fuel cap base mask sample = sample ++ take (cap - length sample) ((fun i => base + i) <$> ones mask).
Proof.
  induction fuel as [|fuel IH]; intros mask sample Hm Hf; cbn [collect_loop].
  - destruct (ones mask); [|cbn in Hf; lia]. cbn. by rewrite take_nil, app_nil_r.
  - destruct (mask =? 0) eqn:E; cbn [negb andb].
    { apply Z.eqb_eq in E as ->. change (ones 0) with (@nil Z). cbn. by rewrite take_nil, app_nil_r. }
    unfold is_u8, u8_MAX in Hm. pose proof (ones_lowest mask ltac:(lia) ltac:(lia)) as Ho.
    destruct (length sample <? cap)%nat eqn:El.
    + apply Nat.ltb_lt in El. rewrite IH; [|by apply land_u8|rewrite Ho in Hf; cbn in Hf; lia]. rewrite Ho, <- app_assoc. cbn [fmap list_fmap app].
      rewrite length_app. cbn [length]. destruct (cap - length sample)%nat as [|k] eqn:Ek; [lia|].
      replace (cap - (length sample + 1))%nat with k by lia. done.
    + apply Nat.ltb_ge in El. replace (cap - length sample)%nat with 0%nat by lia. by rewrite take_0, app_nil_r.
Qed.
Lemma collect_spec cap n mask sample : is_u8 mask ->
  collect cap n mask sample = sample ++ take (cap - length sample) ((fun i => Z.of_nat n * 8 + i) <$> ones mask).
Proof.
  intros Hm. unfold collect. destruct (cap <=? length sample)%nat eqn:E.
  - apply Nat.leb_le in E. replace (cap - length sample)%nat with 0%nat by lia. by rewrite take_0, app_nil_r.
  - apply collect_loop_spec; [done|apply length_ones].
Qed.

(** ** A bound at a time *)
Definition upto (n : nat) (p : Z -> bool) : list Z := offsets (Z.of_nat n * 8) p.
Lemma upto_S n p mask : is_u8 mask -> (forall i, 0 <= i < 8 -> p (Z.of_nat n * 8 + i) = Z.testbit mask i) ->
  upto (S n) p = upto n p ++ ((fun i => Z.of_nat n * 8 + i) <$> ones mask).
Proof.
  intros Hm Hp. unfold upto, offsets. replace (Z.of_nat (S n) * 8) with (Z.of_nat n * 8 + 8) by lia.
  rewrite seqZ_app by lia. rewrite list.filter_app. f_equal. rewrite Z.add_0_l. unfold ones.
  assert (Hs : seqZ (Z.of_nat n * 8) 8 = (fun i => Z.of_nat n * 8 + i) <$> seqZ 0 8).
  { rewrite fmap_add_seqZ. by rewrite Z.add_0_r. }
  rewrite Hs. clear Hs. assert (Hall : Forall (fun i => 0 <= i < 8) (seqZ 0 8)) by by apply list.Forall_forall; intros i Hi%elem_of_seqZ.
  induction Hall as [|i l Hi _ IH]; [done|]. rewrite fmap_cons, !filter_cons, Hp by done.
  case_decide; by rewrite IH.
Qed.
Lemma upto_full s : elements s = upto EDGE_SET_BYTES (contains s).
Proof. done. Qed.
Lemma block_index n i : 0 <= i < 8 -> (Z.of_nat n * 8 + i) / 8 = Z.of_nat n /\ (Z.of_nat n * 8 + i) mod 8 = i.
Proof. intros. divlia. Qed.
Lemma contains_block s n i : (n < EDGE_SET_BYTES)%nat -> 0 <= i < 8 ->
  contains s (Z.of_nat n * 8 + i) = Z.testbit (byte_at s n) i.
Proof.
  intros Hn Hi. rewrite contains_bit by (unfold EDGE_SET_CAPACITY; lia). destruct (block_index n i Hi) as [-> ->]. by rewrite Nat2Z.id.
Qed.

Definition minus (a b : EdgeSet) (e : Z) : bool := contains a e && negb (contains b e).
Definition both (a b : EdgeSet) (e : Z) : bool := contains a e && contains b e.
Definition either (a b : EdgeSet) (e : Z) : bool := contains a e || contains b e.

Lemma sum_app l k : sum (l ++ k) = sum l + sum k.
Proof. unfold sum. induction l as [|x l IH]; cbn; [done|]. rewrite IH. lia. Qed.
Lemma zlen_fmap {A B} (f : A -> B) l : zlen (f <$> l) = zlen l.
Proof. unfold zlen. by rewrite length_fmap. Qed.
Lemma take_snoc_block {A} cap (l k : list A) : take cap l ++ take (cap - length (take cap l)) k = take cap (l ++ k).
Proof.
  rewrite take_app, length_take. f_equal. destruct (Nat.le_ge_cases cap (length l)).
  - rewrite Nat.min_l by done. by replace (cap - length l)%nat with 0%nat by lia; replace (cap - cap)%nat with 0%nat by lia.
  - by rewrite Nat.min_r by done.
Qed.
Section two_sets.
Context (a b : EdgeSet) (Ha : wf a) (Hb : wf b).
Lemma minus_block x y n : wf x -> wf y -> (n < EDGE_SET_BYTES)%nat ->
  upto (S n) (minus x y) = upto n (minus x y) ++ ((fun i => Z.of_nat n * 8 + i) <$> ones (Z.land (byte_at x n) (not_u8 (byte_at y n)))).
Proof.
  intros Hx Hy Hn. apply upto_S; [apply land_u8, byte_at_u8, Hx|]. intros i Hi. unfold minus. rewrite !contains_block by done.
  by rewrite Z.land_spec, not_u8_bit by (done || by apply byte_at_u8).
Qed.
Lemma diff_upto cap n : (n <= EDGE_SET_BYTES)%nat ->
  fold_left (diff_byte a b cap) (seq 0 n) default_diff
  = mkEdgeSetDiff (zlen (upto n (minus a b))) (zlen (upto n (minus b a))) (zlen (upto n (both a b))) (zlen (upto n (either a b)))
      (take cap (upto n (minus a b))) (take cap (upto n (minus b a))).
Proof.
  induction n as [|n IH]; intros Hn.
  - by destruct cap.
  - rewrite seq_S, fold_left_app, IH by lia. cbn [fold_left Nat.add]. unfold diff_byte. cbn [only_a only_b common union only_a_sample only_b_sample].
    rewrite !minus_block, !collect_spec, !take_snoc_block by (done || by apply land_u8, byte_at_u8).
    rewrite (upto_S n (both a b) (Z.land (byte_at a n) (byte_at b n))), (upto_S n (either a b) (Z.lor (byte_at a n) (byte_at b n))).
    + by rewrite !zlen_app, !zlen_fmap.
    + apply lor_u8; by apply byte_at_u8.
    + intros i Hi. unfold either. by rewrite !contains_block, Z.lor_spec by done.
    + by apply land_u8, byte_at_u8.
    + intros i Hi. unfold both. by rewrite !contains_block, Z.land_spec by done.
Qed.
End two_sets.
Lemma bits_indices s : wf s -> bits s = byte_at s <$> seq 0 EDGE_SET_BYTES.
Proof.
  intros [Hl _]. apply list_eq. intros i. rewrite list_lookup_fmap. destruct (Nat.lt_ge_cases i EDGE_SET_BYTES) as [Hi|Hi].
  - rewrite lookup_seq_lt by done. cbn. unfold byte_at. destruct (bits s !! i) eqn:E; [done|]. apply lookup_ge_None_1 in E. lia.
  - rewrite lookup_seq_ge by done. apply lookup_ge_None_2. by rewrite Hl.
Qed.
Lemma count_elements s : wf s -> count s = zlen (elements s).
Proof.
  intros Hwf. unfold count. rewrite bits_indices, upto_full by done.
  assert (Hn : forall n, (n <= EDGE_SET_BYTES)%nat -> sum (count_ones <$> (byte_at s <$> seq 0 n)) = zlen (upto n (contains s))).
  { induction n as [|n IH]; intros Hn; [done|]. rewrite seq_S, !fmap_app, sum_app, IH by lia.
    rewrite (upto_S n (contains s) (byte_at s n)), zlen_app, zlen_fmap; [cbn; unfold count_ones; lia|by apply byte_at_u8|].
    intros i Hi. by apply contains_block. }
  by apply Hn.
Qed.

(** A set is what it shares with another and what it has on its own. *)
Lemma offsets_split bound p q :
  zlen (offsets bound p) = zlen (offsets bound (fun e => p e && negb (q e))) + zlen (offsets bound (fun e => p e && q e)).
Proof.
  unfold offsets. induction (seqZ 0 bound) as [|e l IH]; [done|]. rewrite !filter_cons.
  destruct (p e), (q e); cbn [andb negb]; repeat case_decide; rewrite ?zlen_cons; try done; lia.
Qed.
Lemma offsets_union bound p q :
  zlen (offsets bound (fun e => p e || q e))
  = zlen (offsets bound (fun e => p e && negb (q e))) + zlen (offsets bound (fun e => q e && negb (p e))) + zlen (offsets bound (fun e => p e && q e)).
Proof.
  unfold offsets. induction (seqZ 0 bound) as [|e l IH]; [done|]. rewrite !filter_cons.
  destruct (p e), (q e); cbn [andb negb orb]; repeat case_decide; rewrite ?zlen_cons; try done; lia.
Qed.
Lemma offsets_ext bound p q : (forall e, p e = q e) -> offsets bound p = offsets bound q.
Proof. intros Hpq. unfold offsets. apply list_filter_iff. intros e. by rewrite Hpq. Qed.

(** Comparing two bitmaps gives the exact sizes of the differences, the
    intersection and the union of the two sets of edges, whatever the cap, and the
    samples are the lowest offsets of each difference, in order, as many as the cap
    allows. *)
Theorem edge_diff_exact a b cap : wf a -> wf b ->
  let only x y := offsets EDGE_SET_CAPACITY (minus x y) in
  diff a b cap
  = mkEdgeSetDiff (zlen (only a b)) (zlen (only b a)) (zlen (offsets EDGE_SET_CAPACITY (both a b)))
      (zlen (offsets EDGE_SET_CAPACITY (either a b))) (take cap (only a b)) (take cap (only b a)).
Proof. intros Ha Hb. unfold diff. by rewrite diff_upto. Qed.
Lemma capacity : EDGE_SET_CAPACITY = 524288.
Proof. unfold EDGE_SET_CAPACITY. with_strategy 0 [EDGE_SET_BYTES] unfold EDGE_SET_BYTES. by rewrite Z2Nat.id. Qed.
(** A set that has an edge, against the empty set. *)
Lemma edge_diff_exact_witness :
  exists s, set new 524287 = Ok s /\ contains s 524287 = true /\ wf s /\ wf new /\
    diff s new 64
    = mkEdgeSetDiff (zlen (offsets EDGE_SET_CAPACITY (minus s new))) (zlen (offsets EDGE_SET_CAPACITY (minus new s)))
        (zlen (offsets EDGE_SET_CAPACITY (both s new))) (zlen (offsets EDGE_SET_CAPACITY (either s new)))
        (take 64 (offsets EDGE_SET_CAPACITY (minus s new))) (take 64 (offsets EDGE_SET_CAPACITY (minus new s))).
Proof.
  destruct (set new 524287) as [s|e] eqn:E; [|unfold set in E; rewrite capacity in E; exfalso; by simplify_eq].
  destruct (set_spec new 524287 s empty_wf ltac:(lia) E) as (Hwf & Hlt & Hc). exists s. split; [exact eq_refl|].
  split; [rewrite Hc; [exact eq_refl|rewrite capacity; lia]|]. split; [exact Hwf|]. split; [exact empty_wf|].
  exact (edge_diff_exact s new 64 Hwf empty_wf).
Defined.

(** The bytes of a set are a set again, and only as many bytes as a set has are. *)
Lemma from_bytes_spec bytes :
  (forall s, wf s -> bytes = as_bytes s -> from_bytes bytes = Ok s) /\
  (forall s, from_bytes bytes = Ok s -> length bytes = EDGE_SET_BYTES /\ as_bytes s = bytes).
Proof.
  unfold from_bytes, as_bytes. split.
  - intros [l] [Hl _] ->. cbn in *. by rewrite bool_decide_eq_true_2.
  - intros s. case_bool_decide; [|done]. by intros [= <-].
Qed.
