(* ===== verification/Showmap.v ===== *)
(** * Coverage of one input

    Models [crates/hf-engine/src/showmap.rs]: the tuples of edge and hit-count bucket
    that [afl-showmap] prints for an input, their fingerprint, the edges they add to
    an [EdgeSet], and whether a seed gets past a harness's entry checks. *)
From S2P Require Import Prelude Text Ordered Errors.
From S2P Require EdgeSet.
From Stdlib Require Import Ascii.

(** ** Tuples *)
Definition classify_count (count : Z) : Z :=
  if count =? 0 then 0
  else if count =? 1 then 1
  else if count =? 2 then 2
  else if count =? 3 then 4
  else if count <=? 7 then 8
  else if count <=? 15 then 16
  else if count <=? 31 then 32
  else if count <=? 127 then 64
  else 128.
Definition parse_edge (line : Text) : option (Z * Z) :=
  let '(first, second) := match split_once (is_char ":") line with Some (a, b) => (a, Some b) | None => (line, None) end in
  let edge := trim first in
  if bool_decide (edge = []) then None
  else
    edge ← parse_unsigned u64_MAX edge;
    let count := default 1 (value ← second; parse_unsigned u64_MAX (trim value)) in
    Some (edge, classify_count count).
(** [Vec::dedup]: of equal neighbours one stays. *)
Fixpoint dedup (l : list (Z * Z)) : list (Z * Z) :=
  match l with
  | a :: ((b :: _) as r) => if bool_decide (a = b) then dedup r else a :: dedup r
  | l => l
  end.
(** [sort_unstable]: equal tuples cannot be told apart. *)
Definition coverage_tuples (showmap_stdout : Text) : list (Z * Z) :=
  dedup (sort_by cmp (omap parse_edge (lines showmap_stdout))).

(** ** The fingerprint *)
Definition fold_byte (hash byte : Z) : Z := wrapping 64 (Z.lxor hash byte * 0x100000001b3).
Definition to_le_bytes (value : Z) : list Z := (fun i => value / 256 ^ i mod 256) <$> seqZ 0 8.
Definition fold_tuple (hash : Z) (tuple : Z * Z) : Z := fold_byte (fold_left fold_byte (to_le_bytes tuple.1) hash) tuple.2.
Definition hex_lower (d : Z) : Z := if d <? 10 then 48 + d else 87 + d.
Definition hex_16 (value : Z) : Text := (fun i => hex_lower (value / 16 ^ (15 - i) mod 16)) <$> seqZ 0 16.
Definition coverage_hash (showmap_stdout : Text) : option Text :=
  match coverage_tuples showmap_stdout with
  | [] => None
  | tuples => Some (t "cov:" ++ hex_16 (fold_left fold_tuple tuples 0xcbf29ce484222325))
  end.

(** ** Edges of a run, and seeds *)
Fixpoint fold_edges (set : EdgeSet.EdgeSet) (tuples : list (Z * Z)) : EdgeSet.EdgeSet * Result ClassifiedError unit :=
  match tuples with
  | [] => (set, Ok tt)
  | (edge, _) :: tuples =>
      match EdgeSet.set set edge with
      | Ok set => fold_edges set tuples
      | Err e => (set, Err e)
      end
  end.
Definition fold_showmap_into_edge_set (set : EdgeSet.EdgeSet) (showmap_stdout : Text) :
    EdgeSet.EdgeSet * Result ClassifiedError unit :=
  fold_edges set (coverage_tuples showmap_stdout).

Inductive SeedSurvival := Survives | DiesAtEntry | NotMeasured.
(** [binary_search] on a sorted list finds what the list holds. *)
Definition classify_seed_survival (seed_map empty_input_map : Text) : SeedSurvival :=
  match coverage_tuples seed_map with
  | [] => NotMeasured
  | seed =>
      let baseline := coverage_tuples empty_input_map in
      if existsb (fun tuple => negb (bool_decide (tuple ∈ baseline))) seed then Survives else DiesAtEntry
  end.

(** The cases of the module's own tests. *)
Definition unlines (ls : list string) : Text := concat ((fun l => t l ++ [10]) <$> ls).
Example tuples_ex : coverage_tuples (unlines ["3:1"; "1:4"; "1:7"; "2:"]) = [(1, 8); (2, 1); (3, 1)].
Proof. vm_compute. reflexivity. Qed.
Example hash_ex :
  coverage_hash (unlines ["000001:1"; "000002:2"; "000003:1"]) = coverage_hash (unlines ["000003:1"; "000001:1"; "000002:2"])
  /\ coverage_hash (unlines ["1:4"]) = coverage_hash (unlines ["1:7"]) /\ coverage_hash (unlines ["1:1"]) <> coverage_hash (unlines ["1:2"])
  /\ coverage_hash (unlines [""; "  "]) = None.
Proof. split_and!; vm_compute; (reflexivity || intros [=]). Qed.

(** ** What is printed decides *)
(** The tuples a map shows, in whatever order and however often. *)
Definition shows (showmap_stdout : Text) (tuple : Z * Z) : Prop := tuple ∈ omap parse_edge (lines showmap_stdout).

Lemma dedup_elem l k : k ∈ dedup l <-> k ∈ l.
Proof.
  induction l as [|a [|b r] IH]; [done..|]. change (dedup (a :: b :: r)) with (if bool_decide (a = b) then dedup (b :: r) else a :: dedup (b :: r)).
  case_bool_decide as E; [subst; rewrite IH|]; set_solver.
Qed.
Definition at_most (a b : Z * Z) : Prop := cmp a b <> Gt.
Lemma at_most_spec a b : at_most a b <-> cmp a b = Lt \/ a = b.
Proof. unfold at_most. rewrite <- cmp_eq. destruct (cmp a b); naive_solver. Qed.
#[export] Instance at_most_trans : Transitive at_most.
Proof.
  intros a b c. rewrite !at_most_spec. intros [E|<-] [F|<-]; [left; by eapply cmp_trans|by left|by left|by right].
Qed.
Lemma dedup_ascending l : StronglySorted at_most l -> ascending (dedup l).
Proof.
  unfold ascending. induction l as [|a [|b r] IH]; intros Hs; [constructor|repeat constructor|].
  inversion Hs as [|? ? Hr Ha]; subst. specialize (IH Hr).
  change (dedup (a :: b :: r)) with (if bool_decide (a = b) then dedup (b :: r) else a :: dedup (b :: r)).
  case_bool_decide as E; [done|]. constructor; [done|]. apply list.Forall_forall. intros k Hk. apply (proj1 (dedup_elem _ _)) in Hk.
  inversion Ha as [|? ? Hab Hall]; subst. apply at_most_spec in Hab as [Hab|]; [|done].
  apply elem_of_cons in Hk as [->|Hk]; [done|]. inversion Hr as [|? ? _ Hb]; subst.
  pose proof (proj1 (list.Forall_forall _ _) Hb k Hk) as Hbk. apply at_most_spec in Hbk as [Hbk|<-]; [|done]. by eapply cmp_trans.
Qed.
Lemma tuples_spec out : ascending (coverage_tuples out) /\ forall k, k ∈ coverage_tuples out <-> shows out k.
Proof.
  unfold coverage_tuples, shows. split.
  - apply dedup_ascending, sort_by_sorted; [apply _| |].
    + intros x y E. apply at_most_spec. left. by apply cmp_gt_lt.
    + intros x y. done.
  - intros k. rewrite dedup_elem. by rewrite (sort_by_perm cmp).
Qed.
Lemma tuples_same a b : (forall k, shows a k <-> shows b k) -> coverage_tuples a = coverage_tuples b.
Proof.
  intros Hab. destruct (tuples_spec a) as [Ha Hka], (tuples_spec b) as [Hb Hkb]. apply ascending_ext; [done..|].
  intros k. by rewrite Hka, Hkb.
Qed.
Lemma tuples_nil out : coverage_tuples out = [] <-> forall k, ~ shows out k.
Proof.
  destruct (tuples_spec out) as [_ Hk]. split.
  - intros E k. rewrite <- Hk, E. apply not_elem_of_nil.
  - intros Hn. destruct (coverage_tuples out) as [|k l]; [done|]. exfalso. apply (Hn k), Hk. left.
Qed.

(** The fingerprint depends on the set of tuples alone, and is missing exactly when
    there are none. *)
Theorem fingerprint_of_set a b :
  ((forall k, shows a k <-> shows b k) -> coverage_hash a = coverage_hash b) /\
  (coverage_hash a = None <-> forall k, ~ shows a k).
Proof.
  split; [intros Hab; unfold coverage_hash; by rewrite (tuples_same a b)|]. rewrite <- tuples_nil. unfold coverage_hash.
  destruct (coverage_tuples a); split; intros E; [exact eq_refl..|discriminate E|discriminate E].
Qed.
Theorem survival_exact seed empty :
  match classify_seed_survival seed empty with
  | NotMeasured => forall k, ~ shows seed k
  | Survives => exists k, shows seed k /\ ~ shows empty k
  | DiesAtEntry => (exists k, shows seed k) /\ forall k, shows seed k -> shows empty k
  end.
Proof.
  unfold classify_seed_survival. destruct (tuples_spec seed) as [_ Hs], (tuples_spec empty) as [_ He].
  destruct (coverage_tuples seed) as [|x l] eqn:E; [by apply tuples_nil|]. rewrite <- E. destruct (existsb _ _) eqn:Ex.
  - apply existsb_exists in Ex as (k & Hk%list_elem_of_In & Hn). exists k. apply negb_true_iff, bool_decide_eq_false_1 in Hn.
    by rewrite <- He, <- Hs, <- E.
  - split; [exists x; apply Hs; left|]. intros k Hk%Hs. rewrite <- He. apply dec_stable. intros Hn.
    rewrite <- E in Hk. apply not_true_iff_false in Ex. apply Ex, existsb_exists. exists k. split; [by apply list_elem_of_In|].
    by apply negb_true_iff, bool_decide_eq_false_2.
Qed.

(** ** The edges of a run *)
Definition edge_shown (out : Text) (e : Z) : Prop := exists bucket, shows out (e, bucket).
Lemma shows_range out e bucket : shows out (e, bucket) -> is_u64 e.
Proof.
  intros (line & _ & H)%list_elem_of_omap. unfold parse_edge in H. destruct (split_once _ _) as [[]|]; ok_inv;
    match goal with H : parse_unsigned _ _ = Some _ |- _ => apply parse_unsigned_range in H end; simplify_eq; done.
Qed.
Lemma fold_edges_spec tuples : forall set, EdgeSet.wf set -> Forall (fun k => 0 <= k.1) tuples ->
  let '(set', r) := fold_edges set tuples in
  EdgeSet.wf set' /\ (r = Ok tt -> forall e, 0 <= e < EdgeSet.EDGE_SET_CAPACITY ->
    EdgeSet.contains set' e = true <-> EdgeSet.contains set e = true \/ exists bucket, (e, bucket) ∈ tuples) /\
  (r = Ok tt <-> Forall (fun k => k.1 < EdgeSet.EDGE_SET_CAPACITY) tuples).
Proof.
  induction tuples as [|[edge bucket] tuples IH]; intros set Hwf Hpos; cbn [fold_edges].
  - split_and!; [done| |done]. intros _ e _. split; [by left|]. by intros [?|[? ?%not_elem_of_nil]].
  - inversion Hpos as [|? ? He Hrest]; subst. cbn in He. destruct (EdgeSet.set set edge) as [set1|err] eqn:E.
    + destruct (EdgeSet.set_spec _ _ _ Hwf He E) as (Hwf1 & Hlt & Hc). specialize (IH set1 Hwf1 Hrest).
      destruct (fold_edges set1 tuples) as [set' r]. destruct IH as (Hwf' & Hin & Hok). split; [done|]. split.
      * intros Hr e Hrange. rewrite (Hin Hr e Hrange), Hc, orb_true_iff, Z.eqb_eq by done. setoid_rewrite elem_of_cons. naive_solver.
      * rewrite list.Forall_cons, Hok. cbn. tauto.
    + split; [done|]. split; [done|]. split; [done|]. intros Hall. exfalso. inversion Hall as [|? ? Hlt _]; subst. cbn in Hlt.
      unfold EdgeSet.set in E. by replace (EdgeSet.EDGE_SET_CAPACITY <=? edge) with false in E by lia.
Qed.
(** Folding a map in adds exactly the edges it shows, or fails because one of them
    does not fit. *)
Lemma fold_showmap_spec set out : EdgeSet.wf set ->
  let '(set', r) := fold_showmap_into_edge_set set out in
  EdgeSet.wf set' /\ (r = Ok tt -> forall e, 0 <= e < EdgeSet.EDGE_SET_CAPACITY ->
    EdgeSet.contains set' e = true <-> EdgeSet.contains set e = true \/ edge_shown out e) /\
  (r = Ok tt <-> forall e, edge_shown out e -> e < EdgeSet.EDGE_SET_CAPACITY).
Proof.
  intros Hwf. unfold fold_showmap_into_edge_set. destruct (tuples_spec out) as [_ Hk].
  assert (Hpos : Forall (fun k => 0 <= k.1) (coverage_tuples out)).
  { apply list.Forall_forall. intros [e b] Hin%Hk. apply (shows_range _ _ _ Hin). }
  pose proof (fold_edges_spec (coverage_tuples out) set Hwf Hpos) as H. destruct (fold_edges _ _) as [set' r].
  destruct H as (Hwf' & Hin & Hok). split; [done|]. unfold edge_shown. split.
  - intros Hr e He. rewrite (Hin Hr e He). by setoid_rewrite Hk.
  - rewrite Hok, list.Forall_forall. split; [intros Hall e [b Hb%Hk]; by apply (Hall (e, b))|].
    intros Hall [e b] Hin'%Hk. cbn. apply Hall. by exists b.
Qed.
