(* ===== verification/Dict.v ===== *)
(** * Fuzzing dictionaries

    Models [crates/hf-engine/src/dict.rs]: tokens found in source text, and the
    dictionary files of AFL++ and libFuzzer written and read back.  Source text is
    scanned as its UTF-8 bytes; an index into them and the rest of the text from it
    stand for the [usize] the loops advance. *)
From S2P Require Import Prelude Text Engine.
From Stdlib Require Import Ascii.

Definition MAX_TOKEN_LEN : Z := 128.
Definition QUOTE : Z := 34.
Definition BACKSLASH : Z := 92.

(** ** Bytes *)
Definition is_hexdigit (b : Z) : bool :=
  is_digit b || ((97 <=? b) && (b <=? 102)) || ((65 <=? b) && (b <=? 70)).
Definition hex_val (b : Z) : Z :=
  if is_digit b then b - 48
  else if (97 <=? b) && (b <=? 102) then b - 97 + 10
  else if (65 <=? b) && (b <=? 70) then b - 65 + 10
  else 0.
Definition is_x (b : Z) : bool := is_char "x" b || is_char "X" b.
Definition is_ident_byte (b : Z) : bool :=
  is_digit b || ((65 <=? b) && (b <=? 90)) || ((97 <=? b) && (b <=? 122)) || is_char "_" b.

(** ** Tokens in source text *)
(** The bytes before a line feed, and those of a block comment after its opening. *)
Fixpoint line_comment (l : list Z) : nat :=
  match l with [] => 0 | b :: r => if b =? 10 then 0 else S (line_comment r) end.
Fixpoint block_comment (l : list Z) : nat :=
  match l with
  | a :: ((b :: _) as r) => if is_char "*" a && is_char "/" b then 2 else S (block_comment r)
  | _ => 2
  end.

(** At most two hexadecimal digits after [\x]: their value, and how many. *)
Definition escape_digits (l : list Z) : Z * nat :=
  match l with
  | a :: b :: _ => if is_hexdigit a then if is_hexdigit b then (hex_val a * 16 + hex_val b, 2%nat) else (hex_val a, 1%nat) else (0, 0%nat)
  | [a] => if is_hexdigit a then (hex_val a, 1%nat) else (0, 0%nat)
  | [] => (0, 0%nat)
  end.
(** An escape after its backslash: the byte it stands for and the bytes it takes. *)
Definition string_escape (esc : Z) (r : list Z) : Z * nat :=
  if is_char "n" esc then (10, 1%nat)
  else if is_char "t" esc then (9, 1%nat)
  else if is_char "r" esc then (13, 1%nat)
  else if is_char "0" esc then (0, 1%nat)
  else if is_x esc then
    let '(val, digits) := escape_digits r in
    if (digits =? 0)%nat then (chr "x", 1%nat) else (val, S digits)
  else (esc, 1%nat).
(** The bytes after an opening quote: what they decode to, and how many there are up
    to the closing quote and with it. *)
Fixpoint string_body (fuel : nat) (l : list Z) : list Z * nat :=
  match fuel, l with
  | S fuel, b :: r =>
      if b =? QUOTE then ([], 1%nat)
      else
        match (b =? BACKSLASH), r with
        | true, esc :: r' =>
            let '(byte, taken) := string_escape esc r' in
            let '(out, n) := string_body fuel (drop taken r) in
            (byte :: out, S taken + n)%nat
        | _, _ => let '(out, n) := string_body fuel r in (b :: out, S n)
        end
  | _, _ => ([], 0%nat)
  end.
Definition scan_string_literal (l : list Z) : list Z * nat :=
  let '(out, n) := string_body (length l) (drop 1 l) in (out, S n).

Fixpoint hex_digits (value : Z) (digits : nat) (l : list Z) : Z * nat * list Z :=
  match l with
  | b :: r => if is_hexdigit b then hex_digits (wrapping 64 (wrapping 64 (value * 16) + hex_val b)) (S digits) r else (value, digits, l)
  | [] => (value, digits, l)
  end.
Definition is_suffix (b : Z) : bool := is_char "u" b || is_char "U" b || is_char "l" b || is_char "L" b.
Definition scan_hex_literal (l : list Z) : option Z * nat :=
  let '(value, digits, r) := hex_digits 0 0 (drop 2 l) in
  let suffix := length (take_while is_suffix r) in
  (if (digits =? 0)%nat || (16 <? digits)%nat then None else Some value, (2 + digits + suffix)%nat).

Fixpoint to_le_bytes (n : nat) (value : Z) : list Z :=
  match n with O => [] | S n => value mod 256 :: to_le_bytes n (value / 256) end.
Definition to_be_bytes (n : nat) (value : Z) : list Z := reverse (to_le_bytes n value).
Definition int_tokens (value : Z) : list (list Z) :=
  let width := if value <=? 0xffff then 2%nat else if value <=? 0xffffffff then 4%nat else 8%nat in
  let little := take width (to_le_bytes 8 value) in
  let big := drop (8 - width) (to_be_bytes 8 value) in
  if bool_decide (little = big) then [little] else [little; big].

(** [seen.insert(token)] and the push that follows it; the set and the list of tokens
    hold the same. *)
Definition push_new (tokens : list (list Z)) (token : list Z) : list (list Z) :=
  if bool_decide (token ∈ tokens) then tokens else tokens ++ [token].
(** One turn of the scan at an index: the tokens afterwards, and how far it moves. *)
Definition extract_step (bytes : list Z) (i : nat) (tokens : list (list Z)) : list (list Z) * nat :=
  match drop i bytes with
  | [] => (tokens, 0%nat)
  | b :: r =>
      if is_char "/" b && bool_decide (hd_error r = Some (chr "/")) then (tokens, line_comment (b :: r))
      else if is_char "/" b && bool_decide (hd_error r = Some (chr "*")) then (tokens, (2 + block_comment (drop 1 r))%nat)
      else if b =? QUOTE then
        let '(literal, n) := scan_string_literal (b :: r) in
        (if bool_decide (literal <> []) && (zlen literal <=? MAX_TOKEN_LEN) then push_new tokens literal else tokens, n)
      else if is_char "0" b && match r with x :: _ => is_x x | [] => false end
              && ((i =? 0)%nat || negb (is_ident_byte (default 0 (bytes !! (i - 1)%nat)))) then
        let '(value, n) := scan_hex_literal (b :: r) in
        (match value with
         | Some value => if 0xff <? value then fold_left push_new (int_tokens value) tokens else tokens
         | None => tokens
         end, n)
      else (tokens, 1%nat)
  end.
Fixpoint extract_from (fuel : nat) (bytes : list Z) (i : nat) (tokens : list (list Z)) : list (list Z) :=
  match fuel with
  | O => tokens
  | S fuel =>
      if (i <? length bytes)%nat then let '(tokens, n) := extract_step bytes i tokens in extract_from fuel bytes (i + n) tokens
      else tokens
  end.
Definition extract_tokens (source : Text) : list (list Z) :=
  let bytes := as_bytes source in extract_from (length bytes) bytes 0 [].

(** ** Dictionary files *)
Definition hex_lower (d : Z) : Z := if d <? 10 then 48 + d else 87 + d.
Definition render_byte (b : Z) : Text :=
  if b =? QUOTE then [BACKSLASH; QUOTE]
  else if b =? BACKSLASH then [BACKSLASH; BACKSLASH]
  else if (0x20 <=? b) && (b <=? 0x7e) then [b]
  else [BACKSLASH; chr "x"; hex_lower (b / 16); hex_lower (b mod 16)].
Definition render_token (token : list Z) : Text := QUOTE :: (token ≫= render_byte) ++ [QUOTE].
Definition render_dict (tokens : list (list Z)) : Text := concat ((fun token => render_token token ++ [10]) <$> tokens).

Fixpoint decode_dict_token (l : list Z) : list Z :=
  match l with
  | [] => []
  | b :: r =>
      if b =? BACKSLASH then
        match r with
        | [] => [b]
        | c :: r' =>
            if c =? BACKSLASH then BACKSLASH :: decode_dict_token r'
            else if c =? QUOTE then QUOTE :: decode_dict_token r'
            else
              match r' with
              | h :: k :: r'' =>
                  if is_x c && is_hexdigit h && is_hexdigit k then (hex_val h * 16 + hex_val k) :: decode_dict_token r''
                  else c :: decode_dict_token r'
              | _ => c :: decode_dict_token r'
              end
        end
      else b :: decode_dict_token r
  end.
(** [find] and [rfind] of a quote. *)
Definition is_quote (c : Z) : bool := c =? QUOTE.
Definition rposition (p : Z -> bool) (l : Text) : option nat := n ← position p (reverse l); Some (length l - 1 - n)%nat.
Definition parse_dict_line (raw : Text) : option (list Z) :=
  let line := trim raw in
  if bool_decide (line = []) || starts_with (t "#") line then None
  else
    start ← position is_quote line; finish ← rposition is_quote line;
    if (finish <=? start)%nat then None
    else
      let token := decode_dict_token (as_bytes (take (finish - start - 1) (drop (start + 1) line))) in
      if bool_decide (token <> []) && (zlen token <=? MAX_TOKEN_LEN) then Some token else None.
Definition parse_dict (text : Text) : list (list Z) := omap parse_dict_line (lines text).

Definition dict_run_args (engine : EngineKind) (container_path : string) : list string :=
  match engine with
  | LibFuzzer => ["-dict=" +:+ container_path]
  | AflPlusPlus => ["-x"%string; container_path]
  | Honggfuzz => ["-w"%string; container_path]
  | Syzkaller | GoNative => []
  end.

(** The cases of the module's own tests. *)
Definition q (s : string) : string := quote +:+ s +:+ quote.
Example extract_ex :
  extract_tokens (t ("if (strcmp(s, " +:+ q "MAGIC" +:+ ") == 0) return 1; strcmp(s, " +:+ q "PNG" +:+ "); return strcmp(s, "
    +:+ q "MAGIC" +:+ "); // duplicate, " +:+ q "IGNORED")) = [t "MAGIC"; t "PNG"]
  /\ extract_tokens (t ("/* " +:+ q "blockstr" +:+ " */ k = " +:+ q "real" +:+ "; // " +:+ q "linestr")) = [t "real"]
  /\ extract_tokens (t ("m = " +:+ q "\x89PNG\n")) = [[0x89] ++ t "PNG" ++ [10]]
  /\ extract_tokens (t "if (magic == 0xCAFEBABE) {}") = [[0xbe; 0xba; 0xfe; 0xca]; [0xca; 0xfe; 0xba; 0xbe]]
  /\ extract_tokens (t "y = 0x05; z = var0x1234;") = []
  /\ extract_tokens (t "u32 v = 0xDEADu;") = [[0xad; 0xde]; [0xde; 0xad]].
Proof. vm_compute. done. Qed.
Example render_ex : render_dict [[0x89] ++ t "PN" ++ [QUOTE] ++ t "G"] = t (q ("\x89PN\" +:+ quote +:+ "G")) ++ [10].
Proof. vm_compute. done. Qed.
Example parse_dict_ex :
  parse_dict (t "# a comment" ++ [10; 10] ++ t (q "plain") ++ [10] ++ t ("kw=" +:+ q "leveled") ++ [10] ++ t "not a token line" ++ [10])
  = [t "plain"; t "leveled"].
Proof. vm_compute. done. Qed.

(** ** Writing and reading back *)
Definition token_ok (token : list Z) : Prop := Forall is_u8 token /\ token <> [] /\ zlen token <= MAX_TOKEN_LEN.
(** The characters a rendered byte is made of. *)
Definition rendered (c : Z) : bool := (0x20 <=? c) && (c <=? 0x7e).

Lemma hex_lower_digit d : 0 <= d < 16 ->
  is_hexdigit (hex_lower d) = true /\ hex_val (hex_lower d) = d /\ rendered (hex_lower d) = true.
Proof.
  intros Hd. unfold hex_lower, is_hexdigit, hex_val, is_digit, rendered. destruct (d <? 10) eqn:E.
  - replace ((48 <=? 48 + d) && (48 + d <=? 57)) with true by lia. lia.
  - replace ((48 <=? 87 + d) && (87 + d <=? 57)) with false by lia.
    replace ((97 <=? 87 + d) && (87 + d <=? 102)) with true by lia. lia.
Qed.
Lemma nibbles b : is_u8 b -> 0 <= b / 16 < 16 /\ 0 <= b mod 16 < 16 /\ b / 16 * 16 + b mod 16 = b.
Proof. unfold is_u8, u8_MAX. divlia. Qed.
(** The forms of a rendered byte. *)
Lemma render_byte_cases b : is_u8 b ->
  (render_byte b = [BACKSLASH; b] /\ (b = QUOTE \/ b = BACKSLASH)) \/
  (render_byte b = [b] /\ b <> QUOTE /\ b <> BACKSLASH /\ rendered b = true) \/
  exists h k, render_byte b = [BACKSLASH; chr "x"; h; k] /\ is_hexdigit h = true /\ is_hexdigit k = true /\
    hex_val h * 16 + hex_val k = b /\ rendered h = true /\ rendered k = true.
Proof.
  intros Hb. unfold render_byte. destruct (b =? QUOTE) eqn:E1; [left; split; [f_equal; f_equal|]; lia|].
  destruct (b =? BACKSLASH) eqn:E2; [left; split; [f_equal; f_equal|]; lia|].
  destruct (_ && _) eqn:E3; [right; left; unfold rendered; split_and!; try done; lia|]. right. right.
  destruct (nibbles b Hb) as (Hh & Hk & Hs). destruct (hex_lower_digit _ Hh) as (? & Eh & ?), (hex_lower_digit _ Hk) as (? & Ek & ?).
  exists (hex_lower (b / 16)), (hex_lower (b mod 16)). rewrite Eh, Ek. done.
Qed.
Ltac render_cases b Hb := destruct (render_byte_cases b Hb) as [[Er [->| ->]]|[(Er & Hq & Hs & Hr)|(h & k & Er & Hh & Hk & Hv & Hrh & Hrk)]].

Lemma render_chars token : Forall is_u8 token -> forallb rendered (token ≫= render_byte) = true.
Proof.
  induction 1 as [|b token Hb _ IH]; [done|]. cbn [mbind list_bind]. rewrite forallb_app, IH, andb_true_r.
  render_cases b Hb; rewrite Er; cbn; rewrite ?Hr, ?Hrh, ?Hrk; done.
Qed.
Lemma rendered_bytes s : forallb rendered s = true -> as_bytes s = s.
Proof.
  unfold as_bytes. induction s as [|c s IH]; [done|]. intros [Hc Hs]%andb_true_iff. cbn. unfold char_bytes, rendered in *.
  replace (c <? 128) with true by lia. cbn. f_equal. by apply IH.
Qed.
Lemma decode_render token : Forall is_u8 token -> decode_dict_token (token ≫= render_byte) = token.
Proof.
  induction 1 as [|b token Hb _ IH]; [done|]. cbn [mbind list_bind]. render_cases b Hb; rewrite Er; cbn [app decode_dict_token].
  - by rewrite IH.
  - by rewrite IH.
  - replace (b =? BACKSLASH) with false by lia. by rewrite IH.
  - change (BACKSLASH =? BACKSLASH) with true. change (chr "x" =? BACKSLASH) with false. change (chr "x" =? QUOTE) with false.
    change (is_x (chr "x")) with true. cbn [andb]. by rewrite Hh, Hk, Hv, IH.
Qed.
Lemma parse_dict_rendered token : token_ok token -> parse_dict_line (render_token token) = Some token /\ line_ok (render_token token).
Proof.
  intros (Hu & Hne & Hl). pose proof (render_chars token Hu) as Hc. unfold render_token. split.
  - unfold parse_dict_line. rewrite trim_line by done. change (starts_with (t "#") (QUOTE :: ?s)) with false.
    rewrite bool_decide_eq_false_2 by done. cbn [orb position]. change (is_quote QUOTE) with true. cbn [mbind option_bind].
    unfold rposition. rewrite app_comm_cons, reverse_app, reverse_singleton. cbn [app position]. change (is_quote QUOTE) with true.
    cbn [mbind option_bind]. assert (Hlen : length (QUOTE :: (token ≫= render_byte) ++ [QUOTE]) = S (S (length (token ≫= render_byte))))
      by (cbn [length]; rewrite length_app, Nat.add_1_r; done).
    rewrite Hlen, (proj2 (Nat.leb_gt _ _)) by lia. change (drop (0 + 1) (QUOTE :: ?s)) with s.
    replace (S (S (length (token ≫= render_byte))) - 1 - 0 - 0 - 1)%nat with (length (token ≫= render_byte)) by lia.
    rewrite take_app_length, rendered_bytes, decode_render by done. rewrite bool_decide_eq_true_2 by done.
    by replace (zlen token <=? MAX_TOKEN_LEN) with true by lia.
  - split; [|exists (QUOTE :: (token ≫= render_byte)), QUOTE; split; [done|done]].
    rewrite avoids_cons, avoids_app. apply andb_true_iff. split; [done|]. rewrite andb_true_r.
    unfold avoids. rewrite forallb_forall in *. intros c Hin. specialize (Hc c Hin). unfold rendered in Hc. lia.
Qed.

(** C30: a dictionary written for AFL++ or libFuzzer is read back token by token,
    whatever bytes the tokens hold: quotes, backslashes, line feeds and every byte
    that is not printable come back as they were. *)
Theorem dict_roundtrip tokens : Forall token_ok tokens -> parse_dict (render_dict tokens) = tokens.
Proof.
  intros Ht. unfold parse_dict, render_dict. change (?g <$> tokens) with (compose (fun l => l ++ [10]) render_token <$> tokens).
  rewrite list_fmap_compose, lines_unlines.
  - induction Ht as [|token tokens Hk _ IH]; [done|]. rewrite fmap_cons. cbn [omap list_omap].
    by rewrite (proj1 (parse_dict_rendered token Hk)), IH.
  - apply Forall_fmap. eapply list.Forall_impl; [exact Ht|]. intros token Hk. apply (parse_dict_rendered token Hk).
Qed.
Lemma dict_roundtrip_witness :
  Forall token_ok [[0x89] ++ t "PNG"; t "MAGIC"; [QUOTE; BACKSLASH; 0x0a; 0; 255]]
  /\ parse_dict (render_dict [[0x89] ++ t "PNG"; t "MAGIC"; [QUOTE; BACKSLASH; 0x0a; 0; 255]])
     = [[0x89] ++ t "PNG"; t "MAGIC"; [QUOTE; BACKSLASH; 0x0a; 0; 255]].
Proof.
  assert (H : Forall token_ok [[0x89] ++ t "PNG"; t "MAGIC"; [QUOTE; BACKSLASH; 0x0a; 0; 255]]).
  { repeat constructor; vm_compute; (done || lia || intros [=]). }
  split; [exact H|]. exact (dict_roundtrip _ H).
Defined.

(** ** A dictionary as source text *)
Lemma string_body_render token rest : Forall is_u8 token -> forall fuel, (length (token ≫= render_byte) < fuel)%nat ->
  string_body fuel ((token ≫= render_byte) ++ QUOTE :: rest) = (token, S (length (token ≫= render_byte))).
Proof.
  induction 1 as [|b token Hb _ IH]; intros fuel Hf; (destruct fuel as [|fuel]; [cbn in Hf; lia|]); [done|].
  cbn [mbind list_bind] in *. rewrite length_app in *. rewrite <- app_assoc.
  render_cases b Hb; rewrite Er in *; cbn [app length string_body] in *.
  - change (string_escape QUOTE ?r) with (QUOTE, 1%nat). change (BACKSLASH =? QUOTE) with false.
    change (BACKSLASH =? BACKSLASH) with true. cbv iota. cbn [drop skipn]. rewrite IH by lia. done.
  - change (string_escape BACKSLASH ?r) with (BACKSLASH, 1%nat). change (BACKSLASH =? QUOTE) with false.
    change (BACKSLASH =? BACKSLASH) with true. cbv iota. cbn [drop skipn]. rewrite IH by lia. done.
  - replace (b =? QUOTE) with false by lia. replace (b =? BACKSLASH) with false by lia. cbv iota. rewrite (IH fuel) by lia. done.
  - change (BACKSLASH =? QUOTE) with false. change (BACKSLASH =? BACKSLASH) with true. cbv iota.
    unfold string_escape. change (is_x (chr "x")) with true. cbn [escape_digits]. rewrite Hh, Hk, Hv.
    change (is_char "n" (chr "x")) with false. change (is_char "t" (chr "x")) with false.
    change (is_char "r" (chr "x")) with false. change (is_char "0" (chr "x")) with false. cbn [Nat.eqb drop skipn].
    rewrite IH by lia. done.
Qed.
Lemma extract_step_token bytes i tokens token rest : token_ok token ->
  drop i bytes = render_token token ++ 10 :: rest ->
  extract_step bytes i tokens = (push_new tokens token, length (render_token token)).
Proof.
  intros (Hu & Hne & Hl) Hd. unfold extract_step. rewrite Hd. unfold render_token. cbn [app].
  change (is_char "/" QUOTE) with false. change (QUOTE =? QUOTE) with true. cbn [andb]. cbv iota.
  unfold scan_string_literal. cbn [drop skipn]. rewrite <- app_assoc. cbn [app]. rewrite drop_0, string_body_render; [|done|].
  - rewrite bool_decide_eq_true_2 by done. replace (zlen token <=? MAX_TOKEN_LEN) with true by lia. cbn [andb length].
    rewrite length_app, Nat.add_1_r. done.
  - cbn [length]. rewrite length_app. cbn [length]. lia.
Qed.
Lemma drop_after {A} (l : list A) i a b : drop i l = a ++ b -> drop (i + length a) l = b.
Proof. intros H. rewrite <- drop_drop, H. apply drop_app_length. Qed.
Lemma extract_rendered_from tokens : Forall token_ok tokens -> forall fuel bytes i found,
  drop i bytes = render_dict tokens -> (length (drop i bytes) <= fuel)%nat ->
  extract_from fuel bytes i found = fold_left push_new tokens found.
Proof.
  induction 1 as [|token tokens Hk _ IH]; intros fuel bytes i found Hd Hf.
  - destruct fuel; [done|]. cbn [extract_from fold_left]. rewrite (proj2 (Nat.ltb_ge _ _)); [done|].
    apply (f_equal length) in Hd. rewrite length_drop in Hd. cbn in Hd. lia.
  - unfold render_dict in Hd. rewrite fmap_cons in Hd. cbn [concat] in Hd. fold (render_dict tokens) in Hd.
    rewrite <- app_assoc in Hd. cbn [app] in Hd. rewrite Hd, length_app in Hf. cbn [length] in Hf.
    assert (Hlt : (i < length bytes)%nat).
    { apply (f_equal length) in Hd. rewrite length_drop, length_app in Hd. cbn in Hd. lia. }
    destruct fuel as [|[|fuel]]; [lia|unfold render_token in Hf; cbn in Hf; lia|]. cbn [extract_from fold_left].
    rewrite (proj2 (Nat.ltb_lt _ _) Hlt), (extract_step_token _ _ _ _ _ Hk Hd).
    assert (Hd2 : drop (i + length (render_token token)) bytes = 10 :: render_dict tokens) by by apply drop_after.
    assert (Hlt2 : (i + length (render_token token) < length bytes)%nat).
    { pose proof (f_equal length Hd2) as Hl. rewrite length_drop in Hl. cbn [length] in Hl. lia. }
    rewrite (proj2 (Nat.ltb_lt _ _) Hlt2). unfold extract_step. rewrite Hd2. cbn [andb].
    change (is_char "/" 10) with false. change (10 =? QUOTE) with false. change (is_char "0" 10) with false. cbn [andb]. cbv iota.
    apply IH.
    + by apply (drop_after _ _ [10] (render_dict tokens)).
    + rewrite (drop_after _ _ [10] (render_dict tokens)) by done. unfold render_token in Hf. cbn in Hf. lia.
Qed.
Lemma push_all tokens : forall found, NoDup (found ++ tokens) -> fold_left push_new tokens found = found ++ tokens.
Proof.
  induction tokens as [|token tokens IH]; intros found Hd; cbn [fold_left]; [by rewrite app_nil_r|].
  unfold push_new at 2. rewrite bool_decide_eq_false_2; [rewrite IH; by rewrite <- app_assoc|].
  apply list.NoDup_app in Hd as (_ & Hd & _). intros Hin. apply (Hd token Hin). left.
Qed.
Lemma render_dict_bytes tokens : Forall token_ok tokens -> as_bytes (render_dict tokens) = render_dict tokens.
Proof.
  intros Ht. unfold as_bytes, render_dict. induction Ht as [|token tokens (Hu & _) _ IH]; [done|]. rewrite fmap_cons. cbn [concat].
  rewrite bind_app, IH. f_equal. unfold render_token. rewrite bind_app. cbn [mbind list_bind]. rewrite bind_app.
  change (?s ≫= char_bytes) with (as_bytes s). rewrite rendered_bytes by by apply render_chars. done.
Qed.

(** The extractor reads a rendered dictionary, as it reads the string literals of
    any source text, back to its tokens: what it decodes from a literal with escapes is
    what was written. *)
Theorem extract_rendered tokens : Forall token_ok tokens -> NoDup tokens -> extract_tokens (render_dict tokens) = tokens.
Proof.
  intros Ht Hd. unfold extract_tokens. rewrite render_dict_bytes, extract_rendered_from with (tokens := tokens) by done.
  by apply (push_all tokens []).
Qed.

(** ** What is extracted *)
Definition found_ok (tokens : list (list Z)) : Prop :=
  NoDup tokens /\ Forall (fun token => token <> [] /\ zlen token <= MAX_TOKEN_LEN) tokens.
Lemma push_new_ok tokens token : token <> [] -> zlen token <= MAX_TOKEN_LEN -> found_ok tokens -> found_ok (push_new tokens token).
Proof.
  intros Hne Hl [Hd Hf]. unfold push_new. case_bool_decide as Hin; [done|]. split.
  - apply list.NoDup_app. split; [done|]. split; [intros x Hx ->%list_elem_of_singleton; done|apply NoDup_singleton].
  - apply list.Forall_app. split; [done|]. by repeat constructor.
Qed.
Lemma int_tokens_size value : Forall (fun token => token <> [] /\ zlen token <= MAX_TOKEN_LEN) (int_tokens value).
Proof.
  unfold int_tokens, to_be_bytes. set (le := to_le_bytes 8 value). assert (Hl : length le = 8%nat) by done.
  set (w := if value <=? 0xffff then 2%nat else _). assert (Hw : (1 <= w <= 8)%nat) by (subst w; repeat case_match; lia).
  assert (H : forall l : list Z, length l = w -> l <> [] /\ zlen l <= MAX_TOKEN_LEN).
  { intros l El. split; [by destruct l; cbn in El; [lia|]|]. unfold zlen, MAX_TOKEN_LEN. lia. }
  assert (length (take w le) = w) by (rewrite length_take; lia).
  assert (length (drop (8 - w) (reverse le)) = w) by (rewrite length_drop, length_reverse; lia).
  case_bool_decide; repeat constructor; by apply H.
Qed.
Lemma extract_step_ok bytes i tokens : (i < length bytes)%nat -> found_ok tokens ->
  found_ok (extract_step bytes i tokens).1 /\ (1 <= (extract_step bytes i tokens).2)%nat.
Proof.
  intros Hi Hf. unfold extract_step. destruct (drop i bytes) as [|b r] eqn:E.
  { apply (f_equal length) in E. rewrite length_drop in E. cbn in E. lia. }
  destruct (is_char "/" b && bool_decide (hd_error r = Some (chr "/"))) eqn:E1.
  { split; [done|]. apply andb_true_iff in E1 as [->%Z.eqb_eq _]. cbn [snd line_comment].
    change (chr "/" =? 10) with false. cbv iota. lia. }
  destruct (is_char "/" b && bool_decide (hd_error r = Some (chr "*"))); [split; [done|cbn; lia]|]. destruct (b =? QUOTE).
  - unfold scan_string_literal. destruct (string_body _ _) as [out n]. cbn [fst snd]. split; [|cbn; lia].
    destruct (bool_decide (out <> []) && (zlen out <=? MAX_TOKEN_LEN)) eqn:El; [|done].
    apply andb_true_iff in El as [Hne%bool_decide_eq_true_1 Hl]. apply push_new_ok; [done|lia|done].
  - destruct (_ && _ && _); [|split; [done|cbn; lia]]. unfold scan_hex_literal. destruct (hex_digits _ _ _) as [[v d] r'].
    cbn [fst snd]. split; [|lia]. destruct (if _ || _ then None else Some v) as [value|]; [|done]. destruct (0xff <? value); [|done].
    generalize (int_tokens_size value). generalize (int_tokens value). intros l Hl. revert tokens Hf.
    induction Hl as [|x l [Hne Hx] _ IH]; intros tokens Hf; [done|]. cbn. apply IH. by apply push_new_ok.
Qed.
Lemma extract_from_ok fuel bytes : forall i tokens, found_ok tokens -> found_ok (extract_from fuel bytes i tokens).
Proof.
  induction fuel as [|fuel IH]; intros i tokens Hf; [done|]. cbn [extract_from]. destruct (i <? length bytes)%nat eqn:E; [|done].
  apply Nat.ltb_lt in E. pose proof (extract_step_ok bytes i tokens E Hf) as [Hs _].
  destruct (extract_step bytes i tokens). by apply IH.
Qed.
(** Every turn moves on, so the length of the text is fuel enough. *)
Lemma extract_fuel bytes : forall fuel i tokens, found_ok tokens -> (length bytes - i <= fuel)%nat ->
  extract_from fuel bytes i tokens = extract_from (S fuel) bytes i tokens.
Proof.
  induction fuel as [|fuel IH]; intros i tokens Hf Hfuel.
  - cbn [extract_from]. rewrite (proj2 (Nat.ltb_ge _ _)) by lia. done.
  - cbn [extract_from] in *. destruct (i <? length bytes)%nat eqn:E; [|done]. apply Nat.ltb_lt in E.
    pose proof (extract_step_ok bytes i tokens E Hf) as [Hs Hn]. destruct (extract_step bytes i tokens) as [tokens' n].
    cbn [fst snd] in *. rewrite IH by (done || lia). done.
Qed.
(** Tokens are never empty, never longer than the limit, and never repeated. *)
Theorem extract_sound source : found_ok (extract_tokens source).
Proof. apply extract_from_ok. split; constructor. Qed.
