(* ===== verification/Allocation.v ===== *)
(** * Campaign allocations

    Models [crates/hf-service/src/campaign_allocation.rs], its [storage.rs] and
    the [comparison_reason] of [crates/hf-service/src/run_comparison.rs].
    UUIDs, timestamps and digests are strings; SHA-256, JSON serialization and
    its sizes are parameters; fresh UUIDs, clock readings and the outcomes of
    lock and writes are arguments.  The process gate and file lock make each
    store operation one step, so the two reads of [reserve] see one state. *)
From S2P Require Import Prelude Engine Errors.

Record AllocationCandidate := mkCandidate {
  target : string;
  dispatch_target : string;
  engine : string;
  language : string;
  target_id : string;
  harness_id : string;
  source_sha256 : string;
}.
#[export] Instance AllocationCandidate_eq_dec : EqDecision AllocationCandidate.
Proof. solve_decision. Defined.

Record AllocationEvidence := mkEvidence {
  run_id : string;
  ev_started_at : string;
  ev_comparison_key : string;
  ev_binary_rev : string;
  ev_edges : Z;
}.

Record AllocationEntry := mkEntry {
  candidate : AllocationCandidate;
  weight : Z;
  max_runs : Z;
  reason : string;
  evidence : list AllocationEvidence;
}.

Record AllocationProposal := mkProposal {
  schema_version : Z;
  proposal_id : string;
  project : string;
  created_at : string;
  total_runs : Z;
  max_total_secs : Z;
  per_run_secs : Z;
  unallocated_secs : Z;
  entries : list AllocationEntry;
}.

Inductive AllocationStatus := Draft | Approved | Revoked.
#[export] Instance AllocationStatus_eq_dec : EqDecision AllocationStatus.
Proof. solve_decision. Defined.

Record AllocationGrant := mkGrant {
  grant_id : string;
  plan_id : string;
  schedule_id : string;
  granted_at : string;
  grant_candidate : AllocationCandidate;
  duration_secs : Z;
}.

Record AllocationView := mkView {
  proposal : AllocationProposal;
  digest : string;
  status : AllocationStatus;
  reviewed_at : option string;
  reservations : list AllocationGrant;
}.

Definition invalid (message : string) : ClassifiedError := Validation message.

(** ** Run history *)
Record RunHistoryItem := mkRun {
  id : string;
  run_target_id : option string;
  comparison_key : option string;
  kind : string;
  run_engine : string;
  run_status : string;
  started_at : string;
  edges : option Z;
  harness_rev : option string;
  binary_rev : option string;
}.

Inductive RunComparisonReason :=
| Comparable | UnfinishedCampaign | MissingSetup | DifferentSetup | MissingExecutable
| DifferentExecutable | MissingCoverage.
#[export] Instance RunComparisonReason_eq_dec : EqDecision RunComparisonReason.
Proof. solve_decision. Defined.

Definition is_ascii_hexdigit (c : Ascii.ascii) : bool :=
  let n := Ascii.N_of_ascii c in
  ((48 <=? n) && (n <=? 57))%N || ((65 <=? n) && (n <=? 70))%N || ((97 <=? n) && (n <=? 102))%N.
Definition is_digest (s : string) : bool :=
  (String.length s =? 64)%nat && forallb is_ascii_hexdigit (String.list_ascii_of_string s).

Definition filter_opt {A} (p : A -> bool) (o : option A) : option A :=
  x ← o; if p x then Some x else None.
Definition digest_changed (first second : option string) : option bool :=
  a ← filter_opt is_digest first; b ← filter_opt is_digest second; Some (negb (String.eqb a b)).
Definition setup_matches (first second : RunHistoryItem) : option bool :=
  let key r := filter_opt (fun k => negb (String.eqb k "")) (comparison_key r) in
  a ← key first; b ← key second; Some (String.eqb a b).

Definition comparison_reason (first second : RunHistoryItem) : RunComparisonReason :=
  if negb (String.eqb (kind first) "Campaign") || negb (String.eqb (kind second) "Campaign")
     || negb (String.eqb (run_status first) "Done") || negb (String.eqb (run_status second) "Done")
  then UnfinishedCampaign
  else
    match setup_matches first second with
    | None => MissingSetup
    | Some false => DifferentSetup
    | Some true =>
        match digest_changed (binary_rev first) (binary_rev second) with
        | None => MissingExecutable
        | Some true => DifferentExecutable
        | Some false =>
            match edges first, edges second with
            | Some _, Some _ => Comparable
            | _, _ => MissingCoverage
            end
        end
    end.

Definition comparable (first second : RunHistoryItem) : bool :=
  bool_decide (comparison_reason first second = Comparable).

(** Newest first. *)
Definition newest_first (a b : RunHistoryItem) : comparison :=
  cmp_pair (started_at b, id b) (started_at a, id a).

Definition relevant (c : AllocationCandidate) (run : RunHistoryItem) : bool :=
  bool_decide (run_target_id run = Some (target_id c)) && comparable run run
  && match from_str (run_engine run) with
     | Ok k => String.eqb (as_str k) (engine c)
     | Err _ => false
     end
  && bool_decide (harness_rev run = Some (source_sha256 c)).

Definition to_evidence (run : RunHistoryItem) : option AllocationEvidence :=
  key ← comparison_key run; rev ← binary_rev run; e ← edges run;
  Some (mkEvidence (id run) (started_at run) key rev e).

Definition comparable_evidence (c : AllocationCandidate) (history : list RunHistoryItem)
    : list AllocationEvidence :=
  let runs := sort_by newest_first (filter (fun r => relevant c r = true) history) in
  match runs with
  | [] => []
  | latest :: _ =>
      rev (omap to_evidence (take 2 (filter (fun r => comparable r latest = true) runs)))
  end.

(** ** Proposals *)
Definition growing (ev : list AllocationEvidence) : bool :=
  match ev with [a; b] => ev_edges a <? ev_edges b | _ => false end.

Definition new_entry (history : list RunHistoryItem) (c : AllocationCandidate) : AllocationEntry :=
  let ev := comparable_evidence c history in
  mkEntry c (if growing ev then 2 else 1) 1
    (if growing ev then "Recent comparable runs gained edges"
     else if (length ev =? 2)%nat
     then "Comparable runs did not gain edges; minimum service retained"
     else "Two comparable retained runs are unavailable; equal service") ev.

Definition cmp_candidate (a b : AllocationCandidate) : comparison :=
  cmp_pair (target a, engine a) (target b, engine b).

(** [windows(2).any(...)]. *)
Fixpoint repeated_pair (l : list AllocationCandidate) : bool :=
  match l with
  | a :: ((b :: _) as l') =>
      (String.eqb (target a) (target b) && String.eqb (engine a) (engine b)) || repeated_pair l'
  | _ => false
  end.

(** Each index as often as its weight. *)
Definition cycle_of (es : list AllocationEntry) : list nat :=
  concat (imap (fun i e => replicate (Z.to_nat (weight e)) i) es).
(** [cycle.iter().cycle().take(n)]. *)
Definition cycle_take {A} (n : nat) (l : list A) : list A :=
  omap (fun k => l !! (k mod length l)%nat) (seq 0 n).

Definition add_run (e : AllocationEntry) : AllocationEntry :=
  mkEntry (candidate e) (weight e) (max_runs e + 1) (reason e) (evidence e).
Definition share (es : list AllocationEntry) (n : nat) : list AllocationEntry :=
  fold_left (fun es i => alter add_run i es) (cycle_take n (cycle_of es)) es.

Definition make_proposal (proj : string) (candidates : list AllocationCandidate)
    (history : list RunHistoryItem) (runs secs : Z) (new_id now : string)
    : Result ClassifiedError AllocationProposal :=
  if (zlen candidates =? 0) || (64 <? zlen candidates) || (runs <? zlen candidates)
     || (10000 <? runs) || (secs <? runs) || (31536000 <? secs)
  then Err (invalid "select 1–64 targets, reserve at least one run each (at most 10000), and supply 1–31536000 fuzz seconds with at least one second per run")
  else
    let sorted := sort_by cmp_candidate candidates in
    if repeated_pair sorted
    then Err (invalid "an allocation may select each target/engine only once")
    else
      let es := new_entry history <$> sorted in
      Ok (mkProposal 1 new_id proj now runs secs (secs / runs) (secs mod runs)
            (share es (Z.to_nat (runs - zlen es)))).

(** ** The store *)
Definition used (c : AllocationCandidate) (gs : list AllocationGrant) : Z :=
  zlen (filter (fun g => grant_candidate g = c) gs).

(** [HashSet::insert] of each key in turn never finds one present. *)
Fixpoint distinct (l : list string) : bool :=
  match l with [] => true | x :: l => negb (existsb (String.eqb x) l) && distinct l end.

Section store.
Context (proposal_digest : AllocationProposal -> Result ClassifiedError string).
Context (state_len : AllocationView -> Z).
(** The project this store is for, and the build's feature flag. *)
Context (owner : string) (feature : bool).

Definition sum_runs (es : list AllocationEntry) : Z := foldr (fun e n => max_runs e + n) 0 es.

Definition bad_entry (v : AllocationView) (e : AllocationEntry) : bool :=
  (max_runs e =? 0) || (2 <? zlen (evidence e)) || negb ((1 <=? weight e) && (weight e <=? 2))
  || negb (is_digest (source_sha256 (candidate e)))
  || (max_runs e <? used (candidate e) (reservations v)).
Definition bad_grant (p : AllocationProposal) (g : AllocationGrant) : bool :=
  negb (String.eqb (plan_id g) (proposal_id p)) || (duration_secs g =? 0)
  || (per_run_secs p <? duration_secs g)
  || negb (existsb (fun e => bool_decide (candidate e = grant_candidate g)) (entries p)).

Definition validate (v : AllocationView) : Result ClassifiedError unit :=
  let p := proposal v in
  let bad := Err (invalid "invalid retained allocation proposal or accounting") in
  if negb (schema_version p =? 1) || negb (String.eqb (project p) owner)
     || (zlen (entries p) =? 0) || (64 <? zlen (entries p)) || (total_runs p =? 0)
     || (10000 <? total_runs p) || (per_run_secs p =? 0) || (31536000 <? max_total_secs p)
     || negb (max_total_secs p / total_runs p =? per_run_secs p)
     || negb (max_total_secs p mod total_runs p =? unallocated_secs p)
  then bad
  else
    d ← proposal_digest p;
    if negb (String.eqb d (digest v)) || (total_runs p <? zlen (reservations v))
       || negb (sum_runs (entries p) =? total_runs p)
    then bad
    else if existsb (bad_entry v) (entries p)
            || negb (distinct ((fun e => harness_id (candidate e)) <$> entries p))
    then Err (invalid "invalid retained allocation entry")
    else if existsb (bad_grant p) (reservations v)
            || negb (distinct (grant_id <$> reservations v))
    then Err (invalid "invalid retained allocation reservation")
    else Ok tt.

(** What is on disk: the current state and the archived proposals. *)
Record Disk := mkDisk {
  current : option AllocationView;
  archive : gmap string AllocationView;
}.

Definition read (d : Disk) : Result ClassifiedError (option AllocationView) :=
  match current d with
  | None => Ok None
  | Some v =>
      if 16 * 1024 * 1024 <? state_len v
      then Err (invalid "allocation state exceeds its size limit")
      else _ ← validate v; Ok (Some v)
  end.

(** [atomic_write_json] fails before it replaces the file, or after, when the
    directory cannot be synced. *)
Inductive WriteOutcome :=
| Written
| Unwritten (e : ClassifiedError)
| Unsynced (e : ClassifiedError).
Definition stored (o : WriteOutcome) : bool := match o with Unwritten _ => false | _ => true end.
Definition write_result (o : WriteOutcome) : Result ClassifiedError unit :=
  match o with Written => Ok tt | Unwritten e | Unsynced e => Err e end.

(** Outcomes of the file operations of one call: lock, archive write, write. *)
Record Io := mkIo {
  io_lock : Result ClassifiedError unit;
  io_archive : WriteOutcome;
  io_write : WriteOutcome;
}.
Definition io_ok : Io := mkIo (Ok tt) Written Written.

Definition write (d : Disk) (io : Io) (v : AllocationView) : Disk * Result ClassifiedError unit :=
  (if stored (io_write io) then mkDisk (Some v) (archive d) else d, write_result (io_write io)).
Definition archive_view (d : Disk) (io : Io) (v : AllocationView) : Disk * Result ClassifiedError unit :=
  (if stored (io_archive io) then mkDisk (current d) (<[proposal_id (proposal v) := v]> (archive d)) else d,
   write_result (io_archive io)).

Definition propose (d : Disk) (io : Io) (p : AllocationProposal)
    : Disk * Result ClassifiedError AllocationView :=
  match io_lock io with
  | Err e => (d, Err e)
  | Ok _ =>
      match read d with
      | Err e => (d, Err e)
      | Ok previous =>
          let archived :=
            match previous with
            | None => (d, Ok tt)
            | Some v =>
                if bool_decide (status v = Revoked) then archive_view d io v
                else (d, Err (invalid "revoke the current allocation before proposing another"))
            end in
          match archived with
          | (d, Err e) => (d, Err e)
          | (d, Ok _) =>
              match proposal_digest p with
              | Err e => (d, Err e)
              | Ok dg =>
                  let v := mkView p dg Draft None [] in
                  match validate v with
                  | Err e => (d, Err e)
                  | Ok _ => let '(d, r) := write d io v in (d, _ ← r; Ok v)
                  end
              end
          end
      end
  end.

Definition review (d : Disk) (io : Io) (id dg : string) (approve : bool) (now : string)
    : Disk * Result ClassifiedError AllocationView :=
  match _ ← io_lock io; o ← read d; ok_or (invalid "no project allocation exists") o with
  | Err e => (d, Err e)
  | Ok v =>
      if negb (String.eqb (proposal_id (proposal v)) id) || negb (String.eqb (digest v) dg)
      then (d, Err (invalid "allocation changed; reload and review the exact proposal"))
      else if approve && negb (bool_decide (status v = Draft))
      then (d, Err (invalid "only a draft allocation can be approved"))
      else
        let v := mkView (proposal v) (digest v) (if approve then Approved else Revoked) (Some now)
                   (reservations v) in
        let '(d, r) := write d io v in (d, _ ← r; Ok v)
  end.

(** The entry a reservation charges: round robin from the number of grants. *)
Definition pick (v : AllocationView) (candidates : list AllocationCandidate) : option AllocationEntry :=
  let es := entries (proposal v) in
  let count := length (reservations v) in
  find_map (fun offset =>
    e ← es !! ((count + offset) mod length es)%nat;
    if bool_decide (candidate e ∈ candidates) && (used (candidate e) (reservations v) <? max_runs e)
    then Some e else None) (seq 0 (length es)).

Definition reserve (d : Disk) (io : Io) (schedule : string) (candidates : list AllocationCandidate)
    (requested_secs : Z) (new_id now : string)
    : Disk * Result ClassifiedError (option AllocationGrant) :=
  match read d with
  | Err e => (d, Err e)
  | Ok None => (d, Ok None)
  | Ok (Some v) =>
      match io_lock io with
      | Err e => (d, Err e)
      | Ok _ =>
          if negb feature
          then (d, Err (invalid "project has an allocation but campaign-allocation is disabled"))
          else if negb (bool_decide (status v = Approved))
          then (d, Err (invalid "project allocation is not approved"))
          else if String.eqb schedule "" || (1024 <? Z.of_nat (String.length schedule))
                  || (requested_secs =? 0)
          then (d, Err (invalid "allocation reservation needs a schedule and positive duration"))
          else
            match pick v candidates with
            | None => (d, Err (invalid "no allocation allowance for this schedule's current promoted harnesses; quota may be exhausted or approval stale"))
            | Some e =>
                let g := mkGrant new_id (proposal_id (proposal v)) schedule now (candidate e)
                           (Z.min requested_secs (per_run_secs (proposal v))) in
                let '(d, r) := write d io (mkView (proposal v) (digest v) (status v) (reviewed_at v)
                                             (reservations v ++ [g])) in
                (d, _ ← r; Ok (Some g))
            end
      end
  end.
End store.

(** ** Executing a grant *)
Record GrantExecution := mkExecution {
  x_candidate : AllocationCandidate;
  x_duration_secs : Z;
  attempted : bool;
}.
Record Harness := mkHarness {
  h_id : string;
  h_target_id : string;
  h_engine : EngineKind;
  h_source : string;
}.
Definition with_grant (g : AllocationGrant) : GrantExecution :=
  mkExecution (grant_candidate g) (duration_secs g) false.

(** [scope] is the task-local grant, absent for a manually requested run. *)
Definition verify_granted_harness (sha256_hex : string -> string) (scope : option GrantExecution)
    (h : Harness) (secs : Z) : option GrantExecution * Result ClassifiedError unit :=
  match scope with
  | None => (None, Ok tt)
  | Some g =>
      let c := x_candidate g in
      if negb (String.eqb (harness_id c) (h_id h)) || negb (String.eqb (target_id c) (h_target_id h))
         || negb (String.eqb (engine c) (as_str (h_engine h)))
         || negb (String.eqb (source_sha256 c) (sha256_hex (h_source h)))
      then (scope, Err (invalid "active harness changed since allocation approval; review a new allocation"))
      else if x_duration_secs g <? secs
      then (scope, Err (invalid "run exceeds allocation duration"))
      else (Some (mkExecution c (x_duration_secs g) true),
            if attempted g then Err (invalid "allocation grant was already attempted") else Ok tt)
  end.

(** ** Lemmas: fair shares *)
Definition occ (i : nat) (l : list nat) : Z := zlen (filter (fun j => j = i) l).
Lemma occ_app i l k : occ i (l ++ k) = occ i l + occ i k.
Proof. unfold occ. by rewrite list.filter_app, zlen_app. Qed.
Lemma occ_nonneg i l : 0 <= occ i l.
Proof. apply zlen_nonneg. Qed.
Lemma occ_cons i j l : occ i (j :: l) = (if decide (j = i) then 1 else 0) + occ i l.
Proof. unfold occ. rewrite filter_cons. case_decide; [rewrite zlen_cons; lia|lia]. Qed.

Lemma cycle_take_small {A} n (l : list A) : (n <= length l)%nat -> cycle_take n l = take n l.
Proof.
  intros Hn. unfold cycle_take. induction n as [|n IH]; [done|].
  rewrite seq_S, omap_app, IH by lia. cbn. rewrite Nat.mod_small by lia.
  destruct (lookup_lt_is_Some_2 l n ltac:(lia)) as [x Hx]. rewrite Hx. by rewrite (take_S_r l n x Hx).
Qed.
Lemma cycle_take_round {A} n (l : list A) :
  l <> [] -> cycle_take (length l + n) l = l ++ cycle_take n l.
Proof.
  intros Hl. assert (Hpos : (0 < length l)%nat) by (destruct l; cbn; [done|lia]).
  unfold cycle_take. rewrite seq_app, omap_app. f_equal.
  - change (cycle_take (length l) l = l). by rewrite cycle_take_small, firstn_all.
  - rewrite Nat.add_0_l.
    replace (seq (length l) n) with (Nat.add (length l) <$> seq 0 n)
      by (by rewrite fmap_add_seq, Nat.add_0_r).
    generalize (seq 0 n) as ks. induction ks as [|k ks IH]; [done|]. cbn.
    rewrite IH. replace ((length l + k) mod length l)%nat with (k mod length l)%nat; [done|].
    rewrite <- (Nat.Div0.mod_add k 1 (length l)), Nat.mul_1_l. f_equal. lia.
Qed.
Lemma cycle_take_rounds {A} q r (l : list A) : l <> [] -> (r <= length l)%nat ->
  cycle_take (q * length l + r) l = concat (replicate q l) ++ take r l.
Proof.
  intros Hl Hr. induction q as [|q IH]; [by apply cycle_take_small|].
  change (S q * length l)%nat with (length l + q * length l)%nat. cbn [replicate concat].
  by rewrite <- (Nat.add_assoc (length l) (q * length l) r), cycle_take_round, IH, <- app_assoc.
Qed.

Lemma occ_rounds i q l : occ i (concat (replicate q l)) = Z.of_nat q * occ i l.
Proof. induction q as [|q IH]; cbn; [done|]. rewrite occ_app, IH. lia. Qed.
Lemma occ_take i r l : 0 <= occ i (take r l) <= occ i l.
Proof.
  pose proof (occ_app i (take r l) (drop r l)) as H. rewrite take_drop in H.
  pose proof (occ_nonneg i (take r l)). pose proof (occ_nonneg i (drop r l)). lia.
Qed.

(** How often an index is served in [n] turns of the cycle. *)
Lemma occ_cycle i n l : l <> [] ->
  let q := Z.of_nat n / zlen l in
  q * occ i l <= occ i (cycle_take n l) <= (q + 1) * occ i l.
Proof.
  intros Hl q. assert (Hpos : (0 < length l)%nat) by (destruct l; cbn; [done|lia]).
  rewrite (Nat.div_mod_eq n (length l)) at 1 2. rewrite (Nat.mul_comm (length l)).
  rewrite cycle_take_rounds by (done || (apply Nat.lt_le_incl, Nat.mod_upper_bound; lia)).
  rewrite occ_app, occ_rounds. pose proof (occ_take i (n mod length l) l).
  assert (q = Z.of_nat (n / length l)) as -> by (unfold q, zlen; by rewrite Nat2Z.inj_div). lia.
Qed.

Lemma occ_replicate i j n : occ i (replicate n j) = if decide (j = i) then Z.of_nat n else 0.
Proof.
  induction n as [|n IH]; cbn [replicate]; [by case_decide|]. rewrite occ_cons, IH. case_decide; lia.
Qed.

Definition weights (es : list AllocationEntry) : Z := foldr (fun e n => weight e + n) 0 es.
Lemma cycle_offset k es i :
  Forall (fun e => 0 <= weight e) es ->
  occ i (concat (imap (fun j e => replicate (Z.to_nat (weight e)) (k + j)%nat) es))
  = match (if (k <=? i)%nat then es !! (i - k)%nat else None) with Some e => weight e | None => 0 end /\
  zlen (concat (imap (fun j e => replicate (Z.to_nat (weight e)) (k + j)%nat) es)) = weights es.
Proof.
  revert k. induction es as [|e es IH]; intros k Hw.
  { split; [|done]. cbn. by destruct (k <=? i)%nat. }
  cbn.
  apply Forall_cons_iff in Hw as [He Hes]. specialize (IH (S k) Hes).
  assert (Hext : imap ((fun j e => replicate (Z.to_nat (weight e)) (k + j)%nat) ∘ S) es
                 = imap (fun j e => replicate (Z.to_nat (weight e)) (S k + j)%nat) es).
  { apply imap_ext. intros j x _. cbn. by rewrite Nat.add_succ_r. }
  rewrite Hext, occ_app, occ_replicate, zlen_app. destruct IH as [-> ->]. rewrite Nat.add_0_r.
  split; [|unfold zlen, weights; rewrite length_replicate; lia].
  destruct (decide (k = i)) as [->|Hne].
  - rewrite Nat.leb_refl, Nat.sub_diag, (proj2 (Nat.leb_gt (S i) i)) by lia. cbn. lia.
  - destruct (k <=? i)%nat eqn:E1; destruct (S k <=? i)%nat eqn:E2; try lia.
    replace (i - k)%nat with (S (i - S k)) by lia. reflexivity.
Qed.

Lemma occ_cycle_of es i : Forall (fun e => 0 <= weight e) es ->
  occ i (cycle_of es) = match es !! i with Some e => weight e | None => 0 end /\
  zlen (cycle_of es) = weights es.
Proof.
  intros Hw. pose proof (cycle_offset 0 es i Hw) as H. cbn in H. by rewrite Nat.sub_0_r in H.
Qed.
Lemma cycle_of_bound es i : i ∈ cycle_of es -> (i < length es)%nat.
Proof.
  unfold cycle_of. rewrite list_elem_of_In, in_concat. intros (x & Hx & Hi).
  apply list_elem_of_In in Hx, Hi. apply elem_of_lookup_imap in Hx as (j & e & -> & Hj).
  apply elem_of_replicate in Hi as [-> _]. by eapply lookup_lt_Some.
Qed.

Definition add_runs (n : Z) (e : AllocationEntry) : AllocationEntry :=
  mkEntry (candidate e) (weight e) (max_runs e + n) (reason e) (evidence e).
Lemma add_runs_0 e : add_runs 0 e = e.
Proof. destruct e. unfold add_runs; cbn. f_equal. lia. Qed.
Lemma fold_add_runs l (es : list AllocationEntry) i :
  fold_left (fun es i => alter add_run i es) l es !! i = add_runs (occ i l) <$> es !! i.
Proof.
  revert es. induction l as [|j l IH]; intros es; cbn.
  - destruct (es !! i); cbn; [|done]. by rewrite add_runs_0.
  - rewrite IH, occ_cons. destruct (decide (j = i)) as [->|Hne].
    + rewrite list_lookup_alter_eq. destruct (es !! i) as [e|]; [|done]. cbn. f_equal.
      unfold add_runs, add_run; cbn. f_equal. lia.
    + rewrite list_lookup_alter_ne by done. done.
Qed.
Lemma sum_runs_alter (es : list AllocationEntry) i : (i < length es)%nat -> sum_runs (alter add_run i es) = sum_runs es + 1.
Proof.
  unfold sum_runs. revert i. induction es as [|e es IH]; intros [|i] Hi; cbn in *; try lia.
  rewrite IH by lia. lia.
Qed.
Lemma sum_runs_fold l es : Forall (fun i => (i < length es)%nat) l ->
  sum_runs (fold_left (fun es i => alter add_run i es) l es) = sum_runs es + zlen l.
Proof.
  intros Hl. revert es Hl. induction l as [|i l IH]; intros es Hl; [rewrite zlen_nil; cbn [fold_left]; lia|]. cbn [fold_left].
  apply Forall_cons_iff in Hl as [Hi Hl]. rewrite IH by (by rewrite length_alter).
  rewrite sum_runs_alter, zlen_cons by done. lia.
Qed.
Lemma length_cycle_take {A} n (l : list A) : l <> [] -> length (cycle_take n l) = n.
Proof.
  intros Hl. assert (Hpos : (0 < length l)%nat) by (destruct l; cbn; [done|lia]).
  rewrite (Nat.div_mod_eq n (length l)) at 1. rewrite (Nat.mul_comm (length l)).
  pose proof (Nat.mod_upper_bound n (length l) ltac:(lia)).
  rewrite cycle_take_rounds by (done || lia).
  rewrite length_app, concat_replicate_length, length_take_le by lia.
  rewrite (Nat.div_mod_eq n (length l)) at 3. lia.
Qed.
Lemma cycle_take_elem {A} n (l : list A) x : x ∈ cycle_take n l -> x ∈ l.
Proof.
  unfold cycle_take. rewrite list_elem_of_omap. intros (k & _ & Hk). by eapply list_elem_of_lookup_2.
Qed.

Lemma cmp_fields e e' n : e' = add_runs n e ->
  candidate e' = candidate e /\ weight e' = weight e /\ max_runs e' = max_runs e + n.
Proof. by intros ->. Qed.

(** What sharing [n] runs gives each entry. *)
Lemma share_spec es n i e :
  Forall (fun e => 1 <= weight e) es -> share es n !! i = Some e ->
  exists e0, es !! i = Some e0 /\ candidate e = candidate e0 /\ weight e = weight e0 /\
    evidence e = evidence e0 /\
    let q := Z.of_nat n / weights es in
    max_runs e0 + weight e * q <= max_runs e <= max_runs e0 + weight e * (q + 1).
Proof.
  intros Hw. unfold share. rewrite fold_add_runs. destruct (es !! i) as [e0|] eqn:E0; [|done].
  cbn. intros [= <-]. exists e0. do 4 (split; [done|]).
  assert (Hw0 : Forall (fun e => 0 <= weight e) es) by (eapply Forall_impl; [|exact Hw]; cbn; lia).
  destruct (occ_cycle_of es i Hw0) as [Ho Hlen]. rewrite E0 in Ho.
  assert (Hne : cycle_of es <> []).
  { intros Hn. rewrite Hn in Ho. change (0 = weight e0) in Ho.
    pose proof (list.Forall_lookup_1 _ _ _ _ Hw E0) as H1. cbn in H1. lia. }
  pose proof (occ_cycle i n (cycle_of es) Hne) as Hc. rewrite Ho, Hlen in Hc.
  cbv zeta in *. unfold add_runs; cbn [max_runs weight]. nia.
Qed.
Lemma share_sum es n :
  es <> [] -> Forall (fun e => 1 <= weight e) es -> sum_runs (share es n) = sum_runs es + Z.of_nat n /\
  length (share es n) = length es.
Proof.
  intros Hne Hw. unfold share.
  assert (Hw0 : Forall (fun e => 0 <= weight e) es) by (eapply Forall_impl; [|exact Hw]; cbn; lia).
  assert (Hc : cycle_of es <> []).
  { destruct es as [|e es]; [done|]. intros Hn. destruct (occ_cycle_of (e :: es) 0 Hw0) as [Ho _].
    rewrite Hn in Ho. change (0 = weight e) in Ho. apply Forall_cons_iff in Hw as [? _]. lia. }
  split.
  - rewrite sum_runs_fold; [unfold zlen; by rewrite length_cycle_take|].
    apply list.Forall_forall. intros i Hi%cycle_take_elem. by apply cycle_of_bound.
  - generalize (cycle_take n (cycle_of es)) as l. intros l. clear. revert es.
    induction l as [|i l IH]; intros es; cbn; [done|]. by rewrite IH, length_alter.
Qed.

Lemma new_entry_spec history c :
  candidate (new_entry history c) = c /\ max_runs (new_entry history c) = 1 /\
  weight (new_entry history c) = (if growing (comparable_evidence c history) then 2 else 1) /\
  zlen (evidence (new_entry history c)) <= 2.
Proof.
  split_and!; try done. unfold new_entry; cbn. unfold comparable_evidence.
  destruct (sort_by _ _) as [|latest runs]; [done|]. unfold zlen. rewrite length_rev.
  set (l := filter _ _). assert (forall (f : RunHistoryItem -> option AllocationEvidence) k,
    (length (omap f k) <= length k)%nat) as Homap.
  { intros f k. induction k as [|x k IH]; cbn; [lia|]. destruct (f x); cbn; lia. }
  pose proof (Homap to_evidence (take 2 l)). rewrite length_take in H. lia.
Qed.

(** Selections a proposal accepts. *)
Lemma make_proposal_Ok proj cs history runs secs i now p :
  make_proposal proj cs history runs secs i now = Ok p ->
  let es := new_entry history <$> sort_by cmp_candidate cs in
  1 <= zlen cs <= 64 /\ zlen cs <= runs <= 10000 /\ runs <= secs <= 31536000 /\
  p = mkProposal 1 i proj now runs secs (secs / runs) (secs mod runs)
        (share es (Z.to_nat (runs - zlen es))) /\ zlen es = zlen cs.
Proof.
  unfold make_proposal. destruct (_ || _) eqn:E; [done|]. destruct (repeated_pair _); [done|].
  intros [= <-]. cbv zeta.
  assert (Hl : zlen (new_entry history <$> sort_by cmp_candidate cs) = zlen cs).
  { unfold zlen. by rewrite length_fmap, (Permutation_length (sort_by_perm cmp_candidate cs)). }
  rewrite Hl. split_and!; try done; pose proof (zlen_nonneg cs); lia.
Qed.

Lemma new_entries_weights history cs :
  Forall (fun e => 1 <= weight e) (new_entry history <$> cs).
Proof.
  apply Forall_fmap, list.Forall_forall. intros c _. unfold compose.
  destruct (new_entry_spec history c) as (_ & _ & -> & _). case_match; lia.
Qed.
Lemma new_entries_sum history cs : sum_runs (new_entry history <$> cs) = zlen cs.
Proof.
  unfold sum_runs. induction cs as [|c cs IH]; [done|]. rewrite fmap_cons, zlen_cons. cbn [foldr].
  rewrite IH. destruct (new_entry_spec history c) as (_ & -> & _). lia.
Qed.

Lemma proposal_entry proj cs history runs secs i now p e :
  make_proposal proj cs history runs secs i now = Ok p -> e ∈ entries p ->
  candidate e ∈ cs /\
  weight e = (if growing (comparable_evidence (candidate e) history) then 2 else 1) /\
  zlen (evidence e) <= 2 /\
  let extra := runs - zlen cs in
  let W := weights (new_entry history <$> sort_by cmp_candidate cs) in
  1 + weight e * (extra / W) <= max_runs e <= 1 + weight e * (extra / W + 1).
Proof.
  intros (Hcs & Hr & Hs & -> & Hl)%make_proposal_Ok [k Hk]%list_elem_of_lookup_1. cbn in Hk.
  apply share_spec in Hk as (e0 & He0 & Hc & Hw & Hev & Hm); [|apply new_entries_weights].
  rewrite list_lookup_fmap in He0. destruct (sort_by cmp_candidate cs !! k) as [c|] eqn:Ek; [|done].
  cbn in He0. injection He0 as <-.
  destruct (new_entry_spec history c) as (H1 & H2 & H3 & H4). rewrite Hc, H1, Hw, H3, Hev.
  split; [|split; [done|split; [done|]]].
  - rewrite <- (sort_by_perm cmp_candidate cs). by eapply list_elem_of_lookup_2.
  - cbv zeta. rewrite Hw, H2, H3 in Hm. rewrite Hl, Z2Nat.id in Hm by lia. exact Hm.
Qed.

(** ** Lemmas: the store *)
Lemma distinct_NoDup l : distinct l = true <-> NoDup l.
Proof.
  induction l as [|x l IH]; cbn; [split; [intros _; apply NoDup_nil_2|done]|].
  rewrite andb_true_iff, negb_true_iff, IH, list.NoDup_cons. f_equiv.
  rewrite <- not_true_iff_false, existsb_exists. f_equiv. split.
  - intros (y & Hy & ->%String.eqb_eq). by apply list_elem_of_In.
  - intros Hx. exists x. by rewrite <- list_elem_of_In, String.eqb_eq.
Qed.
Lemma existsb_false {A} (f : A -> bool) l : existsb f l = false <-> Forall (fun x => f x = false) l.
Proof.
  induction l as [|x l IH]; cbn; [by rewrite Forall_nil_iff|].
  by rewrite orb_false_iff, IH, Forall_cons_iff.
Qed.

Lemma used_app c gs gs' : used c (gs ++ gs') = used c gs + used c gs'.
Proof. unfold used. by rewrite list.filter_app, zlen_app. Qed.
Lemma used_one c g : used c [g] = if decide (grant_candidate g = c) then 1 else 0.
Proof. unfold used. rewrite filter_cons. by case_decide. Qed.

Section store.
Context (proposal_digest : AllocationProposal -> Result ClassifiedError string).
Context (state_len : AllocationView -> Z) (owner : string) (feature : bool).
Notation validate := (validate proposal_digest owner).
Notation read := (read proposal_digest state_len owner).
Notation propose := (propose proposal_digest state_len owner).
Notation review := (review proposal_digest state_len owner).
Notation reserve := (reserve proposal_digest state_len owner feature).

(** [validate] as a proposition. *)
Definition proposal_ok (p : AllocationProposal) : Prop :=
  schema_version p = 1 /\ project p = owner /\ 1 <= zlen (entries p) <= 64 /\
  total_runs p <> 0 /\ total_runs p <= 10000 /\ per_run_secs p <> 0 /\
  max_total_secs p <= 31536000 /\ max_total_secs p / total_runs p = per_run_secs p /\
  max_total_secs p mod total_runs p = unallocated_secs p /\ sum_runs (entries p) = total_runs p /\
  NoDup ((fun e => harness_id (candidate e)) <$> entries p).
Definition entry_valid (gs : list AllocationGrant) (e : AllocationEntry) : Prop :=
  max_runs e <> 0 /\ zlen (evidence e) <= 2 /\ 1 <= weight e <= 2 /\
  is_digest (source_sha256 (candidate e)) = true /\ used (candidate e) gs <= max_runs e.
Definition grant_valid (p : AllocationProposal) (g : AllocationGrant) : Prop :=
  plan_id g = proposal_id p /\ duration_secs g <> 0 /\ duration_secs g <= per_run_secs p /\
  exists e, e ∈ entries p /\ candidate e = grant_candidate g.
Definition valid (v : AllocationView) : Prop :=
  proposal_ok (proposal v) /\ proposal_digest (proposal v) = Ok (digest v) /\
  zlen (reservations v) <= total_runs (proposal v) /\
  Forall (entry_valid (reservations v)) (entries (proposal v)) /\
  Forall (grant_valid (proposal v)) (reservations v) /\ NoDup (grant_id <$> reservations v).

Lemma bad_entry_spec v e : bad_entry v e = false <-> entry_valid (reservations v) e.
Proof.
  unfold bad_entry, entry_valid. rewrite !orb_false_iff, !negb_false_iff, andb_true_iff.
  rewrite Z.eqb_neq, !Z.ltb_ge, !Z.leb_le. tauto.
Qed.
Lemma bad_grant_spec p g : bad_grant p g = false <-> grant_valid p g.
Proof.
  unfold bad_grant, grant_valid. rewrite !orb_false_iff, !negb_false_iff, String.eqb_eq, Z.eqb_neq, Z.ltb_ge.
  rewrite existsb_exists. split.
  - intros [[[? ?] ?] (e & He & Hc)]. split_and!; try done. exists e.
    by rewrite list_elem_of_In; apply bool_decide_eq_true in Hc.
  - intros (? & ? & ? & e & He & Hc). split_and!; try done. exists e.
    rewrite <- list_elem_of_In. by rewrite bool_decide_eq_true.
Qed.

Lemma validate_spec v : validate v = Ok tt <-> valid v.
Proof.
  unfold Allocation.validate, valid, proposal_ok.
  set (P := negb (schema_version _ =? 1) || _ || _ || _ || _ || _ || _ || _ || _ || _).
  destruct P eqn:EP; subst P.
  { split; [done|]. intros ((H1 & H2 & H3 & H4 & H5 & H6 & H7 & H8 & H9 & _) & _). exfalso.
    apply String.eqb_eq in H2. rewrite H2 in EP. cbn in EP. lia. }
  rewrite !orb_false_iff, !negb_false_iff, String.eqb_eq in EP.
  destruct (proposal_digest (proposal v)) as [d|e]; cbn.
  2:{ split; [done|]. intros (_ & [=] & _). }
  destruct (negb (String.eqb d (digest v)) || _ || _) eqn:E2.
  { split; [done|]. intros ((_ & _ & _ & _ & _ & _ & _ & _ & _ & Hs & _) & [= ->] & Hl & _).
    exfalso. rewrite String.eqb_refl in E2. cbn in E2. lia. }
  rewrite !orb_false_iff, !negb_false_iff, String.eqb_eq, Z.ltb_ge, Z.eqb_eq in E2.
  destruct E2 as [[-> Hl] Hsum].
  destruct (existsb (bad_entry v) _ || _) eqn:E3.
  { split; [done|]. intros ((_ & _ & _ & _ & _ & _ & _ & _ & _ & _ & Hd) & _ & _ & He & _). exfalso.
    apply distinct_NoDup in Hd. rewrite Hd in E3. cbn in E3. rewrite orb_false_r in E3.
    assert (existsb (bad_entry v) (entries (proposal v)) = false); [|congruence].
    apply existsb_false. eapply Forall_impl; [|exact He]. intros x. apply bad_entry_spec. }
  rewrite orb_false_iff, negb_false_iff, distinct_NoDup, existsb_false in E3. destruct E3 as [He Hd].
  destruct (existsb (bad_grant _) _ || _) eqn:E4.
  { split; [done|]. intros (_ & _ & _ & _ & Hg & Hn). exfalso.
    apply distinct_NoDup in Hn. rewrite Hn in E4. cbn in E4. rewrite orb_false_r in E4.
    assert (existsb (bad_grant (proposal v)) (reservations v) = false); [|congruence].
    apply existsb_false. eapply Forall_impl; [|exact Hg]. intros x. apply bad_grant_spec. }
  rewrite orb_false_iff, negb_false_iff, distinct_NoDup, existsb_false in E4. destruct E4 as [Hg Hn].
  split; [|done]. intros _. destruct EP as [[[[[[[[[? ?] ?] ?] ?] ?] ?] ?] ?] ?].
  split; [|split; [done|split; [done|split; [|split; [|done]]]]].
  - pose proof (zlen_nonneg (entries (proposal v))). split_and!; done || lia.
  - eapply Forall_impl; [|exact He]. intros x. apply bad_entry_spec.
  - eapply Forall_impl; [|exact Hg]. intros x. apply bad_grant_spec.
Qed.

(** Counting grants by entry. *)
Definition used_all (gs : list AllocationGrant) (es : list AllocationEntry) : Z :=
  foldr (fun e n => used (candidate e) gs + n) 0 es.
Lemma used_all_snoc gs g es :
  NoDup ((fun e => harness_id (candidate e)) <$> es) ->
  used_all (gs ++ [g]) es = used_all gs es
    + (if decide (grant_candidate g ∈ (candidate <$> es)) then 1 else 0).
Proof.
  unfold used_all. induction es as [|e es IH]; cbn [foldr]; [done|].
  rewrite fmap_cons. intros [He Hnd]%list.NoDup_cons. rewrite IH, used_app, used_one by done.
  rewrite fmap_cons. destruct (decide (grant_candidate g = candidate e)) as [Heq|Hne].
  - rewrite decide_False, decide_True by (rewrite Heq; (left || (intros (x & Hc & Hx)%list_elem_of_fmap;
      apply He; rewrite Hc; by apply (list_elem_of_fmap_2 (fun e => harness_id (candidate e)))))). lia.
  - destruct (decide (grant_candidate g ∈ (candidate <$> es))).
    + rewrite decide_True by (by right). lia.
    + rewrite decide_False by (by intros [?|?]%elem_of_cons). lia.
Qed.
Lemma used_all_total gs es :
  NoDup ((fun e => harness_id (candidate e)) <$> es) ->
  Forall (fun g => exists e, e ∈ es /\ candidate e = grant_candidate g) gs ->
  used_all gs es = zlen gs.
Proof.
  intros Hnd. induction gs as [|g gs IH] using rev_ind; intros Hg.
  - unfold used_all. clear. induction es as [|e es IH]; cbn; [done|]. by rewrite IH.
  - apply Forall_app in Hg as [Hgs [(e & He & Hc) _]%Forall_cons_iff].
    rewrite used_all_snoc, IH, zlen_app by done. rewrite decide_True; [done|].
    rewrite <- Hc. by apply list_elem_of_fmap_2.
Qed.
Lemma used_all_lt gs es e :
  Forall (fun e => used (candidate e) gs <= max_runs e) es -> e ∈ es ->
  used (candidate e) gs < max_runs e -> used_all gs es < sum_runs es.
Proof.
  unfold used_all, sum_runs. intros Hle. revert e. induction Hle as [|x es Hx Hes IH]; intros e;
    [by intros ?%not_elem_of_nil|].
  assert (foldr (fun e n => used (candidate e) gs + n) 0 es <= foldr (fun e n => max_runs e + n) 0 es)
    by (clear -Hes; induction Hes; cbn; lia).
  intros [->|Hin]%elem_of_cons Hlt; cbn; [lia|]. specialize (IH e Hin Hlt). lia.
Qed.

Definition add_grant (v : AllocationView) (g : AllocationGrant) : AllocationView :=
  mkView (proposal v) (digest v) (status v) (reviewed_at v) (reservations v ++ [g]).

(** Granting a run of an entry with allowance keeps the accounts. *)
Lemma valid_add_grant v e g :
  valid v -> e ∈ entries (proposal v) -> used (candidate e) (reservations v) < max_runs e ->
  grant_candidate g = candidate e -> plan_id g = proposal_id (proposal v) ->
  0 < duration_secs g <= per_run_secs (proposal v) -> grant_id g ∉ (grant_id <$> reservations v) ->
  valid (add_grant v g).
Proof.
  intros (Hp & Hd & Hl & He & Hg & Hn) Hin Hlt Hc Hpl Hdur Hfresh. pose proof Hp as
    (_ & _ & _ & _ & _ & _ & _ & _ & _ & Hsum & Hids). unfold valid, add_grant; cbn [proposal digest reservations].
  assert (Hmatch : Forall (fun g => exists e, e ∈ entries (proposal v) /\ candidate e = grant_candidate g)
                     (reservations v)) by (eapply Forall_impl; [|exact Hg]; by intros x (_ & _ & _ & ?)).
  split; [done|]. split; [done|]. split; [|split; [|split]].
  - assert (Hu : used_all (reservations v) (entries (proposal v)) < sum_runs (entries (proposal v))).
    { eapply used_all_lt; [|exact Hin|exact Hlt]. eapply Forall_impl; [|exact He]. by intros x (_ & _ & _ & _ & ?). }
    rewrite used_all_total in Hu by done. rewrite zlen_app. unfold zlen at 2; cbn. lia.
  - apply list.Forall_forall. intros e' He'. rewrite list.Forall_forall in He.
    destruct (He e' He') as (? & ? & ? & ? & Hu). unfold entry_valid. rewrite used_app, used_one, Hc.
    do 4 (split; [done|]). case_decide as Heq; [|lia].
    assert (e' = e) as ->; [|lia]. apply list_elem_of_lookup_1 in Hin as [i Hi], He' as [j Hj].
    assert (i = j) as ->; [|congruence]. eapply (NoDup_lookup _ i j (harness_id (candidate e)) Hids);
      rewrite list_lookup_fmap; [by rewrite Hi|by rewrite Hj; cbn; rewrite Heq].
  - apply Forall_app. split; [done|]. constructor; [|constructor]. unfold grant_valid.
    split; [done|]. split; [lia|]. split; [lia|]. by exists e.
  - rewrite fmap_app. apply list.NoDup_app. split_and!; [done| |apply NoDup_singleton].
    by intros x Hx ->%list_elem_of_singleton.
Qed.

(** The round robin finds any entry with allowance. *)
Lemma pick_spec v cs :
  match pick v cs with
  | Some e => e ∈ entries (proposal v) /\ candidate e ∈ cs /\
              used (candidate e) (reservations v) < max_runs e
  | None => forall e, e ∈ entries (proposal v) -> candidate e ∈ cs ->
              max_runs e <= used (candidate e) (reservations v)
  end.
Proof.
  unfold pick. set (es := entries (proposal v)). set (n := length (reservations v)).
  destruct (find_map _ _) as [e|] eqn:E.
  - apply find_map_Some in E as (k & _ & Hk).
    destruct (es !! _) as [e'|] eqn:El; [|done]. cbn in Hk. case_match eqn:Ec; [|done].
    injection Hk as ->. rewrite andb_true_iff, bool_decide_eq_true, Z.ltb_lt in Ec.
    split; [by eapply list_elem_of_lookup_2|done].
  - rewrite find_map_None, list.Forall_forall in E. intros e [j Hj]%list_elem_of_lookup_1 Hcs.
    apply lookup_lt_Some in Hj as Hlt.
    specialize (E ((j + (length es - n mod length es)) mod length es)%nat).
    assert (Hidx : ((n + (j + (length es - n mod length es)) mod length es) mod length es = j)%nat).
    { rewrite Nat.Div0.add_mod_idemp_r. pose proof (Nat.mod_upper_bound n (length es) ltac:(lia)).
      replace (n + (j + (length es - n mod length es)))%nat
        with (j + (n - n mod length es + length es))%nat
        by (pose proof (Nat.Div0.mod_le n (length es)); lia).
      replace (n - n mod length es + length es)%nat with ((n / length es + 1) * length es)%nat.
      - rewrite Nat.Div0.mod_add. by apply Nat.mod_small.
      - pose proof (Nat.div_mod_eq n (length es)). lia. }
    rewrite Hidx in E. rewrite Hj in E. cbn in E.
    rewrite bool_decide_eq_true_2 in E by done. cbn in E.
    destruct (Z.ltb_spec (used (candidate e) (reservations v)) (max_runs e)); [|done].
    discriminate E. apply elem_of_seq. pose proof (Nat.mod_upper_bound (j + (length es - n mod length es)) (length es)). lia.
Qed.

(** ** Runs *)
Inductive Op :=
| OpPropose (io : Io) (p : AllocationProposal)
| OpReview (io : Io) (id dg : string) (approve : bool) (now : string)
| OpReserve (io : Io) (schedule : string) (cs : list AllocationCandidate) (secs : Z) (new_id now : string).

(** One operation: the disk it leaves and the grant it issues. *)
Definition apply (d : Disk) (o : Op) : Disk * list AllocationGrant :=
  match o with
  | OpPropose io p => ((propose d io p).1, [])
  | OpReview io id dg approve now => ((review d io id dg approve now).1, [])
  | OpReserve io schedule cs secs new_id now =>
      let '(d, r) := reserve d io schedule cs secs new_id now in
      (d, match r with Ok (Some g) => [g] | _ => [] end)
  end.
Definition run_from (s : Disk * list AllocationGrant) (ops : list Op) : Disk * list AllocationGrant :=
  fold_left (fun '(d, gs) o => let '(d, g) := apply d o in (d, gs ++ g)) ops s.
Definition run (ops : list Op) : Disk * list AllocationGrant := run_from (mkDisk None ∅, []) ops.

(** The UUID an operation draws, and the machine types of its inputs. *)
Definition op_id (o : Op) : option string :=
  match o with
  | OpPropose _ p => Some (proposal_id p)
  | OpReview _ _ _ _ _ => None
  | OpReserve _ _ _ _ i _ => Some i
  end.
Definition typed (p : AllocationProposal) : Prop :=
  0 <= max_total_secs p /\ 0 <= total_runs p /\ 0 <= per_run_secs p.
Definition op_typed (o : Op) : Prop :=
  match o with
  | OpPropose _ p => typed p
  | OpReview _ _ _ _ _ => True
  | OpReserve _ _ _ secs _ _ => 0 <= secs
  end.

(** A view the store retains, current or archived. *)
Definition retained (d : Disk) (v : AllocationView) : Prop :=
  current d = Some v \/ archive d !! proposal_id (proposal v) = Some v.
Definition of_plan (P : string) (gs : list AllocationGrant) : list AllocationGrant :=
  filter (fun g => plan_id g = P) gs.

Record sound (seen : list string) (d : Disk) (gs : list AllocationGrant) : Prop := mkSound {
  sound_valid : forall v, retained d v -> valid v /\ typed (proposal v) /\
    of_plan (proposal_id (proposal v)) gs `sublist_of` reservations v /\
    proposal_id (proposal v) ∈ seen /\ (grant_id <$> reservations v) ⊆ seen;
  sound_keys : forall k a, archive d !! k = Some a -> proposal_id (proposal a) = k;
  sound_closed : forall v a, current d = Some v -> archive d !! proposal_id (proposal v) = Some a ->
    status v = Revoked;
  sound_grants : Forall (fun g => grant_id g ∈ seen /\ exists v, retained d v /\
    proposal_id (proposal v) = plan_id g) gs;
}.

Lemma read_Some d v : read d = Ok (Some v) -> current d = Some v /\ valid v.
Proof.
  unfold Allocation.read. destruct (current d) as [w|]; [|done]. case_match; [done|].
  destruct (validate w) as [[]|] eqn:E; cbn; [|done]. intros [= ->]. by apply validate_spec in E.
Qed.

Lemma of_plan_snoc P gs g :
  of_plan P (gs ++ [g]) = of_plan P gs ++ (if decide (plan_id g = P) then [g] else []).
Proof. unfold of_plan. by rewrite list.filter_app, filter_cons, filter_nil. Qed.

Lemma sound_weaken seen seen' d gs : seen ⊆ seen' -> sound seen d gs -> sound seen' d gs.
Proof.
  intros Hs [H1 H2 H3 H4]. split; try done.
  - intros v Hv. destruct (H1 v Hv) as (? & ? & ? & ? & ?). split_and!; auto; set_solver.
  - eapply Forall_impl; [|exact H4]. intros g [? ?]. auto.
Qed.

(** The three ways the disk changes. *)
Lemma sound_archive seen d gs v :
  sound seen d gs -> current d = Some v -> status v = Revoked ->
  sound seen (mkDisk (current d) (<[proposal_id (proposal v) := v]> (archive d))) gs.
Proof.
  intros [H1 H2 H3 H4] Hc Hs.
  assert (Hret : forall w, retained (mkDisk (current d) (<[proposal_id (proposal v) := v]> (archive d))) w ->
                   retained d w).
  { intros w [Hw|Hw]; [by left|]. cbn in Hw.
    destruct (decide (proposal_id (proposal v) = proposal_id (proposal w))) as [Heq|Hne].
    - rewrite Heq, lookup_insert_eq in Hw. injection Hw as ->. by left.
    - rewrite lookup_insert_ne in Hw by done. by right. }
  split.
  - intros w Hw. by apply H1, Hret.
  - cbn. intros k a. destruct (decide (proposal_id (proposal v) = k)) as [<-|Hne].
    + rewrite lookup_insert_eq. by intros [= <-].
    + rewrite lookup_insert_ne by done. apply H2.
  - cbn. intros w a Hw Ha. rewrite Hc in Hw. by injection Hw as <-.
  - eapply Forall_impl; [|exact H4]. intros g [Hg (w & Hw & Hp)]. split; [done|].
    destruct Hw as [Hw|Hw]; [exists w; split; [by left|done]|].
    destruct (decide (proposal_id (proposal v) = proposal_id (proposal w))) as [Heq|Hne].
    + exists v. split; [by left|]. congruence.
    + exists w. split; [|done]. right. cbn. by rewrite lookup_insert_ne.
Qed.

Lemma sublist_nil_l' {A} (l k : list A) : l = [] -> l `sublist_of` k.
Proof. intros ->. apply sublist_nil_l. Qed.

Lemma sound_fresh seen d gs v :
  sound seen d gs -> proposal_id (proposal v) ∉ seen -> valid v -> typed (proposal v) ->
  reservations v = [] ->
  (forall w, current d = Some w -> archive d !! proposal_id (proposal w) = Some w) ->
  sound (seen ++ [proposal_id (proposal v)]) (mkDisk (Some v) (archive d)) gs.
Proof.
  intros [H1 H2 H3 H4] Hf Hv Ht Hr Ha. split; cbn.
  - intros w [Hw|Hw]; cbn in Hw.
    + injection Hw as <-. split_and!; [done..| |set_solver|rewrite Hr; set_solver].
      apply sublist_nil_l'. unfold of_plan.
      clear -H1 H4 Hf. induction gs as [|g gs IH]; [done|].
      apply Forall_cons_iff in H4 as [[_ (w & Hw & Hp)] H4].
      rewrite filter_cons_False; [|intros Heq; apply Hf; rewrite <- Heq, <- Hp; by apply H1].
      assert (Hno : Forall (fun g => plan_id g <> proposal_id (proposal v)) gs).
      { eapply Forall_impl; [|exact H4]. intros x [_ (u & Hu & <-)] Heq. apply Hf. rewrite <- Heq. by apply H1. }
      clear -Hno. induction Hno; [done|]. by rewrite filter_cons_False.
    + destruct (H1 w (or_intror Hw)) as (? & ? & ? & ? & ?). split_and!; try done; set_solver.
  - apply H2.
  - intros w a [= <-] Hx. exfalso. apply Hf. rewrite <- (H2 _ _ Hx).
    destruct (H1 a) as (_ & _ & _ & Ha' & _); [|exact Ha']. right. by rewrite (H2 _ _ Hx).
  - eapply Forall_impl; [|exact H4]. intros g [Hg (w & Hw & Hp)]. split; [set_solver|].
    exists w. split; [|done]. right. destruct Hw as [Hw|Hw]; [by apply Ha|done].
Qed.

Lemma sound_update seen d gs v v' :
  sound seen d gs -> current d = Some v -> proposal v' = proposal v -> digest v' = digest v ->
  reservations v' = reservations v -> (status v = Revoked -> status v' = Revoked) ->
  sound seen (mkDisk (Some v') (archive d)) gs.
Proof.
  intros [H1 H2 H3 H4] Hc Hp Hd Hr Hs. split; cbn.
  - intros w [Hw|Hw]; cbn in Hw; [|by apply H1; right]. injection Hw as <-.
    destruct (H1 v (or_introl Hc)) as (Hv & Ht & Hg & Hin & Hids). rewrite Hp, Hr.
    split_and!; try done; unfold valid in *; by rewrite Hp, Hd, Hr.
  - apply H2.
  - intros w a [= <-] Ha. apply Hs. rewrite Hp in Ha. by apply (H3 v a).
  - eapply Forall_impl; [|exact H4]. intros g [Hg (w & Hw & Hpl)]. split; [done|].
    destruct Hw as [Hw|Hw]; [|exists w; split; [by right|done]].
    exists v'. split; [by left|]. rewrite Hp. congruence.
Qed.

Lemma sound_grant seen d gs v g (reply : bool) :
  sound seen d gs -> current d = Some v -> status v = Approved -> valid (add_grant v g) ->
  plan_id g = proposal_id (proposal v) ->
  sound (seen ++ [grant_id g]) (mkDisk (Some (add_grant v g)) (archive d))
    (gs ++ (if reply then [g] else [])).
Proof.
  intros [H1 H2 H3 H4] Hc Hst Hv Hpl.
  assert (Hof : forall P, of_plan P (gs ++ (if reply then [g] else [])) `sublist_of`
                  of_plan P gs ++ (if decide (plan_id g = P) then [g] else [])).
  { intros P. destruct reply; [by rewrite of_plan_snoc|]. rewrite app_nil_r. apply sublist_inserts_r. reflexivity. }
  split; cbn.
  - intros w [Hw|Hw]; cbn in Hw.
    + injection Hw as <-. destruct (H1 v (or_introl Hc)) as (_ & Ht & Hg & Hin & Hids). cbn.
      rewrite fmap_app. split_and!; [done|done| |set_solver|set_solver].
      etransitivity; [apply Hof|]. rewrite decide_True by done. by apply sublist_app.
    + destruct (H1 w (or_intror Hw)) as (? & ? & ? & ? & ?). split_and!; [done|done| |set_solver|set_solver].
      etransitivity; [apply Hof|]. rewrite decide_False, app_nil_r; [done|].
      rewrite Hpl. intros Heq. rewrite <- Heq in Hw. by rewrite (H3 v w Hc Hw) in Hst.
  - apply H2.
  - intros w a [= <-] Ha. cbn in Ha. by apply (H3 v a).
  - apply Forall_app. split.
    + eapply Forall_impl; [|exact H4]. intros x [Hx (w & Hw & Hp)]. split; [set_solver|].
      destruct Hw as [Hw|Hw]; [|exists w; split; [by right|done]].
      exists (add_grant v g). split; [by left|]. cbn. congruence.
    + destruct reply; [|constructor]. constructor; [|constructor]. split; [set_solver|].
      exists (add_grant v g). split; [by left|done].
Qed.

Lemma propose_sound seen d gs io p :
  sound seen d gs -> typed p -> proposal_id p ∉ seen ->
  sound (seen ++ [proposal_id p]) (propose d io p).1 gs.
Proof.
  intros Hs Ht Hf. assert (Hw : sound (seen ++ [proposal_id p]) d gs) by (eapply sound_weaken; [|done]; set_solver).
  unfold Allocation.propose. destruct (io_lock io); [|done]. destruct (read d) as [prev|] eqn:Er; [|done].
  assert (Hstep : forall d', sound seen d' gs ->
    (forall w, current d' = Some w -> archive d' !! proposal_id (proposal w) = Some w) ->
    sound (seen ++ [proposal_id p])
      (match proposal_digest p with
       | Ok dg => let v := mkView p dg Draft None [] in
           match validate v with
           | Ok _ => let '(d, r) := write d' io v in (d, _ ← r; Ok v)
           | Err e => (d', Err e)
           end
       | Err e => (d', Err e)
       end).1 gs).
  { intros d' Hd' Ha. assert (Hw' : sound (seen ++ [proposal_id p]) d' gs)
      by (eapply sound_weaken; [|done]; set_solver).
    destruct (proposal_digest p) as [dg|]; [|done]. cbv zeta.
    destruct (validate _) as [[]|] eqn:Ev; [|done]. apply validate_spec in Ev.
    unfold write. cbn. destruct (stored (io_write io)); [|done].
    by apply (sound_fresh seen d' gs (mkView p dg Draft None [])). }
  destruct prev as [v|].
  - apply read_Some in Er as [Hc Hv]. case_bool_decide as Hst; [|done].
    unfold archive_view. destruct (io_archive io); cbn [stored write_result];
      [|done|by cbn; eapply sound_weaken; [|by apply sound_archive]; set_solver].
    apply Hstep; [by apply sound_archive|].
    cbn. intros w. rewrite Hc. intros [= <-]. by rewrite lookup_insert_eq.
  - apply Hstep; [done|]. intros w Hc. unfold Allocation.read in Er. rewrite Hc in Er.
    revert Er. destruct (_ <? _); [done|]. by destruct (validate w).
Qed.

Lemma review_sound seen d gs io i dg approve now :
  sound seen d gs -> sound seen (review d io i dg approve now).1 gs.
Proof.
  intros Hs. unfold Allocation.review. destruct (io_lock io); [|done]. cbn [mbind Result_bind].
  destruct (read d) as [[v|]|] eqn:Er; cbn [mbind Result_bind ok_or]; [|done..].
  apply read_Some in Er as [Hc Hv]. destruct (_ || _); [done|]. destruct (approve && _) eqn:Ea; [done|].
  cbv zeta. unfold write. cbn. destruct (stored (io_write io)); [|done].
  apply (sound_update seen d gs v); [done..|]. cbn. intros Hr. destruct approve; [|done].
  rewrite Hr in Ea. done.
Qed.

Lemma reserve_sound seen d gs io schedule cs secs i now :
  sound seen d gs -> 0 <= secs -> i ∉ seen ->
  let '(d', g) := apply d (OpReserve io schedule cs secs i now) in sound (seen ++ [i]) d' (gs ++ g).
Proof.
  intros Hs Hsecs Hf. assert (Hw : sound (seen ++ [i]) d gs) by (eapply sound_weaken; [|done]; set_solver).
  cbn [apply]. unfold Allocation.reserve.
  destruct (read d) as [[v|]|] eqn:Er; try (by cbn; rewrite app_nil_r).
  apply read_Some in Er as [Hc Hv]. destruct (io_lock io); [|by cbn; rewrite app_nil_r].
  destruct (negb feature); [by cbn; rewrite app_nil_r|].
  case_bool_decide as Hst; [|by cbn; rewrite app_nil_r]. cbn [negb].
  destruct (_ || _ || (secs =? 0)) eqn:Ez; [by cbn; rewrite app_nil_r|].
  pose proof (pick_spec v cs) as Hp. destruct (pick v cs) as [e|]; [|by cbn; rewrite app_nil_r].
  destruct Hp as (He & _ & Hlt). cbv zeta. set (g := mkGrant _ _ _ _ _ _).
  destruct (sound_valid _ _ _ Hs v (or_introl Hc)) as (_ & Ht & _ & _ & Hids).
  assert (Hpos : 0 < duration_secs g <= per_run_secs (proposal v)).
  { destruct Hv as ((_ & _ & _ & _ & _ & Hn & _) & _), Ht as (_ & _ & ?). cbn. lia. }
  assert (Hfresh : i ∉ (grant_id <$> reservations v)) by set_solver.
  change (mkView (proposal v) (digest v) (status v) (reviewed_at v) (reservations v ++ [g]))
    with (add_grant v g).
  pose proof (valid_add_grant v e g Hv He Hlt eq_refl eq_refl Hpos Hfresh) as Hv'.
  unfold write. destruct (io_write io); cbn; [|by rewrite app_nil_r|].
  - by apply (sound_grant seen d gs v g true).
  - by apply (sound_grant seen d gs v g false).
Qed.

Lemma cons_snoc {A} (l : list A) x k : l ++ x :: k = (l ++ [x]) ++ k.
Proof. by rewrite <- app_assoc. Qed.
Lemma fresh_id {A} (l k : list A) x : NoDup (l ++ x :: k) -> x ∉ l.
Proof. intros (_ & Hd & _)%list.NoDup_app Hin. apply (Hd _ Hin). left. Qed.

Lemma run_sound ops d gs seen :
  sound seen d gs -> Forall op_typed ops -> NoDup (seen ++ omap op_id ops) ->
  sound (seen ++ omap op_id ops) (run_from (d, gs) ops).1 (run_from (d, gs) ops).2.
Proof.
  revert d gs seen. induction ops as [|o ops IH]; intros d gs seen Hs Ht Hnd.
  { cbn. by rewrite app_nil_r. }
  apply Forall_cons_iff in Ht as [Ho Ht]. cbn [run_from fold_left].
  destruct o as [io p|io i dg approve now|io schedule cs secs i now]; cbn [omap list_omap op_id] in Hnd |- *.
  - cbn [apply]. rewrite app_nil_r. pose proof (fresh_id _ _ _ Hnd) as Hf.
    rewrite cons_snoc in Hnd |- *. apply IH; [by apply propose_sound|done|done].
  - cbn [apply]. rewrite app_nil_r. apply IH; [by apply review_sound|done|done].
  - pose proof (fresh_id _ _ _ Hnd) as Hf.
    pose proof (reserve_sound seen d gs io schedule cs secs i now Hs Ho Hf) as H.
    destruct (apply d _) as [d' g]. rewrite cons_snoc in Hnd |- *. by apply IH.
Qed.

Lemma sound_init : sound [] (mkDisk None ∅) [].
Proof.
  split; cbn; [|by intros k a; rewrite lookup_empty|done|constructor].
  intros v [Hv|Hv]; cbn in Hv; [done|by rewrite lookup_empty in Hv].
Qed.

(** A revoked plan gets nothing more. *)
Definition closed (P : string) (d : Disk) : Prop :=
  forall v, current d = Some v -> proposal_id (proposal v) = P -> status v = Revoked.
Lemma closed_apply P d o :
  closed P d -> op_id o <> Some P -> closed P (apply d o).1 /\ of_plan P (apply d o).2 = [].
Proof.
  intros Hc Hid. destruct o as [io p|io i dg approve now|io schedule cs secs i now]; cbn [apply fst snd].
  - split; [|done]. unfold Allocation.propose. destruct (io_lock io); [|done].
    destruct (read d) as [prev|]; [|done].
    assert (Hp : proposal_id p <> P) by (cbn in Hid; congruence).
    assert (Hstep : forall d', closed P d' -> closed P
      (match proposal_digest p with
       | Ok dg => let v := mkView p dg Draft None [] in
           match validate v with
           | Ok _ => let '(d, r) := write d' io v in (d, _ ← r; Ok v)
           | Err e => (d', Err e)
           end
       | Err e => (d', Err e)
       end).1).
    { intros d' Hd'. destruct (proposal_digest p); [|done]. cbv zeta. destruct (validate _); [|done].
      unfold write. cbn. destruct (stored (io_write io)); [|done]. by intros v [= <-]. }
    destruct prev as [v|]; [|by apply Hstep]. case_bool_decide; [|done].
    unfold archive_view. destruct (io_archive io); cbn [stored write_result]; [by apply Hstep|done|done].
  - split; [|done]. unfold Allocation.review. destruct (io_lock io); [|done]. cbn [mbind Result_bind].
    destruct (read d) as [[v|]|] eqn:Er; cbn [mbind Result_bind ok_or]; [|done..].
    apply read_Some in Er as [Hcur _]. destruct (_ || _); [done|]. destruct (approve && _) eqn:Ea; [done|].
    cbv zeta. unfold write. cbn. destruct (stored (io_write io)); [|done].
    intros w [= <-]. cbn. intros HP. specialize (Hc v Hcur HP). rewrite Hc in Ea. by destruct approve.
  - unfold Allocation.reserve. destruct (read d) as [[v|]|] eqn:Er; cbn; [|by split..].
    apply read_Some in Er as [Hcur _]. destruct (io_lock io); [|by split].
    destruct (negb feature); [by split|]. case_bool_decide as Hst; cbn [negb]; [|by split].
    destruct (_ || _ || _); [by split|]. destruct (pick v cs) as [chosen|]; [|by split]. cbv zeta.
    assert (HP : proposal_id (proposal v) <> P) by (intros Heq; by rewrite (Hc v Hcur Heq) in Hst).
    unfold write. destruct (io_write io); cbn; [|by split|].
    + split; [by intros w [= <-]|]. by rewrite decide_False.
    + split; [by intros w [= <-]|done].
Qed.
Lemma closed_run P ops d gs :
  closed P d -> Forall (fun o => op_id o <> Some P) ops ->
  closed P (run_from (d, gs) ops).1 /\ of_plan P (run_from (d, gs) ops).2 = of_plan P gs.
Proof.
  intros Hc Hops. revert d gs Hc. induction Hops as [|o ops Ho _ IH]; intros d gs Hc; [done|].
  cbn [run_from fold_left]. destruct (closed_apply P d o Hc Ho) as [Hc' Hg].
  destruct (apply d o) as [d' g]. cbn in Hc', Hg. destruct (IH d' (gs ++ g) Hc') as [H1 H2].
  split; [exact H1|]. etransitivity; [exact H2|]. unfold of_plan in *.
  by rewrite list.filter_app, Hg, app_nil_r.
Qed.

Lemma durations_bound p gs :
  Forall (grant_valid p) gs -> foldr (fun g n => duration_secs g + n) 0 gs <= per_run_secs p * zlen gs.
Proof.
  induction 1 as [|g gs (_ & _ & Hd & _) _ IH]; cbn [foldr]; [unfold zlen; cbn; lia|].
  rewrite zlen_cons. lia.
Qed.
Lemma valid_bounds v : valid v -> typed (proposal v) ->
  foldr (fun g n => duration_secs g + n) 0 (reservations v) <= max_total_secs (proposal v).
Proof.
  intros (Hp & _ & Hl & _ & Hg & _) (H1 & H2 & H3). pose proof (durations_bound _ _ Hg) as Hb.
  destruct Hp as (_ & _ & _ & Hn & _ & _ & _ & Hd & _).
  pose proof (Z.mul_div_le (max_total_secs (proposal v)) (total_runs (proposal v)) ltac:(lia)).
  rewrite Hd in *. pose proof (zlen_nonneg (reservations v)). nia.
Qed.

(** ** Lemmas: proposals pass validation *)
Lemma share_candidates es n : candidate <$> share es n = candidate <$> es.
Proof.
  unfold share. apply list_eq. intros i. rewrite !list_lookup_fmap, fold_add_runs.
  by destruct (es !! i).
Qed.
Lemma new_entry_candidates history (cs : list AllocationCandidate) : candidate <$> (new_entry history <$> cs) = cs.
Proof.
  induction cs as [|c cs IH]; [done|]. rewrite !fmap_cons, IH. by destruct (new_entry_spec history c) as (-> & _).
Qed.
Lemma proposal_candidates proj cs history runs secs i now p :
  make_proposal proj cs history runs secs i now = Ok p -> candidate <$> entries p ≡ₚ cs.
Proof.
  intros (_ & _ & _ & -> & _)%make_proposal_Ok. cbn [entries].
  rewrite share_candidates, new_entry_candidates. apply sort_by_perm.
Qed.
Lemma proposal_totals proj cs history runs secs i now p :
  make_proposal proj cs history runs secs i now = Ok p ->
  sum_runs (entries p) = runs /\ zlen (entries p) = zlen cs.
Proof.
  intros (Hcs & Hr & Hs & -> & Hl)%make_proposal_Ok. cbn [entries].
  set (es := new_entry history <$> sort_by cmp_candidate cs) in *.
  assert (Hw : Forall (fun e => 1 <= weight e) es) by apply new_entries_weights.
  assert (Hne : es <> []) by (intros Hn; rewrite Hn in Hl; change (zlen (@nil AllocationEntry)) with 0 in Hl; lia).
  destruct (share_sum es (Z.to_nat (runs - zlen es)) Hne Hw) as [Hsum Hlen].
  rewrite Hsum. unfold es at 1. rewrite new_entries_sum.
  assert (zlen (sort_by cmp_candidate cs) = zlen cs) as ->
    by (unfold zlen; by rewrite (Permutation_length (sort_by_perm cmp_candidate cs))).
  split; [rewrite Z2Nat.id; lia|]. unfold zlen in *. rewrite Hlen. exact Hl.
Qed.

Lemma proposal_valid cs history runs secs i now p dg :
  make_proposal owner cs history runs secs i now = Ok p ->
  NoDup (harness_id <$> cs) -> Forall (fun c => is_digest (source_sha256 c) = true) cs ->
  proposal_digest p = Ok dg -> valid (mkView p dg Draft None []).
Proof.
  intros Hp Hnd Hdig Hd. pose proof (proposal_totals _ _ _ _ _ _ _ _ Hp) as [Hsum Hlen].
  pose proof (proposal_candidates _ _ _ _ _ _ _ _ Hp) as Hperm.
  pose proof (make_proposal_Ok _ _ _ _ _ _ _ _ Hp) as (Hcs & Hr & Hs & Heq & _).
  assert (He : Forall (entry_valid []) (entries p)).
  { apply list.Forall_forall. intros e He. pose proof (proposal_entry _ _ _ _ _ _ _ _ _ Hp He) as
      (Hc & Hw & Hev & Hm). cbv zeta in Hm. rewrite list.Forall_forall in Hdig.
    assert (0 <= (runs - zlen cs) / weights (new_entry history <$> sort_by cmp_candidate cs)).
    { apply Z.div_pos; [lia|]. destruct (new_entry history <$> sort_by cmp_candidate cs) as [|x l] eqn:Ex.
      - apply (f_equal length) in Ex. rewrite length_fmap, (Permutation_length (sort_by_perm _ _)) in Ex.
        unfold zlen in Hcs. cbn in Ex. lia.
      - pose proof (new_entries_weights history (sort_by cmp_candidate cs)) as Hw'. rewrite Ex in Hw'.
        clear -Hw'. apply Forall_cons_iff in Hw' as [Hx Hl]. cbn.
        enough (0 <= weights l) by (unfold weights in *; lia).
        unfold weights. induction Hl; cbn; lia. }
    assert (1 <= weight e <= 2) by (rewrite Hw; destruct (growing _); lia).
    assert (1 <= max_runs e) by nia. unfold entry_valid.
    change (used (candidate e) []) with 0. specialize (Hdig _ Hc). split_and!; done || lia. }
  unfold valid, proposal_ok; cbn. rewrite Hsum, Hlen. rewrite Heq in *; cbn in *.
  pose proof (Z.div_str_pos secs runs ltac:(lia)).
  change (zlen (@nil AllocationGrant)) with 0. split_and!; try done; try lia.
  - rewrite (list_fmap_compose candidate harness_id), Hperm. exact Hnd.
  - apply NoDup_nil_2.
Qed.

(** ** Theorems *)

(** C9: an accepted selection is shared out completely and fairly: every
    selected candidate gets exactly one entry, the runs of the entries add up to
    the reserved runs, the seconds to the reserved seconds with at least one per
    run, and the runs beyond the first of each entry go round by weight, two
    for a candidate whose recent comparable runs gained edges.  The stored draft
    passes the store's own validation. *)
Theorem proposal_shares cs history runs secs i now p dg :
  make_proposal owner cs history runs secs i now = Ok p ->
  NoDup (harness_id <$> cs) -> Forall (fun c => is_digest (source_sha256 c) = true) cs ->
  proposal_digest p = Ok dg ->
  let turns := (runs - zlen cs) / weights (new_entry history <$> sort_by cmp_candidate cs) in
  candidate <$> entries p ≡ₚ cs /\ sum_runs (entries p) = runs /\
  per_run_secs p * runs + unallocated_secs p = secs /\ 0 <= unallocated_secs p < runs /\
  1 <= per_run_secs p /\
  (forall e, e ∈ entries p ->
     weight e = (if growing (comparable_evidence (candidate e) history) then 2 else 1) /\
     1 + weight e * turns <= max_runs e <= 1 + weight e * (turns + 1)) /\
  validate (mkView p dg Draft None []) = Ok tt.
Proof.
  intros Hp Hnd Hdig Hd turns. pose proof (proposal_totals _ _ _ _ _ _ _ _ Hp) as [Hsum _].
  pose proof (make_proposal_Ok _ _ _ _ _ _ _ _ Hp) as (Hcs & Hr & Hs & Heq & _).
  split; [by eapply proposal_candidates|]. split; [done|].
  assert (Hq : per_run_secs p = secs / runs /\ unallocated_secs p = secs mod runs) by (by rewrite Heq).
  destruct Hq as [-> ->]. pose proof (Z.div_mod secs runs ltac:(lia)).
  pose proof (Z.mod_pos_bound secs runs ltac:(lia)). pose proof (Z.div_str_pos secs runs ltac:(lia)).
  split_and!; try lia; [|apply validate_spec; by eapply proposal_valid].
  intros e He. by pose proof (proposal_entry _ _ _ _ _ _ _ _ _ Hp He) as (_ & ? & _ & ?).
Qed.

(** C10: whatever proposals, reviews and reservations a store sees, failed
    locks and writes included, every plan it retains is valid and has charged
    every grant issued for it; so per plan the charges number at most its runs,
    last at most its seconds and take from no entry beyond its share, and no
    grant is issued outside a retained plan. *)
Theorem admission_bounded ops :
  Forall op_typed ops -> NoDup (omap op_id ops) ->
  let '(d, gs) := run ops in
  (forall v, retained d v ->
     validate v = Ok tt /\ of_plan (proposal_id (proposal v)) gs `sublist_of` reservations v /\
     zlen (reservations v) <= total_runs (proposal v) /\
     foldr (fun g n => duration_secs g + n) 0 (reservations v) <= max_total_secs (proposal v) /\
     forall e, e ∈ entries (proposal v) -> used (candidate e) (reservations v) <= max_runs e) /\
  (forall g, g ∈ gs -> exists v, retained d v /\ g ∈ reservations v).
Proof.
  intros Ht Hnd. pose proof (run_sound ops (mkDisk None ∅) [] [] sound_init Ht Hnd) as Hs.
  unfold run. destruct (run_from (mkDisk None ∅, []) ops) as [d gs]. cbn [fst snd] in Hs.
  destruct Hs as [Hv _ _ Hg]. split.
  - intros v Hr. destruct (Hv v Hr) as (Hval & Hty & Hres & _).
    split; [by apply validate_spec|]. split; [done|]. split; [by apply Hval|].
    split; [by apply valid_bounds|]. intros e He. destruct Hval as (_ & _ & _ & Hent & _).
    rewrite list.Forall_forall in Hent. by destruct (Hent e He) as (_ & _ & _ & _ & ?).
  - intros g Hin. rewrite list.Forall_forall in Hg. destruct (Hg g Hin) as (_ & v & Hr & Hp).
    exists v. split; [done|]. destruct (Hv v Hr) as (_ & _ & Hsub & _).
    eapply elem_of_submseteq; [|by apply sublist_submseteq].
    unfold of_plan. apply list_elem_of_filter. by rewrite Hp.
Qed.

(** Revoking the current plan is final: no later sequence of operations
    issues another grant under that plan or leaves it current in any other
    state. *)
Theorem revoked_final d gs io P dg now d' v ops :
  review d io P dg false now = (d', Ok v) ->
  Forall (fun o => op_id o <> Some P) ops ->
  let s := run_from (d', gs) ops in
  of_plan P s.2 = of_plan P gs /\
  (forall w, current s.1 = Some w -> proposal_id (proposal w) = P -> status w = Revoked).
Proof.
  intros Hrev Hops. assert (Hc : closed P d').
  { revert Hrev. unfold Allocation.review. destruct (io_lock io); [|done]. cbn [mbind Result_bind].
    destruct (read d) as [[w|]|]; cbn [mbind Result_bind ok_or]; [|done..].
    destruct (_ || _); [done|]. cbn [andb]. cbv zeta. unfold write.
    destruct (io_write io); cbn; [|done..]. intros [= <- <-]. by intros u [= <-]. }
  destruct (closed_run P ops d' gs Hc Hops) as [H1 H2]. by split.
Qed.

(** Under an approved plan a reservation succeeds exactly when some entry
    is both offered by the schedule and has allowance left, wherever the round
    robin stands; it then charges one run of such an entry, for at most the
    seconds asked and allowed, and leaves a valid plan.  Otherwise nothing
    changes on disk. *)
Theorem reserve_progress d v schedule cs secs i now :
  read d = Ok (Some v) -> status v = Approved -> feature = true ->
  schedule <> "" -> Z.of_nat (String.length schedule) <= 1024 -> 0 < secs ->
  0 <= per_run_secs (proposal v) -> i ∉ (grant_id <$> reservations v) ->
  let open e := e ∈ entries (proposal v) /\ candidate e ∈ cs /\
                used (candidate e) (reservations v) < max_runs e in
  match reserve d io_ok schedule cs secs i now with
  | (d', Ok (Some g)) =>
      (exists e, open e /\ grant_candidate g = candidate e) /\
      0 < duration_secs g <= secs /\ duration_secs g <= per_run_secs (proposal v) /\
      current d' = Some (add_grant v g) /\ validate (add_grant v g) = Ok tt
  | (_, Ok None) => False
  | (d', Err _) => d' = d /\ forall e, ~ open e
  end.
Proof.
  intros Hr Hst Hf Hs Hl Hsecs Hper Hi open. unfold Allocation.reserve. rewrite Hr, Hf, Hst.
  rewrite (bool_decide_eq_true_2 (Approved = Approved)) by done. cbn.
  apply read_Some in Hr as [Hc Hv]. rewrite (proj2 (String.eqb_neq schedule "")) by done.
  rewrite (proj2 (Z.ltb_ge 1024 _)), (proj2 (Z.eqb_neq secs 0)) by lia. cbn.
  pose proof (pick_spec v cs) as Hp. destruct (pick v cs) as [e|]; cbn -[Z.min].
  - destruct Hp as (He & Hin & Hlt). assert (per_run_secs (proposal v) <> 0) by apply Hv.
    cbn -[Z.min]. split; [by exists e|]. split; [lia|]. split; [lia|].
    unfold add_grant. rewrite Hst. split; [done|]. apply validate_spec.
    pose proof (valid_add_grant v e (mkGrant i (proposal_id (proposal v)) schedule now (candidate e)
      (Z.min secs (per_run_secs (proposal v)))) Hv He Hlt) as H'. unfold add_grant in H'.
    rewrite Hst in H'. apply H'; cbn -[Z.min]; try done. lia.
  - split; [done|]. intros x (Hx & Hc' & Hlt). specialize (Hp x Hx Hc'). lia.
Qed.
End store.

(** The harness runs that pass verification, in order, under one grant. *)
Fixpoint granted_runs (sha256_hex : string -> string) (scope : option GrantExecution)
    (calls : list (Harness * Z)) : list (Harness * Z) :=
  match calls with
  | [] => []
  | (h, secs) :: calls =>
      match verify_granted_harness sha256_hex scope h secs with
      | (scope, Ok _) => (h, secs) :: granted_runs sha256_hex scope calls
      | (scope, Err _) => granted_runs sha256_hex scope calls
      end
  end.

Lemma attempted_none sha g calls : attempted g = true -> granted_runs sha (Some g) calls = [].
Proof.
  revert g. induction calls as [|[h secs] calls IH]; intros g Hg; cbn; [done|].
  destruct (_ || _); [by apply IH|]. destruct (_ <? _); [by apply IH|]. rewrite Hg. by apply IH.
Qed.

(** A grant runs at most once, and only the exact harness it was
    approved for (identity, target, engine and source digest), for at most its
    duration. *)
Theorem grant_once sha g calls :
  let ran := granted_runs sha (Some (with_grant g)) calls in
  let c := grant_candidate g in
  zlen ran <= 1 /\
  forall h secs, (h, secs) ∈ ran ->
    harness_id c = h_id h /\ target_id c = h_target_id h /\ engine c = as_str (h_engine h) /\
    source_sha256 c = sha (h_source h) /\ secs <= duration_secs g.
Proof.
  cbv zeta. induction calls as [|[h secs] calls IH]; cbn [granted_runs].
  { split; [done|]. intros h secs Hin. by apply not_elem_of_nil in Hin. }
  unfold verify_granted_harness. cbn [with_grant x_candidate x_duration_secs attempted].
  destruct (_ || _) eqn:E; [exact IH|]. destruct (_ <? _) eqn:Ed; [exact IH|].
  rewrite attempted_none by done. split; [done|].
  rewrite !orb_false_iff, !negb_false_iff, !String.eqb_eq in E. destruct E as [[[? ?] ?] ?].
  intros h' secs' [= -> ->]%list_elem_of_singleton. apply Z.ltb_ge in Ed. by split_and!.
Qed.

(** ** Witnesses *)
Definition sample_sha : string :=
  "aaaaaaaaaaaaaaaaaaaaaaaaaaaaaaaaaaaaaaaaaaaaaaaaaaaaaaaaaaaaaaaa".
Definition sample_candidate (t h : string) : AllocationCandidate :=
  mkCandidate t t "libfuzzer" "c" t h sample_sha.
Definition sample_history_run (i at_ : string) (e : Z) : RunHistoryItem :=
  mkRun i (Some "png") (Some "setup") "Campaign" "libfuzzer" "Done" at_ (Some e) (Some sample_sha)
    (Some sample_sha).
Definition sample_selection : list AllocationCandidate :=
  [sample_candidate "xml" "h2"; sample_candidate "png" "h1"].
Definition sample_history : list RunHistoryItem :=
  [sample_history_run "r1" "2026-01-01" 10; sample_history_run "r2" "2026-01-02" 25].
Definition sample_proposal_digest (p : AllocationProposal) : Result ClassifiedError string :=
  Ok (proposal_id p).
Definition sample_proposal : AllocationProposal :=
  match make_proposal "demo" sample_selection sample_history 6 100 "plan" "now" with
  | Ok p => p
  | Err _ => mkProposal 0 "" "" "" 0 0 0 0 []
  end.
Definition sample_ops : list Op :=
  [OpPropose io_ok sample_proposal; OpReview io_ok "plan" "plan" true "later";
   OpReserve io_ok "nightly" sample_selection 60 "g1" "t1";
   OpReserve io_ok "nightly" sample_selection 5 "g2" "t2"].
Definition sample_disk : Disk :=
  (run sample_proposal_digest (fun _ => 100) "demo" true sample_ops).1.
Definition sample_view : AllocationView :=
  match current sample_disk with Some v => v | None => mkView sample_proposal "" Draft None [] end.

Lemma sample_ops_fresh : NoDup (omap op_id sample_ops).
Proof. vm_compute. apply (bool_decide_unpack _). vm_compute. exact I. Qed.

(** Target "png" grew, so of the four extra runs it gets three. *)
Lemma proposal_shares_witness :
  max_runs <$> entries sample_proposal = [4; 2] /\
  validate sample_proposal_digest "demo" (mkView sample_proposal "plan" Draft None []) = Ok tt.
Proof.
  split; [vm_compute; reflexivity|].
  eapply (proposal_shares sample_proposal_digest (fun _ => 100) "demo" sample_selection sample_history 6 100 "plan"
    "now" sample_proposal "plan"); [vm_compute; reflexivity| | |vm_compute; reflexivity].
  - apply (bool_decide_unpack _). vm_compute. exact I.
  - apply (bool_decide_unpack _). vm_compute. exact I.
Defined.

Lemma admission_bounded_witness :
  duration_secs <$> reservations sample_view = [16; 5] /\
  validate sample_proposal_digest "demo" sample_view = Ok tt.
Proof.
  split; [vm_compute; reflexivity|].
  pose proof (admission_bounded sample_proposal_digest (fun _ => 100) "demo" true sample_ops) as H.
  change sample_disk with (run sample_proposal_digest (fun _ => 100) "demo" true sample_ops).1 in *.
  destruct (run _ _ _ _ _) as [d gs] eqn:E. destruct H as [H _].
  - repeat constructor; vm_compute; congruence.
  - apply sample_ops_fresh.
  - apply H. left. assert (d = sample_disk) as -> by (unfold sample_disk; by rewrite E).
    vm_compute. reflexivity.
Defined.

Lemma revoked_final_witness :
  exists d' v, review sample_proposal_digest (fun _ => 100) "demo" sample_disk io_ok "plan" "plan" false "end"
                 = (d', Ok v) /\ of_plan "plan" (run_from sample_proposal_digest (fun _ => 100) "demo" true (d', [])
      [OpReview io_ok "plan" "plan" true "again"; OpReserve io_ok "nightly" sample_selection 5 "g3" "t3"]).2
    = [].
Proof.
  eexists _, _. split; [vm_compute; reflexivity|].
  refine (proj1 (revoked_final sample_proposal_digest (fun _ => 100) "demo" true sample_disk [] io_ok
    "plan" "plan" "end" _ _ [OpReview io_ok "plan" "plan" true "again";
      OpReserve io_ok "nightly" sample_selection 5 "g3" "t3"] _ _)).
  - vm_compute. reflexivity.
  - repeat constructor; vm_compute; congruence.
Defined.

Lemma reserve_progress_witness :
  exists d' g, reserve sample_proposal_digest (fun _ => 100) "demo" true sample_disk io_ok "nightly"
                 [sample_candidate "xml" "h2"] 60 "g3" "t3" = (d', Ok (Some g)) /\
    duration_secs g <= per_run_secs (proposal sample_view).
Proof.
  pose proof (reserve_progress sample_proposal_digest (fun _ => 100) "demo" true sample_disk sample_view
    "nightly" [sample_candidate "xml" "h2"] 60 "g3" "t3" ltac:(vm_compute; reflexivity)
    ltac:(vm_compute; reflexivity) ltac:(reflexivity) ltac:(discriminate) ltac:(vm_compute; congruence)
    ltac:(lia) ltac:(vm_compute; congruence)
    ltac:(apply (bool_decide_unpack _); vm_compute; exact I)) as H.
  destruct (reserve _ _ _ _ _ _ _ _ _ _ _) as [d' r] eqn:E.
  destruct r as [[g|]|]; [|contradiction H|vm_compute in E; discriminate E].
  exists d', g. split; [reflexivity|apply H].
Defined.
