(* ===== verification/Coverage.v ===== *)
(** * Coverage stagnation

    Models the tracker and the proposals of [crates/hf-coverage/src/lib.rs].
    Instants are nanoseconds; each clock reading is an argument. *)
From S2P Require Import Prelude.

(** [hf_core::coverage::CoverageReport]. *)
Record CoverageReport := mkReport {
  r_run_id : string;
  edges : Z;
  blocks : Z;
  delta_edges : Z;
  r_stagnation_secs : Z;
  new_edges_files : list string;
}.

Inductive StagnationProposal := NewHarness | CustomMutator | Stop.
#[export] Instance StagnationProposal_eq_dec : EqDecision StagnationProposal.
Proof. solve_decision. Defined.

Record StagnationPolicy := mkPolicy {
  threshold_secs : Z;
  new_harness_windows : Z;
  stop_windows : Z;
}.

Record CoverageTracker := mkTracker {
  run_id : string;
  last_edges : Z;
  last_delta : Z;
  last_progress : Z;
  update_count : Z;
}.

Definition nil_uuid : string := "00000000-0000-0000-0000-000000000000".
Definition new (now : Z) : CoverageTracker := mkTracker nil_uuid 0 0 now 0.

Definition clamp_i64 (z : Z) : Z := Z.min i64_MAX (Z.max i64_MIN z).

Definition update_at (t : CoverageTracker) (report : CoverageReport) (at_ : Z) : CoverageTracker :=
  let new_edges := edges report in
  let t :=
    if (update_count t =? 0) || negb (String.eqb (run_id t) (r_run_id report))
    then mkTracker (run_id t) 0 (last_delta t) at_ 0
    else t in
  let delta := clamp_i64 (new_edges - last_edges t) in
  mkTracker (r_run_id report) new_edges delta
    (if 0 <? delta then at_ else last_progress t) (wrapping 64 (update_count t + 1)).
Definition update (t : CoverageTracker) (report : CoverageReport) (now : Z) : CoverageTracker :=
  update_at t report now.

(** [Instant::elapsed] saturates at zero. *)
Definition elapsed_secs (since now : Z) : Z := Z.max 0 (now - since) / 10 ^ 9.
Definition stagnation_secs (t : CoverageTracker) (now : Z) : Z :=
  if update_count t <=? 1 then 0 else elapsed_secs (last_progress t) now.
Definition is_stagnant (t : CoverageTracker) (threshold now : Z) : bool :=
  if update_count t <=? 1 then false else threshold <=? stagnation_secs t now.

(** [now1] is the clock when [is_stagnant] reads it, [now2] when the windows are
    counted. *)
Definition propose_action (t : CoverageTracker) (p : StagnationPolicy) (now1 now2 : Z)
    : option StagnationProposal :=
  if negb (is_stagnant t (threshold_secs p) now1) then None
  else
    let windows := stagnation_secs t now2 / Z.max (threshold_secs p) 1 in
    Some (if stop_windows p <=? windows then Stop
          else if new_harness_windows p <=? windows then NewHarness
          else CustomMutator).

(** ** Specification *)

(** A reading and the instant it was measured at. *)
Definition Reading : Type := CoverageReport * Z.
Definition run_of (r : Reading) : string := r_run_id r.1.
Definition edges_of (r : Reading) : Z := edges r.1.
Definition track (t : CoverageTracker) (rs : list Reading) : CoverageTracker :=
  fold_left (fun t '(r, a) => update_at t r a) rs t.

(** No reading has more edges than the one before it. *)
Fixpoint no_rise (l : list Reading) : Prop :=
  match l with
  | a :: ((b :: _) as l') => edges_of b <= edges_of a /\ no_rise l'
  | _ => True
  end.

(** [t] is where coverage last rose in the readings [seg]: at the last reading
    above its predecessor, or the first reading. *)
Definition last_rise (seg : list Reading) (t : Z) : Prop :=
  exists pre r post, seg = pre ++ r :: post /\ t = r.2 /\
    match list.last pre with Some q => edges_of q < edges_of r | None => True end /\
    no_rise (r :: post).

(** The readings since the run last changed. *)
Definition current_run (rs seg : list Reading) : Prop :=
  exists earlier r, rs = earlier ++ seg /\ list.last seg = Some r /\
    Forall (fun x => run_of x = run_of r) seg /\
    match list.last earlier with Some x => run_of x <> run_of r | None => True end.

Definition tier (p : StagnationProposal) : Z :=
  match p with CustomMutator => 0 | NewHarness => 1 | Stop => 2 end.

(** ** Lemmas *)
Lemma clamp_pos z : 0 < clamp_i64 z <-> 0 < z.
Proof. unfold clamp_i64, i64_MAX, i64_MIN. lia. Qed.

Lemma no_rise_snoc l x y :
  no_rise (l ++ [x]) -> edges_of y <= edges_of x -> no_rise ((l ++ [x]) ++ [y]).
Proof.
  induction l as [|a [|b l] IH]; cbn; intros Hl Hy.
  - by split.
  - destruct Hl as [? _]. by repeat split.
  - destruct Hl as [? Hl]. split; [done|]. by apply IH.
Qed.

Lemma last_rise_up seg r :
  match list.last seg with Some q => edges_of q < edges_of r | None => True end ->
  last_rise (seg ++ [r]) r.2.
Proof. intros H. by exists seg, r, []. Qed.
Lemma last_rise_flat seg t q r :
  last_rise seg t -> list.last seg = Some q -> edges_of r <= edges_of q -> last_rise (seg ++ [r]) t.
Proof.
  intros (pre & x & post & -> & -> & Hp & Hn) Hq Hr. exists pre, x, (post ++ [r]).
  split; [by rewrite <- app_assoc|]. split; [done|]. split; [done|].
  destruct post as [|y post _] using rev_ind.
  - rewrite list.last_snoc in Hq. injection Hq as <-. cbn. by split.
  - rewrite (app_comm_cons post), (app_assoc pre), list.last_snoc in Hq. injection Hq as ->.
    rewrite !app_comm_cons. by apply no_rise_snoc.
Qed.

(** What the tracker holds after readings whose current run is [seg]. *)
Record tracks (rs seg : list Reading) (t : CoverageTracker) : Prop := mkTracks {
  tr_run : current_run rs seg;
  tr_rise : last_rise seg (last_progress t);
  tr_last : exists r, list.last seg = Some r /\ run_id t = run_of r /\ last_edges t = edges_of r;
  tr_count : update_count t = zlen seg;
}.

Lemma current_run_bound rs seg : current_run rs seg -> 1 <= zlen seg <= zlen rs.
Proof.
  intros (earlier & r & -> & Hr & _). rewrite zlen_app. pose proof (zlen_nonneg earlier).
  destruct seg as [|x seg]; [done|]. rewrite zlen_cons. pose proof (zlen_nonneg seg). lia.
Qed.

Lemma restart rs r t :
  (update_count t = 0 \/ run_id t <> run_of r) -> 0 <= edges_of r ->
  match list.last rs with Some x => run_of x <> run_of r | None => True end ->
  tracks (rs ++ [r]) [r] (update_at t r.1 r.2).
Proof.
  intros Hc He Hl. unfold update_at.
  replace ((update_count t =? 0) || negb (String.eqb (run_id t) (r_run_id r.1))) with true; cbn.
  - split; [|cbn; destruct (0 <? _); by apply (last_rise_up [])| |done].
    + exists rs, r. split; [done|]. split; [done|]. split; [by repeat constructor|done].
    + by exists r.
  - symmetry. apply orb_true_iff. rewrite Z.eqb_eq, negb_true_iff, String.eqb_neq. exact Hc.
Qed.

Lemma update_tracks rs seg t r :
  tracks rs seg t -> 0 <= edges_of r -> zlen seg < 2 ^ 64 - 1 ->
  exists seg', tracks (rs ++ [r]) seg' (update_at t r.1 r.2).
Proof.
  intros [Hrun Hrise (q & Hq & Hid & Hedge) Hcount] He Hlen.
  pose proof (current_run_bound _ _ Hrun) as Hb.
  destruct (decide (run_of q = run_of r)) as [Heq|Hne].
  - exists (seg ++ [r]). unfold update_at. rewrite Hid, Hcount. change (r_run_id r.1) with (run_of r).
    rewrite Heq, String.eqb_refl, (proj2 (Z.eqb_neq (zlen seg) 0)) by lia. cbn.
    assert (Hlast : list.last (seg ++ [r]) = Some r) by apply list.last_snoc.
    split; cbn.
    + destruct Hrun as (earlier & q' & -> & Hq' & Hall & Hlt). assert (q' = q) as -> by congruence.
      exists earlier, r. rewrite <- app_assoc, <- Heq. split; [done|]. split; [done|].
      split; [apply Forall_app; split; [done|by repeat constructor]|done].
    + rewrite Hedge. destruct (0 <? clamp_i64 (edges r.1 - edges_of q)) eqn:Ed.
      * apply Z.ltb_lt, (proj1 (clamp_pos _)) in Ed. apply last_rise_up. rewrite Hq. unfold edges_of in *. lia.
      * apply Z.ltb_ge in Ed. eapply last_rise_flat; [done..|].
        pose proof (clamp_pos (edges r.1 - edges_of q)). unfold edges_of in *. lia.
    + by exists r.
    + rewrite Hcount, zlen_app. change (zlen [r]) with 1. unfold wrapping. apply Z.mod_small. lia.
  - exists [r]. apply restart; [right; congruence|done|].
    destruct Hrun as (earlier & q' & -> & Hq' & _). rewrite last_app, Hq'. congruence.
Qed.

Lemma track_tracks now rs :
  rs <> [] -> Forall (fun r => 0 <= edges_of r) rs -> zlen rs < 2 ^ 64 ->
  exists seg, tracks rs seg (track (new now) rs).
Proof.
  induction rs as [|r rs IH] using rev_ind; [done|]. intros _ [Hall [Hr _]%Forall_cons_iff]%Forall_app Hlen.
  assert (Hs : track (new now) (rs ++ [r]) = update_at (track (new now) rs) r.1 r.2).
  { unfold track. rewrite fold_left_app. by destruct r. }
  rewrite Hs.
  rewrite zlen_app in Hlen. change (zlen [r]) with 1 in Hlen.
  destruct rs as [|x rs].
  - exists [r]. apply (restart []); [by left|done|done].
  - destruct IH as [seg Hseg]; [done|done|lia|]. eapply update_tracks; [done|done|].
    pose proof (current_run_bound _ _ (tr_run _ _ _ Hseg)). lia.
Qed.

Lemma elapsed_mono t a b : a <= b -> elapsed_secs t a <= elapsed_secs t b.
Proof. intros. unfold elapsed_secs. apply Z.div_le_mono; lia. Qed.

(** ** Theorems *)

(** C11: whatever readings arrive, of whatever runs, stagnation is counted from
    the last rise of edge coverage within the current run: no proposal before a
    second reading of the run and [threshold_secs] without a rise, then the tier
    the whole windows since that rise have reached.  Until the next reading the
    tier only escalates. *)
Theorem stagnation_ladder now0 rs policy :
  rs <> [] -> Forall (fun r => 0 <= edges_of r) rs -> zlen rs < 2 ^ 64 ->
  let t := track (new now0) rs in
  exists seg rise, current_run rs seg /\ last_rise seg rise /\
    (forall now1 now2, propose_action t policy now1 now2 =
       if (zlen seg <=? 1) || (elapsed_secs rise now1 <? threshold_secs policy) then None
       else
         let windows := elapsed_secs rise now2 / Z.max (threshold_secs policy) 1 in
         Some (if stop_windows policy <=? windows then Stop
               else if new_harness_windows policy <=? windows then NewHarness else CustomMutator)) /\
    (forall now p now' p', now <= now' -> propose_action t policy now now = Some p ->
       propose_action t policy now' now' = Some p' -> tier p <= tier p').
Proof.
  intros Hne Hall Hlen t. destruct (track_tracks now0 rs Hne Hall Hlen) as [seg [Hrun Hrise _ Hcount]].
  fold t in Hrise, Hcount. exists seg, (last_progress t).
  assert (Heq : forall now1 now2, propose_action t policy now1 now2 =
       if (zlen seg <=? 1) || (elapsed_secs (last_progress t) now1 <? threshold_secs policy) then None
       else
         let windows := elapsed_secs (last_progress t) now2 / Z.max (threshold_secs policy) 1 in
         Some (if stop_windows policy <=? windows then Stop
               else if new_harness_windows policy <=? windows then NewHarness else CustomMutator)).
  { intros now1 now2. unfold propose_action, is_stagnant, stagnation_secs. rewrite Hcount.
    destruct (zlen seg <=? 1); [done|]. cbn. by rewrite <- Z.ltb_antisym. }
  do 2 (split; [done|]). split; [exact Heq|]. intros now p now' p' Hle. rewrite !Heq. cbv zeta.
  destruct (zlen seg <=? 1); [done|]. cbn [orb].
  destruct (_ <? _); [done|]. destruct (_ <? _); [done|]. intros [= <-] [= <-].
  pose proof (Z.div_le_mono _ _ (Z.max (threshold_secs policy) 1) ltac:(lia)
    (elapsed_mono (last_progress t) now now' Hle)).
  repeat (case_match; cbn); try lia.
Qed.

(** ** Witness: a run with a plateau, after another run *)
Definition sample_reading (run : string) (e at_ : Z) : Reading :=
  (mkReport run e 0 0 0 [], at_ * 10 ^ 9).
Definition sample_readings : list Reading :=
  [sample_reading "a" 50 0; sample_reading "b" 10 5; sample_reading "b" 12 10; sample_reading "b" 12 15].
Definition sample_policy : StagnationPolicy := mkPolicy 60 2 4.

Lemma stagnation_ladder_witness :
  (fun s => propose_action (track (new 0) sample_readings) sample_policy (s * 10 ^ 9) (s * 10 ^ 9))
    <$> [69; 70; 130; 250] = [None; Some CustomMutator; Some NewHarness; Some Stop] /\
  exists seg rise, current_run sample_readings seg /\ last_rise seg rise.
Proof.
  split; [vm_compute; reflexivity|].
  destruct (stagnation_ladder 0 sample_readings sample_policy) as (seg & rise & H1 & H2 & _).
  - discriminate.
  - repeat constructor; vm_compute; congruence.
  - vm_compute. reflexivity.
  - by exists seg, rise.
Defined.
