(* ===== verification/Schedule.v ===== *)
(** * Schedules and triggers

    Models [crates/hf-scheduler/src/{store,config,interval,onetime,cron,trigger}.rs]
    and the recovery data of [recovery.rs] a schedule embeds.  Instants and
    durations are nanoseconds; chrono and croner are interfaces.  The clock is an
    argument. *)
From S2P Require Import Prelude.

(** ** Interfaces: chrono *)
Class Chrono := mkChrono {
  instant : Z -> Prop;
  checked_add_signed : Z -> Z -> option Z;
  try_seconds : Z -> option Z;
  num_seconds : Z -> Z;
  num_minutes : Z -> Z;
}.
(** What chrono documents: [DateTime<Utc>] spans an interval of about 262000
    years around the epoch, addition fails outside it, [TimeDelta] holds up to
    [i64::MAX] milliseconds, and whole units truncate toward zero. *)
Class ChronoLaws (C : Chrono) : Prop := mkChronoLaws {
  instant_convex t u v : instant t -> instant v -> t <= u <= v -> instant u;
  instant_bound t : instant t -> Z.abs t <= 10 ^ 13 * 10 ^ 9;
  add_spec t d u : instant t -> checked_add_signed t d = Some u <-> instant u /\ u = t + d;
  try_seconds_spec s :
    try_seconds s = if Z.abs s <=? i64_MAX / 1000 then Some (s * 10 ^ 9) else None;
  num_seconds_spec d : num_seconds d = Z.quot d (10 ^ 9);
  num_minutes_spec d : num_minutes d = Z.quot d (60 * 10 ^ 9);
}.

(** ** Interfaces: croner and chrono-tz *)
Class Croner := mkCroner {
  CronPattern : Type;
  Tz : Type;
  parse_pattern : string -> option CronPattern;
  parse_tz : string -> option Tz;
  find_next_occurrence : CronPattern -> option Tz -> Z -> option Z;
  is_time_matching : CronPattern -> option Tz -> Z -> bool;
}.
(** [find_next_occurrence(_, false)] is documented to search strictly after. *)
Class CronerLaws (K : Croner) : Prop :=
  next_later p tz t u : find_next_occurrence p tz t = Some u -> t < u.

(** ** Configuration *)
Inductive MissedPolicy := CatchUp | Skip | Backfill.
#[export] Instance MissedPolicy_eq_dec : EqDecision MissedPolicy.
Proof. solve_decision. Defined.
Inductive ConcurrencyPolicy := Allow | SkipIfRunning | Queue | CancelPrevious.
#[export] Instance ConcurrencyPolicy_eq_dec : EqDecision ConcurrencyPolicy.
Proof. solve_decision. Defined.

Record EventFilter := mkFilter { field : string; pattern : string }.
#[export] Instance EventFilter_eq_dec : EqDecision EventFilter.
Proof. solve_decision. Defined.

Inductive TriggerConfig :=
| Cron (expression timezone : string)
| Interval (interval_secs : Z)
| Event (event_type : string) (debounce_secs : Z) (filter : option EventFilter)
| OneTime (at_ : Z).

Record SchedulePolicies := mkPolicies {
  missed_policy : option MissedPolicy;
  concurrency_policy : option ConcurrencyPolicy;
  max_executions_per_hour : Z;
}.
Definition resolve_defaults (p : SchedulePolicies) (m : MissedPolicy) (c : ConcurrencyPolicy)
    : SchedulePolicies :=
  mkPolicies (Some (default m (missed_policy p))) (Some (default c (concurrency_policy p)))
    (max_executions_per_hour p).
Definition effective_missed_policy (p : SchedulePolicies) : MissedPolicy :=
  default Skip (missed_policy p).
Definition effective_concurrency_policy (p : SchedulePolicies) : ConcurrencyPolicy :=
  default SkipIfRunning (concurrency_policy p).

Inductive TriggerType := TCron | TInterval | TEvent | TOneTime.
#[export] Instance TriggerType_eq_dec : EqDecision TriggerType.
Proof. solve_decision. Defined.

Definition trigger_type_of (t : TriggerConfig) : TriggerType :=
  match t with
  | Cron _ _ => TCron
  | Interval _ => TInterval
  | OneTime _ => TOneTime
  | Event _ _ _ => TEvent
  end.

(** ** Recovery data *)
Inductive RecoveryCadence :=
| Fixed (interval : Z)
| CronCadence (expression timezone : string).
#[export] Instance RecoveryCadence_eq_dec : EqDecision RecoveryCadence.
Proof. solve_decision. Defined.

Record RecoveryBatch := mkBatch {
  schedule_id : string;
  first_fire : Z;
  cadence : RecoveryCadence;
  count : Z;
  b_trigger_type : TriggerType;
}.
#[export] Instance RecoveryBatch_eq_dec : EqDecision RecoveryBatch.
Proof. solve_decision. Defined.

Record RecoveryCheckpoint := mkCheckpoint {
  batch : RecoveryBatch;
  c_last_fire : Z;
}.
#[export] Instance RecoveryCheckpoint_eq_dec : EqDecision RecoveryCheckpoint.
Proof. solve_decision. Defined.

(** ** Schedules; [J] is the JSON value type *)
Record Schedule (J : Type) := mkSchedule {
  id : string;
  name : string;
  enabled : bool;
  trigger : TriggerConfig;
  workflow_id : string;
  parameter_values : J;
  policies : SchedulePolicies;
  description : string;
  tags : list string;
  created_at : Z;
  updated_at : Z;
  last_fire : option Z;
  recovery_pending : option RecoveryCheckpoint;
}.
Arguments mkSchedule {J}.
Arguments id {J}.
Arguments name {J}.
Arguments enabled {J}.
Arguments trigger {J}.
Arguments workflow_id {J}.
Arguments parameter_values {J}.
Arguments policies {J}.
Arguments description {J}.
Arguments tags {J}.
Arguments created_at {J}.
Arguments updated_at {J}.
Arguments last_fire {J}.
Arguments recovery_pending {J}.

Record FiredTrigger (J : Type) := mkFired {
  cascade_depth : Z;
  f_schedule_id : string;
  fired_at : Z;
  f_trigger_type : TriggerType;
  is_recovery : bool;
  event_payload : option J;
}.
Arguments mkFired {J}.
Arguments cascade_depth {J}.
Arguments f_schedule_id {J}.
Arguments fired_at {J}.
Arguments f_trigger_type {J}.
Arguments is_recovery {J}.
Arguments event_payload {J}.

Section schedule.
Context {J : Type}.
Implicit Types (s : Schedule J) (ss : list (Schedule J)).

Definition with_last_fire (t : option Z) s : Schedule J :=
  mkSchedule (id s) (name s) (enabled s) (trigger s) (workflow_id s) (parameter_values s) (policies s)
    (description s) (tags s) (created_at s) (updated_at s) t (recovery_pending s).
Definition with_pending (c : option RecoveryCheckpoint) s : Schedule J :=
  mkSchedule (id s) (name s) (enabled s) (trigger s) (workflow_id s) (parameter_values s) (policies s)
    (description s) (tags s) (created_at s) (updated_at s) (last_fire s) c.
Definition with_enabled (b : bool) (now : Z) s : Schedule J :=
  mkSchedule (id s) (name s) b (trigger s) (workflow_id s) (parameter_values s) (policies s)
    (description s) (tags s) (created_at s) now (last_fire s) (recovery_pending s).

(** ** The store: [ScheduleStore.schedules] *)
Definition register ss s : list (Schedule J) :=
  filter (fun x => id x <> id s) ss ++ [s].
Definition get ss (i : string) : option (Schedule J) :=
  find_map (fun x => if String.eqb (id x) i then Some x else None) ss.
(** [iter_mut().find(..)]: change the first schedule of this identity. *)
Fixpoint update_first (i : string) (f : Schedule J -> Schedule J) ss : list (Schedule J) :=
  match ss with
  | [] => []
  | x :: ss => if String.eqb (id x) i then f x :: ss else x :: update_first i f ss
  end.
Definition contains ss (i : string) : bool := existsb (fun x => String.eqb (id x) i) ss.
Definition update ss s : list (Schedule J) * bool :=
  (update_first (id s) (fun _ => s) ss, contains ss (id s)).
Definition list_enabled ss : list (Schedule J) := filter (fun x => enabled x = true) ss.
Definition is_cron (t : TriggerConfig) : bool := match t with Cron _ _ => true | _ => false end.
Definition set_enabled ss (i : string) (b : bool) (now : Z) : list (Schedule J) * bool :=
  (update_first i (fun x =>
     with_enabled b now
       (if b && negb (enabled x) && is_cron (trigger x) then with_last_fire (Some now) x else x)) ss,
   contains ss i).
Definition remove ss (i : string) : list (Schedule J) * bool :=
  let ss' := filter (fun x => id x <> i) ss in (ss', (length ss' <? length ss)%nat).
Definition update_last_fire ss (i : string) (time : Z) : list (Schedule J) :=
  update_first i (fun x =>
    if from_option (fun current => current <? time) true (last_fire x)
    then with_last_fire (Some time) x else x) ss.
End schedule.

(** ** Triggers *)
Section triggers.
Context `{C : Chrono} `{K : Croner}.

Definition interval_duration (interval_secs : Z) : option Z :=
  if interval_secs =? 0 then None
  else seconds ← i64_of interval_secs; try_seconds seconds.
Definition interval_next_fire (interval_secs after : Z) : option Z :=
  d ← interval_duration interval_secs; checked_add_signed after d.
Definition interval_validate (interval_secs now : Z) : Result string unit :=
  match interval_next_fire interval_secs now with
  | None => Err "interval must be positive and fit the supported calendar"
  | Some _ => Ok tt
  end.

Record OneTimeSchedule := mkOneTime { at_ : Z; fired : bool }.
Definition should_fire (o : OneTimeSchedule) (now : Z) : bool := negb (fired o) && (at_ o <=? now).

Definition cron_tz (timezone : string) : option Tz :=
  let name := trim timezone in
  if String.eqb name "" || String.eqb (to_ascii_lowercase name) "utc" then None else parse_tz name.
Definition cron_is_valid (expression : string) : bool :=
  match parse_pattern expression with Some _ => true | None => false end.
Definition cron_next_fire (expression timezone : string) (after : Z) : option Z :=
  cron ← parse_pattern expression; find_next_occurrence cron (cron_tz timezone) after.
Definition cron_matches (expression timezone : string) (time : Z) : bool :=
  match parse_pattern expression with
  | None => false
  | Some cron => is_time_matching cron (cron_tz timezone) time
  end.

Definition due_by (next : option Z) (now : Z) : bool :=
  match next with Some next => next <=? now | None => false end.

Definition evaluate_trigger {J} (s : Schedule J) (now : Z) : option (FiredTrigger J) :=
  if negb (enabled s) then None
  else
    let should :=
      match trigger s with
      | Cron expression timezone =>
          due_by (cron_next_fire expression timezone (default (created_at s) (last_fire s))) now
      | Interval interval_secs =>
          match last_fire s with
          | Some last => due_by (interval_next_fire interval_secs last) now
          | None => match interval_next_fire interval_secs now with Some _ => true | None => false end
          end
      | OneTime at_ =>
          match last_fire s with None => should_fire (mkOneTime at_ false) now | Some _ => false end
      | Event _ _ _ => false
      end in
    if should
    then Some (mkFired 0 (id s) now (trigger_type_of (trigger s)) false None)
    else None.
Definition evaluate_all {J} (ss : list (Schedule J)) (now : Z) : list (FiredTrigger J) :=
  omap (fun s => evaluate_trigger s now) ss.

(** [SchedulerManager::cursor_time]. *)
Definition cursor_time {J} (f : FiredTrigger J) (now : Z) : Z :=
  if is_recovery f then fired_at f else Z.max (fired_at f) now.
End triggers.
