(* ===== verification/Recovery.v ===== *)
(** * Missed-schedule recovery

    Models [crates/hf-scheduler/src/recovery.rs] and the parts of
    [manager.rs] that start, submit and complete recovery.  Durable writes
    succeed here; the in-memory store stands for what a restart reloads. *)
From S2P Require Import Prelude Schedule.

Section recovery.
Context `{C : Chrono} `{K : Croner} {J : Type}.
Implicit Types (s : Schedule J) (ss : list (Schedule J)).

Record RecoveryAdvance := mkAdvance { a_schedule_id : string; a_last_fire : Z }.
Record RecoveryPlan := mkPlan {
  batches : list RecoveryBatch;
  advances : list RecoveryAdvance;
  caught_up : list string;
  skipped : list string;
  backfilled : list (string * Z);
}.
Definition empty_plan : RecoveryPlan := mkPlan [] [] [] [] [].
(** [plan.batches.push] and the like. *)
Definition push_batch (b : RecoveryBatch) (p : RecoveryPlan) : RecoveryPlan :=
  mkPlan (batches p ++ [b]) (advances p) (caught_up p) (skipped p) (backfilled p).
Definition push_advance (a : RecoveryAdvance) (p : RecoveryPlan) : RecoveryPlan :=
  mkPlan (batches p) (advances p ++ [a]) (caught_up p) (skipped p) (backfilled p).
Definition push_caught_up (i : string) (p : RecoveryPlan) : RecoveryPlan :=
  mkPlan (batches p) (advances p) (caught_up p ++ [i]) (skipped p) (backfilled p).
Definition push_skipped (i : string) (p : RecoveryPlan) : RecoveryPlan :=
  mkPlan (batches p) (advances p) (caught_up p) (skipped p ++ [i]) (backfilled p).
Definition push_backfilled (x : string * Z) (p : RecoveryPlan) : RecoveryPlan :=
  mkPlan (batches p) (advances p) (caught_up p) (skipped p) (backfilled p ++ [x]).
Definition trigger_count (p : RecoveryPlan) : Z :=
  fold_left (fun total b => saturating_add u64_MAX total (count b)) (batches p) 0.

Definition trigger_type s : TriggerType := trigger_type_of (trigger s).
Definition single s (at_ : Z) : RecoveryBatch := mkBatch (id s) at_ (Fixed 0) 1 (trigger_type s).

Definition batch_next_fire (b : RecoveryBatch) (after : Z) : option Z :=
  match cadence b with
  | Fixed interval => checked_add_signed after interval
  | CronCadence expression timezone => cron_next_fire expression timezone after
  end.

Definition add_intervals (start interval count : Z) : option Z :=
  count ← i64_of count;
  seconds ← checked_mul_i64 (num_seconds interval) count;
  d ← try_seconds seconds;
  checked_add_signed start d.

(** One turn of the [while let] over cron occurrences: latest and count. *)
Definition cron_step (expression timezone : string) (now : Z) (st : Z * Z) : option (Z * Z) :=
  next ← cron_next_fire expression timezone st.1;
  if (next <=? st.1) || (now <? next) then None
  else Some (next, saturating_add u64_MAX st.2 1).

(** [2 ^ 76] turns outnumber the nanoseconds between any two instants. *)
Definition loop_bits : nat := 76.

Definition missed_occurrences s (last_fire now : Z) : option (Z * RecoveryCadence * Z * Z) :=
  match trigger s with
  | Interval interval_secs =>
      interval ← interval_duration interval_secs;
      if interval <=? 0 then None
      else
        let elapsed := now - last_fire in
        if elapsed <? interval then None
        else
          let missed_count := Z.quot (num_seconds elapsed) (num_seconds interval) in
          if (missed_count <=? 0) || (u64_MAX <? missed_count) then None
          else
            first_fire ← checked_add_signed last_fire interval;
            latest_due ← add_intervals last_fire interval missed_count;
            Some (first_fire, Fixed interval, missed_count, latest_due)
  | Cron expression timezone =>
      first_fire ← cron_next_fire expression timezone last_fire;
      if now <? first_fire then None
      else
        let '(latest_due, missed_count) :=
          (run_loop (cron_step expression timezone now) loop_bits (first_fire, 1)).1 in
        Some (first_fire, CronCadence expression timezone, missed_count, latest_due)
  | OneTime _ | Event _ _ _ => None
  end.

Definition plan_never_fired s (now : Z) (plan : RecoveryPlan) : RecoveryPlan :=
  let advance := push_advance (mkAdvance (id s) now) in
  let fire := fun plan => advance (push_caught_up (id s) (push_batch (single s now) plan)) in
  match trigger s with
  | Event _ _ _ => plan
  | Interval interval_secs =>
      match interval_next_fire interval_secs now with None => plan | Some _ => fire plan end
  | OneTime at_ =>
      if now <? at_ then plan
      else if bool_decide (effective_missed_policy (policies s) = Skip)
      then advance (push_skipped (id s) plan)
      else fire plan
  | Cron _ _ => fire plan
  end.

Definition plan_schedule (now : Z) (plan : RecoveryPlan) s : RecoveryPlan :=
  match recovery_pending s with
  | Some checkpoint =>
      push_advance (mkAdvance (id s) (c_last_fire checkpoint)) (push_batch (batch checkpoint) plan)
  | None =>
      if negb (enabled s) then plan
      else
        let cursor :=
          match last_fire s with
          | Some last => Some last
          | None => if is_cron (trigger s) then Some (created_at s) else None
          end in
        match cursor with
        | None => plan_never_fired s now plan
        | Some last =>
            match missed_occurrences s last now with
            | None => plan
            | Some (first_fire, cadence, missed_count, latest_due) =>
                match effective_missed_policy (policies s) with
                | Skip => push_advance (mkAdvance (id s) latest_due) (push_skipped (id s) plan)
                | CatchUp =>
                    push_advance (mkAdvance (id s) now)
                      (push_caught_up (id s) (push_batch (single s now) plan))
                | Backfill =>
                    push_advance (mkAdvance (id s) latest_due)
                      (push_backfilled (id s, missed_count)
                        (push_batch (mkBatch (id s) first_fire cadence missed_count (trigger_type s))
                           plan))
                end
            end
        end
  end.
Definition recover_missed ss (now : Z) : RecoveryPlan :=
  fold_left (plan_schedule now) ss empty_plan.

(** ** Checkpoints *)
Definition matches_identity (c : RecoveryCheckpoint) s : bool :=
  let b := batch c in
  String.eqb (schedule_id b) (id s) &&
  match trigger s, cadence b, b_trigger_type b with
  | Interval interval_secs, Fixed interval, TInterval =>
      ((interval =? 0) && (count b =? 1))
      || bool_decide (interval_duration interval_secs = Some interval)
  | Cron expression timezone, CronCadence saved_expression saved_timezone, TCron =>
      String.eqb expression saved_expression && String.eqb timezone saved_timezone
  | Cron _ _, Fixed interval, TCron => (interval =? 0) && (count b =? 1)
  | _, _, _ => false
  end.

(** [for _ in 1..count]: the occurrence reached, [None] for [return false]. *)
Fixpoint cron_walk (expression timezone : string) (n : nat) (at_ last : Z) : option Z :=
  match n with
  | O => Some at_
  | S n =>
      next ← cron_next_fire expression timezone at_;
      if (next <=? at_) || (last <? next) then None
      else cron_walk expression timezone n next last
  end.

Definition matches_schedule (c : RecoveryCheckpoint) s : bool :=
  let b := batch c in
  if negb (matches_identity c s) || (count b =? 0) || (c_last_fire c <? first_fire b) then false
  else
    match trigger s, cadence b, b_trigger_type b with
    | Interval interval_secs, Fixed interval, TInterval =>
        if (count b =? 1) && (interval =? 0) then first_fire b =? c_last_fire c
        else
          bool_decide (interval_duration interval_secs = Some interval)
          && bool_decide (add_intervals (first_fire b) interval (count b - 1) = Some (c_last_fire c))
    | Cron expression timezone, CronCadence saved_expression saved_timezone, TCron =>
        if negb (String.eqb expression saved_expression) || negb (String.eqb timezone saved_timezone)
        then false
        else if negb (cron_is_valid expression) || negb (cron_matches expression timezone (first_fire b))
        then false
        else
          let elapsed := num_minutes (c_last_fire c - first_fire b) in
          if (elapsed <? 0) || (saturating_add u64_MAX elapsed 1 <? count b) then false
          else bool_decide (cron_walk expression timezone (Z.to_nat (count b - 1)) (first_fire b)
                              (c_last_fire c) = Some (c_last_fire c))
    | Cron _ _, Fixed interval, TCron =>
        (count b =? 1) && (interval =? 0) && (first_fire b =? c_last_fire c)
    | _, _, _ => false
    end.

(** ** The manager *)

(** [start]: the plan without one-time schedules, what it holds, and the store. *)
Definition is_one_time (t : TriggerConfig) : bool := match t with OneTime _ => true | _ => false end.
Definition one_time_ids ss : list string :=
  id <$> filter (fun s => is_one_time (trigger s) = true) (list_enabled ss).
Definition retain (ids : list string) (p : RecoveryPlan) : RecoveryPlan :=
  mkPlan (filter (fun b => schedule_id b ∉ ids) (batches p))
    (filter (fun a => a_schedule_id a ∉ ids) (advances p))
    (filter (fun i => i ∉ ids) (caught_up p)) (filter (fun i => i ∉ ids) (skipped p))
    (filter (fun x => x.1 ∉ ids) (backfilled p)).
Definition mark (held : list RecoveryAdvance) ss (b : RecoveryBatch) : list (Schedule J) :=
  match get ss (schedule_id b) with
  | None => ss
  | Some s =>
      match find_map (fun a => if String.eqb (a_schedule_id a) (schedule_id b) then Some a else None)
              held with
      | None => ss
      | Some a => (update ss (with_pending (Some (mkCheckpoint b (a_last_fire a))) s)).1
      end
  end.
Definition start_recovery ss (now : Z) : RecoveryPlan * list RecoveryAdvance * list (Schedule J) :=
  let plan := retain (one_time_ids ss) (recover_missed ss now) in
  let held_ids := schedule_id <$> batches plan in
  let held := filter (fun a => a_schedule_id a ∈ held_ids) (advances plan) in
  let rest := filter (fun a => a_schedule_id a ∉ held_ids) (advances plan) in
  let ss := fold_left (fun ss a => update_last_fire ss (a_schedule_id a) (a_last_fire a)) rest ss in
  (mkPlan (batches plan) [] (caught_up plan) (skipped plan) (backfilled plan), held,
   fold_left (mark held) (batches plan) ss).

Definition trigger_at (b : RecoveryBatch) (at_ : Z) : FiredTrigger J :=
  mkFired 0 (schedule_id b) at_ (b_trigger_type b) true None.
(** [submit_recovery], once armed and never shut down: the triggers sent, and
    whether the submission ran through. *)
Fixpoint submit_batch (b : RecoveryBatch) (remaining : nat) (fired_at : Z)
    : list (FiredTrigger J) * bool :=
  match remaining with
  | O => ([], true)
  | S remaining =>
      let t := trigger_at b fired_at in
      match remaining with
      | O => ([t], true)
      | S _ =>
          match batch_next_fire b fired_at with
          | None => ([t], false)
          | Some next =>
              let '(ts, ok) := submit_batch b remaining next in (t :: ts, ok)
          end
      end
  end.
Fixpoint submit_recovery (bs : list RecoveryBatch) : list (FiredTrigger J) * bool :=
  match bs with
  | [] => ([], true)
  | b :: bs =>
      match submit_batch b (Z.to_nat (count b)) (first_fire b) with
      | (ts, false) => (ts, false)
      | (ts, true) => let '(ts', ok) := submit_recovery bs in (ts ++ ts', ok)
      end
  end.

(** The end of [run_recovery_batch]. *)
Definition complete_recovery ss (a : RecoveryAdvance) (checkpoint : RecoveryCheckpoint)
    : list (Schedule J) :=
  match get ss (a_schedule_id a) with
  | None => ss
  | Some current =>
      if negb (bool_decide (recovery_pending current = Some checkpoint)) then ss
      else
        (update ss (with_pending None
           (with_last_fire (Some (from_option (fun last => Z.max last (a_last_fire a))
                                    (a_last_fire a) (last_fire current))) current))).1
  end.

(** What the evaluation loop sees of a schedule. *)
Definition tick_view s : Schedule J :=
  match recovery_pending s with
  | None => s
  | Some c =>
      with_last_fire (Some (from_option (fun last => Z.max last (c_last_fire c)) (c_last_fire c)
                              (last_fire s))) s
  end.
End recovery.

(** ** Specification: the occurrences that came due *)
Section spec.
Context `{C : Chrono} `{K : Croner}.

Definition next_of (t : TriggerConfig) (after : Z) : option Z :=
  match t with
  | Cron expression timezone => cron_next_fire expression timezone after
  | Interval interval_secs => interval_next_fire interval_secs after
  | OneTime _ | Event _ _ _ => None
  end.
Definition recurring (t : TriggerConfig) : Prop :=
  match t with Cron _ _ | Interval _ => True | _ => False end.

(** [ds] are the occurrences after the cursor up to [now], in order. *)
Inductive due (next : Z -> option Z) (now : Z) : Z -> list Z -> Prop :=
| due_none cursor : (forall t, next cursor = Some t -> now < t) -> due next now cursor []
| due_next cursor t ds : next cursor = Some t -> t <= now -> due next now t ds ->
    due next now cursor (t :: ds).

Definition cadence_of (t : TriggerConfig) : option RecoveryCadence :=
  match t with
  | Cron expression timezone => Some (CronCadence expression timezone)
  | Interval interval_secs => Fixed <$> interval_duration interval_secs
  | OneTime _ | Event _ _ _ => None
  end.
End spec.

(** ** Lemmas: occurrences *)
Section occurrences.
Context `{CL : ChronoLaws} `{KL : CronerLaws}.

Lemma interval_duration_spec i d :
  interval_duration i = Some d -> d = i * 10 ^ 9 /\ (0 <= i -> 1 <= i) /\ i <= i64_MAX / 1000.
Proof.
  unfold interval_duration, i64_of. destruct (i =? 0) eqn:E0; [done|].
  destruct ((i64_MIN <=? i) && (i <=? i64_MAX)) eqn:E; [|done]. cbn. rewrite try_seconds_spec.
  destruct (Z.abs i <=? i64_MAX / 1000) eqn:E1; [|done]. intros [= <-]. split; [done|]. lia.
Qed.
Lemma interval_next_spec i d t u :
  interval_duration i = Some d -> instant t ->
  interval_next_fire i t = Some u <-> instant u /\ u = t + d.
Proof. intros Hd Ht. unfold interval_next_fire. rewrite Hd. cbn. by apply add_spec. Qed.

Lemma cron_later e tz t u : cron_next_fire e tz t = Some u -> t < u.
Proof.
  unfold cron_next_fire. destruct (parse_pattern e) as [p|]; [|done]. cbn. apply next_later.
Qed.

(** A trigger's configuration is of its machine types. *)
Definition typed_trigger (t : TriggerConfig) : Prop :=
  match t with Interval i => is_u64 i | _ => True end.

Lemma next_of_later t after u :
  typed_trigger t -> instant after -> next_of t after = Some u -> after < u.
Proof.
  destruct t as [e tz|i|et db f|o]; cbn; try done; intros Ht Hi Hu; [by eapply cron_later|].
  pose proof Hu as Hu'. unfold interval_next_fire in Hu. destruct (interval_duration i) as [d|] eqn:Hd; [|done].
  apply (interval_next_spec i d after u Hd Hi) in Hu' as [_ ->].
  apply interval_duration_spec in Hd as (-> & H1 & _). unfold is_u64 in Ht. lia.
Qed.

Lemma due_exists t now cursor :
  typed_trigger t -> instant now -> instant cursor -> exists ds, due (next_of t) now cursor ds.
Proof.
  intros Ht Hn. remember (Z.to_nat (now - cursor)) as n eqn:En. revert cursor En.
  induction (lt_wf n) as [n _ IH]. intros cursor En Hc.
  destruct (next_of t cursor) as [u|] eqn:Hu; [|exists []; constructor; congruence].
  pose proof (next_of_later _ _ _ Ht Hc Hu). destruct (Z.le_gt_cases u now) as [Hle|Hgt].
  - destruct (IH (Z.to_nat (now - u))) with (cursor := u) as [ds Hds]; [lia|done| |].
    + eapply instant_convex; [exact Hc|exact Hn|lia].
    + exists (u :: ds). by econstructor.
  - exists []. constructor. intros t' Ht'. assert (t' = u) by congruence. lia.
Qed.

(** The latest of some occurrences after a cursor. *)
Definition latest (cursor : Z) (ds : list Z) : Z := default cursor (list.last ds).
Lemma latest_cons c t ds : latest c (t :: ds) = latest t ds.
Proof.
  unfold latest. destruct ds as [|d ds]; [done|]. rewrite last_cons_cons.
  destruct (list.last (d :: ds)) as [x|] eqn:E; [done|]. by apply last_None in E.
Qed.

Lemma due_latest t now cursor ds :
  typed_trigger t -> instant now -> instant cursor -> due (next_of t) now cursor ds ->
  due (next_of t) now (latest cursor ds) [] /\ instant (latest cursor ds) /\
  cursor <= latest cursor ds /\ (ds <> [] -> latest cursor ds <= now).
Proof.
  intros Ht Hn Hc Hd. induction Hd as [c Hstop|c u ds Hu Hle Hd IH].
  - split; [by constructor|]. split; [done|]. cbn. split; [lia|done].
  - pose proof (next_of_later _ _ _ Ht Hc Hu). rewrite latest_cons.
    assert (Hi : instant u) by (eapply instant_convex; [exact Hc|exact Hn|lia]).
    destruct (IH Hi) as (H1 & H2 & H3 & H4). split; [done|]. split; [done|]. split; [lia|].
    intros _. destruct ds; [cbn in *; lia|]. by apply H4.
Qed.

(** Cron: the scanning loop ends at the latest occurrence. *)
Lemma cron_scan e tz now cursor ds n :
  instant now -> instant cursor -> due (next_of (Cron e tz)) now cursor ds ->
  0 <= n -> n + zlen ds <= u64_MAX ->
  iterates (cron_step e tz now) (length ds) (cursor, n) (latest cursor ds, n + zlen ds) /\
  cron_step e tz now (latest cursor ds, n + zlen ds) = None.
Proof.
  intros Hnow Hc Hd. revert n. induction Hd as [c Hstop|c u ds Hu Hle Hd IH]; intros n Hn Hlen.
  - rewrite zlen_nil, Z.add_0_r. split; [constructor|]. unfold cron_step; cbn in *.
    destruct (cron_next_fire e tz c) as [t|] eqn:E; [|done]. cbn. specialize (Hstop t eq_refl).
    rewrite (proj2 (Z.ltb_lt now t)) by done. by rewrite orb_true_r.
  - cbn in Hu. pose proof (cron_later _ _ _ _ Hu). rewrite zlen_cons in *. rewrite latest_cons.
    pose proof (zlen_nonneg ds).
    destruct (IH ltac:(eapply instant_convex; [exact Hc|exact Hnow|lia]) (n + 1)) as [H1 H2]; [lia..|].
    replace (n + (zlen ds + 1)) with (n + 1 + zlen ds) by lia. split; [|done].
    econstructor; [|exact H1]. unfold cron_step; cbn. rewrite Hu. cbn.
    rewrite (proj2 (Z.leb_gt u c)), (proj2 (Z.ltb_ge now u)) by lia. cbn.
    unfold saturating_add. do 2 f_equal. lia.
Qed.

Lemma cron_loop e tz now cursor ds n :
  instant now -> instant cursor -> cursor <= now -> due (next_of (Cron e tz)) now cursor ds ->
  0 <= n -> n + zlen ds <= u64_MAX ->
  run_loop (cron_step e tz now) loop_bits (cursor, n) = ((latest cursor ds, n + zlen ds), true).
Proof.
  intros Hnow Hc Hle Hd Hn Hlen. destruct (cron_scan _ _ _ _ _ _ Hnow Hc Hd Hn Hlen) as [Hi Hs].
  destruct (run_loop_ends (cron_step e tz now) (fun st => now - st.1) loop_bits (cursor, n))
    as (st & m & Hr & Hst & Hm).
  - intros [t k] [t' k'] Hst. unfold cron_step in Hst; cbn in Hst.
    destruct (cron_next_fire e tz t) as [u|]; [|done]. cbn in Hst. destruct (_ || _) eqn:E; [done|].
    injection Hst as <- <-. cbn. lia.
  - pose proof (instant_bound now Hnow). pose proof (instant_bound cursor Hc). cbn [fst].
    change (2 ^ Z.of_nat loop_bits) with (2 ^ 76). lia.
  - rewrite Hr. f_equal. eapply iterates_det; [exact Hm|exact Hst|exact Hi|exact Hs].
Qed.

(** Interval: the due occurrences are the multiples up to the quotient. *)
Lemma interval_due i d now cursor ds :
  is_u64 i -> interval_duration i = Some d -> instant now -> instant cursor ->
  due (next_of (Interval i)) now cursor ds ->
  latest cursor ds = cursor + zlen ds * d /\ now < cursor + (zlen ds + 1) * d /\
  match ds with [] => True | f :: _ => f = cursor + d end.
Proof.
  intros Hi Hd Hnow Hc Hds. pose proof (interval_duration_spec _ _ Hd) as (Hdi & H1 & _).
  unfold is_u64 in Hi. induction Hds as [c Hstop|c u ds Hu Hle Hds IH].
  - change (zlen (@nil Z)) with 0. cbn. split; [lia|]. split; [|done]. destruct (Z.le_gt_cases (c + d) now); [|lia].
    enough (now < c + d) by lia. apply Hstop. apply (interval_next_spec i d c (c + d) Hd Hc).
    split; [|done]. eapply instant_convex; [exact Hc|exact Hnow|lia].
  - cbn in Hu. apply (interval_next_spec i d c u Hd Hc) in Hu as [Hiu ->].
    rewrite latest_cons, zlen_cons. destruct (IH Hiu) as (-> & H2 & _). split; [lia|]. split; [lia|done].
Qed.

Lemma add_intervals_spec i d start k :
  is_u64 i -> interval_duration i = Some d -> instant start -> 0 <= k -> instant (start + k * d) ->
  add_intervals start d k = Some (start + k * d).
Proof.
  intros Hi Hd Hs Hk Hend. pose proof (interval_duration_spec _ _ Hd) as (-> & H1 & H2).
  pose proof (instant_bound _ Hs). pose proof (instant_bound _ Hend). unfold is_u64 in Hi.
  assert (Hki : 0 <= i * k <= 2 * 10 ^ 13) by nia.
  assert (Hk' : k <= 2 * 10 ^ 13) by nia.
  unfold add_intervals, i64_of, checked_mul_i64, i64_of, i64_MIN, i64_MAX in *.
  rewrite num_seconds_spec, Z.quot_mul by done.
  replace ((- 2 ^ 63 <=? k) && (k <=? 2 ^ 63 - 1)) with true by lia. cbn.
  replace ((- 2 ^ 63 <=? i * k) && (i * k <=? 2 ^ 63 - 1)) with true by lia. cbn.
  rewrite try_seconds_spec. unfold i64_MAX.
  replace (Z.abs (i * k) <=? (2 ^ 63 - 1) / 1000) with true by (change ((2 ^ 63 - 1) / 1000) with 9223372036854775; lia).
  cbn. apply add_spec; [done|]. replace (i * k * 10 ^ 9) with (k * (i * 10 ^ 9)) by ring. done.
Qed.

Lemma missed_interval i d now cursor :
  is_u64 i -> interval_duration i = Some d -> d <= now - cursor ->
  Z.quot (num_seconds (now - cursor)) (num_seconds d) = (now - cursor) / d.
Proof.
  intros Hi Hd Hle. pose proof (interval_duration_spec _ _ Hd) as (-> & H1 & _). unfold is_u64 in Hi.
  rewrite !num_seconds_spec, Z.quot_mul by done.
  rewrite (Z.quot_div_nonneg (now - cursor)) by lia.
  rewrite Z.quot_div_nonneg by (try apply Z.div_pos; lia).
  rewrite Z.div_div by lia. f_equal. lia.
Qed.

(** [missed_occurrences] counts exactly what came due. *)
Lemma missed_spec {J} (s : Schedule J) cursor now ds :
  typed_trigger (trigger s) -> recurring (trigger s) -> instant cursor -> instant now ->
  due (next_of (trigger s)) now cursor ds -> zlen ds <= u64_MAX ->
  missed_occurrences s cursor now =
  match ds with
  | [] => None
  | f :: _ => cadence ← cadence_of (trigger s); Some (f, cadence, zlen ds, latest cursor ds)
  end.
Proof.
  intros Ht Hr Hc Hnow Hd Hlen. unfold missed_occurrences.
  destruct (trigger s) as [e tz|i|et db fl|o]; try done; cbn [cadence_of].
  - inversion Hd as [? Hstop|? f ds' Hf Hle Hd']; subst.
    + cbn in Hstop. destruct (cron_next_fire e tz cursor) as [t|]; [|done]. cbn.
      by rewrite (proj2 (Z.ltb_lt now t)) by auto.
    + cbn in Hf. rewrite Hf. cbn. pose proof (cron_later _ _ _ _ Hf).
      rewrite (proj2 (Z.ltb_ge now f)) by lia. rewrite zlen_cons in *.
      rewrite (cron_loop e tz now f ds' 1); [|done| |lia|done|lia|lia].
      * cbn [fst]. rewrite latest_cons. do 2 f_equal. f_equal. lia.
      * eapply instant_convex; [exact Hc|exact Hnow|lia].
  - destruct (interval_duration i) as [d|] eqn:Edur; cbn.
    2:{ inversion Hd as [? Hstop|? f ds' Hf]; subst; [done|].
        cbn in Hf. unfold interval_next_fire in Hf. by rewrite Edur in Hf. }
    destruct (interval_due i d now cursor ds Ht Edur Hnow Hc Hd) as (Hlat & Hlt & Hfst).
    pose proof (interval_duration_spec _ _ Edur) as (Hdi & H1 & _). cbn in Ht. unfold is_u64 in Ht.
    rewrite (proj2 (Z.leb_gt d 0)) by lia.
    destruct (due_latest (Interval i) now cursor ds Ht Hnow Hc Hd) as (_ & Hinst & _ & Hle).
    destruct ds as [|f ds].
    + change (zlen (@nil Z)) with 0 in Hlt. by rewrite (proj2 (Z.ltb_lt (now - cursor) d)) by lia.
    + specialize (Hle ltac:(done)). pose proof (zlen_nonneg ds). rewrite zlen_cons in *.
      assert (Hdle : d <= now - cursor) by nia.
      rewrite (proj2 (Z.ltb_ge (now - cursor) d)) by lia. rewrite (missed_interval i d) by done.
      assert ((now - cursor) / d = zlen ds + 1) as ->
        by (symmetry; apply Z.div_unique with (r := now - cursor - d * (zlen ds + 1)); [left; nia|lia]).
      rewrite (proj2 (Z.leb_gt (zlen ds + 1) 0)), (proj2 (Z.ltb_ge u64_MAX (zlen ds + 1))) by lia. cbn.
      rewrite Hfst. rewrite (proj2 (add_spec cursor d (cursor + d) Hc)); cbn.
      * rewrite (add_intervals_spec i d) by (done || lia || congruence). cbn. congruence.
      * split; [|done]. eapply instant_convex; [exact Hc|exact Hnow|lia].
Qed.

(** Stepping a compact batch gives its occurrences back. *)
Lemma submit_due {J} b t now f ds :
  (forall a, batch_next_fire b a = next_of t a) -> due (next_of t) now f ds ->
  submit_batch (J := J) b (S (length ds)) f = (trigger_at b <$> f :: ds, true).
Proof.
  intros Hb Hd. induction Hd as [f _|f u ds Hu _ _ IH]; [done|].
  cbn [submit_batch length] in *. rewrite Hb, Hu. by rewrite IH.
Qed.
End occurrences.

(** ** Lemmas: one schedule in the store *)
Section store.
Context {J : Type}.
Implicit Types (s : Schedule J) (ss : list (Schedule J)).

Lemma get_elem ss s : NoDup (id <$> ss) -> s ∈ ss -> get ss (id s) = Some s.
Proof.
  unfold get. induction ss as [|x ss IH]; cbn; [by intros _ ?%not_elem_of_nil|].
  intros [Hx Hnd]%list.NoDup_cons [->|Hs]%elem_of_cons; [by rewrite String.eqb_refl|].
  rewrite (proj2 (String.eqb_neq _ _)); [by apply IH|]. intros Heq. apply Hx. rewrite Heq.
  by apply list_elem_of_fmap_2.
Qed.
Lemma get_id ss i s : get ss i = Some s -> id s = i /\ s ∈ ss.
Proof.
  unfold get. intros (x & Hx & Heq)%find_map_Some. destruct (String.eqb (id x) i) eqn:E; [|done].
  injection Heq as ->. by apply String.eqb_eq in E.
Qed.

Lemma get_update_first ss f i j :
  (forall x, id x = i -> id (f x) = i) ->
  get (update_first i f ss) j = if decide (i = j) then f <$> get ss j else get ss j.
Proof.
  intros Hf. unfold get. induction ss as [|x ss IH]; cbn; [by case_decide|].
  destruct (String.eqb_spec (id x) i) as [<-|Hne]; cbn.
  - destruct (decide (id x = j)) as [<-|Hj].
    + rewrite Hf by done. by rewrite !String.eqb_refl.
    + rewrite Hf by done. by rewrite (proj2 (String.eqb_neq _ _)).
  - rewrite IH. destruct (decide (i = j)) as [<-|Hij]; [by rewrite (proj2 (String.eqb_neq _ _))|].
    by destruct (String.eqb (id x) j).
Qed.
Lemma update_first_ids ss f i :
  (forall x, id x = i -> id (f x) = i) -> id <$> update_first i f ss = id <$> ss.
Proof.
  intros Hf. induction ss as [|x ss IH]; cbn; [done|].
  destruct (String.eqb_spec (id x) i) as [<-|Hne]; cbn; [by rewrite Hf|by rewrite IH].
Qed.

(** What a fold of single-schedule updates does to one schedule. *)
Lemma fold_get {A} (step : list (Schedule J) -> A -> list (Schedule J)) (key : A -> string)
    (g : A -> option (Schedule J) -> option (Schedule J)) i (l : list A) ss :
  (forall ss a, get (step ss a) i = if decide (key a = i) then g a (get ss i) else get ss i) ->
  get (fold_left step l ss) i = fold_left (fun o a => g a o) (filter (fun a => key a = i) l) (get ss i).
Proof.
  intros Hstep. revert ss. induction l as [|a l IH]; intros ss; [done|]. cbn [fold_left].
  rewrite IH, Hstep, filter_cons. by case_decide.
Qed.

(** [update_last_fire] on its schedule. *)
Definition bump (t : Z) s : Schedule J :=
  if from_option (fun current => current <? t) true (last_fire s) then with_last_fire (Some t) s else s.
Lemma get_update_last_fire ss i t j :
  get (update_last_fire ss i t) j = if decide (i = j) then bump t <$> get ss j else get ss j.
Proof. unfold update_last_fire. rewrite get_update_first; [done|]. intros x <-. by case_match. Qed.

(** Checkpoints in the store carry their schedule's identity. *)
Definition pending_ok s : Prop :=
  match recovery_pending s with Some c => schedule_id (batch c) = id s | None => True end.

Context `{C : Chrono} `{K : Croner}.

(** What recovery does for one schedule: nothing, move the cursor, or work. *)
Inductive Outcome := Nothing | Advance (t : Z) | Work (b : RecoveryBatch) (t : Z).
Definition outcome (now : Z) s : Outcome :=
  let p := plan_schedule now empty_plan s in
  match batches p, advances p with
  | b :: _, a :: _ => Work b (a_last_fire a)
  | [], a :: _ => Advance (a_last_fire a)
  | _, [] => Nothing
  end.
Definition work_of (o : Outcome) : list RecoveryBatch := match o with Work b _ => [b] | _ => [] end.
Definition advances_of (i : string) (o : Outcome) : list RecoveryAdvance :=
  match o with Nothing => [] | Advance t | Work _ t => [mkAdvance i t] end.
Definition settled (o : Outcome) s : Schedule J :=
  match o with
  | Nothing => s
  | Advance t => bump t s
  | Work b t => with_pending (Some (mkCheckpoint b t)) s
  end.

Lemma plan_schedule_acc now p s :
  batches (plan_schedule now p s) = batches p ++ work_of (outcome now s) /\
  advances (plan_schedule now p s) = advances p ++ advances_of (id s) (outcome now s).
Proof.
  unfold outcome, plan_schedule, plan_never_fired.
  repeat (case_match; cbn); rewrite ?app_nil_r; done.
Qed.
Lemma work_ids now s : pending_ok s -> Forall (fun b => schedule_id b = id s) (work_of (outcome now s)).
Proof.
  unfold pending_ok, outcome, plan_schedule, plan_never_fired. intros Hp.
  repeat (case_match; cbn); simplify_eq/=; by rewrite ?Forall_cons_iff.
Qed.
Lemma advance_ids i (o : Outcome) : Forall (fun a => a_schedule_id a = i) (advances_of i o).
Proof. destruct o; cbn; by rewrite ?Forall_cons_iff. Qed.

Lemma recover_missed_concat ss now :
  batches (recover_missed ss now) = concat ((fun s => work_of (outcome now s)) <$> ss) /\
  advances (recover_missed ss now) = concat ((fun s => advances_of (id s) (outcome now s)) <$> ss).
Proof.
  unfold recover_missed.
  assert (H : forall p, batches (fold_left (plan_schedule now) ss p)
      = batches p ++ concat ((fun s => work_of (outcome now s)) <$> ss) /\
    advances (fold_left (plan_schedule now) ss p)
      = advances p ++ concat ((fun s => advances_of (id s) (outcome now s)) <$> ss)); [|apply (H empty_plan)].
  induction ss as [|s ss IH]; intros p; cbn; [by rewrite !app_nil_r|].
  destruct (IH (plan_schedule now p s)) as [-> ->]. destruct (plan_schedule_acc now p s) as [-> ->].
  by rewrite <- !app_assoc.
Qed.

Lemma not_one_time ss s :
  NoDup (id <$> ss) -> s ∈ ss -> is_one_time (trigger s) = false -> id s ∉ one_time_ids ss.
Proof.
  intros Hnd Hs Ht (x & Hid & [Hx [_ Hin]%list_elem_of_filter]%list_elem_of_filter)%list_elem_of_fmap.
  pose proof (get_elem ss s Hnd Hs) as H1. rewrite Hid, (get_elem ss x Hnd Hin) in H1. congruence.
Qed.

Definition mine (i : string) (p : RecoveryPlan) : list RecoveryBatch :=
  filter (fun b => schedule_id b = i) (batches p).

Lemma mark_get held ss b i :
  get (mark held ss b) i =
  if decide (schedule_id b = i) then
    s ← get ss i;
    Some (from_option (fun a => with_pending (Some (mkCheckpoint b (a_last_fire a))) s) s
            (find_map (fun a => if String.eqb (a_schedule_id a) i then Some a else None) held))
  else get ss i.
Proof.
  unfold mark. destruct (get ss (schedule_id b)) as [s|] eqn:Eg.
  2:{ case_decide as Hd; [|done]. subst i. by rewrite Eg. }
  destruct (find_map _ held) as [a|] eqn:Ef.
  2:{ case_decide as Hd; [|done]. subst i. by rewrite Eg, Ef. }
  unfold update; cbn [fst]. apply get_id in Eg as Hid. destruct Hid as [Hid _].
  rewrite get_update_first by done. cbn. rewrite Hid. case_decide as Hd; [|done].
  subst i. by rewrite Eg, Ef.
Qed.

Lemma filter_key_nil {A} (key : A -> string) i (l : list A) :
  filter (fun a => key a = i) l = [] -> i ∉ key <$> l.
Proof.
  intros Hf (a & -> & Ha)%list_elem_of_fmap. assert (a ∈ filter (fun b => key b = key a) l)
    by (by apply list_elem_of_filter). rewrite Hf in H. by apply not_elem_of_nil in H.
Qed.
Lemma find_map_key {A} (key : A -> string) i (l : list A) a :
  filter (fun x => key x = i) l = [a] ->
  find_map (fun x => if String.eqb (key x) i then Some x else None) l = Some a.
Proof.
  induction l as [|x l IH]; [done|]. rewrite filter_cons. cbn.
  destruct (String.eqb_spec (key x) i) as [Hk|Hk].
  - rewrite decide_True by done. by intros [= -> _].
  - rewrite decide_False by done. exact IH.
Qed.

(** Starting recovery settles each schedule's own outcome. *)
Lemma start_one ss s now :
  NoDup (id <$> ss) -> Forall pending_ok ss -> s ∈ ss -> is_one_time (trigger s) = false ->
  let '(plan, _, ss') := start_recovery ss now in
  mine (id s) plan = work_of (outcome now s) /\ get ss' (id s) = Some (settled (outcome now s) s).
Proof.
  intros Hnd Hok Hs Hot. unfold start_recovery.
  destruct (recover_missed_concat ss now) as [Hb Ha]. rewrite list.Forall_forall in Hok.
  pose proof (not_one_time _ _ Hnd Hs Hot) as Hids.
  set (plan := retain (one_time_ids ss) (recover_missed ss now)).
  assert (Hpb : mine (id s) plan = work_of (outcome now s)).
  { unfold mine, plan, retain; cbn [batches].
    rewrite (filter_filter_key schedule_id (fun i => i ∉ one_time_ids ss) (HP := ltac:(intros ?; apply _))).
    rewrite decide_True, Hb by done. apply (filter_concat_key schedule_id (fun s => work_of (outcome now s)) id); [done| |done].
    intros a Hin. by apply work_ids, Hok. }
  assert (Hpa : filter (fun a => a_schedule_id a = id s) (advances plan) = advances_of (id s) (outcome now s)).
  { unfold plan, retain; cbn [advances].
    rewrite (filter_filter_key a_schedule_id (fun i => i ∉ one_time_ids ss) (HP := ltac:(intros ?; apply _))).
    rewrite decide_True, Ha by done.
    apply (filter_concat_key a_schedule_id (fun s => advances_of (id s) (outcome now s)) id); [done| |done].
    intros a _. apply advance_ids. }
  split; [exact Hpb|].
  set (held := filter (fun a => a_schedule_id a ∈ schedule_id <$> batches plan) (advances plan)).
  set (rest := filter _ (advances plan)).
  rewrite (fold_get (mark held) schedule_id (fun b o => x ← o;
    Some (from_option (fun a => with_pending (Some (mkCheckpoint b (a_last_fire a))) x) x
            (find_map (fun a => if String.eqb (a_schedule_id a) (id s) then Some a else None) held))))
    by (intros; apply mark_get).
  rewrite (fold_get (fun ss a => update_last_fire ss (a_schedule_id a) (a_last_fire a)) a_schedule_id
    (fun a o => bump (a_last_fire a) <$> o)) by (intros; apply get_update_last_fire).
  rewrite (get_elem _ _ Hnd Hs). unfold mine in Hpb. rewrite Hpb. unfold rest.
  rewrite (filter_filter_key a_schedule_id (fun i => i ∉ schedule_id <$> batches plan) (HP := ltac:(intros ?; apply _))), Hpa.
  assert (Hheld : filter (fun a => a_schedule_id a = id s) held
    = if decide (id s ∈ schedule_id <$> batches plan) then advances_of (id s) (outcome now s) else [])
    by (unfold held; rewrite (filter_filter_key a_schedule_id (fun i => i ∈ schedule_id <$> batches plan)
        (HP := ltac:(intros ?; apply _))); by rewrite Hpa).
  destruct (outcome now s) as [|t|b t]; cbn [work_of advances_of settled] in *.
  - by destruct (decide (id s ∉ schedule_id <$> batches plan)).
  - rewrite decide_True by (by apply (filter_key_nil schedule_id)). done.
  - assert (Hin : id s ∈ schedule_id <$> batches plan).
    { assert (b ∈ filter (fun b => schedule_id b = id s) (batches plan)) as [<- ?]%list_elem_of_filter
        by (rewrite Hpb; left). by apply list_elem_of_fmap_2. }
    rewrite decide_False by (by intros ?). rewrite decide_True in Hheld by done.
    cbn [fold_left mbind option_bind fmap option_fmap option_map].
    by rewrite (find_map_key _ _ _ _ Hheld).
Qed.
End store.

(** ** Theorems *)
Section theorems.
Context `{CL : ChronoLaws} `{KL : CronerLaws} {J : Type}.
Implicit Types (s : Schedule J) (ss : list (Schedule J)).

(** Where recovery counts from; [None] for a never-fired interval. *)
Definition cursor_of s : option Z :=
  match last_fire s with
  | Some last => Some last
  | None => if is_cron (trigger s) then Some (created_at s) else None
  end.

Lemma outcome_due s cursor now ds :
  enabled s = true -> recovery_pending s = None -> typed_trigger (trigger s) -> recurring (trigger s) ->
  cursor_of s = Some cursor -> instant cursor -> instant now ->
  due (next_of (trigger s)) now cursor ds -> zlen ds <= u64_MAX ->
  match ds with
  | [] => outcome now s = Nothing
  | f :: _ =>
      exists cadence, cadence_of (trigger s) = Some cadence /\
      outcome now s =
      match effective_missed_policy (policies s) with
      | Skip => Advance (latest cursor ds)
      | CatchUp => Work (single s now) now
      | Backfill => Work (mkBatch (id s) f cadence (zlen ds) (trigger_type s)) (latest cursor ds)
      end
  end.
Proof.
  intros He Hp Ht Hr Hcur Hc Hn Hd Hlen. pose proof (missed_spec s cursor now ds Ht Hr Hc Hn Hd Hlen) as Hm.
  assert (Hplan : plan_schedule now empty_plan s =
    match missed_occurrences s cursor now with
    | None => empty_plan
    | Some (first_fire, cadence, missed_count, latest_due) =>
        match effective_missed_policy (policies s) with
        | Skip => push_advance (mkAdvance (id s) latest_due) (push_skipped (id s) empty_plan)
        | CatchUp => push_advance (mkAdvance (id s) now)
                       (push_caught_up (id s) (push_batch (single s now) empty_plan))
        | Backfill => push_advance (mkAdvance (id s) latest_due)
            (push_backfilled (id s, missed_count)
              (push_batch (mkBatch (id s) first_fire cadence missed_count (trigger_type s)) empty_plan))
        end
    end).
  { unfold plan_schedule. rewrite Hp, He. unfold cursor_of in Hcur. cbn. by rewrite Hcur. }
  unfold outcome. rewrite Hplan, Hm. destruct ds as [|f ds]; [done|].
  assert (Hcad : exists cadence, cadence_of (trigger s) = Some cadence).
  { destruct (trigger s) as [e tz|i|et db fl|o]; try done; cbn; [by eexists|].
    inversion Hd as [|? ? ? Hf]; subst. cbn in Hf. unfold interval_next_fire in Hf.
    destruct (interval_duration i); [by eexists|done]. }
  destruct Hcad as [cadence Hcad]. rewrite Hcad. exists cadence. split; [done|]. cbn.
  by destruct (effective_missed_policy (policies s)).
Qed.

Lemma outcome_pending s now c :
  recovery_pending s = Some c -> outcome now s = Work (batch c) (c_last_fire c).
Proof. intros Hp. unfold outcome, plan_schedule. by rewrite Hp. Qed.

Lemma batch_next_of i f cadence n ty t a :
  cadence_of t = Some cadence -> batch_next_fire (mkBatch i f cadence n ty) a = next_of t a.
Proof.
  destruct t as [e tz|k|et db fl|o]; cbn; try done; [by intros [= <-]|].
  destruct (interval_duration k) as [d|] eqn:E; cbn; [|done]. intros [= <-]. cbn.
  unfold interval_next_fire. by rewrite E.
Qed.

(** Recurring schedules are not one-time schedules. *)
Lemma recurring_not_one_time t : recurring t -> is_one_time t = false.
Proof. by destruct t. Qed.

(** C12: on start, what an enabled recurring schedule missed is exactly the
    occurrences its trigger had between its cursor and now, in order.  [Skip]
    sends none of them and moves the cursor to the last; [CatchUp] sends one
    trigger now; [Backfill] sends every one of them once, and the checkpoint kept
    for it covers up to the last.  With none missed nothing changes. *)
Theorem recovery_plan_exact ss s cursor now :
  NoDup (id <$> ss) -> Forall pending_ok ss -> s ∈ ss ->
  enabled s = true -> recovery_pending s = None -> typed_trigger (trigger s) -> recurring (trigger s) ->
  cursor_of s = Some cursor -> instant cursor -> instant now ->
  exists ds, due (next_of (trigger s)) now cursor ds /\ (zlen ds <= u64_MAX ->
    let '(plan, _, ss') := start_recovery ss now in
    let fire t : FiredTrigger J := mkFired 0 (id s) t (trigger_type s) true None in
    let sent := submit_recovery (mine (id s) plan) in
    match ds, effective_missed_policy (policies s) with
    | [], _ => sent = ([], true) /\ get ss' (id s) = Some s
    | _, Skip => sent = ([], true) /\ get ss' (id s) = Some (bump (latest cursor ds) s)
    | _, CatchUp => sent = ([fire now], true) /\
        get ss' (id s) = Some (with_pending (Some (mkCheckpoint (single s now) now)) s)
    | _, Backfill => sent = (fire <$> ds, true) /\
        exists b, get ss' (id s) = Some (with_pending (Some (mkCheckpoint b (latest cursor ds))) s)
    end).
Proof.
  intros Hnd Hok Hs He Hp Ht Hr Hcur Hc Hn. destruct (due_exists (trigger s) now cursor Ht Hn Hc) as [ds Hd].
  exists ds. split; [done|]. intros Hlen.
  pose proof (start_one ss s now Hnd Hok Hs (recurring_not_one_time _ Hr)) as H.
  destruct (start_recovery ss now) as [[plan held] ss']. destruct H as [-> ->].
  pose proof (outcome_due s cursor now ds He Hp Ht Hr Hcur Hc Hn Hd Hlen) as Ho.
  destruct ds as [|f ds]; [by rewrite Ho|]. destruct Ho as (cadence & Hcad & ->). cbv zeta.
  destruct (effective_missed_policy (policies s)); cbn [work_of settled]; [|done|].
  - split; [|done]. done.
  - split; [|by eexists]. cbn [submit_recovery first_fire count].
    inversion Hd as [|? ? ? _ _ Hd']; subst. unfold zlen. rewrite Nat2Z.id. cbn [length].
    rewrite (submit_due (J := J) _ (trigger s) now f ds) by (done || intros; by apply batch_next_of).
    by rewrite app_nil_r.
Qed.

(** Starting keeps the identities, and checkpoints under their own. *)
Lemma update_first_ok ss f i :
  (forall x, pending_ok x -> id x = i -> pending_ok (f x)) -> Forall pending_ok ss ->
  Forall pending_ok (update_first i f ss).
Proof.
  intros Hf. induction 1 as [|x ss Hx Hss IH]; cbn; [constructor|].
  destruct (String.eqb_spec (id x) i); constructor; auto.
Qed.
Definition store_ok (ids : list string) ss : Prop := id <$> ss = ids /\ Forall pending_ok ss.
Lemma fold_ok {A} (step : list (Schedule J) -> A -> list (Schedule J)) ids (l : list A) ss :
  (forall ss a, store_ok ids ss -> store_ok ids (step ss a)) -> store_ok ids ss ->
  store_ok ids (fold_left step l ss).
Proof. intros Hstep. revert ss. induction l as [|a l IH]; cbn; auto. Qed.
Lemma start_ok ss now :
  Forall pending_ok ss -> store_ok (id <$> ss) (start_recovery ss now).2.
Proof.
  intros Hok. unfold start_recovery; cbn [snd]. apply fold_ok; [|apply fold_ok; [|by split]].
  - intros ss' b [Hids Hss]. unfold mark. destruct (get ss' _) as [s|] eqn:Eg; [|by split].
    destruct (find_map _ _) as [a|]; [|by split]. apply get_id in Eg as [Hid _]. unfold update; cbn [fst].
    split; [by rewrite update_first_ids|]. apply update_first_ok; [|done]. done.
  - intros ss' a [Hids Hss]. unfold update_last_fire. split; [rewrite update_first_ids; [done|]|].
    + intros x <-. by case_match.
    + apply update_first_ok; [|done]. intros x Hx _. by case_match.
Qed.

Lemma evaluate_caught_up s t now :
  recurring (trigger s) -> last_fire s = Some t -> due (next_of (trigger s)) now t [] ->
  evaluate_trigger s now = None.
Proof.
  intros Hr Hl Hd. inversion Hd as [? Hstop|]; subst. unfold evaluate_trigger.
  destruct (negb (enabled s)); [done|].
  assert (Hdue : due_by (next_of (trigger s) t) now = false).
  { destruct (next_of (trigger s) t) as [u|]; [|done]. cbn. specialize (Hstop u eq_refl). lia. }
  destruct (trigger s); cbn in Hdue; try done; rewrite Hl; cbn; by rewrite Hdue.
Qed.

Lemma due_now t now : typed_trigger t -> instant now -> due (next_of t) now now [].
Proof. intros Ht Hn. constructor. intros u Hu. by apply (next_of_later t). Qed.

(** The cursor the evaluation loop and a completed recovery count from. *)
Lemma settled_cursor s cursor now ds :
  enabled s = true -> recovery_pending s = None -> typed_trigger (trigger s) -> recurring (trigger s) ->
  cursor_of s = Some cursor -> instant cursor -> instant now ->
  due (next_of (trigger s)) now cursor ds -> zlen ds <= u64_MAX -> ds <> [] ->
  exists t, instant t /\ due (next_of (trigger s)) now t [] /\
    last_fire (tick_view (settled (outcome now s) s)) = Some t.
Proof.
  intros He Hp Ht Hr Hcur Hc Hn Hd Hlen Hne.
  pose proof (outcome_due s cursor now ds He Hp Ht Hr Hcur Hc Hn Hd Hlen) as Ho.
  pose proof (due_latest _ _ _ _ Ht Hn Hc Hd) as (Hend & Hli & Hle & Hnow). specialize (Hnow Hne).
  destruct ds as [|f ds]; [done|]. destruct Ho as (cadence & _ & ->). set (l := latest cursor (f :: ds)) in *.
  assert (Hlast : forall t, l <= t -> from_option (fun last => Z.max last t) t (last_fire s) = t).
  { intros t Hlt. unfold cursor_of in Hcur. destruct (last_fire s); cbn; [|done]. simplify_eq. lia. }
  destruct (effective_missed_policy (policies s)); cbn [settled].
  - exists now. split; [done|]. split; [by apply due_now|]. cbn. by rewrite Hlast.
  - exists l. split; [done|]. split; [done|]. unfold bump, tick_view, cursor_of in *.
    destruct (last_fire s) as [last|] eqn:El; cbn [from_option].
    + simplify_eq. destruct (Z.ltb_spec cursor l); cbn; rewrite Hp; cbn; [done|]. rewrite El. f_equal. lia.
    + cbn. by rewrite Hp.
  - exists l. split; [done|]. split; [done|]. cbn. by rewrite Hlast.
Qed.

Lemma complete_get ss s c t :
  get ss (id s) = Some s -> recovery_pending s = Some c ->
  get (complete_recovery ss (mkAdvance (id s) t) c) (id s)
  = Some (with_pending None
      (with_last_fire (Some (from_option (fun last => Z.max last t) t (last_fire s))) s)).
Proof.
  intros Hg Hp. unfold complete_recovery; cbn [a_schedule_id a_last_fire].
  rewrite Hg, bool_decide_eq_true_2 by done. cbn [negb]. unfold update; cbn [fst].
  rewrite get_update_first by done. rewrite decide_True by done. by rewrite Hg.
Qed.

(** C13: recovery loses and repeats nothing.  Once it has started, the
    evaluation loop sees nothing more due at that instant.  While its checkpoint
    stands, every later start submits the same batch again and keeps the
    schedule as it is; once it completes, the checkpoint is gone, and neither
    evaluation nor another recovery finds the occurrences it covered. *)
Theorem recovery_resumes ss s cursor now :
  NoDup (id <$> ss) -> Forall pending_ok ss -> s ∈ ss ->
  enabled s = true -> recovery_pending s = None -> typed_trigger (trigger s) -> recurring (trigger s) ->
  cursor_of s = Some cursor -> instant cursor -> instant now ->
  (forall ds, due (next_of (trigger s)) now cursor ds -> zlen ds <= u64_MAX) ->
  let ss' := (start_recovery ss now).2 in
  exists s', get ss' (id s) = Some s' /\ evaluate_trigger (tick_view s') now = None /\
  match recovery_pending s' with
  | None => True
  | Some c =>
      (forall now', let '(plan, _, again) := start_recovery ss' now' in
         mine (id s) plan = [batch c] /\ get again (id s) = Some s') /\
      let done := complete_recovery ss' (mkAdvance (id s) (c_last_fire c)) c in
      exists s2, get done (id s) = Some s2 /\ recovery_pending s2 = None /\
        evaluate_trigger s2 now = None /\ outcome now s2 = Nothing
  end.
Proof.
  intros Hnd Hok Hs He Hp Ht Hr Hcur Hc Hn Hbound ss'.
  destruct (due_exists (trigger s) now cursor Ht Hn Hc) as [ds Hd]. specialize (Hbound ds Hd).
  pose proof (start_one ss s now Hnd Hok Hs (recurring_not_one_time _ Hr)) as H.
  pose proof (start_ok ss now Hok) as [Hids' Hok']. fold ss' in Hids', Hok'.
  assert (Hget : get ss' (id s) = Some (settled (outcome now s) s))
    by (unfold ss'; destruct (start_recovery ss now) as [[plan held] k]; apply H).
  exists (settled (outcome now s) s). split; [done|].
  assert (Htr : trigger (tick_view (settled (outcome now s) s)) = trigger s)
    by (destruct (outcome now s); cbn; unfold tick_view, bump; repeat case_match; done).
  destruct (decide (ds = [])) as [->|Hne].
  { pose proof (outcome_due s cursor now [] He Hp Ht Hr Hcur Hc Hn Hd Hbound) as Ho. rewrite Ho in *.
    cbn [settled] in *. rewrite Hp. split; [|done]. unfold tick_view. rewrite Hp.
    inversion Hd as [? Hstop|]; subst. unfold evaluate_trigger. rewrite He. cbn [negb].
    assert (Hdue : due_by (next_of (trigger s) cursor) now = false).
    { destruct (next_of (trigger s) cursor) as [u|]; [|done]. cbn. specialize (Hstop u eq_refl). lia. }
    unfold cursor_of in Hcur. destruct (trigger s); try done; cbn in Hdue, Hcur.
    - destruct (last_fire s); cbn; simplify_eq; by rewrite Hdue.
    - destruct (last_fire s); [|done]. simplify_eq. by rewrite Hdue. }
  pose proof (settled_cursor s cursor now ds He Hp Ht Hr Hcur Hc Hn Hd Hbound Hne) as (t & Hti & Hdt & Hlast).
  split; [eapply evaluate_caught_up; [by rewrite Htr|exact Hlast|by rewrite Htr]|].
  destruct (outcome now s) as [|a|b a]; cbn [settled] in *; [by rewrite Hp| |].
  { replace (recovery_pending (bump a s)) with (@None RecoveryCheckpoint); [done|].
    unfold bump. by destruct (from_option _ _ _); cbn; rewrite Hp. }
  cbn [recovery_pending with_pending batch c_last_fire]. set (s' := with_pending _ s) in *.
  split.
  - intros now'. apply get_id in Hget as Hin. destruct Hin as [_ Hin].
    pose proof (start_one ss' s' now' ltac:(by rewrite Hids') Hok' Hin (recurring_not_one_time _ Hr)) as H2.
    rewrite (outcome_pending s' now' (mkCheckpoint b a)) in H2 by done.
    destruct (start_recovery ss' now') as [[plan' held'] again]. exact H2.
  - eexists. split; [by apply (complete_get ss' s' (mkCheckpoint b a) a)|]. split; [done|].
    change (last_fire (tick_view s')) with
      (Some (from_option (fun last => Z.max last a) a (last_fire s'))) in Hlast. rewrite Hlast.
    split; [by apply (evaluate_caught_up _ t)|].
    apply (outcome_due _ t now []); try done.
Qed.

Lemma add_intervals_Some i d start k u :
  interval_duration i = Some d -> instant start -> add_intervals start d k = Some u ->
  u = start + k * d /\ instant u.
Proof.
  intros Hd Hs. pose proof (interval_duration_spec _ _ Hd) as (-> & _ & _). unfold add_intervals.
  unfold i64_of at 1. destruct ((i64_MIN <=? k) && (k <=? i64_MAX)); [|done]. cbn [mbind option_bind].
  rewrite num_seconds_spec, Z.quot_mul by done. unfold checked_mul_i64, i64_of.
  destruct ((i64_MIN <=? i * k) && (i * k <=? i64_MAX)); [|done]. cbn [mbind option_bind].
  rewrite try_seconds_spec. destruct (Z.abs (i * k) <=? i64_MAX / 1000); [|done]. cbn [mbind option_bind].
  intros [Hu ->]%add_spec; [|done]. split; [ring|done].
Qed.

Lemma cron_walk_due e tz n at_ last :
  cron_walk e tz n at_ last = Some last ->
  exists ds, length ds = n /\ due (next_of (Cron e tz)) last at_ ds /\ latest at_ ds = last.
Proof.
  revert at_. induction n as [|n IH]; intros at_; cbn.
  - intros [= ->]. exists []. split; [done|]. split; [|done]. constructor. intros t Ht. by eapply cron_later.
  - destruct (cron_next_fire e tz at_) as [u|] eqn:Hu; [|done]. cbn. destruct (_ || _) eqn:E; [done|].
    intros (ds & <- & Hd & Hl)%IH. exists (u :: ds). split; [done|]. rewrite latest_cons.
    split; [|done]. econstructor; [exact Hu|lia|done].
Qed.
Lemma due_cron_walk e tz now at_ ds :
  due (next_of (Cron e tz)) now at_ ds -> cron_walk e tz (length ds) at_ (latest at_ ds) = Some (latest at_ ds).
Proof.
  intros Hd. enough (H : forall last, latest at_ ds <= last -> cron_walk e tz (length ds) at_ last = Some (latest at_ ds) /\
    at_ <= latest at_ ds) by (apply H; lia).
  induction Hd as [f _|f u ds Hu _ _ IH]; intros last Hle.
  - split; [done|]. cbn. lia.
  - rewrite latest_cons in *. cbn. cbn in Hu. rewrite Hu. pose proof (cron_later _ _ _ _ Hu). cbn.
    destruct (IH last Hle) as [Hw Hle']. rewrite (proj2 (Z.leb_gt u f)), (proj2 (Z.ltb_ge last u)) by lia.
    cbn. split; [exact Hw|lia].
Qed.

(** A checkpoint accepted for a schedule at load is coherent: submitting
    its batch runs through, sends as many triggers as it counts, from its first
    occurrence on, each the next occurrence of the schedule's trigger, and ends
    at the instant the checkpoint covers. *)
Theorem checkpoint_sound c s :
  matches_schedule c s = true -> typed_trigger (trigger s) -> is_u64 (count (batch c)) ->
  instant (first_fire (batch c)) -> instant (c_last_fire c) ->
  schedule_id (batch c) = id s /\
  exists ds, let f := first_fire (batch c) in
    submit_batch (J := J) (batch c) (Z.to_nat (count (batch c))) f
      = (trigger_at (batch c) <$> f :: ds, true) /\
    zlen (f :: ds) = count (batch c) /\ latest f ds = c_last_fire c /\
    due (next_of (trigger s)) (c_last_fire c) f ds.
Proof.
  intros Hm Ht Hu Hf Hl. unfold matches_schedule in Hm.
  destruct (negb (matches_identity c s) || _ || _) eqn:E; [done|].
  rewrite !orb_false_iff, negb_false_iff, Z.eqb_neq, Z.ltb_ge in E. destruct E as [[Hid Hn] Hle].
  unfold matches_identity in Hid. apply andb_true_iff in Hid as [Hid _]. apply String.eqb_eq in Hid.
  split; [done|]. destruct c as [[i f cad n ty] last]; cbn in *. unfold is_u64 in Hu.
  assert (Hone : n = 1 -> f = last -> exists ds,
    submit_batch (J := J) (mkBatch i f cad n ty) (Z.to_nat n) f
      = (trigger_at (mkBatch i f cad n ty) <$> f :: ds, true) /\
    zlen (f :: ds) = n /\ latest f ds = last /\ due (next_of (trigger s)) last f ds).
  { intros -> <-. exists []. split; [done|]. split; [done|]. split; [done|]. by apply due_now. }
  assert (Hmany : forall ds, (forall a, batch_next_fire (mkBatch i f cad n ty) a = next_of (trigger s) a) ->
    zlen (f :: ds) = n -> latest f ds = last -> due (next_of (trigger s)) last f ds -> exists ds,
    submit_batch (J := J) (mkBatch i f cad n ty) (Z.to_nat n) f
      = (trigger_at (mkBatch i f cad n ty) <$> f :: ds, true) /\
    zlen (f :: ds) = n /\ latest f ds = last /\ due (next_of (trigger s)) last f ds).
  { intros ds Hb Hz Hlat Hd. exists ds. split; [|done]. replace (Z.to_nat n) with (S (length ds))
      by (rewrite <- Hz; unfold zlen; cbn; lia). by eapply submit_due. }
  destruct (trigger s) as [e tz|k|et db fl|o] eqn:Etr; destruct cad as [d|e' tz'], ty; try done.
  - apply andb_true_iff in Hm as [[->%Z.eqb_eq _]%andb_true_iff Hm]. apply Hone; [done|lia].
  - destruct (String.eqb_spec e e') as [<-|]; [|done]. destruct (String.eqb_spec tz tz') as [<-|]; [|done].
    cbn in Hm. destruct (_ || _); [done|]. destruct (_ || _); [done|]. apply bool_decide_eq_true in Hm.
    apply cron_walk_due in Hm as (ds & Hlen & Hd & Hlat). apply (Hmany ds); try done.
    rewrite zlen_cons. unfold zlen. lia.
  - destruct ((n =? 1) && (d =? 0)) eqn:E1; [apply Hone; lia|].
    apply andb_true_iff in Hm as [Hd%bool_decide_eq_true Hadd%bool_decide_eq_true].
    pose proof (add_intervals_Some _ _ _ _ _ Hd Hf Hadd) as [Hlast _].
    destruct (due_exists (Interval k) last f Ht Hl Hf) as [ds Hds].
    destruct (interval_due k d last f ds Ht Hd Hl Hf Hds) as (Hlat & Hlt & _).
    pose proof (interval_duration_spec _ _ Hd) as (Hdk & Hk & _). cbn in Ht. unfold is_u64 in Ht.
    pose proof (due_latest (Interval k) last f ds Ht Hl Hf Hds) as (_ & _ & _ & Hle').
    assert (Hz : zlen ds = n - 1).
    { destruct (decide (ds = [])) as [->|Hne]; [change (zlen (@nil Z)) with 0 in *; nia|].
      specialize (Hle' Hne). nia. }
    apply (Hmany ds); [|rewrite zlen_cons; lia|lia|done]. intros a. cbn. unfold interval_next_fire. by rewrite Hd.
Qed.

(** Cron occurrences match their pattern and are minutes apart, as away from
    daylight-saving changes. *)
Definition regular (t : TriggerConfig) : Prop :=
  match t with
  | Cron e tz => forall a u, cron_next_fire e tz a = Some u ->
      cron_matches e tz u = true /\ (cron_matches e tz a = true -> a + 60 * 10 ^ 9 <= u)
  | _ => True
  end.

Lemma single_accepted s now :
  recurring (trigger s) -> matches_schedule (mkCheckpoint (single s now) now) s = true.
Proof.
  intros Hr. unfold matches_schedule, matches_identity, single, trigger_type; cbn.
  rewrite String.eqb_refl, Z.ltb_irrefl. destruct (trigger s); try done; cbn; by rewrite Z.eqb_refl.
Qed.

Lemma cron_minutes e tz now f ds :
  regular (Cron e tz) -> cron_matches e tz f = true -> due (next_of (Cron e tz)) now f ds ->
  zlen ds * (60 * 10 ^ 9) <= latest f ds - f.
Proof.
  intros Hreg Hm Hd. induction Hd as [f _|f u ds Hu _ _ IH].
  - change (zlen (@nil Z)) with 0. cbn. lia.
  - cbn in Hu. destruct (Hreg f u Hu) as [Hmu Hstep]. specialize (IH Hmu). specialize (Hstep Hm).
    rewrite zlen_cons, latest_cons. lia.
Qed.

Lemma backfill_accepted s cursor now f ds cad :
  typed_trigger (trigger s) -> recurring (trigger s) -> regular (trigger s) ->
  instant cursor -> instant now -> due (next_of (trigger s)) now cursor (f :: ds) ->
  zlen (f :: ds) <= u64_MAX -> cadence_of (trigger s) = Some cad ->
  matches_schedule (mkCheckpoint (mkBatch (id s) f cad (zlen (f :: ds)) (trigger_type s))
    (latest cursor (f :: ds))) s = true.
Proof.
  intros Ht Hr Hreg Hc Hn Hd Hlen Hcad. rewrite latest_cons. pose proof (zlen_nonneg ds).
  pose proof (due_latest _ _ _ _ Ht Hn Hc Hd) as (_ & Hil & _ & Hle). specialize (Hle ltac:(done)).
  rewrite latest_cons in Hil, Hle. inversion Hd as [|? ? ? Hf Hfn Hd']; subst.
  pose proof (next_of_later _ _ _ Ht Hc Hf) as Hcf.
  assert (Hif : instant f) by (eapply instant_convex; [exact Hc|exact Hn|lia]).
  pose proof (due_latest _ _ _ _ Ht Hn Hif Hd') as (_ & _ & Hfl & _).
  unfold matches_schedule, matches_identity, trigger_type; cbn [batch c_last_fire schedule_id cadence count
    first_fire b_trigger_type]. rewrite String.eqb_refl, zlen_cons in *.
  rewrite (proj2 (Z.eqb_neq (zlen ds + 1) 0)), (proj2 (Z.ltb_ge (latest f ds) f)) by lia.
  destruct (trigger s) as [e tz|i|et db fl|o]; try done; cbn in Hcad; cbn [trigger_type_of andb].
  - injection Hcad as <-. rewrite !String.eqb_refl. cbn [andb negb orb].
    cbn in Hf. destruct (Hreg cursor f Hf) as [Hm _]. rewrite Hm.
    assert (Hv : cron_is_valid e = true).
    { unfold cron_next_fire in Hf. unfold cron_is_valid. by destruct (parse_pattern e). }
    rewrite Hv. cbn [negb orb]. pose proof (cron_minutes e tz now f ds Hreg Hm Hd') as Hmin.
    assert (Hq : zlen ds <= num_minutes (latest f ds - f)).
    { rewrite num_minutes_spec, Z.quot_div_nonneg by lia. apply Z.div_le_lower_bound; lia. }
    unfold saturating_add. replace ((num_minutes (latest f ds - f) <? 0) || _) with false by lia.
    apply bool_decide_eq_true. replace (Z.to_nat (zlen ds + 1 - 1)) with (length ds) by (unfold zlen; lia).
    by eapply due_cron_walk.
  - destruct (interval_duration i) as [d|] eqn:Ed; [|done]. injection Hcad as <-.
    destruct (interval_due i d now f ds Ht Ed Hn Hif Hd') as (Hlat & _).
    pose proof (interval_duration_spec _ _ Ed) as (Hdi & H1 & _). cbn in Ht. unfold is_u64 in Ht.
    rewrite bool_decide_eq_true_2 by done. rewrite orb_true_r. cbn [negb orb andb].
    rewrite (proj2 (Z.eqb_neq d 0)), andb_false_r by lia. replace (zlen ds + 1 - 1) with (zlen ds) by lia.
    apply bool_decide_eq_true. rewrite Hlat. apply (add_intervals_spec i); try done. by rewrite <- Hlat.
Qed.

(** Whatever a start marks as pending for an enabled recurring schedule,
    also for an interval that never fired, is accepted when the schedule is
    loaded again, so an interrupted recovery is resumed and not rejected. *)
Theorem checkpoint_accepted s now b t :
  enabled s = true -> recovery_pending s = None -> typed_trigger (trigger s) -> recurring (trigger s) ->
  regular (trigger s) -> instant now ->
  (forall cursor, cursor_of s = Some cursor -> instant cursor /\
     forall ds, due (next_of (trigger s)) now cursor ds -> zlen ds <= u64_MAX) ->
  outcome now s = Work b t -> matches_schedule (mkCheckpoint b t) s = true.
Proof.
  intros He Hp Ht Hr Hreg Hn Hcur Ho. destruct (cursor_of s) as [cursor|] eqn:Ec.
  - destruct (Hcur cursor eq_refl) as [Hc Hbound].
    destruct (due_exists (trigger s) now cursor Ht Hn Hc) as [ds Hd]. specialize (Hbound ds Hd).
    pose proof (outcome_due s cursor now ds He Hp Ht Hr Ec Hc Hn Hd Hbound) as Hout.
    destruct ds as [|f ds]; [congruence|]. destruct Hout as (cadence & Hcad & Hout). rewrite Hout in Ho.
    destruct (effective_missed_policy (policies s)); simplify_eq.
    + by apply single_accepted.
    + by apply (backfill_accepted s cursor now).
  - unfold cursor_of in Ec. unfold outcome, plan_schedule in Ho. rewrite Hp, He in Ho. cbn in Ho.
    rewrite Ec in Ho. unfold plan_never_fired in Ho. destruct (trigger s) as [e tz|i|et db fl|o] eqn:Et; try done.
    + by destruct (last_fire s).
    + destruct (interval_next_fire i now); cbn in Ho; [|done]. simplify_eq.
      apply single_accepted. by rewrite Et.
Qed.
End theorems.

(** ** Witnesses: a calendar, an hourly cron, schedules that missed three hours *)
#[local] Instance sample_chrono : Chrono :=
  let hi := 8 * 10 ^ 12 * 10 ^ 9 in
  mkChrono (fun t => Z.abs t <= hi)
    (fun t d => if Z.abs (t + d) <=? hi then Some (t + d) else None)
    (fun s => if Z.abs s <=? i64_MAX / 1000 then Some (s * 10 ^ 9) else None)
    (fun d => Z.quot d (10 ^ 9)) (fun d => Z.quot d (60 * 10 ^ 9)).
#[local] Instance sample_chrono_laws : ChronoLaws sample_chrono.
Proof.
  split; cbn -[Z.abs Z.quot i64_MAX Z.div Z.leb]; try done; try lia.
  intros t d u _. destruct (Z.abs (t + d) <=? _) eqn:E; split.
  - intros H'. injection H' as <-. split; [|done]. by apply Z.leb_le in E.
  - by intros [_ ->].
  - done.
  - intros [H' ->]. apply Z.leb_gt in E. lia.
Qed.
Definition hour : Z := 3600 * 10 ^ 9.
#[local] Instance sample_croner : Croner :=
  mkCroner unit unit (fun e => if String.eqb e "0 * * * *" then Some tt else None) (fun _ => None)
    (fun _ _ t => Some ((t / hour + 1) * hour)) (fun _ _ t => t mod hour =? 0).
#[local] Instance sample_croner_laws : CronerLaws sample_croner.
Proof.
  intros [] tz t u [= <-]. pose proof (Z.mod_pos_bound t hour ltac:(done)).
  pose proof (Z.div_mod t hour ltac:(done)). lia.
Qed.
Definition sample_schedule (t : TriggerConfig) (p : MissedPolicy) : Schedule unit :=
  mkSchedule "nightly" "nightly" true t "campaign" tt (mkPolicies (Some p) None 0) "" [] 0 0 (Some 0) None.
Definition sample_cron : Schedule unit := sample_schedule (Cron "0 * * * *" "UTC") Backfill.
Definition sample_interval : Schedule unit := sample_schedule (Interval 3600) Backfill.
Definition sample_now : Z := 3 * hour + 7.
Definition sample_checkpoint : RecoveryCheckpoint :=
  mkCheckpoint (mkBatch "nightly" hour (Fixed hour) 3 TInterval) (3 * hour).

Lemma sample_bound cursor ds :
  cursor_of sample_interval = Some cursor ->
  due (next_of (trigger sample_interval)) sample_now cursor ds -> zlen ds <= u64_MAX.
Proof.
  intros [= <-] Hd. cbn [trigger sample_interval sample_schedule] in Hd.
  assert (Ht : is_u64 3600) by (split; vm_compute; congruence).
  assert (Hn : instant sample_now) by (vm_compute; congruence).
  assert (Hc : instant 0) by (vm_compute; congruence).
  assert (Hdur : interval_duration 3600 = Some hour) by (vm_compute; reflexivity).
  destruct (interval_due 3600 hour sample_now 0 ds Ht Hdur Hn Hc Hd) as (Hlat & _).
  destruct (due_latest (Interval 3600) sample_now 0 ds Ht Hn Hc Hd) as (_ & _ & _ & Hle).
  destruct ds as [|d ds]; [vm_compute; congruence|]. specialize (Hle ltac:(done)).
  unfold sample_now, hour, u64_MAX in *. lia.
Qed.

Lemma recovery_plan_exact_witness :
  fired_at <$> (submit_recovery (J := unit) (mine "nightly" (start_recovery [sample_cron] sample_now).1.1)).1
    = [hour; 2 * hour; 3 * hour] /\
  exists ds, due (next_of (trigger sample_cron)) sample_now 0 ds.
Proof.
  split; [vm_compute; reflexivity|].
  destruct (recovery_plan_exact [sample_cron] sample_cron 0 sample_now (NoDup_singleton _)
    ltac:(by repeat constructor) ltac:(left) eq_refl eq_refl I I eq_refl ltac:(vm_compute; congruence)
    ltac:(vm_compute; congruence)) as (ds & Hd & _).
  exists ds. exact Hd.
Defined.

Lemma recovery_resumes_witness :
  recovery_pending <$> get (start_recovery [sample_interval] sample_now).2 "nightly"
    = Some (Some sample_checkpoint) /\
  exists s', get (start_recovery [sample_interval] sample_now).2 "nightly" = Some s' /\
    evaluate_trigger (tick_view s') sample_now = None.
Proof.
  split; [vm_compute; reflexivity|].
  destruct (recovery_resumes [sample_interval] sample_interval 0 sample_now (NoDup_singleton _)
    ltac:(by repeat constructor) ltac:(left) eq_refl eq_refl ltac:(split; vm_compute; congruence) I eq_refl
    ltac:(vm_compute; congruence) ltac:(vm_compute; congruence) (fun ds => sample_bound 0 ds eq_refl))
    as (s' & H1 & H2 & _).
  exists s'. split; [exact H1|exact H2].
Defined.

Lemma checkpoint_sound_witness :
  matches_schedule sample_checkpoint sample_interval = true /\
  exists ds, zlen (hour :: ds) = 3 /\ latest hour ds = 3 * hour.
Proof.
  split; [vm_compute; reflexivity|].
  assert (Hm : matches_schedule sample_checkpoint sample_interval = true) by (vm_compute; reflexivity).
  assert (Ht : typed_trigger (trigger sample_interval)) by (split; vm_compute; congruence).
  assert (Hn : is_u64 (count (batch sample_checkpoint))) by (split; vm_compute; congruence).
  assert (Hf : instant (first_fire (batch sample_checkpoint))) by (vm_compute; congruence).
  assert (Hl : instant (c_last_fire sample_checkpoint)) by (vm_compute; congruence).
  destruct (checkpoint_sound sample_checkpoint sample_interval Hm Ht Hn Hf Hl) as (_ & ds & H).
  exists ds. split; apply H.
Defined.

Lemma checkpoint_accepted_witness :
  outcome sample_now sample_interval = Work (batch sample_checkpoint) (3 * hour) /\
  matches_schedule (mkCheckpoint (batch sample_checkpoint) (3 * hour)) sample_interval = true.
Proof.
  split; [vm_compute; reflexivity|].
  apply (checkpoint_accepted sample_interval sample_now _ _ eq_refl eq_refl
    ltac:(split; vm_compute; congruence) I I ltac:(vm_compute; congruence)).
  - intros cursor Hc. split; [injection Hc as <-; vm_compute; congruence|]. intros ds. by apply sample_bound.
  - vm_compute. reflexivity.
Defined.
