(* ===== verification/Effect.v ===== *)
(** * Operations with a state and an error

    [async fn op(&self, ...) -> Result<A, E>] over stores whose state is
    threaded explicitly: what an operation did before it failed stays done.
    [wp c Q s] says that [c], run in [s], ends in a state and a result of which
    [Q] holds; its rules follow the code.  An operation that fails because the
    system under it does takes the failure from a list of the failures to come. *)
From S2P Require Import Prelude.

Definition Eff (S E A : Type) : Type := S -> S * Result E A.

#[export] Instance Eff_ret S E : MRet (Eff S E) := fun A a s => (s, Ok a).
#[export] Instance Eff_bind S E : MBind (Eff S E) :=
  fun A B k c s => match c s with (s', Ok a) => k a s' | (s', Err e) => (s', Err e) end.
#[export] Instance Eff_fmap S E : FMap (Eff S E) := fun A B f c s => let '(s', r) := c s in (s', f <$> r).

Definition fail {S E A} (e : E) : Eff S E A := fun s => (s, Err e).
(** [?] on a value, [map_err] on a call, and a call whose result is inspected. *)
Definition lift {S E A} (r : Result E A) : Eff S E A := fun s => (s, r).
Definition eff_map_err {S E F A} (f : E -> F) (c : Eff S E A) : Eff S F A :=
  fun s => let '(s', r) := c s in (s', map_err f r).
Definition attempt {S E F A} (c : Eff S E A) : Eff S F (Result E A) :=
  fun s => let '(s', r) := c s in (s', Ok r).

(** [for x in l { f(x)?; }]. *)
Fixpoint for_each {S E A} (f : A -> Eff S E unit) (l : list A) : Eff S E unit :=
  match l with [] => mret tt | x :: l => f x ;; for_each f l end.

Lemma for_each_ext {S E A} (f g : A -> Eff S E unit) l s :
  (forall a s, f a s = g a s) -> for_each f l s = for_each g l s.
Proof.
  intros Hfg. revert s. induction l as [|a l IH]; intros s; [done|]. cbn. unfold mbind, Eff_bind. rewrite Hfg.
  by destruct (g a s) as [s' []].
Qed.

(** A call on one part of the state. *)
Definition zoom {S T E A} (get : S -> T) (put : T -> S -> S) (c : Eff T E A) : Eff S E A :=
  fun s => let '(t, r) := c (get s) in (put t s, r).

Definition wp {S E A} (c : Eff S E A) (Q : S -> Result E A -> Prop) (s : S) : Prop := Q (c s).1 (c s).2.

Section wp.
Context {S E : Type}.
Implicit Types s : S.

Lemma wp_ret {A} (a : A) (Q : S -> Result E A -> Prop) s : Q s (Ok a) -> wp (mret a) Q s.
Proof. done. Qed.
Lemma wp_fail {A} (e : E) (Q : S -> Result E A -> Prop) s : Q s (Err e) -> wp (fail e) Q s.
Proof. done. Qed.
Lemma wp_lift {A} (r : Result E A) (Q : S -> Result E A -> Prop) s : Q s r -> wp (lift r) Q s.
Proof. done. Qed.
Lemma wp_mono {A} (c : Eff S E A) (P Q : S -> Result E A -> Prop) s :
  wp c P s -> (forall s' r, P s' r -> Q s' r) -> wp c Q s.
Proof. unfold wp. auto. Qed.
Lemma wp_bind {A B} (c : Eff S E A) (k : A -> Eff S E B) Q s :
  wp c (fun s' r => match r with Ok a => wp (k a) Q s' | Err e => Q s' (Err e) end) s -> wp (c ≫= k) Q s.
Proof. unfold wp, mbind, Eff_bind. by destruct (c s) as [s' []]. Qed.
Lemma wp_fmap {A B} (f : A -> B) (c : Eff S E A) (Q : S -> Result E B -> Prop) s :
  wp c (fun s' r => Q s' (f <$> r)) s -> wp (f <$> c) Q s.
Proof. unfold wp, fmap, Eff_fmap. by destruct (c s). Qed.
Lemma wp_map_err {F A} (f : F -> E) (c : Eff S F A) Q s :
  wp c (fun s' r => Q s' (map_err f r)) s -> wp (eff_map_err f c) Q s.
Proof. unfold wp, eff_map_err. by destruct (c s). Qed.
Lemma wp_attempt {F A} (c : Eff S F A) (Q : S -> Result E (Result F A) -> Prop) s :
  wp c (fun s' r => Q s' (Ok r)) s -> wp (attempt c) Q s.
Proof. unfold wp, attempt. by destruct (c s). Qed.
Lemma wp_zoom {T A} get put (c : Eff T E A) (Q : S -> Result E A -> Prop) s :
  wp c (fun t r => Q (put t s) r) (get s) -> wp (zoom get put c) Q s.
Proof. unfold wp, zoom. by destruct (c (get s)). Qed.
Lemma wp_pair {A} (c : Eff S E A) (Q : S -> Result E A -> Prop) s : wp c Q s -> let '(s', r) := c s in Q s' r.
Proof. unfold wp. by destruct (c s). Qed.
Lemma wp_eq {A} (c : Eff S E A) (Q : S -> Result E A -> Prop) s s' r : c s = (s', r) -> wp c Q s -> Q s' r.
Proof. unfold wp. by intros ->. Qed.
End wp.
