(* ===== verification/SessionCore.v ===== *)
(** * Sessions: data and the interface of a transcript store

    Models [crates/hf-core/src/session.rs]. *)
From S2P Require Import Prelude Effect.

Notation SessionId := string (only parsing).
Notation AgentId := string (only parsing).
(** RFC 3339 strings order as the times they write. *)
Definition Timestamp : Type := Z.

Inductive SessionType := Main | Child | Branch | Ephemeral | SubAgent | Canonical.
Inductive SessionState := Active | Paused | Archived | Merged | Tombstone.
#[export] Instance SessionType_eq_dec : EqDecision SessionType.
Proof. solve_decision. Defined.
#[export] Instance SessionState_eq_dec : EqDecision SessionState.
Proof. solve_decision. Defined.

Definition is_user_facing (t : SessionType) : bool :=
  match t with Main | Branch => true | _ => false end.
Definition is_internal (t : SessionType) : bool := negb (is_user_facing t).

Record SessionNode := mkNode {
  node_id : SessionId;
  parent_id : option SessionId;
  root_id : SessionId;
  depth : Z;
  path : list SessionId;
  session_type : SessionType;
  state : SessionState;
  agent_id : option AgentId;
  title : option string;
  manual_title : option string;
  channel : option string;
  label : option string;
  token_count : Z;
  message_count : Z;
  last_compaction : option Timestamp;
  compaction_count : Z;
  created_at : Timestamp;
  updated_at : Timestamp;
}.

Record CreateSessionOptions := mkOptions {
  o_parent_id : option SessionId;
  o_session_type : SessionType;
  o_agent_id : option AgentId;
  o_title : option string;
}.
Record SessionFilter := mkFilter {
  f_state : option SessionState;
  f_session_type : option SessionType;
  f_agent_id : option AgentId;
  f_root_id : option SessionId;
}.

(** [{:?}] of a state. *)
Definition debug_state (s : SessionState) : string :=
  match s with
  | Active => "Active" | Paused => "Paused" | Archived => "Archived" | Merged => "Merged"
  | Tombstone => "Tombstone"
  end.

Inductive SessionError :=
| NotFound (id : string)
| InvalidStateTransition (from to : SessionState)
| StorageError (message : string)
| TranscriptError (message : string)
| OtherError (message : string).
Definition display_error (e : SessionError) : string :=
  match e with
  | NotFound id => "session not found: " +:+ id
  | InvalidStateTransition from to =>
      "invalid session state transition: " +:+ debug_state from +:+ " -> " +:+ debug_state to
  | StorageError m => "storage error: " +:+ m
  | TranscriptError m => "transcript error: " +:+ m
  | OtherError m => m
  end.

Record ChatCheckpoint := mkCheckpoint {
  checkpoint_id : string;
  cp_session_id : SessionId;
  turn_number : Z;
  message_count_before : Z;
  journal_scope_id : string;
  invalidated : bool;
  cp_created_at : Timestamp;
}.

(** ** Transcript stores: [TranscriptStore] and [DisplayTranscriptStore] *)
Class TranscriptStore (T M : Type) := {
  append : SessionId -> M -> Eff T SessionError unit;
  read_all : SessionId -> Eff T SessionError (list M);
  count_messages : SessionId -> Eff T SessionError nat;
  truncate : SessionId -> nat -> Eff T SessionError nat;
}.

(** The cause of an error: one of the failures to come ([n], then [n']), or a
    session name the store refuses. *)
Definition blame (n' n : nat) (ok : bool) : Prop := (n' < n)%nat \/ (ok = false /\ (n' <= n)%nat).
Lemma blame_failed n' n ok : (n' < n)%nat -> blame n' n ok.
Proof. by left. Qed.
Lemma blame_refused n ok : ok = false -> blame n n ok.
Proof. by right. Qed.
Lemma blame_le n' n ok : blame n' n ok -> (n' <= n)%nat.
Proof. unfold blame. lia. Qed.
Create HintDb fault.
#[export] Hint Resolve blame_failed blame_refused : fault.
#[export] Hint Extern 2 (_ < _)%nat => lia : fault.

(** What the callers rely on.  [view t i] is the transcript of [i]; [failures]
    bounds the failures of the system under the store still to come; a session
    the store does not [accept] is refused by every operation. *)
Class TranscriptContract (T M : Type) `{TranscriptStore T M} := {
  view : T -> SessionId -> list M;
  failures : T -> nat;
  accepts : SessionId -> bool;

  append_contract i m t :
    wp (append i m) (fun t' r =>
      (forall j, j <> i -> view t' j = view t j) /\
      match r with
      | Ok _ => view t' i = view t i ++ [m] /\ (failures t' <= failures t)%nat /\ accepts i = true
      | Err _ => (view t' i = view t i \/ view t' i = view t i ++ [m]) /\
                 blame (failures t') (failures t) (accepts i)
      end) t;
  read_all_contract i t :
    wp (read_all i) (fun t' r =>
      (forall j, view t' j = view t j) /\
      match r with
      | Ok l => l = view t i /\ (failures t' <= failures t)%nat /\ accepts i = true
      | Err _ => blame (failures t') (failures t) (accepts i)
      end) t;
  count_contract i t :
    wp (count_messages i) (fun t' r =>
      (forall j, view t' j = view t j) /\
      match r with
      | Ok n => n = length (view t i) /\ (failures t' <= failures t)%nat /\ accepts i = true
      | Err _ => blame (failures t') (failures t) (accepts i)
      end) t;
  truncate_contract i k t :
    wp (truncate i k) (fun t' r =>
      (forall j, j <> i -> view t' j = view t j) /\
      match r with
      | Ok n => view t' i = take k (view t i) /\ n = (length (view t i) - k)%nat /\
                (failures t' <= failures t)%nat /\ accepts i = true
      | Err _ => view t' i = view t i /\ blame (failures t') (failures t) (accepts i)
      end) t;
}.
