(* ===== verification/Transcript.v ===== *)
(** * JSONL transcripts

    Models [crates/hf-storage/src/transcript.rs] and [transcript_display.rs]
    over a file system whose calls can fail.  A failed write leaves a prefix of
    what was written, which is also what a crash in the middle of an append
    leaves; [rename] is atomic.  The write lock makes each operation of a store
    run by itself, so operations are a sequence.  JSON is an interface. *)
From S2P Require Import Prelude Effect SessionCore.

(** ** The file system *)

(** The failures to come: [None] lets a call succeed, [Some (n, e)] fails it
    with the error text [e] after [n] bytes; after the list every call succeeds. *)
Record Fs := mkFs {
  files : gmap string bytes;
  faults : list (option (nat * string));
}.

Definition io {A} (partial : nat -> gmap string bytes -> gmap string bytes)
    (run : gmap string bytes -> gmap string bytes * A) : Eff Fs string A :=
  fun s =>
    match faults s with
    | Some (n, e) :: rest => (mkFs (partial n (files s)) rest, Err e)
    | rest => let '(f, a) := run (files s) in (mkFs f (tail rest), Ok a)
    end.
Definition unchanged : nat -> gmap string bytes -> gmap string bytes := fun _ f => f.
Definition content (p : string) (f : gmap string bytes) : bytes :=
  match f !! p with Some b => b | None => [] end.

Definition create_dir_all : Eff Fs string unit := io unchanged (fun f => (f, tt)).
(** [OpenOptions]: [create(true).append(true)], [create(true).truncate(true)]. *)
Definition open_append (p : string) : Eff Fs string unit :=
  io unchanged (fun f => (<[p := content p f]> f, tt)).
Definition open_truncate (p : string) : Eff Fs string unit := io unchanged (fun f => (<[p := []]> f, tt)).
Definition file_open (p : string) : Eff Fs string unit := io unchanged (fun f => (f, tt)).
Definition file_len (p : string) : Eff Fs string nat := io unchanged (fun f => (f, length (content p f))).
Definition file_seek (p : string) : Eff Fs string unit := io unchanged (fun f => (f, tt)).
Definition read_last_byte (p : string) : Eff Fs string (option Ascii.ascii) :=
  io unchanged (fun f => (f, list.last (content p f))).
Definition read_to_end (p : string) : Eff Fs string bytes := io unchanged (fun f => (f, content p f)).
Definition write_all (p : string) (b : bytes) : Eff Fs string unit :=
  io (fun n f => <[p := content p f ++ take n b]> f) (fun f => (<[p := content p f ++ b]> f, tt)).
(** [sync_all] and [flush] report a buffered write that failed: of the last
    [pending] bytes written, [n] reached the file. *)
Definition sync_all (p : string) (pending : nat) : Eff Fs string unit :=
  io (fun n f => let b := content p f in <[p := take (length b - (pending - n)) b]> f) (fun f => (f, tt)).
Definition rename (from to : string) : Eff Fs string unit :=
  io unchanged (fun f => (<[to := content from f]> (delete from f), tt)).
(** The directory of the files. *)
Definition open_dir : Eff Fs string unit := io unchanged (fun f => (f, tt)).
Definition sync_dir : Eff Fs string unit := io unchanged (fun f => (f, tt)).

(** ** Names *)
Inductive Kind := Context | Display.
Definition is_ascii_alphanumeric (c : Ascii.ascii) : bool :=
  let n := code c in
  ((48 <=? n) && (n <=? 57)) || ((65 <=? n) && (n <=? 90)) || ((97 <=? n) && (n <=? 122)).
Definition stem_char (c : Ascii.ascii) : bool :=
  is_ascii_alphanumeric c || (code c =? 45) || (code c =? 95).
Definition transcript_file_stem (i : SessionId) : Result SessionError string :=
  if (String.length i =? 0)%nat || (128 <? String.length i)%nat
     || negb (forallb stem_char (String.list_ascii_of_string i))
  then Err (TranscriptError "invalid session identifier for transcript storage")
  else Ok i.
Definition suffix (k : Kind) : string := match k with Context => ".jsonl" | Display => ".display.jsonl" end.
(** The words the two stores' error texts differ in. *)
Definition kind_word (k : Kind) : string := match k with Context => "" | Display => "display " end.

(** ** Reading: [read_until] cuts after each LF *)
Fixpoint records (cur b : bytes) : list bytes :=
  match b with
  | [] => match cur with [] => [] | _ => [cur] end
  | c :: b => if bool_decide (c = LF) then (cur ++ [LF]) :: records [] b else records (cur ++ [c]) b
  end.
Definition is_ascii_whitespace (c : Ascii.ascii) : bool :=
  let n := code c in (n =? 32) || (n =? 9) || (n =? 10) || (n =? 12) || (n =? 13).

(** [serde_json] on [Message]: [to_string] and [from_slice]. *)
Class Json (M : Type) := {
  to_string : M -> Result string bytes;
  from_slice : bytes -> option M;
}.
(** What the stores rely on: a message is a JSON object, written without line
    feeds; a proper prefix of it is not one; white space after it is ignored. *)
Class JsonLaws (M : Type) `{Json M} := {
  json_total m : exists l, to_string m = Ok l;
  json_roundtrip m l : to_string m = Ok l -> from_slice l = Some m;
  json_no_lf m l : to_string m = Ok l -> LF ∉ l;
  json_prefix m l p : to_string m = Ok l -> p `prefix_of` l -> p <> l -> from_slice p = None;
  json_newline b : from_slice (b ++ [LF]) = from_slice b;
  json_blank b : forallb is_ascii_whitespace b = true -> from_slice b = None;
}.

Section transcript.
Context {M : Type} `{Json M} (base_dir : string).

Definition transcript_path (k : Kind) (i : SessionId) : Result SessionError string :=
  stem ← transcript_file_stem i; Ok (base_dir +:+ "/" +:+ stem +:+ suffix k).
Definition ensure_dir (k : Kind) : Eff Fs SessionError unit :=
  eff_map_err (fun e => TranscriptError ("create " +:+ kind_word k +:+ "transcript dir: " +:+ e)) create_dir_all.

Definition ensure_record_separator (p : string) : Eff Fs string unit :=
  len ← file_len p;
  if (len =? 0)%nat then mret tt
  else
    file_seek p;;
    last_byte ← read_last_byte p;
    if bool_decide (last_byte = Some LF) then mret tt else write_all p [LF].

Definition append_line (k : Kind) (i : SessionId) (m : M) : Eff Fs SessionError unit :=
  p ← lift (transcript_path k i);
  ensure_dir k;;
  line ← lift (map_err (fun e => TranscriptError ("serialize message: " +:+ e)) (to_string m));
  let line := line ++ [LF] in
  eff_map_err (fun e => TranscriptError ("open " +:+ kind_word k +:+ "transcript file " +:+ p +:+ ": " +:+ e))
    (open_append p);;
  eff_map_err (fun e => TranscriptError ("separate " +:+ kind_word k +:+ "transcript tail: " +:+ e))
    (ensure_record_separator p);;
  eff_map_err (fun e => TranscriptError ("write to " +:+ kind_word k +:+ "transcript: " +:+ e))
    (write_all p line);;
  eff_map_err (fun e => TranscriptError
      ((match k with Context => "sync transcript: " | Display => "flush display transcript: " end) +:+ e))
    (sync_all p (length line)).

(** The closure is a fold; unparseable records are skipped. *)
Definition visit_record {A} (visit : A -> M -> A) (acc : A) (line : bytes) : A :=
  if forallb is_ascii_whitespace line then acc
  else match from_slice line with Some m => visit acc m | None => acc end.
Definition visit_messages_from_file {A} (p : string) (visit : A -> M -> A) (acc : A) : Eff Fs SessionError A :=
  eff_map_err (fun e => TranscriptError ("open transcript " +:+ p +:+ ": " +:+ e)) (file_open p);;
  b ← eff_map_err (fun e => TranscriptError ("read line: " +:+ e)) (read_to_end p);
  mret (fold_left (visit_record visit) (records [] b) acc).

Definition read_messages_from_file (p : string) : Eff Fs SessionError (list M) :=
  visit_messages_from_file p (fun l m => l ++ [m]) [].
Definition count_messages_from_file (p : string) : Eff Fs SessionError nat :=
  visit_messages_from_file p (fun n _ => S n) O.
Definition ring_push (count : nat) (ring : list M) (m : M) : list M :=
  (if (length ring =? count)%nat then tail ring else ring) ++ [m].
Definition read_last_messages_from_file (p : string) (count : nat) : Eff Fs SessionError (list M) :=
  if (count =? 0)%nat then mret [] else visit_messages_from_file p (ring_push count) [].

(** [if !path.exists() { return Ok(default) }]. *)
Definition if_exists {A} (p : string) (a : A) (c : Eff Fs SessionError A) : Eff Fs SessionError A :=
  fun s => match files s !! p with None => (s, Ok a) | Some _ => c s end.

Definition read_transcript (k : Kind) (i : SessionId) : Eff Fs SessionError (list M) :=
  p ← lift (transcript_path k i); if_exists p [] (read_messages_from_file p).
Definition read_last (k : Kind) (i : SessionId) (count : nat) : Eff Fs SessionError (list M) :=
  p ← lift (transcript_path k i); if_exists p [] (read_last_messages_from_file p count).
Definition message_count (k : Kind) (i : SessionId) : Eff Fs SessionError nat :=
  p ← lift (transcript_path k i); if_exists p O (count_messages_from_file p).

Definition tmp_path (p : string) : string := p +:+ ".tmp".
Definition durable_rewrite (p : string) (b : bytes) : Eff Fs SessionError unit :=
  eff_map_err (fun e => TranscriptError ("open temp transcript: " +:+ e)) (open_truncate (tmp_path p));;
  eff_map_err (fun e => TranscriptError ("write temp transcript: " +:+ e)) (write_all (tmp_path p) b);;
  eff_map_err (fun e => TranscriptError ("sync temp transcript: " +:+ e)) (sync_all (tmp_path p) (length b));;
  eff_map_err (fun e => TranscriptError ("rename temp transcript: " +:+ e)) (rename (tmp_path p) p);;
  dir ← attempt open_dir;
  match dir with
  | Ok _ => attempt sync_dir;; mret tt
  | Err _ => mret tt
  end.

Fixpoint serialize_all (l : list M) : Result SessionError bytes :=
  match l with
  | [] => Ok []
  | m :: l =>
      line ← map_err (fun e => TranscriptError ("serialize message: " +:+ e)) (to_string m);
      rest ← serialize_all l; Ok (line ++ [LF] ++ rest)
  end.
Definition truncate_transcript (k : Kind) (i : SessionId) (keep_count : nat) : Eff Fs SessionError nat :=
  all ← read_transcript k i;
  if (length all <=? keep_count)%nat then mret O
  else
    p ← lift (transcript_path k i);
    content ← lift (serialize_all (take keep_count all));
    durable_rewrite p content;;
    mret (length all - keep_count)%nat.
End transcript.

(** ** Lemmas: records *)
Definition terminated (b : bytes) : Prop := b = [] \/ exists u, b = u ++ [LF].

Lemma records_lf cur u v : records cur (u ++ LF :: v) = records cur (u ++ [LF]) ++ records [] v.
Proof.
  revert cur. induction u as [|c u IH]; intros cur; cbn; [by rewrite bool_decide_true|].
  case_bool_decide; cbn; by rewrite IH.
Qed.
Lemma records_sep b x : terminated b -> records [] (b ++ x) = records [] b ++ records [] x.
Proof. intros [->|[u ->]]; [done|]. rewrite <- app_assoc. apply records_lf. Qed.
Lemma records_plain cur w : LF ∉ w -> records cur w = match cur ++ w with [] => [] | r => [r] end.
Proof.
  revert cur. induction w as [|c w IH]; intros cur Hw; cbn.
  - rewrite app_nil_r. by destruct cur.
  - rewrite bool_decide_false by set_solver. rewrite IH by set_solver. by rewrite <- app_assoc.
Qed.
Lemma records_line w : LF ∉ w -> records [] (w ++ [LF]) = [w ++ [LF]].
Proof.
  assert (H : forall cur, LF ∉ w -> records cur (w ++ [LF]) = [cur ++ w ++ [LF]]); [|apply H].
  induction w as [|c w IH]; intros cur Hw; cbn; [by rewrite bool_decide_true|].
  rewrite bool_decide_false by set_solver. rewrite IH by set_solver. by rewrite <- app_assoc.
Qed.
(** The last, unterminated record of a file. *)
Lemma last_record b : exists u w, b = u ++ w /\ terminated u /\ LF ∉ w.
Proof.
  induction b as [|c b (u & w & -> & Hu & Hw)] using rev_ind.
  - exists [], []. split_and!; [done|by left|set_solver].
  - destruct (decide (c = LF)) as [->|Hc].
    + exists ((u ++ w) ++ [LF]), []. rewrite app_nil_r. split_and!; [done|right; by eexists|set_solver].
    + exists u, (w ++ [c]). rewrite app_assoc. split_and!; [done|done|set_solver].
Qed.
Lemma terminated_last b : terminated b \/ (b <> [] /\ list.last b <> Some LF).
Proof.
  destruct b as [|c b _] using rev_ind; [left; by left|]. destruct (decide (c = LF)) as [->|Hc].
  - left. right. by eexists.
  - right. rewrite last_snoc. split; [by destruct b|congruence].
Qed.

Section lemmas.
Context {M : Type} `{JsonLaws M}.

(** The recoverable messages of a file. *)
Definition messages (b : bytes) : list M := omap from_slice (records [] b).

Lemma messages_sep b x : terminated b -> messages (b ++ x) = messages b ++ messages x.
Proof. intros Hb. unfold messages. by rewrite records_sep, omap_app. Qed.
Lemma messages_plain w : LF ∉ w -> messages w = match from_slice w with Some m => [m] | None => [] end.
Proof.
  intros Hw. unfold messages. rewrite records_plain by done. cbn. destruct w as [|c w]; cbn.
  - by rewrite json_blank.
  - by destruct (from_slice (c :: w)).
Qed.
Lemma messages_newline b : messages (b ++ [LF]) = messages b.
Proof.
  destruct (last_record b) as (u & w & -> & Hu & Hw). rewrite <- app_assoc.
  rewrite (messages_sep u (w ++ [LF])), (messages_sep u w) by done. f_equal.
  rewrite (messages_plain w) by done. unfold messages. rewrite records_line by done. cbn.
  rewrite json_newline. by destruct (from_slice w).
Qed.
(** A line written in part is no message until it is whole, its LF apart. *)
Lemma messages_torn m l n :
  to_string m = Ok l -> messages (take n (l ++ [LF])) = if (length l <=? n)%nat then [m] else [].
Proof.
  intros Hl. pose proof (json_no_lf m l Hl) as Hlf. destruct (Nat.leb_spec (length l) n).
  - rewrite take_app_ge by lia. assert (messages l = [m]) as Hm.
    { rewrite messages_plain by done. by rewrite (json_roundtrip m l Hl). }
    destruct (n - length l)%nat; cbn; [by rewrite app_nil_r|]. by rewrite take_nil, messages_newline.
  - rewrite take_app_le by lia. rewrite messages_plain by (intros Hin; apply Hlf; rewrite <- (take_drop n l); set_solver).
    rewrite (json_prefix m l); [done|done|by apply prefix_take|]. intros Heq%(f_equal length).
    rewrite length_take in Heq. lia.
Qed.
Lemma messages_line m l : to_string m = Ok l -> messages (l ++ [LF]) = [m].
Proof.
  intros Hl. rewrite <- (firstn_all (l ++ [LF])), (messages_torn m l) by done.
  rewrite length_app. cbn. by rewrite (proj2 (Nat.leb_le _ _)) by lia.
Qed.
Lemma serialize_messages l b : serialize_all l = Ok b -> messages b = l /\ terminated b.
Proof.
  revert b. induction l as [|m l IH]; intros b; cbn; [intros [= <-]; split; [done|by left]|].
  destruct (to_string m) as [line|] eqn:E; cbn; [|done]. destruct (serialize_all l) as [rest|] eqn:Er; [|done].
  cbn. intros [= <-]. destruct (IH rest eq_refl) as [Hm Ht]. rewrite cons_middle, app_assoc.
  rewrite messages_sep by (right; by eexists). rewrite (messages_line m line E), Hm. split; [done|].
  right. destruct Ht as [->|[u ->]]; [exists line|exists ((line ++ [LF]) ++ u)]; by rewrite <- ?app_assoc.
Qed.

(** Reads are folds over the recoverable messages. *)
Lemma visit_fold {A} (visit : A -> M -> A) rs acc :
  fold_left (visit_record visit) rs acc = fold_left visit (omap from_slice rs) acc.
Proof.
  revert acc. induction rs as [|r rs IH]; intros acc; cbn; [done|]. unfold visit_record at 2.
  destruct (forallb is_ascii_whitespace r) eqn:E; [by rewrite (json_blank r E)|].
  destruct (from_slice r); cbn; apply IH.
Qed.
Lemma fold_push (l acc : list M) : fold_left (fun l m => l ++ [m]) l acc = acc ++ l.
Proof. revert acc. induction l as [|m l IH]; intros acc; cbn; [by rewrite app_nil_r|]. by rewrite IH, <- app_assoc. Qed.
Lemma fold_count (l : list M) n : fold_left (fun n _ => S n) l n = (n + length l)%nat.
Proof. revert n. induction l as [|m l IH]; intros n; cbn; [lia|]. rewrite IH. lia. Qed.
(** The ring holds the last messages. *)
Definition last_n (n : nat) (l : list M) : list M := drop (length l - n) l.
Lemma fold_ring n (l acc : list M) :
  (0 < n)%nat -> (length acc <= n)%nat -> fold_left (ring_push n) l acc = last_n n (acc ++ l).
Proof.
  intros Hn. revert acc. induction l as [|m l IH]; intros acc Ha; cbn.
  - rewrite app_nil_r. unfold last_n. by replace (length acc - n)%nat with O by lia.
  - rewrite (cons_middle m acc l). unfold ring_push at 2. destruct (Nat.eqb_spec (length acc) n) as [Hl|Hl].
    + destruct acc as [|a acc]; cbn in *; [lia|]. rewrite IH by (rewrite length_app; cbn; lia).
      unfold last_n. cbn. rewrite !length_app. cbn.
      replace (S (length acc + S (length l)) - n)%nat with (S (length acc + 1 + length l - n)) by lia.
      by rewrite <- app_assoc.
    + rewrite IH by (rewrite length_app; cbn; lia). by rewrite <- app_assoc.
Qed.
End lemmas.

(** ** Lemmas: names *)
Arguments stem_char : simpl never.
Definition DOT : Ascii.ascii := byte 46.
Definition dotless (s : string) : Prop := forallb stem_char (String.list_ascii_of_string s) = true.

Lemma stem_Ok i s : transcript_file_stem i = Ok s -> s = i /\ dotless i.
Proof.
  unfold transcript_file_stem. destruct (_ || negb _) eqn:E; [done|]. intros [= <-].
  apply orb_false_elim in E as [_ E%negb_false_iff]. done.
Qed.
Lemma dotless_inj s1 s2 t1 t2 :
  dotless s1 -> dotless s2 -> s1 +:+ String DOT t1 = s2 +:+ String DOT t2 -> s1 = s2 /\ t1 = t2.
Proof.
  unfold dotless.
  revert s2. induction s1 as [|c s1 IH]; intros [|d s2]; cbn.
  - by intros _ _ [= ->].
  - intros _ Hd [= <- _]. apply andb_prop in Hd as [Hd _]. by vm_compute in Hd.
  - intros Hd _ [= -> _]. apply andb_prop in Hd as [Hd _]. by vm_compute in Hd.
  - intros [_ H1]%andb_prop [_ H2]%andb_prop [= -> H]. by destruct (IH s2 H1 H2 H) as [-> ->].
Qed.

Section names.
Context (base_dir : string).
Lemma path_inj k k' i i' p p' :
  transcript_path base_dir k i = Ok p -> transcript_path base_dir k' i' = Ok p' ->
  (p = p' -> k = k' /\ i = i') /\ p <> tmp_path p'.
Proof.
  unfold transcript_path, tmp_path. destruct (transcript_file_stem i) as [s|] eqn:E; cbn; [|done].
  destruct (transcript_file_stem i') as [s'|] eqn:E'; cbn; [|done]. intros [= <-] [= <-].
  apply stem_Ok in E as [-> Hi], E' as [-> Hi'].
  assert (Hk : forall k, suffix k = String DOT (if k is Context then "jsonl" else "display.jsonl")) by (by intros []).
  rewrite !Hk. split; [|rewrite !append_assoc].
  - intros H%(inj (String.append base_dir))%(inj (String.append "/")).
    destruct (dotless_inj i i' _ _ Hi Hi' H) as [-> H']. by destruct k, k'.
  - intros H%(inj (String.append base_dir))%(inj (String.append "/")).
    destruct (dotless_inj i i' _ _ Hi Hi' H) as [-> H']. by destruct k, k'.
Qed.
End names.

(** ** Lemmas: calls *)
Definition left (s : Fs) : nat := length (omap (fun x => x) (faults s)).
Lemma wp_io {A} partial (run : gmap string bytes -> gmap string bytes * A) Q s :
  (forall s', (left s' <= left s)%nat -> files s' = (run (files s)).1 -> Q s' (Ok (run (files s)).2)) ->
  (forall s' n e, (left s' < left s)%nat -> files s' = partial n (files s) -> Q s' (Err e)) ->
  wp (io partial run) Q s.
Proof.
  unfold wp, io, left. intros Hok Herr. destruct (faults s) as [|[[n e]|] rest] eqn:E; cbn.
  - destruct (run (files s)) as [f a]. by apply Hok.
  - eapply Herr; [|done]. cbn. lia.
  - destruct (run (files s)) as [f a]. by apply Hok.
Qed.
Lemma wp_read {A} (g : gmap string bytes -> A) Q s :
  (forall s', (left s' <= left s)%nat -> files s' = files s -> Q s' (Ok (g (files s)))) ->
  (forall s' e, (left s' < left s)%nat -> files s' = files s -> Q s' (Err e)) ->
  wp (io unchanged (fun f => (f, g f))) Q s.
Proof. intros Hok Herr. by apply wp_io; [apply Hok|intros s' n e; apply Herr]. Qed.
Lemma content_insert p b f : content p (<[p := b]> f) = b.
Proof. unfold content. by rewrite lookup_insert_eq. Qed.
Lemma content_insert_ne p q b f : p <> q -> content p (<[q := b]> f) = content p f.
Proof. intros. unfold content. by rewrite lookup_insert_ne. Qed.

(** A call under a message. *)
Ltac call :=
  let s := fresh "s" in let n := fresh "n" in let e := fresh "e" in let Hl := fresh "Hl" in let Hf := fresh "Hf" in
  apply wp_bind, wp_map_err, wp_io;
  [intros s Hl Hf; cbn in Hf |- * | intros s n e Hl Hf; unfold unchanged in Hf; cbn in Hf |- *].

(** Only the file [p], or its temporary one, changed. *)
Definition touches (p : string) (s s' : Fs) : Prop :=
  forall q, q <> p -> q <> tmp_path p -> content q (files s') = content q (files s).
Lemma touches_refl p s s' : files s' = files s -> touches p s s'.
Proof. intros Hf q _ _. by rewrite Hf. Qed.
Lemma touches_insert p q b s s' :
  q = p \/ q = tmp_path p -> files s' = <[q := b]> (files s) -> touches p s s'.
Proof. intros Hq Hf r Hr Ht. rewrite Hf, content_insert_ne; [done|]. by destruct Hq as [->| ->]. Qed.
Lemma touches_trans p s1 s2 s3 : touches p s1 s2 -> touches p s2 s3 -> touches p s1 s3.
Proof. intros H1 H2 q Hq Ht. by rewrite (H2 q Hq Ht), (H1 q Hq Ht). Qed.

Section specs.
Context {M : Type} `{JsonLaws M} (base_dir : string).

Lemma separator_spec p s :
  wp (ensure_record_separator p) (fun s' r =>
    touches p s s' /\ messages (content p (files s')) = messages (content p (files s)) /\
    match r with Ok _ => terminated (content p (files s')) /\ (left s' <= left s)%nat
    | Err _ => (left s' < left s)%nat end) s.
Proof.
  assert (Herr : forall s', (left s' < left s)%nat -> files s' = files s ->
    touches p s s' /\ messages (content p (files s')) = messages (content p (files s)) /\ (left s' < left s)%nat).
  { intros s' Hl Hf. rewrite Hf. by split; [apply touches_refl|]. }
  unfold ensure_record_separator. set (b := content p (files s)).
  apply wp_bind, wp_read; [|auto]. intros s1 Hl1 Hf1. fold b. destruct (Nat.eqb_spec (length b) 0) as [Hb|Hb].
  { apply wp_ret. rewrite Hf1. fold b. split_and!; [by apply touches_refl|done| |done]. left. by apply nil_length_inv. }
  apply wp_bind, wp_read; [|intros; apply Herr; [lia|congruence]]. intros s2 Hl2 Hf2.
  apply wp_bind, wp_read; [|intros; apply Herr; [lia|congruence]]. intros s3 Hl3 Hf3.
  rewrite Hf2, Hf1. fold b. assert (Hs : files s3 = files s) by congruence. case_bool_decide as Hc.
  { apply wp_ret. rewrite Hs. fold b. split_and!; [by apply touches_refl|done| |lia].
    right. destruct b as [|c u _] using rev_ind; [done|]. rewrite last_snoc in Hc. injection Hc as ->. by exists u. }
  apply wp_io; cbn; rewrite Hs; fold b.
  - intros s4 Hl4 Hf4. rewrite Hf4, content_insert, messages_newline. split_and!; [|done|right; by exists b|lia].
    by eapply (touches_insert p p); [left|].
  - intros s4 n e Hl4 Hf4. rewrite Hf4, content_insert. split_and!; [| |lia].
    + by eapply (touches_insert p p); [left|].
    + destruct n; cbn; [by rewrite app_nil_r|]. by rewrite take_nil, messages_newline.
Qed.

(** The calls of an append, from the opening on. *)
Lemma append_file_spec p (f1 f2 f3 f4 : string -> SessionError) m l s :
  to_string m = Ok l ->
  wp (eff_map_err f1 (open_append p);; eff_map_err f2 (ensure_record_separator p);;
      eff_map_err f3 (write_all p (l ++ [LF]));; eff_map_err f4 (sync_all p (length (l ++ [LF]))))
    (fun s' r => touches p s s' /\
      match r with
      | Ok _ => messages (content p (files s')) = messages (content p (files s)) ++ [m] /\ (left s' <= left s)%nat
      | Err _ => (messages (content p (files s')) = messages (content p (files s)) \/
                  messages (content p (files s')) = messages (content p (files s)) ++ [m]) /\ (left s' < left s)%nat
      end) s.
Proof.
  intros Hm. call; [|split; [by apply touches_refl|rewrite Hf; auto]].
  assert (Ht0 : touches p s s0) by (by apply (touches_insert p p (content p (files s))); [left|]).
  assert (Hc0 : content p (files s0) = content p (files s)) by (by rewrite Hf, content_insert).
  apply wp_bind, wp_map_err. eapply wp_mono; [apply separator_spec|]. intros s1 r (Ht1 & Hm1 & Hr). rewrite Hc0 in Hm1.
  pose proof (touches_trans p s s0 s1 Ht0 Ht1) as Ht. destruct r as [[]|e]; cbn; [|split; [done|]; split; [by left|lia]].
  destruct Hr as [Hterm Hl1]. set (b := content p (files s1)) in *.
  assert (Htorn : forall n, messages (b ++ take n (l ++ [LF])) = messages (content p (files s)) \/
    messages (b ++ take n (l ++ [LF])) = messages (content p (files s)) ++ [m]).
  { intros n. rewrite messages_sep by done. rewrite (messages_torn m l n Hm), Hm1.
    destruct (_ <=? _)%nat; [by right|left; by rewrite app_nil_r]. }
  call.
  2: { split; [|rewrite Hf0, content_insert; split; [apply Htorn|lia]].
       apply (touches_trans p s s1); [done|]. by eapply (touches_insert p p); [left|]. }
  assert (Ht2 : touches p s s2).
  { apply (touches_trans p s s1); [done|]. by eapply (touches_insert p p); [left|]. }
  apply wp_map_err, wp_io; cbn; rewrite ?Hf0, ?content_insert; fold b.
  - intros s3 Hl3 Hf3. rewrite Hf3, content_insert, messages_sep, (messages_line m l), Hm1 by done.
    split_and!; [|done|lia]. apply (touches_trans p s s2); [done|]. apply touches_refl. by rewrite Hf0, Hf3.
  - intros s3 n e Hl3 Hf3. split.
    + apply (touches_trans p s s2); [done|]. eapply (touches_insert p p); [by left|]. by rewrite Hf0, Hf3.
    + rewrite Hf3, content_insert. split; [|lia]. rewrite length_app, take_app_ge by lia. apply Htorn.
Qed.

(** Both transcripts of every session, as the reads recover them. *)
Definition view_of (k : Kind) (s : Fs) (i : SessionId) : list M :=
  match transcript_path base_dir k i with Ok p => messages (content p (files s)) | Err _ => [] end.
Definition same_others (k : Kind) (i : SessionId) (s s' : Fs) : Prop :=
  forall k' i', (k', i') <> (k, i) -> view_of k' s' i' = view_of k' s i'.
Definition accepted (i : SessionId) : bool := is_ok (transcript_file_stem i).

Lemma accepted_path k i : accepted i = is_ok (transcript_path base_dir k i).
Proof. unfold accepted, transcript_path. by destruct (transcript_file_stem i). Qed.
Lemma touches_views k i p s s' :
  transcript_path base_dir k i = Ok p -> touches p s s' -> same_others k i s s'.
Proof.
  intros Hp Ht k' i' Hne. unfold view_of. destruct (transcript_path base_dir k' i') as [q|] eqn:Hq; [|done].
  destruct (path_inj base_dir k' k i' i q p Hq Hp) as [Hinj Htmp]. rewrite (Ht q); [done| |done].
  intros Heq. destruct (Hinj Heq) as [-> ->]. done.
Qed.
Lemma same_files k i s s' : files s' = files s -> same_others k i s s' /\ view_of k s' i = view_of k s i.
Proof. intros Hf. split; [intros k' i' _|]; unfold view_of; by rewrite Hf. Qed.

(** [?] on the name of the file. *)
Lemma wp_path {A} k i (c : string -> Eff Fs SessionError A) Q s :
  (forall p, transcript_path base_dir k i = Ok p -> accepted i = true -> wp (c p) Q s) ->
  (forall e, accepted i = false -> Q s (Err e)) -> wp (p ← lift (transcript_path base_dir k i); c p) Q s.
Proof.
  intros Hok Herr. apply wp_bind, wp_lift. pose proof (accepted_path k i) as Ha.
  destruct (transcript_path base_dir k i); auto.
Qed.

Lemma append_line_spec k i m s :
  wp (append_line base_dir k i m) (fun s' r =>
    same_others k i s s' /\
    match r with
    | Ok _ => view_of k s' i = view_of k s i ++ [m] /\ (left s' <= left s)%nat /\ accepted i = true
    | Err _ => (view_of k s' i = view_of k s i \/ view_of k s' i = view_of k s i ++ [m]) /\
               blame (left s') (left s) (accepted i)
    end) s.
Proof.
  unfold append_line. apply wp_path; [|intros e Ha; destruct (same_files k i s s eq_refl); auto with fault].
  intros p Hp Ha. unfold ensure_dir. call; [|destruct (same_files k i s s0 Hf); auto with fault].
  destruct (json_total m) as [l Hl']. rewrite Hl'. cbn. apply wp_bind, wp_lift.
  eapply wp_mono; [by apply append_file_spec|]. intros s' r [Ht Hr]. rewrite Hf in Hr.
  split; [apply (touches_views k i p); [done|]; intros q; rewrite <- Hf; apply Ht|].
  unfold view_of. rewrite Hp. destruct r; [destruct Hr; split_and!; [done|lia|done]|].
  destruct Hr as [Hr Hlt]. split; [done|]. eauto with fault.
Qed.

Lemma visit_spec {A} p (visit : A -> M -> A) acc s :
  wp (visit_messages_from_file p visit acc) (fun s' r =>
    files s' = files s /\
    match r with
    | Ok a => a = fold_left visit (messages (content p (files s))) acc /\ (left s' <= left s)%nat
    | Err _ => (left s' < left s)%nat
    end) s.
Proof.
  unfold visit_messages_from_file, file_open, read_to_end. call; [|by split].
  call; [|split; [congruence|lia]]. apply wp_ret. rewrite visit_fold, Hf. split_and!; [congruence|done|lia].
Qed.
Lemma reads_spec {A} k i (a : A) (visit : A -> M -> A) s (c : string -> Eff Fs SessionError A) (g : list M -> A) :
  (forall p, wp (c p) (fun s' r => files s' = files s /\
     match r with Ok a' => a' = g (messages (content p (files s))) /\ (left s' <= left s)%nat
     | Err _ => (left s' < left s)%nat end) s) -> g [] = a ->
  wp (p ← lift (transcript_path base_dir k i); if_exists p a (c p)) (fun s' r =>
    files s' = files s /\
    match r with Ok a' => a' = g (view_of k s i) /\ (left s' <= left s)%nat /\ accepted i = true
    | Err _ => blame (left s') (left s) (accepted i) end) s.
Proof.
  intros Hc Hg. apply wp_path; [|auto with fault]. intros p Hp Ha. unfold if_exists, wp.
  unfold view_of. rewrite Hp. destruct (files s !! p) eqn:E; cbn.
  - specialize (Hc p). unfold wp in Hc. destruct (c p s) as [s' []]; cbn in *; [naive_solver|]. destruct Hc. auto with fault.
  - unfold content. rewrite E. split_and!; [done|exact (eq_sym Hg)|done|done].
Qed.

Definition read_post {A} (i : SessionId) (a : A) (s s' : Fs) (r : Result SessionError A) : Prop :=
  files s' = files s /\
  match r with Ok a' => a' = a /\ (left s' <= left s)%nat /\ accepted i = true
  | Err _ => blame (left s') (left s) (accepted i) end.
Lemma read_transcript_spec k i s : wp (read_transcript base_dir k i) (read_post i (view_of k s i) s) s.
Proof.
  apply (reads_spec k i [] (fun l m => l ++ [m]) s _ id); [|done]. intros p. unfold read_messages_from_file.
  eapply wp_mono; [apply visit_spec|]. intros s' r [Hf Hr]. split; [done|]. by destruct r; rewrite ?fold_push in Hr.
Qed.
Lemma message_count_spec k i s : wp (message_count base_dir k i) (read_post i (length (view_of k s i)) s) s.
Proof.
  apply (reads_spec k i O (fun n _ => S n) s _ length); [|done]. intros p. unfold count_messages_from_file.
  eapply wp_mono; [apply visit_spec|]. intros s' r [Hf Hr]. split; [done|]. by destruct r; rewrite ?fold_count in Hr.
Qed.
Lemma read_last_spec k i n s : wp (read_last base_dir k i n) (read_post i (last_n n (view_of k s i)) s) s.
Proof.
  apply (reads_spec k i [] (ring_push n) s _ (last_n n)); [|done]. intros p. unfold read_last_messages_from_file.
  destruct (Nat.eqb_spec n 0) as [->|Hn].
  - apply wp_ret. split_and!; [done| |done]. unfold last_n. by rewrite Nat.sub_0_r, drop_all.
  - eapply wp_mono; [apply visit_spec|]. intros s' r [Hf Hr]. split; [done|].
    destruct r; [|done]. by rewrite fold_ring in Hr by (cbn; lia).
Qed.

Lemma durable_rewrite_spec p b s :
  p <> tmp_path p ->
  wp (durable_rewrite p b) (fun s' r => touches p s s' /\
    match r with
    | Ok _ => content p (files s') = b /\ (left s' <= left s)%nat
    | Err _ => content p (files s') = content p (files s) /\ (left s' < left s)%nat
    end) s.
Proof.
  intros Hne. set (t := tmp_path p) in *.
  assert (Hins : forall s1 s2 x, touches p s s1 -> content p (files s1) = content p (files s) ->
    files s2 = <[t := x]> (files s1) -> touches p s s2 /\ content p (files s2) = content p (files s)).
  { intros s1 s2 x Ht Hc Hf. split; [|by rewrite Hf, content_insert_ne].
    apply (touches_trans p s s1); [done|]. by eapply (touches_insert p t); [right|]. }
  assert (Hread : forall s1 s2 : Fs, touches p s s1 -> files s2 = files s1 -> touches p s s2).
  { intros s1 s2 Ht Hf. apply (touches_trans p s s1); [done|by apply touches_refl]. }
  unfold durable_rewrite. fold t. call; [|by split; [apply touches_refl|rewrite Hf]].
  destruct (Hins s s0 [] ltac:(by apply touches_refl) eq_refl Hf) as [Ht0 Hc0].
  call; [|destruct (Hins _ _ _ Ht0 Hc0 Hf0); split_and!; [done|done|lia]].
  destruct (Hins _ _ _ Ht0 Hc0 Hf0) as [Ht1 Hc1].
  assert (Hb : content t (files s1) = b) by (rewrite Hf0, content_insert, Hf, content_insert; done).
  call; [|destruct (Hins _ _ _ Ht1 Hc1 Hf1); split_and!; [done|done|lia]].
  pose proof (Hread _ _ Ht1 Hf1) as Ht2. rewrite <- Hf1 in Hb, Hc1.
  call; [|rewrite Hf2; split_and!; [by apply (Hread s2)|done|lia]].
  assert (Hc3 : content p (files s3) = b) by (by rewrite Hf2, content_insert).
  assert (Ht3 : touches p s s3).
  { intros q Hq Hqt. rewrite Hf2, content_insert_ne by done. rewrite <- (Ht2 q Hq Hqt). unfold content.
    by rewrite lookup_delete_ne. }
  assert (Hend : forall s4, files s4 = files s3 -> (left s4 <= left s)%nat ->
    touches p s s4 /\ content p (files s4) = b /\ (left s4 <= left s)%nat).
  { intros s4 Hf4 Hl4. rewrite Hf4. split_and!; [by apply (Hread s3)|done|done]. }
  apply wp_bind, wp_attempt, wp_read; [|intros s4 e4 Hl4 Hf4; apply wp_ret, Hend; [done|lia]]. intros s4 Hl4 Hf4.
  apply wp_bind, wp_attempt, wp_read; [intros s5 Hl5 Hf5|intros s5 e Hl5 Hf5]; (apply wp_ret, Hend; [congruence|lia]).
Qed.

Lemma truncate_spec k i n s :
  wp (truncate_transcript base_dir k i n) (fun s' r =>
    same_others k i s s' /\
    match r with
    | Ok c => view_of k s' i = take n (view_of k s i) /\ c = (length (view_of k s i) - n)%nat /\
              (left s' <= left s)%nat /\ accepted i = true
    | Err _ => view_of k s' i = view_of k s i /\ blame (left s') (left s) (accepted i)
    end) s.
Proof.
  unfold truncate_transcript. apply wp_bind. eapply wp_mono; [apply read_transcript_spec|]. intros s1 r [Hf Hr].
  destruct (same_files k i s s1 Hf) as [Hsame Hview]. destruct r as [all|e]; [|auto]. destruct Hr as (-> & Hl & Ha).
  set (v := view_of k s i) in *. destruct (Nat.leb_spec (length v) n) as [Hn|Hn].
  { apply wp_ret. split_and!; [done| |lia|lia|done]. rewrite Hview. by rewrite take_ge. }
  apply wp_path; [|intros e Ha'; congruence]. intros p Hp _.
  apply wp_bind, wp_lift. destruct (serialize_all (take n v)) as [b|e] eqn:Es.
  2: { exfalso. clear -Es H0. revert e Es. generalize (take n v). intros l. induction l as [|m l IH]; cbn; [done|].
       intros e. destruct (json_total m) as [line ->]. cbn. destruct (serialize_all l); cbn; [done|]. by eapply IH. }
  destruct (serialize_messages _ _ Es) as [Hm _].
  apply wp_bind. eapply wp_mono; [apply durable_rewrite_spec; by destruct (path_inj base_dir k k i i p p Hp Hp)|].
  intros s2 r [Ht Hr]. assert (Hs : same_others k i s s2).
  { apply (touches_views k i p); [done|]. intros q. rewrite <- Hf. apply Ht. }
  destruct r as [[]|e].
  - apply wp_ret. destruct Hr as [Hr Hl2]. split_and!; [done| |done|lia|done]. unfold view_of. by rewrite Hp, Hr.
  - destruct Hr as [Hr Hl2]. split; [done|]. split; [|auto with fault]. rewrite <- Hview. unfold view_of. by rewrite Hp, Hr.
Qed.
End specs.

(** ** The stores behind the interface *)
Definition Dir (k : Kind) : Type := Fs.
#[export] Instance jsonl_store {M} `{Json M} (k : Kind) (base_dir : string) : TranscriptStore (Dir k) M := {
  append := append_line base_dir k;
  read_all := read_transcript base_dir k;
  count_messages := message_count base_dir k;
  truncate := truncate_transcript base_dir k;
}.
#[export] Instance jsonl_contract {M} `{JsonLaws M} (k : Kind) (base_dir : string) :
  @TranscriptContract (Dir k) M (jsonl_store k base_dir).
Proof.
  assert (Hne : forall (i j : SessionId), j <> i -> (k, j) <> (k, i)) by (intros i j Hij [= ->]; done).
  refine (Build_TranscriptContract (Dir k) M _ (fun s i => view_of base_dir k s i) left accepted _ _ _ _).
  - intros i m s. eapply wp_mono; [apply append_line_spec|]. intros s' r [Hs Hr]. split; [|exact Hr]. auto.
  - intros i s. eapply wp_mono; [apply read_transcript_spec|]. intros s' r [Hf Hr].
    split; [|by destruct r; naive_solver]. intros j. unfold view_of. by rewrite Hf.
  - intros i s. eapply wp_mono; [apply message_count_spec|]. intros s' r [Hf Hr].
    split; [|by destruct r; naive_solver]. intros j. unfold view_of. by rewrite Hf.
  - intros i n s. eapply wp_mono; [apply truncate_spec|]. intros s' r [Hs Hr]. split; [|exact Hr]. auto.
Defined.

#[export] Typeclasses Opaque Dir.

(** ** Specification: two transcripts per session, of whole messages *)
Section refinement.
Context {M : Type} `{Json M} (base_dir : string).

Inductive Op :=
| OpAppend (k : Kind) (i : SessionId) (m : M)
| OpReadAll (k : Kind) (i : SessionId)
| OpReadLast (k : Kind) (i : SessionId) (count : nat)
| OpCount (k : Kind) (i : SessionId)
| OpTruncate (k : Kind) (i : SessionId) (keep_count : nat).
Inductive Value := VUnit | VMessages (l : list M) | VCount (n : nat).
Definition op_key (o : Op) : Kind * SessionId :=
  match o with
  | OpAppend k i _ | OpReadAll k i | OpReadLast k i _ | OpCount k i | OpTruncate k i _ => (k, i)
  end.
Definition run_op (o : Op) : Eff Fs SessionError Value :=
  match o with
  | OpAppend k i m => append_line base_dir k i m;; mret VUnit
  | OpReadAll k i => l ← read_transcript base_dir k i; mret (VMessages l)
  | OpReadLast k i n => l ← read_last base_dir k i n; mret (VMessages l)
  | OpCount k i => n ← message_count base_dir k i; mret (VCount n)
  | OpTruncate k i n => c ← truncate_transcript base_dir k i n; mret (VCount c)
  end.
Fixpoint run_ops (ops : list Op) (s : Fs) : Fs * list (Result SessionError Value) :=
  match ops with
  | [] => (s, [])
  | o :: ops => let '(s, r) := run_op o s in let '(s, rs) := run_ops ops s in (s, r :: rs)
  end.

Definition Views : Type := Kind -> SessionId -> list M.
Definition value_of (o : Op) (t : list M) : Value :=
  match o with
  | OpAppend _ _ _ => VUnit
  | OpReadAll _ _ => VMessages t
  | OpReadLast _ _ n => VMessages (last_n n t)
  | OpCount _ _ => VCount (length t)
  | OpTruncate _ _ n => VCount (length t - n)
  end.
Definition effect_of (o : Op) (t : list M) : list M :=
  match o with
  | OpAppend _ _ m => t ++ [m]
  | OpTruncate _ _ n => take n t
  | _ => t
  end.
(** An operation does what it says and returns what it should; a failed append
    may have happened, any other failed operation has not; other transcripts
    stay. *)
Definition spec_step (o : Op) (r : Result SessionError Value) (v v' : Views) : Prop :=
  let '(k, i) := op_key o in
  (forall k' i', (k', i') <> (k, i) -> v' k' i' = v k' i') /\
  match r with
  | Ok a => v' k i = effect_of o (v k i) /\ a = value_of o (v k i)
  | Err _ => v' k i = v k i \/ exists m, o = OpAppend k i m /\ v' k i = v k i ++ [m]
  end.
(** [n] failures of the file system can explain no more than [n] errors on
    acceptable session names. *)
Fixpoint spec_run (n : nat) (v : Views) (ops : list Op) (rs : list (Result SessionError Value)) (v' : Views) : Prop :=
  match ops, rs with
  | [], [] => v' = v
  | o :: ops, r :: rs =>
      exists n' v1, spec_step o r v v1 /\ spec_run n' v1 ops rs v' /\
        match r with Ok _ => (n' <= n)%nat | Err _ => blame n' n (accepted (op_key o).2) end
  | _, _ => False
  end.
End refinement.
Arguments Op M : clear implicits.
Arguments Value M : clear implicits.
Arguments Views M : clear implicits.

Section refinement_proof.
Context {M : Type} `{JsonLaws M} (base_dir : string).

Lemma run_op_spec o s :
  let '(s', r) := run_op base_dir o s in
  spec_step (M := M) o r (fun k i => view_of base_dir k s i) (fun k i => view_of base_dir k s' i) /\
  match r with Ok _ => (left s' <= left s)%nat | Err _ => blame (left s') (left s) (accepted (op_key o).2) end.
Proof.
  set (Q := fun (s' : Fs) (r : Result SessionError (Value M)) =>
    spec_step (M := M) o r (fun k i => view_of base_dir k s i) (fun k i => view_of base_dir k s' i) /\
    match r with Ok _ => (left s' <= left s)%nat | Err _ => blame (left s') (left s) (accepted (op_key o).2) end).
  enough (Hw : wp (run_op base_dir o) Q s) by (unfold wp in Hw; by destruct (run_op base_dir o s)).
  assert (Hread : forall A k i (a : A) (f : A -> Value M) (c : Eff Fs SessionError A),
    op_key o = (k, i) -> (forall t, effect_of o t = t) -> f a = value_of o (view_of base_dir k s i) ->
    wp c (read_post i a s) s -> wp (x ← c; mret (f x)) Q s).
  { intros A k i a f c Hk He Hv Hc. apply wp_bind. eapply wp_mono; [exact Hc|]. intros s' r [Hf Hr].
    destruct (same_files base_dir k i s s' Hf) as [Hs Hview].
    destruct r as [a'|e]; [apply wp_ret; destruct Hr as (-> & Hl & _)|]; unfold Q, spec_step; rewrite Hk; split; try done.
    - split; [done|]. by rewrite He.
    - split; [done|]. by left. }
  destruct o as [k i m|k i|k i n|k i|k i n]; cbn [run_op].
  - apply wp_bind. eapply wp_mono; [apply append_line_spec|]. intros s' r [Hs Hr]. destruct r as [[]|e].
    + apply wp_ret. destruct Hr as (Hv & Hl & _). by split.
    + destruct Hr as [Hv Hb]. split; [|done]. split; [done|]. destruct Hv as [Hv|Hv]; [by left|right]. by exists m.
  - by apply (Hread _ k i (view_of base_dir k s i)); try apply read_transcript_spec.
  - by apply (Hread _ k i (last_n n (view_of base_dir k s i))); try apply read_last_spec.
  - by apply (Hread _ k i (length (view_of base_dir k s i))); try apply message_count_spec.
  - apply wp_bind. eapply wp_mono; [apply truncate_spec|]. intros s' r [Hs Hr]. destruct r as [c|e].
    + apply wp_ret. destruct Hr as (Hv & -> & Hl & _). by split.
    + destruct Hr as [Hv Hb]. split; [|done]. split; [done|]. by left.
Qed.

(** C23: whatever the files hold and whichever calls of the file system fail, an
    acknowledged append is read back, an append that failed is there whole or
    not at all, a truncation happens or does not, no operation changes another
    transcript, reads return the messages in order, and every error is due to a
    failure of the file system or to a session name that is refused. *)
Theorem transcript_refines (ops : list (Op M)) (s : Fs) :
  let '(s', rs) := run_ops base_dir ops s in
  spec_run (left s) (fun k i => view_of base_dir k s i) ops rs (fun k i => view_of base_dir k s' i).
Proof.
  revert s. induction ops as [|o ops IH]; intros s; cbn [run_ops]; [done|].
  pose proof (run_op_spec o s) as Hs. destruct (run_op base_dir o s) as [s1 r]. specialize (IH s1).
  destruct (run_ops base_dir ops s1) as [s' rs]. cbn. exists (left s1), (fun k i => view_of base_dir k s1 i).
  destruct Hs. by split_and!.
Qed.
End refinement_proof.

(** Messages written as [{"n":1}]-like objects. *)
Definition sample_line (m : bool) : bytes := String.list_ascii_of_string (if m then "{t}" else "{f}").
Fixpoint trim_lf (b : bytes) : bytes :=
  match b with
  | [] => []
  | c :: b => match trim_lf b with [] => if bool_decide (c = LF) then [] else [c] | b => c :: b end
  end.
Definition sample_parse (b : bytes) : option bool :=
  if bool_decide (trim_lf b = sample_line true) then Some true
  else if bool_decide (trim_lf b = sample_line false) then Some false else None.
#[export] Instance sample_json : Json bool := { to_string m := Ok (sample_line m); from_slice := sample_parse }.
Lemma sample_laws : JsonLaws bool.
Proof.
  assert (Hlf : forall b, trim_lf (b ++ [LF]) = trim_lf b).
  { induction b as [|c b IH]; [done|]. cbn. by rewrite IH. }
  split.
  - intros m. by eexists.
  - by intros [] l [= <-].
  - intros [] l [= <-] Hin; set_unfold; naive_solver.
  - intros m l p [= <-] [q Hq] Hne. assert (Hp : p = take (length p) (sample_line m)) by (by rewrite Hq, take_app_length).
    assert (Hlen : (length p < length (sample_line m))%nat).
    { rewrite Hq, length_app. destruct q; cbn; [|lia]. rewrite app_nil_r in Hq. done. }
    rewrite Hp. revert Hlen. generalize (length p). intros n Hn.
    destruct m; cbn in Hn; do 3 (destruct n as [|n]; [reflexivity|]); lia.
  - intros b. cbn. unfold sample_parse. by rewrite Hlf.
  - intros [|c b] Hb; [done|]. cbn in Hb. apply andb_prop in Hb as [Hc _]. cbn [from_slice sample_json].
    assert (Hne : forall m, trim_lf (c :: b) <> sample_line m).
    { intros m Hm. assert (c = byte 123) as ->; [|done]. cbn in Hm.
      destruct m, (trim_lf b), (bool_decide (c = LF)); try discriminate Hm; injection Hm; intros; subst; reflexivity. }
    unfold sample_parse. by rewrite !bool_decide_false by apply Hne.
Qed.

(** An append cut short by a full disk, then one that goes through, on a file
    with a torn record. *)
Definition sample_fs : Fs :=
  mkFs {["/d/s.jsonl" := sample_line true ++ [LF] ++ String.list_ascii_of_string "{t"]}
    [None; None; None; None; None; None; Some (2%nat, "disk full")].
Definition sample_ops : list (Op bool) :=
  [OpAppend Context "s" false; OpAppend Context "s" false; OpReadAll Context "s"; OpAppend Display "../x" true].
Theorem transcript_refines_witness :
  (run_ops "/d" sample_ops sample_fs).2 =
    [Err (TranscriptError "write to transcript: disk full"); Ok VUnit; Ok (VMessages [true; false]);
     Err (TranscriptError "invalid session identifier for transcript storage")] /\
  let '(s', rs) := run_ops "/d" sample_ops sample_fs in
  spec_run (left sample_fs) (fun k i => view_of "/d" k sample_fs i) sample_ops rs (fun k i => view_of "/d" k s' i).
Proof.
  split; [vm_compute; reflexivity|].
  exact (@transcript_refines bool sample_json sample_laws "/d" sample_ops sample_fs).
Defined.
