(* ===== verification/SessionDb.v ===== *)
(** * Session metadata and chat checkpoints in SQLite

    Models [crates/hf-storage/src/session_store.rs] and [checkpoint_store.rs]
    over the tables of the migrations 0005 and 0006.  A statement runs whole or
    fails without effect; a list gives the failures to come.  The identifiers
    and clock readings a call draws are its arguments. *)
From S2P Require Import Prelude Effect SessionCore.

(** ** Tables *)
Record Row := mkRow {
  r_id : string;
  r_parent_id : option string;
  r_root_id : string;
  r_depth : Z;
  r_path : string;
  r_session_type : string;
  r_state : string;
  r_agent_id : option string;
  r_title : option string;
  r_manual_title : option string;
  r_token_count : Z;
  r_message_count : Z;
  r_transcript_path : string;
  r_channel : option string;
  r_label : option string;
  r_last_compaction : option string;
  r_compaction_count : Z;
  r_context_reset_index : option Z;
  r_custom_system_prompt : option string;
  r_created_at : string;
  r_updated_at : string;
}.
(** A row of [chat_checkpoints]. *)
Record CheckpointRow := mkCpRow {
  c_checkpoint_id : string;
  c_session_id : string;
  c_turn_number : Z;
  c_message_count_before : Z;
  c_journal_scope_id : string;
  c_invalidated : Z;
  c_created_at : string;
}.
Record Db := mkDb {
  rows : list Row;
  checkpoints : list CheckpointRow;
  db_faults : list (option string);
}.

(** One statement: an error text of the database, or its effect and answer. *)
Definition sql {A} (run : Db -> Result string (Db * A)) : Eff Db SessionError A :=
  fun d =>
    let failed := mkDb (rows d) (checkpoints d) (tail (db_faults d)) in
    match db_faults d with
    | Some e :: _ => (failed, Err (StorageError e))
    | _ =>
        match run failed with
        | Ok (d', a) => (d', Ok a)
        | Err e => (failed, Err (StorageError e))
        end
    end.
Definition select {A} (f : Db -> A) : Eff Db SessionError A := sql (fun d => Ok (d, f d)).
Definition with_rows (l : list Row) (d : Db) : Db := mkDb l (checkpoints d) (db_faults d).
Definition with_checkpoints (l : list CheckpointRow) (d : Db) : Db := mkDb (rows d) l (db_faults d).
Definition row_of (i : SessionId) (l : list Row) : option Row := List.find (fun r => String.eqb (r_id r) i) l.

(** [UPDATE session_metadata SET ... WHERE id = ?], and the rows it affected. *)
Definition update_where (i : SessionId) (f : Row -> Row) : Eff Db SessionError nat :=
  sql (fun d =>
    Ok (with_rows ((fun r => if String.eqb (r_id r) i then f r else r) <$> rows d) d,
        length (filter (fun r => r_id r = i) (rows d)))).
Definition update_row (i : SessionId) (f : Row -> Row) : Eff Db SessionError unit :=
  n ← update_where i f; if (n =? 0)%nat then fail (NotFound i) else mret tt.

(** ** Columns *)
Definition session_type_to_str (t : SessionType) : string :=
  match t with
  | Main => "main" | Child => "child" | Branch => "branch" | Ephemeral => "ephemeral"
  | SubAgent => "sub_agent" | Canonical => "canonical"
  end.
Definition str_to_session_type (s : string) : Result SessionError SessionType :=
  if String.eqb s "main" then Ok Main
  else if String.eqb s "child" then Ok Child
  else if String.eqb s "branch" then Ok Branch
  else if String.eqb s "ephemeral" then Ok Ephemeral
  else if String.eqb s "sub_agent" then Ok SubAgent
  else if String.eqb s "canonical" then Ok Canonical
  else Err (OtherError ("unknown session_type: " +:+ s)).
Definition state_to_str (s : SessionState) : string :=
  match s with
  | Active => "active" | Paused => "paused" | Archived => "archived" | Merged => "merged"
  | Tombstone => "tombstone"
  end.
Definition str_to_state (s : string) : Result SessionError SessionState :=
  if String.eqb s "active" then Ok Active
  else if String.eqb s "paused" then Ok Paused
  else if String.eqb s "archived" then Ok Archived
  else if String.eqb s "merged" then Ok Merged
  else if String.eqb s "tombstone" then Ok Tombstone
  else Err (OtherError ("unknown session state: " +:+ s)).
(** [u32::try_from(v)], and [.unwrap_or(0)]. *)
Definition u32_of (z : Z) : option Z := if (0 <=? z) && (z <=? u32_MAX) then Some z else None.
Definition u32_or_0 (z : Z) : Z := default 0 (u32_of z).

(** [serde_json] on a list of strings and [chrono] on a column. *)
Class Columns := {
  path_to_json : list string -> Result string string;
  path_of_json : string -> Result string (list string);
  parse_from_rfc3339 : string -> Result string Timestamp;
}.
Class ColumnLaws `{Columns} := {
  path_total l : exists s, path_to_json l = Ok s;
  path_empty : path_to_json [] = Ok "[]"%string;
  path_roundtrip l s : path_to_json l = Ok s -> path_of_json s = Ok l;
}.

Section store.
Context `{Columns}.

Definition parse_rfc3339_column (column value : string) : Result SessionError Timestamp :=
  map_err (fun e => StorageError ("stored session_metadata." +:+ column +:+ " value '" +:+ value
                      +:+ "' is not an RFC 3339 timestamp: " +:+ e)) (parse_from_rfc3339 value).

Definition into_session_node (r : Row) : Result SessionError SessionNode :=
  path ← map_err (fun e => StorageError ("parse path: " +:+ e)) (path_of_json (r_path r));
  session_type ← str_to_session_type (r_session_type r);
  state ← str_to_state (r_state r);
  created_at ← parse_rfc3339_column "created_at" (r_created_at r);
  updated_at ← parse_rfc3339_column "updated_at" (r_updated_at r);
  last_compaction ← match r_last_compaction r with
                    | Some v => Some <$> parse_rfc3339_column "last_compaction" v
                    | None => Ok None
                    end;
  Ok (mkNode (r_id r) (r_parent_id r) (r_root_id r) (u32_or_0 (r_depth r)) path session_type state
        (r_agent_id r) (r_title r) (r_manual_title r) (r_channel r) (r_label r)
        (u32_or_0 (r_token_count r)) (u32_or_0 (r_message_count r)) last_compaction
        (u32_or_0 (r_compaction_count r)) created_at updated_at).

Fixpoint into_session_nodes (l : list Row) : Result SessionError (list SessionNode) :=
  match l with
  | [] => Ok []
  | r :: l => n ← into_session_node r; ns ← into_session_nodes l; Ok (n :: ns)
  end.

(** ** [SessionStore] *)
Definition get (i : SessionId) : Eff Db SessionError SessionNode :=
  row ← select (fun d => row_of i (rows d));
  match row with
  | Some r => lift (into_session_node r)
  | None => fail (NotFound i)
  end.

(** The constraints of the table: the primary key and the two references. *)
Definition insert_row (r : Row) : Eff Db SessionError unit :=
  sql (fun d =>
    if existsb (fun r' => String.eqb (r_id r') (r_id r)) (rows d)
    then Err "UNIQUE constraint failed: session_metadata.id"%string
    else if forallb (fun i => existsb (fun r' => String.eqb (r_id r') i) (rows d ++ [r]))
              (r_root_id r :: option_list (r_parent_id r))
    then Ok (with_rows (rows d ++ [r]) d, tt)
    else Err "FOREIGN KEY constraint failed"%string).

Definition create (new_id now_str : string) (options : CreateSessionOptions) : Eff Db SessionError SessionNode :=
  placed ← match o_parent_id options with
           | Some parent_id =>
               parent ← get parent_id;
               path_json ← lift (map_err (fun e => StorageError ("serialize path: " +:+ e))
                                   (path_to_json (path parent ++ [node_id parent])));
               mret (root_id parent, wrapping 32 (depth parent + 1), path_json)
           | None => mret (new_id, 0, "[]"%string)
           end;
  let '(root, d, path_json) := placed in
  insert_row (mkRow new_id (o_parent_id options) root d path_json
    (session_type_to_str (o_session_type options)) "active" (o_agent_id options) (o_title options) None 0 0
    ("transcripts/" +:+ new_id +:+ ".jsonl") None None None 0 None None now_str now_str);;
  get new_id.

(** [WHERE] a filter, [ORDER BY created_at ASC]. *)
Definition by_created_at (a b : Row) : comparison := String.compare (r_created_at a) (r_created_at b).
Definition opt_eqb {A} (eqb : A -> A -> bool) (o : option A) (a : A) : bool :=
  match o with Some b => eqb b a | None => true end.
Definition matches_filter (f : SessionFilter) (r : Row) : bool :=
  opt_eqb String.eqb (state_to_str <$> f_state f) (r_state r)
  && opt_eqb String.eqb (session_type_to_str <$> f_session_type f) (r_session_type r)
  && match f_agent_id f with
     | Some a => match r_agent_id r with Some b => String.eqb a b | None => false end
     | None => true
     end
  && opt_eqb String.eqb (f_root_id f) (r_root_id r).
Definition list_sessions (f : SessionFilter) : Eff Db SessionError (list SessionNode) :=
  l ← select (fun d => sort_by by_created_at (filter (fun r => matches_filter f r = true) (rows d)));
  lift (into_session_nodes l).
Definition children (i : SessionId) : Eff Db SessionError (list SessionNode) :=
  l ← select (fun d => sort_by by_created_at (filter (fun r => r_parent_id r = Some i) (rows d)));
  lift (into_session_nodes l).

Definition set_updated (now : string) (r : Row) : Row :=
  mkRow (r_id r) (r_parent_id r) (r_root_id r) (r_depth r) (r_path r) (r_session_type r) (r_state r)
    (r_agent_id r) (r_title r) (r_manual_title r) (r_token_count r) (r_message_count r) (r_transcript_path r)
    (r_channel r) (r_label r) (r_last_compaction r) (r_compaction_count r) (r_context_reset_index r)
    (r_custom_system_prompt r) (r_created_at r) now.
Definition set_state (now : string) (i : SessionId) (state : SessionState) : Eff Db SessionError unit :=
  update_row i (fun r =>
    set_updated now (mkRow (r_id r) (r_parent_id r) (r_root_id r) (r_depth r) (r_path r) (r_session_type r)
      (state_to_str state) (r_agent_id r) (r_title r) (r_manual_title r) (r_token_count r) (r_message_count r)
      (r_transcript_path r) (r_channel r) (r_label r) (r_last_compaction r) (r_compaction_count r)
      (r_context_reset_index r) (r_custom_system_prompt r) (r_created_at r) (r_updated_at r))).
Definition update_metadata (now : string) (i : SessionId) (title : option string) (tokens messages : Z)
    : Eff Db SessionError unit :=
  update_row i (fun r =>
    set_updated now (mkRow (r_id r) (r_parent_id r) (r_root_id r) (r_depth r) (r_path r) (r_session_type r)
      (r_state r) (r_agent_id r) (match title with Some t => Some t | None => r_title r end) (r_manual_title r)
      tokens messages (r_transcript_path r) (r_channel r) (r_label r) (r_last_compaction r) (r_compaction_count r)
      (r_context_reset_index r) (r_custom_system_prompt r) (r_created_at r) (r_updated_at r))).
Definition with_titles (title manual : option string) (r : Row) : Row :=
  mkRow (r_id r) (r_parent_id r) (r_root_id r) (r_depth r) (r_path r) (r_session_type r) (r_state r)
    (r_agent_id r) title manual (r_token_count r) (r_message_count r) (r_transcript_path r)
    (r_channel r) (r_label r) (r_last_compaction r) (r_compaction_count r) (r_context_reset_index r)
    (r_custom_system_prompt r) (r_created_at r) (r_updated_at r).
Definition set_title (now : string) (i : SessionId) (title : string) : Eff Db SessionError unit :=
  update_row i (fun r => set_updated now (with_titles (Some title) (r_manual_title r) r)).
Definition set_manual_title (now : string) (i : SessionId) (title : option string) : Eff Db SessionError unit :=
  update_row i (fun r => set_updated now (with_titles (r_title r) title r)).
Definition with_context (reset : option Z) (prompt : option string) (r : Row) : Row :=
  mkRow (r_id r) (r_parent_id r) (r_root_id r) (r_depth r) (r_path r) (r_session_type r) (r_state r)
    (r_agent_id r) (r_title r) (r_manual_title r) (r_token_count r) (r_message_count r) (r_transcript_path r)
    (r_channel r) (r_label r) (r_last_compaction r) (r_compaction_count r) reset prompt (r_created_at r)
    (r_updated_at r).
Definition set_context_reset_index (now : string) (i : SessionId) (index : option Z) : Eff Db SessionError unit :=
  update_row i (fun r => set_updated now (with_context index (r_custom_system_prompt r) r)).
Definition set_custom_system_prompt (now : string) (i : SessionId) (prompt : option string)
    : Eff Db SessionError unit :=
  update_row i (fun r => set_updated now (with_context (r_context_reset_index r) prompt r)).

(** The columns are read apart. *)
Definition get_context_reset_index (i : SessionId) : Eff Db SessionError (option Z) :=
  row ← select (fun d => r_context_reset_index <$> row_of i (rows d));
  match row with
  | Some None => mret None
  | Some (Some v) =>
      lift (match u32_of v with
            | Some n => Ok (Some n)
            | None => Err (StorageError ("stored session_metadata.context_reset_index value " +:+ pretty v
                             +:+ " is outside the u32 range"))
            end)
  | None => fail (NotFound i)
  end.
Definition get_custom_system_prompt (i : SessionId) : Eff Db SessionError (option string) :=
  row ← select (fun d => r_custom_system_prompt <$> row_of i (rows d));
  match row with Some v => mret v | None => fail (NotFound i) end.

(** The rows of the path, put back in its order; [by_id.remove] takes each once. *)
Fixpoint in_path_order (p : list SessionId) (by_id : list SessionNode) : list SessionNode :=
  match p with
  | [] => []
  | a :: p =>
      match List.find (fun n => String.eqb (node_id n) a) by_id with
      | Some n => n :: in_path_order p (filter (fun n => node_id n <> a) by_id)
      | None => in_path_order p by_id
      end
  end.
Definition ancestors (i : SessionId) : Eff Db SessionError (list SessionNode) :=
  node ← get i;
  match path node with
  | [] => mret []
  | p =>
      l ← select (fun d => filter (fun r => r_id r ∈ p) (rows d));
      nodes ← lift (into_session_nodes l);
      mret (in_path_order p nodes)
  end.

(** The references of other rows block the first statement. *)
Definition references (i : string) (r : Row) : bool :=
  String.eqb (r_root_id r) i || match r_parent_id r with Some p => String.eqb p i | None => false end.
Definition delete_row (i : SessionId) : Eff Db SessionError nat :=
  sql (fun d =>
    let rest := filter (fun r => r_id r <> i) (rows d) in
    if existsb (references i) rest then Err "FOREIGN KEY constraint failed"%string
    else Ok (with_rows rest d, length (filter (fun r => r_id r = i) (rows d)))).
Definition delete (i : SessionId) : Eff Db SessionError unit :=
  n ← delete_row i;
  if (n =? 0)%nat then fail (NotFound i)
  else sql (fun d => Ok (with_checkpoints (filter (fun c => c_session_id c <> i) (checkpoints d)) d, tt)).

(** ** [ChatCheckpointStore] *)
Definition strict_u32 (value : Z) (column reason : string) : Result SessionError Z :=
  match u32_of value with
  | Some n => Ok n
  | None => Err (StorageError ("stored chat_checkpoints." +:+ column +:+ " value " +:+ pretty value
                   +:+ " is outside the u32 range: " +:+ reason))
  end.
Definition row_to_checkpoint (c : CheckpointRow) : Result SessionError ChatCheckpoint :=
  turn ← strict_u32 (c_turn_number c) "turn_number"
    "a negative or oversized turn_number would silently reset the rollback boundary to turn 0";
  before ← strict_u32 (c_message_count_before c) "message_count_before"
    "a negative or oversized message_count_before would truncate the whole transcript on rollback";
  created ← map_err (fun e => StorageError ("stored chat_checkpoints.created_at '" +:+ c_created_at c
                       +:+ "' is not an RFC 3339 timestamp: " +:+ e)) (parse_from_rfc3339 (c_created_at c));
  Ok (mkCheckpoint (c_checkpoint_id c) (c_session_id c) turn before (c_journal_scope_id c)
        (negb (c_invalidated c =? 0)) created).
Fixpoint rows_to_checkpoints (l : list CheckpointRow) : Result SessionError (list ChatCheckpoint) :=
  match l with
  | [] => Ok []
  | c :: l => k ← row_to_checkpoint c; ks ← rows_to_checkpoints l; Ok (k :: ks)
  end.

(** [ON CONFLICT(checkpoint_id) DO UPDATE]; the pair of session and turn is
    unique too. *)
Definition save_checkpoint (created_text : string) (c : ChatCheckpoint) : Eff Db SessionError unit :=
  let row := mkCpRow (checkpoint_id c) (cp_session_id c) (turn_number c) (message_count_before c)
               (journal_scope_id c) (if invalidated c then 1 else 0) created_text in
  sql (fun d =>
    let others := filter (fun r => c_checkpoint_id r <> checkpoint_id c) (checkpoints d) in
    if existsb (fun r => String.eqb (c_session_id r) (cp_session_id c) && (c_turn_number r =? turn_number c)) others
    then Err "UNIQUE constraint failed: chat_checkpoints.session_id, chat_checkpoints.turn_number"%string
    else
      let replace r := if String.eqb (c_checkpoint_id r) (checkpoint_id c) then row else r in
      Ok (with_checkpoints
            (if existsb (fun r => String.eqb (c_checkpoint_id r) (checkpoint_id c)) (checkpoints d)
             then replace <$> checkpoints d else checkpoints d ++ [row]) d, tt)).
Definition load_checkpoint (k : string) : Eff Db SessionError ChatCheckpoint :=
  row ← select (fun d => List.find (fun c => String.eqb (c_checkpoint_id c) k) (checkpoints d));
  match row with Some c => lift (row_to_checkpoint c) | None => fail (NotFound k) end.
(** [ORDER BY turn_number DESC]. *)
Definition by_turn_desc (a b : CheckpointRow) : comparison := Z.compare (c_turn_number b) (c_turn_number a).
Definition list_by_session (i : SessionId) : Eff Db SessionError (list ChatCheckpoint) :=
  l ← select (fun d => sort_by by_turn_desc (filter (fun c => c_session_id c = i) (checkpoints d)));
  lift (rows_to_checkpoints l).
Definition latest (i : SessionId) : Eff Db SessionError (option ChatCheckpoint) :=
  row ← select (fun d =>
    head (sort_by by_turn_desc (filter (fun c => c_session_id c = i /\ c_invalidated c = 0) (checkpoints d))));
  match row with Some c => lift (Some <$> row_to_checkpoint c) | None => mret None end.
Definition invalidate (c : CheckpointRow) : CheckpointRow :=
  mkCpRow (c_checkpoint_id c) (c_session_id c) (c_turn_number c) (c_message_count_before c)
    (c_journal_scope_id c) 1 (c_created_at c).
Definition hit (i : SessionId) (turn : Z) (c : CheckpointRow) : bool :=
  String.eqb (c_session_id c) i && (turn <? c_turn_number c) && (c_invalidated c =? 0).
Definition invalidate_after (i : SessionId) (turn : Z) : Eff Db SessionError Z :=
  n ← sql (fun d =>
        Ok (with_checkpoints ((fun c => if hit i turn c then invalidate c else c) <$> checkpoints d) d,
            zlen (filter (fun c => hit i turn c = true) (checkpoints d))));
  mret (default u32_MAX (u32_of n)).
End store.
