(* ===== verification/SessionTree.v ===== *)
(** * The session tree

    Models [crates/hf-session/src/state_machine.rs], [error.rs], [config.rs] and
    the methods of [manager.rs] that use the session store alone, and proves
    what the rows of every database they reach look like. *)
From S2P Require Import Prelude Effect SessionCore SessionDb.

(** ** State machine *)
Inductive SessionManagerError :=
| MNotFound (id : string)
| MInvalidTransition (from to : string)
| MStorage (message : string)
| MTranscript (message : string)
| MConfig (message : string)
| MOther (message : string).
Definition display_manager_error (e : SessionManagerError) : string :=
  match e with
  | MNotFound id => "session not found: " +:+ id
  | MInvalidTransition from to =>
      "invalid state transition from " +:+ debug_str from +:+ " to " +:+ debug_str to
  | MStorage m => "storage error: " +:+ m
  | MTranscript m => "transcript error: " +:+ m
  | MConfig m => "session configuration error: " +:+ m
  | MOther m => m
  end.
Definition from_session_error (e : SessionError) : SessionManagerError :=
  match e with NotFound i => MNotFound i | e => MStorage (display_error e) end.

Definition is_valid_transition (from to : SessionState) : bool :=
  match from, to with
  | Active, (Paused | Archived | Merged | Tombstone)
  | Paused, (Active | Archived | Tombstone)
  | (Archived | Merged), Tombstone => true
  | _, _ => false
  end.
Definition validate_transition (from to : SessionState) : Result SessionManagerError unit :=
  if bool_decide (from = to) then Err (MInvalidTransition (debug_state from) (debug_state to))
  else if is_valid_transition from to then Ok tt
  else Err (MInvalidTransition (debug_state from) (debug_state to)).
Definition valid_transitions (from : SessionState) : list SessionState :=
  filter (fun to => is_valid_transition from to = true) [Active; Paused; Archived; Merged; Tombstone].

Record SessionConfig := mkConfig { max_depth : Z }.
Definition default_max_depth : Z := 10.

(** ** The manager's methods over the session store *)
Section manager.
Context `{Columns} (config : SessionConfig).

Notation "'store!' c" := (eff_map_err from_session_error c) (at level 10).

Definition check_depth (parent : SessionNode) : Result SessionManagerError unit :=
  if max_depth config <=? depth parent
  then Err (MConfig ("maximum tree depth " +:+ pretty (max_depth config) +:+ " exceeded")) else Ok tt.
Definition create_session (new_id now : string) (options : CreateSessionOptions)
    : Eff Db SessionManagerError SessionNode :=
  match o_parent_id options with
  | Some parent_id => parent ← store! (get parent_id); lift (check_depth parent)
  | None => mret tt
  end;;
  store! (create new_id now options).
Definition get_session (i : SessionId) : Eff Db SessionManagerError SessionNode := store! (get i).
Definition manager_list_sessions (f : SessionFilter) : Eff Db SessionManagerError (list SessionNode) :=
  store! (list_sessions f).
Definition transition_state (now : string) (i : SessionId) (new_state : SessionState)
    : Eff Db SessionManagerError unit :=
  current ← store! (get i);
  lift (validate_transition (state current) new_state);;
  store! (set_state now i new_state).
Definition branch (new_id now : string) (parent_id : SessionId) (title : option string)
    : Eff Db SessionManagerError SessionNode :=
  parent ← store! (get parent_id);
  lift (check_depth parent);;
  store! (create new_id now (mkOptions (Some parent_id) Branch (agent_id parent) title)).
Definition manager_children (i : SessionId) : Eff Db SessionManagerError (list SessionNode) := store! (children i).
Definition manager_ancestors (i : SessionId) : Eff Db SessionManagerError (list SessionNode) := store! (ancestors i).
Definition descendants_including_self (i : SessionId) : Eff Db SessionManagerError (list SessionNode) :=
  current ← store! (get i);
  all_in_tree ← store! (list_sessions (mkFilter None None None (Some (root_id current))));
  mret (filter (fun n => node_id n = node_id current \/ node_id current ∈ path n) all_in_tree).
Definition update_title (now : string) (i : SessionId) (title : string) : Eff Db SessionManagerError unit :=
  store! (set_title now i title).
Definition manager_set_manual_title (now : string) (i : SessionId) (title : option string)
    : Eff Db SessionManagerError unit := store! (set_manual_title now i title).
Definition manager_get_context_reset_index (i : SessionId) : Eff Db SessionManagerError (option Z) :=
  store! (get_context_reset_index i).
Definition manager_set_context_reset_index (now : string) (i : SessionId) (index : option Z)
    : Eff Db SessionManagerError unit := store! (set_context_reset_index now i index).
Definition manager_get_custom_system_prompt (i : SessionId) : Eff Db SessionManagerError (option string) :=
  store! (get_custom_system_prompt i).
Definition manager_set_custom_system_prompt (now : string) (i : SessionId) (prompt : option string)
    : Eff Db SessionManagerError unit := store! (set_custom_system_prompt now i prompt).
End manager.

(** ** Lemmas: statements *)
Definition db_left (d : Db) : nat := length (omap (fun x => x) (db_faults d)).
Definition same_tables (d d' : Db) : Prop := rows d' = rows d /\ checkpoints d' = checkpoints d.

Lemma wp_sql {A} (run : Db -> Result string (Db * A)) Q d :
  (forall d' e, same_tables d d' -> (db_left d' < db_left d)%nat -> Q d' (Err (StorageError e))) ->
  (forall d1, same_tables d d1 -> (db_left d1 <= db_left d)%nat ->
     match run d1 with Ok (d', a) => Q d' (Ok a) | Err e => Q d1 (Err (StorageError e)) end) ->
  wp (sql run) Q d.
Proof.
  unfold wp, sql, db_left. intros Herr Hok. destruct (db_faults d) as [|[e|] rest] eqn:E; cbn.
  - specialize (Hok (mkDb (rows d) (checkpoints d) []) ltac:(done) ltac:(done)). by destruct (run _) as [[]|].
  - apply Herr; [done|]. cbn. lia.
  - specialize (Hok (mkDb (rows d) (checkpoints d) rest) ltac:(done) ltac:(done)). by destruct (run _) as [[]|].
Qed.
Lemma wp_select {A} (f : Db -> A) Q d :
  (forall d' e, same_tables d d' -> (db_left d' < db_left d)%nat -> Q d' (Err (StorageError e))) ->
  (forall d', same_tables d d' -> (db_left d' <= db_left d)%nat -> Q d' (Ok (f d'))) -> wp (select f) Q d.
Proof. intros Herr Hok. apply wp_sql; [done|]. intros d1 Hd Hl. by apply Hok. Qed.
Lemma same_refl d : same_tables d d.
Proof. done. Qed.
Lemma same_trans d1 d2 d3 : same_tables d1 d2 -> same_tables d2 d3 -> same_tables d1 d3.
Proof. intros [H1 H2] [H3 H4]. by split; rewrite ?H3, ?H4. Qed.

Section specs.
Context `{ColumnLaws}.

Lemma row_of_Some i l r : row_of i l = Some r -> r ∈ l /\ r_id r = i.
Proof.
  unfold row_of. intros Hf. apply List.find_some in Hf as [Hin Hi]. apply String.eqb_eq in Hi.
  by split; [apply list_elem_of_In|].
Qed.
Lemma row_of_None i l : row_of i l = None -> forall r, r ∈ l -> r_id r <> i.
Proof.
  unfold row_of. intros Hf r Hr Hi. apply list_elem_of_In in Hr. pose proof (List.find_none _ _ Hf r Hr) as Hn.
  cbn in Hn. by apply String.eqb_neq in Hn.
Qed.
Lemma row_of_elem l r : NoDup (r_id <$> l) -> r ∈ l -> row_of (r_id r) l = Some r.
Proof.
  unfold row_of. induction l as [|a l IH]; cbn; [by intros _ ?%not_elem_of_nil|].
  intros [Ha Hnd]%list.NoDup_cons [->|Hr]%elem_of_cons; [by rewrite String.eqb_refl|].
  destruct (String.eqb_spec (r_id a) (r_id r)) as [Heq|]; [|by apply IH].
  destruct Ha. rewrite Heq. by apply list_elem_of_fmap_2.
Qed.

Lemma get_spec i d :
  wp (get i) (fun d' r =>
    same_tables d d' /\ (db_left d' <= db_left d)%nat /\
    match r with
    | Ok n => exists row, row_of i (rows d) = Some row /\ into_session_node row = Ok n
    | Err e => (db_left d' < db_left d)%nat \/ row_of i (rows d) = None \/
               exists row, row_of i (rows d) = Some row /\ into_session_node row = Err e
    end) d.
Proof.
  unfold get. apply wp_bind, wp_select; [intros d' e Hs Hl; split_and!; [done|lia|by left]|].
  intros d' Hs Hl. pose proof Hs as [Hr _]. rewrite Hr. destruct (row_of i (rows d)) as [row|] eqn:E.
  - apply wp_lift. split_and!; [done|done|]. destruct (into_session_node row) eqn:En; [by exists row|].
    right. right. by exists row.
  - apply wp_fail. split_and!; auto.
Qed.

Lemma update_row_spec i f d :
  wp (update_row i f) (fun d' r =>
    (db_left d' <= db_left d)%nat /\
    match r with
    | Ok _ => rows d' = (fun r => if String.eqb (r_id r) i then f r else r) <$> rows d /\
              checkpoints d' = checkpoints d /\ is_Some (row_of i (rows d))
    | Err _ => same_tables d d' /\ ((db_left d' < db_left d)%nat \/ row_of i (rows d) = None)
    end) d.
Proof.
  assert (Hrow : (length (filter (fun r => r_id r = i) (rows d)) =? 0)%nat = true <-> row_of i (rows d) = None).
  { rewrite Nat.eqb_eq. unfold row_of. induction (rows d) as [|a l IH]; [done|].
    rewrite filter_cons. cbn [List.find].
    destruct (String.eqb_spec (r_id a) i) as [Hi|Hi]; case_decide; try done; cbn; naive_solver lia. }
  unfold update_row, update_where. apply wp_bind, wp_sql; [intros d' e Hs Hl; split; [lia|auto]|].
  intros d1 [Hr Hc] Hl. rewrite Hr. destruct (_ =? 0)%nat eqn:E.
  - apply wp_fail. destruct Hrow as [Hrow _]. specialize (Hrow eq_refl). split_and!; [done| |by right]. split; [|done]. cbn.
    rewrite <- (list_fmap_id (rows d)) at 2. apply list_fmap_ext. intros j r Hj.
    apply list_elem_of_lookup_2 in Hj. rewrite (proj2 (String.eqb_neq _ _)); [done|]. by apply (row_of_None i (rows d)).
  - apply wp_ret. split_and!; [done|done|done|]. destruct (row_of i (rows d)); [by eexists|].
    destruct Hrow as [_ Hrow]. by specialize (Hrow eq_refl).
Qed.
End specs.

(** ** The tree the rows form *)
Section tree.
Context `{ColumnLaws}.

(** The path column of a row says its ancestry, from the root down. *)
Inductive ancestry (l : list Row) : string -> list string -> Prop :=
| ancestry_root r : r ∈ l -> r_parent_id r = None -> ancestry l (r_id r) []
| ancestry_child r q p : r ∈ l -> r_parent_id r = Some q -> ancestry l q p -> ancestry l (r_id r) (p ++ [q]).
Definition row_ok (max : Z) (l : list Row) (r : Row) : Prop :=
  exists p, path_of_json (r_path r) = Ok p /\ ancestry l (r_id r) p /\ r_depth r = zlen p /\ zlen p <= max /\
    r_root_id r = default (r_id r) (head p) /\
    (exists t, str_to_session_type (r_session_type r) = Ok t) /\ (exists s, str_to_state (r_state r) = Ok s).
Definition tree_ok (max : Z) (d : Db) : Prop :=
  NoDup (r_id <$> rows d) /\ Forall (row_ok max (rows d)) (rows d).

(** The columns an update leaves. *)
Definition same_place (r r' : Row) : Prop :=
  r_id r' = r_id r /\ r_parent_id r' = r_parent_id r /\ r_root_id r' = r_root_id r /\ r_depth r' = r_depth r /\
  r_path r' = r_path r /\ r_session_type r' = r_session_type r.
Lemma ancestry_fmap l f i p :
  (forall r, r ∈ l -> same_place r (f r)) -> ancestry l i p -> ancestry (f <$> l) i p.
Proof.
  intros Hf. induction 1 as [r Hr Hp|r q p Hr Hp _ IH]; destruct (Hf r Hr) as (Hi & Hq & _); rewrite <- Hi.
  - constructor; [by apply list_elem_of_fmap_2|congruence].
  - constructor; [by apply list_elem_of_fmap_2|congruence|done].
Qed.
Lemma tree_ok_update max d d' f :
  (forall r, r ∈ rows d -> same_place r (f r) /\
     ((exists s, str_to_state (r_state r) = Ok s) -> exists s, str_to_state (r_state (f r)) = Ok s)) ->
  rows d' = f <$> rows d -> tree_ok max d -> tree_ok max d'.
Proof.
  intros Hf Hd [Hnd Hok]. unfold tree_ok. rewrite Hd. split.
  - rewrite <- list_fmap_compose. assert ((r_id ∘ f) <$> rows d = r_id <$> rows d) as ->; [|done].
    apply list_fmap_ext. intros j r Hj. by destruct (Hf r (list_elem_of_lookup_2 _ _ _ Hj)) as [(? & _) _].
  - apply Forall_fmap. rewrite list.Forall_forall in Hok |- *. intros r Hin.
    destruct (Hok r Hin) as (p & Hp & Ha & Hdep & Hmax & Hroot & Ht & Hs).
    destruct (Hf r Hin) as [(H1 & H2 & H3 & H4 & H5 & H6) H7]. unfold compose. exists p. rewrite H5, H1, H4, H3, H6.
    split_and!; try done; [|by apply H7]. apply ancestry_fmap; [|done]. intros r' Hr'. by destruct (Hf r' Hr').
Qed.

Lemma ancestry_mono l l' i p : (forall r, r ∈ l -> r ∈ l') -> ancestry l i p -> ancestry l' i p.
Proof. intros Hsub. induction 1; constructor; auto. Qed.
Lemma ancestry_filter l i j p :
  existsb (references j) (filter (fun r => r_id r <> j) l) = false -> i <> j -> ancestry l i p ->
  ancestry (filter (fun r => r_id r <> j) l) i p.
Proof.
  intros Hno Hij Ha. revert Hij. induction Ha as [r Hr Hp|r q p Hr Hp Ha IH]; intros Hij.
  - constructor; [|done]. by apply list_elem_of_filter.
  - assert (Hin : r ∈ filter (fun r => r_id r <> j) l) by (by apply list_elem_of_filter).
    constructor; [done|done|]. apply IH. intros ->. apply list_elem_of_In in Hin.
    assert (existsb (references j) (filter (fun r => r_id r <> j) l) = true); [|congruence].
    apply existsb_exists. exists r. split; [done|]. unfold references. rewrite Hp, String.eqb_refl. apply orb_true_r.
Qed.
Lemma tree_ok_delete max d d' j :
  existsb (references j) (filter (fun r => r_id r <> j) (rows d)) = false ->
  rows d' = filter (fun r => r_id r <> j) (rows d) -> tree_ok max d -> tree_ok max d'.
Proof.
  intros Hno Hd [Hnd Hok]. unfold tree_ok. rewrite Hd. split.
  - eapply sublist_NoDup; [exact Hnd|]. apply fmap_sublist, sublist_filter.
  - apply list.Forall_forall. intros r [Hne Hr]%list_elem_of_filter. rewrite list.Forall_forall in Hok.
    destruct (Hok r Hr) as (p & Hp & Ha & Hrest). exists p. split; [done|]. split; [|done]. by apply ancestry_filter.
Qed.
Lemma tree_ok_same max d d' : same_tables d d' -> tree_ok max d -> tree_ok max d'.
Proof. intros [Hr _]. unfold tree_ok. by rewrite Hr. Qed.

Lemma tree_ok_insert max d d' r p :
  rows d' = rows d ++ [r] -> (forall r', r' ∈ rows d -> r_id r' <> r_id r) ->
  path_of_json (r_path r) = Ok p -> r_depth r = zlen p -> zlen p <= max ->
  match r_parent_id r with None => p = [] | Some q => exists pq, p = pq ++ [q] /\ ancestry (rows d) q pq end ->
  r_root_id r = default (r_id r) (head p) -> (exists t, str_to_session_type (r_session_type r) = Ok t) ->
  (exists s, str_to_state (r_state r) = Ok s) -> tree_ok max d -> tree_ok max d'.
Proof.
  intros Hd Hfresh Hp Hdep Hmax Hpar Hroot Ht Hs [Hnd Hok]. unfold tree_ok. rewrite Hd.
  assert (Hin : r ∈ rows d ++ [r]) by (apply elem_of_app; right; left).
  assert (Hmono : forall i q, ancestry (rows d) i q -> ancestry (rows d ++ [r]) i q).
  { intros i q. apply ancestry_mono. intros r' Hr'. apply elem_of_app. by left. }
  split.
  - rewrite fmap_app. apply list.NoDup_app. split_and!; [done| |apply NoDup_singleton].
    intros i (r' & -> & Hr')%list_elem_of_fmap Hi%list_elem_of_singleton. by apply (Hfresh r').
  - apply Forall_app. split.
    + eapply Forall_impl; [|exact Hok]. intros r' (p' & ? & Ha & Hrest). exists p'. auto.
    + apply Forall_cons_iff. split; [|by constructor]. exists p. split_and!; try done.
      destruct (r_parent_id r) as [q|] eqn:Eq.
      * destruct Hpar as (pq & -> & Ha). constructor; auto.
      * subst p. by constructor.
Qed.

Lemma ancestry_det l i p q : NoDup (r_id <$> l) -> ancestry l i p -> ancestry l i q -> p = q.
Proof.
  intros Hnd Hp. revert q. induction Hp as [r Hr Hpar|r j p Hr Hpar Hp IH]; intros q Hq.
  - inversion Hq as [r' Hr' Hpar' Heq|r' j' p' Hr' Hpar' Hp' Heq]; [done|].
    pose proof (row_of_elem l r Hnd Hr) as R1. pose proof (row_of_elem l r' Hnd Hr') as R2. congruence.
  - inversion Hq as [r' Hr' Hpar' Heq|r' j' p' Hr' Hpar' Hp' Heq];
      pose proof (row_of_elem l r Hnd Hr) as R1; pose proof (row_of_elem l r' Hnd Hr') as R2; [congruence|].
    assert (j' = j) as -> by congruence. by rewrite (IH p').
Qed.
(** The ancestors of an ancestor are its path's beginning. *)
Lemma ancestry_split l i p q a :
  ancestry l i p -> p = q ++ a -> match a with [] => True | j :: _ => ancestry l j q end.
Proof.
  intros Hp. revert q a. induction Hp as [r Hr Hpar|r k p Hr Hpar Hp IH]; intros q a Heq.
  - destruct a; [done|]. by destruct q.
  - destruct a as [|j a _] using rev_ind; [done|]. rewrite app_assoc in Heq. apply app_inj_tail in Heq as [Heq <-].
    destruct a as [|j' a]; cbn; [by rewrite app_nil_r in Heq; subst|]. by apply (IH q (j' :: a)).
Qed.

(** The decoded node of a row. *)
Lemma into_node_inv row n :
  into_session_node row = Ok n ->
  node_id n = r_id row /\ parent_id n = r_parent_id row /\ root_id n = r_root_id row /\
  depth n = u32_or_0 (r_depth row) /\ path_of_json (r_path row) = Ok (path n) /\
  str_to_state (r_state row) = Ok (state n) /\ token_count n = u32_or_0 (r_token_count row) /\
  message_count n = u32_or_0 (r_message_count row) /\ agent_id n = r_agent_id row /\ title n = r_title row.
Proof.
  unfold into_session_node. intros Hn. destruct (path_of_json (r_path row)) as [p|]; [|done]. cbn in Hn.
  destruct (str_to_session_type (r_session_type row)) as [t|]; [|done]. cbn in Hn.
  destruct (str_to_state (r_state row)) as [s|]; [|done]. cbn in Hn.
  repeat match type of Hn with
  | context [mbind _ ?r] => destruct r; cbn in Hn; [|done]
  | context [Result_bind _ _ _ _ ?r] => destruct r; cbn in Hn; [|done]
  end.
  injection Hn as <-. by split_and!.
Qed.
Lemma get_node max i d n row :
  tree_ok max d -> max <= u32_MAX -> row_of i (rows d) = Some row -> into_session_node row = Ok n ->
  node_id n = i /\ ancestry (rows d) i (path n) /\ depth n = zlen (path n) /\ zlen (path n) <= max /\
    root_id n = default i (head (path n)).
Proof.
  intros [Hnd Hok] Hmax Hrow Hn. destruct (row_of_Some i _ row Hrow) as [Hin Hi].
  rewrite list.Forall_forall in Hok. destruct (Hok row Hin) as (p & Hp & Ha & Hdep & Hpm & Hroot & _).
  destruct (into_node_inv row n Hn) as (Hid & _ & Hr & Hd & Hpath & _). rewrite Hp in Hpath. injection Hpath as Hpath.
  subst p. rewrite Hi in *. split_and!; [congruence|done| |done|by rewrite Hr, Hroot].
  rewrite Hd, Hdep. unfold u32_or_0, u32_of.
  rewrite (proj2 (Z.leb_le _ _) (zlen_nonneg (path n))), (proj2 (Z.leb_le _ _)); [done|].
  exact (Z.le_trans _ _ _ Hpm Hmax).
Qed.

Lemma type_column t : exists t', str_to_session_type (session_type_to_str t) = Ok t'.
Proof. by destruct t; eexists. Qed.
Lemma state_column s : str_to_state (state_to_str s) = Ok s.
Proof. by destruct s. Qed.

(** The guard of the manager's three callers of [create]. *)
Definition below (max : Z) (options : CreateSessionOptions) (d : Db) : Prop :=
  forall i row n, o_parent_id options = Some i -> row_of i (rows d) = Some row -> into_session_node row = Ok n ->
    depth n < max.

Lemma insert_row_spec r d :
  wp (insert_row r) (fun d' res =>
    (db_left d' <= db_left d)%nat /\
    match res with
    | Ok _ => rows d' = rows d ++ [r] /\ checkpoints d' = checkpoints d /\ (forall r', r' ∈ rows d -> r_id r' <> r_id r)
    | Err e => same_tables d d'
    end) d.
Proof.
  unfold insert_row. apply wp_sql; [intros; split; [lia|done]|]. intros d1 Hs Hl. pose proof Hs as [Hr Hc]. rewrite Hr.
  destruct (existsb _ (rows d)) eqn:E; [done|]. destruct (forallb _ _); [|done]. split_and!; try done; cbn.
  intros r' Hr' Heq. assert (existsb (fun r' => String.eqb (r_id r') (r_id r)) (rows d) = true); [|congruence].
  apply existsb_exists. exists r'. split; [by apply list_elem_of_In|]. by apply String.eqb_eq.
Qed.

(** Rows are only added, at the end. *)
Lemma create_spec max new_id now options d :
  tree_ok max d -> 0 <= max <= u32_MAX -> below max options d ->
  wp (create new_id now options) (fun d' r =>
    tree_ok max d' /\ (db_left d' <= db_left d)%nat /\ checkpoints d' = checkpoints d /\
    (rows d' = rows d \/ exists row, rows d' = rows d ++ [row] /\ r_id row = new_id /\ r_state row = "active"%string /\
       r_parent_id row = o_parent_id options /\ row_of new_id (rows d) = None) /\
    match r with
    | Ok n => node_id n = new_id /\ rows d' <> rows d
    | Err _ => True
    end) d.
Proof.
  intros Htree Hmax Hbelow. unfold create. apply wp_bind.
  apply (wp_mono _ (fun d1 r => same_tables d d1 /\ (db_left d1 <= db_left d)%nat /\
    match r with
    | Ok (root, dep, json) => exists p, path_of_json json = Ok p /\ dep = zlen p /\ zlen p <= max /\
        root = default new_id (head p) /\
        match o_parent_id options with None => p = [] | Some q => exists pq, p = pq ++ [q] /\ ancestry (rows d) q pq end
    | Err _ => True end)).
  { destruct (o_parent_id options) as [q|] eqn:Eq.
    - apply wp_bind. eapply wp_mono; [apply get_spec|]. intros d1 r (Hs & Hl & Hr). destruct r as [n|]; [|done].
      destruct Hr as (row & Hrow & Hn). destruct (get_node max q d n row Htree ltac:(lia) Hrow Hn) as (Hid & Ha & Hd & _ & Hroot).
      pose proof (Hbelow q row n Eq Hrow Hn) as Hlt. destruct (path_total (path n ++ [node_id n])) as [json Hj].
      rewrite Hj. apply wp_bind, wp_lift. cbn. apply wp_ret. split_and!; [done|done|].
      exists (path n ++ [node_id n]). rewrite (path_roundtrip _ _ Hj). rewrite zlen_app in *. change (zlen [node_id n]) with 1.
      unfold wrapping. rewrite Z.mod_small by (unfold u32_MAX in *; pose proof (zlen_nonneg (path n)); lia).
      split_and!; [done|lia|lia| |by exists (path n); rewrite Hid]. rewrite Hroot, Hid. by destruct (path n).
    - apply wp_ret. split_and!; [done|done|]. exists []. rewrite (path_roundtrip _ _ path_empty).
      split_and!; try done. change (zlen (@nil string)) with 0. lia. }
  intros d1 r (Hs1 & Hl1 & Hr). pose proof Hs1 as [Hrows1 Hc1].
  destruct r as [[[root dep] json]|e]; [|split_and!; [by apply (tree_ok_same max d)|done|done|by left|done]].
  destruct Hr as (p & Hj & -> & Hp & -> & Hpar). apply wp_bind. eapply wp_mono; [apply insert_row_spec|].
  intros d2 r (Hl2 & Hr). destruct r as [[]|e].
  2: { pose proof (same_trans _ _ _ Hs1 Hr) as Hs. split_and!; [by apply (tree_ok_same max d)|lia|apply Hs|left; apply Hs|done]. }
  destruct Hr as (Hrows & Hc & Hfresh). rewrite Hrows1 in *. cbn in Hfresh.
  assert (Htree2 : tree_ok max d2).
  { eapply tree_ok_insert with (p := p); [exact Hrows|done|done|done|done|done|done|apply type_column| |done].
    by exists Active. }
  eapply wp_mono; [apply get_spec|]. intros d3 r (Hs3 & Hl3 & Hr). pose proof Hs3 as [Hrows3 Hc3].
  split; [by apply (tree_ok_same max d2)|]. split; [lia|]. split; [congruence|]. rewrite Hrows3, Hrows. split.
  - right. eexists. split_and!; [done|done|done|done|]. destruct (row_of new_id (rows d)) as [row|] eqn:E; [|done].
    apply row_of_Some in E as [Hin Hi]. by destruct (Hfresh row Hin).
  - destruct r as [n|]; [|done]. destruct Hr as (row & Hrow & Hn). rewrite Hrows in Hrow.
    apply row_of_Some in Hrow as [_ Hi]. destruct (into_node_inv row n Hn) as [-> _]. split; [done|].
    intros Heq%(f_equal length). rewrite length_app in Heq. cbn in Heq. lia.
Qed.

Lemma delete_effect i d :
  wp (delete i) (fun d' r =>
    (db_left d' <= db_left d)%nat /\
    let rest := filter (fun r => r_id r <> i) (rows d) in
    match r with
    | Ok _ => rows d' = rest /\ checkpoints d' = filter (fun c => c_session_id c <> i) (checkpoints d) /\
              is_Some (row_of i (rows d)) /\ existsb (references i) rest = false
    | Err e => checkpoints d' = checkpoints d /\
               (rows d' = rows d /\
                  ((db_left d' < db_left d)%nat \/ row_of i (rows d) = None \/
                   existsb (references i) rest = true /\ e = StorageError "FOREIGN KEY constraint failed") \/
                rows d' = rest /\ (db_left d' < db_left d)%nat /\ existsb (references i) rest = false)
    end) d.
Proof.
  unfold delete, delete_row. apply wp_bind, wp_sql; [intros d' e [Hr Hc] Hl; split; [lia|]; split; [done|]; left; auto|].
  intros d1 [Hr Hc] Hl. rewrite Hr. destruct (existsb _ _) eqn:E; [split; [done|]; split; [done|]; left; auto|].
  assert (Hrow : row_of i (rows d) = None -> filter (fun r => r_id r = i) (rows d) = [] /\ filter (fun r => r_id r <> i) (rows d) = rows d).
  { intros Hn. pose proof (row_of_None i _ Hn) as Hall. split.
    - apply (filter_key_none r_id), list.Forall_forall. auto.
    - clear -Hall. induction (rows d) as [|a l IH]; [done|]. rewrite filter_cons_True by (apply Hall; left).
      f_equal. apply IH. intros r Hr. apply Hall. by right. }
  destruct (row_of i (rows d)) as [row|] eqn:En.
  2: { destruct (Hrow eq_refl) as [-> ->]. cbn. split; [done|]. split; [done|]. left. split; [done|]. by right; left. }
  destruct (row_of_Some _ _ _ En) as [Hin Hi].
  assert (Hin' : row ∈ filter (fun r => r_id r = i) (rows d)) by (by apply list_elem_of_filter).
  destruct (filter (fun r => r_id r = i) (rows d)) as [|a l]; [by apply not_elem_of_nil in Hin'|]. cbn.
  apply wp_sql; cbn; unfold db_left in *; cbn in *.
  - intros d2 e [Hr2 Hc2] Hl2. cbn in *. split; [lia|]. split; [congruence|]. right. split_and!; [done|lia|done].
  - intros d2 [Hr2 Hc2] Hl2. cbn in *. split; [lia|]. split_and!; [done|by rewrite Hc2, Hc|by eexists|done].
Qed.
Lemma delete_spec max i d :
  tree_ok max d ->
  wp (delete i) (fun d' _ => tree_ok max d' /\
    (rows d' = rows d \/ rows d' = filter (fun r => r_id r <> i) (rows d))) d.
Proof.
  intros Htree. eapply wp_mono; [apply delete_effect|]. intros d' r [_ Hr]. cbv zeta in Hr. destruct r as [[]|e].
  - destruct Hr as (Hr & _ & _ & Hno). split; [by eapply tree_ok_delete|by right].
  - destruct Hr as (_ & [[Hr _]|(Hr & _ & Hno)]).
    + split; [unfold tree_ok; by rewrite Hr|by left].
    + split; [by eapply tree_ok_delete|by right].
Qed.

(** ** Every database the program reaches *)
Definition parent_of (l : list Row) (a b : string) : Prop := exists r, r ∈ l /\ r_id r = a /\ r_parent_id r = Some b.

Lemma ancestry_row l i p : ancestry l i p -> exists r, r ∈ l /\ r_id r = i.
Proof. intros Ha. inversion Ha as [r|r]; by exists r. Qed.
Lemma ancestry_rtc l j p i : NoDup (r_id <$> l) -> ancestry l j p -> rtc (parent_of l) j i <-> i = j \/ i ∈ p.
Proof.
  intros Hnd Ha. split.
  - intros Hr. revert p Ha. induction Hr as [j|j k i (r & Hr & <- & Hpar) _ IH]; intros p Ha; [by left|right].
    inversion Ha as [r' Hr' Hpar' Heq|r' k' p' Hr' Hpar' Ha' Heq];
      pose proof (row_of_elem l r Hnd Hr) as R1; pose proof (row_of_elem l r' Hnd Hr') as R2; [congruence|].
    assert (k' = k) as -> by congruence. destruct (IH p' Ha') as [->|Hin]; apply elem_of_app; [right; left|by left].
  - induction Ha as [r Hr Hpar|r q p Hr Hpar Ha IH].
    + by intros [->|?%not_elem_of_nil]; [apply rtc_refl|].
    + intros [->|[Hin|Hin%list_elem_of_singleton]%elem_of_app]; [apply rtc_refl| |];
        (apply (rtc_l _ _ q); [by exists r|]); apply IH; auto.
Qed.
Lemma ancestry_NoDup l i p : NoDup (r_id <$> l) -> ancestry l i p -> NoDup p.
Proof.
  intros Hnd. induction 1 as [r Hr Hpar|r q p Hr Hpar Ha IH]; [apply NoDup_nil_2|].
  apply list.NoDup_app. split_and!; [done| |apply NoDup_singleton].
  intros x Hx ->%list_elem_of_singleton. apply list_elem_of_split in Hx as (p1 & p2 & ->).
  pose proof (ancestry_split l q _ p1 (q :: p2) Ha eq_refl) as Ha'. cbn in Ha'.
  pose proof (ancestry_det l q _ _ Hnd Ha Ha') as Heq. apply (f_equal length) in Heq.
  rewrite length_app in Heq. cbn in Heq. lia.
Qed.

Lemma into_nodes_Forall2 l ns : into_session_nodes l = Ok ns -> Forall2 (fun r n => into_session_node r = Ok n) l ns.
Proof.
  revert ns. induction l as [|r l IH]; intros ns; cbn; [intros [= <-]; constructor|].
  destruct (into_session_node r) as [n|] eqn:E; [|done]. cbn.
  destruct (into_session_nodes l) as [ns'|]; [|done]. intros [= <-]. constructor; auto.
Qed.
Lemma into_nodes_elem l ns n :
  into_session_nodes l = Ok ns -> n ∈ ns <-> exists r, r ∈ l /\ into_session_node r = Ok n.
Proof.
  intros Hf%into_nodes_Forall2. induction Hf as [|r m l ns Hr Hf IH].
  - split; [by intros ?%not_elem_of_nil|]. by intros (? & ?%not_elem_of_nil & _).
  - rewrite elem_of_cons, IH. split.
    + intros [->|(r' & ? & ?)]; [exists r; split; [left|done]|exists r'; split; [by right|done]].
    + intros (r' & [->|Hin]%elem_of_cons & Hn); [left; congruence|right; by exists r'].
Qed.

Lemma in_path_order_ids p nodes :
  NoDup p -> (forall a, a ∈ p -> exists n, n ∈ nodes /\ node_id n = a) -> node_id <$> in_path_order p nodes = p.
Proof.
  revert nodes. induction p as [|a p IH]; intros nodes; [done|]. intros [Ha Hnd]%list.NoDup_cons Hall. cbn.
  destruct (List.find _ nodes) as [n|] eqn:E.
  - apply List.find_some in E as [_ Hn%String.eqb_eq]. cbn. rewrite Hn. f_equal. apply IH; [done|].
    intros b Hb. destruct (Hall b ltac:(by right)) as (m & Hm & Hmb). exists m. split; [|done].
    apply list_elem_of_filter. split; [|done]. intros Heq. apply Ha. congruence.
  - destruct (Hall a ltac:(left)) as (m & Hm%list_elem_of_In & Hma).
    pose proof (List.find_none _ _ E m Hm) as Hx. cbn in Hx. by apply String.eqb_neq in Hx.
Qed.

Context (config : SessionConfig).
(** One call of the manager on the session store.  [branch], [fork_session] and
    [delete_session] check the depth, or the transition, of the node they read
    before; reads change no table. *)
Inductive db_step : Db -> Db -> Prop :=
| step_create_session new_id now o d : db_step d (create_session config new_id now o d).1
| step_transition now i st d : db_step d (transition_state now i st d).1
| step_branch new_id now i t d : db_step d (branch config new_id now i t d).1
| step_fork new_id now i agent t d :
    below (max_depth config) (mkOptions (Some i) Branch agent t) d ->
    db_step d (create new_id now (mkOptions (Some i) Branch agent t) d).1
| step_tombstone now i d : db_step d (set_state now i Tombstone d).1
| step_metadata now i t n m d : db_step d (update_metadata now i t n m d).1
| step_title now i t d : db_step d (update_title now i t d).1
| step_manual_title now i t d : db_step d (manager_set_manual_title now i t d).1
| step_reset_index now i n d : db_step d (manager_set_context_reset_index now i n d).1
| step_prompt now i p d : db_step d (manager_set_custom_system_prompt now i p d).1
| step_delete i d : db_step d (delete i d).1
| step_save_checkpoint t c d : db_step d (save_checkpoint t c d).1
| step_invalidate i n d : db_step d (invalidate_after i n d).1
| step_read d d' : same_tables d d' -> db_step d d'.

(** The rows of one step to the next: kept in place with a state that follows,
    or gone, or new. *)
Definition follows (s s' : string) : Prop :=
  s' = s \/ exists a b, str_to_state s = Ok a /\ str_to_state s' = Ok b /\ is_valid_transition a b = true.
Definition step_ok (d d' : Db) : Prop :=
  tree_ok (max_depth config) d ->
  tree_ok (max_depth config) d' /\
  forall i r, row_of i (rows d) = Some r ->
    match row_of i (rows d') with Some r' => same_place r r' /\ follows (r_state r) (r_state r') | None => True end.

Lemma row_of_app i l r : row_of i l = None -> row_of i (l ++ [r]) = if String.eqb (r_id r) i then Some r else None.
Proof. unfold row_of. induction l as [|a l IH]; cbn; [done|]. by destruct (String.eqb (r_id a) i). Qed.
Lemma row_of_app_Some i l r l' : row_of i l = Some r -> row_of i (l ++ l') = Some r.
Proof. unfold row_of. induction l as [|a l IH]; cbn; [done|]. by destruct (String.eqb (r_id a) i). Qed.
Lemma row_of_fmap i l f :
  (forall r, r_id (f r) = r_id r) -> row_of i (f <$> l) = f <$> row_of i l.
Proof.
  intros Hf. unfold row_of. induction l as [|a l IH]; cbn; [done|]. rewrite Hf. by destruct (String.eqb (r_id a) i).
Qed.
Lemma row_of_filter i j l r :
  row_of i l = Some r -> row_of i (filter (fun r => r_id r <> j) l) = if String.eqb i j then None else Some r.
Proof.
  unfold row_of. induction l as [|a l IH]; [done|]. rewrite filter_cons. cbn [List.find].
  destruct (String.eqb_spec (r_id a) i) as [Hi|Hi].
  - intros [= <-]. subst i. destruct (String.eqb_spec (r_id a) j) as [Hj|Hj]; case_decide; try done; cbn.
    + clear IH. induction l as [|b l IH]; [done|]. rewrite filter_cons. case_decide; cbn; [|done].
      destruct (String.eqb_spec (r_id b) (r_id a)); [congruence|done].
    + by rewrite String.eqb_refl.
  - intros Hr. case_decide; cbn; [|by apply IH]. rewrite (proj2 (String.eqb_neq _ _)) by done. by apply IH.
Qed.
Lemma row_of_filter_ne i j l : i <> j -> row_of i (filter (fun r => r_id r <> j) l) = row_of i l.
Proof.
  intros Hij. unfold row_of. induction l as [|a l IH]; [done|]. rewrite filter_cons. cbn [List.find].
  case_decide as Hd; cbn [List.find]; [by rewrite IH|]. rewrite (proj2 (String.eqb_neq (r_id a) i)); [done|].
  intros Heq. congruence.
Qed.
Lemma row_of_filter_eq i l : row_of i (filter (fun r => r_id r <> i) l) = None.
Proof.
  unfold row_of. induction l as [|a l IH]; [done|]. rewrite filter_cons. case_decide; cbn [List.find]; [|done].
  by rewrite (proj2 (String.eqb_neq _ _)).
Qed.
Lemma same_place_refl r : same_place r r.
Proof. by split_and!. Qed.

Lemma step_same d d' : same_tables d d' -> step_ok d d'.
Proof.
  intros Hs Htree. split; [by apply (tree_ok_same _ d)|]. intros i r Hr. destruct Hs as [-> _]. rewrite Hr.
  split; [apply same_place_refl|by left].
Qed.
(** Updates of one row. *)
Lemma step_update i f d :
  (forall r, same_place r (f r)) ->
  (forall r a, row_of i (rows d) = Some r -> str_to_state (r_state r) = Ok a -> follows (r_state r) (r_state (f r))) ->
  wp (update_row i f) (fun d' _ => step_ok d d') d.
Proof.
  intros Hp Hf. eapply wp_mono; [apply update_row_spec|]. intros d' r [_ Hr].
  destruct r as [[]|e]; [|apply step_same; by destruct Hr]. destruct Hr as (Hrows & _ & _). intros Htree.
  set (g := fun r => if String.eqb (r_id r) i then f r else r).
  assert (Hg : forall r, same_place r (g r)).
  { intros r. unfold g. destruct (String.eqb (r_id r) i); [apply Hp|apply same_place_refl]. }
  assert (Hgs : forall r, r ∈ rows d -> follows (r_state r) (r_state (g r))).
  { intros r Hr. unfold g. destruct (String.eqb_spec (r_id r) i); [|by left]. destruct Htree as [Hnd Hok].
    rewrite list.Forall_forall in Hok. destruct (Hok r Hr) as (p & _ & _ & _ & _ & _ & _ & a & Ha).
    apply (Hf r a); [|done]. subst i. by apply row_of_elem. }
  split.
  - eapply (tree_ok_update _ d d' g); [|done|done]. intros r Hr. split; [apply Hg|]. intros Ha.
    destruct (Hgs r Hr) as [->|(a & b & _ & Hb & _)]; [done|by exists b].
  - intros j r Hr. rewrite Hrows. fold g. rewrite row_of_fmap by (intros r'; apply Hg). rewrite Hr. cbn.
    split; [apply Hg|]. apply Hgs. by apply row_of_Some in Hr as [Hin _].
Qed.
Lemma step_create max new_id now o d :
  max = max_depth config -> 0 <= max <= u32_MAX -> below max o d ->
  wp (create new_id now o) (fun d' _ => step_ok d d') d.
Proof.
  intros -> Hmax Hb. unfold wp. intros Htree.
  pose proof (create_spec _ new_id now o d Htree Hmax Hb) as (Ht & _ & _ & Hr & _). split; [done|]. intros i r Hi.
  destruct Hr as [->|(row & -> & _)].
  - rewrite Hi. split; [apply same_place_refl|by left].
  - rewrite (row_of_app_Some _ _ _ _ Hi). split; [apply same_place_refl|by left].
Qed.
Lemma step_ok_trans d d1 d2 : same_tables d d1 -> step_ok d1 d2 -> step_ok d d2.
Proof. intros Hs H1 Htree. destruct (H1 (tree_ok_same _ d d1 Hs Htree)) as [Ht Hr]. split; [done|]. destruct Hs as [Hrows _]. by rewrite Hrows in Hr. Qed.

(** Checking the parent's depth, then [create]. *)
Lemma step_checked new_id now i d (f : SessionNode -> CreateSessionOptions) :
  0 <= max_depth config <= u32_MAX -> (forall n, o_parent_id (f n) = Some i) ->
  wp (parent ← eff_map_err from_session_error (get i);
      lift (check_depth config parent);; eff_map_err from_session_error (create new_id now (f parent)))
     (fun d' _ => step_ok d d') d.
Proof.
  intros Hmax Ho. apply wp_bind, wp_map_err. eapply wp_mono; [apply get_spec|]. intros d1 r (Hs & _ & Hr).
  destruct r as [n|e]; cbn; [|by apply step_same]. destruct Hr as (row & Hrow & Hn). apply wp_bind, wp_lift.
  unfold check_depth. destruct (Z.leb_spec (max_depth config) (depth n)); [by apply step_same|].
  apply wp_map_err. eapply wp_mono; [eapply (step_create (max_depth config)); [done|done|]|].
  - intros j row' n' Hj Hrow' Hn'. rewrite Ho in Hj. injection Hj as <-. destruct Hs as [Hrows _].
    rewrite Hrows, Hrow in Hrow'. injection Hrow' as <-. rewrite Hn in Hn'. by injection Hn' as <-.
  - intros d2 r2. by apply step_ok_trans.
Qed.

Lemma str_to_state_inj s a : str_to_state s = Ok a -> s = state_to_str a.
Proof.
  unfold str_to_state. repeat case_match; intros [= <-];
    match goal with Hs : String.eqb s _ = true |- _ => by apply String.eqb_eq in Hs end.
Qed.
Lemma transition_step now i st d : step_ok d (transition_state now i st d).1.
Proof.
  change (wp (transition_state now i st) (fun d' _ => step_ok d d') d). unfold transition_state.
  apply wp_bind, wp_map_err. eapply wp_mono; [apply get_spec|]. intros d1 r (Hs & _ & Hr).
  destruct r as [n|e]; cbn; [|by apply step_same]. destruct Hr as (row & Hrow & Hn). apply wp_bind, wp_lift.
  unfold validate_transition. case_bool_decide; [by apply step_same|].
  destruct (is_valid_transition (state n) st) eqn:Ev; [|by apply step_same].
  apply wp_map_err. eapply wp_mono; [apply (step_update i _ d1)|].
  - intros r. by split_and!.
  - intros r a Hr Ha. right. exists a, st. cbn. rewrite state_column. split_and!; [done|done|].
    destruct Hs as [Hrows _]. rewrite Hrows, Hrow in Hr. injection Hr as <-.
    destruct (into_node_inv row n Hn) as (_ & _ & _ & _ & _ & Hst & _). congruence.
  - intros d2 r2. by apply step_ok_trans.
Qed.
Lemma tombstone_step now i d : step_ok d (set_state now i Tombstone d).1.
Proof.
  apply (step_update i _ d); [intros r; by split_and!|]. intros r a Hr Ha. destruct (decide (a = Tombstone)) as [->|Hne].
  - left. cbn. by apply str_to_state_inj in Ha.
  - right. exists a, Tombstone. cbn. split_and!; [done|done|]. by destruct a.
Qed.
Lemma db_step_ok d d' : 0 <= max_depth config <= u32_MAX -> db_step d d' -> step_ok d d'.
Proof.
  intros Hmax Hstep.
  assert (Hupd : forall i f dd, (forall r, same_place r (f r)) -> (forall r, r_state (f r) = r_state r) ->
    step_ok dd (update_row i f dd).1).
  { intros i f dd Hf Hs. apply (step_update i f dd Hf). intros r a _ _. left. by rewrite Hs. }
  assert (Herr : forall A (c : Eff Db SessionError A) dd, (eff_map_err from_session_error c dd).1 = (c dd).1).
  { intros A c dd. unfold eff_map_err. by destruct (c dd). }
  assert (Hcps : forall A (run : Db -> Result string (Db * A)) dd,
    (forall d1 d2 a, run d1 = Ok (d2, a) -> rows d2 = rows d1) -> step_ok dd (sql run dd).1).
  { intros A run dd Hrun Htree.
    assert (Hrows : rows (sql run dd).1 = rows dd).
    { change (wp (sql run) (fun d' _ => rows d' = rows dd) dd). apply wp_sql; [by intros ? ? [? _] _|].
      intros d1 [Hr _] _. destruct (run d1) as [[d2 a]|] eqn:E; [|done]. rewrite (Hrun _ _ _ E). done. }
    split; [unfold tree_ok; by rewrite Hrows|]. intros i r Hr. rewrite Hrows, Hr. split; [apply same_place_refl|by left]. }
  destruct Hstep; unfold update_title, manager_set_manual_title, manager_set_context_reset_index,
    manager_set_custom_system_prompt; rewrite ?Herr;
    unfold update_metadata, set_title, set_manual_title, set_context_reset_index, set_custom_system_prompt;
    try (apply Hupd; [intros r; by split_and!|done]).
  - change (wp (create_session config new_id now o) (fun d' _ => step_ok d d') d). unfold create_session.
    destruct (o_parent_id o) as [p|] eqn:Ep.
    + pose proof (step_checked new_id now p d (fun _ => o) Hmax ltac:(done)) as Hs. unfold wp, mbind, Eff_bind in *.
      destruct (eff_map_err _ (get p) d) as [d1 [n|e]]; [|done]. by destruct (lift _ d1) as [d2 [[]|]].
    + apply wp_bind, wp_ret, wp_map_err. eapply (step_create (max_depth config)); [done|done|]. intros i row n Hi. congruence.
  - apply transition_step.
  - by apply (step_checked new_id now i d (fun n => mkOptions (Some i) Branch (agent_id n) t)).
  - by apply (step_create (max_depth config)).
  - apply tombstone_step.
  - intros Htree. pose proof (delete_spec _ i d Htree) as (Ht & Hr). split; [done|]. intros j r Hj.
    destruct Hr as [-> | ->].
    + rewrite Hj. split; [apply same_place_refl|by left].
    + rewrite (row_of_filter _ _ _ _ Hj). destruct (String.eqb j i); [done|]. split; [apply same_place_refl|by left].
  - apply Hcps. intros d1 d2 a. cbv zeta. destruct (existsb _ _); [done|]. by intros [= <- _].
  - unfold invalidate_after. apply (wp_eq _ (fun d' _ => step_ok d d') d _ _ (surjective_pairing _)).
    apply wp_bind. unfold wp. set (run := fun d0 : Db => _). pose proof (Hcps _ run d) as Hc.
    destruct (sql run d) as [d1 [c|e]]; cbn; apply Hc; subst run; by intros d2 d3 a [= <- _].
  - by apply step_same.
Qed.

Lemma reached_tree d d' : 0 <= max_depth config <= u32_MAX -> rows d = [] -> rtc db_step d d' -> tree_ok (max_depth config) d'.
Proof.
  intros Hmax Hd Hr. assert (H1 : tree_ok (max_depth config) d) by (unfold tree_ok; rewrite Hd; split; [apply NoDup_nil_2|by constructor]).
  clear Hd. induction Hr as [d|d d1 d2 Hs _ IH]; [done|]. apply IH. by destruct (db_step_ok d d1 Hmax Hs H1).
Qed.

Lemma descendants_spec d i d' l :
  0 <= max_depth config <= u32_MAX -> tree_ok (max_depth config) d -> descendants_including_self i d = (d', Ok l) ->
  forall n, n ∈ l <-> exists r, r ∈ rows d /\ into_session_node r = Ok n /\ rtc (parent_of (rows d)) (r_id r) i.
Proof.
  intros Hmax Htree Hd.
  apply (wp_eq _ (fun _ r => match r with Ok l => forall n, n ∈ l <-> exists r, r ∈ rows d /\ into_session_node r = Ok n /\
    rtc (parent_of (rows d)) (r_id r) i | Err _ => True end) _ _ _ Hd). clear Hd l d'.
  unfold descendants_including_self. apply wp_bind, wp_map_err. eapply wp_mono; [apply get_spec|].
  intros d1 r ([Hr1 _] & _ & Hr). destruct r as [cur|e]; [|done]. destruct Hr as (row & Hrow & Hcur). cbn.
  destruct (get_node _ i d cur row Htree ltac:(lia) Hrow Hcur) as (Hid & Ha & _ & _ & Hroot).
  unfold list_sessions. apply wp_bind, wp_map_err, wp_bind, wp_select; [done|]. intros d2 [Hr2 _] _.
  apply wp_lift. destruct (into_session_nodes _) as [ns|e] eqn:En; [|done]. unfold wp. cbn. intros n.
  rewrite list_elem_of_filter, (into_nodes_elem _ _ _ En), Hid. destruct Htree as [Hnd Hok].
  assert (Hin : forall r, r ∈ sort_by by_created_at (filter (fun r => matches_filter (mkFilter None None None (Some (root_id cur))) r = true) (rows d2))
    <-> r ∈ rows d /\ r_root_id r = root_id cur).
  { intros r. rewrite (sort_by_perm by_created_at), list_elem_of_filter, Hr2, Hr1. unfold matches_filter. cbn.
    rewrite String.eqb_eq. naive_solver. }
  split.
  - intros [Hn (r & Hr & Hi)]. exists r. apply Hin in Hr as [Hr _]. split_and!; [done|done|].
    destruct (get_node _ (r_id r) d n r (conj Hnd Hok) ltac:(lia) (row_of_elem _ _ Hnd Hr) Hi) as (Hni & Har & _).
    rewrite (ancestry_rtc _ _ _ i Hnd Har). rewrite <- Hni. destruct Hn as [->|Hn]; auto.
  - intros (r & Hr & Hi & Hrtc).
    destruct (get_node _ (r_id r) d n r (conj Hnd Hok) ltac:(lia) (row_of_elem _ _ Hnd Hr) Hi) as (Hni & Har & _ & _ & Hroot').
    apply (ancestry_rtc _ _ _ i Hnd Har) in Hrtc. split; [rewrite Hni; naive_solver|]. exists r. split; [|done].
    apply Hin. split; [done|]. destruct (into_node_inv r n Hi) as (_ & _ & <- & _). rewrite Hroot', Hroot.
    destruct Hrtc as [->|Hp]; [by rewrite (ancestry_det _ _ _ _ Hnd Ha Har)|].
    apply list_elem_of_split in Hp as (p1 & p2 & Hp). rewrite Hp in *.
    pose proof (ancestry_split _ _ _ p1 (i :: p2) Har eq_refl) as Hai. cbn in Hai.
    rewrite (ancestry_det _ _ _ _ Hnd Ha Hai). by destruct p1.
Qed.

Lemma ancestors_spec d i d' l :
  0 <= max_depth config <= u32_MAX -> tree_ok (max_depth config) d -> manager_ancestors i d = (d', Ok l) ->
  ancestry (rows d) i (node_id <$> l) /\ forall n, n ∈ l -> exists r, r ∈ rows d /\ into_session_node r = Ok n.
Proof.
  intros Hmax Htree Hd.
  apply (wp_eq _ (fun _ r => match r with Ok l => ancestry (rows d) i (node_id <$> l) /\
    forall n, n ∈ l -> exists r, r ∈ rows d /\ into_session_node r = Ok n | Err _ => True end) _ _ _ Hd). clear Hd l d'.
  unfold manager_ancestors. apply wp_map_err. unfold ancestors. apply wp_bind. eapply wp_mono; [apply get_spec|].
  intros d1 r ([Hr1 _] & _ & Hr). destruct r as [cur|e]; [|done]. destruct Hr as (row & Hrow & Hcur).
  destruct (get_node _ i d cur row Htree ltac:(lia) Hrow Hcur) as (Hid & Ha & _ & _ & _).
  destruct (path cur) as [|a p] eqn:Ep; [apply wp_ret; split; [done|by intros n ?%not_elem_of_nil]|]. rewrite <- Ep in *.
  apply wp_bind, wp_select; [done|]. intros d2 [Hr2 _] _. apply wp_bind, wp_lift.
  destruct (into_session_nodes _) as [ns|e] eqn:En; [|done]. apply wp_ret. cbn.
  destruct Htree as [Hnd Hok]. rewrite Hr2, Hr1 in En.
  assert (Hns : forall n, n ∈ ns <-> exists r, (r_id r ∈ path cur /\ r ∈ rows d) /\ into_session_node r = Ok n).
  { intros n. rewrite (into_nodes_elem _ _ _ En). by setoid_rewrite list_elem_of_filter. }
  rewrite in_path_order_ids.
  - split; [done|]. intros n Hn. assert (Hin : n ∈ ns).
    { clear -Hn. revert ns Hn. induction (path cur) as [|b q IH]; intros ns; cbn; [by intros ?%not_elem_of_nil|].
      destruct (List.find _ ns) as [m|] eqn:E; [|apply IH]. intros [->|Hn]%elem_of_cons.
      - apply List.find_some in E as [E _]. by apply list_elem_of_In.
      - by apply IH, list_elem_of_filter in Hn as [_ ?]. }
    apply Hns in Hin as (r & [_ ?] & ?). by exists r.
  - by eapply ancestry_NoDup.
  - intros b Hb. pose proof Hb as Hb'. apply list_elem_of_split in Hb' as (p1 & p2 & Hp).
    pose proof (ancestry_split _ _ _ p1 (b :: p2) Ha Hp) as Hab. cbn in Hab. destruct (ancestry_row _ _ _ Hab) as (r & Hr & Hi).
    apply into_nodes_Forall2 in En. assert (Hrf : r ∈ filter (fun r => r_id r ∈ path cur) (rows d)).
    { apply list_elem_of_filter. by rewrite Hi. }
    apply list_elem_of_lookup_1 in Hrf as [k Hk]. destruct (Forall2_lookup_l _ _ _ _ _ En Hk) as (n & Hn & Hnr).
    exists n. split; [by eapply list_elem_of_lookup_2|]. destruct (into_node_inv r n Hnr) as [-> _]. done.
Qed.

(** C24: in every database the manager reaches from an empty one, whichever
    statements fail: each row's columns decode, its path is its line of
    ancestors up to a root, its depth is the path's length and within the limit,
    and its root is the path's first; the descendants of a session are exactly
    the sessions from which following parents reaches it, and its ancestors the
    line from the root down; a step leaves the place of the other rows and moves
    a state only along the state machine. *)
Theorem session_tree (d0 d : Db) :
  0 <= max_depth config <= u32_MAX -> rows d0 = [] -> rtc db_step d0 d ->
  tree_ok (max_depth config) d /\
  (forall i d' l, descendants_including_self i d = (d', Ok l) ->
     forall n, n ∈ l <-> exists r, r ∈ rows d /\ into_session_node r = Ok n /\ rtc (parent_of (rows d)) (r_id r) i) /\
  (forall i d' l, manager_ancestors i d = (d', Ok l) ->
     ancestry (rows d) i (node_id <$> l) /\ forall n, n ∈ l -> exists r, r ∈ rows d /\ into_session_node r = Ok n) /\
  (forall d' i r r', db_step d d' -> row_of i (rows d) = Some r -> row_of i (rows d') = Some r' ->
     same_place r r' /\ follows (r_state r) (r_state r')).
Proof.
  intros Hmax Hd Hr. pose proof (reached_tree d0 d Hmax Hd Hr) as Htree. split_and!; [done| | |].
  - intros i d' l. by apply descendants_spec.
  - intros i d' l. by apply ancestors_spec.
  - intros d' i r r' Hs Hi Hi'. destruct (db_step_ok d d' Hmax Hs Htree) as [_ Hrows].
    specialize (Hrows i r Hi). by rewrite Hi' in Hrows.
Qed.
End tree.

(** ** A database of three sessions *)
Fixpoint encode_item (s : string) : string :=
  match s with EmptyString => ";" | String c s => String (byte 39) (String c (encode_item s)) end.
Fixpoint encode_items (l : list string) : string :=
  match l with [] => "" | s :: l => encode_item s +:+ encode_items l end.
Fixpoint decode_items (cur s : string) : option (list string) :=
  match s with
  | EmptyString => if String.eqb cur "" then Some [] else None
  | String m s =>
      if Ascii.eqb m (byte 59) then cons cur <$> decode_items "" s
      else match s with String c s => decode_items (cur +:+ String c "") s | EmptyString => None end
  end.
#[export] Instance sample_columns : Columns := {
  path_to_json l := Ok (match l with [] => "[]"%string | l => encode_items l end);
  path_of_json s := if String.eqb s "[]" then Ok [] else ok_or "expected value"%string (decode_items "" s);
  parse_from_rfc3339 s :=
    if String.eqb s "" then Err "premature end of input"%string else Ok (Z.of_nat (String.length s));
}.
Lemma decode_item cur s rest :
  decode_items cur (encode_item s +:+ rest) = cons (cur +:+ s) <$> decode_items "" rest.
Proof.
  revert cur. induction s as [|c s IH]; intros cur; [by rewrite append_nil_r|].
  change (decode_items (cur +:+ String c "") (encode_item s +:+ rest) = cons (cur +:+ String c s) <$> decode_items "" rest).
  by rewrite IH, append_assoc.
Qed.
Lemma decode_encode l : decode_items "" (encode_items l) = Some l.
Proof. induction l as [|s l IH]; [done|]. cbn [encode_items]. by rewrite decode_item, IH. Qed.
#[export] Instance sample_column_laws : ColumnLaws.
Proof.
  split; [by eexists|done|]. intros l s [= <-]. destruct l as [|x l]; [done|].
  unfold path_of_json, sample_columns. rewrite decode_encode.
  destruct (String.eqb_spec (encode_items (x :: l)) "[]") as [Heq|]; [|done]. by destruct x.
Qed.

Definition sample_config : SessionConfig := mkConfig default_max_depth.
Definition sample_db0 : Db := mkDb [] [] [None; None; Some "disk I/O error"%string].
Definition sample_db1 : Db := (create_session sample_config "a" "t1" (mkOptions None Main None (Some "root"%string)) sample_db0).1.
Definition sample_db2 : Db := (branch sample_config "b" "t2" "a" None sample_db1).1.
Definition sample_db3 : Db := (branch sample_config "b" "t3" "a" None sample_db2).1.
Definition sample_db : Db := (branch sample_config "c" "t4" "b" (Some "leaf"%string) sample_db3).1.
(** A transition awaits the store twice, with no lock held in between: of two at the same
    time each may find the session active, and the session that one of them has made a
    tombstone is then paused by the other.  [transition_state] is one step here. *)
Definition check_transition (i : SessionId) (new_state : SessionState) : Eff Db SessionManagerError unit :=
  current ← eff_map_err from_session_error (get i); lift (validate_transition (state current) new_state).
Lemma transition_halves now i st d :
  transition_state now i st d = (check_transition i st;; eff_map_err from_session_error (set_state now i st)) d.
Proof. unfold transition_state, check_transition, mbind, Eff_bind. by destruct ((eff_map_err from_session_error (get i)) d) as [d' [x|e]]. Qed.
Theorem transition_race :
  let d := (create_session sample_config "a" "t1" (mkOptions None Main None None) (mkDb [] [] [])).1 in
  (check_transition "a" Tombstone d).2 = Ok tt /\ (check_transition "a" Paused d).2 = Ok tt /\
  (let '(d1, r1) := set_state "t2" "a" Tombstone d in let '(d2, r2) := set_state "t3" "a" Paused d1 in
   r1 = Ok tt /\ r2 = Ok tt /\ (state <$> (get "a" d1).2) = Ok Tombstone /\ (state <$> (get "a" d2).2) = Ok Paused) /\
  is_valid_transition Tombstone Paused = false.
Proof. split_and!; vm_compute; repeat split; reflexivity. Qed.

Theorem session_tree_witness :
  match (manager_ancestors "c" sample_db).2 with Ok l => node_id <$> l = ["a"; "b"]%string | Err _ => False end /\
  tree_ok default_max_depth sample_db /\
  forall d' l, descendants_including_self "b" sample_db = (d', Ok l) ->
     forall n, n ∈ l <-> exists r, r ∈ rows sample_db /\ into_session_node r = Ok n /\ rtc (parent_of (rows sample_db)) (r_id r) "b".
Proof.
  assert (H1 : 0 <= max_depth sample_config <= u32_MAX) by (vm_compute; split; discriminate).
  assert (H2 : rtc (db_step sample_config) sample_db0 sample_db).
  { eapply rtc_l; [apply step_create_session|]. eapply rtc_l; [apply step_branch|].
    eapply rtc_l; [apply step_branch|]. eapply rtc_l; [apply step_branch|]. apply rtc_refl. }
  split; [vm_compute; reflexivity|].
  destruct (session_tree sample_config sample_db0 sample_db H1 eq_refl H2) as (Ht & Hd & _ & _).
  split; [exact Ht|]. exact (Hd "b"%string).
Defined.
