(* ===== verification/Session.v ===== *)
(** * Changes across the session stores

    Models the methods of [crates/hf-session/src/manager.rs] that write both
    transcripts and the metadata, and [checkpoint.rs].  The transcript stores are
    an interface ([SessionCore.TranscriptStore], implemented by [Transcript]),
    the database is [SessionDb].  A method that fails half-way undoes what it
    did; undoing can fail too. *)
From S2P Require Import Prelude Effect SessionCore Transcript SessionDb SessionTree.

Section session.
Context {C D M : Type} `{storeC : TranscriptStore C M, storeD : TranscriptStore D M, Columns}.
Context (config : SessionConfig) (now : string).

(** ** The stores of a manager *)
Record World := mkWorld {
  ctx : C;
  disp : D;
  db : Db;
}.
Definition Part (k : Kind) : Type := match k with Context => C | Display => D end.
#[local] Instance part_store (k : Kind) : TranscriptStore (Part k) M :=
  match k with Context => storeC | Display => storeD end.
Definition part (k : Kind) (w : World) : Part k := match k with Context => ctx w | Display => disp w end.
Definition put (k : Kind) : Part k -> World -> World :=
  match k with
  | Context => fun t w => mkWorld t (disp w) (db w)
  | Display => fun t w => mkWorld (ctx w) t (db w)
  end.
Definition with_db (d : Db) (w : World) : World := mkWorld (ctx w) (disp w) d.

Definition on {E A} (k : Kind) (c : Eff (Part k) E A) : Eff World E A := zoom (part k) (put k) c.
Definition on_db {E A} (c : Eff Db E A) : Eff World E A := zoom db with_db c.

(** [.map_err(|error| Transcript { format!(prefix error) })] and [?] with [From]. *)
Definition transcript_err (prefix : string) (e : SessionError) : SessionManagerError :=
  MTranscript (prefix +:+ display_error e).
Notation "'store!' c" := (eff_map_err from_session_error (on_db c)) (at level 10).

Definition compensated_error (operation : string) (original : SessionManagerError)
    (compensation : Result SessionManagerError unit) : SessionManagerError :=
  MOther (match compensation with
          | Ok _ => operation +:+ " failed and was rolled back: " +:+ display_manager_error original
          | Err rollback =>
              operation +:+ " failed: " +:+ display_manager_error original +:+ "; compensation also failed: "
              +:+ display_manager_error rollback
          end).

(** ** Appending *)
Record TranscriptSnapshot := mkSnapshot {
  context_count : nat;
  display_count : nat;
  s_token_count : Z;
  s_message_count : Z;
}.
Definition transcript_snapshot (i : SessionId) (session : SessionNode) : Eff World SessionManagerError TranscriptSnapshot :=
  d ← eff_map_err (transcript_err "count display transcript: ") (on Display (count_messages i));
  c ← eff_map_err (transcript_err "count context transcript: ") (on Context (count_messages i));
  mret (mkSnapshot c d (token_count session) (SessionCore.message_count session)).
Definition snapshot_transcripts (i : SessionId) : Eff World SessionManagerError TranscriptSnapshot :=
  session ← store! (get i); transcript_snapshot i session.
Definition restore_transcript_snapshot (i : SessionId) (s : TranscriptSnapshot) : Eff World SessionManagerError unit :=
  eff_map_err (transcript_err "restore display transcript: ") (on Display (truncate i (display_count s)));;
  eff_map_err (transcript_err "restore context transcript: ") (on Context (truncate i (context_count s)));;
  store! (update_metadata now i None (s_token_count s) (s_message_count s)).

Definition append_messages (i : SessionId) (messages : list M) : Eff World SessionManagerError unit :=
  session ← store! (get i);
  if negb (bool_decide (state session = Active))
  then fail (MInvalidTransition (debug_state (state session)) "append message (requires Active)")
  else
    match messages with
    | [] => mret tt
    | _ =>
        snapshot ← transcript_snapshot i session;
        mutation ← attempt (
          for_each (fun m => eff_map_err (transcript_err "display transcript: ") (on Display (append i m))) messages;;
          for_each (fun m => eff_map_err (transcript_err "context transcript: ") (on Context (append i m))) messages;;
          count ← eff_map_err (transcript_err "count context transcript: ") (on Context (count_messages i));
          store! (update_metadata now i None (token_count session) (default u32_MAX (u32_of (Z.of_nat count)))));
        match mutation with
        | Ok _ => mret tt
        | Err error =>
            compensation ← attempt (restore_transcript_snapshot i snapshot);
            fail (compensated_error "append messages" error compensation)
        end
    end.
Definition append_message (i : SessionId) (m : M) : Eff World SessionManagerError unit := append_messages i [m].

(** ** Reading *)
Definition manager_read_transcript (i : SessionId) : Eff World SessionManagerError (list M) :=
  store! (get i);; eff_map_err (transcript_err "") (on Context (read_all i)).
Definition read_display_transcript (i : SessionId) : Eff World SessionManagerError (list M) :=
  store! (get i);; eff_map_err (transcript_err "display transcript: ") (on Display (read_all i)).

(** ** Restoring whole transcripts *)
Record FullTranscriptSnapshot := mkFull {
  full_context : list M;
  full_display : list M;
  full_session : SessionNode;
}.
Definition full_transcript_snapshot (i : SessionId) : Eff World SessionManagerError FullTranscriptSnapshot :=
  session ← store! (get i);
  display ← eff_map_err (transcript_err "read display transcript: ") (on Display (read_all i));
  context ← eff_map_err (transcript_err "read context transcript: ") (on Context (read_all i));
  mret (mkFull context display session).

(** Emptied, then written again until a write fails; the errors met. *)
Definition rewrite_transcript {E} (k : Kind) (reset restore : string) (i : SessionId) (l : list M)
    : Eff World E (list string) :=
  r ← attempt (on k (truncate i 0));
  match r with
  | Err e => mret [reset +:+ display_error e]
  | Ok _ =>
      r ← attempt (for_each (fun m => on k (append i m)) l);
      match r with Ok _ => mret [] | Err e => mret [restore +:+ display_error e] end
  end.
Definition or_error {E A} (what : string) (c : Eff World SessionError A) : Eff World E (list string) :=
  r ← attempt c; match r with Ok _ => mret [] | Err e => mret [what +:+ display_error e] end.
Definition restore_all {E} (reset_suffix : string) (i : SessionId) (display context : list M) (tokens count : Z)
    : Eff World E (list string) :=
  e1 ← rewrite_transcript Display ("reset display transcript" +:+ reset_suffix +:+ ": ") "restore display transcript: " i display;
  e2 ← rewrite_transcript Context ("reset context transcript" +:+ reset_suffix +:+ ": ") "restore context transcript: " i context;
  e3 ← or_error "restore session metadata: " (on_db (update_metadata now i None tokens count));
  mret (e1 ++ e2 ++ e3).
Definition restore_full_transcript (i : SessionId) (s : FullTranscriptSnapshot) : Eff World SessionManagerError unit :=
  errors ← restore_all " for restore" i (full_display s) (full_context s)
             (token_count (full_session s)) (SessionCore.message_count (full_session s));
  match errors with [] => mret tt | _ => fail (MOther (join "; " errors)) end.

(** ** Deleting *)
Fixpoint contains (needle s : string) : bool :=
  String.prefix needle s || match s with EmptyString => false | String _ s => contains needle s end.
Definition is_foreign_key_delete_error (e : SessionError) : bool :=
  match e with StorageError m => contains "FOREIGN KEY constraint failed" m | _ => false end.

Definition tombstone (i : SessionId) (s : FullTranscriptSnapshot) : Eff World SessionManagerError unit :=
  let dead := bool_decide (state (full_session s) = Tombstone) in
  (if dead then mret tt else lift (validate_transition (state (full_session s)) Tombstone));;
  store! (update_metadata now i None 0 0);;
  (if dead then mret tt else store! (set_state now i Tombstone)).

Definition delete_session (i : SessionId) : Eff World SessionManagerError unit :=
  snapshot ← full_transcript_snapshot i;
  eff_map_err (transcript_err "clear display transcript before delete: ") (on Display (truncate i 0));;
  cleared ← attempt (on Context (truncate i 0));
  match cleared with
  | Err error =>
      compensation ← attempt (restore_full_transcript i snapshot);
      fail (compensated_error "clear context transcript before delete" (transcript_err "" error) compensation)
  | Ok _ =>
      deleted ← attempt (on_db (delete i));
      match deleted with
      | Ok _ => mret tt
      | Err error =>
          if is_foreign_key_delete_error error then
            dead ← attempt (tombstone i snapshot);
            match dead with
            | Ok _ => mret tt
            | Err error =>
                compensation ← attempt (restore_full_transcript i snapshot);
                fail (compensated_error "tombstone session after delete conflict" error compensation)
            end
          else
            compensation ← attempt (restore_full_transcript i snapshot);
            fail (compensated_error "delete session metadata" (from_session_error error) compensation)
      end
  end.

(** ** Forking *)
Definition cleanup_incomplete_session (i : SessionId) : Eff World SessionManagerError unit :=
  e1 ← or_error "clear display transcript: " (on Display (truncate i 0));
  e2 ← or_error "clear context transcript: " (on Context (truncate i 0));
  e3 ← or_error "delete session metadata: " (on_db (delete i));
  match e1 ++ e2 ++ e3 with [] => mret tt | errors => fail (MOther (join "; " errors)) end.

Definition fork_session (new_id : string) (source_id : SessionId) (message_index : nat) (fork_title : option string)
    : Eff World SessionManagerError SessionNode :=
  source ← store! (get source_id);
  display_messages ← eff_map_err (transcript_err "read display transcript: ") (on Display (read_all source_id));
  context_messages ← eff_map_err (transcript_err "") (on Context (read_all source_id));
  match display_messages, context_messages with
  | [], [] => fail (MOther "source session has no messages to fork")
  | _, _ =>
      let fork_title := match fork_title with
                        | Some t => Some t
                        | None => (fun t => t +:+ " (Branch)") <$> title source
                        end in
      lift (check_depth config source);;
      fork_node ← store! (create new_id now (mkOptions (Some source_id) Branch (agent_id source) fork_title));
      let fork_id := node_id fork_node in
      let display_end := Nat.min (S message_index) (length display_messages) in
      let context_end := Nat.min (S message_index) (length context_messages) in
      copy_result ← attempt (
        for_each (fun m => eff_map_err (transcript_err "write forked display transcript: ") (on Display (append fork_id m)))
          (take display_end display_messages);;
        for_each (fun m => eff_map_err (transcript_err "write forked context transcript: ") (on Context (append fork_id m)))
          (take context_end context_messages);;
        reset ← store! (get_context_reset_index source_id);
        match reset with
        | Some reset_idx =>
            if reset_idx <? Z.of_nat context_end then store! (set_context_reset_index now fork_id (Some reset_idx))
            else mret tt
        | None => mret tt
        end;;
        store! (update_metadata now fork_id None 0 (default u32_MAX (u32_of (Z.of_nat context_end)))));
      match copy_result with
      | Err error =>
          compensation ← attempt (cleanup_incomplete_session fork_id);
          fail (compensated_error "copy branch transcript" error compensation)
      | Ok _ => store! (get fork_id)
      end
  end.

(** ** Chat checkpoints: [checkpoint.rs] *)
Record RollbackResult := mkRollback {
  messages_removed : nat;
  scopes_rolled_back : list string;
  rolled_back_to_turn : Z;
  checkpoints_invalidated : Z;
}.
Definition compensated_session_error (operation : string) (original : SessionError)
    (compensation : Result SessionError unit) : SessionError :=
  OtherError (match compensation with
              | Ok _ => operation +:+ " failed and was rolled back: " +:+ display_error original
              | Err rollback =>
                  operation +:+ " failed: " +:+ display_error original +:+ "; compensation also failed: "
                  +:+ display_error rollback
              end).
Definition create_checkpoint (new_id created_text : string) (created : Timestamp) (i : SessionId) (turn before : Z)
    (scope : string) : Eff World SessionError ChatCheckpoint :=
  on_db (get i);;
  let checkpoint := mkCheckpoint new_id i turn before scope false created in
  on_db (save_checkpoint created_text checkpoint);;
  mret checkpoint.

Record RollbackSnapshot := mkRollbackSnapshot {
  rb_context : list M;
  rb_display : list M;
  rb_token_count : Z;
  rb_message_count : Z;
}.
Definition rollback_snapshot (i : SessionId) : Eff World SessionError RollbackSnapshot :=
  session ← on_db (get i);
  context ← on Context (read_all i);
  display ← on Display (read_all i);
  mret (mkRollbackSnapshot context display (token_count session) (SessionCore.message_count session)).
Definition restore_rollback_snapshot (i : SessionId) (s : RollbackSnapshot) : Eff World SessionError unit :=
  errors ← restore_all "" i (rb_display s) (rb_context s) (rb_token_count s) (rb_message_count s);
  match errors with [] => mret tt | _ => fail (OtherError (join "; " errors)) end.

Definition rollback_to (i : SessionId) (checkpoint : string) : Eff World SessionError RollbackResult :=
  target ← on_db (load_checkpoint checkpoint);
  if negb (String.eqb (cp_session_id target) i)
  then fail (OtherError ("checkpoint " +:+ checkpoint_id target +:+ " belongs to session " +:+ cp_session_id target
               +:+ ", not " +:+ i))
  else if invalidated target
  then fail (OtherError ("checkpoint " +:+ checkpoint_id target +:+ " is already invalidated"))
  else
    all_checkpoints ← on_db (list_by_session i);
    let scopes_to_rollback :=
      journal_scope_id <$> filter (fun cp => turn_number target <= turn_number cp /\ invalidated cp = false) all_checkpoints in
    snapshot ← rollback_snapshot i;
    let keep_count := Z.to_nat (message_count_before target) in
    if (length (rb_context snapshot) <? keep_count)%nat || (length (rb_display snapshot) <? keep_count)%nat
    then fail (OtherError ("checkpoint " +:+ checkpoint_id target +:+ " expects " +:+ pretty keep_count
                 +:+ " messages, but transcripts contain " +:+ pretty (length (rb_context snapshot))
                 +:+ " context and " +:+ pretty (length (rb_display snapshot)) +:+ " display messages"))
    else
      mutation ← attempt (
        on Display (truncate i keep_count);;
        removed ← on Context (truncate i keep_count);
        on_db (update_metadata now i None (rb_token_count snapshot) (message_count_before target));;
        n ← on_db (invalidate_after i (saturating_sub (turn_number target) 1));
        mret (removed, n));
      match mutation with
      | Ok (removed, n) =>
          mret (mkRollback removed scopes_to_rollback (saturating_sub (turn_number target) 1) n)
      | Err error =>
          compensation ← attempt (restore_rollback_snapshot i snapshot);
          fail (compensated_session_error "rollback chat transcript" error compensation)
      end.
Definition rollback_last (i : SessionId) : Eff World SessionError RollbackResult :=
  checkpoint ← on_db (latest i);
  match checkpoint with
  | Some c => rollback_to i (checkpoint_id c)
  | None => fail (OtherError "no checkpoints available for rollback")
  end.
Definition list_checkpoints (i : SessionId) : Eff World SessionError (list ChatCheckpoint) :=
  all ← on_db (list_by_session i); mret (filter (fun cp => invalidated cp = false) all).
Definition current_turn (i : SessionId) : Eff World SessionError Z :=
  l ← on_db (list_by_session i); mret (fold_left Z.max (turn_number <$> l) 0).
End session.

(** ** Lemmas: what one call changes *)
Section lemmas.
Context {C D M : Type} `{conC : TranscriptContract C M, conD : TranscriptContract D M, ColumnLaws}.
#[local] Existing Instance part_store.
#[local] Instance part_contract (k : Kind) : TranscriptContract (Part (C := C) (D := D) k) M :=
  match k return @TranscriptContract (Part k) M (part_store k) with Context => conC | Display => conD end.
Notation World := (World (C := C) (D := D)).
Implicit Types w : World.

Definition wview (k : Kind) w (i : SessionId) : list M := view (part k w) i.
Definition waccepts (k : Kind) (i : SessionId) : bool := accepts (T := Part (C := C) (D := D) k) (M := M) i.
Definition total w : nat := (failures (M := M) (ctx w) + failures (M := M) (disp w) + db_left (db w))%nat.

(** A row with other counts. *)
Definition with_counts (t m : Z) (u : string) (r : Row) : Row :=
  mkRow (r_id r) (r_parent_id r) (r_root_id r) (r_depth r) (r_path r) (r_session_type r) (r_state r)
    (r_agent_id r) (r_title r) (r_manual_title r) t m (r_transcript_path r) (r_channel r) (r_label r)
    (r_last_compaction r) (r_compaction_count r) (r_context_reset_index r) (r_custom_system_prompt r)
    (r_created_at r) u.
Definition counts_only (o o' : option Row) : Prop :=
  match o, o' with
  | Some r, Some r' => exists t m u, r' = with_counts t m u r
  | None, None => True
  | _, _ => False
  end.
Lemma counts_refl o : counts_only o o.
Proof. destruct o as [r|]; [|done]. exists (r_token_count r), (r_message_count r), (r_updated_at r). by destruct r. Qed.
Lemma counts_trans o1 o2 o3 : counts_only o1 o2 -> counts_only o2 o3 -> counts_only o1 o3.
Proof.
  destruct o1, o2, o3; try done. intros (? & ? & ? & ->) (t & m & u & ->). by exists t, m, u.
Qed.

(** Nothing but the session [i]'s transcripts and counts changed. *)
Record frame (i : SessionId) w w' : Prop := {
  fr_views k j : j <> i -> wview k w' j = wview k w j;
  fr_rows j : j <> i -> row_of j (rows (db w')) = row_of j (rows (db w));
  fr_own : counts_only (row_of i (rows (db w))) (row_of i (rows (db w')));
  fr_total : (total w' <= total w)%nat;
}.
Lemma frame_refl i w : frame i w w.
Proof. split; try done. apply counts_refl. Qed.
Lemma frame_trans i w1 w2 w3 : frame i w1 w2 -> frame i w2 w3 -> frame i w1 w3.
Proof.
  intros F1 F2. split.
  - intros k j Hj. by rewrite (fr_views _ _ _ F2), (fr_views _ _ _ F1).
  - intros j Hj. by rewrite (fr_rows _ _ _ F2), (fr_rows _ _ _ F1).
  - eapply counts_trans; [apply (fr_own _ _ _ F1)|apply (fr_own _ _ _ F2)].
  - pose proof (fr_total _ _ _ F1). pose proof (fr_total _ _ _ F2). lia.
Qed.

(** A call on the store [k]. *)
Record touch (k : Kind) (i : SessionId) w w' : Prop := {
  to_frame : frame i w w';
  to_db : db w' = db w;
  to_other k' : k' <> k -> wview k' w' i = wview k' w i;
}.
Lemma touch_put k i (t : Part k) w :
  (forall j, j <> i -> view t j = view (part k w) j) -> (failures (M := M) t <= failures (M := M) (part k w))%nat ->
  touch k i w (put k t w).
Proof.
  intros Hv Hf. split.
  - split; [| |by destruct k; apply counts_refl|]; [|by destruct k|unfold total; destruct k; cbn in *; lia].
    intros k' j Hj. destruct k, k'; cbn in *; try done; by apply Hv.
  - by destruct k.
  - by destruct k, k'.
Qed.
Lemma blame_put k i (t : Part k) w :
  blame (failures (M := M) t) (failures (M := M) (part k w)) (waccepts k i) ->
  blame (total (put k t w)) (total w) (waccepts k i).
Proof. unfold blame, total. destruct k; cbn; lia. Qed.
Lemma wview_put k (t : Part k) w i : wview k (put k t w) i = view t i.
Proof. by destruct k. Qed.
Lemma wp_on {E A} k (c : Eff (Part k) E A) (Q : World -> Result E A -> Prop) w :
  wp c (fun t r => Q (put k t w) r) (part k w) -> wp (on k c) Q w.
Proof. apply wp_zoom. Qed.

Lemma on_append k i m w :
  wp (on k (append i m)) (fun w' r => touch k i w w' /\
    match r with
    | Ok _ => wview k w' i = wview k w i ++ [m] /\ waccepts k i = true
    | Err _ => (wview k w' i = wview k w i \/ wview k w' i = wview k w i ++ [m]) /\ blame (total w') (total w) (waccepts k i)
    end) w.
Proof.
  apply wp_on. eapply wp_mono; [apply append_contract|]. intros t r [Hv Hr]. rewrite wview_put. destruct r as [[]|e].
  - destruct Hr as (Hi & Hf & Ha). by split; [apply touch_put|].
  - destruct Hr as [Hi Hb]. split; [apply touch_put; [done|by eapply blame_le]|]. split; [done|by apply blame_put].
Qed.
Lemma on_truncate k i n w :
  wp (on k (truncate i n)) (fun w' r => touch k i w w' /\
    match r with
    | Ok c => wview k w' i = take n (wview k w i) /\ waccepts k i = true /\ c = (length (wview k w i) - n)%nat
    | Err _ => wview k w' i = wview k w i /\ blame (total w') (total w) (waccepts k i)
    end) w.
Proof.
  apply wp_on. eapply wp_mono; [apply truncate_contract|]. intros t r [Hv Hr]. rewrite wview_put. destruct r as [c|e].
  - destruct Hr as (Hi & Hc & Hf & Ha). by split; [apply touch_put|].
  - destruct Hr as [Hi Hb]. split; [apply touch_put; [done|by eapply blame_le]|]. split; [done|by apply blame_put].
Qed.
(** A read changes no transcript. *)
Definition quiet w w' : Prop := (forall k j, wview k w' j = wview k w j) /\ db w' = db w /\ (total w' <= total w)%nat.
Lemma quiet_put k (t : Part k) w :
  (forall j, view t j = view (part k w) j) -> (failures (M := M) t <= failures (M := M) (part k w))%nat -> quiet w (put k t w).
Proof.
  intros Hv Hf. split_and!; [|by destruct k|unfold total; destruct k; cbn in *; lia].
  intros k' j. destruct k, k'; cbn in *; try done; apply Hv.
Qed.
Lemma on_count k i w :
  wp (on k (count_messages i)) (fun w' r => quiet w w' /\
    match r with Ok n => n = length (wview k w i) /\ waccepts k i = true | Err _ => True end) w.
Proof.
  apply wp_on. eapply wp_mono; [apply count_contract|]. intros t r [Hv Hr]. destruct r as [n|e].
  - destruct Hr as (Hn & Hf & Ha). by split; [apply quiet_put|].
  - split; [|done]. apply quiet_put; [done|by eapply blame_le].
Qed.
Lemma on_read k i w :
  wp (on k (read_all i)) (fun w' r => quiet w w' /\
    match r with Ok l => l = wview k w i /\ waccepts k i = true | Err _ => True end) w.
Proof.
  apply wp_on. eapply wp_mono; [apply read_all_contract|]. intros t r [Hv Hr]. destruct r as [n|e].
  - destruct Hr as (Hn & Hf & Ha). by split; [apply quiet_put|].
  - split; [|done]. apply quiet_put; [done|by eapply blame_le].
Qed.

(** Calls on the database. *)
Definition db_only w w' : Prop := ctx w' = ctx w /\ disp w' = disp w /\ (total w' <= total w)%nat.
Lemma db_only_views w w' k j : db_only w w' -> wview k w' j = wview k w j.
Proof. intros (Hc & Hd & _). unfold wview. by destruct k; cbn; rewrite ?Hc, ?Hd. Qed.
Lemma on_get i w :
  wp (on_db (get i)) (fun w' r => db_only w w' /\ same_tables (db w) (db w') /\
    match r with
    | Ok n => exists row, row_of i (rows (db w)) = Some row /\ into_session_node row = Ok n
    | Err _ => True
    end) w.
Proof.
  apply wp_zoom. eapply wp_mono; [apply get_spec|]. intros d r (Hs & Hl & Hr). cbn. split_and!; [|done|by destruct r].
  split_and!; [done|done|]. unfold total. cbn. lia.
Qed.
Lemma on_update now i t m w :
  wp (on_db (update_metadata now i None t m)) (fun w' r => db_only w w' /\ checkpoints (db w') = checkpoints (db w) /\
    match r with
    | Ok _ => exists row, row_of i (rows (db w)) = Some row /\ row_of i (rows (db w')) = Some (with_counts t m now row) /\
              forall j, j <> i -> row_of j (rows (db w')) = row_of j (rows (db w))
    | Err _ => same_tables (db w) (db w') /\ ((total w' < total w)%nat \/ row_of i (rows (db w)) = None)
    end) w.
Proof.
  apply wp_zoom. eapply wp_mono; [apply update_row_spec|]. intros d r (Hl & Hr). cbn.
  assert (Hdb : db_only w (with_db d w)) by (split_and!; [done|done|unfold total; cbn; lia]).
  destruct r as [[]|e].
  - destruct Hr as (Hrows & Hc & [row Hrow]). split_and!; [done|done|]. exists row. rewrite Hrows.
    set (f := fun r : Row => if String.eqb (r_id r) i then with_counts t m now r else r).
    change (row_of i (rows (db w)) = Some row /\ row_of i (f <$> rows (db w)) = Some (with_counts t m now row) /\
      (forall j, j <> i -> row_of j (f <$> rows (db w)) = row_of j (rows (db w)))).
    assert (Hid : forall r, r_id (f r) = r_id r) by (intros r; unfold f; by destruct (String.eqb (r_id r) i)).
    split_and!; [done| |].
    + rewrite row_of_fmap, Hrow by done. cbn. unfold f. destruct (row_of_Some _ _ _ Hrow) as [_ ->].
      by rewrite String.eqb_refl.
    + intros j Hj. rewrite row_of_fmap by done. destruct (row_of j (rows (db w))) as [r|] eqn:Er; [|done]. cbn. f_equal.
      unfold f. destruct (row_of_Some _ _ _ Er) as [_ ->]. by rewrite (proj2 (String.eqb_neq _ _)).
  - destruct Hr as [Hs Hb]. split_and!; [done|by destruct Hs|done|]. destruct Hb; [left; unfold total; cbn; lia|by right].
Qed.

Lemma quiet_frame i w w' : quiet w w' -> frame i w w'.
Proof. intros (Hv & Hd & Hl). split; [intros; apply Hv|by rewrite Hd|rewrite Hd; apply counts_refl|done]. Qed.
Lemma same_frame i w w' : db_only w w' -> same_tables (db w) (db w') -> frame i w w'.
Proof.
  intros Hd [Hr _]. split; [intros; by apply db_only_views|by rewrite Hr|rewrite Hr; apply counts_refl|by destruct Hd as (_ & _ & ?)].
Qed.

Lemma update_frame i t m u w w' row :
  db_only w w' -> row_of i (rows (db w)) = Some row -> row_of i (rows (db w')) = Some (with_counts t m u row) ->
  (forall j, j <> i -> row_of j (rows (db w')) = row_of j (rows (db w))) -> frame i w w'.
Proof.
  intros Hd Hr Hr' Hj. split; [intros; by apply db_only_views|done| |by destruct Hd as (_ & _ & ?)].
  rewrite Hr, Hr'. by exists t, m, u.
Qed.
Lemma touch_refl k i w : touch k i w w.
Proof. split; [apply frame_refl|done|done]. Qed.
Lemma touch_trans k i w1 w2 w3 : touch k i w1 w2 -> touch k i w2 w3 -> touch k i w1 w3.
Proof.
  intros [F1 D1 O1] [F2 D2 O2]. split; [by eapply frame_trans|by rewrite D2|]. intros k' Hk. by rewrite O2, O1.
Qed.
Lemma blame_touch k i w1 w2 w3 a :
  touch k i w1 w2 -> blame (total w3) (total w2) a -> blame (total w3) (total w1) a.
Proof. intros [F _ _]. pose proof (fr_total _ _ _ F). unfold blame. lia. Qed.

(** Appending one by one: all, or a beginning. *)
Lemma append_all {E} (f : SessionError -> E) k i (l : list M) w :
  wp (for_each (fun m => eff_map_err f (on k (append i m))) l) (fun w' r => touch k i w w' /\
    match r with
    | Ok _ => wview k w' i = wview k w i ++ l
    | Err _ => (exists p, p `prefix_of` l /\ wview k w' i = wview k w i ++ p) /\ blame (total w') (total w) (waccepts k i)
    end) w.
Proof.
  revert w. induction l as [|m l IH]; intros w; cbn [for_each].
  { apply wp_ret. split; [apply touch_refl|by rewrite app_nil_r]. }
  apply wp_bind, wp_map_err. eapply wp_mono; [apply on_append|]. intros w1 r [Ht Hr]. destruct r as [[]|e]; cbn.
  - destruct Hr as [Hv _]. eapply wp_mono; [apply IH|]. intros w2 r [Ht2 Hr2]. split; [by eapply touch_trans|].
    rewrite Hv in Hr2. destruct r as [[]|e]; [by rewrite <- app_assoc in Hr2|]. destruct Hr2 as [(p & Hp & Hv2) Hb].
    split; [|by eapply blame_touch]. exists (m :: p). split; [by apply prefix_cons|]. by rewrite Hv2, <- app_assoc.
  - destruct Hr as [Hv Hb]. split; [done|]. split; [|done]. destruct Hv as [Hv|Hv]; [exists []|exists [m]]; rewrite Hv.
    + by rewrite app_nil_r; split; [apply prefix_nil|].
    + split; [|done]. by exists l.
Qed.

(** The counts a reader of the metadata sees. *)
Definition counts w (i : SessionId) : option (Z * Z) :=
  (fun r => (u32_or_0 (r_token_count r), u32_or_0 (r_message_count r))) <$> row_of i (rows (db w)).
Definition restored (i : SessionId) w w' : Prop :=
  wview Context w' i = wview Context w i /\ wview Display w' i = wview Display w i /\ counts w' i = counts w i.

Lemma snapshot_spec i n row w :
  row_of i (rows (db w)) = Some row -> into_session_node row = Ok n ->
  wp (transcript_snapshot i n) (fun w' r => quiet w w' /\
    match r with
    | Ok s => s = mkSnapshot (length (wview Context w i)) (length (wview Display w i)) (token_count n)
                    (SessionCore.message_count n) /\ waccepts Context i = true /\ waccepts Display i = true
    | Err _ => True
    end) w.
Proof.
  intros Hrow Hn. unfold transcript_snapshot. apply wp_bind, wp_map_err. eapply wp_mono; [apply on_count|].
  intros w1 r [Hq1 Hr]. destruct r as [d|e]; [|done]. destruct Hr as [-> Hd]. cbn.
  apply wp_bind, wp_map_err. eapply wp_mono; [apply on_count|]. intros w2 r [Hq2 Hr].
  assert (Hq : quiet w w2).
  { destruct Hq1 as (V1 & D1 & L1), Hq2 as (V2 & D2 & L2). split_and!; [intros; by rewrite V2, V1|by rewrite D2|lia]. }
  destruct r as [c|e]; [|done]. destruct Hr as [-> Hc]. cbn. apply wp_ret. split_and!; try done.
  destruct Hq1 as (V1 & _). by rewrite V1.
Qed.

Lemma u32_or_0_idem z : u32_or_0 (u32_or_0 z) = u32_or_0 z.
Proof.
  unfold u32_or_0, u32_of. destruct ((0 <=? z) && (z <=? u32_MAX)) eqn:E; cbn [default from_option id]; [by rewrite E|done].
Qed.
Lemma node_counts i row n w :
  row_of i (rows (db w)) = Some row -> into_session_node row = Ok n ->
  counts w i = Some (token_count n, SessionCore.message_count n).
Proof.
  intros Hr Hn. unfold counts. rewrite Hr. destruct (into_node_inv row n Hn) as (_ & _ & _ & _ & _ & _ & -> & -> & _). done.
Qed.
Lemma node_counts_u32 row n : into_session_node row = Ok n ->
  u32_or_0 (token_count n) = token_count n /\ u32_or_0 (SessionCore.message_count n) = SessionCore.message_count n.
Proof. intros Hn. destruct (into_node_inv row n Hn) as (_ & _ & _ & _ & _ & _ & -> & -> & _). by rewrite !u32_or_0_idem. Qed.

(** Compensation by truncation, from transcripts that have grown. *)
Lemma restore_snapshot_spec now i n row w0 w p q :
  row_of i (rows (db w0)) = Some row -> into_session_node row = Ok n -> frame i w0 w ->
  waccepts Context i = true -> waccepts Display i = true ->
  wview Context w i = wview Context w0 i ++ p -> wview Display w i = wview Display w0 i ++ q ->
  wp (restore_transcript_snapshot now i (mkSnapshot (length (wview Context w0 i)) (length (wview Display w0 i))
        (token_count n) (SessionCore.message_count n)))
    (fun w' r => frame i w0 w' /\
      match r with Ok _ => restored i w0 w' | Err _ => (total w' < total w)%nat end) w.
Proof.
  intros Hrow Hn Hf Hac Had Hc Hd. unfold restore_transcript_snapshot.
  cbn [display_count context_count s_token_count s_message_count].
  assert (Hlt : forall a w1 w2, blame (total w2) (total w1) a -> a = true -> (total w2 < total w1)%nat) by (unfold blame; intros; naive_solver).
  apply wp_bind, wp_map_err. eapply wp_mono; [apply on_truncate|]. intros w1 r [Ht1 Hr].
  pose proof (frame_trans _ _ _ _ Hf (to_frame _ _ _ _ Ht1)) as F1. pose proof (fr_total _ _ _ (to_frame _ _ _ _ Ht1)) as L1.
  destruct r as [c|e]; cbn; [|split; [done|]; destruct Hr; eauto]. destruct Hr as (Hd1 & _ & _).
  assert (Hc1 : wview Context w1 i = wview Context w i) by (by apply (to_other _ _ _ _ Ht1)).
  apply wp_bind, wp_map_err. eapply wp_mono; [apply on_truncate|]. intros w2 r [Ht2 Hr].
  pose proof (frame_trans _ _ _ _ F1 (to_frame _ _ _ _ Ht2)) as F2. pose proof (fr_total _ _ _ (to_frame _ _ _ _ Ht2)) as L2.
  destruct r as [c'|e]; cbn; [|split; [done|]; destruct Hr as [_ Hb]; pose proof (Hlt _ _ _ Hb Hac); lia].
  destruct Hr as (Hc2 & _ & _). assert (Hd2 : wview Display w2 i = wview Display w1 i) by (by apply (to_other _ _ _ _ Ht2)).
  apply wp_map_err. eapply wp_mono; [apply on_update|]. intros w3 r (Hdb & _ & Hr).
  pose proof Hdb as (_ & _ & L3). destruct r as [[]|e]; cbn.
  - destruct Hr as (row' & Hr1 & Hr2 & Hj). pose proof (update_frame _ _ _ _ _ _ _ Hdb Hr1 Hr2 Hj) as F3.
    split; [by eapply frame_trans|]. split_and!.
    + rewrite (db_only_views _ _ _ _ Hdb), Hc2, Hc1, Hc. by rewrite take_app_length.
    + rewrite (db_only_views _ _ _ _ Hdb), Hd2, Hd1, Hd. by rewrite take_app_length.
    + rewrite (node_counts i row n w0 Hrow Hn). unfold counts. rewrite Hr2. cbn.
      destruct (node_counts_u32 row n Hn) as [-> ->]. done.
  - destruct Hr as [Hs Hr]. split; [eapply frame_trans; [exact F2|by apply same_frame]|].
    destruct Hr as [|Hnone]; [lia|]. pose proof (fr_own _ _ _ F2) as Ho. by rewrite Hrow, Hnone in Ho.
Qed.

(** ** Appending to both transcripts *)

(** The mutation of [append_messages]; it grows both transcripts, and when it
    fails one of the failures to come is spent. *)
Lemma append_mutation now i n row l w0 w :
  row_of i (rows (db w0)) = Some row -> frame i w0 w ->
  waccepts Context i = true -> waccepts Display i = true ->
  wp (for_each (fun m => eff_map_err (transcript_err "display transcript: ") (on Display (append i m))) l;;
      for_each (fun m => eff_map_err (transcript_err "context transcript: ") (on Context (append i m))) l;;
      count ← eff_map_err (transcript_err "count context transcript: ") (on Context (count_messages i));
      eff_map_err from_session_error
        (on_db (update_metadata now i None (token_count n) (default u32_MAX (u32_of (Z.of_nat count))))))
    (fun w' r => frame i w0 w' /\ (exists p, wview Context w' i = wview Context w i ++ p) /\
      (exists q, wview Display w' i = wview Display w i ++ q) /\
      match r with
      | Ok _ => wview Context w' i = wview Context w i ++ l /\ wview Display w' i = wview Display w i ++ l /\
                counts w' i = Some (u32_or_0 (token_count n), u32_or_0 (default u32_MAX (u32_of (zlen (wview Context w' i)))))
      | Err _ => (total w' < total w)%nat
      end) w.
Proof.
  intros Hrow Hf Hac Had.
  assert (Hlt : forall a w1 w2, blame (total w2) (total w1) a -> a = true -> (total w2 < total w1)%nat) by (unfold blame; intros; naive_solver).
  apply wp_bind. eapply wp_mono; [apply append_all|]. intros w1 r [Ht1 Hr].
  pose proof (frame_trans _ _ _ _ Hf (to_frame _ _ _ _ Ht1)) as F1. pose proof (fr_total _ _ _ (to_frame _ _ _ _ Ht1)) as L1.
  assert (Hc1 : wview Context w1 i = wview Context w i) by (by apply (to_other _ _ _ _ Ht1)).
  destruct r as [[]|e].
  2: { destruct Hr as [(p & _ & Hd1) Hb]. split_and!; [done|exists []; by rewrite app_nil_r|by exists p|eauto]. }
  apply wp_bind. eapply wp_mono; [apply append_all|]. intros w2 r [Ht2 Hr2].
  pose proof (frame_trans _ _ _ _ F1 (to_frame _ _ _ _ Ht2)) as F2. pose proof (fr_total _ _ _ (to_frame _ _ _ _ Ht2)) as L2.
  assert (Hd2 : wview Display w2 i = wview Display w i ++ l) by (rewrite <- Hr; by apply (to_other _ _ _ _ Ht2)).
  rewrite Hc1 in Hr2. destruct r as [[]|e].
  2: { destruct Hr2 as [(p & _ & Hc2) Hb]. split_and!; [done|by exists p|by exists l|]. pose proof (Hlt _ _ _ Hb Hac). lia. }
  apply wp_bind, wp_map_err. apply wp_on. eapply wp_mono; [apply count_contract|]. intros t r [Hv Hr3].
  set (w3 := put Context t w2).
  assert (Hq : (failures (M := M) t <= failures (M := M) (part Context w2))%nat -> quiet w2 w3) by (by apply quiet_put).
  assert (Hc3 : forall k, wview k w3 i = wview k w2 i) by (intros []; [apply Hv|done]).
  destruct r as [c|e]; cbn [map_err].
  2: { split_and!; [|exists l; by rewrite Hc3|exists l; by rewrite Hc3|].
       - eapply frame_trans; [exact F2|]. by eapply quiet_frame, Hq, blame_le.
       - pose proof (Hlt _ _ _ (blame_put Context i t w2 Hr3) Hac) as Hb3. fold w3 in Hb3. lia. }
  destruct Hr3 as (-> & Hl3 & _). specialize (Hq Hl3). pose proof (quiet_frame i _ _ Hq) as F3.
  pose proof (frame_trans _ _ _ _ F2 F3) as F3'. destruct Hq as (_ & Hdb3 & L3).
  apply wp_map_err. eapply wp_mono; [apply on_update|]. intros w4 r (Hdb & _ & Hr4). pose proof Hdb as (_ & _ & L4).
  assert (Hc4 : forall k, wview k w4 i = wview k w2 i) by (intros k; by rewrite (db_only_views _ _ _ _ Hdb), Hc3).
  destruct r as [[]|e]; cbn [map_err].
  - destruct Hr4 as (row' & Hr1 & Hr2' & Hj). pose proof (update_frame _ _ _ _ _ _ _ Hdb Hr1 Hr2' Hj) as F4.
    split_and!; [by eapply frame_trans|exists l; by rewrite Hc4|exists l; by rewrite Hc4|by rewrite Hc4|by rewrite Hc4|].
    unfold counts. rewrite Hr2', Hc4. done.
  - destruct Hr4 as [Hs Hr4]. split_and!; [|exists l; by rewrite Hc4|exists l; by rewrite Hc4|].
    + eapply frame_trans; [exact F3'|by apply same_frame].
    + destruct Hr4 as [|Hnone]; [lia|]. pose proof (fr_own _ _ _ F3') as Ho. by rewrite Hrow, Hnone in Ho.
Qed.

(** Appending messages to a session is all or nothing.  When it succeeds,
    the session is active and both transcripts have got all of them, with the
    message count following; when it fails, both transcripts and the counts are
    as before, or the error says that undoing failed too, which takes two
    failures of the stores; no other session changes in any case. *)
Theorem append_messages_atomic (now : string) (i : SessionId) (l : list M) (w : World) :
  let '(w', r) := append_messages now i l w in
  frame i w w' /\
  match r with
  | Ok _ =>
      (exists row, row_of i (rows (db w)) = Some row /\ r_state row = "active"%string) /\
      wview Context w' i = wview Context w i ++ l /\ wview Display w' i = wview Display w i ++ l /\
      (l <> [] -> exists tokens, counts w' i = Some (tokens, u32_or_0 (default u32_MAX (u32_of (zlen (wview Context w' i))))) /\
                                 fst <$> counts w i = Some tokens)
  | Err e =>
      restored i w w' \/
      (total w' + 2 <= total w)%nat /\
      exists e1 e2, e = MOther ("append messages failed: " +:+ display_manager_error e1 +:+
                                "; compensation also failed: " +:+ display_manager_error e2)
  end.
Proof.
  apply wp_pair. match goal with |- wp _ ?P _ => set (Q := P) end.
  assert (Hsame : forall w1 e, frame i w w1 -> (forall k, wview k w1 i = wview k w i) ->
    row_of i (rows (db w1)) = row_of i (rows (db w)) -> Q w1 (Err e)).
  { intros w1 e Hf Hv Hr. split; [done|]. left. split_and!; [apply Hv|apply Hv|]. unfold counts. by rewrite Hr. }
  unfold append_messages. apply wp_bind, wp_map_err. eapply wp_mono; [apply on_get|]. intros w1 r (Hd1 & Hs1 & Hr).
  pose proof (same_frame i _ _ Hd1 Hs1) as F1. assert (V1 : forall k, wview k w1 i = wview k w i) by (intros k; by apply db_only_views).
  assert (R1 : row_of i (rows (db w1)) = row_of i (rows (db w))) by (by destruct Hs1 as [-> _]).
  destruct r as [n|e]; cbn; [|by apply Hsame]. destruct Hr as (row & Hrow & Hn).
  destruct (decide (state n = Active)) as [Hact|Hact].
  2: { rewrite bool_decide_false by done. by apply wp_fail, Hsame. }
  rewrite bool_decide_true by done. cbn [negb].
  assert (Hst : r_state row = "active"%string).
  { destruct (into_node_inv row n Hn) as (_ & _ & _ & _ & _ & Hs & _). apply str_to_state_inj in Hs. by rewrite Hact in Hs. }
  destruct l as [|m l]. { apply wp_ret. split; [done|]. split_and!; [by exists row|by rewrite V1, app_nil_r|by rewrite V1, app_nil_r|done]. }
  set (ms := m :: l) in *.
  apply wp_bind. eapply wp_mono; [eapply snapshot_spec; [by rewrite R1|done]|]. intros w2 r [Hq Hr].
  pose proof (frame_trans _ _ _ _ F1 (quiet_frame i _ _ Hq)) as F2. pose proof Hq as (V2 & D2 & L2).
  assert (V2' : forall k, wview k w2 i = wview k w i) by (intros k; by rewrite V2).
  destruct r as [s|e]; [|apply Hsame; [done|done|by rewrite D2]]. destruct Hr as (-> & Hac & Had).
  rewrite !V1. apply wp_bind, wp_attempt. eapply wp_mono; [by apply (append_mutation now i n row ms w w2)|].
  intros w3 r (F3 & (p & Hp) & (q & Hq') & Hr). rewrite V2' in Hp, Hq'. destruct r as [[]|e].
  - apply wp_ret. destruct Hr as (Hc & Hd & Hcnt). rewrite V2' in Hc, Hd. split; [done|].
    split_and!; [by exists row|done|done|]. intros _. destruct (node_counts_u32 row n Hn) as [Ht _].
    exists (u32_or_0 (token_count n)). split; [done|]. by rewrite (node_counts i row n w Hrow Hn), Ht.
  - apply wp_bind, wp_attempt. eapply wp_mono; [by eapply (restore_snapshot_spec now i n row w w3)|].
    intros w4 r [F4 Hr4]. apply wp_fail. split; [done|]. destruct r as [[]|e2]; [by left|right].
    split; [pose proof (fr_total _ _ _ F2); lia|]. by exists e, e2.
Qed.

(** ** Restoring whole transcripts *)
Lemma append_all_plain k i (l : list M) w :
  wp (for_each (fun m => on k (append i m)) l) (fun w' r => touch k i w w' /\
    match r with
    | Ok _ => wview k w' i = wview k w i ++ l
    | Err _ => (exists p, p `prefix_of` l /\ wview k w' i = wview k w i ++ p) /\ blame (total w') (total w) (waccepts k i)
    end) w.
Proof.
  pose proof (append_all (fun e => e) k i l w) as Hw. unfold wp in *.
  rewrite (for_each_ext _ (fun m => on k (append i m))) in Hw; [done|].
  intros m w1. unfold eff_map_err. by destruct (on k (append i m) w1) as [w2 []].
Qed.
Lemma rewrite_spec {E} k reset restore i (l : list M) w :
  waccepts k i = true ->
  wp (rewrite_transcript (E := E) k reset restore i l) (fun w' r => touch k i w w' /\
    exists errors, r = Ok errors /\
      match errors with [] => wview k w' i = l | _ => (total w' < total w)%nat end) w.
Proof.
  intros Ha. unfold rewrite_transcript. apply wp_bind, wp_attempt. eapply wp_mono; [apply on_truncate|].
  intros w1 r [Ht1 Hr]. pose proof (fr_total _ _ _ (to_frame _ _ _ _ Ht1)) as L1.
  destruct r as [c|e]; [|apply wp_ret; split; [done|]; eexists; split; [done|]; destruct Hr as [_ [Hb|[Hb _]]]; [done|congruence]].
  destruct Hr as (Hv & _). cbn in Hv. apply wp_bind, wp_attempt. eapply wp_mono; [apply append_all_plain|].
  intros w2 r [Ht2 Hr]. destruct r as [[]|e]; apply wp_ret; (split; [by eapply touch_trans|]); eexists; (split; [done|]).
  - by rewrite Hv in Hr.
  - destruct Hr as [_ [Hb|[Hb _]]]; [lia|congruence].
Qed.

(** Nothing of another session changed. *)
Record others (i : SessionId) w w' : Prop := {
  ot_views k j : j <> i -> wview k w' j = wview k w j;
  ot_rows j : j <> i -> row_of j (rows (db w')) = row_of j (rows (db w));
  ot_total : (total w' <= total w)%nat;
}.
Lemma frame_others i w w' : frame i w w' -> others i w w'.
Proof. intros []. by split. Qed.
Lemma others_trans i w1 w2 w3 : others i w1 w2 -> others i w2 w3 -> others i w1 w3.
Proof.
  intros F1 F2. split.
  - intros k j Hj. by rewrite (ot_views _ _ _ F2), (ot_views _ _ _ F1).
  - intros j Hj. by rewrite (ot_rows _ _ _ F2), (ot_rows _ _ _ F1).
  - pose proof (ot_total _ _ _ F1). pose proof (ot_total _ _ _ F2). lia.
Qed.

Lemma restore_all_spec {E} now suffix i (display context : list M) t m w :
  waccepts Context i = true -> waccepts Display i = true ->
  wp (restore_all (E := E) now suffix i display context t m) (fun w' r => frame i w w' /\
    checkpoints (db w') = checkpoints (db w) /\ exists errors, r = Ok errors /\
      match errors with
      | [] => wview Context w' i = context /\ wview Display w' i = display /\ counts w' i = Some (u32_or_0 t, u32_or_0 m)
      | _ => (total w' < total w)%nat \/ row_of i (rows (db w)) = None
      end) w.
Proof.
  intros Hac Had. unfold restore_all.
  apply wp_bind. eapply wp_mono; [by apply rewrite_spec|]. intros w1 r [Ht1 (e1 & -> & H1')].
  apply wp_bind. eapply wp_mono; [by apply rewrite_spec|]. intros w2 r [Ht2 (e2 & -> & H2')].
  apply wp_bind. unfold or_error. apply wp_bind, wp_attempt. eapply wp_mono; [apply on_update|].
  intros w3 r (Hdb & Hcp & Hr). pose proof Hdb as (_ & _ & L3).
  pose proof (frame_trans _ _ _ _ (to_frame _ _ _ _ Ht1) (to_frame _ _ _ _ Ht2)) as F2.
  pose proof (fr_total _ _ _ (to_frame _ _ _ _ Ht1)) as L1. pose proof (fr_total _ _ _ (to_frame _ _ _ _ Ht2)) as L2.
  assert (Hdb2 : db w2 = db w) by (by rewrite (to_db _ _ _ _ Ht2), (to_db _ _ _ _ Ht1)).
  assert (Hfail : forall e3, frame i w2 w3 -> e1 ++ e2 ++ e3 <> [] ->
    (e3 <> [] -> (total w3 < total w2)%nat \/ row_of i (rows (db w)) = None) ->
    frame i w w3 /\ checkpoints (db w3) = checkpoints (db w) /\ exists errors, Ok (E := E) (e1 ++ e2 ++ e3) = Ok errors /\
      match errors with
      | [] => wview Context w3 i = context /\ wview Display w3 i = display /\ counts w3 i = Some (u32_or_0 t, u32_or_0 m)
      | _ => (total w3 < total w)%nat \/ row_of i (rows (db w)) = None
      end).
  { intros e3 F3 Hne He3. split; [by eapply frame_trans|]. split; [by rewrite Hcp, Hdb2|]. eexists. split; [done|].
    destruct e1 as [|x e1]; [|left; lia]. destruct e2 as [|x e2]; [|left; cbn; lia].
    destruct e3; [done|]. cbn. destruct He3; [done|left; lia|by right]. }
  destruct r as [[]|e]; apply wp_ret, wp_ret.
  - destruct Hr as (row & Hr1 & Hr2 & Hj). pose proof (update_frame _ _ _ _ _ _ _ Hdb Hr1 Hr2 Hj) as F3.
    destruct (decide (e1 ++ e2 = [])) as [He|He].
    + apply app_eq_nil in He as [-> ->]. cbn. split; [by eapply frame_trans|]. split; [by rewrite Hcp, Hdb2|]. eexists. split; [done|].
      rewrite !(db_only_views _ _ _ _ Hdb). split_and!.
      * done.
      * rewrite <- H1'. by apply (to_other _ _ _ _ Ht2).
      * unfold counts. by rewrite Hr2.
    + apply (Hfail [] F3); [by rewrite app_nil_r|done].
  - destruct Hr as [Hs Hr]. apply (Hfail [_]); [by apply same_frame| |].
    + intros [_ [_ [=]]%app_eq_nil]%app_eq_nil.
    + intros _. by rewrite <- Hdb2.
Qed.

(** ** Deleting a session *)
Definition double_failure (e : SessionManagerError) : Prop :=
  exists op e1 e2, e = MOther (op +:+ " failed: " +:+ e1 +:+ "; compensation also failed: " +:+ e2).

(** A failed change undone from a full snapshot taken in [w0]. *)
Lemma undo_spec now i n row (context display : list M) op error w0 w :
  row_of i (rows (db w0)) = Some row -> into_session_node row = Ok n ->
  context = wview Context w0 i -> display = wview Display w0 i ->
  waccepts Context i = true -> waccepts Display i = true -> others i w0 w ->
  (counts_only (Some row) (row_of i (rows (db w))) \/ row_of i (rows (db w)) = None) ->
  wp (compensation ← attempt (restore_full_transcript now i (mkFull context display n));
      fail (A := unit) (compensated_error op error compensation))
    (fun w' r => others i w0 w' /\ (total w' <= total w)%nat /\ exists e, r = Err e /\
       (frame i w0 w' /\ restored i w0 w' \/
        double_failure e /\ ((total w' < total w)%nat \/ row_of i (rows (db w')) = None))) w.
Proof.
  intros Hrow Hn -> -> Hac Had Ho Hown. apply wp_bind, wp_attempt. unfold restore_full_transcript. cbn [full_display full_context full_session].
  apply wp_bind. eapply wp_mono; [by apply restore_all_spec|]. intros w1 r (F1 & _ & errors & -> & Hr).
  assert (Ho1 : others i w0 w1) by (eapply others_trans; [exact Ho|by apply frame_others]).
  destruct errors as [|x errors].
  - apply wp_ret, wp_fail. split; [done|]. split; [apply (fr_total _ _ _ F1)|]. eexists. split; [done|]. left. destruct Hr as (Hc & Hd & Hcnt).
    assert (Hcnt0 : counts w1 i = counts w0 i).
    { rewrite Hcnt, (node_counts i row n w0 Hrow Hn). by destruct (node_counts_u32 row n Hn) as [-> ->]. }
    split; [|by split_and!]. split; [apply Ho1|apply Ho1| |apply Ho1]. rewrite Hrow. destruct Hown as [Hown|Hown].
    + eapply counts_trans; [exact Hown|apply (fr_own _ _ _ F1)].
    + exfalso. pose proof (fr_own _ _ _ F1) as Hx. rewrite Hown in Hx. unfold counts in Hcnt.
      by destruct (row_of i (rows (db w1))).
  - apply wp_fail, wp_fail. split; [done|]. split; [apply (fr_total _ _ _ F1)|]. eexists. split; [done|]. right. split.
    + unfold compensated_error. by eexists op, _, _.
    + destruct Hr as [|Hnone]; [by left|right]. pose proof (fr_own _ _ _ F1) as Hx. rewrite Hnone in Hx.
      by destruct (row_of i (rows (db w1))).
Qed.

Lemma set_state_spec now i st w :
  wp (on_db (set_state now i st)) (fun w' r => db_only w w' /\ checkpoints (db w') = checkpoints (db w) /\
    (forall j, j <> i -> row_of j (rows (db w')) = row_of j (rows (db w))) /\
    match r with
    | Ok _ => exists row, row_of i (rows (db w)) = Some row /\
                exists row', row_of i (rows (db w')) = Some row' /\ r_state row' = state_to_str st /\
                  r_token_count row' = r_token_count row /\ r_message_count row' = r_message_count row
    | Err _ => same_tables (db w) (db w') /\ ((total w' < total w)%nat \/ row_of i (rows (db w)) = None)
    end) w.
Proof.
  apply wp_zoom. eapply wp_mono; [apply update_row_spec|]. intros d r (Hl & Hr). cbn.
  assert (Hdb : db_only w (with_db d w)) by (split_and!; [done|done|unfold total; cbn; lia]).
  destruct r as [[]|e].
  - destruct Hr as (-> & Hc & [row Hrow]). match goal with |- context [fmap ?f0 (rows (db w))] => set (f := f0) end.
    assert (Hid : forall r, r_id (f r) = r_id r) by (intros r; unfold f; by destruct (String.eqb (r_id r) i)).
    split_and!; [done|done| |].
    + intros j Hj. rewrite row_of_fmap by done. destruct (row_of j (rows (db w))) as [r|] eqn:Er; [|done]. cbn. f_equal.
      unfold f. destruct (row_of_Some _ _ _ Er) as [_ ->]. by rewrite (proj2 (String.eqb_neq _ _)).
    + exists row. split; [done|]. rewrite row_of_fmap, Hrow by done. eexists. split; [done|].
      unfold f. destruct (row_of_Some _ _ _ Hrow) as [_ ->]. by rewrite String.eqb_refl.
  - destruct Hr as [Hs Hb]. split_and!; [done|by destruct Hs| |done|]; [by destruct Hs as [-> _]|].
    destruct Hb; [left; unfold total; cbn; lia|by right].
Qed.

(** The fallback of a blocked delete, from a state where the row is as it was
    or gone. *)
Lemma tombstone_spec now i n row (context display : list M) w :
  into_session_node row = Ok n -> (row_of i (rows (db w)) = Some row \/ row_of i (rows (db w)) = None) ->
  wp (tombstone now i (mkFull (M := M) context display n)) (fun w' r =>
    others i w w' /\ (forall k, wview k w' i = wview k w i) /\
    match r with
    | Ok _ => counts w' i = Some (0, 0) /\ exists row', row_of i (rows (db w')) = Some row' /\ r_state row' = "tombstone"%string
    | Err _ => (counts_only (Some row) (row_of i (rows (db w'))) \/ row_of i (rows (db w')) = None) /\
               ((total w' < total w)%nat \/ row_of i (rows (db w)) = None)
    end) w.
Proof.
  intros Hn Hrow. unfold tombstone. cbn [full_session].
  destruct (into_node_inv row n Hn) as (_ & _ & _ & _ & _ & Hst & _). apply str_to_state_inj in Hst.
  assert (Hown : counts_only (Some row) (row_of i (rows (db w))) \/ row_of i (rows (db w)) = None).
  { destruct Hrow as [->|]; [left; apply counts_refl|by right]. }
  assert (Hv : (if bool_decide (state n = Tombstone) then Ok tt else validate_transition (state n) Tombstone) = Ok tt).
  { unfold validate_transition. case_bool_decide; [done|]. by destruct (state n). }
  apply (wp_bind (if bool_decide (state n = Tombstone) then mret tt else lift (validate_transition (state n) Tombstone))).
  assert (Hfirst : forall Q, Q w (Ok tt) -> wp (if bool_decide (state n = Tombstone) then mret tt else lift (validate_transition (state n) Tombstone)) Q w).
  { intros Q HQ. destruct (bool_decide (state n = Tombstone)); [by apply wp_ret|]. apply wp_lift. by rewrite Hv. }
  apply Hfirst. clear Hfirst. apply wp_bind, wp_map_err. eapply wp_mono; [apply on_update|].
  intros w1 r (Hd1 & _ & Hr). pose proof Hd1 as (_ & _ & L1).
  destruct r as [[]|e]; cbn [map_err].
  2: { destruct Hr as [Hs Hr]. pose proof (same_frame i _ _ Hd1 Hs) as F1. split_and!; [by apply frame_others| | |done].
       - intros k. by apply db_only_views.
       - by destruct Hs as [-> _]. }
  destruct Hr as (row1 & Hr1 & Hr2 & Hj). pose proof (update_frame _ _ _ _ _ _ _ Hd1 Hr1 Hr2 Hj) as F1.
  assert (row1 = row) as -> by (destruct Hrow; congruence).
  assert (V1 : forall k, wview k w1 i = wview k w i) by (intros k; by apply db_only_views).
  case_bool_decide as Hdead.
  - apply wp_ret. split_and!; [by apply frame_others|done|unfold counts; by rewrite Hr2|].
    eexists. split; [done|]. cbn. by rewrite Hst, Hdead.
  - apply wp_map_err. eapply wp_mono; [apply set_state_spec|]. intros w2 r (Hd2 & _ & Hj2 & Hr). pose proof Hd2 as (_ & _ & L2).
    assert (V2 : forall k, wview k w2 i = wview k w i) by (intros k; by rewrite (db_only_views _ _ _ _ Hd2)).
    assert (O2 : others i w w2).
    { eapply others_trans; [by apply frame_others|]. split; [intros; by apply db_only_views|done|done]. }
    destruct r as [[]|e]; cbn [map_err].
    + destruct Hr as (rowa & Ha & row' & Hb & Hs' & Ht & Hm). split_and!; [done|done| |by exists row'].
      unfold counts. rewrite Hb. cbn. rewrite Ht, Hm. rewrite Hr2 in Ha. by injection Ha as <-.
    + destruct Hr as [Hs Hr]. split_and!; [done|done| |].
      * destruct Hs as [-> _]. rewrite Hr2. left. by eexists _, _, _.
      * destruct Hr as [|Hnone]; [left; lia|]. congruence.
Qed.

Lemma on_delete i w :
  wp (on_db (delete i)) (fun w' r => others i w w' /\ db_only w w' /\
    let blocked := existsb (references i) (filter (fun r => r_id r <> i) (rows (db w))) in
    match r with
    | Ok _ => row_of i (rows (db w')) = None /\
              checkpoints (db w') = filter (fun c => c_session_id c <> i) (checkpoints (db w))
    | Err e =>
        row_of i (rows (db w')) = row_of i (rows (db w)) /\
          ((total w' < total w)%nat \/ row_of i (rows (db w)) = None \/
           blocked = true /\ e = StorageError "FOREIGN KEY constraint failed") \/
        row_of i (rows (db w')) = None /\ (total w' < total w)%nat
    end) w.
Proof.
  apply wp_zoom. eapply wp_mono; [apply delete_effect|]. intros d r (Hl & Hr). cbv zeta in *.
  assert (Hdb : db_only w (with_db d w)) by (split_and!; [done|done|unfold total; cbn; lia]).
  assert (Ho : (rows d = rows (db w) \/ rows d = filter (fun r => r_id r <> i) (rows (db w))) -> others i w (with_db d w)).
  { intros Hrows. split; [intros; by apply db_only_views| |by destruct Hdb as (_ & _ & ?)]. intros j Hj. cbn.
    destruct Hrows as [->| ->]; [done|]. by apply row_of_filter_ne. }
  cbn. destruct r as [[]|e].
  - destruct Hr as (Hr & Hc & _). split_and!; [apply Ho; by right|done| |done]. rewrite Hr. apply row_of_filter_eq.
  - destruct Hr as [_ [[Hr Hb]|(Hr & Hb & _)]].
    + split_and!; [apply Ho; by left|done|]. left. rewrite Hr. split; [done|].
      destruct Hb as [Hb|Hb]; [left; unfold total; cbn; lia|by right].
    + split_and!; [apply Ho; by right|done|]. right. rewrite Hr. split; [apply row_of_filter_eq|]. unfold total. cbn. lia.
Qed.

(** C25: deleting a session empties both transcripts and removes its row and
    checkpoints, or, when other sessions refer to it, makes it a tombstone with
    zero counts.  When it fails everything is as before, or the error says that
    undoing failed too: then two failures happened, or one after the row was
    gone.  No other session changes. *)
Theorem delete_session_atomic (now : string) (i : SessionId) (w : World) :
  let '(w', r) := delete_session now i w in
  others i w w' /\
  match r with
  | Ok _ =>
      is_Some (row_of i (rows (db w))) /\ wview Context w' i = [] /\ wview Display w' i = [] /\
      ((row_of i (rows (db w')) = None /\
        checkpoints (db w') = filter (fun c => c_session_id c <> i) (checkpoints (db w))) \/
       (counts w' i = Some (0, 0) /\
        (exists row', row_of i (rows (db w')) = Some row' /\ r_state row' = "tombstone"%string) /\
        (existsb (references i) (filter (fun r => r_id r <> i) (rows (db w))) = true \/ (total w' < total w)%nat)))
  | Err e =>
      frame i w w' /\ restored i w w' \/
      double_failure e /\
        ((total w' + 2 <= total w)%nat \/ row_of i (rows (db w')) = None /\ (total w' < total w)%nat)
  end.
Proof.
  apply wp_pair. match goal with |- wp _ ?P _ => set (Q := P) end.
  assert (Hsame : forall w1 e, frame i w w1 -> (forall k, wview k w1 i = wview k w i) ->
    row_of i (rows (db w1)) = row_of i (rows (db w)) -> Q w1 (Err e)).
  { intros w1 e Hf Hv Hr. split; [by apply frame_others|]. left. split; [done|].
    split_and!; [apply Hv|apply Hv|]. unfold counts. by rewrite Hr. }
  unfold delete_session, full_transcript_snapshot.
  apply wp_bind, wp_bind, wp_map_err. eapply wp_mono; [apply on_get|]. intros w1 r (Hd1 & Hs1 & Hr).
  pose proof (same_frame i _ _ Hd1 Hs1) as F1. assert (V1 : forall k, wview k w1 i = wview k w i) by (intros k; by apply db_only_views).
  assert (R1 : rows (db w1) = rows (db w)) by (by destruct Hs1). assert (C1 : checkpoints (db w1) = checkpoints (db w)) by (by destruct Hs1).
  destruct r as [n|e]; cbn [map_err]; [|apply Hsame; [done|done|by rewrite R1]]. destruct Hr as (row & Hrow & Hn).
  apply wp_bind, wp_map_err. eapply wp_mono; [apply on_read|]. intros w2 r [Hq2 Hr]. pose proof Hq2 as (V2 & D2 & L2).
  pose proof (frame_trans _ _ _ _ F1 (quiet_frame i _ _ Hq2)) as F2.
  destruct r as [display|e]; cbn [map_err]; [|apply Hsame; [done|intros k; by rewrite V2|by rewrite D2, R1]].
  destruct Hr as [-> Had]. apply wp_bind, wp_map_err. eapply wp_mono; [apply on_read|]. intros w3 r [Hq3 Hr].
  pose proof Hq3 as (V3 & D3 & L3). pose proof (frame_trans _ _ _ _ F2 (quiet_frame i _ _ Hq3)) as F3.
  assert (V3' : forall k, wview k w3 i = wview k w i) by (intros k; by rewrite V3, V2).
  assert (Hdb3 : db w3 = db w1) by congruence.
  destruct r as [context|e]; cbn [map_err]; [|apply Hsame; [done|done|by rewrite Hdb3, R1]].
  destruct Hr as [-> Hac]. apply wp_ret. rewrite V1, V2, V1. set (snap := mkFull _ _ _).
  apply wp_bind, wp_map_err. eapply wp_mono; [apply on_truncate|]. intros w4 r [Ht4 Hr4].
  pose proof (frame_trans _ _ _ _ F3 (to_frame _ _ _ _ Ht4)) as F4. pose proof (fr_total _ _ _ F4) as L4.
  assert (Hdb4 : db w4 = db w1) by (by rewrite (to_db _ _ _ _ Ht4)).
  assert (Hc4 : wview Context w4 i = wview Context w i) by (rewrite <- V3'; by apply (to_other _ _ _ _ Ht4)).
  destruct r as [c|e]; cbn [map_err].
  2: { destruct Hr4 as [Hd4 _]. apply Hsame; [done| |by rewrite Hdb4, R1]. intros []; [done|]. by rewrite Hd4. }
  destruct Hr4 as (Hd4 & _). rewrite take_0 in Hd4.
  assert (Hundo : forall op error w', others i w w' -> (total w' < total w)%nat ->
    (counts_only (Some row) (row_of i (rows (db w'))) \/ row_of i (rows (db w')) = None) ->
    wp (compensation ← attempt (restore_full_transcript now i snap);
        fail (A := unit) (compensated_error op error compensation)) Q w').
  { intros op error w' Ho Hlt Hown. eapply wp_mono; [by apply (undo_spec now i n row _ _ op error w w' Hrow Hn)|].
    intros w'' r (Ho' & Hle & e & -> & [[Hf Hres]|[Hdf Hl]]); (split; [done|]); [by left|right]. split; [done|].
    destruct Hl as [Hl|Hl]; [left|right; split; [done|]]; lia. }
  apply wp_bind, wp_attempt. eapply wp_mono; [apply on_truncate|]. intros w5 r [Ht5 Hr5].
  pose proof (frame_trans _ _ _ _ F4 (to_frame _ _ _ _ Ht5)) as F5. pose proof (fr_total _ _ _ (to_frame _ _ _ _ Ht5)) as L5.
  assert (Hdb5 : db w5 = db w1) by (by rewrite (to_db _ _ _ _ Ht5)).
  assert (Hrow5 : row_of i (rows (db w5)) = Some row) by (by rewrite Hdb5, R1).
  destruct r as [c'|e].
  2: { destruct Hr5 as [_ [Hb|[Hb _]]]; [|congruence]. apply Hundo; [by apply frame_others|lia|].
       left. rewrite Hrow5. apply counts_refl. }
  destruct Hr5 as (Hc5 & _). rewrite take_0 in Hc5.
  assert (Hd5 : wview Display w5 i = []) by (rewrite <- Hd4; by apply (to_other _ _ _ _ Ht5)).
  apply wp_bind, wp_attempt. eapply wp_mono; [apply on_delete|]. intros w6 r (O6 & Hd6 & Hr6). cbv zeta in Hr6.
  pose proof Hd6 as (_ & _ & L6). rewrite Hrow5, Hdb5, R1, C1 in Hr6.
  assert (O6' : others i w w6) by (eapply others_trans; [by apply frame_others|done]).
  assert (V6 : forall k, wview k w6 i = []).
  { intros k. rewrite (db_only_views _ _ _ _ Hd6). by destruct k. }
  destruct r as [[]|e].
  { apply wp_ret. split; [done|]. split_and!; [by eexists|apply V6|apply V6|]. by left. }
  assert (Hown6 : row_of i (rows (db w6)) = Some row \/ row_of i (rows (db w6)) = None).
  { destruct Hr6 as [[-> _]|[-> _]]; auto. }
  assert (Hown6' : counts_only (Some row) (row_of i (rows (db w6))) \/ row_of i (rows (db w6)) = None).
  { destruct Hown6 as [->|]; [left; apply counts_refl|by right]. }
  destruct (is_foreign_key_delete_error e) eqn:Efk.
  2: { apply Hundo; [done| |done]. destruct Hr6 as [[_ [Hb|[Hb|[_ ->]]]]|[_ Hb]]; [lia|done|done|lia]. }
  apply wp_bind, wp_attempt. eapply wp_mono; [by apply (tombstone_spec now i n row (wview Context w i) (wview Display w i) w6)|].
  intros w7 r (O7 & V7 & Hr7). pose proof (ot_total _ _ _ O7) as L7.
  assert (O7' : others i w w7) by (by eapply others_trans).
  destruct r as [[]|e7].
  - apply wp_ret. split; [done|]. destruct Hr7 as (Hcnt & Hrow7). split_and!; [by eexists|by rewrite V7|by rewrite V7|].
    right. split_and!; [done|done|]. destruct Hr6 as [[_ [Hb|[Hb|[Hb _]]]]|[_ Hb]]; [right; lia|done|by left|right; lia].
  - destruct Hr7 as [Hown7 Hb7]. apply Hundo; [done| |done].
    destruct Hb7 as [Hb7|Hb7]; [lia|]. destruct Hr6 as [[Hr6 _]|[_ Hb]]; [congruence|lia].
Qed.

(** ** Rolling back to a checkpoint *)
Lemma row_to_checkpoint_inv c t :
  row_to_checkpoint c = Ok t ->
  checkpoint_id t = c_checkpoint_id c /\ cp_session_id t = c_session_id c /\ turn_number t = c_turn_number c /\
  message_count_before t = c_message_count_before c /\ journal_scope_id t = c_journal_scope_id c /\
  invalidated t = negb (c_invalidated c =? 0) /\ 0 <= turn_number t /\ 0 <= message_count_before t <= u32_MAX.
Proof.
  unfold row_to_checkpoint, strict_u32, u32_of. intros Ht.
  destruct ((0 <=? c_turn_number c) && (c_turn_number c <=? u32_MAX)) eqn:E1; [|done]. cbn in Ht.
  destruct ((0 <=? c_message_count_before c) && (c_message_count_before c <=? u32_MAX)) eqn:E2; [|done]. cbn in Ht.
  destruct (parse_from_rfc3339 (c_created_at c)); [|done]. injection Ht as <-. cbn.
  apply andb_prop in E1 as [?%Z.leb_le _], E2 as [?%Z.leb_le ?%Z.leb_le]. by split_and!.
Qed.
Lemma checkpoints_Forall2 l ks : rows_to_checkpoints l = Ok ks -> Forall2 (fun c k => row_to_checkpoint c = Ok k) l ks.
Proof.
  revert ks. induction l as [|c l IH]; intros ks; cbn; [intros [= <-]; constructor|].
  destruct (row_to_checkpoint c) as [k|] eqn:E; [|done]. cbn.
  destruct (rows_to_checkpoints l) as [ks'|]; [|done]. intros [= <-]. constructor; auto.
Qed.

(** Reads of the checkpoints. *)
Lemma db_only_put d w : (db_left d <= db_left (db w))%nat -> db_only w (with_db d w).
Proof. intros Hl. split_and!; [done|done|]. unfold total. cbn. lia. Qed.
Lemma on_load k w :
  wp (on_db (load_checkpoint k)) (fun w' r => db_only w w' /\ same_tables (db w) (db w') /\
    match r with
    | Ok t => exists c, c ∈ checkpoints (db w) /\ c_checkpoint_id c = k /\ row_to_checkpoint c = Ok t
    | Err _ => True
    end) w.
Proof.
  apply wp_zoom. unfold load_checkpoint. apply wp_bind, wp_select.
  - intros d' e Hs Hl. split; [apply db_only_put; lia|]. by split.
  - intros d' Hs Hl. assert (Hd : db_only w (with_db d' w)) by (split_and!; [done|done|unfold total; cbn; lia]).
    pose proof Hs as [_ Hcp]. rewrite Hcp. destruct (List.find _ _) as [c|] eqn:E; [|by apply wp_fail].
    apply List.find_some in E as [Hin%list_elem_of_In Hk%String.eqb_eq]. apply wp_lift. split; [exact Hd|]. split; [exact Hs|].
    destruct (row_to_checkpoint c) eqn:Et; [|done]. by exists c.
Qed.
Lemma on_list i w :
  wp (on_db (list_by_session i)) (fun w' r => db_only w w' /\ same_tables (db w) (db w') /\
    match r with
    | Ok l => exists cs, cs ≡ₚ filter (fun c => c_session_id c = i) (checkpoints (db w)) /\
                Forall2 (fun c k => row_to_checkpoint c = Ok k) cs l
    | Err _ => True
    end) w.
Proof.
  apply wp_zoom. unfold list_by_session. apply wp_bind, wp_select.
  - intros d' e Hs Hl. split; [apply db_only_put; lia|]. by split.
  - intros d' Hs Hl. assert (Hd : db_only w (with_db d' w)) by (split_and!; [done|done|unfold total; cbn; lia]).
    pose proof Hs as [_ Hcp]. rewrite Hcp. apply wp_lift. split; [exact Hd|]. split; [exact Hs|].
    destruct (rows_to_checkpoints _) eqn:Et; [|done]. eexists. split; [apply sort_by_perm|by apply checkpoints_Forall2].
Qed.
(** The live checkpoints of a session from a turn on. *)
Definition live_from (i : SessionId) (turn : Z) (c : CheckpointRow) : Prop :=
  c_session_id c = i /\ turn <= c_turn_number c /\ c_invalidated c = 0.
#[local] Instance live_from_dec i turn c : Decision (live_from i turn c).
Proof. unfold live_from. apply _. Defined.
Lemma live_scopes i turn all cs l :
  cs ≡ₚ filter (fun c => c_session_id c = i) all -> Forall2 (fun c k => row_to_checkpoint c = Ok k) cs l ->
  journal_scope_id <$> filter (fun cp => turn <= turn_number cp /\ invalidated cp = false) l
    ≡ₚ c_journal_scope_id <$> filter (live_from i turn) all.
Proof.
  intros Hcs Hl. transitivity (c_journal_scope_id <$> filter (fun c => turn <= c_turn_number c /\ c_invalidated c = 0) cs).
  - clear Hcs. induction Hl as [|c k cs l Hk Hl IH]; [done|]. rewrite !filter_cons.
    destruct (row_to_checkpoint_inv c k Hk) as (_ & _ & Ht & _ & Hj & Hi & _). rewrite Ht, Hi.
    destruct (Z.eqb_spec (c_invalidated c) 0); repeat case_decide; cbn; rewrite ?IH, ?Hj; (done || naive_solver).
  - rewrite Hcs. match goal with |- ?a ≡ₚ ?b => enough (a = b) as -> by done end. f_equal. clear Hcs Hl cs. unfold live_from.
    induction all as [|c all IH]; [done|]. rewrite !filter_cons. repeat case_decide; rewrite ?filter_cons; repeat case_decide;
      rewrite ?IH; (done || naive_solver).
Qed.

(** A checkpoint's rows after [invalidate_after]. *)
Definition invalidated_from (i : SessionId) (turn : Z) (l : list CheckpointRow) : list CheckpointRow :=
  (fun c => if hit i turn c then invalidate c else c) <$> l.
Lemma on_invalidate i turn w :
  wp (on_db (invalidate_after i turn)) (fun w' r => db_only w w' /\ rows (db w') = rows (db w) /\
    match r with
    | Ok _ => checkpoints (db w') = invalidated_from i turn (checkpoints (db w))
    | Err _ => checkpoints (db w') = checkpoints (db w) /\ (total w' < total w)%nat
    end) w.
Proof.
  apply wp_zoom. unfold invalidate_after. apply wp_bind, wp_sql.
  - intros d' e [Hr Hc] Hl. split; [apply db_only_put; lia|]. split_and!; [done|done|]. unfold total. cbn. lia.
  - intros d1 [Hr Hc] Hl. rewrite Hc. apply wp_ret. split; [by apply db_only_put|]. by split.
Qed.
Lemma no_live_after i turn l :
  1 <= turn -> filter (live_from i turn) (invalidated_from i (saturating_sub turn 1) l) = [].
Proof.
  intros Ht. induction l as [|c l IH]; [done|]. unfold invalidated_from in *. rewrite fmap_cons, filter_cons_False; [done|].
  unfold hit, live_from, saturating_sub. intros (Hi & Hc & Hz).
  destruct (String.eqb (c_session_id c) i && _ && _) eqn:E; [done|].
  apply andb_false_iff in E as [[E|E]%andb_false_iff|E].
  - by apply String.eqb_neq in E.
  - apply Z.ltb_ge in E. lia.
  - by apply Z.eqb_neq in E.
Qed.

(** The mutation of [rollback_to]. *)
Lemma rollback_mutation now i keep t m turn w0 w row :
  row_of i (rows (db w0)) = Some row -> frame i w0 w -> waccepts Context i = true -> waccepts Display i = true ->
  wp (on Display (truncate i keep);;
      removed ← on Context (truncate i keep);
      on_db (update_metadata now i None t m);;
      n ← on_db (invalidate_after i turn);
      mret (removed, n))
    (fun w' r => frame i w0 w' /\
      match r with
      | Ok (removed, _) =>
          wview Context w' i = take keep (wview Context w i) /\ wview Display w' i = take keep (wview Display w i) /\
          removed = (length (wview Context w i) - keep)%nat /\ counts w' i = Some (u32_or_0 t, u32_or_0 m) /\
          checkpoints (db w') = invalidated_from i turn (checkpoints (db w))
      | Err _ => (total w' < total w)%nat /\ checkpoints (db w') = checkpoints (db w)
      end) w.
Proof.
  intros Hrow Hf Hac Had.
  assert (Hlt : forall a w1 w2, blame (total w2) (total w1) a -> a = true -> (total w2 < total w1)%nat) by (unfold blame; intros; naive_solver).
  apply wp_bind. eapply wp_mono; [apply on_truncate|]. intros w1 r [Ht1 Hr].
  pose proof (frame_trans _ _ _ _ Hf (to_frame _ _ _ _ Ht1)) as F1. pose proof (fr_total _ _ _ (to_frame _ _ _ _ Ht1)) as L1.
  destruct r as [c|e]; [|split; [done|]; split; [destruct Hr; eauto|by rewrite (to_db _ _ _ _ Ht1)]].
  destruct Hr as (Hd1 & _). assert (Hc1 : wview Context w1 i = wview Context w i) by (by apply (to_other _ _ _ _ Ht1)).
  apply wp_bind. eapply wp_mono; [apply on_truncate|]. intros w2 r [Ht2 Hr].
  pose proof (frame_trans _ _ _ _ F1 (to_frame _ _ _ _ Ht2)) as F2. pose proof (fr_total _ _ _ (to_frame _ _ _ _ Ht2)) as L2.
  assert (Hdb2 : db w2 = db w) by (by rewrite (to_db _ _ _ _ Ht2), (to_db _ _ _ _ Ht1)).
  destruct r as [removed|e].
  2: { split; [done|]. rewrite Hdb2. split; [|done]. destruct Hr as [_ Hb]. pose proof (Hlt _ _ _ Hb Hac). lia. }
  destruct Hr as (Hc2 & _ & Hrem). rewrite Hc1 in Hc2, Hrem.
  assert (Hd2 : wview Display w2 i = wview Display w1 i) by (by apply (to_other _ _ _ _ Ht2)).
  apply wp_bind. eapply wp_mono; [apply on_update|]. intros w3 r (Hdb3 & Hcp3 & Hr). pose proof Hdb3 as (_ & _ & L3).
  rewrite Hdb2 in Hcp3. destruct r as [[]|e].
  2: { destruct Hr as [Hs Hr]. split; [eapply frame_trans; [exact F2|by apply same_frame]|]. split; [|done].
       destruct Hr as [|Hnone]; [lia|]. pose proof (fr_own _ _ _ F2) as Ho. by rewrite Hrow, Hnone in Ho. }
  destruct Hr as (row' & Hr1 & Hr2 & Hj). pose proof (update_frame _ _ _ _ _ _ _ Hdb3 Hr1 Hr2 Hj) as F3.
  apply wp_bind. eapply wp_mono; [apply on_invalidate|]. intros w4 r (Hdb4 & Hrows4 & Hr4). pose proof Hdb4 as (_ & _ & L4).
  assert (F4 : frame i w0 w4).
  { eapply frame_trans; [exact F2|]. eapply frame_trans; [exact F3|].
    split; [intros; by apply db_only_views|by rewrite Hrows4|rewrite Hrows4; apply counts_refl|done]. }
  destruct r as [n|e].
  - apply wp_ret. split; [done|]. rewrite !(db_only_views _ _ _ _ Hdb4), !(db_only_views _ _ _ _ Hdb3).
    split_and!; [done|by rewrite Hd2|done| |by rewrite Hr4, Hcp3]. unfold counts. by rewrite Hrows4, Hr2.
  - destruct Hr4 as [Hr4 Hl]. split; [done|]. split; [lia|congruence].
Qed.

(** C26: rolling a chat back to a checkpoint of the session that is still valid
    cuts both transcripts to the messages before it, sets the message count,
    invalidates the session's valid checkpoints from its turn on and returns
    their file scopes.  When it fails, transcripts, counts and checkpoints are as
    before, or the error says that undoing failed too, which takes two failures.
    No other session changes. *)
Theorem rollback_atomic (now : string) (i : SessionId) (k : string) (w : World) :
  let '(w', r) := rollback_to now i k w in
  frame i w w' /\
  match r with
  | Ok res =>
      exists c, c ∈ checkpoints (db w) /\ c_checkpoint_id c = k /\ c_session_id c = i /\ c_invalidated c = 0 /\
        let keep := Z.to_nat (c_message_count_before c) in
        (keep <= length (wview Context w i))%nat /\ (keep <= length (wview Display w i))%nat /\
        wview Context w' i = take keep (wview Context w i) /\ wview Display w' i = take keep (wview Display w i) /\
        messages_removed res = (length (wview Context w i) - keep)%nat /\
        (exists tokens, fst <$> counts w i = Some tokens /\ counts w' i = Some (tokens, c_message_count_before c)) /\
        scopes_rolled_back res ≡ₚ c_journal_scope_id <$> filter (live_from i (c_turn_number c)) (checkpoints (db w)) /\
        checkpoints (db w') = invalidated_from i (saturating_sub (c_turn_number c) 1) (checkpoints (db w)) /\
        (1 <= c_turn_number c -> filter (live_from i (c_turn_number c)) (checkpoints (db w')) = [])
  | Err e =>
      checkpoints (db w') = checkpoints (db w) /\
      (restored i w w' \/
       (total w' + 2 <= total w)%nat /\
       exists e1 e2, e = OtherError ("rollback chat transcript failed: " +:+ e1 +:+ "; compensation also failed: " +:+ e2))
  end.
Proof.
  apply wp_pair. match goal with |- wp _ ?P _ => set (Q := P) end.
  assert (Hsame : forall w1 e, frame i w w1 -> (forall k, wview k w1 i = wview k w i) -> same_tables (db w) (db w1) -> Q w1 (Err e)).
  { intros w1 e Hf Hv [Hr Hc]. split; [done|]. split; [done|]. left. split_and!; [apply Hv|apply Hv|]. unfold counts. by rewrite Hr. }
  assert (Hq : forall w1 w2, quiet w1 w2 -> same_tables (db w) (db w1) -> same_tables (db w) (db w2)) by (intros w1 w2 (_ & -> & _); done).
  unfold rollback_to. apply wp_bind. eapply wp_mono; [apply on_load|]. intros w1 r (Hd1 & Hs1 & Hr).
  pose proof (same_frame i _ _ Hd1 Hs1) as F1. assert (V1 : forall k, wview k w1 i = wview k w i) by (intros k'; by apply db_only_views).
  destruct r as [t|e]; [|by apply Hsame]. destruct Hr as (c & Hin & Hk & Ht).
  destruct (row_to_checkpoint_inv c t Ht) as (_ & Hsid & Hturn & Hbefore & _ & Hinv & _ & Hrange). rewrite Hsid, Hinv.
  destruct (String.eqb_spec (c_session_id c) i) as [Hci|]; cbn [negb]; [|by apply wp_fail, Hsame].
  destruct (Z.eqb_spec (c_invalidated c) 0) as [Hz|]; cbn [negb]; [|by apply wp_fail, Hsame].
  apply wp_bind. eapply wp_mono; [apply on_list|]. intros w2 r (Hd2 & Hs2 & Hr).
  pose proof (same_trans _ _ _ Hs1 Hs2) as S2. pose proof (frame_trans _ _ _ _ F1 (same_frame i _ _ Hd2 Hs2)) as F2.
  assert (V2 : forall k, wview k w2 i = wview k w i) by (intros k'; by rewrite (db_only_views _ _ _ _ Hd2)).
  destruct r as [l|e]; [|by apply Hsame]. destruct Hr as (cs & Hcs & Hl). destruct Hs1 as [R1 C1]. rewrite C1 in Hcs.
  unfold rollback_snapshot. apply wp_bind, wp_bind. eapply wp_mono; [apply on_get|]. intros w3 r (Hd3 & Hs3 & Hr).
  pose proof (same_trans _ _ _ S2 Hs3) as S3. pose proof (frame_trans _ _ _ _ F2 (same_frame i _ _ Hd3 Hs3)) as F3.
  assert (V3 : forall k, wview k w3 i = wview k w i) by (intros k'; by rewrite (db_only_views _ _ _ _ Hd3)).
  destruct r as [n|e]; [|by apply Hsame]. destruct Hr as (row & Hrow & Hn). destruct S2 as [R2 C2]. rewrite R2 in Hrow.
  apply wp_bind. eapply wp_mono; [apply on_read|]. intros w4 r [Hq4 Hr]. pose proof Hq4 as (V4 & D4 & L4).
  pose proof (frame_trans _ _ _ _ F3 (quiet_frame i _ _ Hq4)) as F4. pose proof (Hq _ _ Hq4 S3) as S4.
  destruct r as [context|e]; [|apply Hsame; [done|intros k'; by rewrite V4|done]]. destruct Hr as [-> Hac].
  apply wp_bind. eapply wp_mono; [apply on_read|]. intros w5 r [Hq5 Hr]. pose proof Hq5 as (V5 & D5 & L5).
  pose proof (frame_trans _ _ _ _ F4 (quiet_frame i _ _ Hq5)) as F5. pose proof (Hq _ _ Hq5 S4) as S5.
  assert (V5' : forall k, wview k w5 i = wview k w i) by (intros k'; by rewrite V5, V4).
  destruct r as [display|e]; [|by apply Hsame]. destruct Hr as [-> Had].
  apply wp_ret. cbn [rb_context rb_display rb_token_count rb_message_count]. rewrite V4, V3, V3, Hbefore, Hturn.
  set (keep := Z.to_nat (c_message_count_before c)).
  destruct (_ || _) eqn:Elen; [by apply wp_fail, Hsame|].
  apply orb_false_elim in Elen as [Elen1%Nat.ltb_ge Elen2%Nat.ltb_ge].
  apply wp_bind, wp_attempt. eapply wp_mono; [by eapply (rollback_mutation now i keep _ _ _ w w5 row)|].
  intros w6 r [F6 Hr]. destruct S5 as [R5 C5]. rewrite !V5' in Hr. destruct r as [[removed m]|e].
  - apply wp_ret. destruct Hr as (Hc & Hd & Hrem & Hcnt & Hcp). rewrite C5 in Hcp. split; [done|].
    exists c. cbn [messages_removed scopes_rolled_back]. split_and!; try done.
    + exists (token_count n). rewrite (node_counts i row n w Hrow Hn). split; [done|]. rewrite Hcnt.
      destruct (node_counts_u32 row n Hn) as [-> _]. do 2 f_equal. unfold u32_or_0, u32_of.
      by rewrite (proj2 (Z.leb_le _ _)), (proj2 (Z.leb_le _ _)) by lia.
    + by eapply live_scopes.
    + intros H1'. rewrite Hcp. by apply no_live_after.
  - destruct Hr as [Hlt Hcp]. rewrite C5 in Hcp. apply wp_bind, wp_attempt. unfold restore_rollback_snapshot.
    cbn [rb_context rb_display rb_token_count rb_message_count].
    apply wp_bind. eapply wp_mono; [by apply restore_all_spec|]. intros w7 r (F7 & Hcp7 & errors & -> & Hr).
    assert (Hown : row_of i (rows (db w6)) <> None).
    { intros Hnone. pose proof (fr_own _ _ _ F6) as Ho. by rewrite Hrow, Hnone in Ho. }
    destruct errors as [|x errors].
    + apply wp_ret, wp_fail. split; [by eapply frame_trans|]. split; [congruence|]. left.
      destruct Hr as (Hc & Hd & Hcnt). split_and!; [done|done|]. rewrite Hcnt, (node_counts i row n w Hrow Hn).
      by destruct (node_counts_u32 row n Hn) as [-> ->].
    + apply wp_fail, wp_fail. split; [by eapply frame_trans|]. split; [congruence|]. right.
      split; [|by eexists _, _]. destruct Hr as [Hr|]; [|done]. pose proof (fr_total _ _ _ F5). lia.
Qed.
End lemmas.

(** ** The stores together: a session in files and a database *)
Notation SampleWorld := (World (C := Dir Context) (D := Dir Display)).
#[local] Existing Instance sample_laws.
#[local] Instance sample_context : TranscriptStore (Dir Context) bool := jsonl_store Context "/d".
#[local] Instance sample_display : TranscriptStore (Dir Display) bool := jsonl_store Display "/d".
#[local] Instance sample_context_contract : TranscriptContract (Dir Context) bool := jsonl_contract Context "/d".
#[local] Instance sample_display_contract : TranscriptContract (Dir Display) bool := jsonl_contract Display "/d".
Definition fails_after (n : nat) (e : string) : list (option (nat * string)) := replicate n None ++ [Some (1%nat, e)].
Definition sample_world (d : Db) (context : list (option (nat * string))) : SampleWorld :=
  mkWorld (mkFs ∅ context) (mkFs ∅ []) (mkDb (rows d) [] []).

(** The second message does not fit on the disk. *)
Definition sample_full : SampleWorld := sample_world sample_db1 (fails_after 10 "no space").
Theorem append_messages_atomic_witness :
  let '(w', r) := append_messages "t5" "a" [true; false] sample_full in
  r = Err (MOther ("append messages failed and was rolled back: transcript error: context transcript: " +:+
                   "transcript error: write to transcript: no space")) /\
  restored "a" sample_full w' /\ files (disp w') <> ∅.
Proof.
  pose proof (append_messages_atomic "t5" "a" [true; false] sample_full) as H.
  assert (Hr : (append_messages "t5" "a" [true; false] sample_full).2 =
    Err (MOther ("append messages failed and was rolled back: transcript error: context transcript: " +:+
                   "transcript error: write to transcript: no space"))) by (vm_compute; reflexivity).
  assert (Hd : files (disp (append_messages "t5" "a" [true; false] sample_full).1) <> ∅) by (vm_compute; discriminate).
  destruct (append_messages "t5" "a" [true; false] sample_full) as [w' r]. cbn [fst snd] in Hr, Hd. subst r.
  destruct H as [_ [H|(_ & e1 & e2 & H)]]; [split; [reflexivity|split; [exact H|exact Hd]]|].
  exfalso. injection H as H. vm_compute in H. discriminate H.
Defined.

(** A session with a branch cannot be deleted; it becomes a tombstone. *)
Definition sample_branched : SampleWorld :=
  (append_messages "t5" "a" [true; false] (sample_world sample_db [])).1.
Theorem delete_session_atomic_witness :
  let '(w', r) := delete_session "t6" "a" sample_branched in
  r = Ok tt /\ (r_state <$> row_of "a" (rows (db w'))) = Some "tombstone"%string /\ others "a" sample_branched w'.
Proof.
  pose proof (delete_session_atomic "t6" "a" sample_branched) as H.
  assert (Hr : (delete_session "t6" "a" sample_branched).2 = Ok tt) by (vm_compute; reflexivity).
  assert (Hs : (r_state <$> row_of "a" (rows (db (delete_session "t6" "a" sample_branched).1))) = Some "tombstone"%string)
    by (vm_compute; reflexivity).
  destruct (delete_session "t6" "a" sample_branched) as [w' r]. destruct H as [H _].
  split; [exact Hr|split; [exact Hs|exact H]].
Defined.

(** Two turns, rolled back to the second's beginning. *)
Definition sample_turns : SampleWorld :=
  let w0 := (append_messages "t5" "a" [true] (sample_world sample_db1 [])).1 in
  let w1 := (create_checkpoint "k1" "t6" 6 "a" 1 0 "scope1" w0).1 in
  let w2 := (create_checkpoint "k2" "t7" 7 "a" 2 1 "scope2" w1).1 in
  (append_messages "t8" "a" [false; true] w2).1.
Theorem rollback_atomic_witness :
  let '(w', r) := rollback_to "t9" "a" "k2" sample_turns in
  r = Ok (mkRollback 2 ["scope2"%string] 1 1) /\ wview Context w' "a" = [true] /\
  checkpoints (db w') = invalidated_from "a" 1 (checkpoints (db sample_turns)).
Proof.
  pose proof (rollback_atomic "t9" "a" "k2" sample_turns) as H.
  assert (Hr : (rollback_to "t9" "a" "k2" sample_turns).2 = Ok (mkRollback 2 ["scope2"%string] 1 1)) by (vm_compute; reflexivity).
  assert (Hk : forall c, c ∈ checkpoints (db sample_turns) -> c_checkpoint_id c = "k2"%string ->
    c_message_count_before c = 1 /\ c_turn_number c = 2).
  { intros c Hc He. vm_compute in Hc. apply elem_of_cons in Hc as [->|Hc]; [discriminate He|].
    apply elem_of_cons in Hc as [->|Hc]; [split; reflexivity|]. exfalso. exact (not_elem_of_nil _ Hc). }
  assert (Hv : wview Context sample_turns "a" = [true; false; true]) by (vm_compute; reflexivity).
  destruct (rollback_to "t9" "a" "k2" sample_turns) as [w' r]. cbn [snd] in Hr. subst r.
  destruct H as (_ & c & Hc & He & _ & _ & _ & _ & Hx & _ & _ & _ & _ & Hcp & _).
  destruct (Hk c Hc He) as [Hb Ht]. rewrite Hb, Hv in Hx. rewrite Ht in Hcp.
  split; [reflexivity|split; [exact Hx|exact Hcp]].
Defined.
