(* ===== verification/Utf8.v ===== *)
(** * Strings as UTF-8 bytes

    What [str] does character by character on its bytes: [chars], counts, lengths,
    [contains], char boundaries, and texts cut to a number of bytes without
    splitting a character.  [estimate_tokens] is the estimate three crates share
    ([hf-context/token_utils.rs], [hf-prompt/budget.rs], [hf-context/simple.rs]). *)
From S2P Require Import Prelude.

(** ** Characters of a string *)
Definition continuation (c : Ascii.ascii) : bool := (128 <=? code c) && (code c <? 192).
Fixpoint chars (s : string) : list string :=
  match s with
  | EmptyString => []
  | String c r =>
      let cs := chars r in
      match r, cs with
      | String d _, w :: ws => if continuation d then String c w :: ws else String c EmptyString :: cs
      | _, _ => String c EmptyString :: cs
      end
  end.
Definition of_chars (l : list string) : string := String.concat "" l.
Definition len (s : string) : Z := Z.of_nat (String.length s).
Definition char_count (s : string) : Z := zlen (chars s).
Definition nl : string := String LF EmptyString.
Fixpoint contains (s p : string) : bool :=
  String.prefix p s || match s with EmptyString => false | String _ s' => contains s' p end.
Definition quoted (s : string) : string := quote +:+ s +:+ quote.
Definition div_ceil (a b : Z) : Z := (a + b - 1) / b.

(** [token_utils::estimate_tokens]. *)
Definition estimate_tokens_u32 (text : string) : Z := Z.min u32_MAX (div_ceil (len text) 4).

(** ** Slices at byte positions *)
(** [&s[..n]], [&s[n..]]. *)
Fixpoint str_take (n : nat) (s : string) : string :=
  match n, s with S n, String c s => String c (str_take n s) | _, _ => EmptyString end.
Fixpoint str_drop (n : nat) (s : string) : string :=
  match n, s with S n, String _ s => str_drop n s | _, _ => s end.
Definition is_char_boundary (s : string) (i : nat) : bool :=
  (i =? 0)%nat || (i =? String.length s)%nat
  || match String.get i s with Some c => negb (continuation c) | None => false end.
(** The nearest boundary at or before a position, at or after it. *)
Fixpoint floor_boundary (s : string) (i : nat) : nat :=
  match i with O => O | S j => if is_char_boundary s i then i else floor_boundary s j end.
Fixpoint ceil_boundary (fuel : nat) (s : string) (i : nat) : nat :=
  match fuel with
  | S fuel => if (i <? String.length s)%nat && negb (is_char_boundary s i) then ceil_boundary fuel s (S i) else i
  | O => i
  end.
Definition head_within (s : string) (max : Z) : string :=
  if len s <=? max then s else str_take (floor_boundary s (Z.to_nat max)) s.
Definition tail_within (s : string) (max : Z) : string :=
  if len s <=? max then s
  else str_drop (ceil_boundary (String.length s) s (Z.to_nat (len s - max))) s.

(** ** Characters and bytes *)
Definition starts (s : string) : bool := match s with String c _ => negb (continuation c) | EmptyString => false end.
Lemma chars_nonempty c r : chars (String c r) <> [].
Proof. cbn. destruct r, (chars _); try done. by case_match. Qed.
Lemma chars_cons c r : chars (String c r) =
  match r with
  | String d _ => if continuation d then
                    match chars r with w :: ws => String c w :: ws | [] => [String c ""] end
                  else String c "" :: chars r
  | EmptyString => [String c ""]
  end.
Proof.
  cbn. destruct r as [|d r]; [done|]. destruct (chars (String d r)) eqn:E; [by destruct (chars_nonempty d r)|].
  by destruct (continuation d).
Qed.
Lemma chars_app a b : b = "" \/ starts b = true -> chars (a +:+ b) = chars a ++ chars b.
Proof.
  intros Hb. induction a as [|c a IH]; [done|]. change (String c a +:+ b) with (String c (a +:+ b)).
  rewrite !chars_cons. destruct a as [|d a].
  - change ("" +:+ b) with b. destruct b as [|e b]; [done|]. destruct Hb as [?|Hb]; [done|]. cbn in Hb.
    apply negb_true_iff in Hb. by rewrite Hb.
  - change (String d a +:+ b) with (String d (a +:+ b)) in *. rewrite IH. destruct (continuation d); [|done].
    destruct (chars (String d a)) eqn:E; [by destruct (chars_nonempty d a)|done].
Qed.
Lemma of_chars_cons w l : of_chars (w :: l) = w +:+ of_chars l.
Proof. unfold of_chars. destruct l; cbn; [by rewrite append_nil_r|done]. Qed.
Lemma of_chars_chars s : of_chars (chars s) = s.
Proof.
  induction s as [|c s IH]; [done|]. rewrite chars_cons. destruct s as [|d s]; [done|].
  destruct (chars (String d s)) as [|w ws] eqn:E; [by destruct (chars_nonempty d s)|].
  rewrite of_chars_cons in IH. destruct (continuation d); rewrite !of_chars_cons.
  - change (String c (w +:+ of_chars ws) = String c (String d s)). by rewrite IH.
  - change (String c (w +:+ of_chars ws) = String c (String d s)). by rewrite IH.
Qed.
(** The characters of a string are characters, and all but the first start one. *)
Lemma chars_are_chars s : Forall (fun w => chars w = [w]) (chars s) /\ Forall (fun w => starts w = true) (tail (chars s))
  /\ (starts s = true -> Forall (fun w => starts w = true) (chars s)).
Proof.
  induction s as [|c s (IH1 & IH2 & IH3)]; [done|]. rewrite chars_cons. destruct s as [|d s].
  { split; [by repeat constructor|]. split; [done|]. cbn. intros H. by repeat constructor. }
  destruct (continuation d) eqn:Ed.
  - destruct (chars (String d s)) as [|w ws] eqn:E; [by destruct (chars_nonempty d s)|].
    inversion IH1 as [|? ? Hw Hws]; subst. cbn [tail] in *. split_and!; [|done|intros H; by constructor].
    constructor; [|done]. pose proof (of_chars_chars (String d s)) as Hs. rewrite E, of_chars_cons in Hs.
    destruct w as [|e w]; [by cbn in Hw|]. injection Hs as -> _. rewrite chars_cons, Ed, Hw. done.
  - assert (Hst : starts (String d s) = true) by (cbn; by rewrite Ed). specialize (IH3 Hst).
    split_and!; [by constructor|done|intros H; constructor; [exact H|done]].
Qed.
Lemma chars_of_chars l :
  Forall (fun w => chars w = [w]) l -> Forall (fun w => starts w = true) (tail l) -> chars (of_chars l) = l.
Proof.
  induction 1 as [|w l Hw Hl IH]; intros Hs; [done|]. cbn [tail] in Hs. rewrite of_chars_cons, chars_app.
  - rewrite Hw, IH; [done|]. by destruct Hs.
  - destruct Hs as [|v l Hv Hs]; [by left|right]. rewrite of_chars_cons. by destruct v.
Qed.
Definition ascii (s : string) : bool := forallb (fun c => code c <? 128) (String.list_ascii_of_string s).
Lemma ascii_char_count s : ascii s = true -> char_count s = len s.
Proof.
  unfold char_count, len, zlen. intros H. f_equal. induction s as [|c s IH]; [done|]. cbn in H.
  apply andb_true_iff in H as [Hc Hs]. specialize (IH Hs). rewrite chars_cons. cbn [String.length]. rewrite <- IH.
  destruct s as [|d s]; [done|]. cbn in Hs. apply andb_true_iff in Hs as [Hd _].
  replace (continuation d) with false by (unfold continuation; lia). done.
Qed.

Lemma append_length (a b : string) : len (a +:+ b) = len a + len b.
Proof. unfold len. induction a as [|c a IH]; [done|]. change (String c a +:+ b) with (String c (a +:+ b)). cbn [String.length]. lia. Qed.
Lemma ascii_app a b : ascii (a +:+ b) = ascii a && ascii b.
Proof.
  unfold ascii. induction a as [|c a IH]; [done|]. change (String c a +:+ b) with (String c (a +:+ b)).
  cbn [String.list_ascii_of_string forallb]. by rewrite IH, andb_assoc.
Qed.
(** Decimal digits are ASCII, and few. *)
Lemma pretty_N_go_short d : forall x s, (x < 10 ^ N.of_nat d)%N -> ascii s = true ->
  ascii (pretty_N_go x s) = true /\ len s <= len (pretty_N_go x s) <= Z.of_nat d + len s.
Proof.
  induction d as [|d IH]; intros x s Hx Hs.
  - replace x with 0%N by (cbn in Hx; lia). rewrite pretty_N_go_0. split; [done|lia].
  - destruct (decide (x = 0)%N) as [->|]; [rewrite pretty_N_go_0; split; [done|lia]|].
    rewrite pretty_N_go_step by lia. destruct (IH (x / 10)%N (String (pretty_N_char (x mod 10)) s)) as [Ha Hl].
    + rewrite Nat2N.inj_succ, N.pow_succ_r' in Hx. apply N.Div0.div_lt_upper_bound. lia.
    + unfold ascii. cbn [String.list_ascii_of_string forallb]. apply andb_true_iff. split; [|exact Hs].
      unfold pretty_N_char. by repeat case_match.
    + split; [done|]. assert (len (String (pretty_N_char (x mod 10)) s) = 1 + len s) by (unfold len; cbn [String.length]; lia). lia.
Qed.
Lemma pretty_Z_short n d : 0 <= n < 10 ^ Z.of_nat d -> (0 < d)%nat ->
  ascii (pretty n) = true /\ 1 <= len (pretty n) <= Z.of_nat d.
Proof.
  intros Hn Hd. destruct n as [|p|p]; [|clear Hd|lia].
  { split; [done|]. change (len (pretty 0)) with 1. lia. }
  change (pretty (Zpos p)) with (if decide (N.pos p = 0)%N then "0"%string else pretty_N_go (N.pos p) "").
  case_decide as E; [done|].
  assert (Hp : (N.pos p < 10 ^ N.of_nat d)%N).
  { apply N2Z.inj_lt. rewrite N2Z.inj_pow, nat_N_Z. cbn. lia. }
  destruct (pretty_N_go_short d (N.pos p) "" Hp eq_refl) as [Ha Hl]. split; [done|].
  change (len "") with 0 in Hl. split; [|lia]. rewrite pretty_N_go_step by lia.
  destruct (pretty_N_go_short d (N.pos p / 10)%N (String (pretty_N_char (N.pos p mod 10)) "")) as [_ Hl'].
  - eapply N.le_lt_trans; [|exact Hp]. apply N.Div0.div_le_upper_bound. lia.
  - unfold ascii, pretty_N_char. cbn. by repeat case_match.
  - change (len (String ?c "")) with 1 in Hl'. lia.
Qed.


(** ** What the slices keep: whole characters, as many as fit *)
Fixpoint fit_head (max : Z) (cs : list string) : list string :=
  match cs with
  | w :: cs => if len w <=? max then w :: fit_head (max - len w) cs else []
  | [] => []
  end.
Fixpoint fit_tail (max : Z) (cs : list string) : list string :=
  match cs with
  | w :: cs' => if len (of_chars cs) <=? max then cs else fit_tail max cs'
  | [] => []
  end.
Definition proper (cs : list string) : Prop :=
  Forall (fun w => chars w = [w]) cs /\ Forall (fun w => starts w = true) (tail cs).
Lemma chars_proper s : proper (chars s).
Proof. by destruct (chars_are_chars s) as (? & ? & _). Qed.
Lemma proper_cons w cs : proper (w :: cs) -> chars w = [w] /\ proper cs /\ (cs = [] \/ starts (of_chars cs) = true).
Proof.
  intros [H1 H2]. inversion H1 as [|? ? Hw Hc]; subst. cbn [tail] in H2. split; [done|]. split.
  - split; [done|]. by destruct H2.
  - destruct H2 as [|v l Hv H2]; [by left|right]. rewrite of_chars_cons. by destruct v.
Qed.

Lemma str_length_app (a b : string) : String.length (a +:+ b) = (String.length a + String.length b)%nat.
Proof. pose proof (append_length a b). unfold len in *. lia. Qed.
Lemma get_app_l (a b : string) i : (i < String.length a)%nat -> String.get i (a +:+ b) = String.get i a.
Proof. revert i. induction a as [|c a IH]; intros i Hi; cbn in *; [lia|]. destruct i; [done|]. apply IH. lia. Qed.
Lemma get_app_r (a b : string) i : String.get (String.length a + i) (a +:+ b) = String.get i b.
Proof. by induction a as [|c a IH]. Qed.
Lemma get_nil i : String.get i "" = None.
Proof. by destruct i. Qed.
Lemma get_none (a : string) i : (String.length a <= i)%nat -> String.get i a = None.
Proof. revert i. induction a as [|c a IH]; intros i Hi; [apply get_nil|]. cbn in *. destruct i; [lia|]. apply IH. lia. Qed.
Lemma str_take_app (a b : string) i : str_take (String.length a + i) (a +:+ b) = a +:+ str_take i b.
Proof. induction a as [|c a IH]; [done|]. change (String c a +:+ ?x) with (String c (a +:+ x)). cbn. by rewrite IH. Qed.
Lemma str_drop_app (a b : string) i : str_drop (String.length a + i) (a +:+ b) = str_drop i b.
Proof. by induction a as [|c a IH]. Qed.
Lemma str_take_0 s : str_take 0 s = "".
Proof. by destruct s. Qed.
Lemma str_drop_0 s : str_drop 0 s = s.
Proof. by destruct s. Qed.
Lemma str_take_all s i : (String.length s <= i)%nat -> str_take i s = s.
Proof. revert i. induction s as [|c s IH]; intros i Hi; [by destruct i|]. cbn in Hi. destruct i; [lia|]. cbn. by rewrite IH by lia. Qed.
Lemma str_drop_all s i : (String.length s <= i)%nat -> str_drop i s = "".
Proof. revert i. induction s as [|c s IH]; intros i Hi; [by destruct i|]. cbn in Hi. destruct i; [lia|]. apply IH. lia. Qed.

(** A character followed by more has its boundaries at its ends only. *)
Lemma char_inside w i c : chars w = [w] -> (0 < i)%nat -> String.get i w = Some c -> continuation c = true.
Proof.
  revert i. induction w as [|d w IH]; intros i Hw Hi Hg; [by rewrite get_nil in Hg|].
  rewrite chars_cons in Hw. destruct w as [|e w]; [destruct i; [lia|by destruct i]|].
  destruct (continuation e) eqn:He; [|by destruct (chars_nonempty e w); injection Hw].
  destruct i as [|[|i]]; [lia|cbn in Hg; by injection Hg as <-|].
  apply (IH (S i)); [|lia|exact Hg]. destruct (chars (String e w)) as [|v vs] eqn:E; [done|]. injection Hw as -> ->. done.
Qed.
Lemma boundary_inside w r i : chars w = [w] -> (0 < i < String.length w)%nat -> is_char_boundary (w +:+ r) i = false.
Proof.
  intros Hw Hi. unfold is_char_boundary. rewrite str_length_app, get_app_l by lia.
  replace (i =? 0)%nat with false by lia. replace (i =? _)%nat with false by lia. cbn [orb].
  destruct (String.get i w) as [c|] eqn:E; [|done]. by rewrite (char_inside w i c) by (done || lia).
Qed.
Lemma boundary_after w r i : r = "" \/ starts r = true -> is_char_boundary (w +:+ r) (String.length w + i) = is_char_boundary r i || (i =? 0)%nat.
Proof.
  intros Hr. unfold is_char_boundary. rewrite str_length_app, get_app_r.
  replace (String.length w + i =? String.length w + String.length r)%nat with (i =? String.length r)%nat by (apply eq_true_iff_eq; rewrite !Nat.eqb_eq; lia).
  destruct i as [|i]; [|rewrite Nat.add_succ_r; cbn [Nat.eqb orb]; by rewrite orb_false_r].
  cbn [Nat.eqb orb]. destruct r as [|c r]; [cbn; by rewrite orb_true_r|]. destruct Hr as [?|Hr]; [done|].
  cbn in *. rewrite Hr. by rewrite !orb_true_r.
Qed.

Lemma floor_boundary_inside w r i : chars w = [w] -> (i < String.length w)%nat -> floor_boundary (w +:+ r) i = 0%nat.
Proof. intros Hw. induction i as [|i IH]; intros Hi; [done|]. cbn [floor_boundary]. rewrite boundary_inside by (done || lia). apply IH. lia. Qed.
Lemma floor_boundary_after w r i : r = "" \/ starts r = true -> (0 < String.length w)%nat ->
  floor_boundary (w +:+ r) (String.length w + i) = (String.length w + floor_boundary r i)%nat.
Proof.
  intros Hr Hw. induction i as [|i IH].
  - cbn [floor_boundary]. destruct (String.length w) as [|n] eqn:E; [lia|].
    cbn [floor_boundary Nat.add]. replace (S (n + 0)) with (String.length w + 0)%nat by lia.
    rewrite boundary_after by done. cbn [Nat.eqb]. rewrite orb_true_r. lia.
  - rewrite Nat.add_succ_r. cbn [floor_boundary]. rewrite <- Nat.add_succ_r, boundary_after by done.
    cbn [Nat.eqb]. rewrite orb_false_r. destruct (is_char_boundary r (S i)); [done|exact IH].
Qed.
Lemma take_floor cs : proper cs -> forall i,
  str_take (floor_boundary (of_chars cs) i) (of_chars cs) = of_chars (fit_head (Z.of_nat i) cs).
Proof.
  induction cs as [|w cs IH]; intros Hp i; [by destruct (floor_boundary _ _)|].
  apply proper_cons in Hp as (Hw & Hp & Hst). rewrite of_chars_cons. cbn [fit_head].
  assert (Hpos : (0 < String.length w)%nat) by (destruct w; [done|cbn; lia]).
  assert (Hst' : of_chars cs = "" \/ starts (of_chars cs) = true) by (destruct Hst as [->|]; [by left|by right]).
  unfold len in *. destruct (Nat.lt_ge_cases i (String.length w)) as [Hi|Hi].
  - rewrite floor_boundary_inside by done. replace (_ <=? _) with false by lia. apply str_take_0.
  - replace i with (String.length w + (i - String.length w))%nat at 1 by lia.
    rewrite floor_boundary_after, str_take_app, IH by done. replace (_ <=? _) with true by lia.
    rewrite of_chars_cons. do 3 f_equal. lia.
Qed.
Lemma fit_head_all max cs : len (of_chars cs) <= max -> fit_head max cs = cs.
Proof.
  revert max. induction cs as [|w cs IH]; intros max H; [done|]. rewrite of_chars_cons, append_length in H. cbn [fit_head].
  assert (0 <= len (of_chars cs)) by (unfold len; lia). replace (_ <=? _) with true by lia. rewrite IH; [done|lia].
Qed.
(** [head_within] is the longest run of whole characters from the start. *)
Lemma head_within_spec s max : 0 <= max -> head_within s max = of_chars (fit_head max (chars s)).
Proof.
  intros Hm. unfold head_within. destruct (len s <=? max) eqn:E.
  - rewrite fit_head_all, of_chars_chars; [done|]. rewrite of_chars_chars. lia.
  - rewrite <- (of_chars_chars s) at 1 2. rewrite take_floor by apply chars_proper. by rewrite Z2Nat.id.
Qed.
Lemma fit_head_len max cs : 0 <= max -> len (of_chars (fit_head max cs)) <= max.
Proof.
  revert max. induction cs as [|w cs IH]; intros max H; [done|]. cbn [fit_head]. destruct (_ <=? _) eqn:E; [|done].
  rewrite of_chars_cons, append_length. specialize (IH (max - len w)). lia.
Qed.
Lemma fit_head_prefix max cs : fit_head max cs `prefix_of` cs.
Proof. revert max. induction cs as [|w cs IH]; intros max; [done|]. cbn. case_match; [|apply prefix_nil]. by apply prefix_cons. Qed.
Lemma head_within_len s max : 0 <= max -> len (head_within s max) <= max.
Proof. intros. rewrite head_within_spec by done. by apply fit_head_len. Qed.

(** The same from the end. *)
Fixpoint skip_chars (i : nat) (cs : list string) : list string :=
  match cs with
  | w :: cs' => if (i =? 0)%nat then cs else skip_chars (i - String.length w) cs'
  | [] => []
  end.
Lemma ceil_boundary_inside w r : chars w = [w] -> r = "" \/ starts r = true ->
  forall fuel i, (0 < i <= String.length w)%nat -> (String.length w <= fuel + i)%nat ->
  ceil_boundary fuel (w +:+ r) i = String.length w.
Proof.
  intros Hw Hr fuel. induction fuel as [|fuel IH]; intros i Hi Hf; cbn [ceil_boundary]; [lia|].
  rewrite str_length_app. destruct (decide (i = String.length w)) as [->|Hne].
  - replace (String.length w) with (String.length w + 0)%nat at 3 by lia. rewrite boundary_after by done.
    rewrite orb_true_r. cbn [negb]. by rewrite andb_false_r.
  - rewrite boundary_inside by (done || lia). replace (_ <? _)%nat with true by lia. cbn [negb andb]. apply IH; lia.
Qed.
Lemma ceil_boundary_after w r fuel : r = "" \/ starts r = true -> forall i,
  ceil_boundary fuel (w +:+ r) (String.length w + i) = (String.length w + ceil_boundary fuel r i)%nat.
Proof.
  intros Hr. induction fuel as [|fuel IH]; intros i; [done|]. cbn [ceil_boundary].
  rewrite str_length_app, boundary_after by done.
  replace (String.length w + i <? String.length w + String.length r)%nat with (i <? String.length r)%nat
    by (apply eq_true_iff_eq; rewrite !Nat.ltb_lt; lia).
  destruct (i <? String.length r)%nat; [|done]. cbn [andb]. destruct i as [|i].
  - cbn [Nat.eqb]. by rewrite orb_true_r.
  - cbn [Nat.eqb]. rewrite orb_false_r. destruct (is_char_boundary r (S i)); [done|]. cbn [negb].
    rewrite <- Nat.add_succ_r. apply IH.
Qed.
Lemma drop_ceil cs : proper cs -> forall fuel i, (String.length (of_chars cs) <= fuel + i)%nat ->
  str_drop (ceil_boundary fuel (of_chars cs) i) (of_chars cs) = of_chars (skip_chars i cs).
Proof.
  induction cs as [|w cs IH]; intros Hp fuel i Hf; [by destruct (ceil_boundary _ _ _)|].
  apply proper_cons in Hp as (Hw & Hp & Hst). rewrite of_chars_cons in *. rewrite str_length_app in Hf. cbn [skip_chars].
  assert (Hst' : of_chars cs = "" \/ starts (of_chars cs) = true) by (destruct Hst as [->|]; [by left|by right]).
  destruct (Nat.eqb_spec i 0) as [->|Hi].
  { replace (ceil_boundary _ _ _) with 0%nat; [by rewrite str_drop_0, of_chars_cons|].
    destruct fuel; [done|]. cbn. by rewrite andb_false_r. }
  destruct (Nat.le_gt_cases i (String.length w)) as [Hle|Hgt].
  - rewrite ceil_boundary_inside by (done || lia). replace (i - String.length w)%nat with 0%nat by lia.
    rewrite <- (Nat.add_0_r (String.length w)), str_drop_app, str_drop_0. destruct cs; [done|]. cbn [skip_chars]. done.
  - replace i with (String.length w + (i - String.length w))%nat at 1 by lia.
    rewrite ceil_boundary_after, str_drop_app, IH by (done || lia). done.
Qed.
Lemma skip_fit max cs : 0 <= max ->
  skip_chars (Z.to_nat (len (of_chars cs) - max)) cs = fit_tail max cs.
Proof.
  intros Hm. induction cs as [|w cs IH]; [done|]. cbn [skip_chars fit_tail]. rewrite of_chars_cons, append_length.
  destruct (_ <=? _) eqn:E.
  - by replace (_ =? 0)%nat with true by lia.
  - replace (_ =? 0)%nat with false by lia. rewrite <- IH. f_equal. unfold len. lia.
Qed.
(** [tail_within] is the longest run of whole characters at the end. *)
Lemma tail_within_spec s max : 0 <= max -> tail_within s max = of_chars (fit_tail max (chars s)).
Proof.
  intros Hm. unfold tail_within. rewrite <- skip_fit, of_chars_chars by done. destruct (len s <=? max) eqn:E.
  - replace (Z.to_nat (len s - max)) with 0%nat by lia. rewrite <- (of_chars_chars s) at 1. f_equal. by destruct (chars s).
  - rewrite <- (of_chars_chars s) at 2. pose proof (drop_ceil (chars s) (chars_proper s) (String.length s) (Z.to_nat (len s - max))) as H.
    rewrite of_chars_chars in *. apply H. lia.
Qed.
Lemma fit_tail_suffix max cs : fit_tail max cs `suffix_of` cs.
Proof. induction cs as [|w cs IH]; [done|]. cbn [fit_tail]. case_match; [done|]. by apply suffix_cons_r. Qed.
Lemma fit_tail_len max cs : 0 <= max -> len (of_chars (fit_tail max cs)) <= max.
Proof. intros Hm. induction cs as [|w cs IH]; [done|]. cbn [fit_tail]. destruct (_ <=? _) eqn:E; [lia|done]. Qed.
Lemma tail_within_len s max : 0 <= max -> len (tail_within s max) <= max.
Proof. intros. rewrite tail_within_spec by done. by apply fit_tail_len. Qed.
