(* ===== verification/Spill.v ===== *)
(** * Oversized tool results on disk

    Models [crates/hf-spill/src/lib.rs]: where an artifact goes, what replaces it in
    the conversation, and which old artifacts are evicted.  The hash and the fresh
    UUID are parameters; the files of the store are a map from paths to contents
    and times.  What [read_dir] lists, and in which order, is an argument. *)
From stdpp Require Import sorting.
From S2P Require Import Prelude Utf8.

(** ** The replacement *)
Definition preview_replacing (content : string) (max_bytes : Z) (retrieval_hint : string) : option string :=
  if len content <=? max_bytes then None
  else
    let notice := nl +:+ "[... " +:+ pretty (len content) +:+ " bytes omitted; full output " +:+ retrieval_hint +:+ " ...]" +:+ nl in
    if max_bytes <? len notice then Some (head_within content max_bytes)
    else
      let budget := max_bytes - len notice in
      Some (head_within content (budget / 2) +:+ notice +:+ tail_within content (budget - budget / 2)).

(** ** Names *)
Definition name_char (c : Ascii.ascii) : bool :=
  let n := code c in
  (48 <=? n) && (n <=? 57) || (65 <=? n) && (n <=? 90) || (97 <=? n) && (n <=? 122)
  || (n =? 46) || (n =? 45) || (n =? 95).
Definition clean_char (w : string) : string :=
  match w with String c EmptyString => if name_char c then w else "_" | _ => "_" end.
(** [trim_matches('.')]. *)
Fixpoint trim_dots_start (cs : list string) : list string :=
  match cs with w :: cs' => if String.eqb w "." then trim_dots_start cs' else cs | [] => [] end.
Definition trim_dots (cs : list string) : list string := reverse (trim_dots_start (reverse (trim_dots_start cs))).
Definition safe_name (suggested_name : string) : string :=
  let cleaned := of_chars (trim_dots (clean_char <$> chars suggested_name)) in
  if String.eqb cleaned "" then "artifact" else head_within cleaned 64.

Definition hex_digit (n : N) : string :=
  String (Ascii.ascii_of_N (if (n <? 10)%N then 48 + n else 87 + n)%N) EmptyString.
Definition hex_byte (c : Ascii.ascii) : string :=
  hex_digit (Ascii.N_of_ascii c / 16) +:+ hex_digit (Ascii.N_of_ascii c mod 16).

(** ** Eviction *)
Record Entry := mkEntry {
  path : string;
  bytes_of : Z;
  modified : Z;
}.
Fixpoint evict (entries : list Entry) (total max_total_bytes : Z) (keep : string) : list string :=
  match entries with
  | [] => []
  | entry :: rest =>
      if total <=? max_total_bytes then []
      else if String.eqb (path entry) keep then evict rest total max_total_bytes keep
      else path entry :: evict rest (saturating_sub total (bytes_of entry)) max_total_bytes keep
  end.
Definition total_bytes (entries : list Entry) : Z := foldr (fun e n => wrapping 64 (bytes_of e + n)) 0 entries.
Definition evictions (entries : list Entry) (max_total_bytes : Z) (keep : string) : list string :=
  let total := total_bytes entries in
  if total <=? max_total_bytes then []
  else evict (sort_by (fun a b => Z.compare (modified a) (modified b)) entries) total max_total_bytes keep.
Definition DEFAULT_MAX_TOTAL_BYTES : Z := 256 * 1024 * 1024.

(** ** The store *)
Abbreviation Files := (gmap string (string * Z)).
Record Spilled := mkSpilled {
  locator : string;
  spilled_bytes : Z;
  retrieval_hint : string;
}.
(** What the system answers: whether the directory can be made a regular one,
    whether the file, once created, can be written or only some bytes of it, the
    clock, the listing, and the files that cannot be removed. *)
Record Io := mkIo {
  dir_error : option string;
  write_error : option (nat * string);
  clock : Z;
  listing : Files -> list Entry;
  undeletable : string -> bool;
}.

Section store.
Context (sha256 : string -> string) (root : string) (max_total_bytes : Z).

Definition digest_of (owner : string) : string :=
  String.concat "" (hex_byte <$> take 8 (String.list_ascii_of_string (sha256 owner))).
Definition artifact_path (uuid owner suggested_name : string) : string :=
  root +:+ "/" +:+ ("session-" +:+ digest_of owner) +:+ "/" +:+ (uuid +:+ "-" +:+ safe_name suggested_name).
Definition sweep (io : Io) (just_written : string) (files : Files) : Files :=
  fold_left (fun fs p => if undeletable io p then fs else delete p fs)
    (evictions (listing io files) max_total_bytes just_written) files.
(** [create_new]: only where nothing is. *)
Definition write_private_new (io : Io) (p content : string) (files : Files) : Files * Result string unit :=
  match files !! p with
  | Some _ => (files, Err "File exists (os error 17)")
  | None =>
      match write_error io with
      | Some (n, e) => (<[p := (str_take n content, clock io)]> files, Err e)
      | None => (<[p := (content, clock io)]> files, Ok tt)
      end
  end.
Definition save_text (io : Io) (uuid owner suggested_name content : string) (files : Files) : Files * Result string Spilled :=
  match dir_error io with
  | Some e => (files, Err ("spill store io: " +:+ e))
  | None =>
      let p := artifact_path uuid owner suggested_name in
      match write_private_new io p content files with
      | (files, Err e) => (files, Err ("spill store io: " +:+ e))
      | (files, Ok _) => (sweep io p files, Ok (mkSpilled p (len content) ("at " +:+ p)))
      end
  end.
End store.

(** ** The replacement never costs more than what it replaces *)
(** A text over the limit is replaced by one within it, made of whole characters
    from its start and its end around a notice that points to the rest; they do not
    overlap, so something is left out. *)
Theorem preview_fits (content hint : string) (max_bytes : Z) :
  0 <= max_bytes ->
  match preview_replacing content max_bytes hint with
  | None => len content <= max_bytes
  | Some s =>
      max_bytes < len content /\ len s <= max_bytes /\
      exists head tail notice,
        s = of_chars head +:+ notice +:+ of_chars tail /\
        head `prefix_of` chars content /\ tail `suffix_of` chars content /\
        len (of_chars head) + len (of_chars tail) < len content /\
        (notice = "" /\ tail = [] \/ exists a b, notice = a +:+ hint +:+ b)
  end.
Proof.
  intros Hm. unfold preview_replacing. destruct (len content <=? max_bytes) eqn:E; [lia|].
  cbv zeta. set (notice := nl +:+ "[... " +:+ _). assert (Hn : 0 <= len notice) by (unfold len; lia).
  destruct (max_bytes <? len notice) eqn:En; (split; [lia|]).
  - rewrite head_within_spec by done. split; [by apply fit_head_len|].
    exists (fit_head max_bytes (chars content)), [], "". change (of_chars []) with ""%string.
    split; [by rewrite !append_nil_r|]. split; [apply fit_head_prefix|]. split; [apply suffix_nil|].
    split; [|by left]. change (len "") with 0. pose proof (fit_head_len max_bytes (chars content) Hm). lia.
  - set (b := max_bytes - len notice). assert (Hb : 0 <= b / 2 <= b) by (split; [apply Z.div_pos; lia|apply Z.div_le_upper_bound; lia]).
    rewrite head_within_spec, tail_within_spec by lia.
    pose proof (fit_head_len (b / 2) (chars content)). pose proof (fit_tail_len (b - b / 2) (chars content)).
    split; [rewrite !append_length; lia|]. eexists _, _, notice. split; [done|].
    split; [apply fit_head_prefix|]. split; [apply fit_tail_suffix|]. split; [lia|]. right.
    exists (nl +:+ "[... " +:+ pretty (len content) +:+ " bytes omitted; full output "), (" ...]" +:+ nl).
    unfold notice. by rewrite !append_assoc.
Qed.

(** ** A suggested name cannot leave its directory *)
Lemma clean_char_ok w : exists c, clean_char w = String c "" /\ name_char c = true.
Proof. unfold clean_char. destruct w as [|c [|]]; [by eexists| |by eexists]. destruct (name_char c) eqn:E; by eexists. Qed.
Definition plain (w : string) : Prop := exists c, w = String c "" /\ name_char c = true.
Lemma trim_dots_start_suffix cs : trim_dots_start cs `suffix_of` cs.
Proof. induction cs as [|w cs IH]; [done|]. cbn. case_match; [|done]. by apply suffix_cons_r. Qed.
Lemma trim_dots_start_head cs : match trim_dots_start cs with w :: _ => w <> "." | [] => True end.
Proof. induction cs as [|w cs IH]; [done|]. cbn. destruct (String.eqb w ".") eqn:E; [done|]. by apply String.eqb_neq. Qed.
Lemma trim_dots_prefix cs : trim_dots cs `prefix_of` trim_dots_start cs.
Proof.
  unfold trim_dots. destruct (trim_dots_start_suffix (reverse (trim_dots_start cs))) as [l E].
  exists (reverse l). apply (f_equal reverse) in E. by rewrite reverse_app, reverse_involutive in E.
Qed.
Lemma plain_chars cs : Forall plain cs -> proper cs.
Proof.
  intros H. split; [apply (list.Forall_impl _ _ _ H); by intros ? (c & -> & _)|].
  destruct H as [|w cs _ H]; [done|]. apply (list.Forall_impl _ _ _ H). intros ? (c & -> & Hc).
  unfold name_char in Hc. cbn. unfold continuation. lia.
Qed.
Lemma plain_bytes cs : Forall plain cs ->
  Forall (fun c => name_char c = true) (String.list_ascii_of_string (of_chars cs)) /\ len (of_chars cs) = zlen cs.
Proof.
  induction 1 as [|w cs (c & -> & Hc) _ [IH1 IH2]]; [done|]. rewrite of_chars_cons.
  change (String c "" +:+ ?r) with (String c r). split; [by constructor|].
  rewrite zlen_cons, <- IH2. unfold len. cbn [String.length]. lia.
Qed.
(** One path component: of harmless characters, not empty, no leading dot, at most
    64 bytes. *)
Lemma safe_name_component s :
  Forall (fun c => name_char c = true) (String.list_ascii_of_string (safe_name s)) /\
  safe_name s <> "" /\ String.prefix "." (safe_name s) = false /\ len (safe_name s) <= 64.
Proof.
  unfold safe_name. set (cs := trim_dots (clean_char <$> chars s)).
  assert (Hp : Forall plain cs).
  { unfold cs. destruct (trim_dots_prefix (clean_char <$> chars s)) as [k Hk].
    destruct (trim_dots_start_suffix (clean_char <$> chars s)) as [j Hj].
    assert (Forall plain (clean_char <$> chars s)) as Hall by (apply Forall_fmap, Forall_true; intros w; apply clean_char_ok).
    rewrite Hj, Hk, !Forall_app in Hall. tauto. }
  destruct (String.eqb (of_chars cs) "") eqn:E; [split; [repeat constructor|done]|]. apply String.eqb_neq in E.
  rewrite head_within_spec, chars_of_chars by (done || apply (plain_chars cs Hp)).
  assert (Hf : Forall plain (fit_head 64 cs)).
  { destruct (fit_head_prefix 64 cs) as [k Hk]. rewrite Hk, Forall_app in Hp. tauto. }
  destruct cs as [|w cs'] eqn:Ecs; [done|]. subst cs. inversion Hp as [|? ? (c & -> & Hc) _]; subst.
  cbn [fit_head] in *. change (len (String c "")) with 1 in *. replace (1 <=? 64) with true in * by done.
  split; [by apply plain_bytes|]. rewrite of_chars_cons. split; [done|].
  split; [|pose proof (fit_head_len (64 - 1) cs'); rewrite append_length; change (len (String c "")) with 1; lia].
  destruct (trim_dots_prefix (clean_char <$> chars s)) as [k Hk]. rewrite Ecs in Hk.
  pose proof (trim_dots_start_head (clean_char <$> chars s)) as Hd. rewrite Hk in Hd. cbn in Hd.
  clear - Hd. destruct c as [[] [] [] [] [] [] [] []]; (reflexivity || by destruct Hd).
Qed.

(** ** The oldest artifacts go first *)
Definition size_of (l : list Entry) : Z := foldr Z.add 0 (bytes_of <$> l).
Lemma size_of_cons e l : size_of (e :: l) = bytes_of e + size_of l.
Proof. done. Qed.
Lemma size_of_app a b : size_of (a ++ b) = size_of a + size_of b.
Proof. induction a as [|e a IH]; [done|]. cbn [app]. rewrite !size_of_cons, IH. lia. Qed.
#[export] Instance size_of_perm : Proper (Permutation ==> eq) size_of.
Proof. intros a b H. induction H; rewrite ?size_of_cons; lia. Qed.
Lemma size_of_nonneg l : Forall (fun e => 0 <= bytes_of e) l -> 0 <= size_of l.
Proof. induction 1; [done|]. rewrite size_of_cons. lia. Qed.
Lemma total_bytes_size l : Forall (fun e => 0 <= bytes_of e) l -> size_of l < 2 ^ 64 -> total_bytes l = size_of l.
Proof.
  induction 1 as [|e l He Hl IH]; intros Hs; [done|]. rewrite size_of_cons in *. pose proof (size_of_nonneg l Hl).
  cbn [total_bytes foldr]. change (foldr _ 0 l) with (total_bytes l). rewrite IH by lia. unfold wrapping. rewrite Z.mod_small by lia. done.
Qed.

Definition not_kept (keep : string) (l : list Entry) : list Entry := filter (fun e => path e <> keep) l.
Lemma not_kept_cons keep e l :
  not_kept keep (e :: l) = if String.eqb (path e) keep then not_kept keep l else e :: not_kept keep l.
Proof. unfold not_kept. rewrite filter_cons. destruct (String.eqb_spec (path e) keep); case_decide; done. Qed.
(** A prefix goes, all but [keep]; no shorter prefix would do. *)
Lemma evict_spec max_bytes keep l : forall total,
  Forall (fun e => 0 <= bytes_of e) l -> size_of l <= total ->
  exists pre post, l = pre ++ post /\ evict l total max_bytes keep = path <$> not_kept keep pre /\
    (total - size_of (not_kept keep pre) <= max_bytes \/ post = []) /\
    (forall a e, not_kept keep pre = a ++ [e] -> max_bytes < total - size_of a).
Proof.
  induction l as [|e l IH]; intros total Hb Ht.
  { exists [], []. split; [done|]. split; [done|]. split; [by right|]. intros a x Ha. by destruct a. }
  inversion Hb as [|? ? He Hl]; subst. pose proof (size_of_nonneg l Hl). rewrite size_of_cons in Ht. cbn [evict].
  destruct (total <=? max_bytes) eqn:Em.
  { exists [], (e :: l). split; [done|]. split; [done|]. split; [left; cbn; lia|]. intros a x Ha. by destruct a. }
  destruct (String.eqb (path e) keep) eqn:Ek.
  - destruct (IH total Hl) as (pre & post & -> & Ho & Hd & Hm); [lia|]. exists (e :: pre), post.
    rewrite not_kept_cons, Ek. done.
  - replace (saturating_sub total (bytes_of e)) with (total - bytes_of e) by (unfold saturating_sub; lia).
    destruct (IH (total - bytes_of e) Hl) as (pre & post & -> & Ho & Hd & Hm); [lia|]. exists (e :: pre), post.
    rewrite not_kept_cons, Ek. split; [done|]. split; [by rewrite Ho|]. split; [rewrite size_of_cons; destruct Hd; [left; lia|by right]|].
    intros a x Ha. destruct a as [|y a]; cbn in Ha; injection Ha as <- Ha.
    + cbn. lia.
    + specialize (Hm a x Ha). rewrite size_of_cons. lia.
Qed.

(** What an eviction leaves. *)
Definition left_by (out : list string) (l : list Entry) : list Entry := filter (fun e => path e ∉ out) l.

Lemma size_of_filter (P : Entry -> Prop) `{!forall e, Decision (P e)} l :
  size_of (filter P l) + size_of (filter (fun e => ~ P e) l) = size_of l.
Proof.
  induction l as [|e l IH]; [done|]. rewrite !filter_cons, size_of_cons. repeat case_decide; rewrite ?size_of_cons; try done; lia.
Qed.
Lemma size_left gone l :
  NoDup (path <$> l) -> NoDup gone -> (forall e, e ∈ gone -> e ∈ l) -> size_of (left_by (path <$> gone) l) = size_of l - size_of gone.
Proof.
  intros Hl Hg Hin. unfold left_by. pose proof (size_of_filter (fun e => path e ∈ path <$> gone) l) as H.
  assert (E : filter (fun e => path e ∈ path <$> gone) l ≡ₚ gone); [|rewrite E in H; lia].
  apply NoDup_Permutation; [by apply list.NoDup_filter, (NoDup_fmap_1 path)|done|]. intros e. rewrite list_elem_of_filter. split.
  - intros [(e' & E & He')%list_elem_of_fmap He]. by rewrite (same_key_eq path l e e' Hl He (Hin e' He') E).
  - intros He. split; [by apply list_elem_of_fmap_2|by apply Hin].
Qed.

(** Eviction never names the artifact just written; it leaves what fits the budget,
    or that artifact alone; what goes is no newer than anything else that stays, and
    the last to go was still needed to fit. *)
Theorem evictions_oldest_first (entries : list Entry) (max_bytes : Z) (keep : string) :
  NoDup (path <$> entries) -> Forall (fun e => 0 <= bytes_of e) entries -> size_of entries < 2 ^ 64 ->
  let out := evictions entries max_bytes keep in
  let left := left_by out entries in
  keep ∉ out /\
  (size_of left <= max_bytes \/ Forall (fun e => path e = keep) left) /\
  (forall e e', e ∈ entries -> e' ∈ entries -> path e ∈ out -> path e' ∉ out -> path e' <> keep -> modified e <= modified e') /\
  (forall e, e ∈ entries -> list.last out = Some (path e) -> max_bytes < size_of left + bytes_of e).
Proof.
  intros Hnd Hb Hs. cbv zeta. unfold evictions. rewrite total_bytes_size by done.
  destruct (size_of entries <=? max_bytes) eqn:Efit.
  { split; [set_solver|]. split; [left|split; [set_solver|done]].
    replace (left_by [] entries) with entries; [lia|]. unfold left_by. clear. induction entries; [done|].
    rewrite filter_cons_True by set_solver. by f_equal. }
  set (sorted := sort_by _ entries) in *.
  assert (Hp : sorted ≡ₚ entries) by apply sort_by_perm.
  assert (Hsort : StronglySorted (fun a b => modified a <= modified b) sorted).
  { apply sort_by_sorted; [intros a b c H1 H2; cbn in *; lia| |]; intros x y; cbn; destruct (Z.compare_spec (modified x) (modified y)); (done || lia). }
  destruct (evict_spec max_bytes keep sorted (size_of entries)) as (pre & post & Esplit & Hout & Hfit & Hmin);
    [by rewrite Hp|by rewrite Hp|].
  rewrite Hout. set (gone := not_kept keep pre) in *.
  assert (Hnds : NoDup (path <$> sorted)) by by rewrite Hp.
  assert (Hin : forall e, e ∈ gone <-> e ∈ pre /\ path e <> keep) by (intros e; unfold gone, not_kept; rewrite list_elem_of_filter; tauto).
  assert (Hnd' : NoDup gone).
  { apply list.NoDup_filter. rewrite Esplit, fmap_app in Hnds. apply list.NoDup_app in Hnds as [Hn _]. by apply NoDup_fmap_1 in Hn. }
  assert (Hpost : forall e, e ∈ entries -> path e ∉ path <$> gone -> path e <> keep -> e ∈ post).
  { intros e He Hn Hk. rewrite <- Hp, Esplit in He. apply elem_of_app in He as [He|]; [|done].
    destruct Hn. apply list_elem_of_fmap_2, Hin. done. }
  assert (Hsize : size_of (left_by (path <$> gone) entries) = size_of entries - size_of gone).
  { apply size_left; [done|done|]. intros e [He _]%Hin. rewrite <- Hp, Esplit. apply elem_of_app. by left. }
  rewrite Hsize. split; [intros (e & -> & [_ ?]%Hin)%list_elem_of_fmap; done|]. split.
  - destruct Hfit as [|Hpost0]; [by left|right]. rewrite list.Forall_forall. intros e [Hn He]%list_elem_of_filter.
    destruct (decide (path e = keep)) as [|Hk]; [done|]. specialize (Hpost e He Hn Hk). rewrite Hpost0 in Hpost. by apply not_elem_of_nil in Hpost.
  - split.
    + intros e e' He He' Hg Hn Hk. specialize (Hpost e' He' Hn Hk). apply list_elem_of_fmap in Hg as (g & E & Hg).
      apply Hin in Hg as [Hg _].
      assert (e = g) as ->.
      { apply (same_key_eq path sorted); [done|by rewrite Hp| |done]. rewrite Esplit. apply elem_of_app. by left. }
      rewrite Esplit in Hsort. by eapply StronglySorted_app_1_elem_of in Hsort.
    + intros e He Hlast. rewrite fmap_last in Hlast. destruct (list.last gone) as [g|] eqn:Eg; [|done]. injection Hlast as Hlast.
      apply last_Some in Eg as [a Ea]. specialize (Hmin a g Ea). rewrite Ea, size_of_app, size_of_cons.
      assert (g = e) as ->; [|change (size_of []) with 0; lia]. apply (same_key_eq path sorted); [done| |by rewrite Hp|done].
      rewrite Esplit. apply elem_of_app. left. apply (Hin g). rewrite Ea. apply elem_of_app. right. left.
Qed.

Lemma evict_not_kept l : forall total max_bytes keep, keep ∉ evict l total max_bytes keep.
Proof.
  induction l as [|e l IH]; intros total max_bytes keep; cbn [evict]; [apply not_elem_of_nil|].
  destruct (_ <=? _); [apply not_elem_of_nil|]. destruct (String.eqb_spec (path e) keep); [apply IH|].
  rewrite elem_of_cons. intros [H|H]; [by destruct n|by apply IH in H].
Qed.
Lemma sweep_spec max_bytes io keep files :
  sweep max_bytes io keep files !! keep = files !! keep /\
  forall p v, sweep max_bytes io keep files !! p = Some v -> files !! p = Some v.
Proof.
  unfold sweep. assert (Hk : keep ∉ evictions (listing io files) max_bytes keep).
  { unfold evictions. destruct (_ <=? _); [apply not_elem_of_nil|apply evict_not_kept]. }
  revert Hk. generalize (evictions (listing io files) max_bytes keep) as out. intros out. revert files.
  induction out as [|q out IH]; intros files Hk; [done|]. cbn [fold_left].
  apply not_elem_of_cons in Hk as [Hq Hk]. destruct (undeletable io q); [by apply IH|].
  destruct (IH (delete q files) Hk) as [H1 H2]. split; [by rewrite H1, lookup_delete_ne|].
  intros p v Hv. specialize (H2 p v Hv). by apply lookup_delete_Some in H2 as [_ H2].
Qed.

(** A save that succeeds leaves the whole text at the path it returns, a file that
    was not there before, and changes no other file; one that fails touches at most
    that new file; and nothing that exists is ever written to. *)
Theorem save_keeps_artifact sha256 root max_bytes (io : Io) (uuid owner name content : string) (files : Files) :
  let p := artifact_path sha256 root uuid owner name in
  let '(files', r) := save_text sha256 root max_bytes io uuid owner name content files in
  match r with
  | Ok s => locator s = p /\ spilled_bytes s = len content /\ files !! p = None /\
      files' !! p = Some (content, clock io) /\
      forall q v, q <> p -> files' !! q = Some v -> files !! q = Some v
  | Err _ => (forall q, q <> p -> files' !! q = files !! q) /\ (forall v, files !! p = Some v -> files' = files)
  end.
Proof.
  cbv zeta. unfold save_text. destruct (dir_error io); [done|]. set (p := artifact_path _ _ _ _ _).
  unfold write_private_new. destruct (files !! p) as [v|] eqn:E; [done|].
  destruct (write_error io) as [[n e]|].
  - split; [|done]. intros q Hq. by rewrite lookup_insert_ne.
  - cbn [locator spilled_bytes]. destruct (sweep_spec max_bytes io p (<[p := (content, clock io)]> files)) as [H1 H2].
    split; [done|]. split; [done|]. split; [done|]. split; [by rewrite H1, lookup_insert_eq|].
    intros q v Hq Hv. specialize (H2 q v Hv). by rewrite lookup_insert_ne in H2.
Qed.

(** ** Instances *)
Definition sample_text : string := String.concat "" (replicate 40 "0123456789").
Lemma preview_fits_witness :
  0 <= 120 /\ len sample_text = 400 /\ (len <$> preview_replacing sample_text 120 "at /s/x") = Some 120 /\
  match preview_replacing sample_text 120 "at /s/x" with Some s => len s <= 120 | None => True end.
Proof.
  split; [done|]. split; [done|]. split; [by vm_compute|].
  pose proof (preview_fits sample_text "at /s/x" 120 ltac:(done)) as H.
  destruct (preview_replacing sample_text 120 "at /s/x"); [apply H|done].
Defined.
Definition sample_entries : list Entry := [mkEntry "a" 40 3; mkEntry "b" 30 1; mkEntry "c" 50 2; mkEntry "d" 20 4].
Lemma evictions_oldest_first_witness :
  NoDup (path <$> sample_entries) /\ evictions sample_entries 80 "b" = ["c"; "a"] /\
  (size_of (left_by (evictions sample_entries 80 "b") sample_entries) <= 80 \/
   Forall (fun e => path e = "b") (left_by (evictions sample_entries 80 "b") sample_entries)).
Proof.
  assert (H : NoDup (path <$> sample_entries)) by (apply (bool_decide_eq_true_1 (NoDup (path <$> sample_entries))); by vm_compute).
  split; [exact H|]. split; [by vm_compute|].
  apply (evictions_oldest_first sample_entries 80 "b" H); [|done]. unfold sample_entries. repeat constructor; cbn; lia.
Defined.
