(* ===== verification/Prompt.v ===== *)
(** * The agent's system prompt

    Models [crates/hf-prompt/src/budget.rs] and [agent.rs], and the rendering of
    skill playbooks in [crates/hf-skills/src/registry.rs].  The three fixed texts
    ([config/prompts]) and JSON string escaping are parameters. *)
From S2P Require Import Prelude Utf8.
From S2P Require Sse.

(** ** Token budgets ([budget.rs]) *)
Definition marker : string := nl +:+ "[truncated]".
Definition truncate_to_budget (text : string) (max_tokens : Z) : string * bool :=
  if estimate_tokens_u32 text <=? max_tokens then (text, false)
  else
    let byte_limit := max_tokens * 4 in
    if (byte_limit =? 0) || (byte_limit <? len marker) then (""%string, true)
    else
      let effective_limit := byte_limit - len marker in
      (if len text <=? effective_limit then text
       else str_take (floor_boundary text (Z.to_nat effective_limit)) text +:+ marker, true).

(** ** Skills ([registry.rs]) *)
Definition INJECT_CHAR_CAP : Z := 8000.
Inductive TrustTier := BuiltIn | UserDefined.
#[export] Instance TrustTier_eq_dec : EqDecision TrustTier.
Proof. solve_decision. Defined.
Record SkillDefinition := mkSkill {
  skill_name : string;
  version : string;
  skill_description : string;
  domain : list string;
  body : string;
  skill_tier : TrustTier;
}.
Inductive SkillError :=
| NoUserDir
| InvalidName (name : string)
| NotFound (name : string)
| SkillIo (error : string).
Definition display_skill_error (e : SkillError) : string :=
  match e with
  | NoUserDir => "no skills directory configured"
  | InvalidName n => "invalid skill name '" +:+ n +:+ "' (use letters, digits, '-' or '_')"
  | NotFound n => "unknown skill '" +:+ n +:+ "'"
  | SkillIo e => "skill file io: " +:+ e
  end.
Definition render_skill (s : SkillDefinition) : string :=
  let body :=
    if INJECT_CHAR_CAP <? char_count (body s)
    then of_chars (take (Z.to_nat INJECT_CHAR_CAP) (chars (body s))) +:+ nl +:+ "...[truncated]"
    else body s in
  "### Skill: " +:+ skill_name s +:+ nl +:+ skill_description s +:+ nl +:+ nl +:+ trim body.
Fixpoint render_sections (skills : gmap string SkillDefinition) (names : list string) : Result SkillError (list string) :=
  match names with
  | [] => Ok []
  | n :: names =>
      s ← ok_or (NotFound n) (skills !! n);
      rest ← render_sections skills names;
      mret (render_skill s :: rest)
  end.
Definition render (skills : gmap string SkillDefinition) (names : list string) : Result SkillError (option string) :=
  sections ← render_sections skills names;
  mret (match sections with
        | [] => None
        | _ => Some ("## Reference skills" +:+ nl +:+ "Apply these playbooks where relevant:" +:+ nl +:+ nl
                     +:+ String.concat (nl +:+ nl +:+ "---" +:+ nl +:+ nl) sections)
        end).

(** ** The prompt ([agent.rs]) *)
Definition AGENT_SYSTEM_PROMPT_TOKEN_BUDGET : Z := 4000.
Definition IDENTITY_BUDGET : Z := 300.
Definition ROLE_BUDGET : Z := 600.
Definition WORKSPACE_BUDGET : Z := 1100.
Definition SKILLS_BUDGET : Z := 1800.
Definition SECURITY_BUDGET : Z := 300.
Definition TOOLS_BUDGET : Z := 600.
Definition PROTOCOL_BUDGET : Z := 400.

Record AgentPromptInput := mkPromptInput {
  role_prompt : string;
  project_workspace : option string;
  input_skills : option string;
  tool_catalog : string;
  inspection_catalog : string;
}.
Definition to_string_lossy (path : string) : string :=
  String.string_of_list_ascii (Sse.from_utf8_lossy (String.list_ascii_of_string path)).
Definition bounded (content : string) (budget : Z) : string := (truncate_to_budget content budget).1.
Definition blank (section : string) : bool := String.eqb (trim section) "".
Definition join_sections (sections : list string) : string :=
  String.concat (nl +:+ nl) (filter (fun s => negb (blank s)) sections).

Section prompt.
Context (PROMPT_IDENTITY PROMPT_SECURITY PROMPT_TOOL_PROTOCOL : string) (json_string : string -> string).

Definition workspace_section (project : option string) : string :=
  match project with
  | Some path =>
      "## Active project boundary" +:+ nl +:+ "project_root = " +:+ json_string (to_string_lossy path) +:+ nl
      +:+ "Confine every project-scoped read and write to this exact active project root. "
      +:+ "Reject traversal and symlinks that resolve outside it."
  | None =>
      "## Active project boundary" +:+ nl +:+ "project_root = null" +:+ nl +:+ "No project workspace is selected. "
      +:+ "Project-scoped inspection, build, run, and triage tools are unavailable."
  end.
Definition identity : string := bounded PROMPT_IDENTITY IDENTITY_BUDGET.
Definition role_section (i : AgentPromptInput) : string := bounded (trim (role_prompt i)) ROLE_BUDGET.
Definition workspace (i : AgentPromptInput) : string := bounded (workspace_section (project_workspace i)) WORKSPACE_BUDGET.
Definition security : string := bounded PROMPT_SECURITY SECURITY_BUDGET.
Definition tools_section (i : AgentPromptInput) : string :=
  bounded (trim (tool_catalog i) +:+ nl +:+ trim (inspection_catalog i)) TOOLS_BUDGET.
Definition protocol_section : string := bounded PROMPT_TOOL_PROTOCOL PROTOCOL_BUDGET.
Definition rendered_skills (i : AgentPromptInput) : string :=
  match input_skills i with
  | Some skills =>
      if blank skills then ""
      else
        let fixed_prompt := join_sections [identity; role_section i; workspace i; security; tools_section i; protocol_section] in
        let fixed_tokens := Z.min u32_MAX (estimate_tokens_u32 fixed_prompt + 1) in
        let available := saturating_sub AGENT_SYSTEM_PROMPT_TOKEN_BUDGET fixed_tokens in
        bounded (trim skills) (Z.min available SKILLS_BUDGET)
  | None => ""
  end.
Definition build_agent_system_prompt (i : AgentPromptInput) : string :=
  join_sections [identity; role_section i; workspace i; rendered_skills i; security; tools_section i; protocol_section].
End prompt.

(** ** Lengths *)
Lemma str_take_len s n : len (str_take n s) <= Z.of_nat n.
Proof. unfold len. revert n. induction s as [|c s IH]; intros [|n]; cbn; try lia. specialize (IH n). lia. Qed.
Lemma floor_boundary_le s i : (floor_boundary s i <= i)%nat.
Proof. induction i as [|i IH]; cbn; [done|]. case_match; lia. Qed.
Lemma bounded_len s b : 0 <= b < u32_MAX -> len (bounded s b) <= 4 * b.
Proof.
  intros Hb. unfold bounded, truncate_to_budget. cbv zeta. destruct (_ <=? _) eqn:E.
  { cbn [fst]. unfold estimate_tokens_u32, div_ceil in E. assert ((len s + 4 - 1) / 4 <= b) by lia.
    pose proof (Z.div_mod (len s + 4 - 1) 4 ltac:(lia)). pose proof (Z.mod_pos_bound (len s + 4 - 1) 4 ltac:(lia)). lia. }
  destruct (_ || _) eqn:E2; [cbn [fst]; change (len "") with 0; lia|]. cbn [fst]. change (len marker) with 12 in *.
  destruct (len s <=? b * 4 - 12) eqn:E3; [lia|]. rewrite append_length. change (len marker) with 12.
  pose proof (str_take_len s (floor_boundary s (Z.to_nat (b * 4 - 12)))).
  pose proof (floor_boundary_le s (Z.to_nat (b * 4 - 12))). lia.
Qed.
Lemma bounded_whole s b : estimate_tokens_u32 s <= b -> bounded s b = s.
Proof. intros H. unfold bounded, truncate_to_budget. by replace (_ <=? _) with true by lia. Qed.

Definition sum_len (l : list string) : Z := foldr Z.add 0 (len <$> l).
Lemma sum_len_cons s l : sum_len (s :: l) = len s + sum_len l.
Proof. done. Qed.
Lemma len_nonneg s : 0 <= len s.
Proof. unfold len. lia. Qed.
Lemma concat_len sep l : l <> [] -> len (String.concat sep l) = sum_len l + len sep * (zlen l - 1).
Proof.
  induction l as [|s l IH]; [done|intros _]. destruct l as [|t l].
  - cbn [String.concat]. rewrite sum_len_cons, zlen_cons. change (sum_len []) with 0. change (@zlen string []) with 0. lia.
  - change (String.concat sep (s :: t :: l)) with (s +:+ sep +:+ String.concat sep (t :: l)).
    rewrite !append_length, IH, (sum_len_cons s), (zlen_cons s) by done. ring.
Qed.
Definition shown (l : list string) : list string := filter (fun s => negb (blank s)) l.
Lemma shown_cons s l : shown (s :: l) = if blank s then shown l else s :: shown l.
Proof. unfold shown. rewrite filter_cons. by destruct (blank s). Qed.
Lemma shown_app a b : shown (a ++ b) = shown a ++ shown b.
Proof. unfold shown. apply list.filter_app. Qed.
Lemma join_len l : len (join_sections l) <= sum_len l + 2 * Z.max 0 (zlen l - 1).
Proof.
  unfold join_sections. fold (shown l).
  assert (H : sum_len (shown l) <= sum_len l /\ zlen (shown l) <= zlen l).
  { induction l as [|s l [IH1 IH2]]; [done|]. rewrite shown_cons, sum_len_cons, zlen_cons. pose proof (len_nonneg s).
    destruct (blank s); [lia|]. rewrite sum_len_cons, zlen_cons. lia. }
  destruct (shown l) as [|s k] eqn:E.
  - change (len (String.concat (nl +:+ nl) [])) with 0. assert (0 <= sum_len l). { clear. induction l as [|s l IH]; [done|]. rewrite sum_len_cons. pose proof (len_nonneg s). lia. } lia.
  - rewrite concat_len by done. change (len (nl +:+ nl)) with 2. lia.
Qed.
(** One more section costs its length and a separator. *)
Lemma join_insert a s b : len (join_sections (a ++ s :: b)) <= len (join_sections (a ++ b)) + len s + 2.
Proof.
  unfold join_sections. fold (shown (a ++ s :: b)). fold (shown (a ++ b)). rewrite !shown_app, shown_cons.
  pose proof (len_nonneg s). destruct (blank s); [lia|].
  assert (Hsum : forall x y, sum_len (x ++ y) = sum_len x + sum_len y).
  { intros x y. induction x as [|z x IH]; [done|]. cbn [app]. rewrite !sum_len_cons, IH. lia. }
  rewrite concat_len by (by destruct (shown a)). change (len (nl +:+ nl)) with 2.
  destruct (shown a ++ shown b) as [|t k] eqn:E.
  - apply app_eq_nil in E as [-> ->]. change (zlen ([] ++ [s])) with 1. change (sum_len ([] ++ [s])) with (len s + 0). pose proof (len_nonneg (String.concat (nl +:+ nl) [])). lia.
  - rewrite <- E, concat_len by (rewrite E; done). change (len (nl +:+ nl)) with 2.
    rewrite !Hsum, sum_len_cons, !zlen_app, zlen_cons. lia.
Qed.

Section budget.
Context (PROMPT_IDENTITY PROMPT_SECURITY PROMPT_TOOL_PROTOCOL : string) (json_string : string -> string).
Notation identity := (identity PROMPT_IDENTITY).
Notation security := (security PROMPT_SECURITY).
Notation protocol_section := (protocol_section PROMPT_TOOL_PROTOCOL).
Notation workspace := (workspace json_string).
Notation skills_of := (rendered_skills PROMPT_IDENTITY PROMPT_SECURITY PROMPT_TOOL_PROTOCOL json_string).
Notation build := (build_agent_system_prompt PROMPT_IDENTITY PROMPT_SECURITY PROMPT_TOOL_PROTOCOL json_string).

Definition before_skills (i : AgentPromptInput) : list string := [identity; role_section i; workspace i].
Definition after_skills (i : AgentPromptInput) : list string := [security; tools_section i; protocol_section].
Definition without_skills (i : AgentPromptInput) : AgentPromptInput :=
  mkPromptInput (role_prompt i) (project_workspace i) None (tool_catalog i) (inspection_catalog i).
Lemma fixed_len i : len (join_sections (before_skills i ++ after_skills i)) <= 13210.
Proof.
  eapply Z.le_trans; [apply join_len|]. unfold before_skills, after_skills, app. rewrite !sum_len_cons, !zlen_cons.
  change (sum_len []) with 0. change (@zlen string []) with 0.
  pose proof (bounded_len PROMPT_IDENTITY IDENTITY_BUDGET). pose proof (bounded_len (trim (role_prompt i)) ROLE_BUDGET).
  pose proof (bounded_len (workspace_section json_string (project_workspace i)) WORKSPACE_BUDGET).
  pose proof (bounded_len PROMPT_SECURITY SECURITY_BUDGET). pose proof (bounded_len PROMPT_TOOL_PROTOCOL PROTOCOL_BUDGET).
  pose proof (bounded_len (trim (tool_catalog i) +:+ nl +:+ trim (inspection_catalog i)) TOOLS_BUDGET).
  unfold Prompt.identity, role_section, Prompt.workspace, Prompt.security, tools_section, Prompt.protocol_section.
  unfold IDENTITY_BUDGET, ROLE_BUDGET, WORKSPACE_BUDGET, SECURITY_BUDGET, TOOLS_BUDGET, PROTOCOL_BUDGET, u32_MAX in *. lia.
Qed.
Lemma tokens_len s : len s <= 4 * u32_MAX -> 4 * (estimate_tokens_u32 s - 1) < len s <= 4 * estimate_tokens_u32 s \/ s = "".
Proof.
  intros Hs. unfold estimate_tokens_u32, div_ceil. destruct s as [|c s]; [by right|left]. set (n := len (String c s)) in *.
  assert (1 <= n) by (unfold n, len; cbn [String.length]; lia).
  pose proof (Z.div_mod (n + 4 - 1) 4 ltac:(lia)). pose proof (Z.mod_pos_bound (n + 4 - 1) 4 ltac:(lia)). lia.
Qed.

(** The prompt stays within its 4000 tokens whatever the role, workspace, skills
    and catalogs are.  Skills come between the workspace and the security rules and
    displace none of the other sections, which are those of a prompt without skills;
    each of those is kept whole when it fits its share; and at least 696 tokens of
    playbooks always fit. *)
Theorem prompt_budget (i : AgentPromptInput) :
  estimate_tokens_u32 (build i) <= AGENT_SYSTEM_PROMPT_TOKEN_BUDGET /\
  (exists s, build i = join_sections (before_skills i ++ s :: after_skills i) /\
     build (without_skills i) = join_sections (before_skills i ++ after_skills i)) /\
  (estimate_tokens_u32 PROMPT_SECURITY <= SECURITY_BUDGET -> security = PROMPT_SECURITY) /\
  (forall skills, input_skills i = Some skills -> estimate_tokens_u32 (trim skills) <= 696 -> skills_of i = trim skills \/ blank skills = true).
Proof.
  set (fixed := join_sections (before_skills i ++ after_skills i)).
  pose proof (fixed_len i : len fixed <= 13210) as Hf.
  assert (Hft : 4 * (estimate_tokens_u32 fixed - 1) < len fixed <= 4 * estimate_tokens_u32 fixed \/ fixed = "") by (apply tokens_len; unfold u32_MAX; lia).
  assert (Hft' : 0 <= estimate_tokens_u32 fixed <= 3303) by (destruct Hft as [|E]; [pose proof (len_nonneg fixed); lia|rewrite E; done]).
  assert (Hav : forall skills, input_skills i = Some skills -> blank skills = false ->
    skills_of i = bounded (trim skills) (Z.min (3999 - estimate_tokens_u32 fixed) SKILLS_BUDGET)).
  { intros skills E Hb. unfold rendered_skills. rewrite E, Hb. f_equal.
    change (join_sections [identity; role_section i; workspace i; security; tools_section i; protocol_section]) with fixed.
    unfold saturating_sub, AGENT_SYSTEM_PROMPT_TOKEN_BUDGET, u32_MAX. lia. }
  split; [|split; [|split]].
  - change (build i) with (join_sections (before_skills i ++ skills_of i :: after_skills i)).
    pose proof (join_insert (before_skills i) (skills_of i) (after_skills i)) as Hj. fold fixed in Hj.
    assert (Hlen : len (skills_of i) + len fixed <= 15996 \/ skills_of i = "").
    { destruct (input_skills i) as [skills|] eqn:E; [|right; unfold rendered_skills; by rewrite E].
      destruct (blank skills) eqn:Eb; [right; unfold rendered_skills; by rewrite E, Eb|left].
      rewrite (Hav skills eq_refl Eb).
      pose proof (bounded_len (trim skills) (Z.min (3999 - estimate_tokens_u32 fixed) SKILLS_BUDGET)) as Hbl.
      unfold SKILLS_BUDGET, u32_MAX in *. destruct Hft as [|Ef]; [lia|]. rewrite Ef in *. change (len "") with 0. lia. }
    assert (Htot : len (join_sections (before_skills i ++ skills_of i :: after_skills i)) <= 16000).
    { destruct Hlen as [|E]; [lia|]. rewrite E in *. change (len "") with 0 in Hj. lia. }
    unfold estimate_tokens_u32, div_ceil, AGENT_SYSTEM_PROMPT_TOKEN_BUDGET.
    assert ((len (join_sections (before_skills i ++ skills_of i :: after_skills i)) + 4 - 1) / 4 < 4001); [apply Z.div_lt_upper_bound; lia|lia].
  - by exists (skills_of i).
  - intros H. by apply bounded_whole.
  - intros skills E H. destruct (blank skills) eqn:Eb; [by right|left]. rewrite (Hav skills E Eb).
    apply bounded_whole. unfold SKILLS_BUDGET. lia.
Qed.
End budget.

(** ** Skills *)
(** Rendering fails exactly when some requested skill is not there, naming the first
    one that is not; otherwise every requested skill is rendered, in order. *)
Lemma render_sections_spec skills names :
  match render_sections skills names with
  | Ok l => Forall2 (fun n s => exists d, skills !! n = Some d /\ s = render_skill d) names l
  | Err e => exists a n b, names = a ++ n :: b /\ e = NotFound n /\ skills !! n = None /\ Forall (fun m => is_Some (skills !! m)) a
  end.
Proof.
  induction names as [|n names IH]; cbn [render_sections]; [constructor|].
  destruct (skills !! n) as [d|] eqn:E; cbn [ok_or mbind Result_bind].
  - destruct (render_sections skills names) as [l|e]; cbn.
    + constructor; [by exists d|done].
    + destruct IH as (a & m & b & -> & -> & Hm & Ha). exists (n :: a), m, b. split; [done|]. split; [done|].
      split; [done|]. by constructor.
  - by exists [], n, names.
Qed.
