(* ===== verification/Context.v ===== *)
(** * Keeping a conversation within the context window

    Models [crates/hf-context/src/simple.rs].  A message keeps the fields these
    functions read; its time and metadata are left out.  Pruning within a turn is
    in [Pruning], summaries are in [Compaction]. *)
From S2P Require Import Prelude Provider Utf8.

(** ** Messages ([hf-core/types.rs]) *)
Inductive Role := System | User | Assistant | Tool.
#[export] Instance Role_eq_dec : EqDecision Role.
Proof. solve_decision. Defined.
Record Message := mkMessage {
  message_id : string;
  role : Role;
  content : string;
  tool_call_id : option string;
  tool_calls : list string;
}.
#[export] Instance Message_eq_dec : EqDecision Message.
Proof. solve_decision. Defined.
(** [Message::new]; the identifier it draws is an argument. *)
Definition new_message (i : string) (r : Role) (c : string) : Message := mkMessage i r c None [].
Definition with_content (c : string) (m : Message) : Message :=
  mkMessage (message_id m) (role m) c (tool_call_id m) (tool_calls m).
Definition is_role (r : Role) (m : Message) : bool := bool_decide (role m = r).

(** ** Trimming to the budget ([simple.rs]) *)
Definition DEFAULT_BUDGET_TOKENS : Z := 96000.
Definition estimate_tokens (text : string) : Z := div_ceil (len text) 4.
Definition total_tokens (messages : list Message) : Z :=
  foldr Z.add 0 ((fun m => estimate_tokens (content m)) <$> messages).

(** Which messages are kept, newest first. *)
Fixpoint keep_newest (messages : list Message) (budget : Z) (window_closed : bool) : list bool :=
  match messages with
  | [] => []
  | m :: older =>
      if is_role System m then true :: keep_newest older budget window_closed
      else if window_closed then false :: keep_newest older budget window_closed
      else
        let cost := estimate_tokens (content m) in
        if cost <=? budget then true :: keep_newest older (budget - cost) false
        else false :: keep_newest older budget true
  end.
(** Kept messages that lead and are not a user's are dropped. *)
Fixpoint drop_leading (messages : list (Message * bool)) : list (Message * bool) :=
  match messages with
  | [] => []
  | (m, keep) :: rest =>
      if is_role System m || negb keep then (m, keep) :: drop_leading rest
      else if is_role User m then (m, keep) :: rest
      else (m, false) :: drop_leading rest
  end.
Definition assemble (messages : list Message) (max_tokens : Z) : list Message :=
  let system_tokens := total_tokens (filter (fun m => is_role System m) messages) in
  let budget := saturating_sub max_tokens system_tokens in
  let keep := reverse (keep_newest (reverse messages) budget false) in
  (filter (fun p => p.2 = true) (drop_leading (zip messages keep))).*1.

Definition KEEP_RECENT_TOOL_RESULTS : Z := 3.
Definition HARD_CLEAR_TOOL_RESULTS_AFTER : Z := 10.
Definition SOFT_TRIM_KEEP_CHARS : Z := 500.
Definition HARD_CLEAR_PLACEHOLDER : string := "[tool result omitted -- superseded by newer output]".

(** The first and last [keep] characters, and what is said between them. *)
Definition head_tail (keep : Z) (after content : string) : string :=
  let cs := chars content in
  let total := zlen cs in
  of_chars (take (Z.to_nat keep) cs) +:+ nl +:+ "[... " +:+ pretty (total - keep * 2)
  +:+ after +:+ nl +:+ of_chars (drop (Z.to_nat (total - keep)) cs).
Definition soft_trim_in_place (content : string) : string :=
  if char_count content <=? SOFT_TRIM_KEEP_CHARS * 2 + 80 then content
  else head_tail SOFT_TRIM_KEEP_CHARS " chars trimmed to fit context; oldest output first ...]" content.

(** What becomes of a tool result by its rank, newest first. *)
Definition aged_content (rank : Z) (c : string) : string :=
  if HARD_CLEAR_TOOL_RESULTS_AFTER <=? rank then HARD_CLEAR_PLACEHOLDER
  else if KEEP_RECENT_TOOL_RESULTS <=? rank then soft_trim_in_place c
  else c.
(** Newest first. *)
Fixpoint prune_newest (rank : Z) (messages : list Message) : list Message :=
  match messages with
  | [] => []
  | m :: older =>
      if negb (is_role Tool m) then m :: prune_newest rank older
      else with_content (aged_content rank (content m)) m :: prune_newest (rank + 1) older
  end.
Definition prune_tool_results_by_age (messages : list Message) : list Message :=
  reverse (prune_newest 0 (reverse messages)).

Definition MAX_FRESH_TOOL_RESULT_CHARS : Z := 12000.
Definition FRESH_TOOL_RESULT_KEEP_CHARS : Z := 4000.
Definition cap_fresh_tool_result (content : string) : option string :=
  if char_count content <=? MAX_FRESH_TOOL_RESULT_CHARS then None
  else Some (head_tail FRESH_TOOL_RESULT_KEEP_CHARS
    " chars omitted: this tool produced a large result; only its head and tail are kept to fit context ...]" content).

(** ** The window [assemble] keeps *)
Definition conversation (l : list Message) : list Message := filter (fun m => role m <> System) l.
Definition systems (l : list Message) : list Message := filter (fun m => is_role System m) l.
Definition last_n {A} (n : nat) (l : list A) : list A := drop (length l - n) l.
Definition opens_with_user (l : list Message) : Prop :=
  match l with [] => True | m :: _ => role m = User end.

Lemma estimate_tokens_nonneg s : 0 <= estimate_tokens s.
Proof. unfold estimate_tokens, div_ceil, len. divlia. Qed.
Lemma total_tokens_cons m l : total_tokens (m :: l) = estimate_tokens (content m) + total_tokens l.
Proof. done. Qed.
Lemma total_tokens_app a b : total_tokens (a ++ b) = total_tokens a + total_tokens b.
Proof. induction a as [|m a IH]; [done|]. cbn [app]. rewrite !total_tokens_cons, IH. lia. Qed.
Lemma total_tokens_nonneg l : 0 <= total_tokens l.
Proof. induction l as [|m l IH]; [done|]. rewrite total_tokens_cons. pose proof (estimate_tokens_nonneg (content m)). lia. Qed.
Lemma is_role_true r m : is_role r m = true <-> role m = r.
Proof. apply bool_decide_eq_true. Qed.
Lemma is_role_false r m : is_role r m = false <-> role m <> r.
Proof. apply bool_decide_eq_false. Qed.
Lemma conversation_cons m l :
  conversation (m :: l) = if is_role System m then conversation l else m :: conversation l.
Proof. unfold conversation. rewrite filter_cons. unfold is_role. by destruct (role m). Qed.
Lemma systems_cons m l : systems (m :: l) = if is_role System m then m :: systems l else systems l.
Proof. unfold systems. rewrite filter_cons. by destruct (is_role System m). Qed.
Lemma last_n_all {A} n (l : list A) : (length l <= n)%nat -> last_n n l = l.
Proof. intros. unfold last_n. by replace (length l - n)%nat with 0%nat by lia. Qed.
Lemma last_n_cons {A} n (x : A) l : (n <= length l)%nat -> last_n n (x :: l) = last_n n l.
Proof. intros. unfold last_n. cbn [length]. by replace (S (length l) - n)%nat with (S (length l - n))%nat by lia. Qed.
Lemma length_last_n {A} n (l : list A) : length (last_n n l) = Nat.min n (length l).
Proof. unfold last_n. rewrite length_drop. lia. Qed.

(** How many of the newest messages of a conversation, newest first, fit. *)
Fixpoint fitting (l : list Message) (budget : Z) : nat :=
  match l with
  | [] => 0
  | m :: older =>
      let cost := estimate_tokens (content m) in
      if cost <=? budget then S (fitting older (budget - cost)) else 0
  end.
(** The flags of a window of [k] messages, newest first and oldest first. *)
Fixpoint newest_flags (k : nat) (l : list Message) : list bool :=
  match l with
  | [] => []
  | m :: older =>
      if is_role System m then true :: newest_flags k older
      else match k with O => false :: newest_flags 0 older | S k => true :: newest_flags k older end
  end.
Definition window_flags (k : nat) (l : list Message) : list bool := reverse (newest_flags k (reverse l)).

Lemma keep_newest_closed l b : keep_newest l b true = newest_flags 0 l.
Proof. induction l as [|m l IH]; [done|]. cbn. by rewrite !IH. Qed.
Lemma keep_newest_flags l : forall b, keep_newest l b false = newest_flags (fitting (conversation l) b) l.
Proof.
  induction l as [|m l IH]; intros b; [done|]. cbn [keep_newest newest_flags]. rewrite conversation_cons.
  destruct (is_role System m); [by rewrite IH|]. cbn [fitting]. destruct (_ <=? _); [by rewrite IH|].
  by rewrite keep_newest_closed.
Qed.
Lemma newest_flags_snoc m l : forall k,
  newest_flags k (l ++ [m]) = newest_flags k l ++ [is_role System m || (length (conversation l) <? k)%nat].
Proof.
  induction l as [|x l IH]; intros k; cbn [app newest_flags].
  - unfold conversation; cbn. by destruct (is_role System m), k.
  - rewrite conversation_cons. destruct (is_role System x); [by rewrite IH|].
    destruct k; rewrite IH; cbn [app length]; do 3 f_equal; by destruct (is_role System m).
Qed.
Lemma conversation_reverse l : conversation (reverse l) = reverse (conversation l).
Proof. unfold conversation. by rewrite filter_reverse. Qed.
Lemma window_flags_cons k m l :
  window_flags k (m :: l) = (is_role System m || (length (conversation l) <? k)%nat) :: window_flags k l.
Proof.
  unfold window_flags. rewrite reverse_cons, newest_flags_snoc, reverse_snoc.
  by rewrite conversation_reverse, length_reverse.
Qed.

(** The messages a window of [k] leaves, and those left without a leading
    answer. *)
Fixpoint skip_to_user (l : list Message) : list Message :=
  match l with [] => [] | m :: r => if is_role User m then l else skip_to_user r end.
Lemma skip_to_user_suffix l : exists p, l = p ++ skip_to_user l.
Proof.
  induction l as [|m l [p IH]]; [by exists []|]. cbn. destruct (is_role User m); [by exists []|].
  exists (m :: p). by rewrite IH at 1.
Qed.
Lemma skip_to_user_opens l : opens_with_user (skip_to_user l).
Proof. induction l as [|m l IH]; [done|]. cbn. destruct (is_role User m) eqn:E; [by apply is_role_true|done]. Qed.
Lemma skip_to_user_longest p l : l <> [] -> opens_with_user l -> (length l <= length (skip_to_user (p ++ l)))%nat.
Proof.
  intros Hn Ho. induction p as [|m p IH]; cbn.
  - destruct l as [|m l]; [done|]. cbn in *. apply is_role_true in Ho. by rewrite Ho.
  - destruct (is_role User m); [|done]. cbn. rewrite length_app. lia.
Qed.

Lemma length_window_flags k l : length (window_flags k l) = length l.
Proof. induction l as [|m l IH]; [done|]. by rewrite window_flags_cons; cbn; rewrite IH. Qed.
Definition kept (l : list (Message * bool)) : list Message := (filter (fun p => p.2 = true) l).*1.
Lemma kept_cons m b l : kept ((m, b) :: l) = if b then m :: kept l else kept l.
Proof. unfold kept. rewrite filter_cons. by destruct b. Qed.
Lemma kept_window k l :
  systems (kept (zip l (window_flags k l))) = systems l /\
  conversation (kept (zip l (window_flags k l))) = last_n k (conversation l) /\
  kept (zip l (window_flags k l)) `sublist_of` l.
Proof.
  induction l as [|m l (IHs & IHc & IHl)]; [done|]. rewrite window_flags_cons. cbn [zip zip_with]. rewrite kept_cons.
  rewrite systems_cons, (conversation_cons m). destruct (is_role System m) eqn:E; cbn [orb].
  - rewrite systems_cons, conversation_cons, E, IHs, IHc. split_and!; [done..|by constructor].
  - destruct (_ <? k)%nat eqn:Hk.
    + rewrite systems_cons, conversation_cons, E, IHs, IHc. split_and!; [done| |by constructor].
      rewrite !last_n_all; [done|cbn; lia|lia].
    + rewrite last_n_cons by lia. split_and!; [done..|by constructor].
Qed.
Lemma kept_drop_leading k l :
  systems (kept (drop_leading (zip l (window_flags k l)))) = systems l /\
  conversation (kept (drop_leading (zip l (window_flags k l)))) = skip_to_user (last_n k (conversation l)) /\
  kept (drop_leading (zip l (window_flags k l))) `sublist_of` l.
Proof.
  induction l as [|m l (IHs & IHc & IHl)]; [done|]. rewrite window_flags_cons. cbn [zip zip_with drop_leading].
  rewrite systems_cons, (conversation_cons m). destruct (is_role System m) eqn:E; cbn [orb negb].
  - rewrite kept_cons, systems_cons, conversation_cons, E, IHs, IHc. split_and!; [done..|by constructor].
  - destruct (length (conversation l) <? k)%nat eqn:Hk; cbn [negb].
    + rewrite last_n_all by (cbn; lia). cbn [skip_to_user]. destruct (is_role User m) eqn:Eu; rewrite kept_cons.
      * destruct (kept_window k l) as (Hs & Hc & Hl). rewrite systems_cons, conversation_cons, E, Hs, Hc.
        split_and!; [done| |by constructor]. by rewrite last_n_all by lia.
      * rewrite IHs, IHc, last_n_all by lia. split_and!; [done..|by constructor].
    + rewrite kept_cons, last_n_cons by lia. split_and!; [done..|by constructor].
Qed.

Lemma total_systems l : total_tokens l = total_tokens (systems l) + total_tokens (conversation l).
Proof.
  induction l as [|m l IH]; [done|]. rewrite total_tokens_cons, systems_cons, conversation_cons, IH.
  destruct (is_role System m); rewrite total_tokens_cons; lia.
Qed.
Lemma total_tokens_reverse l : total_tokens (reverse l) = total_tokens l.
Proof. induction l as [|m l IH]; [done|]. rewrite reverse_cons, total_tokens_app, IH, !total_tokens_cons. cbn. lia. Qed.
Lemma fitting_spec l : forall b k, 0 <= b -> (k <= length l)%nat ->
  ((k <= fitting l b)%nat <-> total_tokens (take k l) <= b).
Proof.
  induction l as [|m l IH]; intros b k Hb Hk; cbn [fitting length] in *.
  - replace k with 0%nat by lia. cbn. lia.
  - destruct k as [|k]; [cbn; lia|]. cbn [take]. rewrite total_tokens_cons.
    pose proof (total_tokens_nonneg (take k l)). destruct (_ <=? b) eqn:E; [|lia].
    rewrite <- Nat.succ_le_mono, IH by lia. lia.
Qed.
Lemma last_n_app {A} (a b : list A) : last_n (length b) (a ++ b) = b.
Proof. unfold last_n. rewrite length_app. replace (length a + length b - length b)%nat with (length a) by lia. apply drop_app_length. Qed.
Lemma last_n_prefix {A} n (l : list A) : exists p, l = p ++ last_n n l.
Proof. exists (take (length l - n) l). symmetry. apply take_drop. Qed.
Lemma last_n_le {A} n k (l : list A) : (n <= k)%nat -> last_n n (last_n k l) = last_n n l.
Proof. intros. unfold last_n. rewrite drop_drop, length_drop. f_equal. lia. Qed.

(** All of what [assemble] keeps. *)
Lemma assemble_spec (messages : list Message) (max_tokens : Z) :
  let out := assemble messages max_tokens in
  let budget := saturating_sub max_tokens (total_tokens (systems messages)) in
  out `sublist_of` messages /\ systems out = systems messages /\
  total_tokens out <= Z.max max_tokens (total_tokens (systems messages)) /\
  exists k, let fits k := opens_with_user (last_n k (conversation messages)) /\
                          total_tokens (last_n k (conversation messages)) <= budget in
    conversation out = last_n k (conversation messages) /\ fits k /\
    forall n, (n <= length (conversation messages))%nat -> fits n -> (n <= k)%nat.
Proof.
  cbv zeta. unfold assemble. fold (systems messages). set (b := saturating_sub _ _).
  assert (Hb : 0 <= b) by (subst b; unfold saturating_sub; lia).
  rewrite keep_newest_flags, conversation_reverse. set (c := conversation messages). set (k0 := fitting (reverse c) b).
  fold (window_flags k0 messages).
  change ((filter (fun p => p.2 = true) ?l).*1) with (kept l).
  destruct (kept_drop_leading k0 messages) as (Hs & Hc & Hl). set (out := kept _) in *.
  assert (Hfit : forall n, (n <= length c)%nat -> (n <= k0)%nat <-> total_tokens (last_n n c) <= b).
  { intros n Hn. unfold k0. rewrite fitting_spec by (rewrite ?length_reverse; done).
    rewrite take_reverse. fold (last_n n c). by rewrite total_tokens_reverse. }
  fold c in Hc. set (tail := skip_to_user (last_n k0 c)) in *.
  destruct (last_n_prefix k0 c) as [q Hq]. destruct (skip_to_user_suffix (last_n k0 c)) as [p Hp]. fold tail in Hp.
  assert (Htail : last_n (length tail) c = tail) by (rewrite Hq, Hp, app_assoc; apply last_n_app).
  assert (Hlen : (length tail <= k0)%nat /\ (length tail <= length c)%nat).
  { apply (f_equal length) in Hp. rewrite length_app, length_last_n in Hp. lia. }
  assert (Hsum : total_tokens tail <= b) by (rewrite <- Htail; apply Hfit; lia).
  split; [done|]. split; [done|]. split.
  - rewrite total_systems, Hs, Hc. subst b. unfold saturating_sub in Hsum. lia.
  - exists (length tail). rewrite Htail, Hc. split; [done|]. split; [split; [apply skip_to_user_opens|done]|].
    intros n Hn [Ho Ht]. apply Hfit in Ht; [|done]. rewrite <- (last_n_le n k0) in Ho by done.
    destruct (decide (n = 0%nat)) as [->|]; [lia|]. destruct (last_n_prefix n (last_n k0 c)) as [r Hr].
    pose proof (skip_to_user_longest r (last_n n (last_n k0 c))) as Hlong. rewrite <- Hr in Hlong. fold tail in Hlong.
    rewrite !length_last_n in Hlong. specialize (Hlong ltac:(intros E; apply (f_equal length) in E; rewrite !length_last_n in E; cbn in E; lia) Ho). lia.
Qed.
(** C31: [assemble] keeps the messages in order, all system messages among them,
    and of the conversation the longest ending that opens with a user's message
    and fits what the system messages leave of the budget; so a tool result is
    never kept without what led to it from the user's turn on, and the total stays
    within the budget, or is that of the system messages alone. *)
Theorem assemble_window (messages : list Message) (max_tokens : Z) :
  let out := assemble messages max_tokens in
  let budget := saturating_sub max_tokens (total_tokens (systems messages)) in
  out `sublist_of` messages /\ systems out = systems messages /\
  total_tokens out <= Z.max max_tokens (total_tokens (systems messages)) /\
  exists k, let fits k := opens_with_user (last_n k (conversation messages)) /\
                          total_tokens (last_n k (conversation messages)) <= budget in
    conversation out = last_n k (conversation messages) /\ fits k /\
    forall n, (n <= length (conversation messages))%nat -> fits n -> (n <= k)%nat.
Proof. exact (assemble_spec messages max_tokens). Qed.

(** The excerpt has the characters it keeps and a short notice. *)
Lemma head_tail_count keep after c :
  0 <= keep -> 2 * keep < char_count c < 10 ^ 17 -> ascii after = true ->
  char_count (head_tail keep after c) <= 2 * keep + len after + 24.
Proof.
  intros Hk Hc Ha. unfold head_tail, char_count in *. set (cs := chars c) in *.
  destruct (chars_are_chars c) as (H1 & H2 & _). fold cs in H1, H2.
  set (n := pretty (zlen cs - keep * 2)).
  destruct (pretty_Z_short (zlen cs - keep * 2) 17) as [Hna Hnl]; [lia|lia|]. fold n in Hna, Hnl.
  assert (Hmid : exists mid, ascii mid = true /\ starts mid = true /\ len mid = 6 + len n + len after + 1 /\
    of_chars (take (Z.to_nat keep) cs) +:+ nl +:+ "[... " +:+ n +:+ after +:+ nl +:+ of_chars (drop (Z.to_nat (zlen cs - keep)) cs)
    = of_chars (take (Z.to_nat keep) cs) +:+ (mid +:+ of_chars (drop (Z.to_nat (zlen cs - keep)) cs))).
  { exists (nl +:+ "[... " +:+ n +:+ after +:+ nl). split_and!.
    - by rewrite !ascii_app, Hna, Ha.
    - done.
    - rewrite !append_length. change (len nl) with 1. change (len "[... ") with 5. lia.
    - by rewrite !append_assoc. }
  destruct Hmid as (mid & Hma & Hms & Hml & ->).
  assert (Hcut : drop (Z.to_nat (zlen cs - keep)) cs = drop (Z.to_nat (zlen cs - keep) - 1) (tail cs)).
  { replace (tail cs) with (drop 1 cs) by (by destruct cs). rewrite drop_drop. f_equal. lia. }
  assert (Hlast : starts (of_chars (drop (Z.to_nat (zlen cs - keep)) cs)) = true \/ of_chars (drop (Z.to_nat (zlen cs - keep)) cs) = "").
  { rewrite Hcut. pose proof (Forall_drop _ (Z.to_nat (zlen cs - keep) - 1) _ H2) as Hd.
    destruct (drop _ (tail cs)) as [|w l]; [by right|left]. rewrite of_chars_cons. inversion Hd; subst. by destruct w. }
  rewrite chars_app.
  2:{ right. destruct mid; [done|]. exact Hms. }
  rewrite chars_app by tauto.
  rewrite !chars_of_chars; [|by apply Forall_drop| |by apply Forall_take|].
  - rewrite !zlen_app. fold (char_count mid). rewrite ascii_char_count, Hml by done.
    rewrite zlen_take, zlen_drop by lia. unfold zlen in *. lia.
  - rewrite Hcut. destruct (drop _ (tail cs)) as [|w l] eqn:E; [constructor|]. cbn [tail].
    pose proof (Forall_drop _ (Z.to_nat (zlen cs - keep) - 1) _ H2) as Hd. rewrite E in Hd. by inversion Hd.
  - destruct cs as [|w l]; [by rewrite take_nil|]. destruct (Z.to_nat keep); [constructor|]. cbn [take tail] in *. by apply Forall_take.
Qed.

(** ** Ageing tool results *)
Lemma soft_trim_short c : char_count c < 10 ^ 17 -> char_count (soft_trim_in_place c) <= 1080.
Proof.
  intros Hc. unfold soft_trim_in_place, SOFT_TRIM_KEEP_CHARS. destruct (_ <=? _) eqn:E; [lia|].
  eapply Z.le_trans; [apply head_tail_count; [lia|lia|done]|]. done.
Qed.
Lemma soft_trim_idempotent c : char_count c < 10 ^ 17 -> soft_trim_in_place (soft_trim_in_place c) = soft_trim_in_place c.
Proof.
  intros Hc. pose proof (soft_trim_short c Hc). unfold soft_trim_in_place at 1.
  by replace (_ <=? _) with true by (unfold SOFT_TRIM_KEEP_CHARS; lia).
Qed.
Lemma aged_idempotent rank c : char_count c < 10 ^ 17 -> aged_content rank (aged_content rank c) = aged_content rank c.
Proof.
  intros Hc. unfold aged_content. destruct (_ <=? rank); [done|]. destruct (_ <=? rank); [|done].
  by apply soft_trim_idempotent.
Qed.

Definition tools (l : list Message) : Z := zlen (filter (fun m => role m = Tool) l).
Definition aged (rank : Z) (m : Message) : Message :=
  if is_role Tool m then with_content (aged_content rank (content m)) m else m.
Lemma tools_cons m l : tools (m :: l) = (if is_role Tool m then 1 else 0) + tools l.
Proof. unfold tools, is_role. rewrite filter_cons. case_decide; case_bool_decide; try done. rewrite zlen_cons. lia. Qed.
Lemma is_role_aged r rank m : is_role r (aged rank m) = is_role r m.
Proof. unfold aged. by case_match. Qed.
Lemma prune_newest_lookup l : forall r i,
  prune_newest r l !! i = (fun m => aged (r + tools (take i l)) m) <$> l !! i.
Proof.
  induction l as [|m l IH]; intros r i; [done|]. cbn [prune_newest].
  destruct (is_role Tool m) eqn:E; cbn [negb]; destruct i as [|i]; cbn [take lookup list_lookup].
  - cbn -[aged tools]. change (tools []) with 0. rewrite Z.add_0_r. unfold aged. by rewrite E.
  - rewrite IH, tools_cons, E. f_equal. by rewrite Z.add_assoc.
  - cbn -[aged tools]. unfold aged. by rewrite E.
  - rewrite IH, tools_cons, E. done.
Qed.
Lemma length_prune_newest l : forall r, length (prune_newest r l) = length l.
Proof. induction l as [|m l IH]; intros r; [done|]. cbn [prune_newest]. case_match; cbn; by rewrite IH. Qed.
Lemma tools_reverse l : tools (reverse l) = tools l.
Proof. unfold tools, zlen. by rewrite filter_reverse, length_reverse. Qed.
Lemma prune_lookup l i : prune_tool_results_by_age l !! i = (fun m => aged (tools (drop (S i) l)) m) <$> l !! i.
Proof.
  unfold prune_tool_results_by_age. destruct (decide (i < length l)%nat) as [Hi|Hi].
  - rewrite reverse_lookup by (by rewrite length_prune_newest, length_reverse).
    rewrite length_prune_newest, length_reverse, prune_newest_lookup, reverse_lookup by lia.
    replace (length l - S (length l - S i))%nat with i by lia. rewrite take_reverse, tools_reverse, Z.add_0_l.
    by replace (length l - (length l - S i))%nat with (S i) by lia.
  - rewrite !lookup_ge_None_2; [done|lia|]. rewrite length_reverse, length_prune_newest, length_reverse. lia.
Qed.
Lemma tools_aged l : forall k, tools (drop k (prune_tool_results_by_age l)) = tools (drop k l).
Proof.
  assert (H : forall a b, (forall i, (role <$> a !! i) = (role <$> b !! i)) -> tools a = tools b).
  { induction a as [|x a IH]; intros b Hb.
    - destruct b as [|y b]; [done|]. by specialize (Hb 0%nat).
    - destruct b as [|y b]; [by specialize (Hb 0%nat)|]. rewrite !tools_cons, (IH b) by (intros i; apply (Hb (S i))).
      specialize (Hb 0%nat). cbn in Hb. injection Hb as Hb. unfold is_role. by rewrite Hb. }
  intros k. apply H. intros i. rewrite !lookup_drop, prune_lookup. destruct (l !! _); [|done]. cbn.
  unfold aged. by case_match.
Qed.

(** Ageing changes the content of tool results only: the newest three stay as
    they are, the next seven are cut to at most 1080 characters, older ones are
    replaced by a placeholder; doing it again changes nothing. *)
Theorem age_pruning (messages : list Message) :
  Forall (fun m => char_count (content m) < 10 ^ 17) messages ->
  let out := prune_tool_results_by_age messages in
  (forall i, out !! i = aged (tools (drop (S i) messages)) <$> messages !! i) /\
  prune_tool_results_by_age out = out /\
  (forall i m, out !! i = Some m -> role m = Tool ->
     let newer := tools (drop (S i) messages) in
     (newer < 3 -> messages !! i = Some m) /\
     (3 <= newer < 10 -> char_count (content m) <= 1080) /\
     (10 <= newer -> content m = HARD_CLEAR_PLACEHOLDER)).
Proof.
  intros Hs out. split; [apply prune_lookup|]. split.
  - apply list_eq. intros i. rewrite prune_lookup. unfold out at 1. rewrite tools_aged. unfold out. rewrite prune_lookup.
    destruct (messages !! i) as [m|] eqn:E; [|done]. cbn. f_equal. unfold aged.
    destruct (is_role Tool m) eqn:Et; [|by rewrite ?Et].
    replace (is_role Tool (with_content _ m)) with true by done.
    unfold with_content; cbn. rewrite aged_idempotent; [done|]. rewrite list.Forall_forall in Hs. apply Hs.
    by eapply list_elem_of_lookup_2.
  - intros i m Hm Ht newer. unfold out in Hm. rewrite prune_lookup in Hm. fold newer in Hm.
    destruct (messages !! i) as [m0|] eqn:E; [|done]. cbn in Hm. injection Hm as Hm.
    assert (H0 : is_role Tool m0 = true) by (rewrite <- (is_role_aged Tool newer), Hm; by apply is_role_true).
    unfold aged in Hm. rewrite H0 in Hm. subst m. cbn [with_content content].
    unfold aged_content, HARD_CLEAR_TOOL_RESULTS_AFTER, KEEP_RECENT_TOOL_RESULTS. split_and!; intros Hn.
    + replace (10 <=? newer) with false by lia. replace (3 <=? newer) with false by lia. by destruct m0.
    + replace (10 <=? newer) with false by lia. replace (3 <=? newer) with true by lia. apply soft_trim_short.
      rewrite list.Forall_forall in Hs. apply Hs. by eapply list_elem_of_lookup_2.
    + by replace (10 <=? newer) with true by lia.
Qed.

Definition long_text : string := String.concat "" (replicate 500 "xxxxxxxx").
Definition text_turns : list Message :=
  [new_message "u" User "look"; new_message "a" Assistant "read it"; new_message "t" Tool ("error: " +:+ long_text);
   new_message "b" Assistant "read that"; new_message "r" Tool "contents"].
Lemma age_pruning_witness :
  Forall (fun m => char_count (content m) < 10 ^ 17) text_turns /\
  prune_tool_results_by_age (prune_tool_results_by_age text_turns) = prune_tool_results_by_age text_turns.
Proof.
  assert (H : Forall (fun m => char_count (content m) < 10 ^ 17) text_turns) by (repeat constructor).
  split; [exact H|]. apply (age_pruning text_turns H).
Defined.

(** A turn whose own exchanges outgrow the budget loses its question, and with it
    everything: no user's message is left for the window to open with. *)
Lemma single_turn_lost :
  content <$> assemble [new_message "s" System "rules"; new_message "u" User "fuzz it"; new_message "a" Assistant "0123456789012345";
                        new_message "t" Tool "0123456789012345"] 11 = ["rules"].
Proof. by vm_compute. Qed.
