(* ===== verification/Pruning.v ===== *)
(** * Pruning dead tool calls within a turn

    Models [crates/hf-context/src/pruning]: [patterns.rs], [intra_turn.rs],
    [config.rs].  Sums in [u32] wrap, as a release build's do; log records are not
    modelled. *)
From S2P Require Import Prelude Provider Text Utf8 Context.
From Stdlib Require Import SpecFloat.

(** ** Patterns ([pruning/patterns.rs]) *)
Definition ERROR_PATTERNS : list string :=
  [quoted "error" +:+ ":"; quoted "error_type" +:+ ":"; "error:"; "Error:"; "FAILED"; "failed to";
   "parameter validation failed"; "not found"; "permission denied"].
Definition EMPTY_RESULT_PATTERNS : list string :=
  [quoted "results" +:+ ": []"; quoted "results" +:+ ":[]"; quoted "count" +:+ ": 0"; quoted "count" +:+ ":0";
   "no results found"; "No results found"; "no matches"; "No matches"; "[]"].
Definition EMPTY_RESULT_MAX_LEN : Z := 200.
(** The float written [0.8]. *)
Definition SIMILARITY_THRESHOLD : f64 := decimal 8 (-1).
Definition MAX_ADJACENT_DISTANCE : nat := 3.
Definition matches_error_patterns (content : string) (extra_patterns : list string) : bool :=
  existsb (contains content) ERROR_PATTERNS || existsb (contains content) extra_patterns.
Definition matches_empty_patterns (content : string) : bool :=
  (len content <? EMPTY_RESULT_MAX_LEN) && existsb (contains content) EMPTY_RESULT_PATTERNS.
Definition content_similarity (a b : string) : f64 :=
  if String.eqb a "" && String.eqb b "" then f64_of 1
  else if String.eqb a "" || String.eqb b "" then f64_of 0
  else
    let min_len := Z.min (len a) (len b) in
    let max_len := Z.max (len a) (len b) in
    let matching := zlen (filter (fun p => p.1 = p.2) (take (Z.to_nat min_len) (zip (chars a) (chars b)))) in
    f64_div (f64_of matching) (f64_of max_len).

(** ** Pruning within a turn ([pruning/intra_turn.rs]) *)
Record IntraTurnPruningConfig := mkPruningConfig {
  enabled : bool;
  min_iteration : Z;
  token_threshold : Z;
}.
Definition default_pruning_config : IntraTurnPruningConfig := mkPruningConfig true 3 1000.
Record IntraTurnPruner := mkPruner {
  pruner_config : IntraTurnPruningConfig;
  extra_patterns : list string;
}.
Definition from_config (c : IntraTurnPruningConfig) : IntraTurnPruner := mkPruner c [].
Record IntraTurnPruningReport := mkReport {
  messages_removed : Z;
  tokens_saved : Z;
  skipped : bool;
}.
Definition skipped_report : IntraTurnPruningReport := mkReport 0 0 true.

(** [remove_ids] and [candidate_tokens]. *)
Definition Marks : Type := gset string * Z.
Definition mark (m : Message) (k : Marks) : Marks :=
  ({[message_id m]} ∪ k.1, wrapping 32 (k.2 + estimate_tokens_u32 (content m))).

Definition is_protected (i : nat) (boundary : option nat) : bool :=
  match boundary with Some b => (b <=? i)%nat | None => false end.
Definition has_calls (m : Message) : bool := negb (bool_decide (tool_calls m = [])).
Definition answers (calls : list string) (m : Message) : bool :=
  match tool_call_id m with Some i => bool_decide (i ∈ calls) | None => false end.

Definition at_boundary (messages : list Message) (i : nat) : bool :=
  match messages !! i with
  | Some m =>
      is_role Assistant m &&
      (match messages !! S i with Some n => is_role Tool n | None => false end
       || existsb (fun call => existsb (answers [call]) (drop (S i) messages)) (tool_calls m))
  | None => false
  end.
Definition find_last_assistant_tool_boundary (messages : list Message) : option nat :=
  List.find (at_boundary messages) (reverse (seq 0 (length messages))).

(** Signals 1 and 3: tool results that match, with the assistant just before. *)
Fixpoint detect_tool_results (matches : string -> bool) (boundary : option nat) (prev : option Message) (i : nat)
    (messages : list Message) (k : Marks) : Marks :=
  match messages with
  | [] => k
  | m :: rest =>
      let assistant := match prev with Some p => is_role Assistant p | None => false end in
      let calling := match prev with Some p => is_role Assistant p && has_calls p | None => false end in
      let k :=
        if negb (is_role Tool m) || is_protected i boundary || calling || negb (matches (content m)) then k
        else
          let k := mark m k in
          match prev with
          | Some p => if assistant && negb (is_protected (i - 1) boundary) then mark p k else k
          | None => k
          end in
      detect_tool_results matches boundary (Some m) (S i) rest k
  end.
Definition detect_error_tool_results (p : IntraTurnPruner) (messages : list Message) (boundary : option nat) : Marks -> Marks :=
  detect_tool_results (fun c => matches_error_patterns c (extra_patterns p)) boundary None 0 messages.
Definition detect_empty_tool_results (messages : list Message) (boundary : option nat) : Marks -> Marks :=
  detect_tool_results matches_empty_patterns boundary None 0 messages.

(** Signal 2. *)
Definition assistant_messages (messages : list Message) : list (nat * Message) :=
  filter (fun p => role p.2 = Assistant) (imap pair messages).
Definition repeats (messages : list Message) (boundary : option nat) (a b : nat * Message) : bool :=
  (b.1 - a.1 <=? MAX_ADJACENT_DISTANCE)%nat
  && negb (is_protected a.1 boundary)
  && negb (has_calls a.2)
  && negb (String.eqb (Prelude.trim (content a.2)) "" && String.eqb (Prelude.trim (content b.2)) "")
  && SFltb SIMILARITY_THRESHOLD (content_similarity (content a.2) (content b.2)).
Definition mark_repeated (messages : list Message) (boundary : option nat) (a : nat * Message) (k : Marks) : Marks :=
  let k := mark a.2 k in
  match messages !! S a.1 with
  | Some m => if is_role Tool m && negb (is_protected (S a.1) boundary) then mark m k else k
  | None => k
  end.
Fixpoint repeated_pairs (messages : list Message) (boundary : option nat) (l : list (nat * Message)) (k : Marks) : Marks :=
  match l with
  | a :: (b :: _) as rest =>
      repeated_pairs messages boundary rest
        (if repeats messages boundary a b then mark_repeated messages boundary a k else k)
  | _ => k
  end.
Definition detect_repeated_calls (messages : list Message) (boundary : option nat) : Marks -> Marks :=
  repeated_pairs messages boundary (assistant_messages messages).

Definition removed (ids : gset string) (m : Message) : bool := bool_decide (message_id m ∈ ids).
Definition result_of (calls : list string) (m : Message) : bool := is_role Tool m && answers calls m.
Definition ensure_structural_integrity (messages : list Message) (ids : gset string) : gset string :=
  let calling := filter (fun m => is_role Assistant m && has_calls m) messages in
  let assistant_removals := tool_calls <$> filter (fun m => removed ids m) calling in
  let ids := fold_left (fun ids calls =>
    fold_left (fun ids m => if result_of calls m then {[message_id m]} ∪ ids else ids) messages ids) assistant_removals ids in
  fold_left (fun ids m =>
    let results := filter (fun n => result_of (tool_calls m) n) messages in
    if forallb (removed ids) results && existsb (removed ids) results then {[message_id m]} ∪ ids else ids) calling ids.

Definition prune_working_history (p : IntraTurnPruner) (working_history : list Message) (iteration : Z)
    : IntraTurnPruningReport * list Message :=
  let c := pruner_config p in
  if negb (enabled c) then (skipped_report, working_history)
  else if wrapping 32 iteration <? min_iteration c then (skipped_report, working_history)
  else
    let boundary := find_last_assistant_tool_boundary working_history in
    let k := detect_error_tool_results p working_history boundary (∅, 0) in
    let k := detect_repeated_calls working_history boundary k in
    let k := detect_empty_tool_results working_history boundary k in
    if bool_decide (k.1 = ∅) || (k.2 <? token_threshold c) then (skipped_report, working_history)
    else
      let ids := ensure_structural_integrity working_history k.1 in
      let saved := foldr (fun m n => wrapping 32 (estimate_tokens_u32 (content m) + n)) 0
                     (filter (fun m => removed ids m) working_history) in
      (mkReport (Z.of_nat (size ids)) saved false, filter (fun m => negb (removed ids m)) working_history).

(** ** Pruning keeps calls and results together *)
(** Identifiers are unique, and every tool result directly follows the one message
    whose call it answers. *)
Definition protocol (l : list Message) : Prop :=
  NoDup (message_id <$> l) /\
  forall i t, l !! i = Some t -> role t = Tool ->
    exists j a, i = S j /\ l !! j = Some a /\ role a = Assistant /\
      forall m, m ∈ l -> answers (tool_calls m) t = true -> m = a.

Lemma is_protected_false i b : is_protected i b = false <-> forall n, b = Some n -> (i < n)%nat.
Proof. unfold is_protected. destruct b as [n|]; [|done]. split; [intros H ? [= <-]; lia|intros H; specialize (H n eq_refl); lia]. Qed.
Lemma has_calls_false m : has_calls m = false <-> tool_calls m = [].
Proof. unfold has_calls. by rewrite negb_false_iff, bool_decide_eq_true. Qed.

Section pruning.
Context (l : list Message) (Hl : protocol l).
Definition boundary : option nat := find_last_assistant_tool_boundary l.

Lemma same_index i j m n : l !! i = Some m -> l !! j = Some n -> message_id m = message_id n -> i = j /\ m = n.
Proof.
  intros Hi Hj E. assert (i = j) as <-; [|split; congruence]. destruct Hl as [Hn _].
  eapply NoDup_lookup; [exact Hn| |]; rewrite list_lookup_fmap; [by rewrite Hi|]. rewrite Hj. cbn. by rewrite E.
Qed.
Lemma boundary_assistant b : boundary = Some b -> exists a, l !! b = Some a /\ role a = Assistant.
Proof.
  unfold boundary, find_last_assistant_tool_boundary. intros [_ H]%find_some. unfold at_boundary in H.
  destruct (l !! b) as [a|]; [|done]. apply andb_true_iff in H as [H _]. exists a. split; [done|]. by apply is_role_true.
Qed.

(** What may be marked: answers without calls, and what follows them. *)
Definition markable (x : string) : Prop :=
  exists i m, l !! i = Some m /\ message_id m = x /\ is_protected i boundary = false /\
    (role m = Assistant /\ tool_calls m = [] \/
     role m = Tool /\ exists j a, i = S j /\ l !! j = Some a /\ role a = Assistant /\ tool_calls a = []).
Definition sound (ids : gset string) : Prop :=
  (forall x, x ∈ ids -> markable x) /\
  (forall j a t, l !! j = Some a -> l !! S j = Some t -> role a = Assistant -> role t = Tool ->
     (message_id a ∈ ids <-> message_id t ∈ ids)).

Lemma mark_pair ids j a t :
  sound ids -> l !! j = Some a -> l !! S j = Some t -> role a = Assistant -> role t = Tool -> tool_calls a = [] ->
  is_protected (S j) boundary = false -> sound ({[message_id a]} ∪ ({[message_id t]} ∪ ids)).
Proof.
  intros [Hm Hp] Ha Ht Hra Hrt Hc Hpr. split.
  - intros x [->%elem_of_singleton|[->%elem_of_singleton|Hx]%elem_of_union]%elem_of_union; [| |by apply Hm].
    + exists j, a. split_and!; try done; [|by left]. rewrite is_protected_false in *. intros n E. specialize (Hpr n E). lia.
    + exists (S j), t. split_and!; try done. right. split; [done|]. by exists j, a.
  - intros j' a' t' Ha' Ht' Hra' Hrt'. rewrite !elem_of_union, !elem_of_singleton. split; intros [E|[E|Hx]].
    + destruct (same_index _ _ _ _ Ha' Ha E) as [-> _]. right. left. by simplify_eq.
    + destruct (same_index _ _ _ _ Ha' Ht E) as [_ ->]. congruence.
    + right. right. by apply (Hp j' a').
    + destruct (same_index _ _ _ _ Ht' Ha E) as [_ ->]. congruence.
    + destruct (same_index _ _ _ _ Ht' Ht E) as [[= ->] _]. left. by simplify_eq.
    + right. right. by apply (Hp j' a' t').
Qed.
Lemma mark_alone ids j a :
  sound ids -> l !! j = Some a -> role a = Assistant -> tool_calls a = [] -> is_protected j boundary = false ->
  (forall t, l !! S j = Some t -> role t <> Tool) -> sound ({[message_id a]} ∪ ids).
Proof.
  intros [Hm Hp] Ha Hra Hc Hpr Hnext. split.
  - intros x [->%elem_of_singleton|Hx]%elem_of_union; [|by apply Hm]. exists j, a. split_and!; try done. by left.
  - intros j' a' t' Ha' Ht' Hra' Hrt'. rewrite !elem_of_union, !elem_of_singleton. split; intros [E|Hx].
    + destruct (same_index _ _ _ _ Ha' Ha E) as [-> _]. by destruct (Hnext t').
    + right. by apply (Hp j' a').
    + destruct (same_index _ _ _ _ Ht' Ha E) as [_ ->]. congruence.
    + right. by apply (Hp j' a' t').
Qed.

Lemma detect_tool_results_sound matches : forall rest i prev k,
  (forall n, rest !! n = l !! (i + n)%nat) -> prev = (match i with O => None | S j => l !! j end) -> sound k.1 ->
  sound (detect_tool_results matches boundary prev i rest k).1.
Proof.
  induction rest as [|m rest IH]; intros i prev k Hrest Hprev Hk; [done|].
  assert (Hm : l !! i = Some m) by (specialize (Hrest 0%nat); by rewrite Nat.add_0_r in Hrest).
  cbn [detect_tool_results]. apply IH.
  { intros n. etransitivity; [exact (Hrest (S n))|]. f_equal. lia. }
  { done. }
  destruct (negb (is_role Tool m) || is_protected i boundary || _ || _) eqn:E; [done|].
  rewrite !orb_false_iff in E. destruct E as [[[Et Ep] Ec] _]. apply negb_false_iff, is_role_true in Et.
  destruct Hl as [_ Hprot]. destruct (Hprot i m Hm Et) as (j & a & -> & Ha & Hra & _).
  subst prev. rewrite Ha in *. assert (Hra' : is_role Assistant a = true) by by apply is_role_true.
  rewrite Hra' in *. cbn [andb] in *. apply has_calls_false in Ec.
  assert (Epj : is_protected j boundary = false).
  { rewrite is_protected_false in *. intros n En. specialize (Ep n En). lia. }
  replace (S j - 1)%nat with j by lia. rewrite Epj. cbn [negb mark fst].
  by apply (mark_pair _ j a m).
Qed.

Definition numbered (p : nat * Message) : Prop := l !! p.1 = Some p.2 /\ role p.2 = Assistant.
Lemma assistant_messages_numbered : Forall numbered (assistant_messages l).
Proof.
  unfold assistant_messages. rewrite list.Forall_forall. intros [i a] [Ha Hi]%list_elem_of_filter.
  apply list_elem_of_lookup in Hi as [n Hi]. rewrite list_lookup_imap in Hi.
  destruct (l !! n) eqn:E; [|done]. cbn in Hi. injection Hi as <- <-. by split.
Qed.
Lemma repeated_pairs_sound : forall ps k,
  Forall numbered ps -> sound k.1 -> sound (repeated_pairs l boundary ps k).1.
Proof.
  induction ps as [|[i a] ps IH]; intros k Hps Hk; [done|].
  destruct ps as [|b ps]; [done|]. inversion_clear Hps as [|? ? [Ha Hra] Hps']. cbn [fst snd] in *.
  change (repeated_pairs l boundary ((i, a) :: b :: ps) k) with
    (repeated_pairs l boundary (b :: ps) (if repeats l boundary (i, a) b then mark_repeated l boundary (i, a) k else k)).
  apply IH; [done|]. destruct (repeats l boundary (i, a) b) eqn:E; [|done].
  unfold repeats in E. rewrite !andb_true_iff, !negb_true_iff in E. destruct E as [[[[_ Ep] Ec] _] _]. cbn [fst snd] in *.
  apply has_calls_false in Ec. unfold mark_repeated. cbn [fst snd].
  destruct (l !! S i) as [t|] eqn:Et; cycle 1.
  { apply (mark_alone _ i a); try done. congruence. }
  destruct (is_role Tool t) eqn:Er; cbn [andb]; cycle 1.
  { apply (mark_alone _ i a); try done. intros t' Ht' Hr'. apply is_role_true in Hr'. congruence. }
  apply is_role_true in Er. assert (Eps : is_protected (S i) boundary = false).
  { rewrite is_protected_false in *. intros n En. specialize (Ep n En).
    destruct (decide (n = S i)) as [->|]; [|lia]. destruct (boundary_assistant _ En) as (y & Hy & Hr). congruence. }
  rewrite Eps. cbn [negb mark fst]. rewrite (union_assoc_L {[_]} {[_]}), (union_comm_L {[_]} {[_]}), <- union_assoc_L.
  by apply (mark_pair _ i a t).
Qed.

(** What is sound needs no repair. *)
Lemma calling_kept ids m : sound ids -> m ∈ l -> role m = Assistant -> tool_calls m <> [] -> message_id m ∉ ids.
Proof.
  intros [Hs _] Hm Hr Hc Hin. apply list_elem_of_lookup in Hm as [i0 Hi0].
  destruct (Hs _ Hin) as (i & m' & Hi & E & _ & [[_ H]|[H _]]); destruct (same_index _ _ _ _ Hi Hi0 E) as [_ ->]; congruence.
Qed.
Lemma answer_kept ids m t :
  sound ids -> m ∈ l -> tool_calls m <> [] -> t ∈ l -> role t = Tool -> answers (tool_calls m) t = true -> message_id t ∉ ids.
Proof.
  intros [Hs _] Hm Hc Ht Hr Ha Hin. apply list_elem_of_lookup in Ht as [i0 Hi0].
  destruct (Hs _ Hin) as (i & t' & Hi & E & _ & H). destruct (same_index _ _ _ _ Hi Hi0 E) as [-> ->].
  destruct H as [[H _]|(_ & j & a & -> & Hj & _ & Hnone)]; [congruence|].
  destruct Hl as [_ Hp]. destruct (Hp _ _ Hi Hr) as (j' & a' & [= <-] & Hj' & _ & Howner).
  rewrite (Howner m Hm Ha) in Hc. congruence.
Qed.
Lemma integrity_sound ids : sound ids -> ensure_structural_integrity l ids = ids.
Proof.
  intros Hs. unfold ensure_structural_integrity.
  assert (Hcall : Forall (fun m => m ∈ l /\ role m = Assistant /\ tool_calls m <> [])
      (filter (fun m => is_role Assistant m && has_calls m) l)).
  { rewrite list.Forall_forall. intros m [H Hm]%list_elem_of_filter. apply Is_true_eq_true, andb_true_iff in H as [H1 H2].
    split_and!; [done|by apply is_role_true|]. intros E. apply has_calls_false in E. congruence. }
  set (calling := filter _ l) in *. clearbody calling.
  replace (filter (fun m => removed ids m) calling) with ([] : list Message); cycle 1.
  { destruct (filter _ calling) as [|m rest] eqn:E; [done|exfalso].
    assert (Hm : m ∈ filter (fun m => removed ids m) calling) by (rewrite E; left).
    apply list_elem_of_filter in Hm as [Hr%Is_true_eq_true%bool_decide_eq_true Hm].
    rewrite list.Forall_forall in Hcall. destruct (Hcall _ Hm) as (? & ? & ?). by eapply calling_kept. }
  cbn [fmap list_fmap fold_left]. induction Hcall as [|m calling (Hm & Hr & Hc) _ IH]; [done|]. cbn [fold_left].
  replace (existsb (removed ids) _) with false; [by rewrite andb_false_r|]. symmetry. apply not_true_iff_false.
  intros (t & Ht & Hrem)%existsb_exists. apply list_elem_of_In, list_elem_of_filter in Ht as [Ht Hin].
  apply Is_true_eq_true, andb_true_iff in Ht as [Ht Ha]. apply bool_decide_eq_true in Hrem.
  apply is_role_true in Ht. by apply (answer_kept ids m t).
Qed.

(** What is left once the marked messages are gone. *)
Definition remaining (ids : gset string) : list Message := filter (fun m => negb (removed ids m)) l.
Lemma elem_of_remaining ids m : m ∈ remaining ids <-> m ∈ l /\ message_id m ∉ ids.
Proof.
  unfold remaining, removed. rewrite list_elem_of_filter. split.
  - intros [H%Is_true_eq_true Hm]. apply negb_true_iff, bool_decide_eq_false in H. done.
  - intros [Hm H]. split; [|done]. by rewrite bool_decide_eq_false_2.
Qed.
Lemma remaining_NoDup ids : NoDup (message_id <$> remaining ids).
Proof. destruct Hl as [Hn _]. eapply sublist_NoDup; [exact Hn|]. apply fmap_sublist, sublist_filter. Qed.
Lemma kept_protocol ids : sound ids -> protocol (remaining ids).
Proof.
  intros Hs. split.
  - apply remaining_NoDup.
  - intros i t Hi Hr. pose proof (list_elem_of_lookup_2 _ _ _ Hi) as [Ht Hti]%elem_of_remaining.
    apply list_elem_of_lookup in Ht as [i0 Hi0]. destruct Hl as [Hn Hp].
    destruct (Hp _ _ Hi0 Hr) as (j & a & -> & Ha & Hra & Ho).
    assert (Hai : message_id a ∉ ids) by (destruct Hs as [_ Hs]; by rewrite (Hs _ _ _ Ha Hi0)).
    assert (Hsplit : remaining ids = filter (fun m => negb (removed ids m)) (take j l)
        ++ a :: t :: filter (fun m => negb (removed ids m)) (drop (S (S j)) l)).
    { unfold remaining. rewrite <- (take_drop_middle l j a Ha) at 1. rewrite list.filter_app, filter_cons_True by
        (unfold removed; by rewrite bool_decide_eq_false_2).
      rewrite (drop_S l t (S j)) by done. by rewrite filter_cons_True by (unfold removed; by rewrite bool_decide_eq_false_2). }
    set (l1 := filter _ (take j l)) in *. exists (length l1), a.
    assert (Hk : remaining ids !! length l1 = Some a) by (rewrite Hsplit; by apply list_lookup_middle).
    assert (Hk' : remaining ids !! S (length l1) = Some t).
    { rewrite Hsplit, lookup_app_r by lia. by replace (S (length l1) - length l1)%nat with 1%nat by lia. }
    split_and!; try done; cycle 1.
    + intros m [Hm _]%elem_of_remaining. by apply Ho.
    + apply (NoDup_lookup _ _ _ (message_id t) (remaining_NoDup ids)); rewrite list_lookup_fmap; [by rewrite Hi|by rewrite Hk'].
Qed.
Lemma kept_count ids : sound ids -> zlen l = zlen (remaining ids) + Z.of_nat (size ids).
Proof.
  intros [Hm _]. destruct Hl as [Hn _].
  assert (E : ids = list_to_set (message_id <$> filter (fun m => removed ids m) l)).
  { apply set_eq. intros x. rewrite elem_of_list_to_set, list_elem_of_fmap. split.
    - intros Hx. destruct (Hm _ Hx) as (i & m & Hi & <- & _). exists m. split; [done|]. apply list_elem_of_filter.
      split; [|by eapply list_elem_of_lookup_2]. unfold removed. by rewrite bool_decide_eq_true_2.
    - intros (m & -> & [H _]%list_elem_of_filter). by apply Is_true_eq_true, bool_decide_eq_true in H. }
  rewrite E at 2. rewrite size_list_to_set by (eapply sublist_NoDup; [exact Hn|]; apply fmap_sublist, sublist_filter).
  rewrite length_fmap. unfold remaining, zlen. clear. induction l as [|m r IH]; [done|].
  rewrite !filter_cons. destruct (removed ids m); cbn [negb]; repeat case_decide; cbn [length]; try done; lia.
Qed.
Lemma kept_protected ids i m n :
  sound ids -> boundary = Some n -> (n <= i)%nat -> l !! i = Some m -> m ∈ remaining ids.
Proof.
  intros [Hs _] Hb Hn Hi. apply elem_of_remaining. split; [by eapply list_elem_of_lookup_2|]. intros Hin.
  destruct (Hs _ Hin) as (j & m' & Hj & E & Hp & _). destruct (same_index _ _ _ _ Hj Hi E) as [-> _].
  rewrite is_protected_false in Hp. specialize (Hp n Hb). lia.
Qed.
Lemma kept_outside ids m :
  sound ids -> m ∈ l -> role m <> Tool -> role m <> Assistant \/ tool_calls m <> [] -> m ∈ remaining ids.
Proof.
  intros [Hs _] Hm Ht Hor. apply elem_of_remaining. split; [done|]. intros Hin.
  apply list_elem_of_lookup in Hm as [i0 Hi0].
  destruct (Hs _ Hin) as (i & m' & Hi & E & _ & [[H1 H2]|[H _]]); destruct (same_index _ _ _ _ Hi Hi0 E) as [_ ->]; destruct Hor; congruence.
Qed.
End pruning.

(** The marks of a whole run are sound. *)
Lemma marks_sound p l k (Hl : protocol l) :
  k = detect_empty_tool_results l (boundary l) (detect_repeated_calls l (boundary l)
        (detect_error_tool_results p l (boundary l) (∅, 0))) -> sound l k.1.
Proof.
  intros ->. unfold detect_empty_tool_results, detect_error_tool_results, detect_repeated_calls.
  apply detect_tool_results_sound; [done|done|done|].
  apply repeated_pairs_sound; [done|apply assistant_messages_numbered|].
  apply detect_tool_results_sound; [done|done|done|]. split; [set_solver|]. set_solver.
Qed.

(** C32: in a conversation where every tool result directly follows the message it
    answers, pruning removes messages and changes none; the report counts those
    removed, and when it says pruning was skipped nothing was; users' and system
    messages, messages that call tools and all from the last tool exchange on stay;
    an answer and the tool result that follows it stay or go together, so that the
    result is such a conversation again. *)
Theorem pruning_keeps_pairs (p : IntraTurnPruner) (l : list Message) (iteration : Z) :
  protocol l ->
  let '(report, out) := prune_working_history p l iteration in
  out `sublist_of` l /\ protocol out /\
  zlen l = zlen out + messages_removed report /\
  (skipped report = true -> out = l) /\
  (forall m, m ∈ l -> role m = System \/ role m = User \/ role m = Assistant /\ tool_calls m <> [] -> m ∈ out) /\
  (forall i n m, find_last_assistant_tool_boundary l = Some n -> (n <= i)%nat -> l !! i = Some m -> m ∈ out) /\
  (forall j a t, l !! j = Some a -> l !! S j = Some t -> role a = Assistant -> role t = Tool -> (a ∈ out <-> t ∈ out)).
Proof.
  intros Hl.
  assert (Hskip : l `sublist_of` l /\ protocol l /\ zlen l = zlen l + messages_removed skipped_report /\
    (skipped skipped_report = true -> l = l) /\
    (forall m, m ∈ l -> role m = System \/ role m = User \/ role m = Assistant /\ tool_calls m <> [] -> m ∈ l) /\
    (forall i n m, find_last_assistant_tool_boundary l = Some n -> (n <= i)%nat -> l !! i = Some m -> m ∈ l) /\
    (forall j a t, l !! j = Some a -> l !! S j = Some t -> role a = Assistant -> role t = Tool -> (a ∈ l <-> t ∈ l))).
  { split_and!; try done; [cbn; lia|intros; by eapply list_elem_of_lookup_2|].
    intros j a t Ha Ht _ _. split; intros _; by eapply list_elem_of_lookup_2. }
  unfold prune_working_history. fold (boundary l). destruct (negb _); [done|]. destruct (_ <? _); [done|].
  match goal with |- context [bool_decide (?k'.1 = ∅)] => pose proof (marks_sound p l k' Hl eq_refl) as Hs; set (k := k') in * end.
  clearbody k. destruct (_ || _); [done|]. clear Hskip.
  rewrite (integrity_sound l Hl) by done. fold (remaining l k.1). cbn [messages_removed skipped]. split_and!.
  - apply sublist_filter.
  - by apply kept_protocol.
  - by apply kept_count.
  - done.
  - intros m Hm Hor. apply kept_outside; try done; destruct Hor as [H|[H|[H ?]]]; rewrite H; try done; tauto || (by left).
  - intros i n m Hn Hi Hm. by eapply (kept_protected l Hl k.1 i m n).
  - intros j a t Ha Ht Hra Hrt. rewrite !elem_of_remaining. destruct Hs as [_ Hs].
    rewrite (Hs j a t Ha Ht Hra Hrt). split; intros [_ H]; (split; [by eapply list_elem_of_lookup_2|done]).
Qed.

(** Parallel native calls are outside that hypothesis: the message before a second
    result is the first result, not the caller, so the caller's calls do not protect
    it, and its call is left without a result. *)
Definition parallel_calls : list Message :=
  [new_message "u" User "look"; mkMessage "a" Assistant "" None ["c1"; "c2"];
   mkMessage "t1" Tool "contents" (Some "c1") []; mkMessage "t2" Tool ("error: " +:+ long_text) (Some "c2") [];
   mkMessage "b" Assistant "" None ["c3"]; mkMessage "t3" Tool "contents" (Some "c3") []].
Lemma parallel_call_orphaned :
  (fun m => message_id m) <$> (prune_working_history (from_config default_pruning_config) parallel_calls 3).2
  = ["u"; "a"; "t1"; "b"; "t3"].
Proof. by vm_compute. Qed.

Lemma pruning_keeps_pairs_witness :
  protocol text_turns /\
  ((fun m => message_id m) <$> (prune_working_history (from_config default_pruning_config) text_turns 3).2 = ["u"; "b"; "r"]) /\
  protocol (prune_working_history (from_config default_pruning_config) text_turns 3).2.
Proof.
  assert (H : protocol text_turns).
  { split; [apply (bool_decide_eq_true_1 (NoDup (message_id <$> text_turns))); by vm_compute|].
    intros i t Hi Hr. do 5 (destruct i as [|i]; [cbn -[long_text] in Hi; injection Hi as <-; try done; eexists _, _;
      (split; [done|split; [reflexivity|split; [done|intros m _ Hm; done]]])|]). done. }
  split; [exact H|]. split; [by vm_compute|].
  pose proof (pruning_keeps_pairs (from_config default_pruning_config) text_turns 3 H) as P.
  destruct (prune_working_history _ _ _) as [report out]. apply P.
Defined.
