(* ===== verification/Interaction.v ===== *)
(** * Programs that call on their surroundings

    [async fn] code that awaits other components: a program asks an operation of
    an interface and goes on with the answer, which may be any.  [runs p t r] says
    that [p], with the answers recorded in the trace [t], returns [r];
    [ensures p Q] that [Q] holds of every such trace and result; [always P b p]
    that [P] holds of every event, given what came before it. *)
From S2P Require Import Prelude.

Record Interface := mkInterface {
  operation : Type;
  answer : operation -> Type;
}.
Record Event (I : Interface) := mkEvent {
  asked : operation I;
  answered : answer I asked;
}.
Arguments mkEvent {I}.
Arguments asked {I}.
Arguments answered {I}.
Abbreviation Trace I := (list (Event I)).

Inductive Prog (I : Interface) (A : Type) : Type :=
| Ret (a : A)
| Ask (op : operation I) (k : answer I op -> Prog I A).
Arguments Ret {I A}.
Arguments Ask {I A}.

#[export] Instance Prog_ret I : MRet (Prog I) := fun A a => Ret a.
#[export] Instance Prog_bind I : MBind (Prog I) :=
  fun A B k => fix go p := match p with Ret a => k a | Ask op f => Ask op (fun x => go (f x)) end.
Definition ask {I} (op : operation I) : Prog I (answer I op) := Ask op Ret.

(** [?]. *)
Definition try_bind {I E A B} (k : A -> Prog I (Result E B)) (p : Prog I (Result E A)) : Prog I (Result E B) :=
  r ← p; match r with Ok a => k a | Err e => mret (Err e) end.
Notation "x ←? p ; q" := (try_bind (fun x => q) p) (at level 20, p at level 100, q at level 200, format "x  ←?  p ;  '/' q").

(** [for x in l]. *)
Fixpoint prog_map {I A B} (f : A -> Prog I B) (l : list A) : Prog I (list B) :=
  match l with
  | [] => mret []
  | x :: l => y ← f x; ys ← prog_map f l; mret (y :: ys)
  end.

(** With the answers of a trace. *)
Fixpoint runs {I A} (p : Prog I A) (t : Trace I) (r : A) : Prop :=
  match p with
  | Ret a => t = [] /\ r = a
  | Ask op k => exists x t', t = mkEvent op x :: t' /\ runs (k x) t' r
  end.
Definition ensures {I A} (p : Prog I A) (Q : Trace I -> A -> Prop) : Prop := forall t r, runs p t r -> Q t r.
Definition always {I A} (P : Trace I -> Event I -> Prop) (before : Trace I) (p : Prog I A) : Prop :=
  ensures p (fun t _ => forall t1 e t2, t = t1 ++ e :: t2 -> P (before ++ t1) e).

(** What holds of everything asked so far, and of the result, once [p] has run. *)
Definition after {I A} (p : Prog I A) (Q : Trace I -> A -> Prop) (before : Trace I) : Prop :=
  ensures p (fun t a => Q (before ++ t) a).

(** Answers from an oracle that knows what was asked. *)
Fixpoint play {I A} (oracle : Trace I -> forall op, answer I op) (before : Trace I) (p : Prog I A) : Trace I * A :=
  match p with
  | Ret a => (before, a)
  | Ask op k => let x := oracle before op in play oracle (before ++ [mkEvent op x]) (k x)
  end.

Fixpoint follows {I A} (p : Prog I A) (t : Trace I) {struct t} : Prop :=
  match t with
  | [] => True
  | e :: t => match p with Ask op k => exists x, e = mkEvent op x /\ follows (k x) t | Ret _ => False end
  end.

Section rules.
Context {I : Interface}.
Implicit Types t : Trace I.

Lemma runs_bind {A B} (p : Prog I A) (k : A -> Prog I B) t r :
  runs (p ≫= k) t r <-> exists t1 t2 a, t = t1 ++ t2 /\ runs p t1 a /\ runs (k a) t2 r.
Proof.
  revert t. induction p as [a|op f IH]; intros t; cbn.
  - split; [intros H; by exists [], t, a|intros (t1 & t2 & a' & -> & [-> ->] & H); exact H].
  - split.
    + intros (x & t' & -> & H). apply IH in H as (t1 & t2 & a & -> & H1 & H2).
      exists (mkEvent op x :: t1), t2, a. split; [done|]. split; [by exists x, t1|done].
    + intros (t1 & t2 & a & -> & (x & t' & -> & H1) & H2). exists x, (t' ++ t2). split; [done|].
      apply IH. by exists t', t2, a.
Qed.

Lemma ensures_ret {A} (a : A) (Q : Trace I -> A -> Prop) : Q [] a -> ensures (mret a) Q.
Proof. intros H t r [-> ->]. exact H. Qed.
Lemma ensures_mono {A} (p : Prog I A) (P Q : Trace I -> A -> Prop) :
  ensures p P -> (forall t r, P t r -> Q t r) -> ensures p Q.
Proof. intros H HPQ t r Hr. by apply HPQ, H. Qed.
Lemma ensures_bind {A B} (p : Prog I A) (k : A -> Prog I B) Q :
  ensures p (fun t a => ensures (k a) (fun t' b => Q (t ++ t') b)) -> ensures (p ≫= k) Q.
Proof. intros H t r (t1 & t2 & a & -> & H1 & H2)%runs_bind. by apply (H t1 a). Qed.
Lemma ensures_ask op (Q : Trace I -> answer I op -> Prop) :
  (forall x, Q [mkEvent op x] x) -> ensures (ask (I := I) op) Q.
Proof. intros H t r (x & t' & -> & [-> ->]). apply H. Qed.
Lemma ensures_and {A} (p : Prog I A) (P Q : Trace I -> A -> Prop) :
  ensures p P -> ensures p Q -> ensures p (fun t a => P t a /\ Q t a).
Proof. intros H1 H2 t r Hr. split; [by apply H1|by apply H2]. Qed.

Lemma always_ret {A} (a : A) P before : always (I := I) P before (mret a).
Proof. apply ensures_ret. intros t1 e t2 H. by destruct t1. Qed.
Lemma always_ask op P before : (forall x, P before (mkEvent op x)) -> always P before (ask (I := I) op).
Proof.
  intros H. apply ensures_ask. intros x t1 e t2 E. destruct t1 as [|? [|]]; simplify_eq/=. by rewrite app_nil_r.
Qed.
Lemma always_bind {A B} (p : Prog I A) (k : A -> Prog I B) P before :
  always P before p -> ensures p (fun t a => always P (before ++ t) (k a)) -> always P before (p ≫= k).
Proof.
  intros H1 H2 t r (t1 & t2 & a & -> & Hp & Hk)%runs_bind u e v E.
  apply app_eq_app in E as [w [[-> E]|[-> E]]].
  - destruct w as [|x w]; cbn in E; simplify_eq.
    + rewrite app_nil_r in Hp. rewrite <- (app_nil_r (before ++ u)). by apply (H2 u a Hp (e :: v) r Hk [] e v).
    + by apply (H1 (u ++ x :: w) a Hp u x w).
  - rewrite app_assoc. by apply (H2 _ _ Hp _ _ Hk w e v).
Qed.
Lemma always_mono {A} (p : Prog I A) (P P' : Trace I -> Event I -> Prop) before :
  always P before p -> (forall t e, P (before ++ t) e -> P' (before ++ t) e) -> always P' before p.
Proof. intros H HP t r Hr t1 e t2 E. by apply HP, (H t r Hr _ _ _ E). Qed.

Lemma after_ret {A} (a : A) (Q : Trace I -> A -> Prop) before : Q before a -> after (mret a) Q before.
Proof. intros H. apply ensures_ret. by rewrite app_nil_r. Qed.
Lemma after_ask op (Q : Trace I -> answer I op -> Prop) before :
  (forall x, Q (before ++ [mkEvent op x]) x) -> after (ask (I := I) op) Q before.
Proof. intros H. by apply ensures_ask. Qed.
Lemma after_bind {A B} (p : Prog I A) (k : A -> Prog I B) Q before :
  after p (fun t a => after (k a) Q t) before -> after (p ≫= k) Q before.
Proof.
  intros H. apply ensures_bind. eapply ensures_mono; [exact H|]. intros t a Hk.
  eapply ensures_mono; [exact Hk|]. intros t' b. by rewrite app_assoc.
Qed.
(** Whatever [p] asks. *)
Lemma after_any {A} (p : Prog I A) (Q : Trace I -> A -> Prop) before :
  (forall t a, Q (before ++ t) a) -> after p Q before.
Proof. intros H t a _. apply H. Qed.

Lemma ensures_map {A B} (f : A -> Prog I B) (P : Trace I -> Prop) l :
  P [] -> (forall t t', P t -> P t' -> P (t ++ t')) -> (forall x, ensures (f x) (fun t _ => P t)) ->
  ensures (prog_map f l) (fun t ys => P t /\ length ys = length l).
Proof.
  intros Hn Ha Hf. induction l as [|x l IH]; [by apply ensures_ret|]. cbn [prog_map].
  apply ensures_bind. eapply ensures_mono; [apply Hf|]. intros t y Ht.
  apply ensures_bind. eapply ensures_mono; [apply IH|]. intros t' ys [Ht' Hl].
  apply ensures_ret. rewrite app_nil_r. split; [by apply Ha|]. cbn. by rewrite Hl.
Qed.

(** What a program that starts where [Pre] holds of what came before does to it: every
    event satisfies [P], and [Post] holds where the program ends. *)
Definition keeps {A} (P : Trace I -> Event I -> Prop) (Pre : Trace I -> Prop) (p : Prog I A) (Post : A -> Trace I -> Prop) : Prop :=
  forall before, Pre before -> always P before p /\ after p (fun t a => Post a t) before.
Lemma keeps_ret {A} P (Pre : Trace I -> Prop) (a : A) (Post : A -> Trace I -> Prop) : (forall b, Pre b -> Post a b) -> keeps P Pre (mret a) Post.
Proof. intros H b Hb. split; [apply always_ret|]. by apply after_ret, H. Qed.
Lemma keeps_ask op P (Pre : Trace I -> Prop) (Post : answer I op -> Trace I -> Prop) :
  (forall b x, Pre b -> P b (mkEvent op x) /\ Post x (b ++ [mkEvent op x])) -> keeps P Pre (ask (I := I) op) Post.
Proof. intros H b Hb. split; [apply always_ask; intros x; by apply H|]. apply after_ask. intros x. by apply H. Qed.
Lemma keeps_bind {A B} P (p : Prog I A) (k : A -> Prog I B) (Pre : Trace I -> Prop) (Mid : A -> Trace I -> Prop) (Post : B -> Trace I -> Prop) :
  keeps P Pre p Mid -> (forall a, keeps P (Mid a) (k a) Post) -> keeps P Pre (p ≫= k) Post.
Proof.
  intros Hp Hk b Hb. destruct (Hp b Hb) as [Ha Hm]. split.
  - apply always_bind; [exact Ha|]. eapply ensures_mono; [exact Hm|]. intros t a Hma. by apply Hk.
  - apply after_bind. eapply ensures_mono; [exact Hm|]. intros t a Hma. by apply Hk.
Qed.
Lemma keeps_weaken {A} P (p : Prog I A) (Pre Pre' : Trace I -> Prop) (Post Post' : A -> Trace I -> Prop) :
  keeps P Pre p Post -> (forall b, Pre' b -> Pre b) -> (forall a b, Post a b -> Post' a b) -> keeps P Pre' p Post'.
Proof.
  intros H Hpre Hpost b Hb. destruct (H b (Hpre b Hb)) as [Ha Hq]. split; [exact Ha|].
  eapply ensures_mono; [exact Hq|]. intros t a. apply Hpost.
Qed.
(** Every event on its own. *)
Lemma keeps_each {A} P (Inv : Trace I -> Prop) (N : Event I -> Prop) (p : Prog I A) :
  (forall b e, N e -> Inv b -> P b e /\ Inv (b ++ [e])) -> ensures p (fun t _ => Forall N t) -> keeps P Inv p (fun _ => Inv).
Proof.
  intros HN Hp. assert (Hinv : forall t b, Forall N t -> Inv b -> Inv (b ++ t)).
  { induction t as [|e t IH]; intros b Ht Hb; [by rewrite app_nil_r|]. apply list.Forall_cons in Ht as [He Ht].
    rewrite (app_assoc b [e] t : b ++ e :: t = _). by apply IH, HN. }
  intros b Hb. split; intros t r Hr; specialize (Hp t r Hr); [|by apply Hinv]. intros t1 e t2 ->.
  apply list.Forall_app in Hp as [H1 [He _]%list.Forall_cons]. by apply HN, Hinv.
Qed.

Lemma play_runs {A} oracle (p : Prog I A) before :
  exists t, (play oracle before p).1 = before ++ t /\ runs p t (play oracle before p).2.
Proof.
  revert before. induction p as [a|op k IH]; intros before; cbn.
  - exists []. by rewrite app_nil_r.
  - destruct (IH (oracle before op) (before ++ [mkEvent op (oracle before op)])) as (t & H1 & H2).
    exists (mkEvent op (oracle before op) :: t). rewrite H1. split; [by rewrite <- app_assoc|]. by eexists _, _.
Qed.
End rules.

(** ** Programs over a state
    What a program does to a state that its calls are served from: [may] must allow
    every call where it is made, [inv] holds between calls, wherever the program is
    stopped, and [Q] of what it returns. *)
Section hoare.
Context {I : Interface} {State : Type} (serve : State -> forall op, answer I op -> State -> Prop).
Context (may : State -> operation I -> Prop) (inv : State -> Prop).
Implicit Types s : State.
Fixpoint sat {A} (p : Prog I A) (s : State) (Q : A -> State -> Prop) : Prop :=
  inv s /\ match p with Ret a => Q a s | Ask op k => may s op /\ forall x s', serve s op x s' -> sat (k x) s' Q end.
Fixpoint served s (t : Trace I) s' : Prop :=
  match t with [] => s' = s | e :: t => exists s1, serve s (asked e) (answered e) s1 /\ served s1 t s' end.

Lemma sat_ret {A} (a : A) s (Q : A -> State -> Prop) : inv s -> Q a s -> sat (mret a) s Q.
Proof. by split. Qed.
Lemma sat_ask op s (Q : answer I op -> State -> Prop) : inv s -> may s op ->
  (forall x s', serve s op x s' -> inv s' /\ Q x s') -> sat (ask (I := I) op) s Q.
Proof. intros Hi Hm Hq. split; [done|]. split; [done|]. intros x s' Hs. by apply Hq. Qed.
Lemma sat_mono {A} (p : Prog I A) s (P Q : A -> State -> Prop) : sat p s P -> (forall a s', P a s' -> Q a s') -> sat p s Q.
Proof.
  intros Hp HPQ. revert s Hp. induction p as [a|op k IH]; intros s [Hi Hp]; (split; [done|]); [by apply HPQ|].
  destruct Hp as [Hm Hp]. split; [done|]. intros x s' Hs. by apply IH, Hp.
Qed.
Lemma sat_bind {A B} (p : Prog I A) (k : A -> Prog I B) s Q : sat p s (fun a s' => sat (k a) s' Q) -> sat (p ≫= k) s Q.
Proof.
  revert s. induction p as [a|op f IH]; intros s [Hi Hp]; [exact Hp|]. destruct Hp as [Hm Hp]. split; [done|]. split; [done|].
  intros x s' Hs. by apply IH, Hp.
Qed.
Lemma sat_inv {A} (p : Prog I A) s Q : sat p s Q -> inv s.
Proof. by destruct p; intros [? _]. Qed.
Lemma sat_post_inv {A} (p : Prog I A) s Q : sat p s Q -> sat p s (fun a s' => inv s' /\ Q a s').
Proof.
  revert s. induction p as [a|op k IH]; intros s [Hi Hp]; (split; [done|]); [done|]. destruct Hp as [Hm Hp]. split; [done|].
  intros x s' Hs. by apply IH, Hp.
Qed.
Lemma sat_runs {A} (p : Prog I A) s (Q : A -> State -> Prop) t r s' : sat p s Q -> runs p t r -> served s t s' -> Q r s'.
Proof.
  revert s t. induction p as [a|op k IH]; intros s t [Hi Hp] Hr Hs; [by destruct Hr as [-> ->]; cbn in Hs; subst s'|].
  destruct Hr as (x & t' & -> & Hr), Hp as [Hm Hp], Hs as (s1 & Hserve & Hs). by eapply IH; [apply Hp, Hserve|..].
Qed.
(** Stopped anywhere. *)
Lemma sat_follows {A} (p : Prog I A) s (Q : A -> State -> Prop) t s' : sat p s Q -> follows p t -> served s t s' -> inv s'.
Proof.
  revert s t. induction p as [a|op k IH]; intros s [|e t] [Hi Hp] Hf Hs; cbn in Hs; try (by subst s'); [done|].
  destruct Hf as (x & -> & Hf), Hp as [Hm Hp], Hs as (s1 & Hserve & Hs). by eapply IH; [apply Hp, Hserve|..].
Qed.
Lemma sat_may {A} (p : Prog I A) s (Q : A -> State -> Prop) t1 e t2 s1 :
  sat p s Q -> follows p (t1 ++ e :: t2) -> served s t1 s1 -> may s1 (asked e).
Proof.
  revert s t1. induction p as [a|op k IH]; intros s [|e1 t1] [Hi Hp] Hf Hs; cbn in Hf, Hs; try done.
  - destruct Hf as (y & -> & _). subst s1. apply Hp.
  - destruct Hf as (y & -> & Hf), Hp as [Hm Hp], Hs as (s2 & Hserve & Hs). by eapply IH; [apply Hp, Hserve|..].
Qed.
End hoare.

(** A program over one interface as one over another that has its operations. *)
Section translate.
Context {I J : Interface} (inj : operation I -> operation J) (back : forall op, answer J (inj op) -> answer I op).
Fixpoint translate {A} (p : Prog I A) : Prog J A :=
  match p with Ret a => Ret a | Ask op k => Ask (inj op) (fun x => translate (k (back op x))) end.
Lemma translate_sat {State A} (serve : State -> forall op, answer J op -> State -> Prop) may (inv : State -> Prop) (p : Prog I A) s
    (allowed : operation I -> Prop) (Q : A -> Prop) :
  ensures p (fun t a => Forall (fun e => allowed (asked e)) t /\ Q a) -> (forall op, exists x : answer I op, True) -> inv s ->
  (forall op, allowed op -> may s (inj op)) -> (forall op x s', serve s (inj op) x s' -> s' = s) ->
  sat serve may inv (translate p) s (fun a s' => s' = s /\ Q a).
Proof.
  intros Hp Hany Hi Hmay Hserve. induction p as [a|op k IH]; (split; [done|]).
  - split; [done|]. by apply (Hp [] a).
  - assert (Hop : allowed op).
    { destruct (Hany op) as [x _]. assert (Hr : forall A (q : Prog I A), exists t r, runs q t r).
      { intros B q. induction q as [b|op' k' IHq]; [by exists [], b|]. destruct (Hany op') as [y _]. destruct (IHq y) as (t & r & Hr).
        exists (mkEvent op' y :: t), r. by exists y, t. }
      destruct (Hr A (k x)) as (t & r & Hrun). destruct (Hp (mkEvent op x :: t) r) as [Hall _]; [by exists x, t|]. by inversion Hall. }
    split; [by apply Hmay|]. intros x s' Hs. pose proof (Hserve _ _ _ Hs) as ->. apply IH.
    intros t r Hr. destruct (Hp (mkEvent op (back op x) :: t) r) as [Hall HQ]; [by exists (back op x), t|]. split; [by inversion Hall|done].
Qed.
End translate.

(** ** Programs side by side
    A pool of programs over a shared state, which answers each of them in turn as
    [may] allows and [drift]s in between; programs [start] and are stopped at any
    point. *)
Lemma follows_runs {I A} (any : forall op, answer I op) (p : Prog I A) t : follows p t -> exists t' r, runs p (t ++ t') r.
Proof.
  revert p. induction t as [|e t IH]; intros p.
  - intros _. destruct (play_runs (fun _ => any) p []) as (t' & _ & H). by exists t', (play (fun _ => any) [] p).2.
  - destruct p as [a|op k]; [done|]. intros (x & -> & (t' & r & H)%IH). exists t', r. by exists x, (t ++ t').
Qed.
Lemma follows_always {I A} (any : forall op, answer I op) P (p : Prog I A) t : always P [] p -> follows p t ->
  forall t1 e t2, t = t1 ++ e :: t2 -> P t1 e.
Proof.
  intros HP (t' & r & H)%(follows_runs any) t1 e t2 ->. apply (HP _ _ H t1 e (t2 ++ t')). by rewrite <- app_assoc.
Qed.

Section pool.
Context {I : Interface} {State : Type} (may : State -> forall op, answer I op -> State -> Prop) (drift : State -> State -> Prop) (start : Prog I unit -> Prop).
Definition Pool : Type := State * list (Prog I unit).
Inductive pool_step : Pool -> list (nat * Event I) -> Pool -> Prop :=
| pool_ask s ps i op k x s' : ps !! i = Some (Ask op k) -> may s op x s' ->
    pool_step (s, ps) [(i, mkEvent op x)] (s', <[i := k x]> ps)
| pool_start s ps p : start p -> pool_step (s, ps) [] (s, ps ++ [p])
| pool_stop s ps i : pool_step (s, ps) [] (s, <[i := Ret tt]> ps)
| pool_drift s s' ps : drift s s' -> pool_step (s, ps) [] (s', ps).
Inductive pool_runs (s0 : State) : list (nat * Event I) -> Pool -> Prop :=
| pool_new : pool_runs s0 [] (s0, [])
| pool_go t p t' p' : pool_runs s0 t p -> pool_step p t' p' -> pool_runs s0 (t ++ t') p'.

(** What one program did. *)
Definition of_thread (i : nat) (t : list (nat * Event I)) : Trace I := (filter (fun e => e.1 = i) t).*2.
Lemma of_thread_app i t t' : of_thread i (t ++ t') = of_thread i t ++ of_thread i t'.
Proof. unfold of_thread. by rewrite list.filter_app, fmap_app. Qed.
Lemma of_thread_one i j e : of_thread i [(j, e)] = if decide (j = i) then [e] else [].
Proof. unfold of_thread. rewrite filter_cons, filter_nil. cbn. by destruct (decide (j = i)). Qed.
(** The rest of a program that has gone through a trace. *)
Fixpoint left_of {A} (p : Prog I A) (t : Trace I) (q : Prog I A) {struct t} : Prop :=
  match t with
  | [] => q = p
  | e :: t => match p with Ask op k => exists x, e = mkEvent op x /\ left_of (k x) t q | Ret _ => False end
  end.
Lemma left_of_snoc {A} (p : Prog I A) t op k x : left_of p t (Ask op k) -> left_of p (t ++ [mkEvent op x]) (k x).
Proof.
  revert p. induction t as [|e t IH]; intros p H; cbn in H.
  - subst p. by exists x.
  - destruct p as [|op' k']; [done|]. destruct H as (y & -> & H). exists y. split; [done|]. by apply IH.
Qed.
Lemma left_of_follows {A} (p : Prog I A) t q : left_of p t q -> follows p t.
Proof. revert p. induction t as [|e t IH]; intros p; [done|]. destruct p; [done|]. intros (x & -> & H). exists x. eauto. Qed.

(** Every program of the pool went through its own part of the trace. *)
Lemma pool_threads s0 t p : pool_runs s0 t p ->
  Forall (fun e => (e.1 < length p.2)%nat) t /\
  forall i q, p.2 !! i = Some q -> exists p0, start p0 /\ follows p0 (of_thread i t) /\ (q = Ret tt \/ left_of p0 (of_thread i t) q).
Proof.
  induction 1 as [|t [s ps] t' p' H [Hlt IH] Hstep]; [split; [constructor|done]|]. cbn in *.
  inversion Hstep as [? ? i op k x s' Hi Hm|? ? p Hp|? ? i|? s' ? Hd]; subst; cbn.
  - split; [rewrite length_insert; apply Forall_app; split; [done|]; constructor; [cbn; by eapply lookup_lt_Some|constructor]|].
    intros j q Hj. rewrite of_thread_app, of_thread_one. destruct (decide (i = j)) as [<-|Hij].
    + rewrite list_lookup_insert_eq in Hj by (by eapply lookup_lt_Some). injection Hj as <-.
      destruct (IH i _ Hi) as (p0 & Hp0 & _ & [?|Hl]); [done|]. apply left_of_snoc with (x := x) in Hl.
      exists p0. split; [done|]. split; [by eapply left_of_follows|by right].
    + rewrite list_lookup_insert_ne in Hj by done. rewrite app_nil_r. by apply IH.
  - rewrite app_nil_r. split; [eapply list.Forall_impl; [exact Hlt|]; intros e He; cbn in *; rewrite length_app; lia|].
    intros j q Hj. apply lookup_app_Some in Hj as [Hj|[Hge Hj]]; [by apply IH|].
    apply list_lookup_singleton_Some in Hj as [Hz <-]. exists p. split; [done|].
    replace (of_thread j t) with (@nil (Event I)); [split; [done|by right]|]. symmetry. unfold of_thread.
    assert (Hlt' : Forall (fun e => e.1 <> j) t) by (eapply list.Forall_impl; [exact Hlt|]; intros e; cbn; lia).
    clear -Hlt'. induction Hlt' as [|e t He _ IHt]; [done|]. by rewrite filter_cons, decide_False.
  - rewrite app_nil_r, length_insert. split; [done|]. intros j q Hj. destruct (decide (i = j)) as [<-|Hij].
    + destruct (decide (i < length ps)%nat) as [Hl|Hl].
      * rewrite list_lookup_insert_eq in Hj by done. injection Hj as <-. apply lookup_lt_is_Some in Hl as [q' Hq'].
        destruct (IH _ _ Hq') as (p0 & Hp0 & Hf & _). exists p0. auto.
      * rewrite list_insert_ge in Hj by lia. by apply IH.
    + rewrite list_lookup_insert_ne in Hj by done. by apply IH.
  - rewrite app_nil_r. by split.
Qed.

(** How often something happens is how often it happens in each program. *)
Definition count (f : Event I -> bool) (t : Trace I) : nat := length (List.filter f t).
Lemma count_app f t t' : count f (t ++ t') = (count f t + count f t')%nat.
Proof. unfold count. by rewrite List.filter_app, length_app. Qed.
Lemma count_one f e : count f [e] = (if f e then 1 else 0)%nat.
Proof. unfold count. cbn. by destruct (f e). Qed.
Lemma count_threads f n t : Forall (fun e => (e.1 < n)%nat) t ->
  count f t.*2 = sum_list_with (fun i => count f (of_thread i t)) (seq 0 n).
Proof.
  intros Ht. induction Ht as [|[j e] t Hj Ht IH].
  - assert (Hz : forall l, sum_list_with (fun i => count f (of_thread i [])) l = 0%nat) by (induction l as [|i l IHl]; [done|exact IHl]).
    by rewrite Hz.
  - cbn in Hj. change (((j, e) :: t).*2) with ([e] ++ t.*2). rewrite count_app, IH.
    assert (Hs : forall m l, sum_list_with (fun i => count f (of_thread i ((j, e) :: t))) (seq m l) =
      ((if decide (m <= j < m + l)%nat then count f [e] else 0) + sum_list_with (fun i => count f (of_thread i t)) (seq m l))%nat).
    { intros m l. revert m. induction l as [|l IHl]; intros m; cbn [seq sum_list_with]; [destruct (decide _); [lia|done]|].
      rewrite IHl. change ((j, e) :: t) with ([(j, e)] ++ t). rewrite of_thread_app, of_thread_one, count_app.
      destruct (decide (j = m)), (decide (S m <= j < S m + l)%nat), (decide (m <= j < m + S l)%nat); change (count f []) with 0%nat; lia. }
    rewrite Hs. destruct (decide _); lia.
Qed.
Lemma count_threads_le f g n t : Forall (fun e => (e.1 < n)%nat) t ->
  (forall i, (i < n)%nat -> (count f (of_thread i t) <= count g (of_thread i t))%nat) -> (count f t.*2 <= count g t.*2)%nat.
Proof.
  intros Ht H. rewrite !(count_threads _ n) by done.
  assert (Hs : Forall (fun i => (i < n)%nat) (seq 0 n)) by (apply list.Forall_forall; intros i Hi; apply elem_of_seq in Hi; lia).
  induction Hs as [|i l Hi Hl IHl]; [done|]. cbn. specialize (H i Hi). lia.
Qed.
End pool.
