(* ===== verification/Compaction.v ===== *)
(** * Summaries of old messages

    Models [crates/hf-context/src/compaction.rs].  The model that writes a summary
    is a program of its own ([Interaction]).  [validate_identifiers] only writes a
    log record and is left out. *)
From S2P Require Import Prelude Provider Text Utf8 Interaction.
From Stdlib Require Import SpecFloat.

(** ** Compaction ([compaction.rs]) *)
Inductive CompactionStrategy := Summarize | SegmentedSummarize | SelectiveRetain.
Definition debug_strategy (s : CompactionStrategy) : string :=
  match s with
  | Summarize => "Summarize" | SegmentedSummarize => "SegmentedSummarize" | SelectiveRetain => "SelectiveRetain"
  end.
Record CompactionConfig := mkCompaction {
  strategy : CompactionStrategy;
  retain_window : Z;
  max_retries : Z;
  segment_size : Z;
}.
Definition default_compaction : CompactionConfig := mkCompaction Summarize 10 3 10.
Record CompactionResult := mkCompacted {
  summary : string;
  messages_compacted : Z;
  tokens_saved_by : Z;
  summary_tokens : Z;
}.
Definition nothing_compacted : CompactionResult := mkCompacted "" 0 0 0.

Definition sum_tokens (l : list string) : Z := foldr (fun m n => wrapping 32 (estimate_tokens_u32 m + n)) 0 l.
Definition unlines (l : list string) : string := String.concat "" ((fun s => s +:+ nl) <$> l).
Definition build_summarize_prompt (messages : list string) : string :=
  "Summarize the following conversation messages concisely. Preserve all important details, decisions, code references, file paths, URLs, and identifiers:"
  +:+ nl +:+ nl +:+ unlines (imap (fun i m => "Message " +:+ pretty (i + 1)%nat +:+ ": " +:+ m) messages)
  +:+ nl +:+ "Summary:".
Definition build_segment_prompt (messages : list string) (segment_num : nat) : string :=
  "Summarize segment " +:+ pretty segment_num +:+ " of a conversation. Preserve key details, identifiers, and decisions:"
  +:+ nl +:+ nl +:+ unlines ((fun m => "- " +:+ m) <$> messages) +:+ nl +:+ "Segment summary:".
Definition em_dash : string := utf8 [226; 128; 148]%N.
Definition truncate_fallback (messages : list string) : string :=
  "[Compacted " +:+ pretty (length messages) +:+ " messages " +:+ em_dash +:+ " LLM unavailable]".

(** [f64::ceil], then [as usize]. *)
Definition ceil_usize (x : f64) : Z :=
  match x with
  | S754_finite false m e =>
      Z.min usize_MAX (if 0 <=? e then Zpos m * 2 ^ e else div_ceil (Zpos m) (2 ^ (- e)))
  | S754_infinity false => usize_MAX
  | _ => 0
  end.
Definition f64_min (a b : f64) : f64 := if SFltb b a then b else a.
Definition score_importance (message : string) : f64 :=
  let score := f64_add (f64_of 0) (f64_div (f64_min (f64_of (len message)) (f64_of 500)) (f64_of 500)) in
  let score :=
    if contains message "```" || contains message "fn " || contains message "pub "
    then f64_add score (decimal 3 (-1)) else score in
  let score :=
    if contains message "/" || contains message ".rs" || contains message ".py"
    then f64_add score (decimal 2 (-1)) else score in
  if existsb (contains (to_ascii_lowercase message)) ["decided"; "conclusion"; "solution"; "fix"; "resolve"; "implement"]
  then f64_add score (decimal 2 (-1)) else score.

Section llm.
Context {I : Interface} (summarize : string -> Prog I (Result string string)).

(** Attempts left; [None] keeps the raw messages. *)
Fixpoint call_with_retry (attempts : nat) (prompt : string) (source : list string) : Prog I (option string) :=
  match attempts with
  | O => mret None
  | S attempts =>
      r ← summarize prompt;
      match r with
      | Ok s =>
          if negb (String.eqb (Prelude.trim s) "") && negb (sum_tokens source <=? estimate_tokens_u32 s)
          then mret (Some s) else call_with_retry attempts prompt source
      | Err _ => call_with_retry attempts prompt source
      end
  end.

Section engine.
Context (config : CompactionConfig).
Definition retries : nat := Z.to_nat (max_retries config).
Definition summarize_all (messages : list string) : Prog I string :=
  r ← call_with_retry retries (build_summarize_prompt messages) messages; mret (default "" r).

(** [slice::chunks]. *)
Fixpoint chunks (fuel : nat) (n : nat) (l : list string) : list (list string) :=
  match fuel, l with
  | S fuel, _ :: _ => take n l :: chunks fuel n (drop n l)
  | _, _ => []
  end.
Fixpoint summarize_segments (cs : list (list string)) (num : nat) : Prog I (list string) :=
  match cs with
  | [] => mret []
  | c :: cs =>
      r ← call_with_retry retries (build_segment_prompt c num) c;
      rest ← summarize_segments cs (S num);
      mret (default (truncate_fallback c) r :: rest)
  end.
Definition segmented_summarize (messages : list string) : Prog I string :=
  let n := Z.to_nat (Z.max (segment_size config) 1) in
  segments ← summarize_segments (chunks (length messages) n messages) 1;
  mret (String.concat (nl +:+ nl) (imap (fun i s => "[Segment " +:+ pretty (i + 1)%nat +:+ "] " +:+ s) segments)).

Definition retained (messages : list string) : list nat :=
  let scored := imap (fun i m => (i, score_importance m)) messages in
  let threshold := ceil_usize (f64_mul (f64_of (zlen messages)) (decimal 3 (-1))) in
  (take (Z.to_nat threshold) (sort_by (fun a b => default Eq (SFcompare b.2 a.2)) scored)).*1.
Definition selective_retain (messages : list string) : Prog I string :=
  let kept := retained messages in
  let indexed := imap pair messages in
  let to_summarize := (filter (fun p => p.1 ∉ kept) indexed).*2 in
  rest ←
    match to_summarize with
    | [] => mret ""%string
    | _ =>
        r ← call_with_retry retries (build_summarize_prompt to_summarize) to_summarize;
        mret (default (truncate_fallback to_summarize) r)
    end;
  let first := if String.eqb rest "" then [] else ["[Summary of less important messages] " +:+ rest] in
  mret (String.concat (nl +:+ nl) (first ++ ((fun p => "[Retained] " +:+ p.2) <$> filter (fun p => p.1 ∈ kept) indexed))).

Definition compact_with_retain (messages : list string) (retain : Z) : CompactionResult :=
  if zlen messages <=? retain then nothing_compacted
  else
    let to_compact := zlen messages - retain in
    let s := "[Compacted " +:+ pretty to_compact +:+ " messages using " +:+ debug_strategy (strategy config) +:+ " strategy]" in
    mkCompacted s to_compact
      (saturating_sub (sum_tokens (take (Z.to_nat to_compact) messages)) (estimate_tokens_u32 s)) (estimate_tokens_u32 s).
(** [has_llm]: whether the engine was given a model. *)
Definition compact_async_with_retain (has_llm : bool) (messages : list string) (retain : Z) : Prog I CompactionResult :=
  if zlen messages <=? retain then mret nothing_compacted
  else if negb has_llm then mret (compact_with_retain messages retain)
  else
    let to_compact := zlen messages - retain in
    let compacted := take (Z.to_nat to_compact) messages in
    s ← match strategy config with
        | Summarize => summarize_all compacted
        | SegmentedSummarize => segmented_summarize compacted
        | SelectiveRetain => selective_retain compacted
        end;
    mret (mkCompacted s to_compact (saturating_sub (sum_tokens compacted) (estimate_tokens_u32 s)) (estimate_tokens_u32 s)).
Definition compact (messages : list string) : CompactionResult := compact_with_retain messages (retain_window config).
Definition compact_async (has_llm : bool) (messages : list string) : Prog I CompactionResult :=
  compact_async_with_retain has_llm messages (retain_window config).
End engine.
End llm.

(** ** What a compaction summary is *)
Section llm_calls.
Context {I : Interface} (summarize : string -> Prog I (Result string string)).
Definition shrinks (source : list string) (s : string) : Prop :=
  Prelude.trim s <> "" /\ estimate_tokens_u32 s < sum_tokens source.
(** A trace made of [n] calls to the model with one prompt. *)
Definition calls (prompt : string) (n : nat) (t : Trace I) : Prop :=
  exists ts, length ts = n /\ t = concat ts /\ Forall (fun t => exists r, runs (summarize prompt) t r) ts.
Lemma calls_S prompt n t t' r : runs (summarize prompt) t r -> calls prompt n t' -> calls prompt (S n) (t ++ t').
Proof.
  intros Hr (ts & <- & -> & Hts). exists (t :: ts). split; [done|]. split; [done|]. constructor; [by exists r|done].
Qed.

Lemma call_with_retry_ensures prompt source n :
  ensures (call_with_retry summarize n prompt source) (fun t r =>
    match r with
    | Some s => shrinks source s /\ exists k, (k <= n)%nat /\ calls prompt k t
    | None => calls prompt n t
    end).
Proof.
  induction n as [|n IH]; cbn [call_with_retry]; [apply ensures_ret; by exists []|].
  apply ensures_bind. intros t r Hr.
  assert (Hagain : ensures (call_with_retry summarize n prompt source) (fun t' r' => match r' with
      | Some s => shrinks source s /\ exists k, (k <= S n)%nat /\ calls prompt k (t ++ t')
      | None => calls prompt (S n) (t ++ t')
      end)).
  { eapply ensures_mono; [apply IH|]. intros t' [s|] H; [|by eapply calls_S].
    destruct H as [Hs (k & Hk & H)]. split; [done|]. exists (S k). split; [lia|by eapply calls_S]. }
  destruct r as [s|e]; [|done]. destruct (negb _ && negb _) eqn:C; [|done].
  apply andb_true_iff in C as [C1 C2]. apply ensures_ret. split.
  - split; [|lia]. by apply negb_true_iff, String.eqb_neq in C1.
  - exists 1%nat. split; [lia|]. rewrite app_nil_r. rewrite <- (app_nil_r t). eapply calls_S; [done|by exists []].
Qed.

Lemma concat_chunks n : (0 < n)%nat -> forall l fuel, (length l <= fuel)%nat ->
  concat (chunks fuel n l) = l /\ Forall (fun c => (1 <= length c <= n)%nat) (chunks fuel n l).
Proof.
  intros Hn l fuel. revert l. induction fuel as [|fuel IH]; intros l Hl.
  { destruct l; [by split|cbn in Hl; lia]. }
  destruct l as [|x l]; [by split|]. cbn [chunks]. destruct (IH (drop n (x :: l))) as [H1 H2].
  { rewrite length_drop. cbn in *. lia. }
  cbn [concat]. rewrite H1, take_drop. split; [done|]. constructor; [|done]. rewrite length_take. cbn. lia.
Qed.

(** A summary of everything but the newest [retain] messages is worth its place: it
    is empty, which callers read as "nothing was compacted", after [max_retries]
    calls; or it is not blank and takes fewer tokens than the messages it stands
    for, the report giving the difference. *)
Lemma summary_shrinks (config : CompactionConfig) (messages : list string) (retain : Z) :
  strategy config = Summarize -> 0 <= retain < zlen messages ->
  let compacted := take (Z.to_nat (zlen messages - retain)) messages in
  ensures (compact_async_with_retain summarize config true messages retain) (fun t r =>
    messages_compacted r = zlen compacted /\
    exists n, (n <= retries config)%nat /\ calls (build_summarize_prompt compacted) n t /\
    (summary r = "" /\ n = retries config \/
     shrinks compacted (summary r) /\ tokens_saved_by r = sum_tokens compacted - summary_tokens r /\ 0 < tokens_saved_by r)).
Proof.
  intros Hs Hr compacted. unfold compact_async_with_retain. replace (zlen messages <=? retain) with false by lia.
  rewrite Hs. cbn [negb]. fold compacted. unfold summarize_all.
  apply ensures_bind, ensures_bind. eapply ensures_mono; [apply call_with_retry_ensures|].
  intros t r H. apply ensures_ret, ensures_ret. rewrite !app_nil_r.
  cbn [messages_compacted summary tokens_saved_by summary_tokens].
  split; [subst compacted; unfold zlen in *; rewrite length_take; lia|].
  destruct r as [s|]; [|exists (retries config); split; [lia|]; split; [done|by left]].
  destruct H as [[Hb Hsh] (n & Hn & H)]. exists n. split; [done|]. split; [done|]. right.
  change (default ""%string (Some s)) with s. unfold saturating_sub. split; [by split|]. lia.
Qed.
End llm_calls.
