(* ===== verification/Agent.v ===== *)
(** * The autonomous agent's turn

    Models [crates/hf-agent/src/lib.rs], [tools.rs], [agent_tools.rs],
    [definition.rs], [event.rs].  A turn is a program over the calls the agent makes
    on its backend, provider pool, registries, spill store and event sink
    ([Interaction]); their answers may be anything.  JSON values, the parsing of a
    step and schema validation are parameters.  A message's identifier is drawn by
    the call [FreshId].  A definition keeps the fields the loop reads. *)
From S2P Require Import Prelude Provider Errors Utf8 Context Interaction.
From Stdlib Require Import FunctionalExtensionality.
From S2P Require LoopGuard BudgetDispatch Spill Prompt Pruning Compaction Sse.

(** ** JSON, as [serde_json::Value] is used *)
Class Json (J : Type) := {
  json_null : J;
  json_str : string -> J;
  json_int : Z -> J;
  json_array : list J -> J;
  json_object : list (string * J) -> J;
  json_get : J -> string -> option J;
  json_as_str : J -> option string;
  json_text : J -> string;
}.

(** ** Agents ([definition.rs]) *)
Inductive Autonomy := Manual | Assist | Auto.
#[export] Instance Autonomy_eq_dec : EqDecision Autonomy.
Proof. solve_decision. Defined.
Record CompletionRequirement := mkRequirement {
  requirement_tool : string;
  requirement_reminder : string;
}.
Record AgentDefinition := mkDefinition {
  def_id : string;
  def_name : string;
  def_system_prompt : string;
  allowed_tools : list string;
  def_skills : list string;
  model_tags : list string;
  temperature : option f64;
  max_iterations : Z;
  autonomy : Autonomy;
  completion_requirement : option CompletionRequirement;
}.
Record Agent := mkAgent {
  project : option string;
  definition : AgentDefinition;
  agent_max_iterations : Z;
  delegation_depth : Z;
}.
Definition with_definition (project : option string) (d : AgentDefinition) : Agent :=
  mkAgent project d (Z.max (max_iterations d) 1) 0.
Definition at_delegation_depth (depth : Z) (a : Agent) : Agent :=
  mkAgent (project a) (definition a) (agent_max_iterations a) depth.
Definition with_max_iterations (n : Z) (a : Agent) : Agent :=
  mkAgent (project a) (definition a) (Z.max n 1) (delegation_depth a).

Definition ROUTE_TAGS : list string := ["general"; "reasoning"; "code"].
Definition MAX_DELEGATION_DEPTH : Z := 1.
Definition DELEGATE_TOOL : string := "delegate".
Definition COMPACTION_RETAIN : Z := 6.
Definition MAX_COMPLETION_RECOVERIES : Z := 2.
Definition FILE_READ_TOOL : string := "FileRead".
Definition INSPECTION_TOOLS : list string := ["FileRead"; "Glob"; "Grep"; "KnowledgeSearch"].

(** ** Catalogs and schemas ([tools.rs], [agent_tools.rs]) *)
Definition arg (name value : string) : string := quoted name +:+ ": " +:+ quoted value.
Definition INSPECTION_CATALOG : string :=
  "- FileRead: read a source file. args: {" +:+ quoted "path" +:+ ":" +:+ quoted "..." +:+ "}" +:+ nl
  +:+ "- Glob: list files matching a glob. args: {" +:+ quoted "pattern" +:+ ":" +:+ quoted "**/*.c" +:+ "}" +:+ nl
  +:+ "- Grep: search file contents by regex. args: {" +:+ quoted "pattern" +:+ ":" +:+ quoted "..." +:+ "}" +:+ nl
  +:+ "- KnowledgeSearch: BM25 search the project's source for symbols/patterns. args: {" +:+ quoted "query" +:+ ":" +:+ quoted "..." +:+ "}".
Definition TOOL_USAGE : list (string * string) :=
  [("discover", "- discover {" +:+ arg "lang" "c|cpp|rust|go|python" +:+ "} -> ranked fuzzing targets in the project");
   ("harness", "- harness {" +:+ arg "target" "<symbol>" +:+ ", " +:+ arg "engine" "libfuzzer|afl++|honggfuzz" +:+ ", " +:+ arg "lang" "c"
      +:+ "} -> draft, compile, and smoke-test a function harness; a human must promote it. Generated function harnesses support AFL++, honggfuzz, and libFuzzer only. Syzkaller kernel campaigns use the local desktop application's dedicated kernel-campaign workflow. This agent has no syzkaller tool; hand the request back to the operator for approval and execution");
   ("refine", "- refine {" +:+ arg "target" "<symbol>" +:+ ", " +:+ arg "engine" "libfuzzer" +:+ ", " +:+ arg "lang" "c"
      +:+ "} -> reshape the CURRENT harness toward uncovered code and recompile a proposal; then re-run smoke qualification. Use this when a smoke verdict is not a clean pass. A human still promotes.");
   ("run", "- run {" +:+ arg "target" "<symbol>" +:+ ", " +:+ arg "engine" "libfuzzer" +:+ ", " +:+ quoted "duration_secs" +:+ ": 60} -> run a fuzz campaign (requires a promoted harness)");
   ("triage", "- triage {" +:+ arg "target" "<symbol>" +:+ "} -> ingest and deduplicate crash artifacts");
   ("corpus", "- corpus {" +:+ arg "target" "<symbol>" +:+ ", " +:+ arg "op" "seed|grow|prune|list" +:+ "} -> manage the corpus");
   ("delegate", "- delegate {" +:+ arg "agent" "target-scout|harness-author|run-operator|crash-triager|coverage-analyst|corpus-curator" +:+ ", "
      +:+ arg "task" "<instruction>" +:+ "} -> hand a scoped subtask to a specialist sub-agent and get its result")].
Definition catalog_for (allowed : list string) : string :=
  match (filter (fun p => p.1 ∈ allowed) TOOL_USAGE).*2 with
  | [] => "This agent has no tools; answer the user directly."
  | lines => "Available tools (call one per step):" +:+ nl +:+ join nl lines
  end.

Section json.
Context {J : Type} `{!Json J}.
Definition string_type : J := json_object [("type", json_str "string")].
Definition positive_type : J := json_object [("type", json_str "integer"); ("minimum", json_int 1)].
Definition object_schema (required : list string) (properties : list (string * J)) : J :=
  json_object ([("type", json_str "object")]
    ++ (match required with [] => [] | _ => [("required", json_array (json_str <$> required))] end)
    ++ [("properties", json_object properties)]).
Definition fuzzing_tool_schema (name : string) : option J :=
  if String.eqb name "discover" then Some (object_schema [] [("lang", string_type)])
  else if String.eqb name "harness" then
    Some (object_schema ["target"] [("target", string_type); ("engine", string_type); ("lang", string_type)])
  else if String.eqb name "refine" then
    Some (object_schema ["target"] [("target", string_type); ("engine", string_type); ("lang", string_type); ("max_repairs", positive_type)])
  else if String.eqb name "run" then
    Some (object_schema ["target"] [("target", string_type); ("engine", string_type); ("duration_secs", positive_type)])
  else if String.eqb name "triage" then Some (object_schema ["target"] [("target", string_type)])
  else if String.eqb name "corpus" then Some (object_schema ["target"] [("target", string_type); ("op", string_type)])
  else None.
Definition validate_tool_args (validate : J -> J -> Result string unit) (name : string) (args : J) : Result string unit :=
  match fuzzing_tool_schema name with None => Ok tt | Some schema => validate schema args end.
Definition error_json (message : string) : string := json_text (json_object [("error", json_str message)]).
End json.

(** ** Steps of the protocol *)
Record Step (J : Type) := mkStep {
  thought : option string;
  step_tool : option string;
  step_args : option J;
  final_answer : option string;
}.
Arguments mkStep {J}.
Arguments thought {J}.
Arguments step_tool {J}.
Arguments step_args {J}.
Arguments final_answer {J}.

(** [&s[s.find(p)?..]], and what follows the match. *)
Fixpoint find_from (s p : string) : option string :=
  if String.prefix p s then Some s else match s with EmptyString => None | String _ s' => find_from s' p end.
Definition find_after (s p : string) : option string := str_drop (String.length p) <$> find_from s p.
Definition trim_start (s : string) : string := strip_while drop_prefix (String.length s) s.
Definition backslash : Ascii.ascii := Ascii.ascii_of_N 92.
Definition unescape (c : Ascii.ascii) : Ascii.ascii :=
  if code c =? 110 then LF else if code c =? 114 then Ascii.ascii_of_N 13
  else if code c =? 116 then Ascii.ascii_of_N 9 else c.
(** Quotes and escapes are ASCII, so reading bytes is reading characters. *)
Fixpoint read_quoted (s : string) (escaped : bool) : option string :=
  match s with
  | EmptyString => None
  | String c s =>
      if escaped then String (unescape c) <$> read_quoted s false
      else if Ascii.eqb c backslash then read_quoted s true
      else if String.eqb (String c EmptyString) quote then Some EmptyString
      else String c <$> read_quoted s false
  end.
Definition read_relaxed_quoted_string (value : string) : option string :=
  match value with
  | String c s => if String.eqb (String c EmptyString) quote then read_quoted s false else None
  | EmptyString => None
  end.
Definition extract_relaxed_string_field (content field : string) : option string :=
  after_key ← find_after content (quoted field);
  after_colon ← find_after after_key ":";
  read_relaxed_quoted_string (trim_start after_colon).
Definition parse_relaxed_final_step {J} (content : string) : option (Step J) :=
  final ← extract_relaxed_string_field content "final";
  Some (mkStep (extract_relaxed_string_field content "thought") None None (Some final)).
Definition ellipsis : string := utf8 [226; 128; 166]%N.
Definition truncate (s : string) (max : Z) : string :=
  if char_count s <=? max then s else of_chars (take (Z.to_nat max) (chars s)) +:+ ellipsis.

(** ** The calls of a turn *)
Record ChatRequest := mkChatRequest {
  request_messages : list Message;
  request_temperature : option f64;
  request_tool_calling : ToolCallingMode;
}.
Definition from_messages (messages : list Message) : ChatRequest := mkChatRequest messages None Native.
Record ChatResponse := mkChatResponse {
  response_model : string;
  response_content : option string;
  usage : BudgetDispatch.TokenUsage;
}.
Definition text (r : ChatResponse) : string := default "" (response_content r).
Inductive AgentEvent (J : Type) :=
| Started
| Thinking (thought : string)
| ToolCall (name : string) (args : J)
| ToolResult (name summary : string)
| Complete (content : string)
| Error (message : string).
Arguments Started {J}.
Arguments Thinking {J}.
Arguments ToolCall {J}.
Arguments ToolResult {J}.
Arguments Complete {J}.
Arguments Error {J}.

Inductive Call (J : Type) :=
| ProviderPool
| LoadSkills
| LoadAgent (id : string)
| DrainReminders
| FreshId
| ChatCompletion (request : ChatRequest) (route : RouteRequest)
| RecordUsage (operation model : string) (usage : BudgetDispatch.TokenUsage)
| ApproveTool (tool agent : string)
| Inspect (working_dir name : string) (args : J)
| DispatchTool (project name : string) (args : J)
| SpillStore
| SaveText (owner name content : string)
| Emit (event : AgentEvent J).
Arguments ProviderPool {J}.
Arguments LoadSkills {J}.
Arguments LoadAgent {J}.
Arguments DrainReminders {J}.
Arguments FreshId {J}.
Arguments ChatCompletion {J}.
Arguments RecordUsage {J}.
Arguments ApproveTool {J}.
Arguments Inspect {J}.
Arguments DispatchTool {J}.
Arguments SpillStore {J}.
Arguments SaveText {J}.
Arguments Emit {J}.
Definition Answer {J} (c : Call J) : Type :=
  match c with
  | ProviderPool | SpillStore | ApproveTool _ _ => bool
  | LoadSkills => gmap string Prompt.SkillDefinition
  | LoadAgent _ => option AgentDefinition
  | DrainReminders => list string
  | FreshId => string
  | ChatCompletion _ _ => Result ProviderError ChatResponse
  | RecordUsage _ _ _ | Emit _ => unit
  | Inspect _ _ _ => Result string J
  | DispatchTool _ _ _ => Result ClassifiedError string
  | SaveText _ _ _ => Result string Spill.Spilled
  end.
Definition Calls (J : Type) : Interface := mkInterface (Call J) Answer.

Section turn.
Context {J : Type} `{!Json J}.
Context (from_str : string -> option (Step J)) (first_value : string -> option (option (Step J))).
Context (validate : J -> J -> Result string unit).
Context (PROMPT_IDENTITY PROMPT_SECURITY PROMPT_TOOL_PROTOCOL : string) (json_string : string -> string).
Notation Run := (Prog (Calls J)).
Notation call c := (ask (I := Calls J) c).

(** [first_value]: the first value of a stream of JSON values, if there is one. *)
Definition parse_step (content : string) : option (Step J) :=
  match from_str content with
  | Some step => Some step
  | None =>
      start ← find_from content "{";
      next ← first_value start;
      match next with Some step => Some step | None => parse_relaxed_final_step start end
  end.

Definition message (r : Role) (c : string) : Run Message := i ← call FreshId; mret (new_message i r c).
Definition reminder_messages (reminders : list string) : Run (list Message) :=
  prog_map (fun r => message User ("[system-reminder]" +:+ nl +:+ r)) reminders.
Definition preferring (tags : list string) : RouteRequest := preferring_tags tags.

Definition system_prompt (a : Agent) : Run (Result ClassifiedError string) :=
  let d := definition a in
  skills ←?
    match def_skills d with
    | [] => mret (Ok None)
    | names =>
        registry ← call LoadSkills;
        mret (map_err (fun e => Validation ("agent references an unknown skill: " +:+ Prompt.display_skill_error e))
                (Prompt.render registry names))
    end;
  mret (Ok (Prompt.build_agent_system_prompt PROMPT_IDENTITY PROMPT_SECURITY PROMPT_TOOL_PROTOCOL json_string
    (Prompt.mkPromptInput (def_system_prompt d) (project a) skills (catalog_for (allowed_tools d)) INSPECTION_CATALOG))).

(** [PoolCompactionLlm::summarize]. *)
Definition pool_summarize (prompt : string) : Run (Result string string) :=
  m ← message User prompt;
  r ← call (ChatCompletion (from_messages [m]) (preferring ROUTE_TAGS));
  match r with
  | Err e => mret (Err (display e))
  | Ok resp =>
      call (RecordUsage "agent_compaction" (response_model resp) (usage resp)) ;;
      mret (Ok (trim (text resp)))
  end.

Definition prune_over_budget (messages : list Message) : list Message :=
  if total_tokens messages <=? DEFAULT_BUDGET_TOKENS then messages
  else
    let c := Pruning.default_pruning_config in
    let config := Pruning.mkPruningConfig (Pruning.enabled c) 0 (Pruning.token_threshold c) in
    (Pruning.prune_working_history (Pruning.from_config config) messages 0).2.
Definition safe_compaction_tail_start (messages : list Message) (retain : Z) : option nat :=
  let nominal := Z.to_nat (saturating_sub (zlen messages) retain) in
  List.find (fun i => match messages !! i with Some m => is_role User m | None => false end)
    (seq nominal (length messages - nominal)).
Definition debug_role (r : Role) : string :=
  match r with System => "System" | User => "User" | Assistant => "Assistant" | Tool => "Tool" end.
Definition maybe_compact (messages : list Message) : Run (list Message) :=
  if total_tokens messages <=? DEFAULT_BUDGET_TOKENS then mret messages
  else if zlen messages <=? COMPACTION_RETAIN + 2 then mret messages
  else
    pool ← call ProviderPool;
    if negb pool then mret messages
    else
      match safe_compaction_tail_start messages COMPACTION_RETAIN with
      | None => mret messages
      | Some tail_start =>
          match (fun m => debug_role (role m) +:+ ": " +:+ content m) <$> take (tail_start - 1) (drop 1 messages) with
          | [] => mret messages
          | middle =>
              result ← Compaction.compact_async_with_retain pool_summarize Compaction.default_compaction true middle 0;
              if String.eqb (trim (Compaction.summary result)) "" then mret messages
              else
                summary ← message System ("[Summary of earlier conversation]" +:+ nl +:+ Compaction.summary result);
                mret (take 1 messages ++ summary :: drop tail_start messages)
          end
      end.

Definition completion_reminder (requirement : option CompletionRequirement) (tool_called : bool) (recoveries : Z) : option string :=
  r ← requirement;
  if negb tool_called && (recoveries <? MAX_COMPLETION_RECOVERIES) then Some (requirement_reminder r) else None.
(** [store]: whether there is a spill store. *)
Definition bound_fresh_result (tool result : string) (store : bool) (owner : string) : Run string :=
  match cap_fresh_tool_result result with
  | None => mret result
  | Some capped =>
      if String.eqb tool FILE_READ_TOOL then mret capped
      else if negb store then mret capped
      else
        r ← call (SaveText owner tool result);
        mret (match r with
              | Ok spilled =>
                  default capped (Spill.preview_replacing result MAX_FRESH_TOOL_RESULT_CHARS (Spill.retrieval_hint spilled))
              | Err _ => capped
              end)
  end.
Definition to_str (path : string) : option string :=
  match Sse.from_utf8 (String.length path) (String.list_ascii_of_string path) with Sse.Utf8Ok => Some path | _ => None end.
Definition permitted (d : AgentDefinition) (tool : string) : bool := existsb (String.eqb tool) (allowed_tools d).
Definition not_permitted (d : AgentDefinition) (tool : string) : string :=
  error_json ("tool '" +:+ tool +:+ "' is not permitted for the " +:+ def_name d +:+ " agent").

(** One tool call: what the agent may do, in the order it is decided. *)
Definition run_tool (a : Agent) (handle_delegate : J -> Run string) (tool : string) (args : J) : Run string :=
  let d := definition a in
  approved ← (if bool_decide (autonomy d = Manual) then call (ApproveTool tool (def_name d)) else mret true);
  if negb approved then
    mret (error_json ("approval declined: the " +:+ def_name d +:+ " agent runs with manual autonomy, so '" +:+ tool
                      +:+ "' requires operator approval"))
  else if String.eqb tool DELEGATE_TOOL then
    if permitted d tool then handle_delegate args else mret (not_permitted d tool)
  else if existsb (String.eqb tool) INSPECTION_TOOLS then
    match project a ≫= to_str with
    | Some wd =>
        r ← call (Inspect wd tool args);
        mret (match r with Ok out => json_text out | Err e => error_json e end)
    | None => mret (error_json "no project workspace is set; file inspection is unavailable")
    end
  else if negb (permitted d tool) then mret (not_permitted d tool)
  else
    match validate_tool_args validate tool args with
    | Err e => mret (error_json ("invalid arguments for tool '" +:+ tool +:+ "': " +:+ e))
    | Ok _ =>
        match project a with
        | Some p =>
            r ← call (DispatchTool p tool args);
            mret (match r with Ok response => response | Err e => error_json (display_classified e) end)
        | None => mret (error_json "no project selected; choose a project folder first")
        end
    end.

(** ** A turn *)
Record Turn := mkTurn {
  messages : list Message;
  loop_guard : LoopGuard.LoopGuard;
  required_tool_called : bool;
  completion_recoveries : Z;
}.
(** Whether the turn goes on, or is over. *)
Inductive Outcome := Continue (t : Turn) | Return (r : Result ClassifiedError string).

Section agent.
Context (emit : AgentEvent J -> Run unit) (handle_delegate : J -> Run string) (a : Agent) (route : RouteRequest).

(** An answer ends the turn, or is sent back for a tool that was not called. *)
Definition finish (t : Turn) (answer : string) : Run Outcome :=
  match completion_reminder (completion_requirement (definition a)) (required_tool_called t) (completion_recoveries t) with
  | Some reminder =>
      m ← message Assistant answer;
      reminders ← reminder_messages [reminder];
      mret (Continue (mkTurn (messages t ++ m :: reminders) (loop_guard t) (required_tool_called t) (completion_recoveries t + 1)))
  | None =>
      emit (Complete answer) ;;
      mret (Return (Ok answer))
  end.
Definition stop_runaway (d : LoopGuard.LoopDetection) : Run Outcome :=
  let message := "Stopping: detected a runaway " +:+ LoopGuard.as_str (LoopGuard.pattern d) +:+ " loop -- " +:+ LoopGuard.reason d +:+ "." in
  emit (Error message) ;;
  mret (Return (Ok message)).
Definition incomplete_notice : string :=
  "Your previous step had neither a `tool` call nor a `final` answer. Respond with a valid step: call a `tool` to make progress, or provide a `final` answer to finish.".
Definition incomplete_step (t : Turn) (content : string) : Run Outcome :=
  match LoopGuard.record (loop_guard t) (LoopGuard.tool "<incomplete-step>" "") with
  | (_, Some detection) => stop_runaway detection
  | (guard, None) =>
      m ← message Assistant content;
      n ← message User incomplete_notice;
      mret (Continue (mkTurn (messages t ++ [m; n]) guard (required_tool_called t) (completion_recoveries t)))
  end.
Definition tool_step (t : Turn) (content tool : string) (args : J) : Run Outcome :=
  let required := match completion_requirement (definition a) with
                  | Some r => String.eqb (requirement_tool r) tool | None => false end in
  emit (ToolCall tool args) ;;
  result ← run_tool a handle_delegate tool args;
  emit (ToolResult tool (truncate result 400)) ;;
  match LoopGuard.record (loop_guard t) (LoopGuard.tool tool (json_text args)) with
  | (_, Some detection) => stop_runaway detection
  | (guard, None) =>
      store ← call SpillStore;
      bounded ← bound_fresh_result tool result store (def_id (definition a));
      m ← message Assistant content;
      n ← message Tool ("result of " +:+ tool +:+ ": " +:+ bounded);
      mret (Continue (mkTurn (messages t ++ [m; n]) guard (required || required_tool_called t) (completion_recoveries t)))
  end.

(** The provider's copy has no tool role. *)
Definition as_user (m : Message) : Message :=
  if is_role Tool m then mkMessage (message_id m) User (content m) None (tool_calls m) else m.
Definition request (ms : list Message) : ChatRequest :=
  mkChatRequest (as_user <$> assemble ms DEFAULT_BUDGET_TOKENS) (temperature (definition a)) PromptBased.
Definition iteration (t : Turn) : Run Outcome :=
  reminders ← call DrainReminders;
  reminders ← reminder_messages reminders;
  let ms := prune_tool_results_by_age (messages t ++ reminders) in
  let t := mkTurn ms (loop_guard t) (required_tool_called t) (completion_recoveries t) in
  r ← call (ChatCompletion (request ms) route);
  match r with
  | Err e => mret (Return (Err (from_provider_error e)))
  | Ok resp =>
      call (RecordUsage "agent_chat" (response_model resp) (usage resp)) ;;
      let content := trim (text resp) in
      match parse_step content with
      | None => finish t content
      | Some step =>
          match thought step with
          | Some th => if String.eqb th "" then mret tt else emit (Thinking th)
          | None => mret tt
          end ;;
          match final_answer step, step_tool step with
          | Some answer, _ => finish t answer
          | None, None => incomplete_step t content
          | None, Some tool => tool_step t content tool (default json_null (step_args step))
          end
      end
  end.
Definition exhausted : string := "Reached the step limit for this turn without a final answer.".
Fixpoint iterations (n : nat) (t : Turn) : Run (Result ClassifiedError string) :=
  match n with
  | O =>
      emit (Complete exhausted) ;;
      mret (Ok exhausted)
  | S n =>
      o ← iteration t;
      match o with Continue t => iterations n t | Return r => mret r end
  end.
End agent.

Definition no_provider : string :=
  "no LLM provider configured (configure one in providers.toml or set HF_PROVIDER_API_KEY)".
Definition turn (emit : AgentEvent J -> Run unit) (handle_delegate : J -> Run string) (a : Agent)
    (history : list Message) (user_message : string) : Run (Result ClassifiedError string) :=
  emit Started ;;
  pool ← call ProviderPool;
  if negb pool then mret (Err (Errors.Provider no_provider))
  else
    prompt ←? system_prompt a;
    s ← message System prompt;
    u ← message User user_message;
    ms ← maybe_compact (prune_over_budget (s :: history ++ [u]));
    let route := preferring (match model_tags (definition a) with [] => ROUTE_TAGS | tags => tags end) in
    iterations emit handle_delegate a route (Z.to_nat (agent_max_iterations a))
      (mkTurn ms LoopGuard.with_defaults false 0).

(** [run_sub]: a turn of the specialist, with nobody watching. *)
Definition delegate (run_sub : Agent -> string -> Run (Result ClassifiedError string)) (a : Agent) (args : J) : Run string :=
  if MAX_DELEGATION_DEPTH <=? delegation_depth a then
    mret (error_json "delegation depth exceeded: a delegated sub-agent may not delegate again")
  else
    match json_get args "agent" ≫= json_as_str with
    | None => mret (error_json "delegate requires a string 'agent' id")
    | Some agent_id =>
        match json_get args "task" ≫= json_as_str with
        | None => mret (error_json "delegate requires a string 'task'")
        | Some task =>
            d ← call (LoadAgent agent_id);
            match d with
            | None => mret (error_json ("unknown agent '" +:+ agent_id +:+ "' to delegate to"))
            | Some d =>
                if String.eqb (def_id d) (def_id (definition a)) then mret (error_json "cannot delegate to self")
                else
                  r ← run_sub (at_delegation_depth (delegation_depth a + 1) (with_definition (project a) d)) task;
                  mret (match r with
                        | Ok answer => answer
                        | Err e => error_json ("delegated agent '" +:+ agent_id +:+ "' failed: " +:+ display_classified e)
                        end)
            end
        end
    end.
Definition null_sink : AgentEvent J -> Run unit := fun _ => mret tt.
(** Each level of [fuel] is one of delegation. *)
Fixpoint run_turn (fuel : nat) (emit : AgentEvent J -> Run unit) (a : Agent) (history : list Message) (user_message : string)
    : Run (Result ClassifiedError string) :=
  match fuel with
  | O => mret (Err (Internal "out of fuel"))
  | S fuel => turn emit (delegate (fun sub task => run_turn fuel null_sink sub [] task) a) a history user_message
  end.
End turn.

(** ** What a turn does, event by event *)
Section trace.
Context {J : Type} `{!Json J}.
Context (from_str : string -> option (Step J)) (first_value : string -> option (option (Step J))).
Context (validate : J -> J -> Result string unit).
Context (PROMPT_IDENTITY PROMPT_SECURITY PROMPT_TOOL_PROTOCOL : string) (json_string : string -> string).
Notation Run := (Prog (Calls J)).
Notation Ev := (Event (Calls J)).
Notation event op x := (@mkEvent (Calls J) op x).
Notation turn := (turn from_str first_value validate PROMPT_IDENTITY PROMPT_SECURITY PROMPT_TOOL_PROTOCOL json_string).
Notation run_turn := (run_turn from_str first_value validate PROMPT_IDENTITY PROMPT_SECURITY PROMPT_TOOL_PROTOCOL json_string).
Notation system_prompt := (system_prompt PROMPT_IDENTITY PROMPT_SECURITY PROMPT_TOOL_PROTOCOL json_string).
Notation run_tool := (run_tool validate).
Notation tool_step := (tool_step validate).
Notation iteration := (iteration from_str first_value validate).
Notation iterations := (iterations from_str first_value validate).

(** Events that neither reach a model, a tool or another agent, nor ask for leave, nor
    are seen by whoever watches. *)
Definition neutral (e : Ev) : Prop :=
  match asked e with
  | ChatCompletion _ _ | RecordUsage _ _ _ | ApproveTool _ _ | Inspect _ _ _ | DispatchTool _ _ _ | LoadAgent _ | Emit _ => False
  | _ => True
  end.
Definition calm {A} (p : Run A) : Prop := ensures p (fun t _ => Forall neutral t).
Lemma calm_ret {A} (x : A) : calm (mret x).
Proof. apply ensures_ret. constructor. Qed.
Lemma calm_bind {A B} (p : Run A) (k : A -> Run B) : calm p -> (forall x, calm (k x)) -> calm (p ≫= k).
Proof.
  intros Hp Hk. apply ensures_bind. eapply ensures_mono; [exact Hp|]. intros t x Ht.
  eapply ensures_mono; [apply Hk|]. intros t' y Ht'. by apply Forall_app.
Qed.
Lemma calm_ask op : (forall x, neutral (event op x)) -> calm (ask (I := Calls J) op).
Proof. intros H. apply ensures_ask. intros x. by constructor. Qed.
Ltac calm_call := match goal with |- calm (ask ?op) => apply (calm_ask op); intros ?; exact I end.
Ltac always_call := match goal with |- always _ _ (ask ?op) => apply (always_ask (I := Calls J) op); intros ? end.
Lemma calm_message r c : calm (message (J := J) r c).
Proof. apply calm_bind; [calm_call|intros; apply calm_ret]. Qed.
Lemma calm_reminders l : calm (reminder_messages (J := J) l).
Proof.
  unfold reminder_messages. eapply ensures_mono; [apply (ensures_map _ (Forall neutral))|by intros t ys [H _]].
  - constructor.
  - intros t t' H H'. by apply Forall_app.
  - intros. apply calm_message.
Qed.
Lemma calm_system_prompt a : calm (system_prompt a).
Proof.
  unfold Agent.system_prompt, try_bind. apply calm_bind.
  - destruct (def_skills _); [apply calm_ret|]. apply calm_bind; [calm_call|intros; apply calm_ret].
  - intros [|]; apply calm_ret.
Qed.
Lemma calm_bound tool result store owner : calm (bound_fresh_result (J := J) tool result store owner).
Proof.
  unfold bound_fresh_result. destruct (cap_fresh_tool_result _); [|apply calm_ret].
  destruct (String.eqb _ _); [apply calm_ret|]. destruct (negb store); [apply calm_ret|].
  apply calm_bind; [calm_call|intros; apply calm_ret].
Qed.
(** The sink of a turn somebody watches. *)
Definition live_sink (e : AgentEvent J) : Run unit := ask (I := Calls J) (Emit e).

(** ** Tools are gated *)
(** Who acts after a trace: the specialist last started, until the agent that drives the
    turn shows the result of the tool it called, and that agent otherwise. *)
Definition acting_step (a : Agent) (who : option AgentDefinition) (e : Ev) : option AgentDefinition :=
  match e with
  | mkEvent op x =>
      match op as o return Answer o -> option AgentDefinition with
      | LoadAgent _ => fun found =>
          match found with
          | Some d => if String.eqb (def_id d) (def_id (definition a)) then who else Some d
          | None => who
          end
      | Emit (ToolResult _ _) => fun _ => None
      | _ => fun _ => who
      end x
  end.
Definition acting (a : Agent) (before : Trace (Calls J)) : option AgentDefinition := foldl (acting_step a) None before.
(** The definition whose rules apply to the next call. *)
Definition in_force (a : Agent) (before : Trace (Calls J)) : AgentDefinition := default (definition a) (acting a before).
(** A manual agent's operator has just said yes. *)
Definition approved (d : AgentDefinition) (tool : string) (before : Trace (Calls J)) : Prop :=
  autonomy d = Manual -> list.last before = Some (event (ApproveTool tool (def_name d)) true).
(** The four inspection tools, and those only, need no allow-list; and delegation is
    the driving agent's alone. *)
Definition gated (a : Agent) (before : Trace (Calls J)) (e : Ev) : Prop :=
  let d := in_force a before in
  match asked e with
  | DispatchTool p name args =>
      project a = Some p /\ name ∈ allowed_tools d /\ name ∉ INSPECTION_TOOLS /\ name <> DELEGATE_TOOL /\
      validate_tool_args validate name args = Ok tt /\ approved d name before
  | Inspect wd name args => project a ≫= to_str = Some wd /\ name ∈ INSPECTION_TOOLS /\ approved d name before
  | LoadAgent _ =>
      acting a before = None /\ delegation_depth a < MAX_DELEGATION_DEPTH /\ DELEGATE_TOOL ∈ allowed_tools d /\ approved d DELEGATE_TOOL before
  | ApproveTool _ name => autonomy d = Manual /\ name = def_name d
  | _ => True
  end.
Lemma existsb_elem (tool : string) l : existsb (String.eqb tool) l = true <-> tool ∈ l.
Proof.
  rewrite existsb_exists. setoid_rewrite <- list_elem_of_In. split.
  - intros (x & Hx & E). apply String.eqb_eq in E. by subst.
  - intros H. exists tool. by rewrite String.eqb_refl.
Qed.
Lemma existsb_not (tool : string) l : existsb (String.eqb tool) l = false -> tool ∉ l.
Proof. intros E Hin%existsb_elem. congruence. Qed.

(** *** A turn, given what its tools do *)
Section own.
Context (P : Trace (Calls J) -> Ev -> Prop) (Inv Mid : Trace (Calls J) -> Prop).
Context (emit : AgentEvent J -> Run unit) (hd : J -> Run string) (a : Agent) (route : RouteRequest).
Notation held p := (keeps P Inv p (fun _ => Inv)).
Hypothesis (HP : forall b e, neutral e -> Inv b -> P b e /\ Inv (b ++ [e])).
Hypothesis (Hemit : forall e, held (emit e)).
Hypothesis (Htool : forall tool args, keeps P Inv (run_tool a hd tool args) (fun _ => Mid)).
Hypothesis (Hresult : forall tool s, keeps P Mid (emit (ToolResult tool s)) (fun _ => Inv)).
Hypothesis (Hchat : forall b ms x, Inv b ->
  P b (event (ChatCompletion (request a ms) route) x) /\ Inv (b ++ [event (ChatCompletion (request a ms) route) x])).
Hypothesis (Husage : forall b op m u x, Inv b -> P b (event (RecordUsage op m u) x) /\ Inv (b ++ [event (RecordUsage op m u) x])).

Lemma held_calm {A} (p : Run A) : calm p -> held p.
Proof. by apply keeps_each. Qed.
Lemma held_ret {A} (x : A) : held (mret x).
Proof. by apply keeps_ret. Qed.
Lemma held_seq {A B} (p : Run A) (k : A -> Run B) : held p -> (forall x, held (k x)) -> held (p ≫= k).
Proof. apply keeps_bind. Qed.
Lemma held_ask (op : Call J) : (forall b x, Inv b -> P b (event op x) /\ Inv (b ++ [event op x])) -> held (ask (I := Calls J) op).
Proof. apply (keeps_ask (I := Calls J) op). Qed.
Ltac held_step :=
  match goal with
  | |- keeps _ _ (mret _) _ => apply held_ret
  | |- keeps _ _ (emit _) _ => apply Hemit
  | |- keeps _ _ (message _ _) _ => apply held_calm, calm_message
  | |- keeps _ _ (reminder_messages _) _ => apply held_calm, calm_reminders
  | |- keeps _ _ (bound_fresh_result _ _ _ _) _ => apply held_calm, calm_bound
  | |- keeps _ _ (ask (RecordUsage ?op ?m ?u)) _ => apply (held_ask (RecordUsage op m u)); intros ? ? ?; by apply Husage
  | |- keeps _ _ (ask _) _ => apply held_calm; calm_call
  | |- keeps _ _ (_ ≫= _) _ => apply held_seq; [|intros ?]
  end.
Lemma held_finish t answer : held (finish emit a t answer).
Proof. unfold finish. destruct (completion_reminder _ _ _); repeat held_step. Qed.
Lemma held_stop d : held (stop_runaway emit d).
Proof. unfold stop_runaway. repeat held_step. Qed.
Lemma held_tool_step t content tool args : held (tool_step emit hd a t content tool args).
Proof.
  unfold Agent.tool_step. cbv zeta. held_step; [held_step|]. eapply keeps_bind; [apply Htool|]. intros result.
  eapply keeps_bind; [apply Hresult|]. intros ?. destruct (LoopGuard.record _ _) as [g [d|]]; [apply held_stop|]. repeat held_step.
Qed.
Lemma held_iteration t : held (iteration emit hd a route t).
Proof.
  unfold Agent.iteration. do 2 (held_step; [held_step|]). cbv zeta. set (st := mkTurn _ _ _ _).
  eapply held_seq; [apply (held_ask (ChatCompletion _ route)); intros ? ? ?; by apply Hchat|]. intros [resp|e]; [|held_step].
  held_step; [held_step|]. destruct (parse_step _ _ _) as [step|]; [|apply held_finish].
  held_step; [destruct (thought step) as [th|]; [destruct (String.eqb th "")|]; held_step|].
  destruct (final_answer step); [apply held_finish|]. destruct (step_tool step) as [tool|]; [apply held_tool_step|].
  unfold incomplete_step. destruct (LoopGuard.record _ _) as [g [d|]]; [apply held_stop|]. repeat held_step.
Qed.
Lemma held_iterations n : forall t, held (iterations emit hd a route n t).
Proof.
  induction n as [|n IH]; intros t; cbn [Agent.iterations]; [repeat held_step|].
  apply held_seq; [apply held_iteration|]. intros [st|r]; [apply IH|held_step].
Qed.

Hypothesis (Hsummary : forall b i p x, Inv b -> let r := ChatCompletion (from_messages [new_message i User p]) (preferring ROUTE_TAGS) in
  P b (event r x) /\ Inv (b ++ [event r x])).
Lemma held_summarize prompt : held (pool_summarize (J := J) prompt).
Proof.
  unfold pool_summarize, message. eapply keeps_bind with (Mid := fun m b => Inv b /\ exists i, m = new_message i User prompt).
  - eapply keeps_bind with (Mid := fun _ => Inv); [held_step|]. intros i. apply keeps_ret. intros b Hb. split; [done|by exists i].
  - intros m. eapply keeps_bind with (Mid := fun _ => Inv).
    + apply (keeps_ask (I := Calls J) (ChatCompletion _ _)). intros b x [Hb [i ->]]. by apply Hsummary.
    + intros [resp|e]; repeat held_step.
Qed.
Lemma held_retry prompt source n : held (Compaction.call_with_retry (pool_summarize (J := J)) n prompt source).
Proof.
  induction n as [|n IH]; cbn [Compaction.call_with_retry]; [held_step|].
  apply held_seq; [apply held_summarize|]. intros [r|e]; [|apply IH]. destruct (_ && _); [held_step|apply IH].
Qed.
Lemma held_compact ms : held (maybe_compact (J := J) ms).
Proof.
  unfold maybe_compact. destruct (_ <=? _); [held_step|]. destruct (_ <=? _); [held_step|].
  eapply held_seq; [held_step|]. intros []; cbn [negb]; [|held_step].
  destruct (safe_compaction_tail_start _ _) as [n|]; [|held_step].
  destruct (_ <$> _) as [|m middle] eqn:E; [held_step|]. held_step.
  - unfold Compaction.compact_async_with_retain. destruct (_ <=? _); [held_step|]. cbn [negb Compaction.strategy Compaction.default_compaction].
    held_step; [|held_step]. unfold Compaction.summarize_all. held_step; [apply held_retry|held_step].
  - destruct (String.eqb _ _); repeat held_step.
Qed.
End own.

(** Whatever holds of a turn's own calls, and of those of its tools, holds of it. *)
Lemma turn_keeps P (Inv Mid : Trace (Calls J) -> Prop) emit hd a history user_message :
  (forall b e, neutral e -> Inv b -> P b e /\ Inv (b ++ [e])) ->
  (forall e, keeps P Inv (emit e) (fun _ => Inv)) ->
  (forall tool args, keeps P Inv (run_tool a hd tool args) (fun _ => Mid)) ->
  (forall tool s, keeps P Mid (emit (ToolResult tool s)) (fun _ => Inv)) ->
  (forall b ms route x, Inv b -> P b (event (ChatCompletion (request a ms) route) x) /\ Inv (b ++ [event (ChatCompletion (request a ms) route) x])) ->
  (forall b op m u x, Inv b -> P b (event (RecordUsage op m u) x) /\ Inv (b ++ [event (RecordUsage op m u) x])) ->
  (forall b i p x, Inv b -> let r := ChatCompletion (from_messages [new_message i User p]) (preferring ROUTE_TAGS) in
     P b (event r x) /\ Inv (b ++ [event r x])) ->
  keeps P Inv (turn emit hd a history user_message) (fun _ => Inv).
Proof.
  intros HP Hemit Htool Hresult Hchat Husage Hsummary. unfold Agent.turn.
  assert (Hcalm : forall A (p : Run A), calm p -> keeps P Inv p (fun _ => Inv)) by (intros A p; by apply held_calm).
  eapply keeps_bind; [apply Hemit|intros ?]. eapply keeps_bind; [apply Hcalm; calm_call|].
  intros []; cbn [negb]; [|by apply keeps_ret]. eapply keeps_bind; [apply Hcalm, calm_system_prompt|].
  intros [prompt|e]; [|by apply keeps_ret]. eapply keeps_bind; [apply Hcalm, calm_message|intros sm].
  eapply keeps_bind; [apply Hcalm, calm_message|intros um].
  eapply keeps_bind; [by apply held_compact|intros ms]. apply (held_iterations P Inv Mid); try done. intros; by apply Hchat.
Qed.

(** *** One call of a tool *)
Section acting.
Context (a : Agent) (who : option AgentDefinition) (s : Agent).
Hypothesis (Hdef : definition s = default (definition a) who) (Hproject : project s = project a).
Definition acts (b : Trace (Calls J)) : Prop := acting a b = who.
Lemma acting_snoc b e : acting a (b ++ [e]) = acting_step a (acting a b) e.
Proof. unfold acting. by rewrite foldl_app. Qed.
Lemma acts_same b e : (forall w, acting_step a w e = w) -> acts b -> acts (b ++ [e]).
Proof. intros He Hb. unfold acts. by rewrite acting_snoc, He. Qed.
Lemma neutral_gated b e : neutral e -> acts b -> gated a b e /\ acts (b ++ [e]).
Proof. intros He Hb. split; [|apply acts_same; [intros w|done]]; unfold neutral, gated in *; by destruct e as [[] x]. Qed.
Lemma in_force_acts b : acts b -> in_force a b = definition s.
Proof. unfold in_force, acts. by intros ->. Qed.
Lemma run_tool_gated hd tool args (Mid : Trace (Calls J) -> Prop) : (forall b, acts b -> Mid b) ->
  (DELEGATE_TOOL ∈ allowed_tools (definition s) ->
     keeps (gated a) (fun b => acts b /\ approved (definition s) DELEGATE_TOOL b) (hd args) (fun _ => Mid)) ->
  keeps (gated a) acts (run_tool s hd tool args) (fun _ => Mid).
Proof.
  intros HMid Hhd. unfold Agent.run_tool. set (d := definition s) in *.
  eapply keeps_bind with (Mid := fun ok b => acts b /\ (ok = true -> approved d tool b)).
  { case_bool_decide as Hm.
    - apply (keeps_ask (I := Calls J) (ApproveTool tool (def_name d))). intros b x Hb. split; [|split; [by apply acts_same|]].
      + unfold gated. cbn. by rewrite in_force_acts.
      + intros ->. intros _. by rewrite last_snoc.
    - apply keeps_ret. intros b Hb. split; [done|]. by intros _ ?. }
  assert (Hret : forall ok r, keeps (gated a) (fun b => acts b /\ (ok = true -> approved d tool b)) (mret r : Run string) (fun _ => Mid)).
  { intros ok r. apply keeps_ret. intros b [Hb _]. by apply HMid. }
  assert (Hend : forall (r : string), keeps (gated a) acts (mret r : Run string) (fun _ => Mid)) by (intros r; by apply keeps_ret).
  intros ok. destruct ok; cbn [negb]; [|apply Hret].
  destruct (String.eqb tool DELEGATE_TOOL) eqn:Ed.
  { apply String.eqb_eq in Ed as ->. unfold permitted. destruct (existsb _ _) eqn:Ep; [|apply Hret]. eapply keeps_weaken; [apply Hhd; by apply existsb_elem| |done].
    intros b [Hb Ha]. split; [done|by apply Ha]. }
  apply String.eqb_neq in Ed. destruct (existsb _ INSPECTION_TOOLS) eqn:Ei.
  { destruct (project s ≫= to_str) as [wd|] eqn:Ew; [|apply Hret]. eapply keeps_bind; [|intros r; apply Hend].
    apply (keeps_ask (I := Calls J) (Inspect wd tool args)). intros b x [Hb Ha]. split; [|by apply acts_same].
    unfold gated. cbn. rewrite in_force_acts, <- Hproject by done. split; [done|]. split; [by apply existsb_elem|by apply Ha]. }
  unfold permitted. destruct (existsb _ (allowed_tools d)) eqn:Ep; cbn [negb]; [|apply Hret].
  destruct (validate_tool_args _ _ _) as [[]|] eqn:Ev'; [|apply Hret].
  destruct (project s) as [p|] eqn:Epr; [|apply Hret]. eapply keeps_bind; [|intros r; apply Hend].
  apply (keeps_ask (I := Calls J) (DispatchTool p tool args)). intros b x [Hb Ha]. split; [|by apply acts_same].
  unfold gated. cbn. rewrite in_force_acts, <- Hproject by done. split_and!; try done; [by apply existsb_elem|by apply existsb_not|by apply Ha].
Qed.
(** A turn of whoever acts. *)
Lemma turn_gated emit hd (Mid : Trace (Calls J) -> Prop) history user_message : (forall b, acts b -> Mid b) ->
  (forall e, keeps (gated a) acts (emit e) (fun _ => acts)) ->
  (forall tool r, keeps (gated a) Mid (emit (ToolResult tool r)) (fun _ => acts)) ->
  (forall args, DELEGATE_TOOL ∈ allowed_tools (definition s) ->
     keeps (gated a) (fun b => acts b /\ approved (definition s) DELEGATE_TOOL b) (hd args) (fun _ => Mid)) ->
  keeps (gated a) acts (turn emit hd s history user_message) (fun _ => acts).
Proof.
  intros HMid Hemit Hresult Hhd. apply turn_keeps with (Mid := Mid); [apply neutral_gated|done| |done|..];
    try (intros; split; [done|by apply acts_same]).
  intros tool args. apply run_tool_gated; [done|]. apply Hhd.
Qed.
End acting.

(** A specialist cannot delegate, and nobody watches it. *)
Lemma specialist_gated a d s fuel task : definition s = d -> project s = project a -> MAX_DELEGATION_DEPTH <= delegation_depth s ->
  keeps (gated a) (acts a (Some d)) (run_turn fuel null_sink s [] task) (fun _ => acts a (Some d)).
Proof.
  intros Hd Hp Hdepth. destruct fuel as [|fuel]; cbn [Agent.run_turn]; [by apply keeps_ret|].
  apply turn_gated with (Mid := acts a (Some d)); [done|done|done|intros; by apply keeps_ret|intros; by apply keeps_ret|].
  intros args _. unfold delegate. replace (MAX_DELEGATION_DEPTH <=? delegation_depth s) with true by lia.
  apply keeps_ret. by intros b [Hb _].
Qed.
Lemma run_turn_gated fuel a history user_message : 0 <= delegation_depth a ->
  keeps (gated a) (acts a None) (run_turn fuel live_sink a history user_message) (fun _ => acts a None).
Proof.
  intros Hdepth. destruct fuel as [|fuel]; cbn [Agent.run_turn]; [by apply keeps_ret|].
  apply turn_gated with (Mid := fun _ => True); [done|done|done| | |].
  - intros e. apply (keeps_ask (I := Calls J) (Emit e)). intros b x Hb. split; [done|]. unfold acts in *. rewrite acting_snoc, Hb. by destruct e.
  - intros tool r. apply (keeps_ask (I := Calls J) (Emit (ToolResult tool r))). intros b x _. split; [done|]. unfold acts. by rewrite acting_snoc.
  - intros args Hperm. unfold delegate.
    assert (Hret : forall (Pre : Trace (Calls J) -> Prop) (r : string), keeps (gated a) Pre (mret r : Run string) (fun _ _ => True)) by (intros; by apply keeps_ret).
    destruct (_ <=? _) eqn:Emax; [apply Hret|]. destruct (_ ≫= _) as [agent_id|]; [|apply Hret]. destruct (_ ≫= _) as [task|]; [|apply Hret].
    eapply keeps_bind with (Mid := fun found b => match found with Some d => String.eqb (def_id d) (def_id (definition a)) = false -> acts a (Some d) b | None => True end).
    { apply (keeps_ask (I := Calls J) (LoadAgent agent_id)). intros b x [Hb Ha]. split.
      - unfold gated. cbn. rewrite (in_force_acts a None a eq_refl b Hb). split_and!; [done|lia|done|done].
      - destruct x as [d|]; [|done]. intros He. unfold acts. rewrite acting_snoc. cbn. by rewrite He. }
    intros [d|]; [|apply Hret]. destruct (String.eqb _ _) eqn:He; [apply Hret|]. eapply keeps_bind; [|intros r; apply Hret].
    eapply keeps_weaken; [apply (specialist_gated a d); [done|done|cbn; unfold MAX_DELEGATION_DEPTH; lia]| |done]. intros b Hb. by apply Hb.
Qed.

(** C33: however the model, the tools and the operator answer, whoever acts in a turn,
    the agent that drives it or the one specialist it has started and whose result it
    has not shown yet, is held to that one's own definition.  A tool is dispatched
    only to the driving agent's project, with arguments that fit the tool's schema,
    and when the acting agent's allow-list names it.  The four read-only inspection
    tools, and no others, are exempt from the allow-list and the schemas here, and are
    given the driving agent's project as the directory they work in.  A specialist is
    asked for only by the driving agent, when its allow-list names delegation and it
    is not itself delegated to.  And when the agent acting is manual, the call right
    before each of these was the operator's approval of this very tool for this very
    agent. *)
Theorem tools_gated (fuel : nat) (a : Agent) (history : list Message) (user_message : string)
    (t1 t2 : Trace (Calls J)) (e : Ev) (r : Result ClassifiedError string) :
  0 <= delegation_depth a ->
  runs (run_turn fuel live_sink a history user_message) (t1 ++ e :: t2) r -> gated a t1 e.
Proof.
  intros Hdepth Hr. destruct (run_turn_gated fuel a history user_message Hdepth [] eq_refl) as [Ha _]. exact (Ha _ _ Hr t1 e t2 eq_refl).
Qed.

(** ** What is sent to a model *)
(** No tool role, since the protocol is plain text; the conversation in it opens with
    a user; and a step of the agent fits the budget, or is the system messages alone. *)
Definition fits (r : ChatRequest) : Prop :=
  Forall (fun m => role m <> Tool) (request_messages r) /\
  opens_with_user (conversation (request_messages r)) /\
  (request_tool_calling r = PromptBased ->
     total_tokens (request_messages r) <= Z.max DEFAULT_BUDGET_TOKENS (total_tokens (systems (request_messages r)))).
Definition request_fits (e : Ev) : Prop := match asked e with ChatCompletion r _ => fits r | _ => True end.

Lemma as_user_role m : role (as_user m) = match role m with Tool => User | r => r end.
Proof. unfold as_user, is_role. case_bool_decide as E; [by rewrite E|]. by destruct (role m). Qed.
Lemma as_user_content m : content (as_user m) = content m.
Proof. unfold as_user. by case_match. Qed.
Lemma as_user_total l : total_tokens (as_user <$> l) = total_tokens l.
Proof. induction l as [|m l IH]; [done|]. rewrite fmap_cons, !total_tokens_cons, IH, as_user_content. done. Qed.
Lemma as_user_systems l : systems (as_user <$> l) = systems l.
Proof.
  induction l as [|m l IH]; [done|]. rewrite fmap_cons, !systems_cons, IH. unfold is_role. rewrite as_user_role.
  destruct (role m) eqn:E; try done. repeat case_bool_decide; try done. unfold as_user, is_role. by rewrite E.
Qed.
Lemma as_user_opens l : opens_with_user (conversation l) -> opens_with_user (conversation (as_user <$> l)).
Proof.
  induction l as [|m l IH]; [done|]. rewrite fmap_cons, !conversation_cons. unfold is_role. rewrite as_user_role.
  destruct (role m) eqn:E; repeat case_bool_decide; try done; cbn [opens_with_user]; rewrite ?as_user_role, ?E; by try apply IH.
Qed.
Lemma request_of_fits a ms : fits (request a ms).
Proof.
  unfold request, fits. cbn [request_messages request_tool_calling].
  destruct (assemble_spec ms DEFAULT_BUDGET_TOKENS) as (_ & Hs & Ht & k & Hc & [Ho _] & _). split; [|split].
  - apply Forall_fmap, Forall_true. intros m. cbn. rewrite as_user_role. by destruct (role m).
  - apply as_user_opens. by rewrite Hc.
  - intros _. rewrite as_user_total, as_user_systems, Hs. done.
Qed.
Lemma summary_fits i p : fits (from_messages [new_message i User p]).
Proof. split; [repeat constructor; by cbn|]. by split. Qed.

Lemma run_tool_keeps (P : Ev -> Prop) hd a tool args :
  (forall e : Ev, match asked e with ChatCompletion _ _ | RecordUsage _ _ _ | LoadAgent _ => False | _ => True end -> P e) ->
  keeps (fun _ => P) (fun _ => True) (hd args) (fun _ _ => True) -> keeps (fun _ => P) (fun _ => True) (run_tool a hd tool args) (fun _ _ => True).
Proof.
  intros HP Hhd. assert (Hret : forall A (x : A), keeps (fun _ => P) (fun _ => True) (mret x : Run A) (fun _ _ => True)) by (intros; by apply keeps_ret).
  assert (Hask : forall op, match op with ChatCompletion _ _ | RecordUsage _ _ _ | LoadAgent _ => False | _ => True end ->
    keeps (fun _ => P) (fun _ => True) (ask (I := Calls J) op) (fun _ _ => True)).
  { intros op Hop. apply (keeps_ask (I := Calls J) op). intros b x _. split; [by apply HP|done]. }
  unfold Agent.run_tool. eapply keeps_bind with (Mid := fun _ _ => True).
  { case_bool_decide; [|apply Hret]. by apply (Hask (ApproveTool _ _)). }
  intros []; cbn [negb]; [|apply Hret]. destruct (String.eqb _ _); [destruct (permitted _ _); [apply Hhd|apply Hret]|].
  destruct (existsb _ _); [destruct (_ ≫= _); [|apply Hret]|destruct (permitted _ _); cbn [negb]; [|apply Hret]].
  - eapply keeps_bind; [|intros r; apply Hret]. by apply (Hask (Inspect _ _ _)).
  - destruct (validate_tool_args _ _ _); [|apply Hret]. destruct (project a); [|apply Hret].
    eapply keeps_bind; [|intros r; apply Hret]. by apply (Hask (DispatchTool _ _ _)).
Qed.
Lemma run_turn_requests fuel : forall emit a history user_message,
  (forall e, keeps (fun _ => request_fits) (fun _ => True) (emit e) (fun _ _ => True)) ->
  keeps (fun _ => request_fits) (fun _ => True) (run_turn fuel emit a history user_message) (fun _ _ => True).
Proof.
  induction fuel as [|fuel IH]; intros emit a history user_message Hemit; [by apply keeps_ret|]. cbn [Agent.run_turn].
  apply turn_keeps with (Mid := fun _ => True); try done.
  - intros _ e He _. split; [|done]. unfold neutral, request_fits in *. by destruct (asked e).
  - intros tool args. apply run_tool_keeps; [intros e; unfold request_fits; by destruct (asked e)|].
    assert (Hret : forall (r : string), keeps (fun _ => request_fits) (fun _ => True) (mret r : Run string) (fun _ _ => True)) by (intros; by apply keeps_ret).
    unfold delegate. destruct (_ <=? _); [apply Hret|]. destruct (_ ≫= _); [|apply Hret]. destruct (_ ≫= _); [|apply Hret].
    eapply keeps_bind with (Mid := fun _ _ => True); [by apply (keeps_ask (I := Calls J) (LoadAgent _))|].
    intros [d|]; [|apply Hret]. destruct (String.eqb _ _); [apply Hret|].
    eapply keeps_bind; [apply IH|intros r; apply Hret]. intros e. by apply keeps_ret.
  - intros b ms route x _. split; [apply request_of_fits|done].
  - intros b i p x _. split; [apply summary_fits|done].
Qed.

(** Every request a turn sends, or a specialist's turn within it, or the
    summarising of old messages, has no message in the tool role and a conversation
    that opens with a user's message; a step's request is within the 96000 tokens
    kept for it, unless the system messages alone are not. *)
Theorem requests_fit (fuel : nat) (a : Agent) (history : list Message) (user_message : string)
    (t : Trace (Calls J)) (result : Result ClassifiedError string) (r : ChatRequest) (route : RouteRequest) answer :
  runs (run_turn fuel live_sink a history user_message) t result -> event (ChatCompletion r route) answer ∈ t -> fits r.
Proof.
  intros Hr [i Hi]%list_elem_of_lookup. destruct (run_turn_requests fuel live_sink a history user_message) with (before := @nil Ev) as [Ha _]; [|done|].
  { intros e. by apply (keeps_ask (I := Calls J) (Emit e)). }
  exact (Ha _ _ Hr _ _ _ (eq_sym (take_drop_middle t i _ Hi))).
Qed.

(** ** What a turn spends *)
(** An answer of a model is recorded by the very next call, with its model and usage. *)
Definition recorded (e : Ev) (next : option Ev) : Prop :=
  match e with
  | mkEvent op x =>
      match op as o return Answer o -> Prop with
      | ChatCompletion _ _ => fun x =>
          match x with
          | Ok resp => exists operation, next = Some (event (RecordUsage operation (response_model resp) (usage resp)) tt)
          | Err _ => True
          end
      | _ => fun _ => True
      end x
  end.
Definition billed (t : Trace (Calls J)) : Prop := forall t1 e t2, t = t1 ++ e :: t2 -> recorded e (head t2).
Definition is_chat (e : Ev) : bool := match asked e with ChatCompletion _ _ => true | _ => false end.
Definition chats (t : Trace (Calls J)) : Z := zlen (filter is_chat t).
(** Model calls a specialist may make: a summary's, and one per iteration. *)
Definition allowance (a : Agent) : Z := Compaction.max_retries Compaction.default_compaction + agent_max_iterations a.
Definition granted (e : Ev) : Z :=
  match e with
  | mkEvent op x =>
      match op as o return Answer o -> Z with
      | LoadAgent _ => fun d => match d with Some d => allowance (with_definition None d) | None => 0 end
      | _ => fun _ => 0
      end x
  end.
Definition granted_sum (t : Trace (Calls J)) : Z := foldr Z.add 0 (granted <$> t).

Lemma recorded_none e : recorded e None -> forall o, recorded e o.
Proof. destruct e as [[] x]; try done. destruct x; [by intros []|done]. Qed.
Lemma billed_nil : billed [].
Proof. intros t1 e t2 E. by destruct t1. Qed.
Lemma billed_app u v : billed u -> billed v -> billed (u ++ v).
Proof.
  intros Hu Hv t1 e t2 E. symmetry in E. apply app_eq_app in E as [w [[-> E]|[-> E]]].
  - by apply (Hv w e t2).
  - destruct w as [|x w]; cbn in E; simplify_eq.
    + by apply (Hv [] e t2).
    + specialize (Hu t1 x w eq_refl). destruct w; [by apply recorded_none|done].
Qed.
Lemma billed_cons e t : recorded e (head t) -> billed t -> billed (e :: t).
Proof. intros He Ht t1 e' t2 E. destruct t1 as [|x t1]; cbn in E; injection E as -> E; [by subst|by apply (Ht t1 e' t2)]. Qed.
Lemma chats_app u v : chats (u ++ v) = chats u + chats v.
Proof. unfold chats. by rewrite list.filter_app, zlen_app. Qed.
Lemma granted_app u v : granted_sum (u ++ v) = granted_sum u + granted_sum v.
Proof. unfold granted_sum. induction u as [|e u IH]; [done|]. cbn [app fmap list_fmap foldr] in *. lia. Qed.
Lemma granted_nonneg t : 0 <= granted_sum t.
Proof.
  unfold granted_sum. induction t as [|e t IH]; [done|]. cbn [fmap list_fmap foldr] in *.
  assert (0 <= granted e); [|lia]. destruct e as [[] x]; try done. cbn. destruct x; [|done]. unfold allowance. cbn. lia.
Qed.

(** [p] calls a model at most [n] times, specialists' calls apart. *)
Definition spends {A} (p : Run A) (n : Z) : Prop := ensures p (fun t _ => billed t /\ chats t <= n + granted_sum t).
Lemma spends_mono {A} (p : Run A) n m : spends p n -> n <= m -> spends p m.
Proof. intros H Hn. eapply ensures_mono; [exact H|]. intros t r [Hb Hc]. split; [done|lia]. Qed.
Lemma spends_ret {A} (x : A) n : 0 <= n -> spends (mret x) n.
Proof. intros Hn. apply ensures_ret. split; [apply billed_nil|change (0 <= n + 0); lia]. Qed.
Lemma spends_bind {A B} (p : Run A) (k : A -> Run B) n m : spends p n -> (forall x, spends (k x) m) -> spends (p ≫= k) (n + m).
Proof.
  intros Hp Hk. apply ensures_bind. eapply ensures_mono; [exact Hp|]. intros t x [Hb Hc].
  eapply ensures_mono; [apply Hk|]. intros t' y [Hb' Hc']. rewrite chats_app, granted_app. split; [by apply billed_app|lia].
Qed.
Lemma spends_seq {A B} (p : Run A) (k : A -> Run B) n : spends p 0 -> (forall x, spends (k x) n) -> spends (p ≫= k) n.
Proof. intros Hp Hk. rewrite <- (Z.add_0_l n). by apply spends_bind. Qed.
Lemma spends_calm {A} (p : Run A) : calm p -> spends p 0.
Proof.
  intros Hp. eapply ensures_mono; [exact Hp|]. intros t r Ht. cbn in Ht. split.
  - intros t1 e t2 ->. apply Forall_app in Ht as [_ Ht]. inversion Ht as [|? ? He _]; subst. by destruct e as [[] x].
  - assert (chats t = 0) as ->; [|apply granted_nonneg]. unfold chats. induction Ht as [|e t He Ht IH]; [done|].
    rewrite filter_cons_False; [exact IH|]. unfold neutral, is_chat in *. destruct (asked e); cbn in *; tauto.
Qed.
Lemma spends_call (op : Call J) :
  match op with ChatCompletion _ _ => False | _ => True end -> spends (ask (I := Calls J) op) 0.
Proof.
  intros Hop. apply (ensures_ask (I := Calls J) op). intros x. split.
  - apply billed_cons; [by destruct op|apply billed_nil].
  - assert (chats [event op x] = 0) as ->; [by destruct op|apply granted_nonneg].
Qed.
(** A call to a model, and the record of it. *)
Lemma spends_chat {A} r route operation (kerr : ProviderError -> Run A) (kok : ChatResponse -> Run A) n :
  (forall e, spends (kerr e) n) -> (forall resp, spends (kok resp) n) ->
  spends (x ← ask (I := Calls J) (ChatCompletion r route);
          match (x : Result ProviderError ChatResponse) with
          | Err e => kerr e
          | Ok resp => ask (I := Calls J) (RecordUsage operation (response_model resp) (usage resp)) ;; kok resp
          end) (1 + n).
Proof.
  intros He Hok. apply ensures_bind. apply (ensures_ask (I := Calls J) (ChatCompletion r route)). intros [resp|e].
  - apply ensures_bind. apply (ensures_ask (I := Calls J) (RecordUsage operation (response_model resp) (usage resp))). intros [].
    eapply ensures_mono; [apply Hok|]. intros t x [Hb Hc].
    set (u := [event (ChatCompletion r route) (Ok resp); event (RecordUsage operation (response_model resp) (usage resp)) tt]).
    change (billed (u ++ t) /\ chats (u ++ t) <= 1 + n + granted_sum (u ++ t)). rewrite chats_app, granted_app.
    change (chats u) with 1. change (granted_sum u) with 0. split; [|lia].
    apply billed_cons; [by exists operation|by apply billed_cons].
  - eapply ensures_mono; [apply He|]. intros t x [Hb Hc].
    set (u := [event (ChatCompletion r route) (Err e)]).
    change (billed (u ++ t) /\ chats (u ++ t) <= 1 + n + granted_sum (u ++ t)). rewrite chats_app, granted_app.
    change (chats u) with 1. change (granted_sum u) with 0. split; [by apply billed_cons|lia].
Qed.

Ltac spends_ask := match goal with |- spends (ask ?op) _ => apply (spends_call op); exact I end.
Lemma spends_summarize prompt : spends (pool_summarize (J := J) prompt) 1.
Proof.
  unfold pool_summarize. apply spends_seq; [apply spends_calm, calm_message|]. intros m.
  apply (spends_chat _ _ _ _ _ 0); intros; by apply spends_ret.
Qed.
Lemma spends_retry prompt source n : spends (Compaction.call_with_retry (pool_summarize (J := J)) n prompt source) (Z.of_nat n).
Proof.
  induction n as [|n IH]; cbn [Compaction.call_with_retry]; [by apply spends_ret|].
  apply (spends_mono _ (1 + Z.of_nat n)); [|lia]. apply spends_bind; [apply spends_summarize|].
  intros [s|e]; [|exact IH]. destruct (_ && _); [apply spends_ret; lia|exact IH].
Qed.
Lemma spends_compact ms : spends (maybe_compact (J := J) ms) 3.
Proof.
  unfold maybe_compact. destruct (_ <=? _); [by apply spends_ret|]. destruct (_ <=? _); [by apply spends_ret|].
  apply spends_seq; [spends_ask|]. intros []; cbn [negb]; [|by apply spends_ret].
  destruct (safe_compaction_tail_start _ _) as [n|]; [|by apply spends_ret].
  destruct (_ <$> _) as [|m middle]; [by apply spends_ret|].
  apply (spends_mono _ (3 + 0)); [|done]. apply spends_bind.
  - unfold Compaction.compact_async_with_retain. destruct (_ <=? _); [by apply spends_ret|]. cbn [negb Compaction.strategy Compaction.default_compaction].
    apply (spends_mono _ (3 + 0)); [|done]. apply spends_bind; [|intros; by apply spends_ret]. unfold Compaction.summarize_all.
    apply (spends_mono _ (3 + 0)); [|done]. apply spends_bind; [apply (spends_retry _ _ 3)|intros; by apply spends_ret].
  - intros r. destruct (String.eqb _ _); [by apply spends_ret|].
    apply spends_seq; [apply spends_calm, calm_message|intros; by apply spends_ret].
Qed.
Section spending.
Context (emit : AgentEvent J -> Run unit) (Hemit : forall e, spends (emit e) 0).
Context (hd : J -> Run string) (Hhd : forall args, spends (hd args) 0) (a : Agent).
Lemma spends_tool tool args : spends (run_tool a hd tool args) 0.
Proof.
  unfold Agent.run_tool. apply spends_seq; [case_bool_decide; [spends_ask|by apply spends_ret]|].
  intros []; cbn [negb]; [|by apply spends_ret].
  destruct (String.eqb _ _); [destruct (permitted _ _); [apply Hhd|by apply spends_ret]|].
  destruct (existsb _ _); [destruct (_ ≫= _); [|by apply spends_ret]|destruct (permitted _ _); cbn [negb]; [|by apply spends_ret]].
  - apply spends_seq; [spends_ask|intros; by apply spends_ret].
  - destruct (validate_tool_args _ _ _); [|by apply spends_ret]. destruct (project a); [|by apply spends_ret].
    apply spends_seq; [spends_ask|intros; by apply spends_ret].
Qed.
Lemma spends_finish t answer : spends (finish emit a t answer) 0.
Proof.
  unfold finish. destruct (completion_reminder _ _ _).
  - apply spends_seq; [apply spends_calm, calm_message|intros]. apply spends_seq; [apply spends_calm, calm_reminders|intros; by apply spends_ret].
  - apply spends_seq; [apply Hemit|intros; by apply spends_ret].
Qed.
Lemma spends_stop d : spends (stop_runaway emit d) 0.
Proof. unfold stop_runaway. apply spends_seq; [apply Hemit|intros; by apply spends_ret]. Qed.
Lemma spends_iteration route t : spends (iteration emit hd a route t) 1.
Proof.
  unfold Agent.iteration. apply spends_seq; [spends_ask|intros l].
  apply spends_seq; [apply spends_calm, calm_reminders|intros rs]. cbv zeta. set (st := mkTurn _ _ _ _).
  apply (spends_chat _ _ _ _ _ 0); intros; [by apply spends_ret|].
  destruct (parse_step _ _ _) as [step|]; [|apply spends_finish].
  apply spends_seq; [|intros []].
  { destruct (thought step) as [th|]; [destruct (String.eqb th "")|]; try by apply spends_ret. apply Hemit. }
  destruct (final_answer step); [apply spends_finish|]. destruct (step_tool step) as [tool|].
  - unfold Agent.tool_step. cbv zeta. apply spends_seq; [apply Hemit|intros]. apply spends_seq; [apply spends_tool|intros].
    apply spends_seq; [apply Hemit|intros]. destruct (LoopGuard.record _ _) as [g [d|]]; [apply spends_stop|].
    apply spends_seq; [spends_ask|intros]. apply spends_seq; [apply spends_calm, calm_bound|intros].
    apply spends_seq; [apply spends_calm, calm_message|intros]. apply spends_seq; [apply spends_calm, calm_message|intros; by apply spends_ret].
  - unfold incomplete_step. destruct (LoopGuard.record _ _) as [g [d|]]; [apply spends_stop|].
    apply spends_seq; [apply spends_calm, calm_message|intros]. apply spends_seq; [apply spends_calm, calm_message|intros; by apply spends_ret].
Qed.
Lemma spends_iterations route n : forall t, spends (iterations emit hd a route n t) (Z.of_nat n).
Proof.
  induction n as [|n IH]; intros t; cbn [Agent.iterations].
  - apply spends_seq; [apply Hemit|intros; by apply spends_ret].
  - apply (spends_mono _ (1 + Z.of_nat n)); [|lia]. apply spends_bind; [apply spends_iteration|].
    intros [t'|r]; [apply IH|apply spends_ret; lia].
Qed.
Lemma spends_turn history user_message : 0 <= agent_max_iterations a -> spends (turn emit hd a history user_message) (allowance a).
Proof.
  intros Hmax. unfold allowance. cbn [Compaction.max_retries Compaction.default_compaction].
  unfold Agent.turn. apply spends_seq; [apply Hemit|intros []]. apply spends_seq; [spends_ask|].
  intros []; cbn [negb]; [|apply spends_ret; lia]. apply spends_seq; [apply spends_calm, calm_system_prompt|].
  intros [prompt|e]; [|apply spends_ret; lia]. apply spends_seq; [apply spends_calm, calm_message|intros sm].
  apply spends_seq; [apply spends_calm, calm_message|intros um].
  apply spends_bind; [apply spends_compact|intros ms]. eapply spends_mono; [apply spends_iterations|lia].
Qed.
End spending.
Lemma spends_run_turn fuel : forall emit a history user_message,
  (forall e, spends (emit e) 0) -> 0 <= agent_max_iterations a -> spends (run_turn fuel emit a history user_message) (allowance a).
Proof.
  induction fuel as [|fuel IH]; intros emit a history user_message Hemit Hmax; cbn [Agent.run_turn].
  { apply spends_ret. unfold allowance. cbn. lia. }
  apply spends_turn; try done. intros args. unfold delegate. destruct (_ <=? _); [by apply spends_ret|].
  destruct (_ ≫= _) as [i|]; [|by apply spends_ret]. destruct (_ ≫= _) as [task|]; [|by apply spends_ret].
  apply ensures_bind. apply (ensures_ask (I := Calls J) (LoadAgent i)). intros [d|]; cycle 1.
  { apply ensures_ret. split; [by apply billed_cons; [|apply billed_nil]|done]. }
  set (e := event (LoadAgent i) (Some d)).
  assert (Hsub : spends (if String.eqb (def_id d) (def_id (definition a)) then mret (error_json "cannot delegate to self") else
      r ← run_turn fuel null_sink (at_delegation_depth (delegation_depth a + 1) (with_definition (project a) d)) [] task;
      mret (match r with Ok answer => answer | Err e => error_json ("delegated agent '" +:+ i +:+ "' failed: " +:+ display_classified e) end))
      (granted e)).
  { assert (0 <= granted e) by (cbn; unfold allowance; cbn; lia).
    destruct (String.eqb _ _); [by apply spends_ret|]. rewrite <- (Z.add_0_r (granted e)).
    apply spends_bind; [|intros; by apply spends_ret]. apply (IH null_sink); [intros; by apply spends_ret|cbn; lia]. }
  eapply ensures_mono; [exact Hsub|]. intros t r [Hb Hc].
  change (billed ([e] ++ t) /\ chats ([e] ++ t) <= 0 + granted_sum ([e] ++ t)). rewrite chats_app, granted_app.
  change (chats [e]) with 0. change (granted_sum [e]) with (granted e + 0). split; [by apply billed_cons|lia].
Qed.

(** C34: a turn asks a model at most once per iteration and three times for a summary,
    and each specialist it was given adds as much for its own turn; and whatever a
    model answers is recorded, with the model and usage it reports, before anything
    else happens. *)
Theorem spending_bounded (fuel : nat) (a : Agent) (history : list Message) (user_message : string)
    (t : Trace (Calls J)) (result : Result ClassifiedError string) :
  0 <= agent_max_iterations a ->
  runs (run_turn fuel live_sink a history user_message) t result ->
  chats t <= 3 + agent_max_iterations a + granted_sum t /\ billed t.
Proof.
  intros Hmax Hr. assert (Hl : forall e, spends (live_sink e) 0) by (intros e; apply (spends_call (Emit e)); exact I).
  destruct (spends_run_turn fuel live_sink a history user_message Hl Hmax _ _ Hr) as [Hb Hc]. by split.
Qed.

(** ** How a turn ends *)
Definition called (tool : string) (t : Trace (Calls J)) : Prop := exists args, event (Emit (ToolCall tool args)) tt ∈ t.
Definition outcome (a : Agent) (t : Trace (Calls J)) (r : Result ClassifiedError string) : Prop :=
  match r with
  | Ok s =>
      list.last t = Some (event (Emit (Error s)) tt) \/
      list.last t = Some (event (Emit (Complete s)) tt) /\
      (s = exhausted \/ forall q, completion_requirement (definition a) = Some q -> called (requirement_tool q) t \/ 3 <= chats t)
  | Err e =>
      list.last t = Some (event ProviderPool false) /\ e = Errors.Provider no_provider \/
      (exists registry n, list.last t = Some (event LoadSkills registry) /\ n ∈ def_skills (definition a) /\ registry !! n = None /\
         e = Validation ("agent references an unknown skill: " +:+ Prompt.display_skill_error (Prompt.NotFound n))) \/
      exists request route pe, list.last t = Some (event (ChatCompletion request route) (Err pe)) /\ e = from_provider_error pe
  end.
(** What the loop remembers is true of the trace; [n] answers are still unused. *)
Definition remembers (a : Agent) (t : Trace (Calls J)) (st : Turn) (n : Z) : Prop :=
  (forall q, completion_requirement (definition a) = Some q -> required_tool_called st = true -> called (requirement_tool q) t) /\
  completion_recoveries st + n <= chats t.
Lemma chats_nonneg t : 0 <= chats t.
Proof. unfold chats, zlen. lia. Qed.
Lemma called_app tool t u : called tool t -> called tool (t ++ u).
Proof. intros [args H]. exists args. apply elem_of_app. by left. Qed.
Lemma remembers_app a t u st n : remembers a t st n -> remembers a (t ++ u) st n.
Proof.
  intros [H1 H2]. split; [intros q Hq Hr; by apply called_app, H1|]. rewrite chats_app. pose proof (chats_nonneg u). lia.
Qed.
Lemma completion_reminder_None q called n :
  completion_reminder q called n = None -> q = None \/ called = true \/ 2 <= n.
Proof.
  unfold completion_reminder, MAX_COMPLETION_RECOVERIES. destruct q as [q|]; [|by left]. cbn.
  destruct called; [right; by left|]. cbn. destruct (n <? 2) eqn:E; [done|]. right; right. lia.
Qed.

Section outcome.
Context (hd : J -> Run string) (a : Agent).
Definition goes_on (t : Trace (Calls J)) (o : Outcome) : Prop :=
  match o with Continue st => remembers a t st 0 | Return r => outcome a t r end.
Ltac step_ask := match goal with |- after (ask ?op) _ _ => apply (after_ask (I := Calls J) op) end.
Lemma finish_goes b st answer : remembers a b st 1 -> after (finish live_sink a st answer) goes_on b.
Proof.
  intros [Hq Hn]. unfold finish. destruct (completion_reminder _ _ _) as [reminder|] eqn:E.
  - apply after_bind, after_any. intros t m. apply after_bind, after_any. intros t' ms. apply after_ret.
    do 2 apply remembers_app. split; [exact Hq|]. cbn [completion_recoveries]. lia.
  - apply after_bind. unfold live_sink. step_ask. intros []. apply after_ret. right. split; [by rewrite last_snoc|]. right.
    intros q Eq. apply completion_reminder_None in E. destruct E as [E|[E|E]]; [congruence|left; by apply called_app, Hq|].
    right. rewrite chats_app. pose proof (chats_nonneg [event (Emit (Complete answer)) tt]). lia.
Qed.
Lemma stop_goes b d : after (stop_runaway live_sink d) goes_on b.
Proof. unfold stop_runaway. apply after_bind. unfold live_sink. step_ask. intros []. apply after_ret. left. by rewrite last_snoc. Qed.
Lemma iteration_goes b st route : remembers a b st 0 -> after (iteration live_sink hd a route st) goes_on b.
Proof.
  intros Hst. unfold Agent.iteration. apply after_bind, after_any. intros t1 l. apply after_bind, after_any. intros t2 rs.
  cbv zeta. set (st' := mkTurn _ _ _ _).
  assert (Hst' : remembers a ((b ++ t1) ++ t2) st' 0) by (do 2 apply remembers_app; exact Hst). clearbody st'.
  set (b' := (b ++ t1) ++ t2) in *. clearbody b'. apply after_bind. step_ask. intros [resp|e]; cycle 1.
  { apply after_ret. right. right. eexists _, _, e. by rewrite last_snoc. }
  assert (H1 : remembers a (b' ++ [event (ChatCompletion (request a (prune_tool_results_by_age (messages st ++ rs))) route) (Ok resp)]) st' 1).
  { destruct Hst' as [Hq Hn]. split; [intros q Eq Hr; by apply called_app, Hq|]. rewrite chats_app. change (chats [event (ChatCompletion ?r _) _]) with 1. lia. }
  set (b1 := b' ++ _) in *. clearbody b1. apply after_bind, after_any. intros t3 [].
  apply (remembers_app _ _ t3) in H1. set (b2 := b1 ++ t3) in *. clearbody b2.
  destruct (parse_step _ _ _) as [step|]; [|by apply finish_goes].
  apply after_bind, after_any. intros t4 []. apply (remembers_app _ _ t4) in H1. set (b3 := b2 ++ t4) in *. clearbody b3.
  destruct (final_answer step); [by apply finish_goes|].
  assert (H0 : remembers a b3 st' 0) by (destruct H1; split; [done|lia]). clear H1.
  destruct (step_tool step) as [tool|].
  - unfold Agent.tool_step. cbv zeta. apply after_bind. unfold live_sink at 1. step_ask. intros [].
    set (args := default json_null (step_args step)).
    assert (Hc : called tool (b3 ++ [event (Emit (ToolCall tool args)) tt])) by (exists args; apply elem_of_app; right; left).
    apply (remembers_app _ _ [event (Emit (ToolCall tool args)) tt]) in H0. set (b4 := b3 ++ _) in *. clearbody b4.
    apply after_bind, after_any. intros t5 result. apply after_bind, after_any. intros t6 [].
    destruct (LoopGuard.record _ _) as [g [d|]]; [apply stop_goes|].
    apply after_bind, after_any. intros t7 store. apply after_bind, after_any. intros t8 bounded.
    apply after_bind, after_any. intros t9 m. apply after_bind, after_any. intros t10 n. apply after_ret.
    do 6 apply remembers_app. destruct H0 as [Hq Hn]. split; [|exact Hn]. cbn [required_tool_called]. intros q Eq. rewrite Eq.
    destruct (String.eqb_spec (requirement_tool q) tool) as [->|]; [done|]. cbn [orb]. by apply Hq.
  - unfold incomplete_step. destruct (LoopGuard.record _ _) as [g [d|]]; [apply stop_goes|].
    apply after_bind, after_any. intros t5 m. apply after_bind, after_any. intros t6 n. apply after_ret. by do 2 apply remembers_app.
Qed.
Lemma iterations_outcome route n : forall b st, remembers a b st 0 -> after (iterations live_sink hd a route n st) (outcome a) b.
Proof.
  induction n as [|n IH]; intros b st Hst; cbn [Agent.iterations].
  - apply after_bind. unfold live_sink. step_ask. intros []. apply after_ret. right. split; [by rewrite last_snoc|by left].
  - apply after_bind. eapply ensures_mono; [by apply iteration_goes|]. intros t [st'|r] H; [by apply IH|by apply after_ret].
Qed.
Lemma system_prompt_goes b :
  after (system_prompt a) (fun t r => match r with Ok _ => True | Err e => outcome a t (Err e) end) b.
Proof.
  unfold Agent.system_prompt, try_bind. apply after_bind. destruct (def_skills (definition a)) as [|n names] eqn:E.
  { by do 2 apply after_ret. }
  apply after_bind. step_ask. intros registry. apply after_ret. unfold Prompt.render.
  pose proof (Prompt.render_sections_spec registry (n :: names)) as H.
  destruct (Prompt.render_sections registry (n :: names)) as [l|e]; cbn [map_err mbind Result_bind]; [by apply after_ret|].
  destruct H as (l1 & m & l2 & Hl & -> & Hm & _). apply after_ret. right. left. exists registry, m.
  rewrite last_snoc. split; [done|]. split; [|done]. rewrite E, Hl. apply elem_of_app. right. left.
Qed.
Lemma turn_outcome_any history user_message : after (turn live_sink hd a history user_message) (outcome a) [].
Proof.
  unfold Agent.turn. apply after_bind, after_any. intros t1 []. apply after_bind. step_ask. intros []; cbn [negb]; cycle 1.
  { apply after_ret. left. by rewrite last_snoc. }
  unfold try_bind. apply after_bind. eapply ensures_mono; [apply system_prompt_goes|]. intros t2 [prompt|e] H; [|by apply after_ret].
  apply after_bind, after_any. intros t3 s. apply after_bind, after_any. intros t4 u. apply after_bind, after_any. intros t5 ms.
  apply iterations_outcome. split; [done|]. apply chats_nonneg.
Qed.
End outcome.

(** C35: a turn ends by emitting its answer, or the loop guard's reason for stopping
    it; it ends in an error only when no provider is configured, when the agent names
    a skill that is not there, or when its own call to a model fails, and then at
    once, with that failure.  An answer is accepted only when the tool the agent must
    call has been called, or the model has been asked three times, or the iterations
    are used up. *)
Theorem turn_outcome (fuel : nat) (a : Agent) (history : list Message) (user_message : string)
    (t : Trace (Calls J)) (r : Result ClassifiedError string) :
  runs (run_turn (S fuel) live_sink a history user_message) t r -> outcome a t r.
Proof. intros H. exact (turn_outcome_any _ a history user_message t r H). Qed.

(** ** Delegation ends *)
Lemma delegate_ext (run1 run2 : Agent -> string -> Run (Result ClassifiedError string)) a :
  (delegation_depth a < MAX_DELEGATION_DEPTH -> forall d task,
     let sub := at_delegation_depth (delegation_depth a + 1) (with_definition (project a) d) in run1 sub task = run2 sub task) ->
  delegate run1 a = delegate run2 a.
Proof.
  intros H. apply functional_extensionality. intros args. unfold delegate. destruct (_ <=? _) eqn:E; [done|].
  destruct (_ ≫= _) as [i|]; [|done]. destruct (_ ≫= _) as [task|]; [|done]. f_equal. apply functional_extensionality.
  intros [d|]; [|done]. destruct (String.eqb _ _); [done|]. rewrite H by lia. done.
Qed.
(** A turn is the same program with any fuel beyond the delegations still open to its
    agent, one for an orchestrator: the fuel is never what stops it. *)
Theorem delegation_terminates fuel : forall emit (a : Agent) (history : list Message) (user_message : string),
  0 <= delegation_depth a -> (Z.to_nat (MAX_DELEGATION_DEPTH - delegation_depth a) < fuel)%nat ->
  run_turn fuel emit a history user_message =
  run_turn (S (Z.to_nat (MAX_DELEGATION_DEPTH - delegation_depth a))) emit a history user_message.
Proof.
  induction fuel as [|fuel IH]; intros emit a history user_message Hd Hf; [lia|].
  cbn [Agent.run_turn]. rewrite (delegate_ext _ (fun sub task => run_turn (Z.to_nat (MAX_DELEGATION_DEPTH - delegation_depth a)) null_sink sub [] task) a); [done|].
  intros Hlt d task. cbv zeta. set (sub := at_delegation_depth _ _).
  assert (Hs : delegation_depth sub = delegation_depth a + 1) by done. clearbody sub. unfold MAX_DELEGATION_DEPTH in *.
  rewrite IH, Hs by lia. by replace (Z.to_nat (1 - delegation_depth a)) with (S (Z.to_nat (1 - (delegation_depth a + 1)))) by lia.
Qed.
End trace.

(** ** A turn, played *)
#[local] Instance sample_json : Json string := {|
  json_null := "null"; json_str s := s; json_int z := pretty z; json_array l := join "," l; json_object l := join "," l.*2;
  json_get _ _ := None; json_as_str s := Some s; json_text s := s |}.
Definition sample_from_str (s : string) : option (Step string) :=
  if String.eqb s "run" then Some (mkStep (Some "fuzz it") (Some "run") (Some "parse_header") None) else None.
Definition sample_usage : BudgetDispatch.TokenUsage := BudgetDispatch.mkUsage 10 5 None None BudgetDispatch.ProviderReported.
Definition sample_answers (before : Trace (Calls string)) (op : Call string) : Answer op :=
  match op with
  | ProviderPool | ApproveTool _ _ => true
  | SpillStore => false
  | LoadSkills => ∅
  | LoadAgent _ => None
  | DrainReminders => []
  | FreshId => pretty (length before)
  | ChatCompletion _ _ =>
      Ok (mkChatResponse "m" (Some (if chats before =? 0 then "run" else if chats before =? 1 then "too early" else "done")) sample_usage)
  | RecordUsage _ _ _ | Emit _ => tt
  | Inspect _ _ _ => Err "none"
  | DispatchTool _ _ _ => Ok "3 crashes"
  | SaveText _ _ _ => Err "none"
  end.
Definition sample_agent : Agent :=
  with_definition (Some "/p") (mkDefinition "op" "Operator" "Run fuzzers." ["run"] [] [] None 8 Manual (Some (mkRequirement "triage" "Triage first."))).
Definition sample_turn : Prog (Calls string) (Result ClassifiedError string) :=
  run_turn sample_from_str (fun _ => None) (fun _ _ => Ok tt) "I" "S" "T" (fun s => s) 2 live_sink sample_agent [] "fuzz".
Definition sample_run : Trace (Calls string) * Result ClassifiedError string := play (I := Calls string) sample_answers [] sample_turn.
Lemma sample_runs : runs sample_turn sample_run.1 sample_run.2.
Proof. destruct (play_runs (I := Calls string) sample_answers sample_turn []) as (t & E & H). unfold sample_run. rewrite E. exact H. Qed.
Definition sample_dispatch : Event (Calls string) := mkEvent (I := Calls string) (DispatchTool "/p" "run" "parse_header") (Ok "3 crashes").
Lemma tools_gated_witness :
  0 <= delegation_depth sample_agent /\ sample_run.1 !! 10%nat = Some sample_dispatch /\
  gated (fun _ _ => Ok tt) sample_agent (take 10 sample_run.1) sample_dispatch.
Proof.
  assert (H : sample_run.1 !! 10%nat = Some sample_dispatch) by (vm_compute; reflexivity).
  split; [done|]. split; [exact H|].
  apply (tools_gated sample_from_str (fun _ => None) (fun _ _ => Ok tt) "I" "S" "T" (fun s => s) 2 sample_agent [] "fuzz"
           (take 10 sample_run.1) (drop 11 sample_run.1) sample_dispatch sample_run.2); [done|].
  rewrite (take_drop_middle _ _ _ H). exact sample_runs.
Defined.
(** Who acts: a specialist from its start until the driver shows the tool's result. *)
Example acting_ex :
  let scout := mkDefinition "scout" "Scout" "" ["discover"] [] [] None 4 Auto None in
  let started := [mkEvent (I := Calls string) (LoadAgent "scout") (Some scout)] in
  let shown := started ++ [mkEvent (I := Calls string) (Emit (ToolResult DELEGATE_TOOL "found")) tt] in
  let itself := [mkEvent (I := Calls string) (LoadAgent "op") (Some (definition sample_agent))] in
  in_force sample_agent started = scout /\ in_force sample_agent shown = definition sample_agent /\ acting sample_agent itself = None.
Proof. split_and!; reflexivity. Qed.
Definition request_size (e : Event (Calls string)) : nat :=
  match asked e with ChatCompletion r _ => length (request_messages r) | _ => 0%nat end.
Lemma requests_fit_witness :
  exists r route x, mkEvent (I := Calls string) (ChatCompletion r route) x ∈ sample_run.1 /\ length (request_messages r) = 4%nat /\ fits r.
Proof.
  assert (Hs : request_size <$> sample_run.1 !! 16%nat = Some 4%nat) by (vm_compute; reflexivity).
  destruct (sample_run.1 !! 16%nat) as [e|] eqn:H; [|discriminate Hs]. injection Hs as Hs.
  assert (Hin : e ∈ sample_run.1) by exact (list_elem_of_lookup_2 _ _ _ H).
  destruct e as [[] x]; try discriminate Hs. eexists _, route, x. split; [exact Hin|]. split; [exact Hs|].
  exact (requests_fit sample_from_str (fun _ => None) (fun _ _ => Ok tt) "I" "S" "T" (fun s => s) 2 sample_agent [] "fuzz" _ _ _ _ _ sample_runs Hin).
Defined.
Lemma spending_bounded_witness : chats sample_run.1 = 4 /\ 4 <= 3 + 8 + granted_sum sample_run.1 /\ billed sample_run.1.
Proof.
  split; [by vm_compute|].
  apply (spending_bounded sample_from_str (fun _ => None) (fun _ _ => Ok tt) "I" "S" "T" (fun s => s) 2 sample_agent [] "fuzz" sample_run.1 sample_run.2);
    [done|exact sample_runs].
Defined.
Lemma turn_outcome_witness : sample_run.2 = Ok "done" /\ outcome sample_agent sample_run.1 sample_run.2.
Proof.
  split; [by vm_compute|].
  exact (turn_outcome sample_from_str (fun _ => None) (fun _ _ => Ok tt) "I" "S" "T" (fun s => s) 1 sample_agent [] "fuzz" sample_run.1 sample_run.2 sample_runs).
Defined.
