(* ===== verification/JsonValue.v ===== *)
(** * JSON values

    [serde_json::Value].  [Cargo.lock] builds serde_json with [indexmap], so a map
    keeps the order in which its keys came: a list of entries whose keys differ.
    How a float prints is serde_json's. *)
From S2P Require Import Prelude.
From Stdlib Require Import SpecFloat.

Inductive Number := Integer (n : Z) | Float (f : spec_float).
Inductive Value :=
| Null
| Bool (b : bool)
| Num (n : Number)
| Str (s : string)
| Array (l : list Value)
| Object (m : list (string * Value)).
Abbreviation Map := (list (string * Value)).

(** [Map::get] and [Map::insert]: an entry that is there keeps its place. *)
Fixpoint get (k : string) (m : Map) : option Value :=
  match m with
  | [] => None
  | (k', v) :: m => if String.eqb k' k then Some v else get k m
  end.
Fixpoint insert (k : string) (v : Value) (m : Map) : Map :=
  match m with
  | [] => [(k, v)]
  | (k', v') :: m => if String.eqb k' k then (k, v) :: m else (k', v') :: insert k v m
  end.
(** [value[key]] on a value that is read: [Null] where there is nothing. *)
Definition index (k : string) (v : Value) : Value :=
  match v with Object m => default Null (get k m) | _ => Null end.
(** [value[key] = x] on an object. *)
Definition set_key (k : string) (x : Value) (v : Value) : Value :=
  match v with Object m => Object (insert k x m) | _ => v end.
Definition as_str (v : Value) : option string := match v with Str s => Some s | _ => None end.
Definition as_bool (v : Value) : option bool := match v with Bool b => Some b | _ => None end.

(** ** Induction over values *)
Section induction.
Variable P : Value -> Prop.
Hypotheses (HNull : P Null) (HBool : forall b, P (Bool b)) (HNum : forall n, P (Num n)) (HStr : forall s, P (Str s)).
Hypotheses (HArray : forall l, Forall P l -> P (Array l)) (HObject : forall m, Forall (fun e => P e.2) m -> P (Object m)).
Definition value_ind' : forall v, P v :=
  fix go v :=
    match v return P v with
    | Null => HNull
    | Bool b => HBool b
    | Num n => HNum n
    | Str s => HStr s
    | Array l =>
        HArray l ((fix all (l : list Value) : Forall P l :=
          match l with [] => Forall_nil _ | v :: l => Forall_cons _ _ _ (go v) (all l) end) l)
    | Object m =>
        HObject m ((fix all (m : Map) : Forall (fun e => P e.2) m :=
          match m with [] => Forall_nil _ | e :: m => Forall_cons _ _ _ (go e.2) (all m) end) m)
    end.
End induction.

(** ** Maps *)
Definition keys (m : Map) : list string := m.*1.
Lemma get_insert_eq k v m : get k (insert k v m) = Some v.
Proof.
  induction m as [|[k' v'] m IH]; cbn; [by rewrite String.eqb_refl|].
  destruct (String.eqb_spec k' k) as [->|Hk]; cbn; [by rewrite String.eqb_refl|].
  destruct (String.eqb_spec k' k); [done|exact IH].
Qed.
Lemma get_insert_ne k k' v m : k' <> k -> get k (insert k' v m) = get k m.
Proof.
  intros Hk. induction m as [|[j w] m IH]; cbn; [by destruct (String.eqb_spec k' k)|].
  destruct (String.eqb_spec j k') as [->|Hj]; cbn; [by destruct (String.eqb_spec k' k)|].
  by destruct (String.eqb_spec j k).
Qed.
Lemma get_None k m : get k m = None <-> k ∉ keys m.
Proof.
  induction m as [|[j w] m IH]; cbn; [set_solver|]. destruct (String.eqb_spec j k); set_solver.
Qed.
(** A new key comes last, an old one keeps its place. *)
Lemma insert_keys k v m : keys (insert k v m) = if bool_decide (k ∈ keys m) then keys m else keys m ++ [k].
Proof.
  unfold keys. induction m as [|[j w] m IH]; [by rewrite bool_decide_eq_false_2 by set_solver|]. cbn.
  destruct (String.eqb_spec j k) as [->|Hj]; [by rewrite bool_decide_eq_true_2 by set_solver|].
  cbn. rewrite IH. repeat case_bool_decide; set_solver.
Qed.
Lemma insert_new k v m : k ∉ keys m -> insert k v m = m ++ [(k, v)].
Proof.
  induction m as [|[j w] m IH]; cbn; [done|]. intros Hk. destruct (String.eqb_spec j k) as [->|]; [set_solver|].
  rewrite IH by set_solver. done.
Qed.
(** Keys differ, all the way down. *)
Fixpoint wf (v : Value) : Prop :=
  match v with
  | Array l => (fix all (l : list Value) := match l with [] => True | v :: l => wf v /\ all l end) l
  | Object m => NoDup (keys m) /\ (fix all (m : Map) := match m with [] => True | (_, v) :: m => wf v /\ all m end) m
  | _ => True
  end.
