(* ===== verification/Params.v ===== *)
(** * Parameters of a scheduled workflow

    Models [crates/hf-scheduler/src/params.rs] and the payload filter of
    [event.rs]: defaults, overlaid with the schedule's values, whose
    [{{ expressions }}] are resolved when the trigger fires.  chrono's RFC 3339,
    serde_json's printing of numbers and the globs of globset are parameters. *)
From S2P Require Import Prelude Schedule JsonValue.
From Stdlib Require Import Ascii.

Record ResolutionContext := mkContext {
  trigger_time : Z;
  context_trigger_type : TriggerType;
  execution_sequence : Z;
  context_event_payload : option Value;
}.
Inductive ResolveError := UnknownExpression (expr : string) | EventFieldNotFound (field : string).
Definition display_resolve_error (e : ResolveError) : string :=
  match e with
  | UnknownExpression x => "unknown parameter expression: " +:+ x
  | EventFieldNotFound x => "event payload field not found: " +:+ x
  end.
Definition display_trigger_type (t : TriggerType) : string :=
  match t with TCron => "cron" | TInterval => "interval" | TEvent => "event" | TOneTime => "onetime" end.

(** [for (key, value) in overlay_map]. *)
Fixpoint merge_values (base overlay : Value) {struct overlay} : Value :=
  match overlay, base with
  | Object overlay_map, Object base_map =>
      Object ((fix go (merged overlay_map : Map) : Map :=
        match overlay_map with
        | [] => merged
        | (key, value) :: rest =>
            go (insert key (match get key merged with Some existing => merge_values existing value | None => value end) merged) rest
        end) base_map overlay_map)
  | _, _ => overlay
  end.

(** [str::split] at a character. *)
Fixpoint split_on (c : Ascii.ascii) (s : string) : list string :=
  match s with
  | EmptyString => [""]
  | String d r =>
      if Ascii.eqb d c then "" :: split_on c r
      else match split_on c r with [] => [String d ""] | p :: ps => String d p :: ps end
  end.
Fixpoint walk (parts : list string) (current : Value) : option Value :=
  match parts with
  | [] => Some current
  | part :: parts => match current with Object map => v ← get part map; walk parts v | _ => None end
  end.
Definition resolve_json_path (value : Value) (path : string) : option Value := walk (split_on "."%char path) value.

Definition strip_prefix (p s : string) : option string :=
  if String.prefix p s then Some (String.substring (String.length p) (String.length s - String.length p) s) else None.
Definition ends_with (p s : string) : bool :=
  (String.length p <=? String.length s)%nat &&
  String.eqb (String.substring (String.length s - String.length p) (String.length p) s) p.

Section resolve.
Context (to_rfc3339 : Z -> string).

Definition try_resolve_expression (s : string) (ctx : ResolutionContext) : Result ResolveError (option Value) :=
  let trimmed := trim s in
  if negb (String.prefix "{{" trimmed) || negb (ends_with "}}" trimmed) then Ok None
  else
    let expr := trim (String.substring 2 (String.length trimmed - 4) trimmed) in
    if String.eqb expr "trigger.time" then Ok (Some (Str (to_rfc3339 (trigger_time ctx))))
    else if String.eqb expr "trigger.type" then Ok (Some (Str (display_trigger_type (context_trigger_type ctx))))
    else if String.eqb expr "execution.sequence" then Ok (Some (Num (Integer (execution_sequence ctx))))
    else
      match strip_prefix "event.payload." expr with
      | Some field =>
          match context_event_payload ctx ≫= fun payload => resolve_json_path payload field with
          | Some v => Ok (Some v)
          | None => Err (EventFieldNotFound field)
          end
      | None => Err (UnknownExpression expr)
      end.
Fixpoint resolve_expressions (ctx : ResolutionContext) (value : Value) : Result ResolveError Value :=
  match value with
  | Str s => r ← try_resolve_expression s ctx; mret (default value r)
  | Object map =>
      map ← (fix go (m : Map) : Result ResolveError Map :=
        match m with
        | [] => Ok []
        | (k, v) :: m => v ← resolve_expressions ctx v; m ← go m; Ok ((k, v) :: m)
        end) map;
      mret (Object map)
  | Array arr =>
      arr ← (fix go (l : list Value) : Result ResolveError (list Value) :=
        match l with
        | [] => Ok []
        | v :: l => v ← resolve_expressions ctx v; l ← go l; Ok (v :: l)
        end) arr;
      mret (Array arr)
  | _ => Ok value
  end.
Definition resolve_parameters (defaults static_values : Value) (ctx : ResolutionContext) : Result ResolveError Value :=
  resolve_expressions ctx (merge_values defaults static_values).
End resolve.

(** ** Event filters *)
Section filters.
Context (number_to_string : Number -> string) (glob_is_match : string -> string -> option bool).
(** [glob_is_match pattern text]: [None] when the pattern is no glob. *)
Definition filter_matches (filter : EventFilter) (payload : option Value) : bool :=
  let root := Object [("payload", default Null payload)] in
  let text :=
    value ← resolve_json_path root (field filter);
    match value with
    | Str s => Some s
    | Num n => Some (number_to_string n)
    | Bool b => Some (if b then "true" else "false")
    | _ => None
    end in
  match text with
  | None => false
  | Some text => default false (glob_is_match (pattern filter) text)
  end.
End filters.

(** ** Merging *)
Lemma merge_objects b o :
  merge_values (Object b) (Object o) =
  Object (foldl (fun merged e => insert e.1 (match get e.1 merged with Some x => merge_values x e.2 | None => e.2 end) merged) b o).
Proof. cbn. f_equal. revert b. induction o as [|[k v] o IH]; intros b; [done|]. cbn. apply IH. Qed.
(** The manager has no defaults of its own: its merge changes nothing. *)
Lemma merge_nothing v : wf v -> merge_values (Object []) v = v.
Proof.
  destruct v as [| | | | |m]; try done. intros [Hnd _]. rewrite merge_objects. f_equal.
  assert (H : forall m b, NoDup (keys (b ++ m)) ->
    foldl (fun merged e => insert e.1 (match get e.1 merged with Some x => merge_values x e.2 | None => e.2 end) merged) b m = b ++ m).
  { clear. induction m as [|[k v] m IH]; intros b Hb; cbn; [by rewrite app_nil_r|].
    assert (Hk : k ∉ keys b).
    { unfold keys in *. rewrite fmap_app in Hb. apply list.NoDup_app in Hb as (_ & Hb & _). intros Hin. apply (Hb k Hin). cbn. set_solver. }
    rewrite (proj2 (get_None k b)) by done. rewrite insert_new by done. rewrite IH; by rewrite <- app_assoc. }
  exact (H m [] Hnd).
Qed.
