(* ===== verification/EventBridge.v ===== *)
(** * Events that fire schedules

    Models [crates/hf-scheduler/src/event_bridge.rs] and the two phases of
    [SchedulerManager::emit_event].  A timestamp is a number of nanoseconds;
    whether the trigger queue takes a trigger is an answer of its environment. *)
From S2P Require Import Prelude Schedule JsonValue Params.

Record IncomingEvent := mkEvent {
  e_cascade_depth : Z;
  event_type : string;
  payload : option Value;
  timestamp : Z;
  source_schedule_id : option string;
}.
(** [last_event]: when each schedule was last fired by an event. *)
Abbreviation EventBridge := (gmap string Z).
Definition new_bridge : EventBridge := ∅.

Section bridge.
Context `{C : Chrono} (number_to_string : Number -> string) (glob_is_match : string -> string -> option bool).
Implicit Types (b : EventBridge) (e : IncomingEvent) (s : Schedule Value).

(** The debounce window, in seconds, has not passed. *)
Definition debounced (b : EventBridge) e s (debounce_secs : Z) : bool :=
  (0 <? debounce_secs) &&
  match b !! id s with
  | Some last => num_seconds (timestamp e - last) <? default i64_MAX (i64_of debounce_secs)
  | None => false
  end.
Definition prepare_trigger b e s : option (FiredTrigger Value) :=
  match trigger s with
  | Event etype debounce_secs filter =>
      if negb (String.eqb etype (event_type e)) then None
      else if bool_decide (source_schedule_id e = Some (id s)) then None
      else if negb (match filter with Some f => filter_matches number_to_string glob_is_match f (payload e) | None => true end) then None
      else if debounced b e s debounce_secs then None
      else Some (mkFired
        (match source_schedule_id e with Some _ => saturating_add u64_MAX (e_cascade_depth e) 1 | None => e_cascade_depth e end)
        (id s) (timestamp e) TEvent false (payload e))
  | _ => None
  end.
Definition prepare_triggers b e (store : list (Schedule Value)) : list (FiredTrigger Value) :=
  omap (prepare_trigger b e) (list_enabled store).
(** [sent]: for each trigger, whether the queue took it. *)
Fixpoint send_triggers b e (prepared : list (FiredTrigger Value)) (sent : list bool) : EventBridge * list string :=
  match prepared, sent with
  | t :: prepared, true :: sent =>
      let '(b, matched) := send_triggers (<[f_schedule_id t := timestamp e]> b) e prepared sent in
      (b, f_schedule_id t :: matched)
  | _ :: prepared, false :: sent => send_triggers b e prepared sent
  | _, _ => (b, [])
  end.
(** [running]: whether there is a trigger queue at all. *)
Definition emit_event b e (store : list (Schedule Value)) (running : bool) (sent : list bool) : EventBridge * list string :=
  if negb running then (b, []) else send_triggers b e (prepare_triggers b e store) sent.

(** ** What an event fires *)
Definition matches s e (debounce_secs : Z) : Prop :=
  exists filter, trigger s = Event (event_type e) debounce_secs filter /\
    forall f, filter = Some f -> filter_matches number_to_string glob_is_match f (payload e) = true.
(** The trigger carries the event, one link further down when a schedule caused it. *)
Definition trigger_of e s : FiredTrigger Value :=
  mkFired (match source_schedule_id e with Some _ => saturating_add u64_MAX (e_cascade_depth e) 1 | None => e_cascade_depth e end)
    (id s) (timestamp e) TEvent false (payload e).
Lemma prepare_trigger_spec b e s t :
  prepare_trigger b e s = Some t <->
  exists d, matches s e d /\ source_schedule_id e <> Some (id s) /\ debounced b e s d = false /\ t = trigger_of e s.
Proof.
  unfold prepare_trigger, matches. split.
  - destruct (trigger s) as [| |etype d f|] eqn:Et; try done.
    destruct (String.eqb_spec etype (event_type e)) as [->|]; [|done]. cbn. case_bool_decide as Hs; [done|].
    destruct (negb _) eqn:Ef; [done|]. destruct (debounced b e s d) eqn:Ed; [done|]. intros [= <-]. exists d.
    split; [|done]. exists f. split; [done|]. intros f' ->. by apply negb_false_iff in Ef.
  - intros (d & (f & -> & Hf) & Hs & -> & ->). rewrite String.eqb_refl, bool_decide_eq_false_2 by done. cbn.
    destruct f as [f|]; [rewrite Hf by done|]; done.
Qed.
Lemma list_enabled_elem (ss : list (Schedule Value)) s : s ∈ list_enabled ss <-> s ∈ ss /\ enabled s = true.
Proof. unfold list_enabled. rewrite list_elem_of_filter. tauto. Qed.
Lemma prepared_spec b e ss t :
  t ∈ prepare_triggers b e ss <->
  exists s d, s ∈ ss /\ enabled s = true /\ matches s e d /\ source_schedule_id e <> Some (id s) /\
    debounced b e s d = false /\ t = trigger_of e s.
Proof.
  unfold prepare_triggers. rewrite list_elem_of_omap. split.
  - intros (s & [Hs He]%list_enabled_elem & (d & H)%prepare_trigger_spec). exists s, d. tauto.
  - intros (s & d & Hs & He & H). exists s. split; [by apply list_enabled_elem|]. apply prepare_trigger_spec. by exists d.
Qed.

(** ** Histories: events, with the schedules there were and what the queue took *)
Record Emission := mkEmission {
  event : IncomingEvent;
  schedules : list (Schedule Value);
  running : bool;
  taken : list bool;
}.
Fixpoint emit_all b (h : list Emission) : EventBridge * list (IncomingEvent * list string) :=
  match h with
  | [] => (b, [])
  | m :: h =>
      let '(b, matched) := emit_event b (event m) (schedules m) (running m) (taken m) in
      let '(b, log) := emit_all b h in (b, (event m, matched) :: log)
  end.
(** When schedule [i] was last fired, given when it was before. *)
Fixpoint last_fired (i : string) (before : option Z) (log : list (IncomingEvent * list string)) : option Z :=
  match log with
  | [] => before
  | (e, matched) :: log => last_fired i (if bool_decide (i ∈ matched) then Some (timestamp e) else before) log
  end.

Lemma send_bridge b e ts sent i :
  (send_triggers b e ts sent).1 !! i = if bool_decide (i ∈ (send_triggers b e ts sent).2) then Some (timestamp e) else b !! i.
Proof.
  revert b sent. induction ts as [|t ts IH]; intros b [|[] sent]; cbn; try done.
  specialize (IH (<[f_schedule_id t:=timestamp e]> b) sent). destruct (send_triggers _ e ts sent) as [b' m]; cbn in *. rewrite IH.
  destruct (decide (i = f_schedule_id t)) as [->|Hi].
  - rewrite lookup_insert_eq, (bool_decide_eq_true_2 (_ ∈ _ :: m)) by set_solver. by case_bool_decide.
  - rewrite lookup_insert_ne by done. repeat case_bool_decide; set_solver.
Qed.
Lemma emit_all_bridge b h i : (emit_all b h).1 !! i = last_fired i (b !! i) (emit_all b h).2.
Proof.
  revert b. induction h as [|m h IH]; intros b; [done|]. cbn.
  destruct (emit_event _ _ _ _ _) as [b' matched] eqn:E. specialize (IH b'). destruct (emit_all b' h) as [b'' log]. cbn in *.
  rewrite IH. f_equal. unfold emit_event in E. destruct (negb (running m)); [by simplify_eq|].
  replace b' with (send_triggers b (event m) (prepare_triggers b (event m) (schedules m)) (taken m)).1 by (by rewrite E).
  rewrite send_bridge, E. done.
Qed.
Lemma send_matched b e ts sent i : i ∈ (send_triggers b e ts sent).2 -> exists t, t ∈ ts /\ f_schedule_id t = i.
Proof.
  revert b sent. induction ts as [|t ts IH]; intros b [|[] sent]; cbn; try set_solver.
  specialize (IH (<[f_schedule_id t:=timestamp e]> b) sent). destruct (send_triggers _ e ts sent). cbn in *.
  intros [->|H]%elem_of_cons; [exists t; set_solver|]. destruct (IH H) as (t' & ? & ?). exists t'. set_solver.
Qed.
Lemma send_all b e ts sent t :
  Forall (fun x => x = true) sent -> (length ts <= length sent)%nat -> t ∈ ts -> f_schedule_id t ∈ (send_triggers b e ts sent).2.
Proof.
  intros Hs. revert b ts. induction Hs as [|x sent -> Hs IH]; intros b [|t' ts]; cbn; try (set_solver || lia).
  intros Hl Ht. specialize (IH (<[f_schedule_id t':=timestamp e]> b) ts ltac:(lia)). destruct (send_triggers _ e ts sent). cbn in *. set_solver.
Qed.
Lemma prepared_length b e ss : (length (prepare_triggers b e ss) <= length ss)%nat.
Proof.
  unfold prepare_triggers. etransitivity; [|apply (list.length_filter (fun x => enabled x = true))].
  unfold list_enabled. generalize (filter (fun x => enabled x = true) ss). intros l.
  induction l as [|s l IH]; cbn; [lia|]. destruct (prepare_trigger b e s); cbn; lia.
Qed.

(** C14: after any history of events, and with a queue that takes triggers, an event
    fires exactly the enabled schedules that listen for its type, whose filter its
    payload passes, that did not cause it, and whose last firing by an event, if any,
    is at least their debounce window before it.  With any queue, nothing else fires. *)
Theorem event_fires (h : list Emission) e (ss : list (Schedule Value)) (queue : bool) (sent : list bool) (i : string) :
  let '(b, log) := emit_all new_bridge h in
  let due s d := enabled s = true /\ matches s e d /\ source_schedule_id e <> Some i /\
    (0 < d -> forall last, last_fired i None log = Some last -> Z.min d i64_MAX <= num_seconds (timestamp e - last)) in
  (i ∈ (emit_event b e ss queue sent).2 -> exists s d, s ∈ ss /\ id s = i /\ due s d) /\
  (queue = true -> Forall (fun x => x = true) sent -> (length ss <= length sent)%nat ->
   forall s d, s ∈ ss -> id s = i -> 0 <= d -> due s d -> i ∈ (emit_event b e ss queue sent).2).
Proof.
  pose proof (emit_all_bridge new_bridge h i) as Hb. destruct (emit_all new_bridge h) as [b log]. cbn in Hb.
  change (new_bridge !! i) with (@None Z) in Hb. cbv zeta.
  assert (Hd : forall s d, id s = i -> 0 <= d -> debounced b e s d = false <->
    (0 < d -> forall last, last_fired i None log = Some last -> Z.min d i64_MAX <= num_seconds (timestamp e - last))).
  { intros s d <- Hd. unfold debounced. rewrite Hb. replace (default i64_MAX (i64_of d)) with (Z.min d i64_MAX).
    - destruct (last_fired _ _ _) as [last|]; [|rewrite andb_false_r; naive_solver]. split.
      + intros H H0 l [= <-]. apply andb_false_iff in H as [H|H]; lia.
      + intros H. apply andb_false_iff. destruct (decide (0 < d)); [right|left]; [specialize (H ltac:(lia) _ eq_refl)|]; lia.
    - unfold i64_of, i64_MAX, i64_MIN in *. destruct ((_ <=? d) && _) eqn:E; cbn; lia. }
  unfold emit_event. split.
  - destruct queue; cbn; [|set_solver]. intros (t & Ht & <-)%send_matched.
    apply prepared_spec in Ht as (s & d & Hs & He & Hm & Hsrc & Hdb & ->). exists s, d. cbn in *. split; [done|]. split; [done|].
    split; [done|]. split; [done|]. split; [done|]. intros H0. by apply (Hd s d eq_refl ltac:(lia)).
  - intros -> Hall Hlen s d Hs Hi H0 (He & Hm & Hsrc & Hdb). cbn. rewrite <- Hi. change (id s) with (f_schedule_id (trigger_of e s)).
    apply send_all; [done|pose proof (prepared_length b e ss); lia|]. apply prepared_spec. exists s, d.
    rewrite Hi. split; [done|]. split; [done|]. split; [done|]. split; [done|]. split; [|done]. by apply Hd.
Qed.
End bridge.
