(* ===== verification/Executions.v ===== *)
(** * Schedule executions

    Models [crates/hf-scheduler/src/executor.rs]: the records of what schedules ran,
    how many are kept, and how many started within an hour.  The clock is an argument. *)
From S2P Require Import Prelude Schedule JsonValue.

From Stdlib Require Import OrderedTypeEx.
From stdpp Require sorting.

Inductive ExecutionStatus := Pending | Running | Completed | Failed | Skipped | Cancelled.
#[export] Instance ExecutionStatus_eq_dec : EqDecision ExecutionStatus.
Proof. solve_decision. Defined.
Definition display_status (s : ExecutionStatus) : string :=
  match s with
  | Pending => "pending" | Running => "running" | Completed => "completed" | Failed => "failed"
  | Skipped => "skipped" | Cancelled => "cancelled"
  end.

Record ScheduleExecution := mkExecution {
  execution_id : string;
  x_schedule_id : string;
  triggered_at : Z;
  started_at : option Z;
  completed_at : option Z;
  status : ExecutionStatus;
  workflow_execution_id : option string;
  request_summary : Value;
  response_summary : Value;
  error_message : option string;
}.

Record ExecutionStore := mkStore {
  records : list ScheduleExecution;
  max_per_schedule : Z;
  recent_starts : gmap string (list (string * Z));
}.
Definition with_retention (max : Z) : ExecutionStore := mkStore [] max ∅.
Definition hour : Z := 3600 * 10 ^ 9.

Definition is_active (e : ScheduleExecution) : bool :=
  match status e with Pending | Running => true | _ => false end.
Definition of_schedule (i : string) (l : list ScheduleExecution) : list ScheduleExecution :=
  filter (fun e => x_schedule_id e = i) l.

Definition remember_start (now : Z) (execution : ScheduleExecution) (s : ExecutionStore) : ExecutionStore :=
  if bool_decide (status execution = Skipped) then s
  else
    match started_at execution with
    | None => s
    | Some started =>
        let cutoff := now - hour in
        let starts := filter (fun x => cutoff <= x.2) (default [] (recent_starts s !! x_schedule_id execution)) in
        let starts :=
          if existsb (fun x => String.eqb x.1 (execution_id execution)) starts then starts
          else starts ++ [(execution_id execution, started)] in
        mkStore (records s) (max_per_schedule s) (<[x_schedule_id execution := starts]> (recent_starts s))
    end.

(** Newest first, and by identifier where two triggered at once. *)
Definition newest_first (left right : ScheduleExecution) : comparison :=
  match Z.compare (triggered_at right) (triggered_at left) with
  | Eq => String.compare (execution_id right) (execution_id left)
  | c => c
  end.
Definition enforce_retention (schedule_id : string) (s : ExecutionStore) : ExecutionStore :=
  if max_per_schedule s =? 0 then s
  else
    let mine := of_schedule schedule_id (records s) in
    let active_count := zlen (filter (fun e => is_active e = true) mine) in
    let terminal_to_keep := saturating_sub (max_per_schedule s) active_count in
    let terminal := sort_by newest_first (filter (fun e => is_active e = false) mine) in
    let retained_terminal := execution_id <$> take (Z.to_nat terminal_to_keep) terminal in
    mkStore (filter (fun e => x_schedule_id e <> schedule_id \/ is_active e = true \/ execution_id e ∈ retained_terminal) (records s))
      (max_per_schedule s) (recent_starts s).

Definition with_records (l : list ScheduleExecution) (s : ExecutionStore) : ExecutionStore :=
  mkStore l (max_per_schedule s) (recent_starts s).
Definition record (now : Z) (execution : ScheduleExecution) (s : ExecutionStore) : ExecutionStore :=
  let s := remember_start now execution s in
  enforce_retention (x_schedule_id execution) (with_records (records s ++ [execution]) s).

(** [iter_mut().find(..)]: the records with the first of this identifier changed,
    and that one before and after. *)
Fixpoint update_first (i : string) (f : ScheduleExecution -> ScheduleExecution) (l : list ScheduleExecution)
    : list ScheduleExecution * option (ScheduleExecution * ScheduleExecution) :=
  match l with
  | [] => ([], None)
  | e :: l =>
      if String.eqb (execution_id e) i then (f e :: l, Some (e, f e))
      else let '(l, changed) := update_first i f l in (e :: l, changed)
  end.
Definition update_and_get (now : Z) (i : string) (updater : ScheduleExecution -> ScheduleExecution) (s : ExecutionStore)
    : ExecutionStore * option ScheduleExecution :=
  match update_first i updater (records s) with
  | (l, Some (before, record)) =>
      let s := with_records l s in
      let s := match started_at before with Some _ => s | None => remember_start now record s end in
      (enforce_retention (x_schedule_id record) s, Some record)
  | (_, None) => (s, None)
  end.
Definition update (now : Z) (i : string) (updater : ScheduleExecution -> ScheduleExecution) (s : ExecutionStore) : ExecutionStore :=
  (update_and_get now i updater s).1.

Definition by_trigger_desc (a b : ScheduleExecution) : comparison := Z.compare (triggered_at b) (triggered_at a).
Definition get_history (schedule_id : string) (s : ExecutionStore) : list ScheduleExecution :=
  sort_by by_trigger_desc (of_schedule schedule_id (records s)).
Definition get (i : string) (s : ExecutionStore) : option ScheduleExecution :=
  find_map (fun e => if String.eqb (execution_id e) i then Some e else None) (records s).
Definition started_since (schedule_id : string) (since : Z) (s : ExecutionStore) : Z :=
  match recent_starts s !! schedule_id with
  | None => 0
  | Some starts => zlen (filter (fun x => since <= x.2) starts)
  end.
Definition pending_count (schedule_id : string) (s : ExecutionStore) : Z :=
  zlen (filter (fun e => status e = Pending) (of_schedule schedule_id (records s))).
Definition pending_records (s : ExecutionStore) : list ScheduleExecution :=
  filter (fun e => status e = Pending) (records s).
Definition list_recent (limit : nat) (s : ExecutionStore) : list ScheduleExecution :=
  take limit (sort_by by_trigger_desc (records s)).
Definition len (s : ExecutionStore) : Z := zlen (records s).
Definition is_empty (s : ExecutionStore) : bool := match records s with [] => true | _ => false end.

(** ** [ScheduleExecutor]: executions without a dispatcher *)
Section executor.
Context (to_rfc3339 : Z -> string) (pretty_u64 : Z -> string).

Definition filter_to_value (f : EventFilter) : Value := Object [("field", Str (field f)); ("pattern", Str (pattern f))].
Definition trigger_to_value (t : TriggerConfig) : Value :=
  Object (match t with
  | Cron expression timezone => [("type", Str "cron"); ("expression", Str expression); ("timezone", Str timezone)]
  | Interval interval_secs => [("type", Str "interval"); ("interval_secs", Num (Integer interval_secs))]
  | Event event_type debounce_secs filter =>
      [("type", Str "event"); ("event_type", Str event_type); ("debounce_secs", Num (Integer debounce_secs))]
      ++ match filter with Some f => [("filter", filter_to_value f)] | None => [] end
  | OneTime at_ => [("type", Str "one_time"); ("at", Str (to_rfc3339 at_))]
  end).

(** [next_sequence]: how often each schedule was run. *)
Definition next_sequence_for (schedule_id : string) (next_sequence : gmap string Z) : gmap string Z * Z :=
  let seq := default 0 (next_sequence !! schedule_id) + 1 in (<[schedule_id := seq]> next_sequence, seq).
Definition trigger_execution_at (now : Z) (schedule : Schedule Value) (next_sequence : gmap string Z)
    (store : list (Schedule Value)) (executions : ExecutionStore)
    : gmap string Z * list (Schedule Value) * ExecutionStore * ScheduleExecution :=
  let '(next_sequence, seq) := next_sequence_for (id schedule) next_sequence in
  let execution_id := "exec-" +:+ id schedule +:+ "-" +:+ pretty_u64 seq in
  let workflow := "workflow-" +:+ execution_id in
  let execution := mkExecution execution_id (id schedule) now (Some now) (Some now) Completed (Some workflow)
    (Object [("schedule_id", Str (id schedule)); ("schedule_name", Str (name schedule)); ("workflow_id", Str (workflow_id schedule));
             ("trigger", trigger_to_value (trigger schedule)); ("parameter_values", parameter_values schedule);
             ("execution_sequence", Num (Integer seq)); ("trigger_time", Str (to_rfc3339 now))])
    (Object [("status", Str "completed"); ("message", Str "Workflow execution completed (instant-completion fallback)");
             ("workflow_execution_id", Str workflow)])
    None in
  (next_sequence, update_last_fire store (id schedule) now, record now execution executions, execution).
End executor.

(** ** Retention *)
Lemma string_compare_trans a b c : String.compare a b <> Gt -> String.compare b c <> Gt -> String.compare a c <> Gt.
Proof.
  destruct (String.compare a b) eqn:E1; [apply String.compare_eq_iff in E1 as ->; done| |done].
  destruct (String.compare b c) eqn:E2; [apply String.compare_eq_iff in E2 as ->; by rewrite E1| |done].
  intros _ _. change String.compare with String_as_OT.cmp in *. rewrite String_as_OT.cmp_lt in E1, E2.
  rewrite (proj2 (String_as_OT.cmp_lt a c)); [done|]. by eapply String_as_OT.lt_trans.
Qed.
Definition not_older (x y : ScheduleExecution) : Prop := newest_first x y <> Gt.
Lemma not_older_alt x y :
  not_older x y <-> triggered_at y < triggered_at x \/
    triggered_at y = triggered_at x /\ String.compare (execution_id y) (execution_id x) <> Gt.
Proof. unfold not_older, newest_first. destruct (Z.compare_spec (triggered_at y) (triggered_at x)); intuition (lia || congruence). Qed.
#[local] Instance not_older_trans : Transitive not_older.
Proof.
  intros x y z. rewrite !not_older_alt. intros [H1|[H1 C1]] [H2|[H2 C2]]; [left; lia..|].
  right. split; [lia|]. by eapply string_compare_trans.
Qed.
Lemma not_older_sym x y : newest_first x y = Gt -> not_older y x.
Proof.
  unfold newest_first. rewrite not_older_alt. destruct (Z.compare_spec (triggered_at y) (triggered_at x)) as [E|E|E]; intros H; [|done|lia].
  right. split; [lia|]. by rewrite String.compare_antisym, H.
Qed.
Definition unique (s : ExecutionStore) : Prop := NoDup (execution_id <$> records s).
Definition active_of (i : string) (s : ExecutionStore) := filter (fun e => is_active e = true) (of_schedule i (records s)).
Definition terminal_of (i : string) (s : ExecutionStore) := filter (fun e => is_active e = false) (of_schedule i (records s)).
Lemma of_schedule_elem i l e : e ∈ of_schedule i l <-> x_schedule_id e = i /\ e ∈ l.
Proof. unfold of_schedule. by rewrite list_elem_of_filter. Qed.
Lemma active_terminal i s : zlen (of_schedule i (records s)) = zlen (active_of i s) + zlen (terminal_of i s).
Proof.
  unfold active_of, terminal_of, zlen. generalize (of_schedule i (records s)). intros l.
  induction l as [|e l IH]; [done|]. rewrite !filter_cons. destruct (is_active e); cbn -[Z.of_nat] in *; repeat case_decide; cbn -[Z.of_nat] in *; (done || lia).
Qed.
Lemma unique_same s e k : unique s -> e ∈ records s -> k ∈ records s -> execution_id e = execution_id k -> e = k.
Proof.
  intros Hu [a Ha]%list_elem_of_lookup [b Hb]%list_elem_of_lookup He.
  assert (a = b) as <- by (eapply (NoDup_lookup (execution_id <$> records s)); [done|rewrite list_lookup_fmap, Ha; done|rewrite list_lookup_fmap, Hb; cbn; by rewrite He]).
  congruence.
Qed.
Lemma fmap_filter_nodup {A B} (f : A -> B) (P : A -> Prop) `{!forall x, Decision (P x)} l : NoDup (f <$> l) -> NoDup (f <$> filter P l).
Proof. intros Hn. eapply sublist_NoDup; [exact Hn|]. apply fmap_sublist, sublist_filter. Qed.

Section retention.
Variables (i : string) (s : ExecutionStore).
Hypotheses (Hmax : max_per_schedule s <> 0) (Hu : unique s).
Let s' := enforce_retention i s.
Let room := Z.to_nat (saturating_sub (max_per_schedule s) (zlen (active_of i s))).
Let newest := sort_by newest_first (terminal_of i s).

Lemma retained_records : records s' = filter (fun e => x_schedule_id e <> i \/ is_active e = true \/
  execution_id e ∈ (execution_id <$> take room newest)) (records s).
Proof. unfold s', enforce_retention. destruct (max_per_schedule s =? 0) eqn:E; [lia|]. done. Qed.
Lemma retain_sublist : records s' `sublist_of` records s.
Proof. rewrite retained_records. apply sublist_filter. Qed.
Lemma retain_unique : unique s'.
Proof. unfold unique. rewrite retained_records. by apply fmap_filter_nodup. Qed.
Lemma retain_others j : j <> i -> of_schedule j (records s') = of_schedule j (records s).
Proof.
  intros Hj. rewrite retained_records. unfold of_schedule. rewrite list_filter_filter. apply list_filter_iff. naive_solver.
Qed.
Lemma retain_active : active_of i s' = active_of i s.
Proof.
  unfold active_of, of_schedule. rewrite retained_records, !list_filter_filter. apply list_filter_iff. naive_solver.
Qed.
Lemma retain_terminal : terminal_of i s' ≡ₚ take room newest.
Proof.
  assert (Hn : forall e, e ∈ newest <-> is_active e = false /\ x_schedule_id e = i /\ e ∈ records s).
  { intros e. unfold newest. rewrite sort_by_perm. unfold terminal_of. rewrite list_elem_of_filter, of_schedule_elem. tauto. }
  assert (Hnd : NoDup newest).
  { unfold newest. rewrite sort_by_perm. apply (NoDup_fmap_1 execution_id). unfold terminal_of, of_schedule. by do 2 apply fmap_filter_nodup. }
  apply NoDup_Permutation.
  - apply (NoDup_fmap_1 execution_id). unfold terminal_of, of_schedule. do 2 apply fmap_filter_nodup. apply retain_unique.
  - eapply sublist_NoDup; [exact Hnd|]. apply sublist_take.
  - intros e. unfold terminal_of. rewrite list_elem_of_filter, of_schedule_elem, retained_records, list_elem_of_filter. split.
    + intros (Ha & Hi & [?|[?|Hid]] & He); [done|congruence|]. apply list_elem_of_fmap in Hid as (k & Hid & Hk).
      assert (Hk' : k ∈ newest) by (eapply elem_of_sublist; [exact Hk|apply sublist_take]). apply Hn in Hk' as (_ & _ & Hk').
      by rewrite (unique_same s e k).
    + intros He. assert (He' : e ∈ newest) by (eapply elem_of_sublist; [exact He|apply sublist_take]). apply Hn in He' as (Ha & Hi & He').
      split; [done|]. split; [done|]. split; [|done]. right. right. by apply list_elem_of_fmap_2.
Qed.
Lemma newest_sorted : StronglySorted not_older newest.
Proof. apply sort_by_sorted; [apply _|apply not_older_sym|done]. Qed.
End retention.

(** ** Histories *)
Inductive Change :=
| Recorded (e : ScheduleExecution)
| Updated (i : string) (f : ScheduleExecution -> ScheduleExecution).
Definition step (now : Z) (c : Change) (s : ExecutionStore) : ExecutionStore :=
  match c with Recorded e => record now e s | Updated i f => update now i f s end.
(** The records before retention, and the schedule it is enforced for. *)
Definition changed (c : Change) (s : ExecutionStore) : list ScheduleExecution * option string :=
  match c with
  | Recorded e => (records s ++ [e], Some (x_schedule_id e))
  | Updated i f => let '(l, p) := update_first i f (records s) in (l, (fun p => x_schedule_id p.2) <$> p)
  end.
(** What has started by this change: schedule, execution and time. *)
Definition new_start (c : Change) (s : ExecutionStore) : list (string * (string * Z)) :=
  let start e :=
    match started_at e with
    | Some t => if bool_decide (status e = Skipped) then [] else [(x_schedule_id e, (execution_id e, t))]
    | None => []
    end in
  match c with
  | Recorded e => start e
  | Updated i f =>
      match (update_first i f (records s)).2 with
      | Some (before, after) => match started_at before with None => start after | Some _ => [] end
      | None => []
      end
  end.
(** New identifiers are new, and a change keeps an execution's identity and start. *)
Definition valid (used : list string) (c : Change) : Prop :=
  match c with
  | Recorded e => execution_id e ∉ used
  | Updated _ f => forall e, execution_id (f e) = execution_id e /\ x_schedule_id (f e) = x_schedule_id e /\
      (is_Some (started_at e) -> is_Some (started_at (f e)))
  end.
Definition used_by (c : Change) : list string := match c with Recorded e => [execution_id e] | _ => [] end.
(** A store that keeps [max] records per schedule, after changes at the times of a
    clock that does not go back: the identifiers used, what started, and the time. *)
Inductive history (max : Z) : ExecutionStore -> list string -> list (string * (string * Z)) -> Z -> Prop :=
| history_new now : history max (with_retention max) [] [] now
| history_change s used log now now' c :
    history max s used log now -> now <= now' -> valid used c ->
    history max (step now' c s) (used ++ used_by c) (log ++ new_start c s) now'
| history_wait s used log now now' : history max s used log now -> now <= now' -> history max s used log now'.

Lemma update_first_spec i f l :
  (update_first i f l).2 = (fun e => (e, f e)) <$> List.find (fun e => String.eqb (execution_id e) i) l.
Proof.
  induction l as [|e l IH]; [done|]. cbn. destruct (String.eqb _ _); [done|]. destruct (update_first i f l). exact IH.
Qed.
Lemma update_one_ids i f l : (forall e, execution_id (f e) = execution_id e) -> execution_id <$> (update_first i f l).1 = execution_id <$> l.
Proof.
  intros Hf. induction l as [|e l IH]; [done|]. cbn. destruct (String.eqb _ _); cbn; [by rewrite Hf|].
  destruct (update_first i f l). cbn in *. by rewrite IH.
Qed.
Lemma update_first_elem i f l e : e ∈ (update_first i f l).1 -> e ∈ l \/ exists b, b ∈ l /\ (update_first i f l).2 = Some (b, e) /\ e = f b.
Proof.
  induction l as [|b l IH]; [set_solver|]. cbn. destruct (String.eqb _ _) eqn:E; cbn.
  - intros [->|H]%elem_of_cons; [right; exists b|left]; set_solver.
  - destruct (update_first i f l) as [l' p]. cbn in *. intros [->|H]%elem_of_cons; [left; set_solver|].
    destruct (IH H) as [?|(b' & ? & ? & ?)]; [left; set_solver|right; exists b'; set_solver].
Qed.
Lemma update_first_other i f l j :
  (forall e, x_schedule_id (f e) = x_schedule_id e) -> (forall p, (update_first i f l).2 = Some p -> x_schedule_id p.2 <> j) ->
  of_schedule j (update_first i f l).1 = of_schedule j l.
Proof.
  intros Hf. unfold of_schedule. induction l as [|b l IH]; [done|]. cbn [update_first]. destruct (String.eqb _ _); cbn [fst snd].
  - intros Hj. specialize (Hj _ eq_refl). cbn in Hj. pose proof (Hf b). rewrite !filter_cons. repeat case_decide; congruence.
  - destruct (update_first i f l) as [l' p]. cbn [fst snd] in *. intros Hj. rewrite !filter_cons. by rewrite IH.
Qed.

Lemma remember_records now e s : records (remember_start now e s) = records s.
Proof. unfold remember_start. case_bool_decide; [done|]. by destruct (started_at e). Qed.
Lemma remember_max now e s : max_per_schedule (remember_start now e s) = max_per_schedule s.
Proof. unfold remember_start. case_bool_decide; [done|]. by destruct (started_at e). Qed.
Lemma enforce_starts i s : recent_starts (enforce_retention i s) = recent_starts s.
Proof. unfold enforce_retention. by destruct (_ =? _). Qed.
Lemma enforce_max i s : max_per_schedule (enforce_retention i s) = max_per_schedule s.
Proof. unfold enforce_retention. by destruct (_ =? _) eqn:?. Qed.

(** A change is its effect on the records and starts, with retention enforced. *)
Lemma step_retains now c s :
  exists s1, records s1 = (changed c s).1 /\ max_per_schedule s1 = max_per_schedule s /\
    step now c s = match (changed c s).2 with Some i => enforce_retention i s1 | None => s end /\
    ((changed c s).2 = None -> (changed c s).1 = records s).
Proof.
  destruct c as [e|i f]; cbn.
  - eexists. split; [|split; [|split; [reflexivity|done]]]; cbn; [by rewrite remember_records|by rewrite remember_max].
  - unfold update, update_and_get. pose proof (update_first_spec i f (records s)) as Hs.
    destruct (update_first i f (records s)) as [l [[b r]|]] eqn:E; cbn in *.
    + destruct (started_at b); eexists; (split; [|split; [|split; [reflexivity|done]]]); cbn; rewrite ?remember_records, ?remember_max; done.
    + exists (with_records l s). do 3 (split; [done|]). intros _. clear Hs. revert l E.
      generalize (records s). intros l. induction l as [|e l IH]; cbn; [by intros l' [= <-]|].
      destruct (String.eqb _ _); [done|]. destruct (update_first i f l) as [l' p] eqn:E. intros ? [= <- ->]. f_equal. by apply IH.
Qed.

Lemma changed_ids used c s : valid used c -> incl (execution_id <$> records s) used -> unique s ->
  NoDup (execution_id <$> (changed c s).1) /\ incl (execution_id <$> (changed c s).1) (used ++ used_by c).
Proof.
  intros Hv Hin Hu. destruct c as [e|i f]; cbn in *.
  - rewrite fmap_app. split.
    + apply list.NoDup_app. split; [done|]. split; [|apply NoDup_singleton]. intros x Hx ->%list_elem_of_singleton.
      apply Hv. apply list_elem_of_In, Hin. by apply list_elem_of_In.
    + apply incl_app; [by apply incl_appl|]. apply incl_appr, incl_refl.
  - pose proof (update_one_ids i f (records s) (fun e => proj1 (Hv e))) as Hids.
    destruct (update_first i f (records s)) as [l p]. cbn in *. rewrite Hids, app_nil_r. done.
Qed.
Lemma changed_other used c s j : valid used c -> (changed c s).2 <> Some j -> of_schedule j (changed c s).1 = of_schedule j (records s).
Proof.
  intros Hv. destruct c as [e|i f]; cbn in *.
  - intros Hj. unfold of_schedule. rewrite list.filter_app, filter_cons, filter_nil, decide_False by congruence. by rewrite app_nil_r.
  - pose proof (update_first_other i f (records s) j (fun e => proj1 (proj2 (Hv e)))) as Ho.
    destruct (update_first i f (records s)) as [l p]. cbn in *. intros Hj. apply Ho. intros q ->. cbn in Hj. congruence.
Qed.
Lemma retain_count i s : 0 < max_per_schedule s -> unique s ->
  zlen (terminal_of i (enforce_retention i s)) = Z.min (zlen (terminal_of i s)) (saturating_sub (max_per_schedule s) (zlen (active_of i s))).
Proof.
  intros Hm Hu. unfold zlen at 1. rewrite (Permutation_length (retain_terminal i s ltac:(lia) Hu)), length_take.
  rewrite (Permutation_length (sort_by_perm newest_first (terminal_of i s))). unfold zlen, saturating_sub. lia.
Qed.
Lemma history_ok max s used log now : 0 < max -> history max s used log now ->
  unique s /\ incl (execution_id <$> records s) used /\ max_per_schedule s = max /\
  forall i, zlen (of_schedule i (records s)) <= Z.max max (zlen (active_of i s)).
Proof.
  intros Hmax. induction 1 as [now|s used log now now' c H (Hu & Hin & Hm & Hb) Hle Hv|]; [|  |done].
  { split; [constructor|]. split; [apply incl_refl|]. split; [done|]. intros i. cbn. lia. }
  destruct (changed_ids used c s Hv Hin Hu) as [Hu1 Hin1].
  destruct (step_retains now' c s) as (s1 & Hr & Hm1 & -> & Hn).
  destruct (changed c s).2 as [i|] eqn:Ec; cycle 1.
  { rewrite Hn in Hin1 by done. auto. }
  assert (Hu' : unique s1) by (unfold unique; by rewrite Hr).
  split; [apply retain_unique; [lia|done]|]. split.
  { intros x Hx. apply Hin1. rewrite <- Hr. apply list_elem_of_In. apply list_elem_of_In in Hx.
    eapply elem_of_sublist; [exact Hx|]. apply fmap_sublist. apply retain_sublist; lia. }
  split; [by rewrite enforce_max, Hm1|]. intros j. destruct (decide (j = i)) as [->|Hj].
  - rewrite active_terminal, retain_count, retain_active by (lia || done). unfold saturating_sub. rewrite Hm1, Hm.
    pose proof (Zle_0_nat (length (active_of i s1))). unfold zlen in *. lia.
  - unfold active_of. rewrite retain_others by (lia || done). rewrite Hr. rewrite (changed_other used) by (done || congruence). apply Hb.
Qed.

(** C15: a store told to keep [max] records of each schedule keeps, at every point of
    every history, at most that many, or the active ones where they are more; and what
    a change drops is finished, while [max] records of its schedule stay, none of the
    finished ones older. *)
Theorem retention (max : Z) (s : ExecutionStore) (used : list string) (log : list (string * (string * Z))) (now now' : Z) (c : Change) :
  0 < max -> history max s used log now -> now <= now' -> valid used c ->
  let after := step now' c s in
  records after `sublist_of` (changed c s).1 /\
  (forall i, zlen (of_schedule i (records after)) <= Z.max max (zlen (active_of i after))) /\
  (forall e, e ∈ (changed c s).1 -> e ∉ records after ->
     is_active e = false /\ max <= zlen (of_schedule (x_schedule_id e) (records after)) /\
     forall k, k ∈ terminal_of (x_schedule_id e) after -> not_older k e).
Proof.
  intros Hmax H Hle Hv after. pose proof (history_ok _ _ _ _ _ Hmax H) as (Hu & Hin & Hm & _).
  pose proof (history_ok max after _ _ now' Hmax (history_change _ _ _ _ _ _ _ H Hle Hv)) as (_ & _ & _ & Hb).
  destruct (changed_ids used c s Hv Hin Hu) as [Hu1 _].
  destruct (step_retains now' c s) as (s1 & Hr & Hm1 & Hs & Hn). subst after. rewrite Hs in *.
  destruct (changed c s).2 as [i|] eqn:Ec; cycle 1.
  { rewrite Hn by done. split; [done|]. split; [exact Hb|]. by intros e ?. }
  assert (Hu' : unique s1) by (unfold unique; by rewrite Hr). rewrite <- Hr.
  split; [apply retain_sublist; lia|]. split; [exact Hb|]. intros e He Hd.
  assert (x_schedule_id e = i /\ is_active e = false) as [Hi Ha].
  { rewrite retained_records, list_elem_of_filter in Hd by (lia || done). destruct (is_active e); [tauto|].
    destruct (decide (x_schedule_id e = i)); tauto. }
  assert (Ht : e ∈ terminal_of i s1) by (unfold terminal_of; rewrite list_elem_of_filter, of_schedule_elem; done).
  set (room := Z.to_nat (saturating_sub (max_per_schedule s1) (zlen (active_of i s1)))).
  pose proof (retain_terminal i s1 ltac:(lia) Hu') as Hperm. fold room in Hperm.
  assert (Hdrop : e ∈ drop room (sort_by newest_first (terminal_of i s1))).
  { rewrite <- (sort_by_perm newest_first), <- (take_drop room (sort_by newest_first (terminal_of i s1))) in Ht.
    apply elem_of_app in Ht as [Ht|Ht]; [|done]. destruct Hd. rewrite <- Hperm in Ht. unfold terminal_of in Ht. rewrite list_elem_of_filter, of_schedule_elem in Ht. tauto. }
  split; [done|]. rewrite Hi. split.
  - rewrite active_terminal, retain_count, retain_active by (lia || done). unfold saturating_sub.
    assert (Hl : (room < length (terminal_of i s1))%nat).
    { rewrite <- (Permutation_length (sort_by_perm newest_first (terminal_of i s1))). apply Nat.nle_gt. intros Hl.
      rewrite drop_ge in Hdrop by lia. set_solver. }
    unfold room, saturating_sub, zlen in *. lia.
  - intros k Hk. rewrite Hperm in Hk.
    pose proof (newest_sorted i s1) as Hsort. rewrite <- (take_drop room (sort_by newest_first (terminal_of i s1))) in Hsort.
    by apply (sorting.StronglySorted_app_1_elem_of not_older _ _ k e Hsort).
Qed.

(** ** What started within the hour *)
Definition starts_of (i : string) (log : list (string * (string * Z))) : list (string * Z) :=
  (filter (fun x => x.1 = i) log).*2.
Definition recent (since : Z) (l : list (string * Z)) : list (string * Z) := filter (fun x => since <= x.2) l.
Lemma recent_recent a b l : a <= b -> recent b (recent a l) = recent b l.
Proof. intros H. unfold recent. rewrite list_filter_filter. apply list_filter_iff. intros x. lia. Qed.
Lemma recent_app a l l' : recent a (l ++ l') = recent a l ++ recent a l'.
Proof. apply list.filter_app. Qed.

(** What is remembered of schedule [i] is what started, once it is an hour old or less. *)
Definition remembers (now : Z) (s : ExecutionStore) (log : list (string * (string * Z))) (i : string) : Prop :=
  let known := default [] (recent_starts s !! i) in
  known `sublist_of` starts_of i log /\ recent (now - hour) known = recent (now - hour) (starts_of i log).
Definition start_of (e : ScheduleExecution) : list (string * (string * Z)) :=
  match started_at e with
  | Some t => if bool_decide (status e = Skipped) then [] else [(x_schedule_id e, (execution_id e, t))]
  | None => []
  end.

Lemma remember_start_spec now now' e s log i :
  now <= now' -> execution_id e ∉ (starts_of (x_schedule_id e) log).*1 -> remembers now s log i ->
  remembers now' (remember_start now' e s) (log ++ start_of e) i.
Proof.
  intros Hle Hnew [Hsub Hrec]. unfold remembers, remember_start, start_of, starts_of in *. cbv zeta in *.
  assert (Hweak : recent (now' - hour) (default [] (recent_starts s !! i)) = recent (now' - hour) ((filter (fun x => x.1 = i) log).*2)).
  { rewrite <- (recent_recent (now - hour)), Hrec, recent_recent by lia. done. }
  case_bool_decide; [destruct (started_at e); rewrite app_nil_r; done|]. destruct (started_at e) as [t|]; [|rewrite app_nil_r; done].
  cbn [recent_starts]. rewrite list.filter_app, filter_cons, filter_nil. cbn [fst].
  destruct (decide (x_schedule_id e = i)) as [<-|Hi]; [|by rewrite lookup_insert_ne, app_nil_r by done].
  rewrite lookup_insert_eq, fmap_app. set (known := default [] (recent_starts s !! x_schedule_id e)) in *.
  change (filter (fun x => now' - hour <= x.2) known) with (recent (now' - hour) known). cbn [default from_option fmap list_fmap snd Datatypes.id].
  replace (existsb _ _) with false; cycle 1.
  { symmetry. apply not_true_iff_false. intros (x & Hx & Hid%String.eqb_eq)%existsb_exists. destruct Hnew. rewrite <- Hid.
    apply list_elem_of_fmap_2. apply list_elem_of_In in Hx. unfold recent in Hx. apply list_elem_of_filter in Hx as [_ Hx].
    by eapply elem_of_sublist. }
  split; [by apply sublist_app; [etransitivity; [apply sublist_filter|]|]|].
  rewrite !recent_app, recent_recent by lia. by rewrite Hweak.
Qed.
Lemma remembers_mono now now' s log i : now <= now' -> remembers now s log i -> remembers now' s log i.
Proof. intros Hle [Hs Hr]. split; [done|]. rewrite <- (recent_recent (now - hour)), Hr, recent_recent by lia. done. Qed.
Lemma remembers_ext now s s' log i : recent_starts s' = recent_starts s -> remembers now s log i -> remembers now s' log i.
Proof. unfold remembers. by intros ->. Qed.

(** What has started is known by its identifier, and is not started again. *)
Definition once (used : list string) (s : ExecutionStore) (log : list (string * (string * Z))) : Prop :=
  forall x, x ∈ log -> x.2.1 ∈ used /\ forall e, e ∈ records s -> execution_id e = x.2.1 -> is_Some (started_at e).
Lemma starts_of_elem i log x : x ∈ (starts_of i log).*1 -> exists t, (i, (x, t)) ∈ log.
Proof.
  unfold starts_of. intros ([x' t] & -> & ([j p] & E & Hp)%list_elem_of_fmap)%list_elem_of_fmap. cbn in E. subst p.
  apply list_elem_of_filter in Hp as [<- Hp]. by exists t.
Qed.
Lemma step_sublist now c s : records (step now c s) `sublist_of` (changed c s).1.
Proof.
  destruct (step_retains now c s) as (s1 & Hr & Hm & -> & Hn). destruct (changed c s).2 as [i|]; [|by rewrite Hn].
  rewrite <- Hr. unfold enforce_retention. destruct (_ =? _); [done|]. apply sublist_filter.
Qed.
Lemma new_start_spec c s x : x ∈ new_start c s ->
  exists e, e ∈ (changed c s).1 /\ x.2.1 = execution_id e /\ is_Some (started_at e).
Proof.
  assert (Hs : forall e, x ∈ start_of e -> x.2.1 = execution_id e /\ is_Some (started_at e)).
  { unfold start_of. intros e. destruct (started_at e) as [t|]; [|by intros ?%elem_of_nil]. case_bool_decide; [by intros ?%elem_of_nil|].
    intros ->%list_elem_of_singleton. split; [done|by exists t]. }
  destruct c as [e|i f]; cbn [new_start changed].
  - intros Hx. exists e. split; [set_solver|]. by apply Hs.
  - assert (Hin : forall b r, (update_first i f (records s)).2 = Some (b, r) -> r ∈ (update_first i f (records s)).1).
    { induction (records s) as [|b l IH]; [by intros b r [=]|]. cbn. destruct (String.eqb _ _); cbn; [intros b' r [= <- <-]; set_solver|].
      destruct (update_first i f l). cbn in *. intros b' r Hp. specialize (IH _ _ Hp). set_solver. }
    destruct (update_first i f (records s)) as [l [[b r]|]]; cbn in *; [|by intros ?%elem_of_nil].
    destruct (started_at b); [by intros ?%elem_of_nil|]. intros Hx. exists r. split; [by apply (Hin b)|]. by apply Hs.
Qed.
Lemma step_once now used s log c : valid used c -> incl (execution_id <$> records s) used -> unique s -> once used s log ->
  once (used ++ used_by c) (step now c s) (log ++ new_start c s).
Proof.
  intros Hv Hin Hu Honce x Hx. destruct (changed_ids used c s Hv Hin Hu) as [Hu1 Hin1].
  assert (Hsub : forall e, e ∈ records (step now c s) -> e ∈ (changed c s).1) by (intros e He; eapply elem_of_sublist; [exact He|apply step_sublist]).
  apply elem_of_app in Hx as [Hx|(e & He & Hid & Hst)%new_start_spec].
  - destruct (Honce x Hx) as [Hux Hst]. split; [set_solver|]. intros e He%Hsub Hid. destruct c as [e'|i f]; cbn in *.
    + apply elem_of_app in He as [He| ->%list_elem_of_singleton]; [by apply Hst|]. destruct Hv. by rewrite Hid.
    + pose proof (update_first_elem i f (records s) e) as Hel. destruct (update_first i f (records s)) as [l p]. cbn in *.
      destruct (Hel He) as [?|(b & Hb & _ & ->)]; [by apply Hst|]. destruct (Hv b) as (Hb1 & _ & Hb2). apply Hb2, Hst; [done|congruence].
  - split; [apply list_elem_of_In, Hin1, list_elem_of_In; rewrite Hid; by apply list_elem_of_fmap_2|].
    intros e' He'%Hsub Hid'. rewrite (unique_same (with_records (changed c s).1 s) e' e); [done|done|done|done|congruence].
Qed.
Lemma history_remembers max s used log now : history max s used log now ->
  incl (execution_id <$> records s) used /\ unique s /\ once used s log /\ forall i, remembers now s log i.
Proof.
  induction 1 as [now|s used log now now' c H (Hin & Hu & Honce & Hrem) Hle Hv|s used log now now' H (Hin & Hu & Honce & Hrem) Hle]; cycle 2.
  { split; [done|]. split; [done|]. split; [done|]. intros i. by apply (remembers_mono now). }
  { split; [apply incl_refl|]. split; [constructor|]. split; [by intros x ?%elem_of_nil|]. intros i. split; [constructor|done]. }
  destruct (changed_ids used c s Hv Hin Hu) as [Hu1 Hin1].
  assert (Hids : execution_id <$> records (step now' c s) `sublist_of` execution_id <$> (changed c s).1) by apply fmap_sublist, step_sublist.
  split. { intros x Hx. apply Hin1, list_elem_of_In. apply list_elem_of_In in Hx. by eapply elem_of_sublist. }
  split; [by eapply sublist_NoDup|]. split; [by apply step_once|]. intros i.
  assert (Hnew : forall j x, x ∈ (starts_of j log).*1 -> x ∈ used /\ forall e, e ∈ records s -> execution_id e = x -> is_Some (started_at e)).
  { intros j x (t & Hx)%starts_of_elem. exact (Honce _ Hx). }
  destruct c as [e|k f]; cbn [new_start used_by step] in *.
  - unfold record. apply (remembers_ext _ (remember_start now' e s)); [by rewrite enforce_starts|].
    apply (remember_start_spec now now' e); [done| |done]. intros [Hx _]%Hnew. by apply Hv.
  - unfold update, update_and_get. pose proof (update_first_spec k f (records s)) as Hs.
    destruct (update_first k f (records s)) as [l [[b r]|]]; cbn in *; [|rewrite app_nil_r; by apply (remembers_mono now)].
    destruct (List.find _ _) as [b'|] eqn:Hf; [|done]. injection Hs as -> ->. apply find_some in Hf as [Hb Hk]. apply list_elem_of_In in Hb.
    destruct (started_at b') eqn:Est; [rewrite app_nil_r; apply (remembers_ext _ s); [by rewrite enforce_starts|by apply (remembers_mono now)]|].
    apply (remembers_ext _ (remember_start now' (f b') (with_records l s))); [by rewrite enforce_starts|].
    apply (remember_start_spec now now'); [done| |by apply (remembers_ext _ s)]. intros [_ Hx]%Hnew.
    destruct (Hv b') as (Hid & _ & _). destruct (Hx b' Hb) as [t Ht]; congruence.
Qed.

Lemma new_start_fresh used s log c x j : valid used c -> once used s log -> x ∈ new_start c s -> x.2.1 ∉ (starts_of j log).*1.
Proof.
  intros Hv Honce Hx (t & Hin)%starts_of_elem. apply Honce in Hin as [Hin Hst]. cbn in *.
  destruct c as [e|i f]; cbn [new_start] in Hx.
  - fold (start_of e) in Hx. unfold start_of in Hx. destruct (started_at e); [|by apply elem_of_nil in Hx].
    case_bool_decide; [by apply elem_of_nil in Hx|]. apply list_elem_of_singleton in Hx as ->. by apply Hv.
  - rewrite update_first_spec in Hx. destruct (List.find _ _) as [b|] eqn:Hf; [|by apply elem_of_nil in Hx].
    apply find_some in Hf as [Hb _]. apply list_elem_of_In in Hb. cbn in Hx. destruct (started_at b) eqn:Est; [by apply elem_of_nil in Hx|].
    destruct (Hv b) as (Hid & _ & _). fold (start_of (f b)) in Hx. unfold start_of in Hx. destruct (started_at (f b)); [|by apply elem_of_nil in Hx].
    case_bool_decide; [by apply elem_of_nil in Hx|]. apply list_elem_of_singleton in Hx as ->. destruct (Hst b Hb); [by symmetry|congruence].
Qed.
Lemma new_start_short c s : (length (new_start c s) <= 1)%nat.
Proof.
  destruct c as [e|i f]; cbn; [destruct (started_at e); [case_bool_decide|]; cbn; lia|].
  destruct (update_first _ _ _).2 as [[b r]|]; [|cbn; lia]. destruct (started_at b); [cbn; lia|].
  destruct (started_at r); [case_bool_decide|]; cbn; lia.
Qed.
Lemma history_once max s used log now i : history max s used log now -> NoDup (starts_of i log).*1.
Proof.
  induction 1 as [now|s used log now now' c H IH Hle Hv|]; [constructor| |done].
  pose proof (history_remembers _ _ _ _ _ H) as (_ & _ & Honce & _).
  unfold starts_of in *. rewrite list.filter_app, !fmap_app. pose proof (new_start_short c s).
  assert (Hf : forall x, x ∈ new_start c s -> x.2.1 ∉ (starts_of i log).*1) by (intros x; by apply (new_start_fresh used)).
  unfold starts_of in Hf. destruct (new_start c s) as [|x [|]]; [by rewrite app_nil_r| |cbn in *; lia].
  rewrite filter_cons, filter_nil. destruct (decide (x.1 = i)); [|by rewrite app_nil_r].
  apply list.NoDup_app. split; [done|]. split; [|apply NoDup_singleton]. cbn. intros y Hy ->%list_elem_of_singleton.
  by apply (Hf x); [set_solver|].
Qed.

(** Whatever records have been dropped, what started since a time within the hour
    is counted exactly, each execution once. *)
Theorem started_since_exact (max : Z) (s : ExecutionStore) (used : list string) (log : list (string * (string * Z))) (now : Z)
    (i : string) (since : Z) :
  history max s used log now -> now - hour <= since ->
  started_since i since s = zlen (recent since (starts_of i log)) /\ NoDup (starts_of i log).*1.
Proof.
  intros H Hs. pose proof (history_remembers _ _ _ _ _ H) as (_ & _ & _ & Hrem). destruct (Hrem i) as [_ Hr].
  split; [|by eapply history_once].
  unfold started_since. rewrite <- (recent_recent (now - hour)), <- Hr, recent_recent by lia. by destruct (recent_starts s !! i).
Qed.

(** ** A history *)
Definition run_example (i : string) (at_ : Z) : ScheduleExecution :=
  mkExecution i "s" at_ (Some at_) (Some at_) Completed None Null Null None.
Definition recorded_example (i : string) (at_ : Z) : Change := Recorded (run_example i at_).
Definition stored_example : ExecutionStore := step 1 (recorded_example "b" 1) (step 0 (recorded_example "a" 0) (with_retention 1)).
Lemma history_example : history 1 stored_example ["a"; "b"]%string [("s", ("a", 0)); ("s", ("b", 1))]%string 1.
Proof.
  assert (H : history 1 (step 0 (recorded_example "a" 0) (with_retention 1)) ["a"]%string [("s", ("a", 0))]%string 0).
  { apply (history_change 1 _ [] [] 0 0 (recorded_example "a" 0)); [apply history_new|lia|cbn; set_solver]. }
  apply (history_change 1 _ _ _ 0 1 (recorded_example "b" 1) H); [lia|]. cbn. set_solver.
Qed.
Lemma retention_witness :
  records (step 2 (recorded_example "c" 2) stored_example) = [run_example "c" 2] /\
  forall i, zlen (of_schedule i (records (step 2 (recorded_example "c" 2) stored_example))) <=
    Z.max 1 (zlen (active_of i (step 2 (recorded_example "c" 2) stored_example))).
Proof.
  split; [vm_compute; reflexivity|].
  refine (proj1 (proj2 (retention 1 stored_example _ _ 1 2 (recorded_example "c" 2) _ history_example _ _))); [lia|lia|]. cbn. set_solver.
Defined.
Lemma started_since_exact_witness :
  started_since "s" 0 stored_example = 2 /\
  started_since "s" 0 stored_example = zlen (recent 0 (starts_of "s" [("s", ("a", 0)); ("s", ("b", 1))]%string)).
Proof.
  split; [vm_compute; reflexivity|]. refine (proj1 (started_since_exact 1 stored_example _ _ 1 "s" 0 history_example _)). vm_compute. discriminate.
Defined.
