(* ===== verification/Occurrence.v ===== *)
(** * Receipts of one-time schedules

    Models [crates/hf-scheduler/src/occurrence.rs] and
    [crates/hf-storage/src/schedule_occurrence_store.rs] over the tables of the
    migrations 0004, 0023 and 0025, with the deletion of
    [schedule_execution_store.rs].  A statement runs whole, fails without effect, or
    takes effect and is reported as failed; a list gives the failures to come.  The
    creation and update times, which nothing reads, are left out. *)
From S2P Require Import Prelude Effect.

(** ** [occurrence.rs] *)
Definition ONE_TIME_LEASE : Z := 60 * 10 ^ 9.
Definition MAX_RECOVERY_DETAIL_BYTES : Z := 4096.
Inductive OneTimeOccurrenceState := Reserved | Running | Completed | Failed | Cancelled.
#[export] Instance OneTimeOccurrenceState_eq_dec : EqDecision OneTimeOccurrenceState.
Proof. solve_decision. Defined.
Inductive OccurrenceValidationError := EmptyIdentity | InvalidLeaseShape | RecoveryDetailTooLarge | UnknownState (s : string).
Definition display_occurrence_state (s : OneTimeOccurrenceState) : string :=
  match s with
  | Reserved => "reserved" | Running => "running" | Completed => "completed" | Failed => "failed" | Cancelled => "cancelled"
  end.
Definition occurrence_state_from_str (value : string) : Result OccurrenceValidationError OneTimeOccurrenceState :=
  if String.eqb value "reserved" then Ok Reserved
  else if String.eqb value "running" then Ok Running
  else if String.eqb value "completed" then Ok Completed
  else if String.eqb value "failed" then Ok Failed
  else if String.eqb value "cancelled" then Ok Cancelled
  else Err (UnknownState value).

Record OneTimeOccurrence := mkOccurrence {
  occurrence_id : string;
  occurrence_schedule_id : string;
  occurrence_execution_id : string;
  occurrence_triggered_at : Z;
  state : OneTimeOccurrenceState;
  owner_id : string;
  lease_expires_at : option Z;
  recovery_detail : option string;
}.
Definition transition_allowed (from to : OneTimeOccurrenceState) : bool :=
  match from, to with
  | Reserved, (Running | Cancelled) => true
  | Running, (Completed | Failed | Cancelled) => true
  | _, _ => false
  end.
Definition terminal_state (s : OneTimeOccurrenceState) : bool :=
  match s with Completed | Failed | Cancelled => true | _ => false end.
Definition terminal (o : OneTimeOccurrence) : bool := terminal_state (state o).
Definition recovery_eligible (o : OneTimeOccurrence) (now : Z) : bool :=
  negb (terminal o) && match lease_expires_at o with Some l => l <=? now | None => false end.
Definition slen (s : string) : Z := Z.of_nat (String.length s).
Definition bounded_recovery_detail (detail : string) : Result OccurrenceValidationError string :=
  if MAX_RECOVERY_DETAIL_BYTES <? slen detail then Err RecoveryDetailTooLarge else Ok detail.
Definition is_empty (s : string) : bool := String.eqb s "".
Definition is_none {A} (o : option A) : bool := match o with None => true | Some _ => false end.
Definition validate (o : OneTimeOccurrence) : Result OccurrenceValidationError unit :=
  if is_empty (occurrence_id o) || is_empty (occurrence_schedule_id o) || is_empty (occurrence_execution_id o) || is_empty (owner_id o)
  then Err EmptyIdentity
  else if negb (Bool.eqb (terminal o) (is_none (lease_expires_at o))) then Err InvalidLeaseShape
  else match recovery_detail o with Some d => bounded_recovery_detail d ;; Ok tt | None => Ok tt end.

(** ** The tables *)
Record ReceiptRow := mkReceipt {
  r_id : string;
  r_schedule_id : string;
  r_execution_id : string;
  r_triggered_at : string;
  r_state : string;
  r_owner_id : string;
  r_lease_expires_at : option string;
  r_recovery_detail : option string;
}.
Record ExecutionRow := mkExecutionRow {
  x_id : string;
  x_schedule_id : string;
  x_triggered_at : string;
  x_status : string;
  x_data_json : string;
}.
Inductive StorageError :=
| Db_ (e : string) | Migrate (e : string) | Serde (e : string) | Timestamp (e : string) | InvalidData (e : string) | NotFound (e : string).
(** [retired]: the schedules whose history the triggers refuse.  A fault is an error
    and whether the statement took effect all the same. *)
Record Db := mkDb {
  receipts : list ReceiptRow;
  executions : list ExecutionRow;
  retired : list string;
  faults : list (option (string * bool));
}.
Abbreviation Sql := (Eff Db StorageError).

Definition statement {A} (run : Db -> Result string (Db * A)) : Sql A :=
  fun d =>
    let d' := mkDb (receipts d) (executions d) (retired d) (tail (faults d)) in
    match head (faults d), run d' with
    | Some (Some (e, true)), Ok (d', _) => (d', Err (Db_ e))
    | Some (Some (e, _)), _ => (d', Err (Db_ e))
    | _, Ok (d', a) => (d', Ok a)
    | _, Err e => (d', Err (Db_ e))
    end.
Definition select {A} (f : Db -> A) : Sql A := statement (fun d => Ok (d, f d)).
Definition with_receipts (l : list ReceiptRow) (d : Db) : Db := mkDb l (executions d) (retired d) (faults d).
Definition with_executions (l : list ExecutionRow) (d : Db) : Db := mkDb (receipts d) l (retired d) (faults d).
(** [begin], a body and [commit]: unless all of them succeed, or the commit took
    effect, nothing has changed. *)
Definition transaction {A} (body : Sql A) : Sql A :=
  fun d =>
    let undo d' := mkDb (receipts d) (executions d) (retired d) (faults d') in
    match select (fun _ => tt) d with
    | (d1, Ok _) =>
        match body d1 with
        | (d2, Ok a) =>
            match head (faults d2) with
            | Some (Some (e, false)) => (undo (mkDb (receipts d2) (executions d2) (retired d2) (tail (faults d2))), Err (Db_ e))
            | Some (Some (e, true)) => (mkDb (receipts d2) (executions d2) (retired d2) (tail (faults d2)), Err (Db_ e))
            | _ => (mkDb (receipts d2) (executions d2) (retired d2) (tail (faults d2)), Ok a)
            end
        | (d2, Err e) => (undo d2, Err e)
        end
    | (d1, Err e) => (undo d1, Err e)
    end.

Definition lease_matches_state (s : string) (lease : option string) : bool :=
  if String.eqb s "reserved" || String.eqb s "running" then negb (is_none lease)
  else if String.eqb s "completed" || String.eqb s "failed" || String.eqb s "cancelled" then is_none lease
  else false.
Definition detail_is_bounded (detail : option string) : bool :=
  match detail with Some d => slen d <=? MAX_RECOVERY_DETAIL_BYTES | None => true end.
(** The checks of the table, and its triggers. *)
Definition receipt_error (d : Db) (r : ReceiptRow) : option string :=
  if existsb (String.eqb (r_schedule_id r)) (retired d) then Some "schedule occurrence belongs to a proven-retired schedule"
  else if negb (lease_matches_state (r_state r) (r_lease_expires_at r)) then Some "CHECK constraint failed: schedule_occurrences"
  else if negb (detail_is_bounded (r_recovery_detail r)) then Some "CHECK constraint failed: recovery_detail"
  else None.
(** [INSERT ... ON CONFLICT(schedule_id) DO NOTHING], and the rows it added. *)
Definition insert_receipt (r : ReceiptRow) : Sql nat :=
  statement (fun d =>
    match receipt_error d r with
    | Some e => Err e
    | None =>
        if existsb (fun r' => String.eqb (r_schedule_id r') (r_schedule_id r)) (receipts d) then Ok (d, 0%nat)
        else if existsb (fun r' => String.eqb (r_id r') (r_id r)) (receipts d) then Err "UNIQUE constraint failed: schedule_occurrences.id"
        else if existsb (fun r' => String.eqb (r_execution_id r') (r_execution_id r)) (receipts d)
        then Err "UNIQUE constraint failed: schedule_occurrences.execution_id"
        else Ok (with_receipts (receipts d ++ [r]) d, 1%nat)
    end).
Definition insert_execution (x : ExecutionRow) : Sql unit :=
  statement (fun d =>
    if existsb (String.eqb (x_schedule_id x)) (retired d) then Err "schedule execution belongs to a proven-retired schedule"
    else if existsb (fun x' => String.eqb (x_id x') (x_id x)) (executions d) then Err "UNIQUE constraint failed: schedule_executions.id"
    else Ok (with_executions (executions d ++ [x]) d, tt)).
(** [UPDATE schedule_occurrences SET ... WHERE p]. *)
Definition update_receipts (p : ReceiptRow -> bool) (f : ReceiptRow -> ReceiptRow) : Sql nat :=
  statement (fun d =>
    match find_map (fun r => if p r then receipt_error d (f r) else None) (receipts d) with
    | Some e => Err e
    | None => Ok (with_receipts ((fun r => if p r then f r else r) <$> receipts d) d, length (List.filter p (receipts d)))
    end).
(** [UPDATE schedule_executions SET status, data_json WHERE id]. *)
Definition update_execution (i status data_json : string) : Sql nat :=
  statement (fun d =>
    let hit x := String.eqb (x_id x) i in
    if existsb (fun x => hit x && existsb (String.eqb (x_schedule_id x)) (retired d)) (executions d)
    then Err "schedule execution belongs to a proven-retired schedule"
    else Ok (with_executions ((fun x => if hit x then mkExecutionRow (x_id x) (x_schedule_id x) (x_triggered_at x) status data_json else x) <$> executions d) d,
             length (List.filter hit (executions d)))).

(** ** [schedule_occurrence_store.rs] *)
Record ScheduleOccurrenceRecord := mkRecord {
  receipt : ReceiptRow;
  execution_status : option string;
  execution_data_json : option string;
}.
Record NewScheduleOccurrence := mkNew {
  n_id : string;
  n_schedule_id : string;
  n_execution_id : string;
  n_triggered_at : string;
  n_owner_id : string;
  n_lease_expires_at : string;
  n_execution_status : string;
  n_execution_data_json : string;
}.
Inductive ScheduleOccurrenceReservation := ReservedRow (r : ScheduleOccurrenceRecord) | ExistingRow (r : ScheduleOccurrenceRecord).
Record ScheduleOccurrenceTransition := mkTransition {
  t_occurrence_id : string;
  t_schedule_id : string;
  t_execution_id : string;
  t_owner_id : string;
  t_from_state : string;
  t_to_state : string;
  t_lease_expires_at : option string;
  t_recovery_detail : option string;
  t_execution_status : string;
  t_execution_data_json : string;
}.
Inductive ScheduleOccurrenceTransitionResult :=
| AppliedRow (r : ScheduleOccurrenceRecord) | IdempotentRow (r : ScheduleOccurrenceRecord)
| ConflictRow (r : ScheduleOccurrenceRecord) | MissingRow.
Inductive ScheduleOccurrenceAcknowledgement :=
| AcknowledgedRow (r : ScheduleOccurrenceRecord) | AlreadyCancelledRow (r : ScheduleOccurrenceRecord)
| AckConflictRow (r : ScheduleOccurrenceRecord) | AckMissingRow.

(** [OCCURRENCE_SELECT]: the receipt with its execution, where there is one. *)
Definition joined (d : Db) (r : ReceiptRow) : ScheduleOccurrenceRecord :=
  let x := List.find (fun x => String.eqb (x_id x) (r_execution_id r)) (executions d) in
  mkRecord r (x_status <$> x) (x_data_json <$> x).
Definition record_from_row (r : ScheduleOccurrenceRecord) : Result StorageError ScheduleOccurrenceRecord :=
  let o := receipt r in
  if is_empty (r_id o) || is_empty (r_schedule_id o) || is_empty (r_execution_id o) || is_empty (r_owner_id o)
     || negb (lease_matches_state (r_state o) (r_lease_expires_at o)) || negb (detail_is_bounded (r_recovery_detail o))
  then Err (InvalidData "invalid stored one-time occurrence") else Ok r.
Definition find_receipt (p : ReceiptRow -> bool) (d : Db) : option ScheduleOccurrenceRecord := joined d <$> List.find p (receipts d).
Definition load_where (p : ReceiptRow -> bool) : Sql (option ScheduleOccurrenceRecord) :=
  row ← select (find_receipt p);
  match row with Some row => lift (Some <$> record_from_row row) | None => mret None end.
Definition has_id (i : string) (r : ReceiptRow) : bool := String.eqb (r_id r) i.
Definition load_by_id (i : string) : Sql (option ScheduleOccurrenceRecord) := load_where (has_id i).
Definition load_by_schedule (i : string) : Sql ScheduleOccurrenceRecord :=
  r ← load_where (fun r => String.eqb (r_schedule_id r) i);
  match r with Some r => mret r | None => fail (Db_ "no rows returned by a query that expected to return at least one row") end.
Definition schedule_occurrence (i : string) : Sql (option ScheduleOccurrenceRecord) := load_by_id i.
Definition or_missing {A} (what : string) (o : option A) : Sql A :=
  match o with Some a => mret a | None => fail (InvalidData what) end.
Definition require_occurrence_execution (n : nat) : Sql unit :=
  if (n =? 1)%nat then mret tt else fail (InvalidData "occurrence execution is missing").

Definition reserve_schedule_occurrence (new : NewScheduleOccurrence) : Sql ScheduleOccurrenceReservation :=
  if is_empty (n_id new) || is_empty (n_schedule_id new) || is_empty (n_execution_id new) || is_empty (n_owner_id new)
     || negb (String.eqb (n_execution_status new) "pending")
  then fail (InvalidData "invalid one-time occurrence reservation")
  else
    existing ← transaction (
      inserted ← insert_receipt (mkReceipt (n_id new) (n_schedule_id new) (n_execution_id new) (n_triggered_at new) "reserved"
                                   (n_owner_id new) (Some (n_lease_expires_at new)) None);
      if (inserted =? 0)%nat then existing ← load_by_schedule (n_schedule_id new); mret (Some existing)
      else
        insert_execution (mkExecutionRow (n_execution_id new) (n_schedule_id new) (n_triggered_at new)
                            (n_execution_status new) (n_execution_data_json new)) ;;
        mret None);
    match existing with
    | Some existing => mret (ExistingRow existing)
    | None =>
        record ← schedule_occurrence (n_id new);
        record ← or_missing "reserved occurrence is missing" record;
        mret (ReservedRow record)
    end.

Definition str_in (s : string) (l : list string) : bool := existsb (String.eqb s) l.
Definition transition_permitted (from to : string) : bool :=
  String.eqb from "reserved" && str_in to ["running"; "cancelled"]
  || String.eqb from "running" && str_in to ["completed"; "failed"; "cancelled"].
Definition option_eqb (a b : option string) : bool := bool_decide (a = b).
Definition is_exact_terminal_repeat (record : ScheduleOccurrenceRecord) (t : ScheduleOccurrenceTransition) : bool :=
  let o := receipt record in
  str_in (t_to_state t) ["completed"; "failed"; "cancelled"]
  && String.eqb (r_id o) (t_occurrence_id t) && String.eqb (r_schedule_id o) (t_schedule_id t)
  && String.eqb (r_execution_id o) (t_execution_id t) && String.eqb (r_owner_id o) (t_owner_id t)
  && String.eqb (r_state o) (t_to_state t) && option_eqb (r_lease_expires_at o) (t_lease_expires_at t)
  && option_eqb (r_recovery_detail o) (t_recovery_detail t)
  && match execution_status record, execution_data_json record with
     | Some status, Some data => String.eqb status (t_execution_status t) && String.eqb data (t_execution_data_json t)
     | None, None => true
     | _, _ => false
     end.
(** The row a transition changes, and what it becomes. *)
Definition concerns (t : ScheduleOccurrenceTransition) (r : ReceiptRow) : bool :=
  String.eqb (r_id r) (t_occurrence_id t) && String.eqb (r_schedule_id r) (t_schedule_id t)
  && String.eqb (r_execution_id r) (t_execution_id t) && String.eqb (r_owner_id r) (t_owner_id t)
  && String.eqb (r_state r) (t_from_state t).
Definition with_state (s : string) (lease detail : option string) (r : ReceiptRow) : ReceiptRow :=
  mkReceipt (r_id r) (r_schedule_id r) (r_execution_id r) (r_triggered_at r) s (r_owner_id r) lease detail.
Definition transition_schedule_occurrence (t : ScheduleOccurrenceTransition) : Sql ScheduleOccurrenceTransitionResult :=
  if negb (transition_permitted (t_from_state t) (t_to_state t)) then
    current ← schedule_occurrence (t_occurrence_id t);
    mret (match current with None => MissingRow | Some r => ConflictRow r end)
  else if is_empty (t_occurrence_id t) || is_empty (t_schedule_id t) || is_empty (t_execution_id t) || is_empty (t_owner_id t)
     || negb (String.eqb (t_execution_status t) (t_to_state t))
     || negb (lease_matches_state (t_to_state t) (t_lease_expires_at t)) || negb (detail_is_bounded (t_recovery_detail t))
  then fail (InvalidData "invalid one-time occurrence transition")
  else
    transaction (
      updated ← update_receipts (concerns t) (with_state (t_to_state t) (t_lease_expires_at t) (t_recovery_detail t));
      if (updated =? 0)%nat then
        current ← load_by_id (t_occurrence_id t);
        mret (match current with
              | Some record => if is_exact_terminal_repeat record t then IdempotentRow record else ConflictRow record
              | None => MissingRow
              end)
      else
        n ← update_execution (t_execution_id t) (t_execution_status t) (t_execution_data_json t);
        require_occurrence_execution n ;;
        record ← load_by_id (t_occurrence_id t);
        record ← or_missing "transitioned occurrence is missing" record;
        mret (AppliedRow record)).

Definition is_open (r : ReceiptRow) : bool := str_in (r_state r) ["reserved"; "running"].
Definition owned (i owner : string) (r : ReceiptRow) : bool :=
  String.eqb (r_id r) i && String.eqb (r_owner_id r) owner && is_open r.
Definition renew_schedule_occurrence_lease (i owner lease : string) : Sql bool :=
  if is_empty i || is_empty owner || is_empty lease then fail (InvalidData "invalid one-time occurrence lease renewal")
  else
    updated ← update_receipts (owned i owner) (fun r => with_state (r_state r) (Some lease) (r_recovery_detail r) r);
    mret (updated =? 1)%nat.
Definition release_schedule_occurrence_lease (i owner released_at detail : string) : Sql bool :=
  if is_empty i || is_empty owner || is_empty released_at || negb (detail_is_bounded (Some detail))
  then fail (InvalidData "invalid one-time occurrence lease release")
  else
    updated ← update_receipts (owned i owner) (fun r => with_state (r_state r) (Some released_at) (Some detail) r);
    mret (updated =? 1)%nat.

Section time.
(** SQLite's [julianday]; comparisons with NULL do not hold. *)
Context (julianday : string -> option Z).
Definition expired_by (at_ : string) (r : ReceiptRow) : bool :=
  match r_lease_expires_at r ≫= julianday, julianday at_ with Some l, Some a => l <=? a | _, _ => false end.
Definition acknowledge_schedule_occurrence (i acknowledged_at detail execution_status execution_data_json : string)
    : Sql ScheduleOccurrenceAcknowledgement :=
  if is_empty i || is_empty acknowledged_at || negb (String.eqb execution_status "cancelled") || negb (detail_is_bounded (Some detail))
  then fail (InvalidData "invalid one-time occurrence acknowledgement")
  else
    transaction (
      updated ← update_receipts (fun r => has_id i r && is_open r && expired_by acknowledged_at r) (with_state "cancelled" None (Some detail));
      if (updated =? 0)%nat then
        current ← load_by_id i;
        mret (match current with
              | Some record => if String.eqb (r_state (receipt record)) "cancelled" then AlreadyCancelledRow record else AckConflictRow record
              | None => AckMissingRow
              end)
      else
        execution ← select (fun d => r_execution_id <$> List.find (has_id i) (receipts d));
        match execution with
        | None => fail (Db_ "no rows returned by a query that expected to return at least one row")
        | Some execution_id =>
            n ← update_execution execution_id execution_status execution_data_json;
            require_occurrence_execution n ;;
            record ← load_by_id i;
            record ← or_missing "acknowledged occurrence is missing" record;
            mret (AcknowledgedRow record)
        end).
End time.

Inductive ScheduleOccurrenceInspection := ValidRow (r : ScheduleOccurrenceRecord) | MalformedRow (schedule_id : option string).
Definition by_trigger (a b : ReceiptRow) : comparison :=
  match String.compare (r_triggered_at a) (r_triggered_at b) with Eq => String.compare (r_id a) (r_id b) | c => c end.
Definition inspect_schedule_occurrences : Sql (list ScheduleOccurrenceInspection) :=
  rows ← select (fun d => joined d <$> sort_by by_trigger (receipts d));
  mret ((fun row =>
    match record_from_row row with
    | Ok record => ValidRow record
    | Err _ => let i := r_schedule_id (receipt row) in MalformedRow (if is_empty i then None else Some i)
    end) <$> rows).
Fixpoint all_valid (l : list ScheduleOccurrenceInspection) : Result StorageError (list ScheduleOccurrenceRecord) :=
  match l with
  | [] => Ok []
  | ValidRow r :: l => rs ← all_valid l; Ok (r :: rs)
  | MalformedRow _ :: _ => Err (InvalidData "invalid stored one-time occurrence")
  end.
Definition list_schedule_occurrences : Sql (list ScheduleOccurrenceRecord) :=
  l ← inspect_schedule_occurrences; lift (all_valid l).

(** [DELETE_CLEARABLE_EXECUTIONS AND id = ?]: what is still open keeps its execution. *)
Definition protected (d : Db) (i : string) : bool := existsb (fun r => is_open r && String.eqb (r_execution_id r) i) (receipts d).
Definition delete_clearable (i : string) : Sql nat :=
  statement (fun d =>
    let gone x := String.eqb (x_id x) i && negb (protected d i) in
    Ok (with_executions (List.filter (fun x => negb (gone x)) (executions d)) d, length (List.filter gone (executions d)))).
(** [clear_schedule_execution_records], of identifiers and the data inspected. *)
Fixpoint clear_records (l : list (string * string)) (cleared : nat) : Sql nat :=
  match l with
  | [] => mret cleared
  | (i, data_json) :: l =>
      current ← select (fun d => x_data_json <$> List.find (fun x => String.eqb (x_id x) i) (executions d));
      match current with
      | None => fail (NotFound "selected schedule execution")
      | Some current =>
          if negb (String.eqb current data_json)
          then fail (InvalidData "selected schedule execution changed; retry clearing history")
          else n ← delete_clearable i; clear_records l (cleared + n)
      end
  end.
Definition clear_schedule_execution_records (l : list (string * string)) : Sql nat := transaction (clear_records l 0).

(** ** Statements and transactions, whatever fails *)
Definition with_faults (f : list (option (string * bool))) (d : Db) : Db := mkDb (receipts d) (executions d) (retired d) f.
Lemma wp_statement {A} (run : Db -> Result string (Db * A)) (Q : Db -> Result StorageError A -> Prop) d :
  (forall f e, Q (with_faults f d) (Err e)) ->
  (forall f, match run (with_faults f d) with Ok (d', a) => Q d' (Ok a) /\ forall e, Q d' (Err e) | Err _ => True end) ->
  wp (statement run) Q d.
Proof.
  intros He Hr. unfold wp, statement. fold (with_faults (tail (faults d)) d). specialize (Hr (tail (faults d))).
  destruct (run _) as [[d' a]|]; destruct (head (faults d)) as [[[err []]|]|]; cbn in *; try apply Hr; apply He.
Qed.
Lemma wp_select_rows {A} (f : Db -> A) (Q : Db -> Result StorageError A -> Prop) d :
  (forall g e, Q (with_faults g d) (Err e)) -> (forall g, Q (with_faults g d) (Ok (f (with_faults g d)))) -> wp (select f) Q d.
Proof. intros He Hr. apply wp_statement; [done|]. intros g. by split. Qed.
Lemma wp_transaction {A} (body : Sql A) (Q : Db -> Result StorageError A -> Prop) d :
  (forall f e, Q (with_faults f d) (Err e)) ->
  (forall f, wp body (fun d' r => match r with
    | Ok a => forall g, Q (with_faults g d') (Ok a) /\ forall e, Q (with_faults g d') (Err e)
    | Err _ => True end) (with_faults f d)) ->
  wp (transaction body) Q d.
Proof.
  intros He Hb. unfold wp, transaction. destruct (select (fun _ => tt) d) as [d1 r1] eqn:E1.
  assert (exists f, d1 = with_faults f d) as [f ->].
  { exists (tail (faults d)). unfold select, statement in E1. cbn in E1. destruct (head _) as [[[err []]|]|]; by simplify_eq. }
  destruct r1 as [[]|e]; [|apply He]. specialize (Hb f). unfold wp in Hb. destruct (body (with_faults f d)) as [d2 [a|e]]; cbn in *; [|apply He].
  fold (with_faults (tail (faults d2)) d2). destruct (head (faults d2)) as [[[err []]|]|]; cbn; try apply He; apply Hb.
Qed.

(** ** What holds of the tables *)
Definition find_execution (i : string) (l : list ExecutionRow) : option ExecutionRow := List.find (fun x => String.eqb (x_id x) i) l.
#[local] Arguments find_execution : simpl never.
#[local] Arguments is_open : simpl never.
Definition execution_state (s : string) : string := if String.eqb s "reserved" then "pending" else s.
(** A receipt is well-formed, and its execution is there, unless it is closed, and in
    its state. *)
Definition receipt_ok (d : Db) (r : ReceiptRow) : Prop :=
  record_from_row (joined d r) = Ok (joined d r) /\
  match find_execution (r_execution_id r) (executions d) with
  | Some x => x_status x = execution_state (r_state r)
  | None => is_open r = false
  end.
Record well_formed (d : Db) : Prop := {
  ids_differ : NoDup (r_id <$> receipts d);
  schedules_differ : NoDup (r_schedule_id <$> receipts d);
  executions_differ : NoDup (r_execution_id <$> receipts d);
  rows_differ : NoDup (x_id <$> executions d);
  receipts_ok : Forall (receipt_ok d) (receipts d);
}.
(** A receipt keeps its identity; an open one may change its lease, or move on. *)
Inductive moves (r : ReceiptRow) : ReceiptRow -> Prop :=
| moves_lease lease detail : is_open r = true -> moves r (with_state (r_state r) (Some lease) detail r)
| moves_state s lease detail : transition_permitted (r_state r) s = true -> moves r (with_state s lease detail r).
(** From one state of the tables to the next: receipts that some authority let move,
    and at most one new, reserved. *)
Definition progress (authority : ReceiptRow -> Prop) (d d' : Db) : Prop :=
  retired d' = retired d /\
  exists old new, receipts d' = old ++ new /\
    Forall2 (fun r r' => r' = r \/ moves r r' /\ authority r) (receipts d) old /\
    (new = [] \/ exists r, new = [r] /\ r_state r = "reserved").

Lemma progress_refl authority d d' : receipts d' = receipts d -> retired d' = retired d -> progress authority d d'.
Proof.
  intros Hr Ht. split; [done|]. exists (receipts d), []. rewrite app_nil_r. split; [done|]. split; [|by left].
  apply Forall_Forall2_diag, Forall_forall. by left.
Qed.
Lemma well_formed_faults f d : well_formed (with_faults f d) <-> well_formed d.
Proof. split; intros []; by constructor. Qed.
Lemma receipt_ok_split d r :
  receipt_ok d r <-> (is_empty (r_id r) = false /\ is_empty (r_schedule_id r) = false /\ is_empty (r_execution_id r) = false /\ is_empty (r_owner_id r) = false)
    /\ (lease_matches_state (r_state r) (r_lease_expires_at r) = true /\ detail_is_bounded (r_recovery_detail r) = true)
    /\ match find_execution (r_execution_id r) (executions d) with Some x => x_status x = execution_state (r_state r) | None => is_open r = false end.
Proof.
  unfold receipt_ok, record_from_row, joined. cbn [receipt].
  destruct (is_empty (r_id r)), (is_empty (r_schedule_id r)), (is_empty (r_execution_id r)), (is_empty (r_owner_id r)),
    (lease_matches_state _ _), (detail_is_bounded _); cbn; intuition congruence.
Qed.
(** A receipt that moves keeps its identifiers. *)
Lemma map_if_fmap {A B} (g : A -> B) (p : A -> bool) (f : A -> A) (l : list A) :
  (forall a, g (f a) = g a) -> g <$> ((fun a => if p a then f a else a) <$> l) = g <$> l.
Proof. intros H. rewrite <- list_fmap_compose. apply list_fmap_ext. intros i a _. cbn. by destruct (p a). Qed.
Lemma find_execution_map (p : ExecutionRow -> bool) f (l : list ExecutionRow) i : (forall x, x_id (f x) = x_id x) ->
  find_execution i ((fun x => if p x then f x else x) <$> l) = (fun x => if p x then f x else x) <$> find_execution i l.
Proof.
  intros Hf. unfold find_execution. induction l as [|x l IH]; [done|]. cbn. replace (x_id (if p x then f x else x)) with (x_id x) by (by destruct (p x)).
  by destruct (String.eqb _ _).
Qed.
Lemma find_execution_filter p l i : NoDup (x_id <$> l) ->
  find_execution i (List.filter p l) = match find_execution i l with Some x => if p x then Some x else None | None => None end.
Proof.
  unfold find_execution. induction l as [|x l IH]; [done|]. cbn. intros [Hx Hl]%list.NoDup_cons. specialize (IH Hl).
  destruct (p x) eqn:Ep; cbn; destruct (String.eqb_spec (x_id x) i) as [<-|]; try done; rewrite ?Ep; try done.
  rewrite IH. destruct (List.find _ l) as [y|] eqn:E; [|done]. apply find_some in E as [Hy Hid%String.eqb_eq].
  destruct Hx. rewrite <- Hid. by apply list_elem_of_fmap_2, list_elem_of_In.
Qed.

(** ** Every operation keeps the tables well-formed, and receipts only move on *)
Definition keeps (authority : ReceiptRow -> Prop) (d d' : Db) : Prop := well_formed d' /\ progress authority d d'.
Lemma keeps_faults authority f d d' : keeps authority d (with_faults f d') <-> keeps authority d d'.
Proof. unfold keeps. by rewrite well_formed_faults. Qed.
Lemma keeps_from authority f d d' : keeps authority (with_faults f d) d' <-> keeps authority d d'.
Proof. done. Qed.
Lemma keeps_refl authority f d : well_formed d -> keeps authority d (with_faults f d).
Proof. intros H. split; [by apply well_formed_faults|by apply progress_refl]. Qed.
Lemma keeps_same authority d d' : well_formed d -> receipts d' = receipts d -> executions d' = executions d -> retired d' = retired d ->
  keeps authority d d'.
Proof. destruct d, d'; cbn. intros H -> -> ->. by apply (keeps_refl authority _ _ H). Qed.

(** The receipts [p] selects, all of which [f] moves. *)
Lemma map_progress authority d d' (p : ReceiptRow -> bool) f :
  retired d' = retired d -> receipts d' = (fun r => if p r then f r else r) <$> receipts d ->
  (forall r, r ∈ receipts d -> p r = true -> moves r (f r) /\ authority r) -> progress authority d d'.
Proof.
  intros Ht Hr Hm. split; [done|]. exists ((fun r => if p r then f r else r) <$> receipts d), []. rewrite app_nil_r.
  split; [done|]. split; [|by left]. apply Forall2_fmap_r, Forall_Forall2_diag, list.Forall_forall. intros r Hin.
  cbn. destruct (p r) eqn:E; [right; by apply Hm|by left].
Qed.
Lemma map_well_formed d (p : ReceiptRow -> bool) s lease detail xs f :
  well_formed d ->
  let g r := with_state (s r) (lease r) (detail r) r in
  let rs := (fun r => if p r then g r else r) <$> receipts d in
  NoDup (x_id <$> xs) -> Forall (receipt_ok (mkDb rs xs (retired d) f)) rs -> well_formed (mkDb rs xs (retired d) f).
Proof. intros [] g rs Hx Hok. constructor; cbn; subst rs; rewrite ?map_if_fmap; done. Qed.

(** An update that the table took satisfies its checks. *)
Lemma update_checked d (p : ReceiptRow -> bool) f : find_map (fun r => if p r then receipt_error d (f r) else None) (receipts d) = None ->
  forall r, r ∈ receipts d -> p r = true -> lease_matches_state (r_state (f r)) (r_lease_expires_at (f r)) = true /\ detail_is_bounded (r_recovery_detail (f r)) = true.
Proof.
  induction (receipts d) as [|r' l IH]; [by intros _ r ?%elem_of_nil|]. cbn. destruct (if p r' then _ else None) as [|] eqn:E; [done|].
  intros H r [->|Hr]%elem_of_cons Hp; [|by apply IH]. rewrite Hp in E. unfold receipt_error in E.
  destruct (existsb _ _); [done|]. destruct (lease_matches_state _ _); [|done]. by destruct (detail_is_bounded _).
Qed.
Lemma update_lease_keeps (i owner : string) (lease : string) (detail : ReceiptRow -> option string) d :
  well_formed d ->
  wp (n ← update_receipts (owned i owner) (fun r => with_state (r_state r) (Some lease) (detail r) r); mret (n =? 1)%nat)
    (fun d' _ => keeps (fun r => owned i owner r = true) d d') d.
Proof.
  intros Hd. apply wp_bind, wp_statement; [intros f e; by apply keeps_refl|].
  intros f. destruct (find_map _ _) as [e|] eqn:Hc; [done|]. pose proof (update_checked _ _ _ Hc) as Hchk. clear Hc.
  assert (Hk : keeps (fun r => owned i owner r = true) d
    (with_receipts ((fun r => if owned i owner r then with_state (r_state r) (Some lease) (detail r) r else r) <$> receipts d) (with_faults f d))).
  { split.
    - apply (map_well_formed d (owned i owner) r_state (fun _ => Some lease) detail (executions d) f); [done|apply Hd|].
      apply Forall_fmap, list.Forall_forall. intros r Hr. pose proof (proj1 (list.Forall_forall _ _) (receipts_ok d Hd) r Hr) as Hok.
      apply receipt_ok_split in Hok as (Hids & Hshape & Hx). apply receipt_ok_split. cbn.
      destruct (owned i owner r) eqn:Ho; [|done]. cbn. split; [done|]. split; [|done]. by apply (Hchk r).
    - eapply map_progress; [done|done|]. cbn. intros r _ Ho. split; [|done]. constructor. unfold owned in Ho. by apply andb_prop in Ho as [_ Ho]. }
  cbn. split; [by apply wp_ret|]. done.
Qed.

(** A transition to [to] of the only receipt [p] selects, with its execution. *)
Lemma update_execution_map i status data d :
  wp (update_execution i status data) (fun d' r => match r with
    | Ok n => exists f, d' = with_faults f (with_executions ((fun x => if String.eqb (x_id x) i then mkExecutionRow (x_id x) (x_schedule_id x) (x_triggered_at x) status data else x) <$> executions d) d)
        /\ n = length (List.filter (fun x => String.eqb (x_id x) i) (executions d))
    | Err _ => True end) d.
Proof. apply wp_statement; [done|]. intros f. cbv zeta. match goal with |- context [existsb ?p ?l] => destruct (existsb p l) end; [done|]. split; [|done]. by exists f. Qed.
Lemma load_by_id_ok i d (Q : Db -> Result StorageError (option ScheduleOccurrenceRecord) -> Prop) :
  (forall f r, Q (with_faults f d) r) -> wp (load_by_id i) Q d.
Proof.
  intros H. unfold load_by_id, load_where. apply wp_bind, wp_select_rows; [done|]. intros g.
  destruct (find_receipt _ _); [apply wp_lift|apply wp_ret]; apply H.
Qed.
Lemma fmap_same {A B} (g : A -> B) l a b : NoDup (g <$> l) -> a ∈ l -> b ∈ l -> g a = g b -> a = b.
Proof.
  intros Hn [x Hx]%list_elem_of_lookup [y Hy]%list_elem_of_lookup He.
  assert (x = y) as <- by (eapply (NoDup_lookup (g <$> l)); [done|rewrite list_lookup_fmap, Hx; done|rewrite list_lookup_fmap, Hy; cbn; by rewrite He]).
  congruence.
Qed.
Definition touch (i status data : string) (x : ExecutionRow) : ExecutionRow :=
  if String.eqb (x_id x) i then mkExecutionRow (x_id x) (x_schedule_id x) (x_triggered_at x) status data else x.
Lemma moved_well_formed d (p : ReceiptRow -> bool) to lease detail i data f r0 :
  well_formed d -> r0 ∈ receipts d -> p r0 = true -> to <> "reserved"%string ->
  (forall r, r ∈ receipts d -> p r = true -> r_execution_id r = i /\ lease_matches_state to lease = true /\ detail_is_bounded detail = true) ->
  length (List.filter (fun x => String.eqb (x_id x) i) (executions d)) = 1%nat ->
  well_formed (mkDb ((fun r => if p r then with_state to lease detail r else r) <$> receipts d) (touch i to data <$> executions d) (retired d) f).
Proof.
  intros Hd Hr0 Hp0 Hto Hp Hn.
  apply (map_well_formed d p (fun _ => to) (fun _ => lease) (fun _ => detail) (touch i to data <$> executions d) f); [done| |].
  { replace (x_id <$> (touch i to data <$> executions d)) with (x_id <$> executions d); [apply Hd|].
    rewrite <- list_fmap_compose. apply list_fmap_ext. intros k x _. cbn. unfold touch. by destruct (String.eqb _ _). }
  apply Forall_fmap, list.Forall_forall. intros r Hr. pose proof (proj1 (list.Forall_forall _ _) (receipts_ok d Hd) r Hr) as Hok.
  apply receipt_ok_split in Hok as (Hids & Hshape & Hx). apply receipt_ok_split. cbn.
  assert (Hf : find_execution (r_execution_id r) (touch i to data <$> executions d)
    = touch i to data <$> find_execution (r_execution_id r) (executions d)).
  { unfold touch. apply (find_execution_map (fun x => String.eqb (x_id x) i)). done. }
  destruct (p r) eqn:Ep; cbn; rewrite Hf; (split; [done|]).
  - destruct (Hp r Hr Ep) as (Hi & Hl & Hdet). split; [done|]. rewrite Hi. unfold find_execution. destruct (List.find _ _) as [x|] eqn:E; cbn.
    + apply find_some in E as [_ E]. unfold touch. rewrite E. cbn. unfold execution_state. by destruct (String.eqb_spec to "reserved").
    + exfalso. destruct (List.filter _ _) as [|x l] eqn:Ef; [done|]. assert (Hin : In x (x :: l)) by by left. rewrite <- Ef in Hin.
      apply filter_In in Hin as [Hin Hx']. by rewrite (find_none _ _ E x Hin) in Hx'.
  - split; [done|]. unfold find_execution in *. destruct (List.find _ _) as [x|] eqn:E; cbn; [|done].
    apply find_some in E as [_ E%String.eqb_eq]. unfold touch. destruct (String.eqb_spec (x_id x) i) as [Hi|]; [|done].
    exfalso. destruct (Hp r0 Hr0 Hp0) as [Hi0 _]. rewrite (fmap_same r_execution_id (receipts d) r r0) in Ep; [congruence|apply Hd|done|done|congruence].
Qed.

Definition checked (r : ReceiptRow) : Prop :=
  lease_matches_state (r_state r) (r_lease_expires_at r) = true /\ detail_is_bounded (r_recovery_detail r) = true.
Lemma wp_update_receipts (p : ReceiptRow -> bool) f d (Q : Db -> Result StorageError nat -> Prop) :
  (forall g e, Q (with_faults g d) (Err e)) ->
  (forall g, (forall r, r ∈ receipts d -> p r = true -> checked (f r)) ->
     let d' := with_receipts ((fun r => if p r then f r else r) <$> receipts d) (with_faults g d) in
     Q d' (Ok (length (List.filter p (receipts d)))) /\ forall e, Q d' (Err e)) ->
  wp (update_receipts p f) Q d.
Proof.
  intros He Hq. apply wp_statement; [done|]. intros g. destruct (find_map _ _) eqn:Hc; [done|]. apply Hq. exact (update_checked _ _ _ Hc).
Qed.
Lemma map_none {A} (p : A -> bool) f l : List.filter p l = [] -> (fun r => if p r then f r else r) <$> l = l.
Proof. induction l as [|x l IH]; [done|]. cbn. destruct (p x) eqn:E; [done|]. intros H. by rewrite IH. Qed.

(** What transitions and acknowledgements share: [p] selects receipts that may move to
    [to], and what runs next gives the identifier of their execution. *)
Section move.
Context {A : Type} (d : Db) (p : ReceiptRow -> bool) (to : string) (lease detail : option string) (i data : string).
Context (authority : ReceiptRow -> Prop) (missed next finished : Sql A).
Hypotheses (Hd : well_formed d) (Hto : to <> "reserved"%string).
Hypotheses (Hp : forall r, r ∈ receipts d -> p r = true -> transition_permitted (r_state r) to = true /\ authority r /\ r_execution_id r = i).
Hypotheses (Hmissed : forall d' (Q : Db -> Result StorageError A -> Prop), (forall f r, Q (with_faults f d') r) -> wp missed Q d').
Hypotheses (Hfinished : forall d' (Q : Db -> Result StorageError A -> Prop), (forall f r, Q (with_faults f d') r) -> wp finished Q d').
Definition touched : Sql A := n ← update_execution i to data; require_occurrence_execution n ;; finished.
Hypotheses (Hnext : forall f (Q : Db -> Result StorageError A -> Prop),
  let d' := with_receipts ((fun r => if p r then with_state to lease detail r else r) <$> receipts d) (with_faults f d) in
  (forall g e, Q (with_faults g d') (Err e)) -> (forall g, wp touched Q (with_faults g d')) -> wp next Q d').
Lemma move_keeps :
  wp (transaction (
    updated ← update_receipts p (with_state to lease detail);
    if (updated =? 0)%nat then missed else next))
    (fun d' _ => keeps authority d d') d.
Proof.
  apply wp_transaction; [intros; by apply keeps_refl|]. intros f. apply wp_bind, wp_update_receipts; [done|]. intros g Hchk.
  cbv zeta. split; [|done]. cbn [receipts with_faults] in *. destruct (Nat.eqb_spec (length (List.filter p (receipts d))) 0) as [H0|H0].
  - apply nil_length_inv in H0. rewrite map_none by done. apply Hmissed. intros h [a|]; [|done].
    split; [|intros e]; by apply keeps_same.
  - assert (exists r0, r0 ∈ receipts d /\ p r0 = true) as (r0 & Hr0 & Hp0).
    { destruct (List.filter p (receipts d)) as [|r0 l] eqn:E; [done|]. exists r0. rewrite list_elem_of_In. apply filter_In. rewrite E. by left. }
    apply (Hnext g); [done|]. intros g2. unfold touched. apply wp_bind. eapply wp_mono; [apply update_execution_map|].
    intros d2 [n|]; [|done]. intros (g3 & -> & Hn). apply wp_bind. unfold require_occurrence_execution.
    destruct (Nat.eqb_spec n 1) as [->|]; [apply wp_ret|by apply wp_fail]. apply Hfinished. intros g4 [a|]; [|done].
    assert (Hk : keeps authority d (mkDb ((fun r => if p r then with_state to lease detail r else r) <$> receipts d)
      (touch i to data <$> executions d) (retired d) g4)).
    { split.
      - eapply moved_well_formed; [done|exact Hr0|exact Hp0|done| |by rewrite Hn].
        intros r Hr Hpr. destruct (Hp r Hr Hpr) as (_ & _ & Hi). split; [done|]. exact (Hchk r Hr Hpr).
      - eapply map_progress; [done|done|]. intros r Hr Hpr. destruct (Hp r Hr Hpr) as (Hs & Ha & _). split; [by apply moves_state|done]. }
    split; [|intros e]; apply keeps_faults; exact Hk.
Qed.
End move.

Lemma permitted_target from to : transition_permitted from to = true -> to <> "reserved"%string.
Proof. intros H ->. unfold transition_permitted in H. cbn in H. by rewrite !andb_false_r in H. Qed.
Lemma transition_keeps t d : well_formed d ->
  wp (transition_schedule_occurrence t) (fun d' _ => keeps (fun r => concerns t r = true) d d') d.
Proof.
  intros Hd. unfold transition_schedule_occurrence. destruct (transition_permitted _ _) eqn:Hperm; cbn [negb]; cycle 1.
  { apply wp_bind, load_by_id_ok. intros f [r|]; [apply wp_ret|]; by apply keeps_refl. }
  destruct (_ || _) eqn:Hv; [by apply wp_fail, keeps_same|].
  assert (Hst : t_execution_status t = t_to_state t).
  { destruct (String.eqb_spec (t_execution_status t) (t_to_state t)); [done|]. by rewrite !orb_true_r in Hv. }
  assert (Hc : forall r, concerns t r = true -> r_execution_id r = t_execution_id t /\ r_state r = t_from_state t).
  { unfold concerns. intros r H. rewrite !andb_true_iff, !String.eqb_eq in H. tauto. }
  rewrite Hst.
  apply (move_keeps d (concerns t) (t_to_state t) (t_lease_expires_at t) (t_recovery_detail t) (t_execution_id t) (t_execution_data_json t)
    (fun r => concerns t r = true)) with (finished := record ← load_by_id (t_occurrence_id t);
      record ← or_missing "transitioned occurrence is missing" record; mret (AppliedRow record)); try done.
  - by eapply permitted_target.
  - intros r _ Hr. destruct (Hc r Hr) as [-> ->]. done.
  - intros d' Q HQ. apply wp_bind, load_by_id_ok. intros f [r|]; [apply wp_ret|]; apply HQ.
  - intros d' Q HQ. apply wp_bind, load_by_id_ok. intros f [r|]; [|apply HQ]. apply wp_bind.
    destruct r; [apply wp_ret, wp_ret|apply wp_fail]; apply HQ.
  - intros f Q d' He Hok. exact (Hok (faults d')).
Qed.
Lemma open_cancels r : is_open r = true -> transition_permitted (r_state r) "cancelled" = true.
Proof.
  unfold is_open, transition_permitted, str_in. cbn. destruct (String.eqb (r_state r) "reserved"); [done|]. cbn.
  rewrite orb_false_r. by intros ->.
Qed.
Lemma find_first {A} (p : A -> bool) (l : list A) a : a ∈ l -> p a = true -> (forall b, b ∈ l -> p b = true -> b = a) -> List.find p l = Some a.
Proof.
  intros Ha Hp Hu. destruct (List.find p l) as [b|] eqn:E.
  - apply find_some in E as [Hb E]. f_equal. apply Hu; [by apply list_elem_of_In|done].
  - apply list_elem_of_In in Ha. by rewrite (find_none _ _ E a Ha) in Hp.
Qed.
Lemma acknowledge_keeps julianday i acknowledged_at detail status data d : well_formed d ->
  wp (acknowledge_schedule_occurrence julianday i acknowledged_at detail status data)
    (fun d' _ => keeps (fun r => has_id i r = true /\ expired_by julianday acknowledged_at r = true) d d') d.
Proof.
  intros Hd. unfold acknowledge_schedule_occurrence. destruct (_ || _) eqn:Hv; [by apply wp_fail, keeps_same|].
  assert (status = "cancelled"%string) as ->.
  { destruct (String.eqb_spec status "cancelled"); [done|]. by rewrite !orb_true_r in Hv. }
  set (p := fun r => has_id i r && is_open r && expired_by julianday acknowledged_at r).
  assert (Hp : forall r, p r = true <-> r_id r = i /\ is_open r = true /\ expired_by julianday acknowledged_at r = true).
  { intros r. unfold p, has_id. rewrite !andb_true_iff, String.eqb_eq. tauto. }
  assert (Hsame : forall r r', r ∈ receipts d -> r' ∈ receipts d -> p r = true -> r_id r' = i -> r' = r).
  { intros r r' Hr Hr' [Hi _]%Hp Hi'. apply (fmap_same r_id (receipts d)); [apply Hd|done|done|congruence]. }
  destruct (List.find p (receipts d)) as [r0|] eqn:E0.
  - apply find_some in E0 as [Hr0%list_elem_of_In Hp0].
    apply (move_keeps d p "cancelled" None (Some detail) (r_execution_id r0) data
      (fun r => has_id i r = true /\ expired_by julianday acknowledged_at r = true)) with (finished := record ← load_by_id i;
        record ← or_missing "acknowledged occurrence is missing" record; mret (AcknowledgedRow record)); try done.
    + intros r Hr Hpr. pose proof (proj1 (Hp r) Hpr) as (Hi & Ho & He). split; [by apply open_cancels|].
      split; [split; [by apply String.eqb_eq|done]|]. by rewrite (Hsame r0 r Hr0 Hr Hp0 Hi).
    + intros d' Q HQ. apply wp_bind, load_by_id_ok. intros f [r|]; [apply wp_ret|]; apply HQ.
    + intros d' Q HQ. apply wp_bind, load_by_id_ok. intros f [r|]; [|apply HQ]. apply wp_bind.
      destruct r; [apply wp_ret, wp_ret|apply wp_fail]; apply HQ.
    + intros f Q d' He Hok. apply wp_bind, wp_select_rows; [done|]. intros g.
      replace (r_execution_id <$> List.find (has_id i) _) with (Some (r_execution_id r0)); [apply Hok|].
      symmetry. cbn [receipts with_faults d']. erewrite (find_first (has_id i) _ (with_state "cancelled" None (Some detail) r0)); [done|..].
      * apply list_elem_of_fmap. exists r0. rewrite Hp0. done.
      * apply Hp in Hp0 as [Hi _]. by apply String.eqb_eq.
      * intros b (r & -> & Hr)%list_elem_of_fmap. intros Hb%String.eqb_eq. rewrite (Hsame r0 r Hr0 Hr Hp0); [by rewrite Hp0|].
        destruct (p r); exact Hb.
  - apply wp_transaction; [intros; by apply keeps_refl|]. intros f. apply wp_bind, wp_update_receipts; [done|]. intros g _.
    assert (Hn : List.filter p (receipts d) = []).
    { apply nil_length_inv. destruct (List.filter p (receipts d)) as [|r l] eqn:Ef; [done|]. exfalso.
      assert (Hin : In r (r :: l)) by by left. rewrite <- Ef in Hin. apply filter_In in Hin as [Hin Hpr]. by rewrite (find_none _ _ E0 r Hin) in Hpr. }
    cbv zeta. split; [|done]. cbn [receipts with_faults]. fold p. rewrite Hn. cbn [length Nat.eqb]. rewrite map_none by done.
    apply wp_bind, load_by_id_ok. intros h [r|]; [apply wp_ret|done]. intros k. split; [|intros e]; by apply keeps_same.
Qed.

Lemma reserve_keeps new d : well_formed d ->
  wp (reserve_schedule_occurrence new) (fun d' _ => keeps (fun _ => False) d d') d.
Proof.
  intros Hd. unfold reserve_schedule_occurrence. destruct (_ || _) eqn:Hv; [by apply wp_fail, keeps_same|].
  rewrite !orb_false_iff, negb_false_iff, String.eqb_eq in Hv. destruct Hv as ((((Hi & Hs) & Hx) & Ho) & Hst).
  set (r := mkReceipt (n_id new) (n_schedule_id new) (n_execution_id new) (n_triggered_at new) "reserved" (n_owner_id new) (Some (n_lease_expires_at new)) None).
  set (x := mkExecutionRow (n_execution_id new) (n_schedule_id new) (n_triggered_at new) (n_execution_status new) (n_execution_data_json new)).
  apply wp_bind. eapply (wp_mono _ (fun d' _ => keeps (fun _ => False) d d')).
  2: { intros d' [[existing|]|e] Hk; [by apply wp_ret| |done]. apply wp_bind, load_by_id_ok.
       intros f [[rec|]|e]; [| |by apply keeps_faults]; apply wp_bind; [apply wp_ret, wp_ret|apply wp_fail]; by apply keeps_faults. }
  apply wp_transaction; [intros; by apply keeps_refl|]. intros f. apply wp_bind, wp_statement; [done|]. intros g. cbn [receipts with_faults].
  destruct (receipt_error _ _) eqn:He; [done|]. destruct (existsb _ _) eqn:Hes.
  { split; [|done]. cbn [Nat.eqb]. apply wp_bind. unfold load_by_schedule, load_where.
    apply wp_bind, wp_bind, wp_select_rows; [done|]. intros h. destruct (find_receipt _ _) as [row|]; [apply wp_lift|apply wp_ret].
    - destruct (record_from_row row); cbn; [|done]. intros k. split; [|intros e]; by apply keeps_same.
    - by apply wp_fail. }
  destruct (existsb (fun r' => String.eqb (r_id r') (r_id r)) _) eqn:Hei; [done|].
  destruct (existsb (fun r' => String.eqb (r_execution_id r') (r_execution_id r)) _) eqn:Hex; [done|].
  split; [|done]. cbn [Nat.eqb]. apply wp_bind, wp_statement; [done|]. intros h. cbn [executions with_receipts with_faults retired].
  destruct (existsb _ (retired d)); [done|]. destruct (existsb _ (executions d)) eqn:Hexe; [done|]. split; [|done]. apply wp_ret. intros k.
  assert (Hnot : forall A (f : A -> string) (l : list A) y, existsb (fun a => String.eqb (f a) y) l = false -> y ∉ f <$> l).
  { clear. intros A f l y H (a & -> & Ha%list_elem_of_In)%list_elem_of_fmap. apply not_true_iff_false in H. apply H, existsb_exists.
    exists a. split; [done|]. by apply String.eqb_eq. }
  apply Hnot in Hes, Hei, Hex, Hexe.
  assert (Hkeep : keeps (fun _ => False) d (mkDb (receipts d ++ [r]) (executions d ++ [x]) (retired d) k)).
  { split; [|split; [done|]; exists (receipts d), [r]; split; [done|]; split; [apply Forall_Forall2_diag, list.Forall_forall; by left|right; by exists r]].
    assert (Hnd : forall A (f : A -> string) l a, NoDup (f <$> l) -> f a ∉ f <$> l -> NoDup (f <$> l ++ [a])).
    { clear. intros A f l a Hl Ha. rewrite fmap_app. apply list.NoDup_app. split; [done|]. split; [|apply NoDup_singleton].
      intros y Hy ->%list_elem_of_singleton. done. }
    constructor; cbn; [apply Hnd; [apply Hd|done]..|].
    assert (Hfind : forall j, find_execution j (executions d ++ [x]) =
      match find_execution j (executions d) with Some y => Some y | None => if String.eqb (x_id x) j then Some x else None end).
    { intros j. generalize x (executions d). clear. intros x l. unfold find_execution. induction l as [|y l IH]; cbn; [done|]. by destruct (String.eqb (x_id y) j). }
    apply Forall_app. split.
    - apply list.Forall_forall. intros r' Hr'. pose proof (proj1 (list.Forall_forall _ _) (receipts_ok d Hd) r' Hr') as Hok.
      apply receipt_ok_split in Hok as (? & ? & Hok). apply receipt_ok_split. cbn. split; [done|]. split; [done|]. rewrite Hfind.
      destruct (find_execution _ (executions d)); [done|]. destruct (String.eqb_spec (x_id x) (r_execution_id r')) as [E|]; [|done].
      destruct Hex. cbn in *. rewrite E. by apply list_elem_of_fmap_2.
    - constructor; [|constructor]. apply receipt_ok_split. cbn. split; [done|]. split; [done|]. rewrite Hfind.
      destruct (find_execution _ (executions d)) as [y|] eqn:Ey; cbn.
      + unfold find_execution in Ey. apply find_some in Ey as [Hy Hid%String.eqb_eq]. destruct Hexe. cbn. rewrite <- Hid. by apply list_elem_of_fmap_2, list_elem_of_In.
      + rewrite String.eqb_refl. exact Hst. }
  split; [|intros e]; exact Hkeep.
Qed.
(** A receipt that was reserved is the one that was asked for. *)
Lemma load_by_id_found i d (Q : Db -> Result StorageError (option ScheduleOccurrenceRecord) -> Prop) :
  (forall f e, Q (with_faults f d) (Err e)) -> (forall f, Q (with_faults f d) (Ok (find_receipt (has_id i) d))) -> wp (load_by_id i) Q d.
Proof.
  intros He H. unfold load_by_id, load_where. apply wp_bind, wp_select_rows; [done|]. intros g. change (find_receipt (has_id i) (with_faults g d)) with (find_receipt (has_id i) d).
  specialize (H g). destruct (find_receipt _ _) as [row|]; [|by apply wp_ret]. apply wp_lift. unfold record_from_row.
  destruct (_ || _); [apply He|exact H].
Qed.
Lemma reserve_row new d :
  wp (reserve_schedule_occurrence new) (fun _ r => match r with Ok (ReservedRow row) => r_schedule_id (receipt row) = n_schedule_id new | _ => True end) d.
Proof.
  unfold reserve_schedule_occurrence. destruct (_ || _); [by apply wp_fail|].
  set (r := mkReceipt _ _ _ _ _ _ _ _). apply wp_bind.
  eapply (wp_mono _ (fun d' res => match res with Ok None => find_receipt (has_id (n_id new)) d' = Some (joined d' r) | _ => True end)).
  2: { intros d' [[existing|]|e] Hk; [by apply wp_ret| |done]. apply wp_bind, load_by_id_found; [done|].
       intros f. rewrite Hk. by apply wp_bind, wp_ret, wp_ret. }
  apply wp_transaction; [done|]. intros f. apply wp_bind, wp_statement; [done|]. intros g. cbn [receipts with_faults].
  destruct (receipt_error _ _); [done|]. destruct (existsb _ _).
  { split; [|done]. cbn [Nat.eqb]. apply wp_bind. unfold load_by_schedule, load_where.
    apply wp_bind, wp_bind, wp_select_rows; [done|]. intros h. destruct (find_receipt _ _) as [row|]; [apply wp_lift|apply wp_ret; by apply wp_fail].
    destruct (record_from_row row); cbn; [|done]. intros k. by split. }
  destruct (existsb (fun r' => String.eqb (r_id r') (r_id r)) _) eqn:Hei; [done|].
  destruct (existsb (fun r' => String.eqb (r_execution_id r') (r_execution_id r)) _); [done|].
  split; [|done]. cbn [Nat.eqb]. apply wp_bind, wp_statement; [done|]. intros h. cbn [executions with_receipts with_faults retired].
  destruct (existsb _ (retired d)); [done|]. destruct (existsb _ (executions d)); [done|]. split; [|done]. apply wp_ret. intros k. split; [|done].
  unfold find_receipt. cbn [receipts with_executions with_receipts with_faults].
  replace (List.find (has_id (n_id new)) (receipts d ++ [r])) with (Some r); [done|].
  revert Hei. generalize (receipts d). intros l. induction l as [|r' l IH]; cbn; [intros _; unfold has_id; cbn; by rewrite String.eqb_refl|].
  change (has_id (n_id new) r') with (String.eqb (r_id r') (n_id new)). cbn. intros [-> H]%orb_false_iff. by apply IH.
Qed.
Lemma filter_nodup {A B} (g : A -> B) (p : A -> bool) l : NoDup (g <$> l) -> NoDup (g <$> List.filter p l).
Proof.
  intros Hn. eapply sublist_NoDup; [exact Hn|]. apply fmap_sublist. clear Hn. induction l as [|x l IH]; cbn; [constructor|].
  destruct (p x); by constructor.
Qed.
Lemma clear_keeps l d : well_formed d -> wp (clear_schedule_execution_records l) (fun d' _ => keeps (fun _ => False) d d') d.
Proof.
  intros Hd. unfold clear_schedule_execution_records. apply wp_transaction; [intros; by apply keeps_refl|]. intros f.
  assert (H : forall n d1, keeps (fun _ => False) d d1 -> receipts d1 = receipts d ->
    wp (clear_records l n) (fun d' r => match r with Ok a => keeps (fun _ => False) d d' /\ receipts d' = receipts d | Err _ => True end) d1).
  { induction l as [|[i data] l IH]; intros n d1 Hk Hr; cbn [clear_records]; [by apply wp_ret|].
    apply wp_bind, wp_select_rows; [done|]. intros g. destruct (x_data_json <$> _) as [current|]; [|by apply wp_fail].
    destruct (negb _); [by apply wp_fail|]. apply wp_bind, wp_statement; [done|]. intros h. split; [|done]. apply IH; [|done].
    destruct Hk as [[H1 H2 H3 H4 H5] Hp]. split; [|destruct Hp as [Ht _]; apply progress_refl; [exact Hr|exact Ht]].
    constructor; cbn; try done; [by apply filter_nodup|].
    apply list.Forall_forall. intros r Hin. pose proof (proj1 (list.Forall_forall _ _) H5 r Hin) as Hok.
    apply receipt_ok_split in Hok as (? & ? & Hx). apply receipt_ok_split. cbn. split; [done|]. split; [done|].
    rewrite find_execution_filter by done. destruct (find_execution _ _) as [x|] eqn:E; [|done].
    destruct (negb (String.eqb (x_id x) i && _)) eqn:Ek; [done|]. apply negb_false_iff, andb_prop in Ek as [Ei%String.eqb_eq Ep].
    destruct (is_open r) eqn:Ho; [|done]. unfold find_execution in E. apply find_some in E as [_ Eid%String.eqb_eq].
    apply negb_true_iff in Ep. unfold protected in Ep. apply not_true_iff_false in Ep. destruct Ep. apply existsb_exists.
    exists r. split; [by apply list_elem_of_In|]. rewrite Ho. cbn. apply String.eqb_eq. congruence. }
  eapply wp_mono; [apply (H 0%nat)|]; [by apply keeps_refl|done|]. intros d' [n|e] Hk; [|done]. intros g. split; [|intros e]; apply keeps_faults, Hk.
Qed.

(** ** Histories *)
(** The methods of the store that write.  Receipts are also deleted elsewhere: by the
    migration and the erasure of a retired engine ([retired_engine.rs],
    [0024_retired_engine_records.sql]), which histories here do not have. *)
Inductive Op :=
| Reserve (new : NewScheduleOccurrence)
| Transition (t : ScheduleOccurrenceTransition)
| Renew (i owner lease : string)
| Release (i owner released_at detail : string)
| Acknowledge (i at_ detail status data : string)
| Clear (l : list (string * string)).
Section history.
Context (julianday : string -> option Z).
Definition perform (op : Op) (d : Db) : Db :=
  match op with
  | Reserve new => (reserve_schedule_occurrence new d).1
  | Transition t => (transition_schedule_occurrence t d).1
  | Renew i owner lease => (renew_schedule_occurrence_lease i owner lease d).1
  | Release i owner at_ detail => (release_schedule_occurrence_lease i owner at_ detail d).1
  | Acknowledge i at_ detail status data => (acknowledge_schedule_occurrence julianday i at_ detail status data d).1
  | Clear l => (clear_schedule_execution_records l d).1
  end.
(** What lets an operation move a receipt: being its owner, with its identifiers, or
    acknowledging one whose lease has run out. *)
Definition authority (op : Op) (r : ReceiptRow) : Prop :=
  match op with
  | Transition t => concerns t r = true
  | Renew i owner _ | Release i owner _ _ => owned i owner r = true
  | Acknowledge i at_ _ _ _ => has_id i r = true /\ expired_by julianday at_ r = true
  | Reserve _ | Clear _ => False
  end.
Lemma perform_keeps op d : well_formed d -> keeps (authority op) d (perform op d).
Proof.
  intros Hd. destruct op; cbn [perform authority].
  - exact (reserve_keeps new d Hd).
  - exact (transition_keeps t d Hd).
  - unfold renew_schedule_occurrence_lease. destruct (_ || _); [by apply keeps_same|].
    exact (update_lease_keeps i owner lease (fun r => r_recovery_detail r) d Hd).
  - unfold release_schedule_occurrence_lease. destruct (_ || _); [by apply keeps_same|].
    exact (update_lease_keeps i owner released_at (fun _ => Some detail) d Hd).
  - exact (acknowledge_keeps julianday i at_ detail status data d Hd).
  - exact (clear_keeps l d Hd).
Qed.
Definition performs (ops : list Op) (d : Db) : Db := foldl (fun d op => perform op d) d ops.

Lemma moves_open r r' : moves r r' -> is_open r = true.
Proof.
  intros [lease detail H|s lease detail H]; [done|]. unfold transition_permitted in H. unfold is_open, str_in. cbn.
  destruct (String.eqb (r_state r) "reserved"); [done|]. cbn in *. by destruct (String.eqb (r_state r) "running").
Qed.
Lemma moves_same r r' : moves r r' ->
  r_id r' = r_id r /\ r_schedule_id r' = r_schedule_id r /\ r_execution_id r' = r_execution_id r /\ r_owner_id r' = r_owner_id r /\
  r_triggered_at r' = r_triggered_at r.
Proof. by intros []. Qed.
Definition fresh (r : ReceiptRow) : Prop := r_state r = "reserved".
Lemma performs_keeps ops d : well_formed d ->
  well_formed (performs ops d) /\ exists old new, receipts (performs ops d) = old ++ new /\ Forall2 (rtc moves) (receipts d) old /\
    Forall (fun r => exists r0, fresh r0 /\ rtc moves r0 r) new.
Proof.
  revert d. induction ops as [|op ops IH]; intros d Hd; [|change (performs (op :: ops) d) with (performs ops (perform op d))].
  { cbn. split; [done|]. exists (receipts d), []. rewrite app_nil_r. split; [done|]. split; [|constructor]. by apply Forall_Forall2_diag, list.Forall_forall. }
  destruct (perform_keeps op d Hd) as [Hd1 (_ & old & new & Hr & Hold & Hnew)].
  destruct (IH _ Hd1) as (Hd2 & old2 & new2 & Hr2 & Hold2 & Hnew2). split; [done|].
  rewrite Hr in Hold2. apply Forall2_app_inv_l in Hold2 as (o1 & o2 & Ho1 & Ho2 & ->).
  exists o1, (o2 ++ new2). split; [by rewrite Hr2, app_assoc|]. split.
  - clear -Hold Ho1. revert o1 Ho1. induction Hold as [|r r1 l l1 H HF IHF]; intros o1 Ho1; apply Forall2_cons_inv_l in Ho1 as Hx || inversion Ho1; subst; [constructor|].
    destruct Hx as (r2 & o & Hr2 & Ho & ->). constructor; [|by apply IHF]. destruct H as [->|[H _]]; [done|]. by eapply rtc_l.
  - apply Forall_app. split; [|done]. destruct Hnew as [->|(r & -> & Hf)]; [by apply Forall2_nil_inv_l in Ho2 as ->|].
    apply Forall2_cons_inv_l in Ho2 as (r2 & o & Hr2' & Ho & ->). apply Forall2_nil_inv_l in Ho as ->. constructor; [|constructor]. by exists r.
Qed.
Lemma closed_stays r r' : rtc moves r r' -> is_open r = false -> r' = r.
Proof. intros H Ho. inversion H as [|? r1 ? Hm]; subst; [done|]. apply moves_open in Hm. congruence. Qed.
Lemma moves_rtc_same r r' : rtc moves r r' ->
  r_id r' = r_id r /\ r_schedule_id r' = r_schedule_id r /\ r_execution_id r' = r_execution_id r /\ r_owner_id r' = r_owner_id r /\
  r_triggered_at r' = r_triggered_at r.
Proof. induction 1 as [|r r1 r2 Hm _ IH]; [done|]. apply moves_same in Hm. intuition congruence. Qed.

(** C16: the receipt of a one-time schedule is written once and for good.  Through any
    operations and failures there is at most one receipt per schedule, in step with its
    execution; a receipt keeps its identity, moves only from reserved to running and
    from there, or when cancelled, to a final state, in which it never changes again;
    and one operation moves it only by its owner, or by acknowledging it once its lease
    has run out. *)
Theorem receipts_advance (before later : list Op) (op : Op) (d0 : Db) :
  well_formed d0 ->
  let d := performs before d0 in
  let d' := performs later d in
  well_formed d' /\
  (forall r, r ∈ receipts d -> exists r', r' ∈ receipts d' /\ rtc moves r r' /\ r_schedule_id r' = r_schedule_id r /\
     r_id r' = r_id r /\ (is_open r = false -> r' = r)) /\
  (forall r', r' ∈ receipts d' -> (exists r, r ∈ receipts d /\ rtc moves r r') \/ exists r0, fresh r0 /\ rtc moves r0 r') /\
  (forall k r r', receipts d !! k = Some r -> receipts (perform op d) !! k = Some r' -> r' = r \/ moves r r' /\ authority op r).
Proof.
  intros Hd0 d d'. destruct (performs_keeps before d0 Hd0) as [Hd _]. fold d in Hd.
  destruct (performs_keeps later d Hd) as (Hd' & old & new & Hr & Hold & Hnew). fold d' in Hd', Hr. split; [done|]. split; [|split].
  - intros r Hin. apply list_elem_of_lookup in Hin as [k Hk]. destruct (Forall2_lookup_l _ _ _ _ _ Hold Hk) as (r' & Hk' & Hm).
    exists r'. split; [rewrite Hr; apply elem_of_app; left; by eapply list_elem_of_lookup_2|]. split; [done|].
    apply moves_rtc_same in Hm as Hs. split; [apply Hs|]. split; [apply Hs|]. by apply closed_stays.
  - intros r'. rewrite Hr, elem_of_app. intros [Hin|Hin].
    + left. apply list_elem_of_lookup in Hin as [k Hk]. destruct (Forall2_lookup_r _ _ _ _ _ Hold Hk) as (r & Hk' & Hm).
      exists r. split; [by eapply list_elem_of_lookup_2|done].
    + right. exact (proj1 (list.Forall_forall _ _) Hnew r' Hin).
  - intros k r r' Hk Hk'. destruct (perform_keeps op d Hd) as [_ (_ & o & n & Ho & HF & _)]. rewrite Ho in Hk'.
    rewrite lookup_app_l in Hk' by (rewrite <- (Forall2_length HF); by eapply lookup_lt_Some).
    destruct (Forall2_lookup_lr _ _ _ _ _ _ HF Hk Hk') as [?|?]; auto.
Qed.
End history.

(** ** A transition that took place *)
Lemma applied_moves t d : well_formed d ->
  wp (transition_schedule_occurrence t) (fun d' r => match r with
    | Ok (AppliedRow _) =>
        (exists r0, r0 ∈ receipts d /\ concerns t r0 = true) /\
        exists r1, r1 ∈ receipts d' /\ r_schedule_id r1 = t_schedule_id t /\ r_state r1 = t_to_state t
    | Ok (IdempotentRow _) => str_in (t_to_state t) ["completed"; "failed"; "cancelled"] = true
    | _ => True
    end) d.
Proof.
  intros Hd. unfold transition_schedule_occurrence. destruct (transition_permitted _ _); cbn [negb]; cycle 1.
  { apply wp_bind, load_by_id_ok. intros f [[r|]|]; [by apply wp_ret|by apply wp_ret|done]. }
  destruct (_ || _); [by apply wp_fail|]. apply wp_transaction; [done|]. intros f. apply wp_bind, wp_update_receipts; [done|].
  intros g _. cbv zeta. cbn [receipts with_faults]. split; [|done]. destruct (Nat.eqb_spec (length (List.filter (concerns t) (receipts d))) 0) as [H0|H0].
  - apply wp_bind, load_by_id_ok. intros h [[r|]|]; [|by apply wp_ret|done]. apply wp_ret. intros k.
    destruct (is_exact_terminal_repeat r t) eqn:E; [|done]. split; [|done]. unfold is_exact_terminal_repeat in E. rewrite !andb_true_iff in E. tauto.
  - assert (exists r0, r0 ∈ receipts d /\ concerns t r0 = true) as (r0 & Hr0 & Hp0).
    { destruct (List.filter (concerns t) (receipts d)) as [|r0 l] eqn:E; [done|]. exists r0. rewrite list_elem_of_In. apply filter_In. rewrite E. by left. }
    apply wp_bind. eapply wp_mono; [apply update_execution_map|]. intros d2 [n|]; [|done]. intros (g3 & -> & Hn). apply wp_bind.
    unfold require_occurrence_execution. destruct (n =? 1)%nat; [apply wp_ret|by apply wp_fail].
    apply wp_bind, load_by_id_ok. intros h [[r|]|]; [|by apply wp_bind, wp_fail|done]. apply wp_bind, wp_ret, wp_ret. intros k. split; [|done]. split; [by exists r0|].
    exists (with_state (t_to_state t) (t_lease_expires_at t) (t_recovery_detail t) r0). cbn. split; [|split; [|done]].
    + apply list_elem_of_fmap. exists r0. by rewrite Hp0.
    + unfold concerns in Hp0. rewrite !andb_true_iff, !String.eqb_eq in Hp0. tauto.
Qed.
(** The receipt of schedule [s] has left the reserved state, for good. *)
Definition past (s : string) (d : Db) : Prop := exists r, r ∈ receipts d /\ r_schedule_id r = s /\ r_state r <> "reserved"%string.
Lemma moves_past r r' : moves r r' -> r_state r <> "reserved"%string -> r_state r' <> "reserved"%string.
Proof. intros [lease detail H|st lease detail H]; [done|]. intros _. by eapply permitted_target. Qed.
Lemma progress_past authority s d d' : progress authority d d' -> past s d -> past s d'.
Proof.
  intros (_ & old & new & Hr & HF & _) (r & Hin & Hs & Hst). apply list_elem_of_lookup in Hin as [k Hk].
  destruct (Forall2_lookup_l _ _ _ _ _ HF Hk) as (r' & Hk' & Hm).
  exists r'. split; [rewrite Hr; apply elem_of_app; left; by eapply list_elem_of_lookup_2|].
  destruct Hm as [->|[Hm _]]; [done|]. split; [|by eapply moves_past]. apply moves_same in Hm. intuition congruence.
Qed.

(** ** A history *)
Definition reserve_example : Op := Reserve (mkNew "o" "s" "x" "0" "me" "1" "pending" "{}").
Definition start_example : Op := Transition (mkTransition "o" "s" "x" "me" "reserved" "running" (Some "2"%string) None "running" "{}").
Definition finish_example : Op := Transition (mkTransition "o" "s" "x" "me" "running" "completed" None None "completed" "{}").
Lemma receipts_advance_witness :
  let julianday := fun _ => None in
  let d := performs julianday [reserve_example; reserve_example; start_example] (mkDb [] [] [] []) in
  let d' := performs julianday [finish_example; start_example] d in
  r_state <$> receipts d = ["running"]%string /\ r_state <$> receipts d' = ["completed"]%string /\ well_formed d'.
Proof.
  split; [vm_compute; reflexivity|]. split; [vm_compute; reflexivity|].
  exact (proj1 (receipts_advance (fun _ => None) [reserve_example; reserve_example; start_example] [finish_example; start_example]
    finish_example (mkDb [] [] [] []) ltac:(repeat constructor))).
Defined.
