(* ===== verification/Journal.v ===== *)
(** * The journal of one-time occurrences

    Models the one-time half of [CampaignSchedulerPersistence] in
    [crates/hf-service/src/scheduler.rs]: the scheduler's occurrences over the rows of
    [Occurrence], and the block it puts on the manager when the journal is corrupt or
    unavailable.  RFC 3339, JSON and SQLite's [julianday] are a class. *)
From S2P Require Import Prelude Effect Schedule JsonValue Executions Occurrence.

Class Codec := {
  to_rfc3339 : Z -> string;
  parse_rfc3339 : string -> option Z;
  execution_to_json : ScheduleExecution -> Result string string;
  execution_of_json : string -> option ScheduleExecution;
  julianday : string -> option Z;
}.
(** What is written is read back, and [julianday], which keeps milliseconds, does not
    reverse the order of instants. *)
Class CodecLaws `{Codec} : Prop := {
  rfc3339_roundtrip t : parse_rfc3339 (to_rfc3339 t) = Some t;
  json_roundtrip e s : execution_to_json e = Ok s -> execution_of_json s = Some e;
  julianday_monotone t u : t <= u -> exists a b, julianday (to_rfc3339 t) = Some a /\ julianday (to_rfc3339 u) = Some b /\ a <= b;
}.

Inductive OneTimeReservation := ReservedOccurrence (o : OneTimeOccurrence) | ExistingOccurrence (o : OneTimeOccurrence).
Record OneTimeOccurrenceTransition := mkOneTimeTransition {
  ot_occurrence_id : string;
  ot_schedule_id : string;
  ot_execution_id : string;
  ot_owner_id : string;
  ot_from : OneTimeOccurrenceState;
  ot_to : OneTimeOccurrenceState;
  ot_lease_expires_at : option Z;
  ot_recovery_detail : option string;
}.
Inductive OneTimeTransitionResult :=
| Applied (o : OneTimeOccurrence) | Idempotent (o : OneTimeOccurrence) | Conflict (o : OneTimeOccurrence) | Missing.
Inductive OneTimeAcknowledgement :=
| Acknowledged (o : OneTimeOccurrence) | AlreadyCancelled (o : OneTimeOccurrence) | AckConflict (o : OneTimeOccurrence) | AckMissing.

Definition JOURNAL_UNAVAILABLE_REASON : string := "one-time occurrence journal is unavailable".
Definition JOURNAL_CORRUPT_REASON : string := "one-time occurrence journal is corrupt".

(** [connected]: whether there is a database; [alive]: whether there still is a
    manager to block. *)
Record JournalState := mkJournal {
  db : Db;
  connected : bool;
  alive : bool;
  one_time_global_block : option string;
  corrupt_journal_blocks : Z;
}.
Abbreviation Journal := (Eff JournalState string).
Inductive OccurrenceJournalFailure := Corrupt | Unavailable.

Section journal.
Context `{Codec}.

Definition latch_journal_failure (failure : OccurrenceJournalFailure) (j : JournalState) : JournalState :=
  if negb (alive j) then j
  else
    let '(reason, corrupt) := match failure with Corrupt => (JOURNAL_CORRUPT_REASON, true) | Unavailable => (JOURNAL_UNAVAILABLE_REASON, false) end in
    let current := one_time_global_block j in
    if bool_decide (current = Some JOURNAL_CORRUPT_REASON) || bool_decide (current = Some reason) || negb corrupt && negb (is_none current)
    then j
    else mkJournal (db j) (connected j) (alive j) (Some reason) (if corrupt then corrupt_journal_blocks j + 1 else corrupt_journal_blocks j).
Definition failure_of (e : StorageError) : OccurrenceJournalFailure :=
  match e with
  | InvalidData _ | Serde _ | Timestamp _ | NotFound _ => Corrupt
  | Db_ _ | Migrate _ => Unavailable
  end.
Definition display_storage_error (e : StorageError) : string :=
  match e with
  | Db_ e => "database error: " +:+ e
  | Migrate e => "migration error: " +:+ e
  | Serde e => "serialization error: " +:+ e
  | Timestamp e => "invalid timestamp: " +:+ e
  | InvalidData e => "invalid stored data: " +:+ e
  | NotFound e => "record not found: " +:+ e
  end.
(** [occurrence_store()?], a call on it and [map_storage_result]. *)
Definition on_store {A} (c : Sql A) : Journal A :=
  fun j =>
    if negb (connected j) then (j, Err "SQLite storage is required for durable one-time scheduling"%string)
    else
      let '(d, r) := c (db j) in
      let j := mkJournal d (connected j) (alive j) (one_time_global_block j) (corrupt_journal_blocks j) in
      match r with
      | Ok a => (j, Ok a)
      | Err e => (latch_journal_failure (failure_of e) j, Err (display_storage_error e))
      end.

Definition display_validation_error (e : OccurrenceValidationError) : string :=
  match e with
  | EmptyIdentity => "one-time occurrence identities must not be empty"
  | InvalidLeaseShape => "one-time occurrence lease does not match its state"
  | RecoveryDetailTooLarge => "one-time occurrence recovery detail exceeds 4096 UTF-8 bytes"
  | UnknownState s => "unknown one-time occurrence state: " +:+ s
  end.
Definition expected_status (s : OneTimeOccurrenceState) : string :=
  match s with
  | Reserved => "pending" | Occurrence.Running => "running" | Occurrence.Completed => "completed"
  | Occurrence.Failed => "failed" | Occurrence.Cancelled => "cancelled"
  end.
Definition validate_row_execution (row : ScheduleOccurrenceRecord) (o : OneTimeOccurrence) : Result string (option ScheduleExecution) :=
  match execution_status row, execution_data_json row with
  | None, None => if terminal o then Ok None else Err "non-terminal occurrence is missing its execution"
  | Some _, None | None, Some _ => Err "occurrence execution record is incomplete"
  | Some actual, Some data =>
      if negb (String.eqb actual (expected_status (state o))) then Err "occurrence and execution states do not match"
      else
        execution ← ok_or "invalid occurrence execution data" (execution_of_json data);
        if negb (String.eqb (execution_id execution) (r_execution_id (receipt row)))
           || negb (String.eqb (Executions.x_schedule_id execution) (r_schedule_id (receipt row)))
           || negb (triggered_at execution =? occurrence_triggered_at o)
           || negb (String.eqb (display_status (status execution)) (expected_status (state o)))
        then Err "occurrence and execution identities do not match"
        else Ok (Some execution)
  end.
Definition row_to_occurrence (row : ScheduleOccurrenceRecord) : Result string OneTimeOccurrence :=
  let r := receipt row in
  state ← map_err display_validation_error (occurrence_state_from_str (r_state r));
  triggered_at ← ok_or "invalid occurrence trigger timestamp" (parse_rfc3339 (r_triggered_at r));
  lease ← match r_lease_expires_at r with
          | None => Ok None
          | Some s => Some <$> ok_or "invalid occurrence lease timestamp" (parse_rfc3339 s)
          end;
  let o := mkOccurrence (r_id r) (r_schedule_id r) (r_execution_id r) triggered_at state (r_owner_id r) lease (r_recovery_detail r) in
  map_err display_validation_error (validate o) ;;
  validate_row_execution row o ;;
  Ok o.
Definition decode_occurrence (row : ScheduleOccurrenceRecord) : Journal OneTimeOccurrence :=
  fun j =>
    match row_to_occurrence row with
    | Ok o => (j, Ok o)
    | Err e => (latch_journal_failure Corrupt j, Err e)
    end.

Definition reserve_one_time_occurrence (o : OneTimeOccurrence) (e : ScheduleExecution) : Journal OneTimeReservation :=
  fun j =>
    if negb (connected j) then (j, Err "SQLite storage is required for durable one-time scheduling"%string)
    else (
      data ← lift (execution_to_json e);
      lease ← lift (ok_or "reservation lease is missing" (lease_expires_at o));
      reservation ← on_store (reserve_schedule_occurrence
        (mkNew (occurrence_id o) (occurrence_schedule_id o) (occurrence_execution_id o) (to_rfc3339 (occurrence_triggered_at o))
           (owner_id o) (to_rfc3339 lease) (display_status (status e)) data));
      match reservation with
      | ReservedRow row => ReservedOccurrence <$> decode_occurrence row
      | ExistingRow row => ExistingOccurrence <$> decode_occurrence row
      end) j.
Definition transition_one_time_occurrence (t : OneTimeOccurrenceTransition) (e : ScheduleExecution) : Journal OneTimeTransitionResult :=
  fun j =>
    if negb (connected j) then (j, Err "SQLite storage is required for durable one-time scheduling"%string)
    else (
      data ← lift (execution_to_json e);
      result ← on_store (transition_schedule_occurrence
        (mkTransition (ot_occurrence_id t) (ot_schedule_id t) (ot_execution_id t) (ot_owner_id t)
           (display_occurrence_state (ot_from t)) (display_occurrence_state (ot_to t)) (to_rfc3339 <$> ot_lease_expires_at t)
           (ot_recovery_detail t) (display_status (status e)) data));
      match result with
      | AppliedRow row => Applied <$> decode_occurrence row
      | IdempotentRow row => Idempotent <$> decode_occurrence row
      | ConflictRow row => Conflict <$> decode_occurrence row
      | MissingRow => mret Missing
      end) j.
Definition renew_one_time_lease (i owner : string) (lease : Z) : Journal bool :=
  on_store (renew_schedule_occurrence_lease i owner (to_rfc3339 lease)).
Definition release_one_time_lease (i owner : string) (released_at : Z) (detail : string) : Journal bool :=
  on_store (release_schedule_occurrence_lease i owner (to_rfc3339 released_at) detail).
Fixpoint decode_all (rows : list ScheduleOccurrenceRecord) : Journal (list OneTimeOccurrence) :=
  match rows with
  | [] => mret []
  | row :: rows => o ← decode_occurrence row; os ← decode_all rows; mret (o :: os)
  end.
Definition load_one_time_occurrences : Journal (list OneTimeOccurrence) :=
  rows ← on_store list_schedule_occurrences; decode_all rows.
Definition get_one_time_occurrence (i : string) : Journal (option OneTimeOccurrence) :=
  row ← on_store (schedule_occurrence i);
  match row with Some row => Some <$> decode_occurrence row | None => mret None end.
Definition decode_execution (row : ScheduleOccurrenceRecord) (o : OneTimeOccurrence) : Journal (option ScheduleExecution) :=
  fun j =>
    match validate_row_execution row o with
    | Ok e => (j, Ok e)
    | Err e => (latch_journal_failure Corrupt j, Err e)
    end.
Definition get_one_time_execution (i : string) : Journal (option ScheduleExecution) :=
  row ← on_store (schedule_occurrence i);
  match row with
  | None => mret None
  | Some row => o ← decode_occurrence row; decode_execution row o
  end.
Definition acknowledge_one_time_occurrence (i : string) (at_ : Z) (detail : string) (e : ScheduleExecution) : Journal OneTimeAcknowledgement :=
  data ← lift (execution_to_json e);
  result ← on_store (acknowledge_schedule_occurrence julianday i (to_rfc3339 at_) detail (display_status (status e)) data);
  match result with
  | AcknowledgedRow row => Acknowledged <$> decode_occurrence row
  | AlreadyCancelledRow row => AlreadyCancelled <$> decode_occurrence row
  | AckConflictRow row => AckConflict <$> decode_occurrence row
  | AckMissingRow => mret AckMissing
  end.
End journal.

(** ** What the journal does to its database *)
Section effects.
Context `{Codec}.
(** A step of the database: an operation of [Occurrence], or failures. *)
Definition db_step (d d' : Db) : Prop := (exists f, d' = with_faults f d) \/ exists op, d' = perform julianday op d.
Lemma db_step_keeps d d' : well_formed d -> db_step d d' -> well_formed d' /\ exists authority, progress authority d d'.
Proof.
  intros Hd [[f ->]|[op ->]].
  - split; [by apply well_formed_faults|]. exists (fun _ => False). by apply progress_refl.
  - destruct (perform_keeps julianday op d Hd) as [Hd' Hp]. split; [done|]. by eexists.
Qed.
Lemma db_step_refl d : db_step d d.
Proof. left. exists (faults d). by destruct d. Qed.
Definition stays {A} (c : Journal A) : Prop := forall j, db (c j).1 = db j.
Lemma latch_db failure j : db (latch_journal_failure failure j) = db j.
Proof.
  unfold latch_journal_failure. destruct (alive j); [|done]. cbn. destruct failure; cbn; repeat case_bool_decide; cbn; try done.
  by destruct (is_none _).
Qed.
Lemma decode_stays row : stays (decode_occurrence row).
Proof. intros j. unfold decode_occurrence. destruct (row_to_occurrence row); [done|]. apply latch_db. Qed.
Lemma stays_fmap {A B} (f : A -> B) (c : Journal A) : stays c -> stays (f <$> c).
Proof. intros Hc j. unfold fmap, Eff_fmap. specialize (Hc j). by destruct (c j). Qed.
Lemma on_store_db {A} (c : Sql A) j : connected j = true -> db (on_store c j).1 = (c (db j)).1.
Proof. intros Hj. unfold on_store. rewrite Hj. cbn. destruct (c (db j)) as [d [a|e]]; [done|]. cbn. by rewrite latch_db. Qed.
Lemma bind_stays {A B} (c : Journal A) (k : A -> Journal B) j : (forall a, stays (k a)) -> db ((c ≫= k) j).1 = db (c j).1.
Proof. intros Hk. unfold mbind, Eff_bind. destruct (c j) as [j' [a|e]]; [apply Hk|done]. Qed.
Lemma lift_bind {A B} (r : Result string A) (k : A -> Journal B) j :
  (lift r ≫= k) j = match r with Ok a => k a j | Err e => (j, Err e) end.
Proof. by destruct r. Qed.

Lemma reserve_step o e j : db_step (db j) (db (reserve_one_time_occurrence o e j).1).
Proof.
  unfold reserve_one_time_occurrence. destruct (connected j) eqn:Hj; cbn [negb]; [|apply db_step_refl].
  rewrite lift_bind. destruct (execution_to_json e) as [data|]; [|apply db_step_refl].
  rewrite lift_bind. destruct (ok_or _ _) as [lease|]; [|apply db_step_refl].
  right. rewrite bind_stays by (intros []; apply stays_fmap, decode_stays). rewrite on_store_db by done. by eexists (Reserve _).
Qed.
Lemma decode_row row j j' o : decode_occurrence row j = (j', Ok o) -> occurrence_schedule_id o = r_schedule_id (receipt row).
Proof.
  unfold decode_occurrence, row_to_occurrence. destruct (map_err _ (occurrence_state_from_str _)) as [st|]; [|done].
  cbn. destruct (ok_or _ _) as [at_|]; [|done]. cbn. destruct (match r_lease_expires_at _ with None => _ | Some _ => _ end) as [lease|]; [|done].
  cbn. destruct (map_err _ (validate _)); [|done]. cbn. destruct (validate_row_execution _ _); [|done]. cbn. by intros [= _ <-].
Qed.
Lemma reserved_same o e j j' o' : reserve_one_time_occurrence o e j = (j', Ok (ReservedOccurrence o')) ->
  occurrence_schedule_id o' = occurrence_schedule_id o.
Proof.
  unfold reserve_one_time_occurrence. destruct (connected j) eqn:Hj; cbn [negb]; [|done].
  rewrite lift_bind. destruct (execution_to_json e) as [data|]; [|done].
  rewrite lift_bind. destruct (ok_or _ _) as [lease|]; [|done]. set (new := mkNew _ _ _ _ _ _ _ _).
  pose proof (reserve_row new (db j)) as Hr. unfold wp in Hr. unfold mbind, Eff_bind, on_store. rewrite Hj. cbn [negb].
  destruct (reserve_schedule_occurrence new (db j)) as [d' [[row|row]|err]]; [| |done]; cbn [snd] in Hr; unfold fmap, Eff_fmap.
  - destruct (decode_occurrence row _) as [j2 [o2|]] eqn:E; [|done]. intros [= _ <-]. apply decode_row in E. by rewrite E, Hr.
  - by destruct (decode_occurrence row _) as [j2 [o2|]].
Qed.
Lemma transition_db_step t e j : db_step (db j) (db (transition_one_time_occurrence t e j).1).
Proof.
  unfold transition_one_time_occurrence. destruct (connected j) eqn:Hj; cbn [negb]; [|apply db_step_refl].
  rewrite lift_bind. destruct (execution_to_json e) as [data|]; [|apply db_step_refl].
  right. rewrite bind_stays by (intros []; [apply stays_fmap, decode_stays..|done]). rewrite on_store_db by done. by eexists (Transition _).
Qed.
Lemma on_store_step {A} (c : Sql A) (op : Op) j : (c (db j)).1 = perform julianday op (db j) -> db_step (db j) (db (on_store c j).1).
Proof.
  intros Hc. destruct (connected j) eqn:Hj; [right; exists op; by rewrite on_store_db|].
  unfold on_store. rewrite Hj. apply db_step_refl.
Qed.
Lemma renew_step i owner lease j : db_step (db j) (db (renew_one_time_lease i owner lease j).1).
Proof. by apply (on_store_step _ (Renew i owner (to_rfc3339 lease))). Qed.
Lemma release_step i owner at_ detail j : db_step (db j) (db (release_one_time_lease i owner at_ detail j).1).
Proof. by apply (on_store_step _ (Release i owner (to_rfc3339 at_) detail)). Qed.
Lemma get_step i j : db_step (db j) (db (get_one_time_occurrence i j).1).
Proof.
  left. unfold get_one_time_occurrence. rewrite bind_stays by (intros []; [apply stays_fmap, decode_stays|done]).
  destruct (connected j) eqn:Hj; [|exists (faults (db j)); unfold on_store; rewrite Hj; cbn; by destruct (db j)].
  rewrite on_store_db by done.
  apply (load_by_id_ok i (db j) (fun d' _ => exists f, d' = with_faults f (db j))). intros f _. by exists f.
Qed.

(** A start that is reported took the receipt out of the reserved state. *)
Lemma start_applied t e j j' r : well_formed (db j) -> ot_from t = Reserved -> ot_to t = Occurrence.Running ->
  transition_one_time_occurrence t e j = (j', Ok r) -> (exists o, r = Applied o \/ r = Idempotent o) ->
  (exists r0, r0 ∈ receipts (db j) /\ r_schedule_id r0 = ot_schedule_id t /\ r_state r0 = "reserved"%string) /\ past (ot_schedule_id t) (db j').
Proof.
  intros Hd Hf Ht E Hr. unfold transition_one_time_occurrence in E. destruct (connected j) eqn:Hj; cbn [negb] in E; [|done].
  rewrite lift_bind in E. destruct (execution_to_json e) as [data|]; [|done].
  set (tr := mkTransition _ _ _ _ _ _ _ _ _ _) in E. pose proof (applied_moves tr (db j) Hd) as Hm. unfold wp in Hm.
  unfold mbind, Eff_bind, on_store in E. rewrite Hj in E. cbn [negb] in E.
  destruct (transition_schedule_occurrence tr (db j)) as [d' [res|]]; [|done]. cbn [fst snd] in Hm.
  destruct res as [row|row|row|].
  - destruct Hm as ((r0 & Hr0 & Hc) & r1 & Hr1 & Hs1 & Hst1). unfold concerns in Hc. rewrite !andb_true_iff, !String.eqb_eq in Hc.
    split.
    + exists r0. split; [done|]. split; [tauto|]. destruct Hc as [_ ->]. cbn. by rewrite Hf.
    + assert (Hdb : db j' = d').
      { pose proof (stays_fmap Applied _ (decode_stays row) (mkJournal d' (connected j) (alive j) (one_time_global_block j) (corrupt_journal_blocks j))) as Hk.
        rewrite Hj in Hk. rewrite E in Hk. exact Hk. }
      exists r1. rewrite Hdb. split; [done|]. split; [done|]. rewrite Hst1. cbn. by rewrite Ht.
  - exfalso. cbn in Hm. by rewrite Ht in Hm.
  - exfalso. unfold fmap, Eff_fmap in E. destruct (decode_occurrence row _) as [? [o|]]; cbn in E; [|done]. destruct Hr as [o' [->| ->]]; simplify_eq.
  - exfalso. injection E as _ <-. by destruct Hr as [o [|]].
Qed.
End effects.
