(* ===== verification/SchedulerCalls.v ===== *)
(** * What the scheduler's manager calls

    The state that the handlers of [crates/hf-scheduler/src/manager.rs] share, behind
    locks or in other crates, as an interface of [Interaction]: its stores, the
    journal, the dispatcher, the tasks it spawns, clock and identifiers; and the parts
    that several handlers use. *)
From S2P Require Import Prelude Interaction Schedule JsonValue Params Occurrence Journal Executions.

(** ** [dispatcher.rs] *)
Record DispatchResult := mkDispatchResult {
  success : bool;
  skipped : bool;
  summary : string;
  output : Value;
  duration_ms : Z;
  d_error : option string;
}.
Inductive DispatchError :=
| WorkflowNotFound (i : string) | ParseError (message : string) | ExecutionFailed (message : string) | Internal (e : string).
Definition display_dispatch_error (e : DispatchError) : string :=
  match e with
  | WorkflowNotFound i => "workflow not found: " +:+ i
  | ParseError m => "workflow parse error: " +:+ m
  | ExecutionFailed m => "execution failed: " +:+ m
  | Internal m => "internal dispatcher error: " +:+ m
  end.

Inductive OneTimeRuntimeStatus := Ready | Consumed | RecoveryRequired (detail : string).
(** [OccurrenceMetrics]. *)
Inductive Metric :=
| ReservationWin | DuplicateSuppression | TransitionFailure | LeaseRenewalFailure | ExpiredNonTerminal | Acknowledgement | CorruptJournalBlock.

(** ** Tasks *)
Record OneTimeTask := mkOneTimeTask {
  o_schedule : Schedule Value;
  o_pending : ScheduleExecution;
  o_occurrence : OneTimeOccurrence;
  o_parameters : Value;
  o_policy : ConcurrencyPolicy;
}.
(** [k_pending]: whether the schedule has a recovery pending. *)
Record Task := mkTask {
  k_schedule : Schedule Value;
  k_execution : string;
  k_fired : FiredTrigger Value;
  k_parameters : Value;
  k_policy : ConcurrencyPolicy;
  k_pending : bool;
}.
(** [TrackedDispatch], of a task that was running when it was stopped: for a one-time
    schedule its receipt, the owner, and whether it may still be closed. *)
Record TrackedDispatch := mkTracked {
  d_execution_id : string;
  d_schedule_id : string;
  d_occurrence_id : option string;
  d_owner_id : option string;
  d_terminal_allowed : bool;
}.

(** ** The interface *)
Inductive Call :=
| Now | Uuid | Elapsed
| GlobalBlock | BlockOneTime (detail : string)
| StatusOf (schedule_id : string) | MarkStatus (schedule_id : string) (status : OneTimeRuntimeStatus)
| LoadSchedule (schedule_id : string) | AdvanceCursor (schedule_id : string) (time : Z)
| HasActiveDispatch (schedule_id : string) | TakeActiveDispatches (schedule_id : string)
| AbortTasks (executions : list string) | JoinTask (execution : string)
| NextSequence (schedule_id : string)
| RecordExecution (e : ScheduleExecution)
| UpdateExecution (execution : string) (f : ScheduleExecution -> ScheduleExecution)
| CountStarts (schedule_id : string) (since : Z)
| Count (m : Metric)
| RegisterAdmission (o : OneTimeOccurrence) | ClearAdmission (occurrence : string)
| RecoveryFailed | SetRecoveryFailed
| UpdateSchedule (s : Schedule Value) | PersistRecord (e : ScheduleExecution) | PersistUpdate (e : ScheduleExecution)
| ExecutionsStartedSince (schedule_id : string) (since : Z)
| ReserveOccurrence (o : OneTimeOccurrence) (e : ScheduleExecution)
| TransitionOccurrence (t : OneTimeOccurrenceTransition) (e : ScheduleExecution)
| RenewLease (occurrence owner : string) (lease : Z)
| ReleaseLease (occurrence owner : string) (at_ : Z) (detail : string)
| GetOccurrence (occurrence : string)
| SpawnOneTime (t : OneTimeTask) | SpawnTask (t : Task)
| Fallback (s : Schedule Value) (f : FiredTrigger Value)
| AwaitAdmission (serial : bool) (schedule_id : string)
| LockAdmission (schedule_id : string) | ReserveSerial (schedule_id : string) | AwaitSerial (schedule_id : string)
| Sleep | AcquirePermit | DropPermit
| StopLoops | TakeAdmissions | StopTasks | GetExecution (execution : string) | PendingRecords
| LeaseLost
| Dispatch (schedule_id workflow_id : string) (parameters : Value) (depth : Z)
| DispatchTicks | DispatchOutcome.
(** [AwaitAdmission] and [DispatchTicks] answer how many heartbeats go by before the
    task is admitted, and before its dispatch has an outcome. *)
Definition Answer (c : Call) : Type :=
  match c with
  | Now | Elapsed | NextSequence _ => Z
  | Uuid => string
  | GlobalBlock => option string
  | StatusOf _ => option OneTimeRuntimeStatus
  | LoadSchedule _ | AdvanceCursor _ _ => option (Schedule Value)
  | HasActiveDispatch _ | RecoveryFailed => bool
  | TakeAdmissions => list OneTimeOccurrence
  | StopTasks => list TrackedDispatch
  | GetExecution _ => option ScheduleExecution
  | PendingRecords => list ScheduleExecution
  | TakeActiveDispatches _ => list string
  | UpdateExecution _ _ => option ScheduleExecution
  | CountStarts _ _ => Z * Z
  | UpdateSchedule _ | PersistRecord _ | PersistUpdate _ => Result string unit
  | ExecutionsStartedSince _ _ => Result string Z
  | ReserveOccurrence _ _ => Result string OneTimeReservation
  | TransitionOccurrence _ _ => Result string OneTimeTransitionResult
  | RenewLease _ _ _ | ReleaseLease _ _ _ _ => Result string bool
  | GetOccurrence _ => Result string (option OneTimeOccurrence)
  | Fallback _ _ => option (Schedule Value) * ScheduleExecution
  | AwaitAdmission _ _ | DispatchTicks => nat
  | DispatchOutcome => Result DispatchError DispatchResult
  | _ => unit
  end.
Definition Calls : Interface := mkInterface Call Answer.
Abbreviation Run := (Prog Calls).
Notation call c := (ask (I := Calls) c).

(** ** Persistence that is only warned about *)
Definition when_persistent {A} (persistence : bool) (p : Run A) : Run unit := if persistence then p ;; mret tt else mret tt.
Definition persist_schedule (persistence : bool) (s : Schedule Value) : Run unit := when_persistent persistence (call (UpdateSchedule s)).
Definition persist_record (persistence : bool) (e : ScheduleExecution) : Run unit := when_persistent persistence (call (PersistRecord e)).
Definition persist_update (persistence : bool) (e : ScheduleExecution) : Run unit := when_persistent persistence (call (PersistUpdate e)).

Section records.
Context (to_rfc3339 : Z -> string).
Implicit Types (fired : FiredTrigger Value) (schedule : Schedule Value).

Definition request_fields (schedule : Schedule Value) (parameters : Value) (trigger_time : Z) : Map :=
  [("schedule_id", Str (id schedule)); ("schedule_name", Str (name schedule)); ("workflow_id", Str (workflow_id schedule));
   ("trigger", trigger_to_value to_rfc3339 (trigger schedule)); ("parameter_values", parameters);
   ("trigger_time", Str (to_rfc3339 trigger_time))].
Definition sequenced_fields (schedule : Schedule Value) (parameters : Value) (sequence trigger_time : Z) : Map :=
  [("schedule_id", Str (id schedule)); ("schedule_name", Str (name schedule)); ("workflow_id", Str (workflow_id schedule));
   ("trigger", trigger_to_value to_rfc3339 (trigger schedule)); ("parameter_values", parameters);
   ("execution_sequence", Num (Integer sequence)); ("trigger_time", Str (to_rfc3339 trigger_time))].
Definition depth_field fired : string * Value := ("cascade_depth", Num (Integer (cascade_depth fired))).
Definition recovery_field fired : string * Value := ("is_recovery", Bool (is_recovery fired)).
Definition execution_name (schedule : Schedule Value) (uuid : string) : string := "exec-" +:+ id schedule +:+ "-" +:+ uuid.

Definition skip_record (now : Z) (uuid : string) fired schedule (reason : string) : ScheduleExecution :=
  mkExecution (execution_name schedule uuid) (id schedule) (fired_at fired) None (Some now) Skipped None
    (Object (request_fields schedule (parameter_values schedule) (fired_at fired) ++ [depth_field fired; recovery_field fired]))
    (Object [("status", Str "skipped"); ("reason", Str reason)]) None.
Definition failure_record (now : Z) (uuid : string) fired schedule (message : string) : ScheduleExecution :=
  mkExecution (execution_name schedule uuid) (id schedule) (fired_at fired) None (Some now) Failed None
    (Object (request_fields schedule (parameter_values schedule) (fired_at fired) ++ [depth_field fired]))
    (Object [("status", Str "failed"); ("error", Str message)]) (Some message).

(** The cursor is advanced and persisted, then the record. *)
Definition settle_record (persistence : bool) fired schedule (now : Z) (record : ScheduleExecution) : Run unit :=
  call (RecordExecution record) ;;
  updated ← call (AdvanceCursor (id schedule) (cursor_time fired now));
  match updated with Some s => persist_schedule persistence s | None => mret tt end ;;
  persist_record persistence record.
Definition record_policy_skip (persistence : bool) fired schedule (reason : string) : Run unit :=
  now ← call Now;
  uuid ← call Uuid;
  settle_record persistence fired schedule now (skip_record now uuid fired schedule reason).
Definition record_dispatch_failure (persistence : bool) fired schedule (message : string) : Run unit :=
  now ← call Now;
  uuid ← call Uuid;
  settle_record persistence fired schedule now (failure_record now uuid fired schedule message).

Definition cancelled_by_newer (now : Z) (record : ScheduleExecution) : ScheduleExecution :=
  if is_active record then
    mkExecution (execution_id record) (x_schedule_id record) (triggered_at record) (started_at record) (Some now) Cancelled
      (workflow_execution_id record) (request_summary record)
      (Object [("status", Str "cancelled"); ("reason", Str "cancelled by newer schedule trigger")])
      (Some "cancelled by newer schedule trigger")
  else record.
Fixpoint settle_cancelled (persistence : bool) (executions : list string) : Run unit :=
  match executions with
  | [] => mret tt
  | i :: executions =>
      call (JoinTask i) ;;
      now ← call Now;
      updated ← call (UpdateExecution i (cancelled_by_newer now));
      match updated with Some e => persist_update persistence e | None => mret tt end ;;
      settle_cancelled persistence executions
  end.
Definition cancel_previous_dispatches (persistence : bool) (schedule_id : string) : Run unit :=
  cancelled ← call (TakeActiveDispatches schedule_id);
  call (AbortTasks cancelled) ;;
  settle_cancelled persistence cancelled.
(** What the concurrency policy makes of a trigger: [false] when it was skipped. *)
Definition admit_concurrency (policy : ConcurrencyPolicy) (persistence : bool) fired schedule : Run bool :=
  match policy with
  | SkipIfRunning =>
      active ← call (HasActiveDispatch (id schedule));
      if (active : bool) then record_policy_skip persistence fired schedule "previous execution is still running" ;; mret false
      else mret true
  | CancelPrevious => cancel_previous_dispatches persistence (id schedule) ;; mret true
  | Allow | Queue => mret true
  end.
(** The parameters, or the failure that was recorded. *)
Definition resolve_or_fail (persistence : bool) fired schedule (sequence : Z) : Run (option Value) :=
  match resolve_parameters to_rfc3339 (Object []) (parameter_values schedule)
          (mkContext (fired_at fired) (f_trigger_type fired) sequence (event_payload fired)) with
  | Ok values => mret (Some values)
  | Err e =>
      record_dispatch_failure persistence fired schedule ("parameter resolution failed: " +:+ display_resolve_error e) ;;
      mret None
  end.
End records.
