(* ===== verification/OneTime.v ===== *)
(** * One-time schedules

    Models the dispatch of one-time schedules in
    [crates/hf-scheduler/src/manager.rs], as programs over [SchedulerCalls]: a trigger
    reserves a durable receipt, and the task it spawns moves that receipt on before and
    after the workflow runs, renewing its lease meanwhile. *)
From S2P Require Import Prelude Interaction Schedule JsonValue Params Occurrence Journal Executions SchedulerCalls.

Section one_time.
Context (to_rfc3339 : Z -> string).

Definition mark_recovery_required (i detail : string) : Run unit := call (MarkStatus i (RecoveryRequired detail)).
Definition mark_consumed (i : string) : Run unit := call (MarkStatus i Consumed).
Definition one_time_trigger_blocked (i : string) : Run bool :=
  block ← call GlobalBlock;
  match block with
  | Some _ => mret true
  | None =>
      status ← call (StatusOf i);
      mret (match status with Some Consumed | Some (RecoveryRequired _) => true | Some Ready | None => false end)
  end.
Definition release (o : OneTimeOccurrence) (detail : string) : Run unit :=
  now ← call Now;
  call (ReleaseLease (occurrence_id o) (owner_id o) now detail) ;; mret tt.

(** ** Admission *)
Definition new_occurrence (schedule : Schedule Value) (fired : FiredTrigger Value) (now : Z) (u1 u2 owner : string) : OneTimeOccurrence :=
  mkOccurrence ("occ-" +:+ id schedule +:+ "-" +:+ u1) (id schedule) (execution_name schedule u2) (fired_at fired) Reserved owner
    (Some (now + ONE_TIME_LEASE)) None.
Definition pending_one_time (schedule : Schedule Value) (fired : FiredTrigger Value) (execution : string) (parameters : Value) (sequence : Z)
    : ScheduleExecution :=
  mkExecution execution (id schedule) (fired_at fired) None None Pending None
    (Object (sequenced_fields to_rfc3339 schedule parameters sequence (fired_at fired) ++ [depth_field fired])) (Object []) None.
(** The receipt was there before: its cursor is reconciled. *)
Definition existing_receipt (schedule : Schedule Value) (existing : OneTimeOccurrence) : Run unit :=
  updated ← call (AdvanceCursor (id schedule) (occurrence_triggered_at existing));
  match updated with
  | None => mret tt
  | Some updated =>
      r ← call (UpdateSchedule updated);
      if negb (is_ok (r : Result string unit))
      then mark_recovery_required (id schedule) "receipt exists but the JSON cursor could not be reconciled"
      else
        now ← call Now;
        if recovery_eligible existing now
        then mark_recovery_required (id schedule) "existing non-terminal one-time occurrence requires acknowledgement"
        else mark_consumed (id schedule)
  end.
(** Whether it was reserved is not known. *)
Definition ambiguous_reservation (schedule : Schedule Value) (occurrence : OneTimeOccurrence) : Run unit :=
  recovered ← call (GetOccurrence (occurrence_id occurrence));
  match recovered with
  | Ok (Some existing) =>
      updated ← call (AdvanceCursor (id schedule) (occurrence_triggered_at existing));
      cursor_durable ← match updated with
        | Some updated => r ← call (UpdateSchedule updated); mret (is_ok (r : Result string unit))
        | None => mret false
        end;
      (if terminal existing then mret tt else release existing "reservation result was ambiguous") ;;
      if terminal existing && cursor_durable then mark_consumed (id schedule)
      else mark_recovery_required (id schedule) "reservation committed but dispatch admission is ambiguous"
  | _ => mark_recovery_required (id schedule) "one-time occurrence reservation is unavailable"
  end.
(** It was: the cursor is advanced, and the task spawned, or the receipt given up. *)
Definition dispatch_reserved (schedule : Schedule Value) (fired : FiredTrigger Value) (now : Z) (policy : ConcurrencyPolicy) (owner admission_id : string)
    (parameters : Value) (pending : ScheduleExecution) (occurrence : OneTimeOccurrence) : Run unit :=
  updated ← call (AdvanceCursor (id schedule) (cursor_time fired now));
  cursor_persisted ← match updated with
    | Some updated => r ← call (UpdateSchedule updated); mret (is_ok (r : Result string unit))
    | None => mret false
    end;
  if negb cursor_persisted then
    let detail := "schedule cursor persistence failed after durable reservation" in
    released_at ← call Now;
    call (ReleaseLease (occurrence_id occurrence) owner released_at detail) ;;
    mark_recovery_required (id schedule) detail ;;
    call (ClearAdmission admission_id)
  else
    mark_consumed (id schedule) ;;
    call (ClearAdmission admission_id) ;;
    call (SpawnOneTime (mkOneTimeTask schedule pending occurrence parameters policy)).
Definition handle_one_time_trigger (dispatcher persistence : bool) (owner : string) (fired : FiredTrigger Value) (schedule : Schedule Value) : Run unit :=
  blocked ← one_time_trigger_blocked (id schedule);
  if (blocked : bool) then mret tt
  else if negb dispatcher then mark_recovery_required (id schedule) "one-time workflow dispatcher is unavailable"
  else if negb persistence then mark_recovery_required (id schedule) "durable one-time occurrence persistence is unavailable"
  else
    let policy := effective_concurrency_policy (policies schedule) in
    admitted ← admit_concurrency to_rfc3339 policy true fired schedule;
    if negb admitted then mret tt
    else
      sequence ← call (NextSequence (id schedule));
      parameters ← resolve_or_fail to_rfc3339 true fired schedule sequence;
      match parameters with
      | None => mret tt
      | Some parameters =>
          now ← call Now;
          u1 ← call Uuid;
          u2 ← call Uuid;
          let occurrence := new_occurrence schedule fired now u1 u2 owner in
          let pending := pending_one_time schedule fired (occurrence_execution_id occurrence) parameters sequence in
          call (RegisterAdmission occurrence) ;;
          reservation ← call (ReserveOccurrence occurrence pending);
          match reservation with
          | Ok (ReservedOccurrence reserved) =>
              call (Count ReservationWin) ;;
              call (RecordExecution pending) ;;
              dispatch_reserved schedule fired now policy owner (occurrence_id occurrence) parameters pending reserved
          | Ok (ExistingOccurrence existing) =>
              call (Count DuplicateSuppression) ;;
              existing_receipt schedule existing ;;
              call (ClearAdmission (occurrence_id occurrence))
          | Err _ =>
              ambiguous_reservation schedule occurrence ;;
              call (ClearAdmission (occurrence_id occurrence))
          end
      end.

(** ** The task *)
Definition renew (o : OneTimeOccurrence) : Run bool :=
  now ← call Now;
  renewed ← call (RenewLease (occurrence_id o) (owner_id o) (now + ONE_TIME_LEASE));
  mret (match renewed with Ok true => true | _ => false end).
(** Heartbeats before admission: [false] when the lease was lost. *)
Fixpoint await_admission (ticks : nat) (o : OneTimeOccurrence) : Run bool :=
  match ticks with
  | O => mret true
  | S ticks =>
      renewed ← renew o;
      if (renewed : bool) then await_admission ticks o
      else
        call (Count LeaseRenewalFailure) ;;
        mark_recovery_required (occurrence_schedule_id o) "one-time ownership lease renewal failed before dispatch" ;;
        release o "lease renewal failed before dispatcher entry" ;;
        mret false
  end.
Definition started (now : Z) (e : ScheduleExecution) : ScheduleExecution :=
  mkExecution (execution_id e) (x_schedule_id e) (triggered_at e) (Some now) (completed_at e) Running (workflow_execution_id e)
    (request_summary e) (response_summary e) (error_message e).
Definition transition_of (o : OneTimeOccurrence) (from to : OneTimeOccurrenceState) (lease : option Z) (detail : option string)
    : OneTimeOccurrenceTransition :=
  mkOneTimeTransition (occurrence_id o) (occurrence_schedule_id o) (occurrence_execution_id o) (owner_id o) from to lease detail.
Definition took_place (r : Result string OneTimeTransitionResult) : bool :=
  match r with Ok (Applied _ | Idempotent _) => true | Ok (Conflict _ | Missing) | Err _ => false end.
Definition transition_one_time_to_running (pending : ScheduleExecution) (o : OneTimeOccurrence) : Run (option ScheduleExecution) :=
  started_at ← call Now;
  let running := started started_at pending in
  now ← call Now;
  result ← call (TransitionOccurrence (transition_of o Reserved Occurrence.Running (Some (now + ONE_TIME_LEASE)) None) running);
  if took_place result then
    call (UpdateExecution (execution_id running) (fun _ => running)) ;;
    mret (Some running)
  else
    call (Count TransitionFailure) ;;
    mark_recovery_required (occurrence_schedule_id o) "one-time reserved-to-running transition failed" ;;
    release o "running transition failed before dispatcher entry" ;;
    mret None.
(** Heartbeats during the dispatch: whether the lease is still held. *)
Fixpoint await_dispatch (ticks : nat) (lease_healthy : bool) (o : OneTimeOccurrence) : Run bool :=
  match ticks with
  | O => mret lease_healthy
  | S ticks =>
      if negb lease_healthy then await_dispatch ticks false o
      else
        renewed ← renew o;
        if (renewed : bool) then await_dispatch ticks true o
        else
          call LeaseLost ;;
          call (Count LeaseRenewalFailure) ;;
          mark_recovery_required (occurrence_schedule_id o) "one-time ownership lease renewal failed" ;;
          await_dispatch ticks false o
  end.
Definition ONE_TIME_SKIP_RECOVERY : string := "one-time dispatch was skipped before its workflow ran; acknowledge to close it or re-create the schedule".
Definition WORKFLOW_FAILURE_RECOVERY : string := "workflow_failure".
Definition DISPATCHER_FAILURE_RECOVERY : string := "dispatcher_failure".
Definition ended (now : Z) (s : ExecutionStatus) (response : Value) (error : option string) (e : ScheduleExecution) : ScheduleExecution :=
  mkExecution (execution_id e) (x_schedule_id e) (triggered_at e) (started_at e) (Some now) s (workflow_execution_id e)
    (request_summary e) response error.
Definition result_value (what : string) (r : DispatchResult) (duration : Z) : Value :=
  Object [("status", Str what); ("summary", Str (summary r)); ("output", output r); ("duration_ms", Num (Integer duration))].
(** The execution as its outcome leaves it, and why it needs recovery. *)
Definition terminal_execution (running : ScheduleExecution) (result : Result DispatchError DispatchResult) (now duration : Z)
    : ScheduleExecution * option string :=
  match result with
  | Ok r =>
      if success r
      then (ended now Completed (result_value "completed" r duration) (error_message running) running, None)
      else (ended now Failed (result_value "failed" r duration) (d_error r) running, Some WORKFLOW_FAILURE_RECOVERY)
  | Err e =>
      (ended now Failed (Object [("status", Str "failed"); ("error", Str DISPATCHER_FAILURE_RECOVERY)]) (Some (display_dispatch_error e)) running,
       Some DISPATCHER_FAILURE_RECOVERY)
  end.
Definition skip_outcome (o : OneTimeOccurrence) (schedule_id : string) (running : ScheduleExecution) (r : DispatchResult) (duration : Z) (lease_healthy : bool)
    : Run unit :=
  now ← call Now;
  let e := ended now Skipped (result_value "skipped" r duration) (error_message running) running in
  call (UpdateExecution (execution_id e) (fun _ => e)) ;;
  if lease_healthy then
    release o ONE_TIME_SKIP_RECOVERY ;;
    mark_recovery_required schedule_id ONE_TIME_SKIP_RECOVERY
  else mret tt.
Definition settle_outcome (o : OneTimeOccurrence) (schedule_id : string) (running : ScheduleExecution) (result : Result DispatchError DispatchResult)
    (duration : Z) (lease_healthy : bool) : Run unit :=
  now ← call Now;
  let '(execution, detail) := terminal_execution running result now duration in
  if negb lease_healthy then mret tt
  else
    let to := if bool_decide (status execution = Completed) then Occurrence.Completed else Occurrence.Failed in
    r ← call (TransitionOccurrence (transition_of o Occurrence.Running to None detail) execution);
    if took_place r then
      call (UpdateExecution (execution_id execution) (fun _ => execution)) ;;
      mark_consumed schedule_id
    else
      call (Count TransitionFailure) ;;
      mark_recovery_required schedule_id "dispatcher finished but terminal occurrence persistence is unknown".
Definition run_one_time_dispatch (t : OneTimeTask) : Run unit :=
  let o := o_occurrence t in
  let schedule_id := id (o_schedule t) in
  ticks ← call (AwaitAdmission (bool_decide (o_policy t = Queue)) schedule_id);
  admitted ← await_admission ticks o;
  if negb admitted then mret tt
  else
    running ← transition_one_time_to_running (o_pending t) o;
    match running with
    | None => mret tt
    | Some running =>
        call (Dispatch schedule_id (workflow_id (o_schedule t)) (o_parameters t) 0) ;;
        ticks ← call DispatchTicks;
        lease_healthy ← await_dispatch ticks true o;
        result ← call DispatchOutcome;
        duration ← call Elapsed;
        match result with
        | Ok r => if skipped r then skip_outcome o schedule_id running r duration lease_healthy
                  else settle_outcome o schedule_id running result duration lease_healthy
        | Err _ => settle_outcome o schedule_id running result duration lease_healthy
        end
    end.
End one_time.

(** ** What the programs do, whatever they are answered *)
Abbreviation Ev := (Interaction.Event Calls).
Abbreviation event op x := (Interaction.mkEvent (I := Calls) op x).
Definition any_answer (c : Call) : Answer c :=
  match c as c return Answer c with
  | Now | Elapsed | NextSequence _ => 0
  | Uuid => ""%string
  | GlobalBlock => None
  | StatusOf _ => None
  | LoadSchedule _ | AdvanceCursor _ _ => None
  | HasActiveDispatch _ | RecoveryFailed => false
  | TakeAdmissions | StopTasks | PendingRecords => []
  | GetExecution _ => None
  | TakeActiveDispatches _ => []
  | UpdateExecution _ _ => None
  | CountStarts _ _ => (0, 0)
  | UpdateSchedule _ | PersistRecord _ | PersistUpdate _ => Ok tt
  | ExecutionsStartedSince _ _ => Ok 0
  | ReserveOccurrence _ _ => Err ""%string
  | TransitionOccurrence _ _ => Ok Missing
  | RenewLease _ _ _ | ReleaseLease _ _ _ _ => Ok false
  | GetOccurrence _ => Ok None
  | Fallback _ _ => (None, mkExecution "" "" 0 None None Pending None Null Null None)
  | AwaitAdmission _ _ | DispatchTicks => 0%nat
  | DispatchOutcome => Err (Internal "")
  | _ => tt
  end.
(** A workflow of schedule [s] is dispatched. *)
Definition dispatches (s : string) (c : Call) : bool := match c with Dispatch i _ _ _ => String.eqb i s | _ => false end.
(** A receipt of schedule [s] is reported to have gone from reserved to running. *)
Definition begins (s : string) (e : Ev) : bool :=
  match e with
  | Interaction.mkEvent c x =>
      match c as c return Answer c -> bool with
      | TransitionOccurrence t _ => fun x =>
          took_place x && bool_decide (ot_from t = Reserved) && bool_decide (ot_to t = Occurrence.Running) && String.eqb (ot_schedule_id t) s
      | _ => fun _ => false
      end x
  end.
Definition is_start (c : Call) : bool := match c with Dispatch _ _ _ _ | SpawnOneTime _ | SpawnTask _ => true | _ => false end.
(** Nothing of a kind of call is made. *)
Definition quiet (f : Call -> bool) (t : Trace Calls) : Prop := Forall (fun e : Ev => f (asked e) = false) t.
Definition is_quiet {A} (f : Call -> bool) (p : Run A) : Prop := ensures p (fun t _ => quiet f t).

Section quiet.
Variable f : Call -> bool.
Lemma quiet_app t t' : quiet f t -> quiet f t' -> quiet f (t ++ t').
Proof. intros. by apply Forall_app. Qed.
Lemma quiet_ret {A} (a : A) : is_quiet f (mret a).
Proof. apply ensures_ret. constructor. Qed.
Lemma quiet_bind {A B} (p : Run A) (k : A -> Run B) : is_quiet f p -> (forall a, is_quiet f (k a)) -> is_quiet f (p ≫= k).
Proof.
  intros Hp Hk. apply ensures_bind. eapply ensures_mono; [exact Hp|]. intros t a Ht.
  eapply ensures_mono; [apply Hk|]. intros t' b. by apply quiet_app.
Qed.
Lemma quiet_call c : f c = false -> is_quiet f (call c).
Proof. intros H. apply ensures_ask. intros x. by repeat constructor. Qed.
End quiet.
Ltac quieten :=
  repeat (first
    [ apply quiet_ret
    | match goal with
      | |- is_quiet _ (ask ?c) => apply (quiet_call _ c); first [reflexivity|match goal with H : forall c, is_start c = false -> _ |- _ => apply H; reflexivity end]
      | |- is_quiet _ (_ ≫= _) => apply quiet_bind; [|intros ?]
      end
    | case_match
    | progress cbn zeta ]).

Section programs.
Context (to_rfc3339 : Z -> string) (f : Call -> bool) (others : forall c, is_start c = false -> f c = false).
Lemma release_quiet o d : is_quiet f (release o d).
Proof using others. unfold release. quieten. Qed.
Lemma renew_quiet o : is_quiet f (renew o).
Proof using others. unfold renew. quieten. Qed.
Lemma persist_quiet {A} b (p : Run A) : is_quiet f p -> is_quiet f (when_persistent b p).
Proof. intros H. unfold when_persistent. destruct b; [|apply quiet_ret]. apply quiet_bind; [done|]. intros ?. apply quiet_ret. Qed.
Lemma settle_record_quiet b fired schedule now r : is_quiet f (settle_record b fired schedule now r).
Proof using others. unfold settle_record, persist_schedule, persist_record. quieten; apply persist_quiet; quieten. Qed.
Lemma resolve_quiet b fired schedule n : is_quiet f (resolve_or_fail to_rfc3339 b fired schedule n).
Proof using others. unfold resolve_or_fail, record_dispatch_failure. quieten. apply settle_record_quiet. Qed.
Lemma settle_cancelled_quiet b l : is_quiet f (settle_cancelled b l).
Proof using others. induction l as [|i l IH]; [apply quiet_ret|]. cbn [settle_cancelled]. unfold persist_update. quieten; try apply persist_quiet; quieten; exact IH. Qed.
Lemma admit_quiet policy b fired schedule : is_quiet f (admit_concurrency to_rfc3339 policy b fired schedule).
Proof using others.
  unfold admit_concurrency, cancel_previous_dispatches, record_policy_skip. quieten; first [apply settle_record_quiet|apply settle_cancelled_quiet].
Qed.
Lemma blocked_quiet i : is_quiet f (one_time_trigger_blocked i).
Proof using others. unfold one_time_trigger_blocked. quieten. Qed.
Lemma ambiguous_quiet schedule o : is_quiet f (ambiguous_reservation schedule o).
Proof using others. unfold ambiguous_reservation, mark_recovery_required, mark_consumed. quieten; apply release_quiet. Qed.
Lemma existing_quiet schedule o : is_quiet f (existing_receipt schedule o).
Proof using others. unfold existing_receipt, mark_recovery_required, mark_consumed. quieten. Qed.
Lemma await_admission_quiet n o : is_quiet f (await_admission n o).
Proof using others.
  induction n as [|n IH]; [apply quiet_ret|]. cbn [await_admission]. unfold mark_recovery_required.
  quieten; first [apply renew_quiet|apply release_quiet|exact IH].
Qed.
Lemma await_dispatch_quiet n b o : is_quiet f (await_dispatch n b o).
Proof using others.
  revert b. induction n as [|n IH]; intros b; [apply quiet_ret|]. cbn [await_dispatch]. unfold mark_recovery_required.
  quieten; first [apply renew_quiet|apply IH].
Qed.
Lemma skip_quiet o i running r d b : is_quiet f (skip_outcome o i running r d b).
Proof using others. unfold skip_outcome, mark_recovery_required. quieten. apply release_quiet. Qed.
Lemma settle_quiet o i running r d b : is_quiet f (settle_outcome o i running r d b).
Proof using others. unfold settle_outcome, mark_recovery_required, mark_consumed. quieten. Qed.
Lemma transition_quiet pending o : is_quiet f (transition_one_time_to_running pending o).
Proof using others. unfold transition_one_time_to_running, mark_recovery_required. quieten. apply release_quiet. Qed.
End programs.
#[export] Hint Resolve release_quiet renew_quiet persist_quiet settle_record_quiet resolve_quiet settle_cancelled_quiet admit_quiet
  blocked_quiet ambiguous_quiet existing_quiet await_admission_quiet await_dispatch_quiet skip_quiet settle_quiet transition_quiet : quiet.

Section dispatching.
Context (to_rfc3339 : Z -> string) (s : string).
Lemma others_dispatch c : is_start c = false -> dispatches s c = false.
Proof. by destruct c. Qed.
Hint Resolve others_dispatch : quiet.
Lemma handle_quiet d b owner fired schedule : is_quiet (dispatches s) (handle_one_time_trigger to_rfc3339 d b owner fired schedule).
Proof.
  unfold handle_one_time_trigger, dispatch_reserved, mark_recovery_required, mark_consumed. quieten; eauto with quiet.
Qed.
(** How often. *)
Definition dispatched (t : Trace Calls) : nat := Interaction.count (fun e : Ev => dispatches s (asked e)) t.
(** A dispatch is the first, and comes after its receipt has begun. *)
Definition in_order (before : Trace Calls) (e : Ev) : Prop :=
  dispatches s (asked e) = true -> quiet (dispatches s) before /\ existsb (begins s) before = true.
Lemma quiet_order {A} (p : Run A) before : is_quiet (dispatches s) p -> always in_order before p.
Proof.
  intros Hp t r Hr t1 e t2 -> He. specialize (Hp _ _ Hr). apply Forall_app in Hp as [_ [Hf _]%list.Forall_cons]. congruence.
Qed.
Lemma order_bind {A B} (p : Run A) (k : A -> Run B) before : is_quiet (dispatches s) p ->
  (forall t a, runs p t a -> quiet (dispatches s) t -> always in_order (before ++ t) (k a)) -> always in_order before (p ≫= k).
Proof. intros Hp Hk. apply always_bind; [by apply quiet_order|]. intros t a Hr. apply Hk; [done|]. by eapply Hp. Qed.
Lemma transition_begins pending o : occurrence_schedule_id o = s ->
  ensures (transition_one_time_to_running pending o) (fun t r => r <> None -> existsb (begins s) t = true).
Proof.
  intros Ho. unfold transition_one_time_to_running. apply ensures_bind, (ensures_ask (I := Calls) Now). intros started_at.
  apply ensures_bind, (ensures_ask (I := Calls) Now). intros now. apply ensures_bind, (ensures_ask (I := Calls) (TransitionOccurrence _ _)).
  intros x. destruct (took_place x) eqn:Hx.
  - intros t r _ _. cbn. by rewrite Hx, Ho, String.eqb_refl.
  - intros t r (t1 & t2 & ? & _ & _ & (t3 & t4 & ? & _ & _ & (t5 & t6 & ? & _ & _ & [_ ->])%runs_bind)%runs_bind)%runs_bind. done.
Qed.
Lemma task_in_order t : occurrence_schedule_id (o_occurrence t) = id (o_schedule t) -> always in_order [] (run_one_time_dispatch t).
Proof.
  intros Ht. unfold run_one_time_dispatch. destruct (String.eqb_spec (id (o_schedule t)) s) as [Hs|Hs]; cycle 1.
  { apply quiet_order. apply String.eqb_neq in Hs. quieten; eauto with quiet. apply (quiet_call _ (Dispatch _ _ _ _)). exact Hs. }
  apply order_bind; [by quieten|]. intros t1 n _ Q1. apply order_bind; [eauto with quiet|]. intros t2 [|] _ Q2; [|apply quiet_order; quieten].
  cbn [negb]. apply order_bind; [eauto with quiet|]. intros t3 [running|] R3 Q3; [|apply quiet_order; quieten].
  apply transition_begins in R3; [|by rewrite Ht]. apply always_bind.
  - apply (always_ask (I := Calls) (Dispatch _ _ _ _)). intros x _. split; [repeat apply quiet_app; first [done|constructor]|].
    rewrite !existsb_app, R3 by done. by rewrite orb_true_r.
  - intros t4 ? _. apply quiet_order. quieten; eauto with quiet.
Qed.
Lemma in_order_count t : (forall t1 e t2, t = t1 ++ e :: t2 -> in_order t1 e) -> (dispatched t <= Interaction.count (begins s) t)%nat.
Proof.
  intros H. assert (quiet (dispatches s) t \/ exists u e v, t = u ++ e :: v /\ quiet (dispatches s) u /\ dispatches s (asked e) = true) as [Hq|(u & e & v & -> & Hu & He)].
  { clear H. induction t as [|e t IH]; [by left; constructor|]. destruct (dispatches s (asked e)) eqn:He.
    - right. exists [], e, t. split; [done|]. split; [constructor|done].
    - destruct IH as [?|(u & e' & v & -> & ? & ?)]; [left; by constructor|]. right. exists (e :: u), e', v. split; [done|]. split; [by constructor|done]. }
  - replace (dispatched t) with 0%nat; [lia|]. symmetry. unfold dispatched, Interaction.count. clear H.
    induction Hq as [|e t He _ IH]; [done|]. cbn. by rewrite He.
  - destruct (H u e v eq_refl He) as [_ Hb].
    assert (quiet (dispatches s) v) as Hv.
    { clear Hb. revert H. induction v as [|d v IH] using rev_ind; intros H; [constructor|]. apply quiet_app.
      - apply IH. intros t1 e' t2 E. apply (H t1 e' (t2 ++ [d])). change (u ++ e :: v ++ [d]) with (u ++ (e :: v) ++ [d]). rewrite app_assoc, E. by rewrite <- app_assoc.
      - repeat constructor. destruct (dispatches s (asked d)) eqn:Hd; [|done].
        destruct (H (u ++ e :: v) d [] ltac:(by rewrite <- app_assoc) Hd) as [Hq _].
        apply Forall_app in Hq as [_ [? _]%list.Forall_cons]. congruence. }
    assert (Hz : forall w, quiet (dispatches s) w -> dispatched w = 0%nat).
    { intros w. unfold dispatched, Interaction.count. induction 1 as [|d w Hd _ IH]; [done|]. cbn. by rewrite Hd. }
    assert (Hone : dispatched [e] = 1%nat) by (unfold dispatched, Interaction.count; cbn; by rewrite He).
    change (e :: v) with ([e] ++ v). unfold dispatched in *. rewrite !Interaction.count_app, (Hz u), (Hz v), Hone by done.
    enough (1 <= Interaction.count (begins s) u)%nat by lia. unfold Interaction.count. apply existsb_exists in Hb as (b & Hb & Hbb).
    assert (In b (List.filter (begins s) u)) as Hin by (by apply filter_In). destruct (List.filter (begins s) u); [done|cbn; lia].
Qed.
End dispatching.

(** ** Every task accounts for its schedule *)
Definition settles (e : Ev) : bool :=
  match e with
  | Interaction.mkEvent c x =>
      match c as c return Answer c -> bool with
      | TransitionOccurrence t _ => fun x => took_place x && terminal_state (ot_to t)
      | _ => fun _ => false
      end x
  end.
Definition settled (t : Trace Calls) : bool := existsb settles t.
Definition last_mark (t : Trace Calls) : option (string * OneTimeRuntimeStatus) :=
  foldl (fun m (e : Ev) => match asked e with MarkStatus i status => Some (i, status) | _ => m end) None t.
Lemma settled_snoc t e : settled (t ++ [e]) = settled t || settles e.
Proof. unfold settled. rewrite existsb_app. cbn. by rewrite orb_false_r. Qed.
Lemma last_mark_snoc t (e : Ev) : last_mark (t ++ [e]) = match asked e with MarkStatus i status => Some (i, status) | _ => last_mark t end.
Proof. unfold last_mark. by rewrite foldl_app. Qed.

Section accounted.
Context (i : string).
Definition marked (t : Trace Calls) : Prop := exists detail, last_mark t = Some (i, RecoveryRequired detail).
(** Nothing has settled the schedule, which is marked when [lost]. *)
Definition unsettled (lost : Prop) (t : Trace Calls) : Prop := settled t = false /\ (lost -> marked t).
Lemma unsettled_mono (P P' : Prop) t : unsettled P t -> (P' -> P) -> unsettled P' t.
Proof. intros [H1 H2] H. split; auto. Qed.
(** Calls that neither mark nor settle. *)
Definition aside (c : Call) : bool := match c with MarkStatus _ _ | TransitionOccurrence _ _ => false | _ => true end.
Lemma unsettled_snoc lost t (e : Ev) : unsettled lost t -> aside (asked e) = true -> unsettled lost (t ++ [e]).
Proof.
  intros [Hs Hm] He. destruct e as [c x]. split; [rewrite settled_snoc, Hs; by destruct c|]. intros [d Hd]%Hm. exists d. rewrite last_mark_snoc. by destruct c.
Qed.
Lemma after_aside lost c {B} (k : Answer c -> Run B) R t : unsettled lost t -> aside c = true ->
  (forall x t, unsettled lost t -> after (k x) R t) -> after (call c ≫= k) R t.
Proof. intros H Hc Hk. apply after_bind, (after_ask (I := Calls) c). intros x. by apply Hk, unsettled_snoc. Qed.
Lemma unsettled_mark lost detail t x : unsettled lost t -> unsettled True (t ++ [event (MarkStatus i (RecoveryRequired detail)) x]).
Proof. intros [Hs _]. split; [by rewrite settled_snoc, Hs|]. intros _. exists detail. by rewrite last_mark_snoc. Qed.
Lemma after_last_mark lost detail t : unsettled lost t -> after (mark_recovery_required i detail) (fun t _ => unsettled True t) t.
Proof. intros H. apply (after_ask (I := Calls) (MarkStatus _ _)). intros []. by eapply unsettled_mark. Qed.
Lemma after_mark lost detail {B} (k : unit -> Run B) R t : unsettled lost t ->
  (forall t, unsettled True t -> after (k tt) R t) -> after (mark_recovery_required i detail ≫= k) R t.
Proof. intros H Hk. apply after_bind. eapply ensures_mono; [by eapply after_last_mark|]. intros u []. apply Hk. Qed.
Lemma after_use {A B} (p : Run A) (k : A -> Run B) (Q : Trace Calls -> A -> Prop) R t :
  after p Q t -> (forall t a, Q t a -> after (k a) R t) -> after (p ≫= k) R t.
Proof. intros Hp Hk. apply after_bind. eapply ensures_mono; [exact Hp|]. intros u a. apply Hk. Qed.
Lemma release_unsettled lost o d t : unsettled lost t -> after (release o d) (fun t _ => unsettled lost t) t.
Proof. intros H. unfold release. do 2 (apply (after_aside lost); [done|done|]; clear t H; intros ? t H). by apply after_ret. Qed.
Lemma renew_unsettled lost o t : unsettled lost t -> after (renew o) (fun t _ => unsettled lost t) t.
Proof. intros H. unfold renew. do 2 (apply (after_aside lost); [done|done|]; clear t H; intros ? t H). by apply after_ret. Qed.
Lemma admission_unsettled n o t : occurrence_schedule_id o = i -> unsettled False t ->
  after (await_admission n o) (fun t ok => unsettled (ok = false) t) t.
Proof.
  intros Ho. revert t. induction n as [|n IH]; intros t H; cbn [await_admission]; [by apply after_ret, (unsettled_mono False)|].
  apply (after_use _ _ _ _ _ (renew_unsettled _ _ _ H)). clear t H. intros t [|] H; [by apply IH|].
  apply (after_aside False); [done|done|]. clear t H. intros _ t H. rewrite Ho. apply (after_mark False); [done|]. clear t H. intros t H.
  apply (after_use _ _ _ _ _ (release_unsettled _ _ _ _ H)). clear t H. intros t _ H. apply after_ret. by apply (unsettled_mono True).
Qed.
Lemma begun_unsettled lost t tr e x : terminal_state (ot_to tr) = false -> unsettled lost t -> unsettled False (t ++ [event (TransitionOccurrence tr e) x]).
Proof. intros Ht [Hs _]. split; [|done]. rewrite settled_snoc, Hs. cbn -[terminal_state]. by rewrite Ht, andb_false_r. Qed.
Lemma transition_unsettled pending o t : occurrence_schedule_id o = i -> unsettled False t ->
  after (transition_one_time_to_running pending o) (fun t r => unsettled (r = None) t) t.
Proof.
  intros Ho H. unfold transition_one_time_to_running. do 2 (apply (after_aside False); [done|done|]; clear t H; intros ? t H).
  apply after_bind, (after_ask (I := Calls) (TransitionOccurrence _ _)). intros y. apply (begun_unsettled _ _ _ (started x pending) y) in H; [|done].
  revert H. match goal with |- unsettled _ ?u -> _ => generalize u end. clear t. intros t H. destruct (took_place y).
  - apply (after_aside False); [done|done|]. clear t H. intros ? t H. apply after_ret. by apply (unsettled_mono False).
  - apply (after_aside False); [done|done|]. clear t H. intros ? t H. rewrite Ho. apply (after_mark False); [done|]. clear t H. intros t H.
    apply (after_use _ _ _ _ _ (release_unsettled _ _ _ _ H)). clear t H. intros t _ H. apply after_ret. by apply (unsettled_mono True).
Qed.
Lemma dispatch_unsettled n b o t : occurrence_schedule_id o = i -> unsettled (b = false) t ->
  after (await_dispatch n b o) (fun t b => unsettled (b = false) t) t.
Proof.
  intros Ho. revert b t. induction n as [|n IH]; intros b t H; cbn [await_dispatch]; [by apply after_ret|].
  destruct b; cbn [negb]; [|by apply IH]. apply (after_use _ _ _ _ _ (renew_unsettled _ _ _ H)). clear t H. intros t [|] H; [by apply IH|].
  do 2 (apply (after_aside (true = false)); [done|done|]; clear t H; intros ? t H). rewrite Ho. apply (after_mark (true = false)); [done|]. clear t H. intros t H.
  apply IH. by apply (unsettled_mono True).
Qed.
Lemma skip_unsettled o running r d b t : unsettled (b = false) t -> after (skip_outcome o i running r d b) (fun t _ => unsettled True t) t.
Proof.
  intros H. unfold skip_outcome. apply (after_aside (b = false)); [done|done|]. clear t H. intros now t H. cbv zeta.
  apply (after_aside (b = false)); [done|done|]. clear t H. intros ? t H. destruct b; [|apply after_ret; by apply (unsettled_mono (false = false))].
  apply (after_use _ _ _ _ _ (release_unsettled _ _ _ _ H)). clear t H. intros t _ H. by eapply after_last_mark.
Qed.
(** Settled as [Consumed], or marked for recovery. *)
Definition accounted (t : Trace Calls) : Prop :=
  if settled t then last_mark t = Some (i, Consumed) else exists detail, last_mark t = Some (i, RecoveryRequired detail).
Lemma unsettled_accounted t : unsettled True t -> accounted t.
Proof. intros [Hs Hm]. unfold accounted. rewrite Hs. by apply Hm. Qed.
Lemma settle_accounted o running r d b t : unsettled (b = false) t -> after (settle_outcome o i running r d b) (fun t _ => accounted t) t.
Proof.
  intros H. unfold settle_outcome. apply (after_aside (b = false)); [done|done|]. clear t H. intros now t H.
  destruct (terminal_execution running r now d) as [execution detail]. destruct b; cbn [negb]; cycle 1.
  { apply after_ret, unsettled_accounted. by apply (unsettled_mono (false = false)). }
  cbv zeta. set (tr := transition_of _ _ _ _ _). assert (Ht : terminal_state (ot_to tr) = true) by (cbn; by case_bool_decide).
  apply after_bind, (after_ask (I := Calls) (TransitionOccurrence _ _)). intros y. destruct H as [Hs _]. destruct (took_place y) eqn:Hy.
  - apply after_bind, (after_ask (I := Calls) (UpdateExecution _ _)). intros u. apply (after_ask (I := Calls) (MarkStatus _ _)). intros [].
    unfold accounted. rewrite !settled_snoc, Hs, last_mark_snoc. cbn -[terminal_state tr]. by rewrite Hy, Ht.
  - assert (Hu : unsettled False (t ++ [event (TransitionOccurrence tr execution) y])) by (split; [|done]; rewrite settled_snoc, Hs; cbn; by rewrite Hy).
    revert Hu. match goal with |- unsettled _ ?u -> _ => generalize u end. clear t Hs. intros t H.
    apply (after_aside False); [done|done|]. clear t H. intros ? t H.
    eapply ensures_mono; [apply (after_last_mark False _ _ H)|]. intros u ?. apply unsettled_accounted.
Qed.
End accounted.
(** C18: a task accounts for its schedule.  Whatever it is answered, when a task of a
    one-time schedule ends it has marked its schedule: last as consumed when a move of
    the receipt to completed or failed was reported, and as requiring recovery, with
    the reason, in all other cases (a lost lease, a failed admission or transition, a
    skipped workflow). *)
Theorem one_time_accounted (task : OneTimeTask) :
  occurrence_schedule_id (o_occurrence task) = id (o_schedule task) ->
  ensures (run_one_time_dispatch task) (fun t _ => accounted (id (o_schedule task)) t).
Proof.
  set (i := id (o_schedule task)). intros Ho. change (after (run_one_time_dispatch task) (fun t _ => accounted i t) []). unfold run_one_time_dispatch. fold i.
  assert (H : unsettled i False []) by by split. revert H. generalize (@nil Ev). intros t H.
  apply (after_aside i False); [done|done|]. clear t H. intros ticks t H.
  apply (after_use _ _ _ _ _ (admission_unsettled i _ _ _ Ho H)). clear t H. intros t [|] H; cbn [negb]; cycle 1.
  { apply after_ret, unsettled_accounted. by apply (unsettled_mono _ (false = false)). }
  apply (unsettled_mono _ _ False) in H; [|done].
  apply (after_use _ _ _ _ _ (transition_unsettled i _ _ _ Ho H)). clear t H. intros t [running|] H; cycle 1.
  { apply after_ret, unsettled_accounted. by apply (unsettled_mono _ (@None ScheduleExecution = None)). }
  do 2 (apply (after_aside i (Some running = None)); [done|done|]; clear t H; intros ? t H).
  apply (unsettled_mono _ _ (true = false)) in H; [|done].
  apply (after_use _ _ _ _ _ (dispatch_unsettled i _ _ _ _ Ho H)). clear t H. intros t healthy H.
  do 2 (apply (after_aside i (healthy = false)); [done|done|]; clear t H; intros ? t H).
  repeat case_match; try by apply settle_accounted.
  eapply ensures_mono; [by apply skip_unsettled|]. intros u ? Hu. by apply unsettled_accounted.
Qed.

(** ** Dispatched at most once
    Handlers of triggers, tasks they spawned, and anything else that does not dispatch
    the schedule, side by side; the journal answers, and its database may change
    underneath in any way its operations allow. *)
Section at_most_once.
Context `{Codec} (s : string).
Definition answers (j : JournalState) (c : Call) (x : Answer c) (j' : JournalState) : Prop :=
  match c as c return Answer c -> Prop with
  | ReserveOccurrence o e => fun x => reserve_one_time_occurrence o e j = (j', x)
  | TransitionOccurrence t e => fun x => transition_one_time_occurrence t e j = (j', x)
  | RenewLease i owner lease => fun x => renew_one_time_lease i owner lease j = (j', x)
  | ReleaseLease i owner at_ detail => fun x => release_one_time_lease i owner at_ detail j = (j', x)
  | GetOccurrence i => fun x => get_one_time_occurrence i j = (j', x)
  | _ => fun _ => j' = j
  end x.
Definition journal_drift (j j' : JournalState) : Prop := db_step (db j) (db j').
Definition answered_by_journal (e : Ev) : Prop := exists j j', answers j (asked e) (answered e) j'.
(** A task that some handler spawns. *)
Definition spawned (task : OneTimeTask) : Prop :=
  exists dispatcher persistence owner fired schedule t,
    runs (handle_one_time_trigger to_rfc3339 dispatcher persistence owner fired schedule) t tt /\ Forall answered_by_journal t /\
    event (SpawnOneTime task) tt ∈ t.
Inductive takes_part : Run unit -> Prop :=
| part_trigger dispatcher persistence owner fired schedule :
    takes_part (handle_one_time_trigger to_rfc3339 dispatcher persistence owner fired schedule)
| part_task task : spawned task -> takes_part (run_one_time_dispatch task)
| part_other p : is_quiet (dispatches s) p -> takes_part p.

Lemma answers_step j c x j' : answers j c x j' -> db_step (db j) (db j').
Proof.
  destruct c; cbn; try (intros ->; apply db_step_refl); intros E.
  - pose proof (reserve_step o e j). by rewrite E in *.
  - pose proof (transition_db_step t e j). by rewrite E in *.
  - pose proof (renew_step occurrence owner lease j). by rewrite E in *.
  - pose proof (release_step occurrence owner at_ detail j). by rewrite E in *.
  - pose proof (get_step occurrence j). by rewrite E in *.
Qed.
Definition spawns (c : Call) : bool := match c with SpawnOneTime _ => true | _ => false end.
Definition matches (e : Ev) : Prop :=
  match asked e with SpawnOneTime t => occurrence_schedule_id (o_occurrence t) = id (o_schedule t) | _ => True end.
Definition spawns_matching {A} (p : Run A) : Prop := ensures p (fun t _ => Forall answered_by_journal t -> Forall matches t).
Lemma others_spawn c : is_start c = false -> spawns c = false.
Proof. by destruct c. Qed.
Hint Resolve others_spawn : quiet.
Lemma matching_quiet {A} (p : Run A) : is_quiet spawns p -> spawns_matching p.
Proof.
  intros Hp t a Ht _. specialize (Hp _ _ Ht). eapply list.Forall_impl; [exact Hp|]. intros [c x]. unfold matches. cbn. by destruct c.
Qed.
Lemma matching_bind {A B} (p : Run A) (k : A -> Run B) : spawns_matching p -> (forall a, spawns_matching (k a)) -> spawns_matching (p ≫= k).
Proof.
  intros Hp Hk t r (t1 & t2 & a & -> & H1 & H2)%runs_bind [Ha1 Ha2]%Forall_app. apply Forall_app. split; [by eapply Hp|by eapply Hk].
Qed.
Lemma handler_matches dispatcher persistence owner fired schedule :
  spawns_matching (handle_one_time_trigger to_rfc3339 dispatcher persistence owner fired schedule).
Proof.
  unfold handle_one_time_trigger, mark_recovery_required. apply matching_bind; [apply matching_quiet; eauto with quiet|]. intros [|]; [by apply matching_quiet; quieten|].
  destruct dispatcher; [|by apply matching_quiet; quieten]. destruct persistence; [|by apply matching_quiet; quieten]. cbn [negb]. cbv zeta.
  apply matching_bind; [apply matching_quiet; eauto with quiet|]. intros [|]; [|by apply matching_quiet; quieten]. cbn [negb].
  apply matching_bind; [apply matching_quiet; by quieten|]. intros n. apply matching_bind; [apply matching_quiet; eauto with quiet|]. intros [parameters|]; [|by apply matching_quiet; quieten].
  do 3 (apply matching_bind; [apply matching_quiet; by quieten|]; intros ?). apply matching_bind; [apply matching_quiet; by quieten|]. intros ?.
  intros t r (t1 & t2 & x & -> & (x' & t' & -> & [-> ->]) & H2)%runs_bind [Ha1 Ha2]%Forall_app. apply Forall_app. split; [by repeat constructor|].
  destruct x' as [[o|o]|]; revert t2 r H2 Ha2; cycle 1.
  - apply matching_quiet. quieten; eauto with quiet.
  - apply matching_quiet. quieten; eauto with quiet.
  - apply list.Forall_cons in Ha1 as [(j & j' & Hj) _]. cbn in Hj. apply reserved_same in Hj. cbn in Hj.
    match goal with |- forall t2 r, runs ?p t2 r -> _ => change (spawns_matching p) end.
    do 2 (apply matching_bind; [apply matching_quiet; by quieten|]; intros _). unfold dispatch_reserved, mark_recovery_required, mark_consumed.
    apply matching_bind; [apply matching_quiet; by quieten|]. intros updated. apply matching_bind; [apply matching_quiet; by quieten|].
    intros [|]; [|apply matching_quiet; by quieten]. cbn [negb].
    do 2 (apply matching_bind; [apply matching_quiet; by quieten|]; intros _).
    intros t r (x & t' & -> & [-> _]) _. by repeat constructor.
Qed.
(** The receipt begins once. *)
Lemma begins_once j0 tr p : well_formed (db j0) -> pool_runs (I := Calls) answers journal_drift takes_part j0 tr p ->
  well_formed (db p.1) /\
  (Interaction.count (begins s) tr.*2 = 0%nat \/ Interaction.count (begins s) tr.*2 = 1%nat /\ past s (db p.1)).
Proof.
  intros Hd0. induction 1 as [|tr [j ps] tr' p' _ [Hd IH] Hstep]; [by split; [|left]|]. cbn [fst] in *.
  rewrite fmap_app, Interaction.count_app.
  assert (Hquiet : forall j', db_step (db j) (db j') -> Interaction.count (begins s) tr'.*2 = 0%nat ->
    well_formed (db j') /\ ((Interaction.count (begins s) tr.*2 + Interaction.count (begins s) tr'.*2 = 0)%nat \/
      (Interaction.count (begins s) tr.*2 + Interaction.count (begins s) tr'.*2 = 1)%nat /\ past s (db j'))).
  { intros j' Hs ->. rewrite Nat.add_0_r. destruct (db_step_keeps _ _ Hd Hs) as [Hd' [authority Hp]]. split; [done|].
    destruct IH as [?|[? ?]]; [by left|right; split; [done|by eapply progress_past]]. }
  inversion Hstep as [? ? i op k x j' Hi Hm|? ? q Hq|? ? i|? j' ? Hj]; subst; cbn [fst];
    [|by apply Hquiet; [apply db_step_refl|]|by apply Hquiet; [apply db_step_refl|]|by apply Hquiet].
  destruct (begins s (event op x)) eqn:Hb; cycle 1.
  { apply Hquiet; [by eapply answers_step|]. change ([(i, event op x)].*2) with [event op x]. by rewrite Interaction.count_one, Hb. }
  change ([(i, event op x)].*2) with [event op x]. rewrite Interaction.count_one, Hb. destruct op; try done. cbn in Hb, Hm. rewrite !andb_true_iff, !bool_decide_eq_true, String.eqb_eq in Hb.
  destruct Hb as [[[Ht Hf] Hto] Hs]. destruct x as [r|]; [|done].
  assert (exists o, r = Applied o \/ r = Idempotent o) as Hr by (destruct r; [by eexists; left|by eexists; right|done|done]).
  destruct (start_applied _ _ _ _ _ Hd Hf Hto Hm Hr) as [(r0 & Hr0 & Hs0 & Hst) Hpast]. rewrite Hs in *.
  destruct (db_step_keeps _ _ Hd (transition_db_step t e j)) as [Hd' _]. rewrite Hm in Hd'. split; [exact Hd'|].
  destruct IH as [->|[_ (r1 & Hr1 & Hs1 & Hst1)]]; [by right|]. exfalso. apply Hst1.
  rewrite (fmap_same r_schedule_id (receipts (db j)) r1 r0); [done| |done|done|congruence]. apply Hd.
Qed.

(** A program run to its end, the journal answering. *)
Definition respond (oracle : forall c, Answer c) (j : JournalState) (c : Call) : JournalState * Answer c :=
  match c as c return Answer c -> JournalState * Answer c with
  | ReserveOccurrence o e => fun _ => reserve_one_time_occurrence o e j
  | TransitionOccurrence t e => fun _ => transition_one_time_occurrence t e j
  | RenewLease i owner lease => fun _ => renew_one_time_lease i owner lease j
  | ReleaseLease i owner at_ detail => fun _ => release_one_time_lease i owner at_ detail j
  | GetOccurrence i => fun _ => get_one_time_occurrence i j
  | _ => fun x => (j, x)
  end (oracle c).
Lemma respond_answers oracle j c : answers j c (respond oracle j c).2 (respond oracle j c).1.
Proof. destruct c; cbn; try done; apply surjective_pairing. Qed.
Fixpoint exec {A} (oracle : forall c, Answer c) (j : JournalState) (p : Run A) : Trace Calls * JournalState :=
  match p with
  | Ret a => ([], j)
  | Ask c k => let r := respond oracle j c in let '(t, j') := exec oracle r.1 (k r.2) in (event c r.2 :: t, j')
  end.
Lemma exec_runs oracle j (p : Run unit) : runs p (exec oracle j p).1 tt /\ Forall answered_by_journal (exec oracle j p).1.
Proof.
  revert j. induction p as [[]|c k IH]; intros j; cbn; [by split|]. pose proof (respond_answers oracle j c) as Ha.
  destruct (respond oracle j c) as [j1 x]. cbn in *. destruct (IH x j1) as [H1 H2]. destruct (exec oracle j1 (k x)) as [t j2]. cbn in *.
  split; [by exists x, t|]. constructor; [by exists j, j1|done].
Qed.
Lemma exec_pool oracle j0 tr j ps p : pool_runs (I := Calls) answers journal_drift takes_part j0 tr (j, ps ++ [p]) ->
  pool_runs (I := Calls) answers journal_drift takes_part j0 (tr ++ (pair (length ps) <$> (exec oracle j p).1)) ((exec oracle j p).2, ps ++ [Ret tt]).
Proof.
  revert tr j. induction p as [[]|c k IH]; intros tr j Hr; cbn; [by rewrite app_nil_r|]. pose proof (respond_answers oracle j c) as Ha.
  destruct (respond oracle j c) as [j1 x]. cbn in *. specialize (IH x (tr ++ [(length ps, event c x)]) j1).
  destruct (exec oracle j1 (k x)) as [t j2]. cbn in *. rewrite <- app_assoc in IH. apply IH.
  eapply pool_go; [exact Hr|]. replace (ps ++ [k x]) with (<[length ps := k x]> (ps ++ [Ask (I := Calls) c k])).
  - apply pool_ask; [|exact Ha]. by rewrite lookup_app_r, Nat.sub_diag by lia.
  - rewrite insert_app_r_alt, Nat.sub_diag by lia. done.
Qed.
(** Several, one after the other. *)
Fixpoint exec_all (oracle : forall c, Answer c) (n : nat) (j : JournalState) (ps : list (Run unit)) : list (nat * Ev) * JournalState :=
  match ps with
  | [] => ([], j)
  | p :: ps => let r := exec oracle j p in let '(t, j') := exec_all oracle (S n) r.2 ps in ((pair n <$> r.1) ++ t, j')
  end.
Lemma exec_all_pool oracle j0 tr j over ps : pool_runs (I := Calls) answers journal_drift takes_part j0 tr (j, over) -> Forall takes_part ps ->
  exists over', pool_runs (I := Calls) answers journal_drift takes_part j0 (tr ++ (exec_all oracle (length over) j ps).1)
    ((exec_all oracle (length over) j ps).2, over').
Proof.
  intros Hr Hps. revert tr j over Hr. induction Hps as [|p ps Hp _ IH]; intros tr j over Hr; cbn; [rewrite app_nil_r; by exists over|].
  assert (Hs : pool_runs (I := Calls) answers journal_drift takes_part j0 (tr ++ []) (j, over ++ [p])) by (eapply pool_go; [exact Hr|]; by apply pool_start).
  rewrite app_nil_r in Hs. apply (exec_pool oracle) in Hs. apply IH in Hs. rewrite length_app, Nat.add_1_r in Hs.
  destruct (exec_all oracle (S (length over)) _ ps) as [t j2]. cbn. by rewrite app_assoc.
Qed.

(** C17: a one-time schedule is dispatched at most once.  However many triggers are
    handled and tasks run side by side, over restarts (tasks stop anywhere, and the
    database changes underneath by any operation of the store), whatever the clock, the
    dispatcher and the other stores answer and wherever a statement of the journal
    fails, its workflow is dispatched no more than once; and once it has been, its
    receipt has left the reserved state for good. *)
Theorem at_most_once (j0 : JournalState) tr p :
  well_formed (db j0) -> pool_runs (I := Calls) answers journal_drift takes_part j0 tr p ->
  (dispatched s tr.*2 <= 1)%nat /\ (dispatched s tr.*2 = 1%nat -> past s (db p.1)).
Proof.
  intros Hd Hr. destruct (begins_once _ _ _ Hd Hr) as [_ Hb]. destruct (pool_threads (I := Calls) _ _ _ _ _ _ Hr) as [Hlt Hth].
  enough (dispatched s tr.*2 <= Interaction.count (begins s) tr.*2)%nat by (split; [lia|intros ?; destruct Hb as [?|[_ ?]]; [lia|done]]).
  apply (count_threads_le (I := Calls) _ _ (length p.2)); [exact Hlt|]. intros i Hi. apply lookup_lt_is_Some in Hi as [q Hq].
  destruct (Hth i q Hq) as (p0 & Hp0 & Hf & _). apply in_order_count. apply (follows_always (I := Calls) any_answer _ p0); [|exact Hf].
  destruct Hp0 as [d b owner fired schedule|task (d & b & owner & fired & schedule & t & Ht & Ha & Hin)|p1 Hp1].
  - apply quiet_order, handle_quiet.
  - apply task_in_order. pose proof (handler_matches _ _ _ _ _ _ _ Ht Ha) as Hm.
    exact (proj1 (list.Forall_forall _ _) Hm _ Hin).
  - by apply quiet_order.
Qed.
End at_most_once.

(** ** A run *)
Definition one_time_example : Schedule Value :=
  mkSchedule "s" "nightly" true (Schedule.OneTime 0) "fuzz" (Object []) (mkPolicies None None 0) "" [] 0 0 None None.
Definition fired_example : FiredTrigger Value := mkFired 0 "s" 0 TOneTime false None.
Definition example_codec : Codec := {|
  Journal.to_rfc3339 t := if t =? 0 then "0"%string else "1"%string;
  parse_rfc3339 s := Some (if String.eqb s "0" then 0 else 1);
  execution_to_json e := Ok (display_status (Executions.status e));
  execution_of_json s := Some (mkExecution "exec-s-u" "s" 0 None None
    (if String.eqb s "pending" then Pending else if String.eqb s "running" then Running else if String.eqb s "completed" then Completed else Failed)
    None Null Null None);
  julianday s := Some (if String.eqb s "0" then 0 else 1);
|}.
#[local] Existing Instance example_codec.
Definition oracle_example (c : Call) : Answer c :=
  match c as c return Answer c with
  | Now => 1
  | Uuid => "u"%string
  | AdvanceCursor _ _ => Some one_time_example
  | AwaitAdmission _ _ | DispatchTicks => 1%nat
  | DispatchOutcome => Ok (mkDispatchResult true false "done" Null 0 None)
  | c => any_answer c
  end.
Definition journal_example : JournalState := mkJournal (mkDb [] [] [] []) true true None 0.
Definition handler_example : Run unit := handle_one_time_trigger to_rfc3339 true true "owner" fired_example one_time_example.
Definition reserved_example := exec oracle_example journal_example handler_example.
Definition task_of (t : Trace Calls) : option OneTimeTask :=
  head (omap (fun e : Ev => match asked e with SpawnOneTime task => Some task | _ => None end) t).
Definition task_example : OneTimeTask :=
  default (mkOneTimeTask one_time_example (mkExecution "" "" 0 None None Pending None Null Null None)
    (mkOccurrence "" "" "" 0 Reserved "" None None) Null Allow) (task_of reserved_example.1).
Example example_spawned : spawned task_example.
Proof.
  exists true, true, "owner"%string, fired_example, one_time_example, reserved_example.1.
  destruct (exec_runs oracle_example journal_example handler_example) as [H1 H2]. split; [exact H1|]. split; [exact H2|].
  apply list_elem_of_In. vm_compute. repeat first [by left|right].
Qed.
(** The trigger comes twice, and each time the task runs. *)
Definition programs_example : list (Run unit) :=
  [handler_example; run_one_time_dispatch task_example; handler_example; run_one_time_dispatch task_example].
Definition pool_example := exec_all oracle_example 0 journal_example programs_example.
Lemma pool_example_runs :
  exists over, pool_runs (I := Calls) answers journal_drift (takes_part "s") journal_example pool_example.1 (pool_example.2, over).
Proof.
  apply (exec_all_pool "s" oracle_example journal_example [] journal_example []); [apply pool_new|].
  repeat constructor; exact example_spawned.
Qed.
Lemma at_most_once_witness :
  let n := dispatched "s" pool_example.1.*2 in n = 1%nat /\ (n <= 1)%nat /\ past "s" (db pool_example.2).
Proof.
  assert (Hn : dispatched "s" pool_example.1.*2 = 1%nat) by (vm_compute; reflexivity). cbv zeta.
  destruct pool_example_runs as [over H]. split; [exact Hn|].
  destruct (at_most_once "s" journal_example pool_example.1 (pool_example.2, over)) as [H1 H2]; [repeat constructor|exact H|].
  split; [exact H1|]. exact (H2 Hn).
Defined.
Lemma one_time_accounted_witness :
  settled (exec oracle_example reserved_example.2 (run_one_time_dispatch task_example)).1 = true /\
  accounted "s" (exec oracle_example reserved_example.2 (run_one_time_dispatch task_example)).1.
Proof.
  split; [vm_compute; reflexivity|]. apply (one_time_accounted task_example ltac:(vm_compute; reflexivity) _ tt).
  apply (exec_runs oracle_example).
Defined.
