(* ===== verification/Dispatch.v ===== *)
(** * Dispatching schedules

    Models [handle_fired_trigger] of [crates/hf-scheduler/src/manager.rs] with what it
    calls, the task it spawns for a recurring schedule, and [stop]; and shows how
    often a schedule runs in an hour and how far events cascade.  A permit is waited
    for as long as its [fuel] lasts. *)
From S2P Require Import Prelude Interaction Schedule Recovery JsonValue Params EventBridge Occurrence Journal Executions SchedulerCalls OneTime.

(** ** Admission *)
Section admission.
Context (to_rfc3339 : Z -> string) `{C : Chrono}.
Implicit Types (fired : FiredTrigger Value) (schedule : Schedule Value).

Definition is_one_time schedule : bool := match trigger schedule with Schedule.OneTime _ => true | _ => false end.
Definition load_unblocked_schedule fired : Run (option (Schedule Value * bool)) :=
  schedule ← call (LoadSchedule (f_schedule_id fired));
  match schedule with
  | None => mret None
  | Some schedule =>
      let one_time := is_one_time schedule in
      blocked ← if one_time then one_time_trigger_blocked (id schedule) else mret false;
      mret (if (blocked : bool) then None else Some (schedule, one_time))
  end.
Definition is_some {A} (o : option A) : bool := negb (is_none o).
Definition recovery_admission_allowed schedule fired (expected : option RecoveryCheckpoint) : Run bool :=
  failed ← if is_some (recovery_pending schedule) then call RecoveryFailed else mret false;
  if (failed : bool) then mret false
  else if is_recovery fired
    && (negb (bool_decide (recovery_pending schedule = expected))
        || match expected with Some checkpoint => negb (matches_identity checkpoint schedule) | None => true end)
  then call SetRecoveryFailed ;; mret false
  else mret true.
Definition at_limit (live_started persisted_started pending max_per_hour : Z) : bool :=
  max_per_hour <=? saturating_add usize_MAX (Z.max live_started persisted_started) pending.
Definition admit_hourly_execution (persistence one_time : bool) fired schedule : Run bool :=
  now ← call Now;
  let max_per_hour := max_executions_per_hour (policies schedule) in
  if 0 <? max_per_hour then
    let since := now - hour in
    counts ← call (CountStarts (id schedule) since);
    persisted ← (if persistence then call (ExecutionsStartedSince (id schedule) since) else mret (Ok 0));
    match persisted : Result string Z with
    | Err _ =>
        if one_time then call (BlockOneTime "one-time hourly execution history is unavailable") ;; mret false
        else record_policy_skip to_rfc3339 persistence fired schedule "hourly execution history is unavailable" ;; mret false
    | Ok persisted_started =>
        if at_limit counts.1 persisted_started counts.2 max_per_hour then
          record_policy_skip to_rfc3339 persistence fired schedule
            ("hourly execution limit reached (" +:+ pretty max_per_hour +:+ ")") ;;
          mret false
        else mret true
    end
  else mret true.

(** ** Recurring schedules *)
Definition pending_execution (i : string) schedule fired (parameters : Value) (sequence : Z) : ScheduleExecution :=
  mkExecution i (id schedule) (fired_at fired) None None Pending None
    (Object (sequenced_fields to_rfc3339 schedule parameters sequence (fired_at fired) ++ [depth_field fired; recovery_field fired]))
    (Object []) None.
Definition dispatch_policy fired schedule : ConcurrencyPolicy :=
  if is_recovery fired && bool_decide (effective_missed_policy (policies schedule) = Backfill) then Queue
  else effective_concurrency_policy (policies schedule).
Definition dispatch_recurring (persistence : bool) (now : Z) fired schedule : Run unit :=
  let policy := dispatch_policy fired schedule in
  admitted ← admit_concurrency to_rfc3339 policy persistence fired schedule;
  if negb admitted then mret tt
  else
    sequence ← call (NextSequence (id schedule));
    parameters ← resolve_or_fail to_rfc3339 persistence fired schedule sequence;
    match parameters with
    | None => mret tt
    | Some parameters =>
        uuid ← call Uuid;
        let execution := execution_name schedule uuid in
        let pending := pending_execution execution schedule fired parameters sequence in
        settle_record persistence fired schedule now pending ;;
        failed ← if is_some (recovery_pending schedule) then call RecoveryFailed else mret false;
        if (failed : bool) then mret tt
        else
          (if bool_decide (policy = Queue) then call (ReserveSerial (id schedule)) else mret tt) ;;
          call (SpawnTask (mkTask schedule execution fired parameters policy (is_some (recovery_pending schedule))))
    end.
Definition dispatch_fallback (persistence : bool) fired schedule : Run unit :=
  done ← call (Fallback schedule fired);
  match done.1 with Some s => persist_schedule persistence s | None => mret tt end ;;
  persist_record persistence done.2.
Definition handle_fired_trigger (dispatcher persistence : bool) (owner : string) (max_event_cascade_depth : Z)
    (expected_recovery : option RecoveryCheckpoint) fired : Run unit :=
  call (LockAdmission (f_schedule_id fired)) ;;
  loaded ← load_unblocked_schedule fired;
  match loaded with
  | None => if is_recovery fired then call SetRecoveryFailed else mret tt
  | Some (schedule, one_time) =>
      allowed ← recovery_admission_allowed schedule fired expected_recovery;
      if negb allowed then mret tt
      else if max_event_cascade_depth <? cascade_depth fired then
        record_policy_skip to_rfc3339 persistence fired schedule
          ("event cascade depth " +:+ pretty (cascade_depth fired) +:+ " exceeds limit " +:+ pretty max_event_cascade_depth)
      else
        now ← call Now;
        admitted ← admit_hourly_execution persistence one_time fired schedule;
        if negb admitted then mret tt
        else if (one_time : bool) then handle_one_time_trigger to_rfc3339 dispatcher persistence owner fired schedule
        else if dispatcher then dispatch_recurring persistence now fired schedule
        else dispatch_fallback persistence fired schedule
  end.
(** A trigger of the queue is no recovery's. *)
Definition queued fired : FiredTrigger Value :=
  mkFired (cascade_depth fired) (f_schedule_id fired) (fired_at fired) (f_trigger_type fired) false (event_payload fired).
End admission.

(** ** The task of a recurring schedule *)
Definition enabled_now (schedule_id : string) : Run (option bool) :=
  schedule ← call (LoadSchedule schedule_id); mret (match schedule with Some s => Some (enabled s) | None => None end).
(** [None] when the wait is not over. *)
Fixpoint acquire_execution_permit (fuel : nat) (schedule_id : string) (recovery : bool) : Run (option bool) :=
  match fuel with
  | O => mret None
  | S fuel =>
      before ← if recovery then enabled_now schedule_id else mret (Some true);
      match before with
      | Some false => call Sleep ;; acquire_execution_permit fuel schedule_id recovery
      | None => call SetRecoveryFailed ;; mret (Some false)
      | Some true =>
          call AcquirePermit ;;
          after ← if recovery then enabled_now schedule_id else mret (Some true);
          match after with
          | Some true => mret (Some true)
          | Some false => call DropPermit ;; acquire_execution_permit fuel schedule_id recovery
          | None => call SetRecoveryFailed ;; mret (Some false)
          end
      end
  end.
Definition begun (now : Z) (e : ScheduleExecution) : ScheduleExecution :=
  mkExecution (execution_id e) (x_schedule_id e) (triggered_at e) (Some now) (completed_at e) Executions.Running
    (workflow_execution_id e) (request_summary e) (response_summary e) (error_message e).
Definition result_status (r : DispatchResult) : ExecutionStatus :=
  if skipped r then Skipped else if success r then Executions.Completed else Executions.Failed.
Definition finished (result : Result DispatchError DispatchResult) (now duration : Z) (e : ScheduleExecution) : ScheduleExecution :=
  match result with
  | Ok r => ended now (result_status r) (result_value (display_status (result_status r)) r duration)
              (if success r then error_message e else d_error r) e
  | Err err => ended now Executions.Failed
      (Object [("status", Str "failed"); ("error", Str (display_dispatch_error err))]) (Some (display_dispatch_error err)) e
  end.
Definition recovery_blocked (t : Task) : Run bool := if k_pending t then call RecoveryFailed else mret false.
Definition run_task (fuel : nat) (persistence : bool) (t : Task) : Run unit :=
  let schedule_id := id (k_schedule t) in
  (if bool_decide (k_policy t = Queue) then call (AwaitSerial schedule_id) else mret tt) ;;
  permit ← acquire_execution_permit fuel schedule_id (is_recovery (k_fired t));
  match permit with
  | None | Some false => mret tt
  | Some true =>
      failed ← recovery_blocked t;
      if (failed : bool) then mret tt
      else
        now ← call Now;
        started ← call (UpdateExecution (k_execution t) (begun now));
        match started with Some e => persist_update persistence e | None => mret tt end ;;
        failed ← recovery_blocked t;
        if (failed : bool) then mret tt
        else
          call (Dispatch schedule_id (workflow_id (k_schedule t)) (k_parameters t) (cascade_depth (k_fired t))) ;;
          result ← call DispatchOutcome;
          duration ← call Elapsed;
          now ← call Now;
          updated ← call (UpdateExecution (k_execution t) (finished result now duration));
          match updated with Some e => persist_update persistence e | None => mret tt end
  end.

(** ** [stop] *)
Definition STOPPED : string := "scheduler stopped before completion".
Definition stopped (now : Z) (e : ScheduleExecution) : ScheduleExecution :=
  ended now Executions.Cancelled (Object [("status", Str "cancelled"); ("reason", Str STOPPED)]) (Some STOPPED) e.
Fixpoint release_admissions (persistence : bool) (l : list OneTimeOccurrence) : Run unit :=
  match l with
  | [] => mret tt
  | o :: l =>
      let detail := "scheduler stopped during one-time admission" in
      (if persistence then release o detail else mret tt) ;;
      mark_recovery_required (occurrence_schedule_id o) detail ;;
      release_admissions persistence l
  end.
Definition cancel_execution (persistence : bool) (e : ScheduleExecution) : Run unit :=
  call (UpdateExecution (execution_id e) (fun _ => e)) ;; persist_update persistence e.
Definition cancel_one_time (persistence : bool) (schedule_id occurrence owner : string) (current cancelled : ScheduleExecution) : Run unit :=
  let from := if bool_decide (status current = Pending) then Reserved else Occurrence.Running in
  let transition := mkOneTimeTransition occurrence schedule_id (execution_id current) owner from Occurrence.Cancelled None (Some STOPPED) in
  result ← (if persistence then call (TransitionOccurrence transition cancelled)
            else mret (Err "durable one-time occurrence persistence is unavailable"));
  if took_place result then
    call (UpdateExecution (execution_id current) (fun _ => cancelled)) ;;
    mark_consumed schedule_id
  else
    let detail := "scheduler stopped before a durable terminal transition" in
    call (Count TransitionFailure) ;;
    mark_recovery_required schedule_id detail ;;
    if persistence then
      now ← call Now;
      call (ReleaseLease occurrence owner now detail) ;; mret tt
    else mret tt.
Definition settle_stopped (persistence : bool) (t : TrackedDispatch) : Run unit :=
  current ← call (GetExecution (d_execution_id t));
  match current with
  | Some current =>
      if negb (is_active current) then mret tt
      else
        now ← call Now;
        let cancelled := stopped now current in
        match d_occurrence_id t, d_owner_id t with
        | None, _ => cancel_execution persistence cancelled
        | Some _, None => mark_recovery_required (d_schedule_id t) "tracked one-time occurrence owner is unavailable"
        | Some occurrence, Some owner =>
            if d_terminal_allowed t then cancel_one_time persistence (d_schedule_id t) occurrence owner current cancelled
            else mret tt
        end
  | None => mret tt
  end.
Fixpoint each {A} (f : A -> Run unit) (l : list A) : Run unit :=
  match l with [] => mret tt | x :: l => f x ;; each f l end.
(** Recorded, but never tracked: by the trigger it was recorded with. *)
Definition abandoned (e : ScheduleExecution) : bool :=
  match as_str (index "type" (index "trigger" (request_summary e))) with
  | Some t => String.eqb t "cron" || String.eqb t "interval" || String.eqb t "event"
  | None => false
  end.
Definition cancel_abandoned (persistence : bool) (e : ScheduleExecution) : Run unit :=
  now ← call Now; cancel_execution persistence (stopped now e).
Definition stop (persistence : bool) : Run unit :=
  call StopLoops ;;
  admissions ← call TakeAdmissions;
  release_admissions persistence admissions ;;
  tracked ← call StopTasks;
  each (settle_stopped persistence) tracked ;;
  pending ← call PendingRecords;
  each (cancel_abandoned persistence) (List.filter abandoned pending).

(** ** What a trigger has to pass *)
Section spawning.
Context (to_rfc3339 : Z -> string) `{C : Chrono} (dispatcher persistence : bool) (owner : string) (max_event_cascade_depth : Z)
  (expected : option RecoveryCheckpoint) (fired : FiredTrigger Value).
Implicit Types (before t : Trace Calls) (schedule : Schedule Value).

(** Fewer have started within the hour, or are about to, than the limit. *)
Definition hourly_ok schedule before : Prop :=
  let limit := max_executions_per_hour (policies schedule) in
  0 < limit <= u32_MAX -> exists now live pending persisted,
    event (CountStarts (id schedule) (now - hour)) (live, pending) ∈ before /\
    (persistence = true -> event (ExecutionsStartedSince (id schedule) (now - hour)) (Ok persisted) ∈ before) /\
    live + pending < limit /\ (persistence = true -> persisted + pending < limit).
Definition concurrency_ok policy schedule before : Prop :=
  match policy with
  | SkipIfRunning => event (HasActiveDispatch (id schedule)) false ∈ before
  | CancelPrevious => exists l, event (TakeActiveDispatches (id schedule)) l ∈ before /\ event (AbortTasks l) tt ∈ before /\
      Forall (fun i => event (JoinTask i) tt ∈ before) l
  | Allow | Queue => True
  end.
Definition recovery_ok schedule before : Prop :=
  (recovery_pending schedule <> None -> event RecoveryFailed false ∈ before) /\
  (is_recovery fired = true -> exists c, expected = Some c /\ recovery_pending schedule = Some c /\ matches_identity c schedule = true).
Definition recorded_ok schedule (execution : string) (parameters : Value) before : Prop :=
  exists sequence time,
    resolve_parameters to_rfc3339 (Object []) (parameter_values schedule)
      (mkContext (fired_at fired) (f_trigger_type fired) sequence (event_payload fired)) = Ok parameters /\
    event (RecordExecution (pending_execution to_rfc3339 execution schedule fired parameters sequence)) tt ∈ before /\
    (exists s, event (AdvanceCursor (id schedule) time) s ∈ before) /\ fired_at fired <= time.
Definition spawn_allowed before (e : Ev) : Prop :=
  forall t : Task, asked e = SpawnTask t ->
    let schedule := k_schedule t in
    dispatcher = true /\ k_fired t = fired /\ event (LoadSchedule (f_schedule_id fired)) (Some schedule) ∈ before /\
    is_one_time schedule = false /\ cascade_depth fired <= max_event_cascade_depth /\
    hourly_ok schedule before /\ concurrency_ok (k_policy t) schedule before /\ recovery_ok schedule before /\
    recorded_ok schedule (k_execution t) (k_parameters t) before.

Definition spawns_task (c : Call) : bool := match c with SpawnTask _ => true | _ => false end.
Lemma others_spawn_task c : is_start c = false -> spawns_task c = false.
Proof. by destruct c. Qed.
Hint Resolve others_spawn_task : quiet.
Lemma quiet_allowed {A} (p : Run A) before : is_quiet spawns_task p -> always spawn_allowed before p.
Proof.
  intros Hp t r Hr t1 e t2 -> k He. specialize (Hp _ _ Hr). apply Forall_app in Hp as [_ [Hf _]%list.Forall_cons]. by rewrite He in Hf.
Qed.
Lemma allowed_bind {A B} (p : Run A) (k : A -> Run B) before : is_quiet spawns_task p ->
  (forall t a, runs p t a -> always spawn_allowed (before ++ t) (k a)) -> always spawn_allowed before (p ≫= k).
Proof. intros Hp Hk. apply always_bind; [by apply quiet_allowed|exact Hk]. Qed.
Lemma ensures_const {A B} (p : Run A) (b : B) (Q : Trace Calls -> B -> Prop) : (forall t, Q t b) -> ensures (p ;; mret b) Q.
Proof. intros H t r (t1 & t2 & a & -> & _ & [-> ->])%runs_bind. apply H. Qed.

Lemma admit_hourly_ok one_time schedule :
  ensures (admit_hourly_execution to_rfc3339 persistence one_time fired schedule) (fun t ok => ok = true -> hourly_ok schedule t).
Proof.
  unfold admit_hourly_execution. apply ensures_bind, (ensures_ask (I := Calls) Now). intros now. cbv zeta.
  destruct (Z.ltb_spec 0 (max_executions_per_hour (policies schedule))) as [Hm|Hm]; [|by apply ensures_ret; intros _ ?; lia].
  apply ensures_bind, (ensures_ask (I := Calls) (CountStarts _ _)). intros [live pending]. apply ensures_bind.
  apply (ensures_mono _ (fun t persisted => (persistence = true -> event (ExecutionsStartedSince (id schedule) (now - hour)) persisted ∈ t) /\
    (persistence = false -> persisted = Ok 0))).
  { destruct persistence; [apply (ensures_ask (I := Calls) (ExecutionsStartedSince _ _)); intros x; split; [intros _; by left|done]|by apply ensures_ret]. }
  intros t [persisted|e] [Hp Hp0]; [|destruct one_time; by apply ensures_const].
  destruct (at_limit _ _ _ _) eqn:Hl; [by apply ensures_const|]. apply ensures_ret. intros _ Hlim.
  unfold at_limit, saturating_add in Hl. apply Z.leb_gt in Hl. cbn [fst snd] in Hl. assert (usize_MAX > u32_MAX) by done.
  exists now, live, pending, persisted. split; [right; by left|]. split; [intros Hper; do 2 right; apply elem_of_app; left; auto|]. lia.
Qed.
Lemma settle_cancelled_joins l : ensures (settle_cancelled persistence l) (fun t _ => Forall (fun i => event (JoinTask i) tt ∈ t) l).
Proof.
  induction l as [|i l IH]; [by apply ensures_ret|]. cbn [settle_cancelled].
  apply ensures_bind, (ensures_ask (I := Calls) (JoinTask i)). intros [].
  intros t r (t1 & t2 & now & -> & H1 & (t3 & t4 & u & -> & H3 & (t5 & t6 & ? & -> & H5 & H6)%runs_bind)%runs_bind)%runs_bind.
  apply IH in H6. constructor; [by left|]. eapply list.Forall_impl; [exact H6|]. intros j Hj. right. repeat (apply elem_of_app; right). exact Hj.
Qed.
Lemma admit_concurrency_ok policy schedule :
  ensures (admit_concurrency to_rfc3339 policy persistence fired schedule) (fun t ok => ok = true -> concurrency_ok policy schedule t).
Proof.
  unfold admit_concurrency. destruct policy; try by apply ensures_ret.
  - apply ensures_bind, (ensures_ask (I := Calls) (HasActiveDispatch _)). intros [|]; [by apply ensures_const|]. apply ensures_ret. intros _. by left.
  - apply ensures_bind. unfold cancel_previous_dispatches. apply ensures_bind, (ensures_ask (I := Calls) (TakeActiveDispatches _)). intros l.
    apply ensures_bind, (ensures_ask (I := Calls) (AbortTasks l)). intros []. eapply ensures_mono; [apply settle_cancelled_joins|].
    intros t u Ht. apply ensures_ret. intros _. exists l. rewrite app_nil_r. split; [by left|]. split; [right; by left|].
    eapply list.Forall_impl; [exact Ht|]. intros i Hi. do 2 right. exact Hi.
Qed.
Lemma resolve_ok schedule sequence : ensures (resolve_or_fail to_rfc3339 persistence fired schedule sequence)
  (fun _ r => forall parameters, r = Some parameters -> resolve_parameters to_rfc3339 (Object []) (parameter_values schedule)
    (mkContext (fired_at fired) (f_trigger_type fired) sequence (event_payload fired)) = Ok parameters).
Proof. unfold resolve_or_fail. destruct (resolve_parameters _ _ _ _) as [v|e]; [apply ensures_ret; by intros ? [= ->]|by apply ensures_const]. Qed.
Lemma settle_record_ok schedule now record : ensures (settle_record persistence fired schedule now record)
  (fun t _ => event (RecordExecution record) tt ∈ t /\ exists s, event (AdvanceCursor (id schedule) (cursor_time fired now)) s ∈ t).
Proof.
  unfold settle_record. apply ensures_bind, (ensures_ask (I := Calls) (RecordExecution _)). intros [].
  apply ensures_bind, (ensures_ask (I := Calls) (AdvanceCursor _ _)). intros s t r _. split; [by left|]. exists s. right. by left.
Qed.
Lemma load_ok : ensures (load_unblocked_schedule fired)
  (fun t r => forall s o, r = Some (s, o) -> event (LoadSchedule (f_schedule_id fired)) (Some s) ∈ t /\ o = is_one_time s).
Proof.
  unfold load_unblocked_schedule. apply ensures_bind, (ensures_ask (I := Calls) (LoadSchedule _)). intros [s|]; [|by apply ensures_ret].
  cbv zeta. intros t r (t1 & t2 & b & -> & _ & [-> ->])%runs_bind s' o. destruct b; [done|]. intros [= <- <-]. split; [by left|done].
Qed.
Lemma recovery_admission_ok schedule : ensures (recovery_admission_allowed schedule fired expected) (fun t ok => ok = true -> recovery_ok schedule t).
Proof.
  unfold recovery_admission_allowed. apply ensures_bind.
  apply (ensures_mono _ (fun t failed => recovery_pending schedule <> None -> event RecoveryFailed failed ∈ t)).
  { destruct (recovery_pending schedule); cbn; [apply (ensures_ask (I := Calls) RecoveryFailed); intros x _; by left|by apply ensures_ret]. }
  intros t [|] Ht; [by apply ensures_ret|]. destruct (is_recovery fired) eqn:Hf; cbn [andb]; cycle 1.
  { apply ensures_ret. intros _. rewrite app_nil_r. split; [exact Ht|]. by rewrite Hf. }
  case_bool_decide as He; cbn [negb orb]; [|by apply ensures_const]. destruct expected as [c|] eqn:Hx; [|by apply ensures_const].
  destruct (matches_identity c schedule) eqn:Hc; [|by apply ensures_const]. apply ensures_ret. intros _. rewrite app_nil_r. split; [exact Ht|]. intros _. by exists c.
Qed.
Lemma cursor_time_after now : fired_at fired <= cursor_time fired now.
Proof. unfold cursor_time. destruct (is_recovery fired); lia. Qed.

(** What was seen stays seen. *)
Lemma hourly_ok_mono schedule t before : t ⊆ before -> hourly_ok schedule t -> hourly_ok schedule before.
Proof.
  intros Hs H Hl. destruct (H Hl) as (now & live & pending & persisted & H1 & H2 & H3). exists now, live, pending, persisted.
  split; [by apply Hs|]. split; [intros Hp; by apply Hs, H2|exact H3].
Qed.
Lemma concurrency_ok_mono policy schedule t before : t ⊆ before -> concurrency_ok policy schedule t -> concurrency_ok policy schedule before.
Proof.
  intros Hs. unfold concurrency_ok. destruct policy; try done; [apply Hs|]. intros (l & H1 & H2 & H3). exists l. split; [by apply Hs|]. split; [by apply Hs|].
  eapply list.Forall_impl; [exact H3|]. intros i. apply Hs.
Qed.
Lemma recovery_ok_mono schedule t before : t ⊆ before -> recovery_ok schedule t -> recovery_ok schedule before.
Proof. intros Hs [H1 H2]. split; [|exact H2]. intros H. by apply Hs, H1. Qed.

Lemma dispatch_recurring_allowed schedule now before :
  dispatcher = true -> event (LoadSchedule (f_schedule_id fired)) (Some schedule) ∈ before -> is_one_time schedule = false ->
  cascade_depth fired <= max_event_cascade_depth -> hourly_ok schedule before -> recovery_ok schedule before ->
  always spawn_allowed before (dispatch_recurring to_rfc3339 persistence now fired schedule).
Proof.
  intros Hd Hload Hone Hdepth Hhour Hrec. unfold dispatch_recurring. apply allowed_bind; [eauto with quiet|]. intros t1 [|] R1; [|apply quiet_allowed; quieten].
  cbn [negb]. apply admit_concurrency_ok in R1. apply allowed_bind; [by quieten|]. intros t2 sequence _.
  apply allowed_bind; [eauto with quiet|]. intros t3 [parameters|] R3; [|apply quiet_allowed; quieten]. apply resolve_ok in R3.
  apply allowed_bind; [by quieten|]. intros t4 uuid _. cbv zeta. apply allowed_bind; [eauto with quiet|]. intros t5 ? [R5 [cursor R5']]%settle_record_ok.
  apply allowed_bind; [by quieten|]. intros t6 [|] _; [apply quiet_allowed; quieten|]. apply allowed_bind; [by quieten|]. intros t7 ? _.
  apply (always_ask (I := Calls) (SpawnTask _)). intros [] t [= <-]. cbn [k_schedule k_fired k_policy k_execution k_parameters].
  set (b := _ ++ t7). assert (before ⊆ b /\ t1 ⊆ b /\ t5 ⊆ b) as (Hb & Hb1 & Hb5) by (subst b; repeat split; intros e He; rewrite !elem_of_app; tauto).
  split; [done|]. split; [done|]. split; [by apply Hb|]. split; [done|]. split; [done|]. split; [by apply (hourly_ok_mono _ _ _ Hb)|].
  split; [eapply concurrency_ok_mono; [exact Hb1|by apply R1]|]. split; [by apply (recovery_ok_mono _ _ _ Hb)|].
  exists sequence, (cursor_time fired now). split; [by apply R3|]. split; [by apply Hb5|]. split; [exists cursor; by apply Hb5|apply cursor_time_after].
Qed.
Lemma one_time_quiet schedule : is_quiet spawns_task (handle_one_time_trigger to_rfc3339 dispatcher persistence owner fired schedule).
Proof. unfold handle_one_time_trigger, dispatch_reserved, mark_recovery_required, mark_consumed. quieten; eauto with quiet. Qed.

Lemma handler_allowed :
  always spawn_allowed [] (handle_fired_trigger to_rfc3339 dispatcher persistence owner max_event_cascade_depth expected fired).
Proof.
  unfold handle_fired_trigger. apply allowed_bind; [by quieten|]. intros t1 ? _.
  apply allowed_bind; [unfold load_unblocked_schedule; quieten; eauto with quiet|]. intros t2 [[schedule one_time]|] R2; [|apply quiet_allowed; quieten].
  apply load_ok in R2. destruct (R2 _ _ eq_refl) as [Hload ->].
  apply allowed_bind; [unfold recovery_admission_allowed; quieten|]. intros t3 [|] R3; [|apply quiet_allowed; quieten]. apply recovery_admission_ok in R3. cbn [negb].
  destruct (Z.ltb_spec max_event_cascade_depth (cascade_depth fired)) as [Hd|Hd]; [apply quiet_allowed; unfold record_policy_skip; quieten; eauto with quiet|].
  apply allowed_bind; [by quieten|]. intros t4 now _.
  apply allowed_bind; [unfold admit_hourly_execution, record_policy_skip; quieten; eauto with quiet|]. intros t5 [|] R5; [|apply quiet_allowed; quieten].
  apply admit_hourly_ok in R5. cbn [negb]. destruct (is_one_time schedule) eqn:Hone; [apply quiet_allowed, one_time_quiet|].
  destruct dispatcher eqn:Hdisp; [|apply quiet_allowed; unfold dispatch_fallback, persist_schedule, persist_record; quieten; apply persist_quiet; quieten].
  apply dispatch_recurring_allowed; try done.
  - rewrite !elem_of_app. tauto.
  - eapply hourly_ok_mono; [|by apply R5]. intros e He. rewrite !elem_of_app. tauto.
  - eapply recovery_ok_mono; [|by apply R3]. intros e He. rewrite !elem_of_app. tauto.
Qed.
(** C19: a workflow of a recurring schedule is spawned only past every gate.  Whatever
    the stores, the clock and other tasks answer, when a trigger spawns a task, its
    schedule was found and is not a one-time one; the trigger's cascade depth is within
    the limit; the executions that started within the hour, in memory and on record,
    with those pending are fewer than the schedule's limit; none of the schedule was
    running under skip-if-running, and those running were stopped and waited for under
    cancel-previous; no recovery of the schedule has failed, and a recovery's trigger
    matches its checkpoint; and its parameters resolved, its pending record was
    recorded and its cursor moved past the trigger first. *)
Theorem trigger_admission :
  always spawn_allowed [] (handle_fired_trigger to_rfc3339 dispatcher persistence owner max_event_cascade_depth expected fired).
Proof. exact handler_allowed. Qed.
End spawning.

(** ** How often a schedule runs in an hour *)
Section hourly.
Context (to_rfc3339 : Z -> string) (max limit : Z) (i : string).

(** What tasks, skips, failures and [stop] do to the records of schedule [i]: a task
    begins what is pending; and anything done for other schedules. *)
Inductive task_change (now : Z) (s : ExecutionStore) : Change -> Prop :=
| change_begin x : (forall e, e ∈ records s -> execution_id e = x -> status e = Pending) -> task_change now s (Updated x (begun now))
| change_finish x r duration : task_change now s (Updated x (finished r now duration))
| change_cancel x : task_change now s (Updated x (cancelled_by_newer now))
| change_stop x : task_change now s (Updated x (stopped now))
| change_skip uuid fired schedule reason : task_change now s (Recorded (skip_record to_rfc3339 now uuid fired schedule reason))
| change_fail uuid fired schedule message : task_change now s (Recorded (failure_record to_rfc3339 now uuid fired schedule message))
| change_other e : x_schedule_id e <> i -> task_change now s (Recorded e).
(** A trigger holds the admission lock of its schedule from the check on; what it
    enters is a pending execution, or that of the fallback, done at once. *)
Inductive hourly : bool -> ExecutionStore -> list string -> list (string * (string * Z)) -> Z -> Prop :=
| hourly_new now : hourly false (with_retention max) [] [] now
| hourly_admit s used log now now' persisted : hourly false s used log now -> now <= now' ->
    at_limit (started_since i (now' - hour) s) persisted (pending_count i s) limit = false -> hourly true s used log now'
| hourly_drop s used log now : hourly true s used log now -> hourly false s used log now
| hourly_enter s used log now now' e : hourly true s used log now -> now <= now' -> valid used (Recorded e) ->
    (status e = Pending /\ started_at e = None \/ status e = Executions.Completed) ->
    hourly false (step now' (Recorded e) s) (used ++ used_by (Recorded e)) (log ++ new_start (Recorded e) s) now'
| hourly_task open s used log now now' c : hourly open s used log now -> now <= now' -> valid used c -> task_change now' s c ->
    hourly open (step now' c s) (used ++ used_by c) (log ++ new_start c s) now'.

Lemma hourly_history open s used log now : hourly open s used log now -> history max s used log now.
Proof.
  induction 1 as [now|s used log now now' p H IH Hle Ha|s used log now H IH|s used log now now' e H IH Hle Hv He|open s used log now now' c H IH Hle Hv Hc].
  - apply history_new.
  - by apply (history_wait _ _ _ _ now).
  - exact IH.
  - by apply (history_change _ _ _ _ now).
  - by apply (history_change _ _ _ _ now).
Qed.

Definition pending_in (l : list ScheduleExecution) : Z := zlen (filter (fun e => status e = Pending) (of_schedule i l)).
Lemma pending_in_app l l' : pending_in (l ++ l') = pending_in l + pending_in l'.
Proof. unfold pending_in, of_schedule, zlen. rewrite !list.filter_app, length_app. lia. Qed.
Definition pending_one (e : ScheduleExecution) : Z := if bool_decide (x_schedule_id e = i /\ status e = Pending) then 1 else 0.
Lemma pending_in_cons e l : pending_in (e :: l) = pending_one e + pending_in l.
Proof.
  change (e :: l) with ([e] ++ l). rewrite pending_in_app. f_equal. unfold pending_in, pending_one, of_schedule. rewrite filter_cons, filter_nil.
  case_bool_decide as H; [destruct H as [Hi Hp]; by rewrite decide_True, filter_cons, filter_nil, decide_True by done|].
  destruct (decide (x_schedule_id e = i)); [|done]. rewrite filter_cons, filter_nil, decide_False by tauto. done.
Qed.
Lemma pending_update x f l : pending_in (update_first x f l).1 =
  pending_in l + match (update_first x f l).2 with Some (b, e) => pending_one e - pending_one b | None => 0 end.
Proof.
  induction l as [|e l IH]; [done|]. cbn [update_first]. destruct (String.eqb _ _); cbn [fst snd]; [rewrite !pending_in_cons; lia|].
  destruct (update_first x f l) as [l' p]. cbn [fst snd] in *. rewrite !pending_in_cons, IH. lia.
Qed.
(** Retention keeps what is pending. *)
Lemma pending_retained j s : pending_in (records (enforce_retention j s)) = pending_in (records s).
Proof.
  unfold enforce_retention. destruct (_ =? _); [done|]. cbn [records]. unfold pending_in, of_schedule. f_equal. rewrite !list_filter_filter.
  apply list_filter_iff. intros e. assert (status e = Pending -> is_active e = true) by (unfold is_active; by intros ->). naive_solver.
Qed.
Lemma pending_step now c s : pending_count i (step now c s) = pending_in (changed c s).1.
Proof.
  destruct (step_retains now c s) as (s1 & Hr & _ & -> & Hn). change (pending_count i ?s) with (pending_in (records s)).
  rewrite <- Hr. destruct (changed c s).2 as [j|]; [apply pending_retained|]. by rewrite Hr, Hn.
Qed.
(** A change adds to what has started and what is pending together at most ... *)
Definition added (c : Change) (s : ExecutionStore) : Z := zlen (starts_of i (new_start c s)) + pending_in (changed c s).1 - pending_count i s.
Lemma starts_one e : zlen (starts_of i (start_of e)) = if bool_decide (x_schedule_id e = i /\ is_Some (started_at e) /\ status e <> Skipped) then 1 else 0.
Proof.
  unfold start_of, starts_of. destruct (started_at e) as [t|]; [|by rewrite bool_decide_false by (intros (_ & [? [=]] & _))].
  case_bool_decide as H1; [by rewrite bool_decide_false by tauto|]. rewrite filter_cons, filter_nil. cbn [fst].
  destruct (decide (x_schedule_id e = i)) as [->|]; case_bool_decide; [done| |tauto|done]. destruct H. split; [done|]. split; [by exists t|done].
Qed.
Lemma added_recorded e s : added (Recorded e) s = zlen (starts_of i (start_of e)) + pending_one e.
Proof.
  unfold added. cbn [changed new_start fst]. rewrite pending_in_app. change (pending_count i s) with (pending_in (records s)).
  rewrite (pending_in_cons e []). change (pending_in []) with 0. unfold start_of. lia.
Qed.
Lemma added_updated x f s : (forall e, x_schedule_id (f e) = x_schedule_id e) ->
  (forall e, e ∈ records s -> execution_id e = x -> (status (f e) = Pending -> status e = Pending) /\
     (started_at e = None -> is_Some (started_at (f e)) -> status e = Pending /\ status (f e) <> Pending)) ->
  added (Updated x f) s <= 0.
Proof.
  intros Hid Hf. unfold added. change (pending_count i s) with (pending_in (records s)).
  pose proof (update_first_spec x f (records s)) as Hs. pose proof (pending_update x f (records s)) as Hp. cbn [changed new_start].
  destruct (update_first x f (records s)) as [l p]. cbn [fst snd] in *. subst p. rewrite Hp. destruct (List.find _ _) as [e|] eqn:E; cbn [fmap option_fmap option_map]; [|change (zlen (starts_of i [])) with 0; lia].
  apply find_some in E as [Hin%list_elem_of_In Hx%String.eqb_eq]. destruct (Hf e Hin Hx) as [H1 H2].
  assert (Hone : pending_one (f e) <= pending_one e).
  { unfold pending_one. rewrite Hid. case_bool_decide as Ha; [|by case_bool_decide]. destruct Ha as [Hi Hp']. rewrite bool_decide_true; [done|]. split; [done|]. by apply H1. }
  destruct (started_at e) as [t|]; [change (zlen (starts_of i [])) with 0; lia|]. fold (start_of (f e)). rewrite starts_one, Hid.
  case_bool_decide as H3; [|lia]. destruct H3 as (Hi & Hst & _). destruct (H2 eq_refl Hst) as [Hpe Hne].
  unfold pending_one. rewrite Hid. rewrite (bool_decide_true (x_schedule_id e = i /\ status e = Pending)) by done.
  rewrite bool_decide_false by (intros [_ ?]; done). lia.
Qed.
Lemma task_change_adds now s c : task_change now s c -> added c s <= 0.
Proof.
  intros [x Hx|x r d|x|x|u f sc r|u f sc m|e He].
  - apply added_updated; [done|]. intros e Hin Hid. split; [done|]. intros _ _. split; [by apply Hx|done].
  - apply added_updated; [intros e; by destruct r|]. intros e _ _. unfold finished, result_status.
    destruct r as [r|err]; cbn; (split; [repeat case_match; done|intros ->; by intros [? [=]]]).
  - apply added_updated; [intros e; unfold cancelled_by_newer; by destruct (is_active e)|]. intros e _ _. unfold cancelled_by_newer.
    destruct (is_active e); cbn; (split; [done|intros ->; by intros [? [=]]]).
  - apply added_updated; [done|]. intros e _ _. cbn. split; [done|intros ->; by intros [? [=]]].
  - rewrite added_recorded. unfold pending_one. cbn. by rewrite bool_decide_false by (intros [_ [=]]).
  - rewrite added_recorded. unfold pending_one. cbn. by rewrite bool_decide_false by (intros [_ [=]]).
  - rewrite added_recorded, starts_one. unfold pending_one. by rewrite !bool_decide_false by tauto.
Qed.
Lemma enter_adds e s : status e = Pending /\ started_at e = None \/ status e = Executions.Completed -> added (Recorded e) s <= 1.
Proof.
  intros He. rewrite added_recorded, starts_one. unfold pending_one.
  destruct He as [[Hs Ht]|Hs]; rewrite Hs, ?Ht; repeat case_bool_decide; try lia; [by destruct H as (_ & [? [=]] & _)|by destruct H0].
Qed.
Lemma recent_le a b l : a <= b -> zlen (recent b l) <= zlen (recent a l).
Proof.
  intros H. unfold zlen. apply inj_le, sublist_length. rewrite <- (recent_recent a b l H). apply sublist_filter.
Qed.
Lemma recent_added a c s log : zlen (recent a (starts_of i (log ++ new_start c s))) + pending_in (changed c s).1 <=
  zlen (recent a (starts_of i log)) + pending_count i s + added c s.
Proof.
  unfold starts_of at 1. rewrite list.filter_app, fmap_app, recent_app. unfold added. fold (starts_of i (new_start c s)). fold (starts_of i log).
  assert (zlen (recent a (starts_of i (new_start c s))) <= zlen (starts_of i (new_start c s))) by (unfold zlen; apply inj_le, sublist_length, sublist_filter).
  unfold zlen in *. rewrite length_app. lia.
Qed.

(** C20: a schedule with a limit starts no more often than that in any hour.  From an
    empty history, through any triggers that pass the check (one at a time, under the
    admission lock, and whatever the durable count adds), any beginnings of what is
    pending, outcomes, cancellations, skips and failures, and with whatever retention
    of records, the executions that started within the hour before any moment,
    together with those about to, are at most the limit. *)
Theorem hourly_limit open s used log now :
  0 < limit <= u32_MAX -> hourly open s used log now ->
  zlen (recent (now - hour) (starts_of i log)) + pending_count i s <= limit.
Proof.
  intros Hl H. enough (zlen (recent (now - hour) (starts_of i log)) + pending_count i s + (if open then 1 else 0) <= limit) by (destruct open; lia).
  induction H as [now|s used log now now' p H IH Hle Ha|s used log now H IH|s used log now now' e H IH Hle Hv He|open s used log now now' c H IH Hle Hv Hc];
    [change (0 + 0 + 0 <= limit); lia| |lia| |].
  - pose proof (history_wait _ _ _ _ _ _ (hourly_history _ _ _ _ _ H) Hle) as Hh.
    pose proof (history_remembers _ _ _ _ _ Hh) as (_ & _ & _ & Hrem). destruct (Hrem i) as [_ Hr].
    assert (Hs : started_since i (now' - hour) s = zlen (recent (now' - hour) (starts_of i log))).
    { unfold started_since. rewrite <- Hr. unfold recent. by destruct (recent_starts s !! i). }
    unfold at_limit, saturating_add in Ha. apply Z.leb_gt in Ha. rewrite Hs in Ha. assert (usize_MAX > u32_MAX) by done. lia.
  - pose proof (recent_added (now' - hour) (Recorded e) s log). rewrite pending_step. pose proof (enter_adds e s He).
    pose proof (recent_le (now - hour) (now' - hour) (starts_of i log)). lia.
  - pose proof (recent_added (now' - hour) c s log). rewrite pending_step. pose proof (task_change_adds _ _ _ Hc).
    pose proof (recent_le (now - hour) (now' - hour) (starts_of i log)). lia.
Qed.
End hourly.

(** ** How far events cascade *)
Section cascade.
Context (to_rfc3339 : Z -> string) `{C : Chrono} (number_to_string : Number -> string) (glob_is_match : string -> string -> option bool)
  (max_event_cascade_depth : Z).

(** The run of [t] emits an event, of its depth and in its name, whose trigger spawns [t']. *)
Definition causes (t t' : Task) : Prop :=
  exists (bridge : EventBridge) (e : IncomingEvent) (schedules : list (Schedule Value)) fired dispatcher persistence owner trace,
    e_cascade_depth e = cascade_depth (k_fired t) /\ source_schedule_id e = Some (id (k_schedule t)) /\
    fired ∈ prepare_triggers number_to_string glob_is_match bridge e schedules /\
    runs (handle_fired_trigger to_rfc3339 dispatcher persistence owner max_event_cascade_depth None (queued fired)) trace tt /\
    event (SpawnTask t') tt ∈ trace.
Lemma caused_depth t t' : causes t t' ->
  cascade_depth (k_fired t') = saturating_add u64_MAX (cascade_depth (k_fired t)) 1 /\
  cascade_depth (k_fired t') <= max_event_cascade_depth /\ f_schedule_id (k_fired t') <> id (k_schedule t).
Proof.
  intros (b & e & ss & fired & d & p & o & tr & Hd & Hs & Hf & Hr & (u & v & ->)%list_elem_of_split).
  apply prepared_spec in Hf as (s & db & _ & _ & _ & Hne & _ & ->).
  destruct (handler_allowed to_rfc3339 d p o max_event_cascade_depth None _ _ _ Hr _ _ _ eq_refl t' eq_refl) as (_ & Hk & _ & _ & Hm & _).
  rewrite Hk. unfold queued, trigger_of in *. cbn in *. rewrite Hs in *. rewrite Hd in *. split; [done|]. split; [done|]. congruence.
Qed.

(** C21: events cannot cascade for ever.  When each of a row of workflows was spawned,
    through any store, clock and queue, by an event that the one before it emitted,
    there are at most as many links as the configured depth, and fewer by the depth of
    the first; and no workflow is spawned by an event of its own schedule. *)
Theorem cascades_end (t0 t : Task) (n : nat) :
  0 <= cascade_depth (k_fired t0) -> max_event_cascade_depth <= u32_MAX -> nsteps causes n t0 t ->
  (n = 0%nat \/ Z.of_nat n + cascade_depth (k_fired t0) <= max_event_cascade_depth) /\
  (forall t', causes t t' -> f_schedule_id (k_fired t') <> id (k_schedule t)).
Proof.
  intros H0 Hmax Hn. split; [|intros t' Hc; apply (caused_depth _ _ Hc)].
  revert H0. induction Hn as [t0|n t0 t1 t Hc Hn IH]; intros H0; [by left|]. right.
  destruct (caused_depth _ _ Hc) as (Hd & Hl & _). unfold saturating_add in Hd. assert (u32_MAX < u64_MAX) by done.
  destruct IH as [->|IH]; lia.
Qed.
End cascade.

(** ** The pool of [OneTime]: triggers, tasks of other schedules and [stop] dispatch no
    workflow of schedule [s] *)
Section others.
Context `{Codec} `{C : Chrono} (s : string).
Hint Resolve others_dispatch : quiet.
Lemma each_quiet {A} (f : Call -> bool) (p : A -> Run unit) l : (forall x, is_quiet f (p x)) -> is_quiet f (each p l).
Proof. intros Hp. induction l as [|x l IH]; [apply quiet_ret|]. apply quiet_bind; [apply Hp|]. intros ?. exact IH. Qed.
Lemma fired_takes_part d p o m c fired : takes_part s (handle_fired_trigger to_rfc3339 d p o m c fired).
Proof.
  apply part_other. unfold handle_fired_trigger, load_unblocked_schedule, recovery_admission_allowed, admit_hourly_execution, record_policy_skip,
    dispatch_recurring, dispatch_fallback, persist_schedule, persist_record.
  quieten; first [apply handle_quiet|apply persist_quiet; quieten|eauto with quiet].
Qed.
Lemma permit_quiet fuel i r : is_quiet (dispatches s) (acquire_execution_permit fuel i r).
Proof.
  induction fuel as [|fuel IH]; [apply quiet_ret|]. cbn [acquire_execution_permit]. unfold enabled_now. quieten; exact IH.
Qed.
Lemma task_takes_part fuel p t : id (k_schedule t) <> s -> takes_part s (run_task fuel p t).
Proof.
  intros Hs. apply part_other. unfold run_task, recovery_blocked, persist_update.
  quieten; first [apply permit_quiet|apply persist_quiet; quieten|apply (quiet_call _ (Dispatch _ _ _ _)); by apply String.eqb_neq].
Qed.
Lemma stop_takes_part p : takes_part s (stop p).
Proof.
  apply part_other. unfold stop. quieten.
  - match goal with |- is_quiet _ (release_admissions _ ?l) => induction l as [|o l IH] end; [apply quiet_ret|]. cbn [release_admissions].
    unfold mark_recovery_required. quieten; first [exact IH|eauto with quiet].
  - apply each_quiet. intros t. unfold settle_stopped, cancel_execution, cancel_one_time, mark_recovery_required, mark_consumed, persist_update.
    quieten; apply persist_quiet; quieten.
  - apply each_quiet. intros e. unfold cancel_abandoned, cancel_execution, persist_update. quieten; apply persist_quiet; quieten.
Qed.
End others.

(** ** A run *)
Definition listener_example (i : string) : Schedule Value :=
  mkSchedule i i true (Event "run.completed" 0 None) "fuzz" (Object [("target", Str "{{ event.payload.target }}")])
    (mkPolicies None None 2) "" [] 0 0 None None.
Definition event_example : IncomingEvent := EventBridge.mkEvent 0 "run.completed" (Some (Object [("target", Str "parser")])) 5 (Some "a"%string).
Definition listening_oracle (c : Call) : Answer c :=
  match c as c return Answer c with
  | LoadSchedule _ | AdvanceCursor _ _ => Some (listener_example "b")
  | Now => 7
  | c => any_answer c
  end.
#[local] Instance fixed_chrono : Chrono :=
  mkChrono (fun _ => True) (fun t d => Some (t + d)) (fun s => Some (s * 10 ^ 9)) (fun d => Z.quot d (10 ^ 9)) (fun d => Z.quot d (60 * 10 ^ 9)).
#[local] Existing Instance example_codec.
Definition first_task : Task :=
  mkTask (listener_example "a") "exec-a" (mkFired 0 "a" 0 TEvent false None) Null Allow false.
Definition caused_trigger : FiredTrigger Value := mkFired 1 "b" 5 TEvent false (Some (Object [("target", Str "parser")])).
Definition caused_run : Run unit := handle_fired_trigger to_rfc3339 true true "owner" 1 None (queued caused_trigger).
Definition second_task : Task :=
  mkTask (listener_example "b") "exec-b-" (queued caused_trigger) (Object [("target", Str "parser")]) SkipIfRunning false.
Example spawned_example : event (SpawnTask second_task) tt ∈ (exec listening_oracle journal_example caused_run).1.
Proof. apply list_elem_of_In. vm_compute. repeat first [by left|right]. Qed.
Example causes_example : causes to_rfc3339 (fun _ => ""%string) (fun _ _ => None) 1 first_task second_task.
Proof.
  exists ∅, event_example, [listener_example "b"], caused_trigger, true, true, "owner"%string, (exec listening_oracle journal_example caused_run).1.
  split; [done|]. split; [done|]. split; [apply list_elem_of_In; vm_compute; by left|]. split; [apply exec_runs|exact spawned_example].
Qed.
Lemma cascades_end_witness : 1 + cascade_depth (k_fired first_task) <= 1.
Proof.
  destruct (cascades_end to_rfc3339 (fun _ => ""%string) (fun _ _ => None) 1 first_task second_task 1 ltac:(vm_compute; discriminate)
    ltac:(vm_compute; discriminate) (nsteps_once _ _ causes_example)) as [[H|H] _]; [discriminate|exact H].
Defined.
Definition pending_example : ScheduleExecution := mkExecution "x" "s" 0 None None Pending None Null Null None.
Lemma hourly_example :
  hourly to_rfc3339 100 1 "s" false (step 9 (Updated "x" (begun 9)) (step 8 (Recorded pending_example) (with_retention 100)))
    ["x"%string] [("s", ("x", 9))]%string 9.
Proof.
  assert (H1 : hourly to_rfc3339 100 1 "s" true (with_retention 100) [] [] 7)
    by (apply (hourly_admit _ _ _ _ _ _ _ 7 7 0 (hourly_new _ _ _ _ 7)); [lia|vm_compute; reflexivity]).
  assert (H2 : hourly to_rfc3339 100 1 "s" false (step 8 (Recorded pending_example) (with_retention 100)) ["x"%string] [] 8)
    by (apply (hourly_enter _ _ _ _ _ _ _ _ 8 pending_example H1); [lia|cbn; set_solver|by left]).
  apply (hourly_task _ _ _ _ _ _ _ _ _ 9 (Updated "x" (begun 9)) H2); [lia|by intros e|].
  apply change_begin. intros e He _. apply list_elem_of_In in He. vm_compute in He. by destruct He as [<-|[]].
Qed.
Lemma hourly_limit_witness :
  let s := step 9 (Updated "x" (begun 9)) (step 8 (Recorded pending_example) (with_retention 100)) in
  started_since "s" (9 - hour) s = 1 /\ at_limit (started_since "s" (9 - hour) s) 0 (pending_count "s" s) 1 = true /\
  zlen (recent (9 - hour) (starts_of "s" [("s", ("x", 9))]%string)) + pending_count "s" s <= 1.
Proof.
  split; [vm_compute; reflexivity|]. split; [vm_compute; reflexivity|].
  exact (hourly_limit to_rfc3339 100 1 "s" false _ _ _ 9 ltac:(split; [lia|vm_compute; discriminate]) hourly_example).
Defined.
