(* ===== verification/Sql.v ===== *)
(** * Statements and transactions

    What [sqlx] promises of a database whose tables are a state: a statement runs
    whole, fails without effect, or takes effect and is reported as failed; a
    transaction that is not committed leaves nothing behind.  A list the database
    carries gives the failures to come, so that a theorem about every list is one about
    every failure. *)
From S2P Require Import Prelude Effect.

(** A failure is the error's text and whether the statement took effect all the same. *)
Abbreviation Faults := (list (option (string * bool))).
Class Database (Db : Type) := {
  faults : Db -> Faults;
  with_faults : Faults -> Db -> Db;
}.
Class DatabaseLaws (Db : Type) `{Database Db} := {
  with_faults_twice f g d : with_faults f (with_faults g d) = with_faults f d;
  with_own_faults d : with_faults (faults d) d = d;
}.

Section sql.
Context `{DatabaseLaws Db} {E : Type} (db_error : string -> E).

Definition statement {A} (run : Db -> Result string (Db * A)) : Eff Db E A :=
  fun d =>
    let d' := with_faults (tail (faults d)) d in
    match head (faults d), run d' with
    | Some (Some (e, true)), Ok (d', _) => (d', Err (db_error e))
    | Some (Some (e, _)), _ => (d', Err (db_error e))
    | _, Ok (d', a) => (d', Ok a)
    | _, Err e => (d', Err (db_error e))
    end.
Definition select {A} (f : Db -> A) : Eff Db E A := statement (fun d => Ok (d, f d)).
(** [begin], a body and [commit]. *)
Definition transaction {A} (body : Eff Db E A) : Eff Db E A :=
  fun d =>
    let undo d' := with_faults (faults d') d in
    match select (fun _ => tt) d with
    | (d1, Ok _) =>
        match body d1 with
        | (d2, Ok a) =>
            match statement (fun d => Ok (d, a)) d2 with
            | (d3, Ok a) => (d3, Ok a)
            | (d3, Err e) => (if match head (faults d2) with Some (Some (_, true)) => true | _ => false end then d3 else undo d3, Err e)
            end
        | (d2, Err e) => (undo d2, Err e)
        end
    | (d1, Err e) => (undo d1, Err e)
    end.

Lemma statement_wp {A} (run : Db -> Result string (Db * A)) (Q : Db -> Result E A -> Prop) d :
  (forall f e, Q (with_faults f d) (Err e)) ->
  (forall f, match run (with_faults f d) with Ok (d', a) => Q d' (Ok a) /\ forall e, Q d' (Err e) | Err _ => True end) ->
  wp (statement run) Q d.
Proof.
  intros He Hr. unfold wp, statement. specialize (Hr (tail (faults d))).
  destruct (run _) as [[d' a]|]; destruct (head (faults d)) as [[[err []]|]|]; cbn in *; try apply Hr; apply He.
Qed.
Lemma select_wp {A} (f : Db -> A) (Q : Db -> Result E A -> Prop) d :
  (forall g e, Q (with_faults g d) (Err e)) -> (forall g, Q (with_faults g d) (Ok (f (with_faults g d)))) -> wp (select f) Q d.
Proof. intros He Hr. apply statement_wp; [done|]. intros g. by split. Qed.
Lemma transaction_wp {A} (body : Eff Db E A) (Q : Db -> Result E A -> Prop) d :
  (forall f e, Q (with_faults f d) (Err e)) ->
  (forall f, wp body (fun d' r => match r with
    | Ok a => forall g, Q (with_faults g d') (Ok a) /\ forall e, Q (with_faults g d') (Err e)
    | Err _ => True end) (with_faults f d)) ->
  wp (transaction body) Q d.
Proof.
  intros He Hb. unfold wp, transaction. destruct (select (fun _ => tt) d) as [d1 r1] eqn:E1.
  assert (exists f, d1 = with_faults f d) as [f ->].
  { exists (tail (faults d)). unfold select, statement in E1. destruct (head (faults d)) as [[[err []]|]|]; by simplify_eq. }
  destruct r1 as [[]|e]; [|apply He]. specialize (Hb f). unfold wp in Hb.
  destruct (body (with_faults f d)) as [d2 [a|e]]; cbn in *; [|apply He].
  unfold statement. destruct (head (faults d2)) as [[[err []]|]|]; cbn; try apply He; apply Hb.
Qed.

(** Where nothing fails. *)
Lemma select_quiet {A} (f : Db -> A) d : faults d = [] -> select f d = (d, Ok (f d)).
Proof. intros Hf. unfold select, statement. rewrite Hf. cbn. by rewrite <- Hf, with_own_faults. Qed.
Lemma statement_quiet {A} (run : Db -> Result string (Db * A)) d d' a : faults d = [] -> run d = Ok (d', a) -> statement run d = (d', Ok a).
Proof. intros Hf Hr. unfold statement. rewrite Hf. cbn. by rewrite <- Hf, with_own_faults, Hr. Qed.
Lemma transaction_quiet {A} (body : Eff Db E A) d d' a : faults d = [] -> body d = (d', Ok a) -> faults d' = [] ->
  transaction body d = (d', Ok a).
Proof.
  intros Hf Hb Hf'. unfold transaction. rewrite select_quiet, Hb by done.
  by rewrite (statement_quiet _ d' d' a).
Qed.
End sql.
