(* ===== verification/RunEdgeSets.v ===== *)
(** * Retained edge sets of runs

    Models [crates/hf-storage/src/run_edge_sets.rs] over the tables [runs] and
    [run_edge_sets] of the migrations 0001 and 0038, with what it reads of the run
    records of [store.rs].  An identifier stands for its text; of a run record the
    columns that this code and its callers read are kept. *)
From S2P Require Import Prelude Effect Engine Sql.
From S2P Require EdgeSet.
From S2P Require Occurrence ErrorClassifier.
From Stdlib Require Import Ascii.

Abbreviation StorageError := Occurrence.StorageError.
Abbreviation Timestamp := Z.

(** ** Records of runs *)
Inductive RunStatus := Pending | Running | Done | Failed | Cancelled.
Inductive RunKind := Campaign | Smoke.
#[export] Instance RunStatus_eq_dec : EqDecision RunStatus.
Proof. solve_decision. Defined.
#[export] Instance RunKind_eq_dec : EqDecision RunKind.
Proof. solve_decision. Defined.
Record FuzzRunConfig := mkFuzzRunConfig { harness_id : string; seed_corpus : option string }.
Record RunRecord := mkRunRecord {
  id : string;
  project_root : string;
  engine : EngineKind;
  status : RunStatus;
  kind : RunKind;
  started_at : Timestamp;
  ended_at : option Timestamp;
  config : option FuzzRunConfig;
  binary_rev : option string;
  sandbox_rev : option string;
}.

Definition SANDBOX_IMAGE_REV_PREFIX : string := "docker-image-id-sha256:".
Record RunEdgeSetRecord := mkRunEdgeSetRecord {
  run_id : string;
  binary_sha256 : string;
  set_sandbox_rev : string;
  inputs : Z;
  edge_count : Z;
  edge_map : list Z;
  collected_at : Timestamp;
}.
#[export] Instance RunEdgeSetRecord_eq_dec : EqDecision RunEdgeSetRecord.
Proof. solve_decision. Defined.
Definition invalid (reason : string) : StorageError := Occurrence.InvalidData ("run edge set: " +:+ reason).
Definition is_lower_hex (c : ascii) : bool :=
  let b := code c in ((48 <=? b) && (b <=? 57)) || ((97 <=? b) && (b <=? 102)).
Definition lower_hex_digest (value : string) : bool :=
  (String.length value =? 64)%nat && forallb is_lower_hex (String.list_ascii_of_string value).
Definition popcount (map : list Z) : Z := EdgeSet.sum (EdgeSet.count_ones <$> map).
Definition validate (record : RunEdgeSetRecord) : Result StorageError unit :=
  if negb (lower_hex_digest (binary_sha256 record)) then Err (invalid "invalid executable digest")
  else
    match ErrorClassifier.strip_prefix SANDBOX_IMAGE_REV_PREFIX (set_sandbox_rev record) with
    | None => Err (invalid "invalid sandbox image identity")
    | Some image =>
        if negb (lower_hex_digest image) then Err (invalid "invalid sandbox image identity")
        else if inputs record =? 0 then Err (invalid "a measured edge set replays at least one input")
        else if negb (bool_decide (length (edge_map record) = EdgeSet.EDGE_SET_BYTES)) then Err (invalid "edge map length mismatch")
        else if negb (edge_count record =? popcount (edge_map record)) then Err (invalid "edge count does not match the edge map")
        else Ok tt
    end.

(** ** The tables *)
Record RunRow := mkRunRow {
  w_id : string;
  w_project_root : string;
  w_engine : string;
  w_status : string;
  w_run_kind : string;
  w_started_at : string;
  w_ended_at : option string;
  w_config_json : option string;
  w_binary_rev : option string;
  w_sandbox_rev : option string;
}.
Record EdgeSetRow := mkEdgeSetRow {
  e_run_id : string;
  e_binary_sha256 : string;
  e_sandbox_rev : string;
  e_inputs : Z;
  e_edge_count : Z;
  e_edge_map : list Z;
  e_collected_at : string;
}.
Record Db := mkDb {
  runs : list RunRow;
  edge_sets : list EdgeSetRow;
  db_faults : Faults;
}.
#[export] Instance Db_database : Database Db :=
  {| faults := db_faults; with_faults f d := mkDb (runs d) (edge_sets d) f |}.
#[export] Instance Db_database_laws : DatabaseLaws Db.
Proof. by split; [|intros []]. Qed.
Abbreviation Query := (Eff Db StorageError).

(** [chrono] and [serde_json] on columns. *)
Class Columns := {
  to_rfc3339 : Timestamp -> string;
  parse_from_rfc3339 : string -> Result string Timestamp;
  config_from_json : string -> Result string FuzzRunConfig;
  unknown_variant : string -> string;
}.

Section store.
Context `{Columns}.

Definition ts (raw : string) : Result StorageError Timestamp := map_err Occurrence.Timestamp (parse_from_rfc3339 raw).
Definition engine_from (s : string) : Result StorageError EngineKind := map_err Occurrence.Serde (from_str s).
Definition status_from (s : string) : Result StorageError RunStatus :=
  if String.eqb s "pending" then Ok Pending
  else if String.eqb s "running" then Ok Running
  else if String.eqb s "done" then Ok Done
  else if String.eqb s "failed" then Ok Failed
  else if String.eqb s "cancelled" then Ok Cancelled
  else Err (Occurrence.Serde (unknown_variant s)).
Definition kind_from (s : string) : Result StorageError RunKind :=
  if String.eqb s "campaign" then Ok Campaign
  else if String.eqb s "smoke" then Ok Smoke
  else Err (Occurrence.Serde (unknown_variant s)).
(** [.map(f).transpose()]. *)
Definition transpose {A B E} (f : A -> Result E B) (o : option A) : Result E (option B) :=
  match o with Some a => Some <$> f a | None => Ok None end.
Definition run_from_row (row : RunRow) : Result StorageError RunRecord :=
  config ← transpose (fun c => map_err Occurrence.Serde (config_from_json c)) (w_config_json row);
  engine ← engine_from (w_engine row);
  status ← status_from (w_status row);
  kind ← kind_from (w_run_kind row);
  started_at ← ts (w_started_at row);
  ended_at ← transpose ts (w_ended_at row);
  Ok (mkRunRecord (w_id row) (w_project_root row) engine status kind started_at ended_at config (w_binary_rev row) (w_sandbox_rev row)).
Definition run_of (i : string) (d : Db) : option RunRow := List.find (fun r => String.eqb (w_id r) i) (runs d).
Definition set_of (i : string) (d : Db) : option EdgeSetRow := List.find (fun s => String.eqb (e_run_id s) i) (edge_sets d).
Definition get_run (i : string) : Query (option RunRecord) :=
  row ← select Occurrence.Db_ (run_of i);
  lift (transpose run_from_row row).

Definition u64_of (reason : string) (z : Z) : Result StorageError Z := if 0 <=? z then Ok z else Err (invalid reason).
Definition from_row (row : EdgeSetRow) (i : string) : Result StorageError RunEdgeSetRecord :=
  inputs ← u64_of "negative input count" (e_inputs row);
  edge_count ← u64_of "negative edge count" (e_edge_count row);
  collected_at ← ts (e_collected_at row);
  let record := mkRunEdgeSetRecord i (e_binary_sha256 row) (e_sandbox_rev row) inputs edge_count (e_edge_map row) collected_at in
  validate record ;; Ok record.

(** Whether a run still owns the artifacts a row was measured with. *)
Definition same_artifacts (binary image : string) (r : RunRow) : bool :=
  bool_decide (w_binary_rev r = Some binary) && bool_decide (w_sandbox_rev r = Some image).
(** [INSERT ... SELECT ... FROM runs WHERE ... ON CONFLICT(run_id) DO NOTHING]. *)
Definition insert_edge_set (row : EdgeSetRow) : Query unit :=
  statement Occurrence.Db_ (fun d =>
    match run_of (e_run_id row) d with
    | Some r =>
        if negb (same_artifacts (e_binary_sha256 row) (e_sandbox_rev row) r) then Ok (d, tt)
        else if negb (bool_decide (length (e_edge_map row) = EdgeSet.EDGE_SET_BYTES)) then Err "CHECK constraint failed: length(edge_map) = 65536"
        else if bool_decide (is_Some (set_of (e_run_id row) d)) then Ok (d, tt)
        else Ok (mkDb (runs d) (edge_sets d ++ [row]) (db_faults d), tt)
    | None => Ok (d, tt)
    end).
(** [SELECT s.* FROM run_edge_sets s JOIN runs r ON ...]. *)
Definition joined (i : string) (d : Db) : option EdgeSetRow :=
  row ← set_of i d; r ← run_of i d;
  if same_artifacts (e_binary_sha256 row) (e_sandbox_rev row) r then Some row else None.
Definition i64_column (reason : string) (z : Z) : Query Z := lift (ok_or (invalid reason) (i64_of z)).
Definition record_run_edge_set (record : RunEdgeSetRecord) : Query unit :=
  lift (validate record) ;;
  transaction Occurrence.Db_ (
    inputs ← i64_column "input count overflows i64" (inputs record);
    edge_count ← i64_column "edge count overflows i64" (edge_count record);
    insert_edge_set (mkEdgeSetRow (run_id record) (binary_sha256 record) (set_sandbox_rev record) inputs edge_count (edge_map record)
                       (to_rfc3339 (collected_at record))) ;;
    row ← select Occurrence.Db_ (joined (run_id record));
    row ← lift (ok_or (invalid "run executable or image does not match") row);
    found ← lift (from_row row (run_id record));
    if bool_decide (found = record) then mret tt else fail (invalid "different evidence is already retained")).
Definition run_edge_set (i : string) : Query (option RunEdgeSetRecord) :=
  row ← select Occurrence.Db_ (set_of i);
  match row with
  | None => mret None
  | Some row =>
      record ← lift (from_row row i);
      run ← get_run i;
      run ← lift (ok_or (invalid "owning run is missing") run);
      if negb (bool_decide (binary_rev run = Some (binary_sha256 record))) || negb (bool_decide (sandbox_rev run = Some (set_sandbox_rev record)))
      then fail (invalid "run executable or image changed")
      else mret (Some record)
  end.
End store.

(** ** What the store promises: evidence is put once *)
Section promise.
Context `{Columns}.

(** What is retained of a run. *)
Definition retained (d : Db) (i : string) : option RunEdgeSetRecord :=
  row ← set_of i d; match from_row row i with Ok r => Some r | Err _ => None end.
Definition owned (d : Db) (r : RunEdgeSetRecord) : Prop :=
  exists w, run_of (run_id r) d = Some w /\ same_artifacts (binary_sha256 r) (set_sandbox_rev r) w = true.

(** The calls of this file, between any changes that other code makes to the runs; a
    run that is deleted takes its edge set with it. *)
Inductive step : Db -> Db -> Prop :=
| step_record r d : step d (record_run_edge_set r d).1
| step_read i d : step d (run_edge_set i d).1
| step_runs l d : NoDup (w_id <$> l) ->
    step d (mkDb l (List.filter (fun s => existsb (fun w => String.eqb (w_id w) (e_run_id s)) l) (edge_sets d)) (db_faults d))
| step_faults f d : step d (with_faults f d).
Definition empty : Db := mkDb [] [] [].
Definition reachable (d : Db) : Prop := rtc step empty d.

(** One row per run, and every row reads back as a valid record. *)
Definition row_ok (s : EdgeSetRow) : Prop := exists r, from_row s (e_run_id s) = Ok r.
Definition wf (d : Db) : Prop := NoDup (e_run_id <$> edge_sets d) /\ Forall row_ok (edge_sets d).

Lemma find_by_id {A} (key : A -> string) (l : list A) i x :
  List.find (fun a => String.eqb (key a) i) l = Some x -> x ∈ l /\ key x = i.
Proof. intros Hf. apply find_some in Hf as [Hin He%String.eqb_eq]. by rewrite <- list_elem_of_In in Hin. Qed.
Lemma find_by_id_None {A} (key : A -> string) (l : list A) i :
  List.find (fun a => String.eqb (key a) i) l = None <-> i ∉ key <$> l.
Proof.
  split.
  - intros Hf (x & -> & Hin)%list_elem_of_fmap. apply list_elem_of_In in Hin. pose proof (find_none _ _ Hf x Hin) as He.
    cbn in He; rewrite String.eqb_refl in He. done.
  - intros Hn. destruct (List.find _ l) as [x|] eqn:E; [|done]. exfalso. apply find_by_id in E as [Hin <-].
    apply Hn, list_elem_of_fmap. by exists x.
Qed.
Lemma find_by_id_unique {A} (key : A -> string) (l : list A) x : NoDup (key <$> l) -> x ∈ l ->
  List.find (fun a => String.eqb (key a) (key x)) l = Some x.
Proof.
  induction l as [|a l IH]; intros Hd Hin; [by apply not_elem_of_nil in Hin|]. rewrite fmap_cons in Hd.
  inversion Hd as [|? ? Hn Hd']; subst. cbn. destruct (String.eqb (key a) (key x)) eqn:E.
  - apply String.eqb_eq in E. apply elem_of_cons in Hin as [->|Hin]; [done|]. exfalso. apply Hn. rewrite E.
    apply list_elem_of_fmap. by exists x.
  - apply elem_of_cons in Hin as [->|Hin]; [by rewrite String.eqb_refl in E|]. by apply IH.
Qed.
Lemma find_by_id_snoc {A} (key : A -> string) (l : list A) x i :
  List.find (fun a => String.eqb (key a) i) (l ++ [x])
  = match List.find (fun a => String.eqb (key a) i) l with Some a => Some a | None => if String.eqb (key x) i then Some x else None end.
Proof. induction l as [|a l IH]; cbn; [done|]. by destruct (String.eqb (key a) i). Qed.

Lemma from_row_valid s i r : from_row s i = Ok r ->
  validate r = Ok tt /\ run_id r = i /\ e_binary_sha256 s = binary_sha256 r /\ e_sandbox_rev s = set_sandbox_rev r /\ e_edge_map s = edge_map r.
Proof.
  unfold from_row. intros Hr. apply bind_Ok in Hr as (n & _ & Hr). apply bind_Ok in Hr as (c & _ & Hr).
  apply bind_Ok in Hr as (z & _ & Hr). apply bind_Ok in Hr as ([] & Hv & [= <-]). by split_and!.
Qed.
Lemma retained_wf d i x : retained d i = Some x -> exists s, set_of i d = Some s /\ from_row s i = Ok x.
Proof. unfold retained. intros Hr. apply bind_Some in Hr as (s & Hs & Hr). exists s. destruct (from_row s i); by simplify_eq. Qed.
Lemma retained_set d i s : wf d -> set_of i d = Some s -> exists x, from_row s i = Ok x /\ retained d i = Some x.
Proof.
  intros [_ Hw] Hs. pose proof (find_by_id _ _ _ _ Hs) as [Hin <-]. destruct (proj1 (list.Forall_forall _ _) Hw s Hin) as [x Hx].
  exists x. split; [done|]. unfold retained. rewrite Hs. cbn. by rewrite Hx.
Qed.
Lemma retained_None d i : wf d -> retained d i = None -> set_of i d = None.
Proof. intros Hw Hn. destruct (set_of i d) as [s|] eqn:E; [|done]. destruct (retained_set d i s Hw E) as (x & _ & Hx). by rewrite Hn in Hx. Qed.

(** What one recording does. *)
Definition put (d d' : Db) (r : RunEdgeSetRecord) : Prop :=
  runs d' = runs d /\
  (edge_sets d' = edge_sets d \/
   set_of (run_id r) d = None /\ exists s, edge_sets d' = edge_sets d ++ [s] /\ e_run_id s = run_id r /\ from_row s (run_id r) = Ok r).
Definition kept (d : Db) (r : RunEdgeSetRecord) : Prop :=
  owned d r /\ exists s, set_of (run_id r) d = Some s /\ from_row s (run_id r) = Ok r.
Lemma insert_wp s d (Q : Db -> Result StorageError unit -> Prop) :
  (forall f e, Q (with_faults f d) (Err e)) -> (forall f, Q (with_faults f d) (Ok tt)) ->
  (forall f, set_of (e_run_id s) d = None -> let d' := mkDb (runs d) (edge_sets d ++ [s]) f in Q d' (Ok tt) /\ forall e, Q d' (Err e)) ->
  wp (insert_edge_set s) Q d.
Proof.
  intros He Hs Hi. apply statement_wp; [done|]. intros f. change (run_of ?i (with_faults f d)) with (run_of i d).
  change (set_of ?i (with_faults f d)) with (set_of i d).
  destruct (run_of _ d) as [w|]; [|by split]. destruct (same_artifacts _ _ w); cbn [negb]; [|by split].
  destruct (bool_decide _); cbn [negb]; [|done]. case_bool_decide as Hset; [by split|]. apply Hi. by apply eq_None_not_Some.
Qed.
Lemma joined_Some i d s : joined i d = Some s -> set_of i d = Some s /\
  exists w, run_of i d = Some w /\ same_artifacts (e_binary_sha256 s) (e_sandbox_rev s) w = true.
Proof. unfold joined. intros Hj. ok_inv; simplify_eq. eauto. Qed.
Lemma record_wp r d : wp (record_run_edge_set r) (fun d' res => put d d' r /\ (res = Ok tt -> kept d' r)) d.
Proof.
  unfold record_run_edge_set. apply wp_bind, wp_lift. destruct (validate r) as [[]|e]; [|split; [split; [done|by left]|done]].
  assert (Hnone : forall f (e : StorageError), put d (with_faults f d) r /\ (Err e = Ok tt -> kept (with_faults f d) r)) by (intros; split; [split; [done|by left]|done]).
  apply transaction_wp; [intros f e; apply Hnone|]. intros f. unfold i64_column.
  apply wp_bind, wp_lift. destruct (ok_or _ (i64_of (inputs r))) as [n|]; [|done].
  apply wp_bind, wp_lift. destruct (ok_or _ (i64_of (edge_count r))) as [c|]; [|done].
  set (s := mkEdgeSetRow _ _ _ _ _ _ _).
  (** The rest, once the row is in or was there. *)
  assert (Hrest : forall d1, runs d1 = runs d -> (edge_sets d1 = edge_sets d \/ set_of (run_id r) d = None /\ edge_sets d1 = edge_sets d ++ [s]) ->
    wp (row ← select Occurrence.Db_ (joined (run_id r));
        row ← lift (ok_or (invalid "run executable or image does not match") row);
        found ← lift (from_row row (run_id r));
        if bool_decide (found = r) then mret tt else fail (invalid "different evidence is already retained"))
      (fun d' r0 => match r0 with
        | Ok a => forall g, (put d (with_faults g d') r /\ (@Ok StorageError unit a = Ok tt -> kept (with_faults g d') r)) /\
            forall e : StorageError, put d (with_faults g d') r /\ (Err e = Ok tt -> kept (with_faults g d') r)
        | Err _ => True end) d1).
  { intros d1 Hr Hs. apply wp_bind, select_wp; [done|]. intros g. change (joined ?i (with_faults g d1)) with (joined i d1).
    destruct (joined (run_id r) d1) as [row|] eqn:Ej; cbn [ok_or]; [|by apply wp_bind, wp_lift].
    apply wp_bind, wp_lift, wp_bind, wp_lift. destruct (from_row row (run_id r)) as [found|] eqn:Ef; [|done].
    case_bool_decide as Efound; [|done]. subst found. apply joined_Some in Ej as (Hset & w & Hw & Hsame).
    destruct (from_row_valid _ _ _ Ef) as (_ & _ & Eb & Ei & _). rewrite Eb, Ei in Hsame. intros g'.
    assert (Hk : kept (with_faults g' (with_faults g d1)) r) by (split; [by exists w|by exists row]).
    assert (Hp : put d (with_faults g' (with_faults g d1)) r).
    { split; [done|]. destruct Hs as [Hs|[Hn Hs]]; [by left|]. right. split; [done|]. exists s. split; [done|]. split; [done|].
      replace s with row; [done|]. unfold set_of in Hset, Hn. rewrite Hs, find_by_id_snoc, Hn in Hset. cbn in Hset.
      rewrite String.eqb_refl in Hset. by injection Hset. }
    by split. }
  apply wp_bind, insert_wp; [done| |].
  - intros f1. exact (Hrest (with_faults f1 d) eq_refl (or_introl eq_refl)).
  - intros f1 Hn d'. split; [|done]. exact (Hrest d' eq_refl (or_intror (conj Hn eq_refl))).
Qed.
Lemma read_wp i d : wf d -> wp (run_edge_set i) (fun d' res =>
  runs d' = runs d /\ edge_sets d' = edge_sets d /\
  match res with
  | Ok (Some x) => retained d i = Some x /\ owned d x
  | Ok None => retained d i = None
  | Err _ => True
  end) d.
Proof.
  intros Hwf. unfold run_edge_set. apply wp_bind, select_wp; [done|]. intros f. change (set_of i (with_faults f d)) with (set_of i d).
  destruct (set_of i d) as [s|] eqn:Es; [|split_and!; [done..|]; unfold retained; by rewrite Es].
  apply wp_bind, wp_lift. destruct (retained_set d i s Hwf Es) as (x & Hx & Hret). rewrite Hx. unfold get_run.
  apply wp_bind, wp_bind, select_wp; [done|]. intros g. change (run_of i (with_faults g _)) with (run_of i d). apply wp_lift.
  destruct (from_row_valid _ _ _ Hx) as (_ & Hid & _).
  destruct (run_of i d) as [w|] eqn:Ew; cbn [transpose]; [|by apply wp_bind, wp_lift].
  destruct (run_from_row w) as [run|] eqn:Erun; [|done]. cbn [fmap Result_fmap]. apply wp_bind, wp_lift.
  assert (Hrev : binary_rev run = w_binary_rev w /\ sandbox_rev run = w_sandbox_rev w).
  { unfold run_from_row in Erun. ok_inv; by simplify_eq. }
  cbn [ok_or]. destruct Hrev as [-> ->]. do 2 (case_bool_decide; cbn [negb orb]; [|done]). split_and!; [done..|]. split; [done|].
  exists w. rewrite Hid. split; [done|]. unfold same_artifacts. by rewrite !bool_decide_eq_true_2.
Qed.

Lemma set_of_same d d' i : edge_sets d' = edge_sets d -> set_of i d' = set_of i d.
Proof. unfold set_of. by intros ->. Qed.
Lemma retained_same d d' i : edge_sets d' = edge_sets d -> retained d' i = retained d i.
Proof. intros E. unfold retained. by rewrite (set_of_same d d'). Qed.
Lemma wf_same d d' : edge_sets d' = edge_sets d -> wf d -> wf d'.
Proof. unfold wf. by intros ->. Qed.
Lemma put_wf d d' r : put d d' r -> wf d -> wf d'.
Proof.
  intros (_ & [E|(Hn & s & E & Hid & Hs)]) Hwf; [by eapply wf_same|]. destruct Hwf as [Hd Hw]. unfold wf. rewrite E, fmap_app. split.
  - apply list.NoDup_app. split; [done|]. split; [|apply NoDup_singleton]. intros i Hin ->%list_elem_of_singleton.
    revert Hin. rewrite Hid. by apply (find_by_id_None e_run_id).
  - apply list.Forall_app. split; [done|]. repeat constructor. exists r. by rewrite Hid.
Qed.
Lemma put_retained d d' r : put d d' r ->
  (forall i, i <> run_id r -> retained d' i = retained d i) /\
  (retained d' (run_id r) = retained d (run_id r) \/ retained d (run_id r) = None /\ retained d' (run_id r) = Some r).
Proof.
  intros (_ & [E|(Hn & s & E & Hid & Hs)]).
  - split; [intros i _; by apply retained_same|left; by apply retained_same].
  - split.
    + intros i Hi. unfold retained, set_of. rewrite E, find_by_id_snoc, Hid. destruct (String.eqb (run_id r) i) eqn:Ei; [|by destruct (List.find _ _)].
      apply String.eqb_eq in Ei. congruence.
    + right. unfold retained. rewrite Hn. split; [done|]. unfold set_of in *. rewrite E, find_by_id_snoc, Hn, Hid, String.eqb_refl. cbn.
      by rewrite Hs.
Qed.
Lemma step_wf d d' : step d d' -> wf d -> wf d'.
Proof.
  intros Hs Hwf. destruct Hs as [r d|i d|l d Hl|f d].
  - destruct (record_wp r d) as [Hp _]. by eapply put_wf.
  - destruct (read_wp i d Hwf) as (_ & E & _). by eapply wf_same.
  - destruct Hwf as [Hd Hw]. unfold wf. cbn. split.
    + clear Hw Hl. induction (edge_sets d) as [|s ss IH]; [constructor|]. rewrite fmap_cons in Hd. inversion Hd as [|? ? Hn Hd']; subst.
      cbn. case_match; [|by apply IH]. rewrite fmap_cons. constructor; [|by apply IH].
      intros (x & Ex & [Hx _]%list_elem_of_In%filter_In)%list_elem_of_fmap. apply Hn, list_elem_of_fmap. exists x. by rewrite list_elem_of_In.
    + apply list.Forall_forall. intros s [Hs _]%list_elem_of_In%filter_In. apply list_elem_of_In in Hs. by apply (proj1 (list.Forall_forall _ _) Hw).
  - done.
Qed.
Lemma reachable_wf d : reachable d -> wf d.
Proof.
  intros Hr. unfold reachable in Hr. assert (H0 : wf empty) by by repeat constructor. revert H0.
  induction Hr as [|d1 d2 d3 Hs _ IH]; [done|]. intros Hw. apply IH. by eapply step_wf.
Qed.
Lemma step_retained d d' i x : wf d -> step d d' -> retained d i = Some x -> run_of i d' = None \/ retained d' i = Some x.
Proof.
  intros Hwf Hs Hx. destruct Hs as [r d|j d|l d Hl|f d].
  - right. destruct (put_retained d _ r (proj1 (record_wp r d))) as [Hne Heq]. destruct (decide (i = run_id r)) as [->|Hi].
    + destruct Heq as [->|[Hn _]]; congruence.
    + by rewrite Hne.
  - right. destruct (read_wp j d Hwf) as (_ & E & _). by rewrite (retained_same _ _ _ E).
  - destruct (run_of i _) as [w|] eqn:Ew; [right|by left]. apply retained_wf in Hx as (s & Hs & Hx). unfold retained.
    replace (set_of i _) with (Some s); [cbn; by rewrite Hx|]. symmetry. pose proof (find_by_id _ _ _ _ Hs) as [Hin Hid]. unfold set_of. cbn.
    rewrite <- Hid. apply find_by_id_unique.
    + apply (step_wf d _ (step_runs l d Hl) Hwf).
    + apply list_elem_of_In, filter_In. split; [by apply list_elem_of_In|]. apply existsb_exists.
      pose proof (find_by_id _ _ _ _ Ew) as [Hw Hwid]. exists w. split; [by apply list_elem_of_In|]. by rewrite Hid, Hwid, String.eqb_refl.
  - by right.
Qed.

(** Where something is retained, a recording leaves it, and succeeds only with the same. *)
Lemma record_refuses d r x : retained d (run_id r) = Some x ->
  retained (record_run_edge_set r d).1 (run_id r) = Some x /\ ((record_run_edge_set r d).2 = Ok tt -> r = x).
Proof.
  intros Hx. destruct (record_wp r d) as [Hp Hk]. destruct (put_retained _ _ _ Hp) as [_ [E|[E _]]]; [|congruence].
  rewrite E. split; [done|]. intros Hok. destruct (Hk Hok) as (_ & s & Hs & Hr). rewrite <- E in Hx. unfold retained in Hx. rewrite Hs in Hx.
  cbn in Hx. rewrite Hr in Hx. by injection Hx.
Qed.

(** C36: whatever calls and failures there are, and whatever happens to the runs, the
    edge set retained of a run stays as it was for as long as the run exists.  A
    recording touches no other run, adds a record only where none is retained, and
    reports success only if exactly that record is retained and the run owns the
    artifacts it names; a reading returns what is retained, valid, of a run that
    still owns its artifacts. *)
Theorem evidence_put_once d : reachable d ->
  (forall d' i x, step d d' -> retained d i = Some x -> run_of i d' = None \/ retained d' i = Some x) /\
  (forall r, let '(d', res) := record_run_edge_set r d in
    (forall i, i <> run_id r -> retained d' i = retained d i) /\
    (retained d' (run_id r) = retained d (run_id r) \/ retained d (run_id r) = None /\ retained d' (run_id r) = Some r) /\
    (res = Ok tt -> retained d' (run_id r) = Some r /\ owned d' r)) /\
  (forall i, let '(d', res) := run_edge_set i d in
    (forall j, retained d' j = retained d j) /\
    match res with
    | Ok (Some x) => retained d i = Some x /\ owned d x /\ validate x = Ok tt
    | Ok None => retained d i = None
    | Err _ => True
    end).
Proof.
  intros Hwf%reachable_wf. split; [intros d' i x; by apply step_retained|]. split.
  - intros r. apply wp_pair. destruct (record_wp r d) as [Hp Hk]. destruct (put_retained _ _ _ Hp). unfold wp. split; [done|]. split; [done|].
    intros Hok. destruct (Hk Hok) as (Ho & s & Hs & Hr). split; [|done]. unfold retained. rewrite Hs. cbn. by rewrite Hr.
  - intros i. apply wp_pair. destruct (read_wp i d Hwf) as (_ & E & Hr). unfold wp. split; [intros j; by apply retained_same|].
    destruct ((run_edge_set i d).2) as [[x|]|]; [|done|done]. destruct Hr as [Hx Ho]. split_and!; [done..|].
    apply retained_wf in Hx as (s & _ & Hx). by apply (from_row_valid _ _ _ Hx).
Qed.

(** ** A measured set is retained *)
Lemma count_ones_range b : 0 <= EdgeSet.count_ones b <= 8.
Proof. unfold EdgeSet.count_ones, zlen. pose proof (EdgeSet.length_ones b). lia. Qed.
Lemma popcount_range l : 0 <= popcount l <= 8 * zlen l.
Proof.
  unfold popcount. induction l as [|b l IH]; [done|]. rewrite fmap_cons, zlen_cons.
  change (EdgeSet.sum (?x :: ?k)) with (x + EdgeSet.sum k). pose proof (count_ones_range b). lia.
Qed.
Lemma validate_Ok r : validate r = Ok tt ->
  length (edge_map r) = EdgeSet.EDGE_SET_BYTES /\ edge_count r = popcount (edge_map r) /\ inputs r <> 0.
Proof.
  unfold validate. repeat case_match; try done. intros _.
  repeat match goal with H : negb _ = false |- _ => apply negb_false_iff in H end.
  match goal with H : bool_decide _ = true |- _ => apply bool_decide_eq_true_1 in H end. lia.
Qed.
Lemma validate_count r : validate r = Ok tt -> 0 <= edge_count r <= EdgeSet.EDGE_SET_CAPACITY.
Proof.
  intros (Hl & -> & _)%validate_Ok. pose proof (popcount_range (edge_map r)). unfold EdgeSet.EDGE_SET_CAPACITY. unfold zlen in *. lia.
Qed.
Definition row_of (r : RunEdgeSetRecord) : EdgeSetRow :=
  mkEdgeSetRow (run_id r) (binary_sha256 r) (set_sandbox_rev r) (inputs r) (edge_count r) (edge_map r) (to_rfc3339 (collected_at r)).
(** Where the database does not fail, a valid record of a run that owns its artifacts
    is retained if nothing is yet, and recording it again changes nothing. *)
Lemma first_recording d r w :
  db_faults d = [] -> validate r = Ok tt -> 0 <= inputs r <= i64_MAX -> parse_from_rfc3339 (to_rfc3339 (collected_at r)) = Ok (collected_at r) ->
  run_of (run_id r) d = Some w -> same_artifacts (binary_sha256 r) (set_sandbox_rev r) w = true -> set_of (run_id r) d = None ->
  let d' := mkDb (runs d) (edge_sets d ++ [row_of r]) [] in
  record_run_edge_set r d = (d', Ok tt) /\ record_run_edge_set r d' = (d', Ok tt).
Proof.
  intros Hf Hv Hin Ht Hw Hs Hn d'. pose proof (validate_count r Hv) as Hc. rewrite EdgeSet.capacity in Hc.
  assert (Hset : set_of (run_id r) d' = Some (row_of r)).
  { unfold set_of in *. cbn. rewrite find_by_id_snoc, Hn. cbn. by rewrite String.eqb_refl. }
  assert (Hrow : from_row (row_of r) (run_id r) = Ok r).
  { unfold from_row, row_of, u64_of, ts. cbn [e_inputs e_edge_count e_collected_at]. rewrite (proj2 (Z.leb_le 0 _)), (proj2 (Z.leb_le 0 _)), Ht by lia.
    cbn. destruct r. cbn in *. by rewrite Hv. }
  assert (Hins : forall d0, db_faults d0 = [] -> runs d0 = runs d -> (edge_sets d0 = edge_sets d \/ d0 = d') -> insert_edge_set (row_of r) d0 = (d', Ok tt)).
  { intros d0 Hf0 Hr0 Hd0. unfold insert_edge_set. apply statement_quiet; [done|].
    replace (run_of (e_run_id (row_of r)) d0) with (Some w) by (unfold run_of in *; by rewrite Hr0). cbn [e_binary_sha256 e_sandbox_rev row_of]. rewrite Hs.
    cbn [negb e_edge_map]. rewrite bool_decide_eq_true_2 by by apply validate_Ok. cbn [negb]. change (e_run_id (row_of r)) with (run_id r). destruct Hd0 as [Hd0| ->].
    - rewrite (set_of_same d d0), Hn by done. rewrite bool_decide_eq_false_2 by (by intros [? ?]). by rewrite Hr0, Hd0, Hf0.
    - rewrite Hset. by rewrite bool_decide_eq_true_2. }
  assert (Hrec : forall d0, db_faults d0 = [] -> runs d0 = runs d -> (edge_sets d0 = edge_sets d \/ d0 = d') -> record_run_edge_set r d0 = (d', Ok tt)).
  { intros d0 Hf0 Hr0 Hd0. unfold record_run_edge_set, lift. unfold mbind, Eff_bind. rewrite Hv. apply transaction_quiet; [done| |done].
    unfold i64_column, lift, i64_of, i64_MIN. rewrite !(proj2 (Z.leb_le _ _)) by (unfold i64_MAX in *; lia). cbn [andb ok_or].
    change (mkEdgeSetRow _ _ _ _ _ _ _) with (row_of r). rewrite (Hins d0 Hf0 Hr0 Hd0). rewrite select_quiet by done.
    unfold joined. rewrite Hset. cbn [mbind option_bind]. change (run_of (run_id r) d') with (run_of (run_id r) d). rewrite Hw.
    change (e_binary_sha256 (row_of r)) with (binary_sha256 r). change (e_sandbox_rev (row_of r)) with (set_sandbox_rev r). cbn [mbind option_bind]. rewrite Hs. cbn [ok_or]. change (mkEdgeSetRow _ _ _ _ _ _ _) with (row_of r). rewrite Hrow. by rewrite bool_decide_eq_true_2. }
  split; apply Hrec; auto.
Qed.
End promise.

(** A run, an edge set recorded for it, and the record that stays. *)
Section example.
#[local] Instance sample_columns : Columns :=
  {| to_rfc3339 _ := "2026-01-01T00:00:00+00:00"; parse_from_rfc3339 _ := Ok 0; config_from_json _ := Err ""; unknown_variant s := s |}.
Definition digest : string := "0123456789abcdef0123456789abcdef0123456789abcdef0123456789abcdef".
Definition image_rev : string := SANDBOX_IMAGE_REV_PREFIX +:+ digest.
Definition sample_run : RunRow :=
  mkRunRow "run" "/src" "afl++" "done" "campaign" "2026-01-01T00:00:00+00:00" None None (Some digest) (Some image_rev).
Definition sample (map : list Z) : RunEdgeSetRecord := mkRunEdgeSetRecord "run" digest image_rev 2 (popcount map) map 0.
Example get_run_ex :
  get_run "run" (mkDb [sample_run] [] [])
  = (mkDb [sample_run] [] [], Ok (Some (mkRunRecord "run" "/src" AflPlusPlus Done Campaign 0 None None (Some digest) (Some image_rev)))).
Proof. reflexivity. Qed.
Example validate_ex :
  validate (mkRunEdgeSetRecord "run" "ABC" image_rev 1 0 [] 0) = Err (invalid "invalid executable digest")
  /\ validate (mkRunEdgeSetRecord "run" digest "docker-image:latest" 1 0 [] 0) = Err (invalid "invalid sandbox image identity")
  /\ validate (mkRunEdgeSetRecord "run" digest image_rev 0 0 [] 0) = Err (invalid "a measured edge set replays at least one input").
Proof. split_and!; reflexivity. Qed.
Lemma sample_valid map : length map = EdgeSet.EDGE_SET_BYTES -> validate (sample map) = Ok tt.
Proof.
  intros Hl. unfold validate, sample. cbn [binary_sha256 set_sandbox_rev inputs edge_count edge_map].
  replace (lower_hex_digest digest) with true by reflexivity. replace (ErrorClassifier.strip_prefix _ _) with (Some digest) by reflexivity.
  cbn [negb]. replace (lower_hex_digest digest) with true by reflexivity. cbn [negb Z.eqb]. rewrite bool_decide_eq_true_2 by done.
  by rewrite Z.eqb_refl.
Qed.
Lemma evidence_put_once_witness :
  exists d x, reachable d /\ retained d "run" = Some x /\
    (forall d', step d d' -> run_of "run" d' = None \/ retained d' "run" = Some x) /\
    (let '(d', res) := record_run_edge_set (sample []) d in forall i, i <> "run"%string -> retained d' i = retained d i).
Proof.
  set (x := sample (EdgeSet.bits EdgeSet.new)). set (d1 := mkDb [sample_run] [] []).
  assert (Hv : validate x = Ok tt) by apply sample_valid, EdgeSet.empty_wf.
  destruct (@first_recording sample_columns d1 x sample_run eq_refl Hv ltac:(change (inputs x) with 2; unfold i64_MAX; lia) eq_refl eq_refl eq_refl eq_refl) as [Hrec _].
  set (d := mkDb _ _ _) in Hrec. assert (Hr : reachable d).
  { eapply rtc_l; [apply (step_runs [sample_run]); apply NoDup_singleton|]. change (mkDb _ _ _) with d1.
    apply rtc_once. replace d with (record_run_edge_set x d1).1 by (by rewrite Hrec). apply step_record. }
  destruct (evidence_put_once d Hr) as (Hstay & Hput & _).
  assert (Hret : retained d "run" = Some x).
  { specialize (evidence_put_once d1 (rtc_once _ _ (step_runs [sample_run] empty (NoDup_singleton _)))) as (_ & Hp & _).
    specialize (Hp x). rewrite Hrec in Hp. apply Hp. done. }
  exists d, x. split; [exact Hr|]. split; [exact Hret|]. split; [intros d' Hs; exact (Hstay d' "run"%string x Hs Hret)|].
  specialize (Hput (sample [])). destruct (record_run_edge_set (sample []) d) as [d' res]. apply Hput.
Defined.
End example.
