(* ===== verification/Workspace.v ===== *)
(** * Workspaces of targets

    Models [workspace_dir], [resolve_workspace_directory], [target_artifact_stem],
    [container_input_path] and [run_binary_path] of
    [crates/hf-service/src/container/] ([workspace.rs], [harness_workspace.rs],
    [staging.rs]), with [project_slug] and [stored_project_matches] of
    [project_identity.rs].  A path is its components, the root of an absolute one
    written [ROOT]; the file system is an interface whose answers may change between
    calls. *)
From S2P Require Import Prelude Errors Interaction.
From S2P Require Utf8 Agent Prompt.
From Stdlib Require Import Ascii.

(** ** Paths *)
Definition Path : Type := list string.
Definition ROOT : string := "/".
Definition is_absolute (p : Path) : bool := match p with c :: _ => String.eqb c ROOT | [] => false end.
Definition is_normal (c : string) : bool := negb (existsb (String.eqb c) [ROOT; "."; ".."]).
Fixpoint strip_prefix (base p : Path) : option Path :=
  match base, p with
  | [], p => Some p
  | b :: base, c :: p => if String.eqb b c then strip_prefix base p else None
  | _ :: _, [] => None
  end.
Definition path_starts_with (p base : Path) : bool := match strip_prefix base p with Some _ => true | None => false end.
Definition file_name (p : Path) : option string := c ← list.last p; if is_normal c then Some c else None.
Definition to_path_string (p : Path) : string :=
  match p with c :: r => if String.eqb c ROOT then ROOT +:+ join "/" r else join "/" p | [] => "" end.
Definition display_path (p : Path) : string := Prompt.to_string_lossy (to_path_string p).
(** [Path::new]: repeated separators and single dots are dropped, except a leading dot. *)
Fixpoint pieces (cur s : string) : list string :=
  match s with
  | EmptyString => [cur]
  | String c s => if Ascii.eqb c "/" then cur :: pieces "" s else pieces (cur +:+ String c "") s
  end.
Definition path_of (s : string) : Path :=
  let parts := pieces "" s in
  let kept := filter (fun c => c <> ""%string /\ c <> "."%string) parts in
  if String.prefix ROOT s then ROOT :: kept
  else match parts with "."%string :: _ => "."%string :: kept | _ => kept end.

(** ** Names *)
Section names.
Context (sha256_hex : string -> string).

Definition is_plain (c : ascii) : bool :=
  let b := code c in
  ((48 <=? b) && (b <=? 57)) || ((65 <=? b) && (b <=? 90)) || ((97 <=? b) && (b <=? 122)) || Ascii.eqb c "_" || Ascii.eqb c "-".
Definition safe_char (w : string) : string :=
  match w with String c EmptyString => if is_plain c then w else "_" | _ => "_" end.
Definition MAX_STEM_CHARS : nat := 64.
Definition target_artifact_stem (target : string) : string :=
  let safe := Utf8.of_chars (safe_char <$> Utf8.chars target) in
  let changed := negb (String.eqb safe target) || String.eqb safe "" || (MAX_STEM_CHARS <? String.length safe)%nat in
  let safe := if String.eqb safe "" then "default"%string else safe in
  let safe := Utf8.str_take MAX_STEM_CHARS safe in
  if changed then safe +:+ "-" +:+ Utf8.str_take 8 (sha256_hex target) else safe.
Definition sanitize_target (target : string) : Path := [target_artifact_stem target].
Definition harness_binary_name (target : string) : string := "fuzz_" +:+ target_artifact_stem target.

Definition posix_relative (p : Path) : string := join "/" (Prompt.to_string_lossy <$> p).
Definition container_input_path (workspace host_path : Path) : string :=
  match strip_prefix workspace host_path with
  | Some rel => "/work/" +:+ posix_relative rel
  | None => "/work/out/" +:+ Prompt.to_string_lossy (default ""%string (file_name host_path))
  end.

(** ** Over a file system *)
Inductive FileType := Directory | Regular | Symlink | Other.
#[export] Instance FileType_eq_dec : EqDecision FileType.
Proof. solve_decision. Defined.
Class Files (I : Interface) := {
  canonicalize : Path -> Prog I (Result string Path);
  symlink_metadata : Path -> Prog I (Result string FileType);
  sha256_file : Path -> Prog I (Result ClassifiedError string);
  workspace_root : Prog I Path;
}.
Context {I : Interface} `{!Files I}.

Definition map_prog {E F A} (f : E -> F) (p : Prog I (Result E A)) : Prog I (Result F A) := r ← p; mret (map_err f r).
Definition stored_project_matches (stored canonical : Path) : Prog I bool :=
  if bool_decide (stored = canonical) then mret true
  else resolved ← canonicalize stored; mret (match resolved with Ok p => bool_decide (p = canonical) | Err _ => false end).
Definition project_slug (project : Path) : Prog I string :=
  resolved ← canonicalize project;
  let identity := match resolved with Ok p => p | Err _ => project end in
  let name := default "default"%string (n ← file_name identity; Agent.to_str n) in
  mret (name +:+ "-" +:+ Utf8.str_take 8 (sha256_hex (display_path identity))).
Definition workspace_dir (project : Path) (target : string) : Prog I Path :=
  root ← workspace_root; slug ← project_slug project; mret (root ++ [slug] ++ sanitize_target target).

(** The walk down from the resolved root: every component a directory, no link. *)
Fixpoint walk_directories (current : Path) (relative : Path) : Prog I (Result ClassifiedError Path) :=
  match relative with
  | [] => mret (Ok current)
  | name :: relative =>
      let current := current ++ [name] in
      file_type ←? map_prog (fun e => Validation ("inspect workspace directory " +:+ display_path current +:+ ": " +:+ e)) (symlink_metadata current);
      if bool_decide (file_type = Directory) then walk_directories current relative
      else mret (Err (Validation ("workspace directory is not a regular directory: " +:+ display_path current)))
  end.
Definition resolve_workspace_directory (workspace relative : Path) : Prog I (Result ClassifiedError Path) :=
  if bool_decide (relative = []) || is_absolute relative || negb (forallb is_normal relative)
  then mret (Err (Validation ("workspace directory path is unsafe: " +:+ display_path relative)))
  else
    root ←? map_prog (fun e => Validation ("resolve workspace " +:+ display_path workspace +:+ ": " +:+ e)) (canonicalize workspace);
    current ←? walk_directories root relative;
    resolved ←? map_prog (fun e => Validation ("resolve workspace directory " +:+ display_path current +:+ ": " +:+ e)) (canonicalize current);
    if negb (path_starts_with resolved root)
    then mret (Err (Validation ("workspace directory escaped " +:+ display_path root +:+ ": " +:+ display_path resolved)))
    else mret (Ok resolved).
(** [std::fs::symlink_metadata(path).is_ok_and(|m| m.file_type().is_file())]. *)
Definition is_regular_file (p : Path) : Prog I bool :=
  r ← symlink_metadata p; mret (match r with Ok k => bool_decide (k = Regular) | Err _ => false end).
(** The run as its identifier and the digest retained of its binary. *)
Definition run_binary_path (workspace : Path) (run_id : string) (binary_rev : option string) (target : string) : Prog I (Result ClassifiedError Path) :=
  let relative := match binary_rev with Some _ => ["runs"%string; run_id; "input"%string; "harness"%string] | None => [harness_binary_name target] end in
  if is_absolute relative || negb (forallb is_normal relative)
  then mret (Err (Validation ("run " +:+ run_id +:+ " binary path is unsafe")))
  else
    root ←? map_prog (fun e => Validation ("resolve workspace " +:+ display_path workspace +:+ ": " +:+ e)) (canonicalize workspace);
    let candidate := root ++ relative in
    regular ← is_regular_file candidate;
    if negb regular
    then mret (Err (Validation ("run " +:+ run_id +:+ " binary is missing or not a regular file: " +:+ display_path candidate)))
    else
      resolved ←? map_prog (fun e => Validation ("resolve run binary " +:+ display_path candidate +:+ ": " +:+ e)) (canonicalize candidate);
      if negb (path_starts_with resolved root)
      then mret (Err (Validation ("run " +:+ run_id +:+ " binary resolves outside its workspace")))
      else
        match binary_rev with
        | None => mret (Ok resolved)
        | Some expected =>
            actual ←? sha256_file resolved;
            if negb (String.eqb actual expected)
            then mret (Err (Validation ("run " +:+ run_id +:+ " binary digest does not match persisted evidence")))
            else mret (Ok resolved)
        end.
End names.

(** ** Names of targets *)
Section names_facts.
Context (sha256_hex : string -> string).
Definition plain (s : string) : Prop := Forall (fun c => is_plain c = true) (String.list_ascii_of_string s).
(** What is known of a hexadecimal digest here. *)
Definition hex_digests : Prop := forall s, plain (sha256_hex s) /\ String.length (sha256_hex s) = 64%nat.
Abbreviation stem := (target_artifact_stem sha256_hex).

Lemma plain_cons c s : plain (String c s) <-> is_plain c = true /\ plain s.
Proof. unfold plain. cbn. by rewrite list.Forall_cons. Qed.
Lemma plain_app a b : plain (a +:+ b) <-> plain a /\ plain b.
Proof.
  induction a as [|c a IH]; [split; [intros Hb; split; [constructor|exact Hb]|by intros [_ ?]]|].
  change (String c a +:+ b) with (String c (a +:+ b)). rewrite !plain_cons, IH. tauto.
Qed.
Lemma plain_take n s : plain s -> plain (Utf8.str_take n s).
Proof.
  revert s. induction n as [|n IH]; intros s; [constructor|]. destruct s as [|c s]; [done|]. cbn. rewrite !plain_cons. naive_solver.
Qed.
Lemma length_take n s : String.length (Utf8.str_take n s) = Nat.min n (String.length s).
Proof. revert s. induction n as [|n IH]; intros [|c s]; cbn; [done..|]. by rewrite IH. Qed.
Lemma is_plain_ascii c : is_plain c = true -> Utf8.continuation c = false.
Proof. destruct c as [[] [] [] [] [] [] [] []]; vm_compute; done. Qed.
Lemma stem_chars s : plain s -> Utf8.of_chars (safe_char <$> Utf8.chars s) = s.
Proof.
  induction s as [|c s IH]; [done|]. rewrite plain_cons. intros [Hc Hs]. rewrite Utf8.chars_cons. specialize (IH Hs).
  assert (Hcont : match s with String d _ => Utf8.continuation d = false | EmptyString => True end).
  { destruct s as [|d s']; [done|]. apply is_plain_ascii. by apply plain_cons in Hs as [? _]. }
  assert (Hone : safe_char (String c "") = String c "") by (cbn; by rewrite Hc).
  destruct s as [|d s']; [cbn; by rewrite Hc|]. destruct (Utf8.chars (String d s')) as [|w ws] eqn:E; [by apply Utf8.chars_nonempty in E|].
  rewrite Hcont, fmap_cons, Utf8.of_chars_cons, Hone, IH. done.
Qed.
Lemma safe_plain w : plain (safe_char w).
Proof. destruct w as [|c [|]]; [by repeat constructor| |by repeat constructor]. cbn. destruct (is_plain c) eqn:E; by repeat constructor. Qed.
Lemma safe_all_plain ws : plain (Utf8.of_chars (safe_char <$> ws)).
Proof.
  induction ws as [|w ws IH]; [constructor|]. rewrite fmap_cons, Utf8.of_chars_cons. apply plain_app. split; [apply safe_plain|done].
Qed.
(** A plain name that is short enough is kept. *)
Lemma stem_verbatim target : plain target -> target <> "" -> (String.length target <= MAX_STEM_CHARS)%nat -> stem target = target.
Proof.
  intros Hp Hne Hl. unfold target_artifact_stem. rewrite stem_chars, String.eqb_refl by done.
  replace (String.eqb target "") with false by (symmetry; by apply String.eqb_neq). cbn [negb orb].
  replace (MAX_STEM_CHARS <? String.length target)%nat with false by (symmetry; by apply Nat.ltb_ge). by apply Utf8.str_take_all.
Qed.
(** Any name gives one component that is plain and short. *)
Lemma stem_component target : hex_digests ->
  plain (stem target) /\ stem target <> "" /\ (String.length (stem target) <= 73)%nat /\ is_normal (stem target) = true.
Proof.
  intros Hh. destruct (Hh target) as [Hd Hdl]. unfold target_artifact_stem. set (safe := Utf8.of_chars _).
  assert (Hp : plain (if String.eqb safe "" then "default"%string else safe)) by (case_match; [by repeat constructor|apply safe_all_plain]).
  assert (Hne : (if String.eqb safe "" then "default"%string else safe) <> "") by (destruct (String.eqb safe "") eqn:E; [done|by apply String.eqb_neq]).
  revert Hp Hne. generalize (if String.eqb safe "" then "default"%string else safe). intros s Hp Hne.
  assert (Hpt : plain (Utf8.str_take MAX_STEM_CHARS s)) by by apply plain_take.
  assert (Hnt : Utf8.str_take MAX_STEM_CHARS s <> "") by by destruct s.
  assert (Hall : forall r, plain r -> r <> "" -> is_normal r = true).
  { intros r Hr Hrn. unfold is_normal. apply negb_true_iff, not_true_is_false. intros (x & Hx & ->%String.eqb_eq)%existsb_exists.
    destruct Hx as [<-|[<-|[<-|[]]]]; apply plain_cons in Hr as [Hr _]; by vm_compute in Hr. }
  destruct (_ || _ || _).
  - assert (Hpa : plain (Utf8.str_take MAX_STEM_CHARS s +:+ "-" +:+ Utf8.str_take 8 (sha256_hex target))).
    { apply plain_app. split; [done|]. apply plain_app. split; [by repeat constructor|by apply plain_take]. }
    assert (Hna : Utf8.str_take MAX_STEM_CHARS s +:+ "-" +:+ Utf8.str_take 8 (sha256_hex target) <> "") by by destruct (Utf8.str_take _ s).
    split_and!; [done|done| |by apply Hall]. rewrite !Utf8.str_length_app, !length_take. unfold MAX_STEM_CHARS. cbn [String.length]. lia.
  - split_and!; [done|done|rewrite length_take; unfold MAX_STEM_CHARS; lia|by apply Hall].
Qed.
(** The hash keeps altered names apart, but a name that is not altered may be the one
    an altered name gets. *)
Theorem stem_collision : hex_digests -> exists a b, a <> b /\ plain b /\ stem a = stem b.
Proof.
  intros Hh. exists "a/b"%string, (stem "a/b"). destruct (Hh "a/b"%string) as [Hd Hdl].
  assert (Hs : stem "a/b" = "a_b-"%string +:+ Utf8.str_take 8 (sha256_hex "a/b")) by reflexivity.
  pose proof (stem_component "a/b" Hh) as (Hp & Hne & _). split; [rewrite Hs; discriminate|]. split; [done|]. symmetry.
  apply stem_verbatim; [done|done|]. rewrite Hs, Utf8.str_length_app, length_take, Hdl. unfold MAX_STEM_CHARS. cbn. lia.
Qed.
End names_facts.

(** ** Paths inside the container *)
Lemma strip_prefix_below a b : strip_prefix a (a ++ b) = Some b.
Proof. induction a as [|c a IH]; [done|]. cbn. by rewrite String.eqb_refl. Qed.
Lemma strip_prefix_Some a p b : strip_prefix a p = Some b <-> p = a ++ b.
Proof.
  split; [|intros ->; apply strip_prefix_below]. revert p. induction a as [|c a IH]; intros p; cbn; [by intros [= ->]|].
  destruct p as [|d p]; [done|]. destruct (String.eqb c d) eqn:E; [|done]. apply String.eqb_eq in E as ->. by intros ->%IH.
Qed.
Lemma path_starts_with_spec p base : path_starts_with p base = true <-> exists r, p = base ++ r.
Proof.
  unfold path_starts_with. destruct (strip_prefix base p) as [r|] eqn:E.
  - apply strip_prefix_Some in E. naive_solver.
  - split; [done|]. intros [r ->]. by rewrite strip_prefix_below in E.
Qed.
(** A file below the workspace keeps its place under the mount; one that is not,
    because its path was resolved and the workspace's was not, loses its directory. *)
Lemma container_path_below workspace rel : container_input_path workspace (workspace ++ rel) = "/work/" +:+ posix_relative rel.
Proof. unfold container_input_path. by rewrite strip_prefix_below. Qed.
Example container_path_resolved :
  container_input_path ["/"; "tmp"; "ws"; "t"] ["/"; "private"; "tmp"; "ws"; "t"; "runs"; "r"; "corpus"; "seed"] = "/work/out/seed"%string
  /\ container_input_path ["/"; "tmp"; "ws"; "t"] ["/"; "tmp"; "ws"; "t"; "runs"; "r"; "corpus"; "seed"] = "/work/runs/r/corpus/seed"%string.
Proof. split; vm_compute; reflexivity. Qed.
Example path_of_ex :
  path_of "/a//b/./c/" = ["/"; "a"; "b"; "c"]%string /\ path_of "./a" = ["."; "a"]%string /\ path_of "a/b" = ["a"; "b"]%string.
Proof. split_and!; vm_compute; reflexivity. Qed.
