(* ===== verification/RunCloseout.v ===== *)
(** * The closeout ladder

    Models [crates/hf-service/src/run_closeout.rs], with the spelling of steps and
    outcomes that [container/run_closeout.rs] stores: the six steps that follow a run,
    what they read of each other, and which are still to do. *)
From S2P Require Import Prelude.

Definition RUN_CLOSEOUT_SCHEMA_VERSION : Z := 3.
Inductive CloseoutStep := Triage | Minimize | CorpusAbsorb | EdgeSet | Disposition | TrustReport.
#[export] Instance CloseoutStep_eq_dec : EqDecision CloseoutStep.
Proof. solve_decision. Defined.
Inductive StepOutcome := Completed (detail : string) | Skipped (reason : string) | Blocked (dependency : CloseoutStep) | Failed (error : string).
#[export] Instance StepOutcome_eq_dec : EqDecision StepOutcome.
Proof. solve_decision. Defined.
Definition is_terminal (o : StepOutcome) : bool := match o with Completed _ | Skipped _ => true | _ => false end.
Record CloseoutStepRecord := mkStepRecord { step : CloseoutStep; outcome : StepOutcome }.
Inductive CloseoutAvailability := Available | Unavailable (reason : string).
Record CloseoutReport := mkCloseoutReport {
  schema_version : Z;
  report_run_id : string;
  availability : CloseoutAvailability;
  steps : list CloseoutStepRecord;
  resumed_at : option CloseoutStep;
}.
Definition closeout_ladder : list CloseoutStep := [Triage; Minimize; CorpusAbsorb; EdgeSet; Disposition; TrustReport].
Definition consumes (s : CloseoutStep) : list CloseoutStep :=
  match s with
  | Triage | EdgeSet | TrustReport => []
  | Minimize | CorpusAbsorb | Disposition => [Triage]
  end.

(** ** Outcomes recorded *)
Abbreviation Recorded := (list (CloseoutStep * StepOutcome)).
(** [recorded.iter().rev().find(|(done, _)| done == step)]. *)
Definition outcome_of (s : CloseoutStep) (recorded : Recorded) : option StepOutcome :=
  snd <$> List.find (fun p => bool_decide (p.1 = s)) (reverse recorded).
Definition done_with (o : option StepOutcome) : bool := match o with Some o => is_terminal o | None => false end.
Definition obstructs (o : option StepOutcome) : bool := match o with Some (Failed _ | Blocked _) => true | _ => false end.
Definition pending_steps (recorded : Recorded) : list CloseoutStep :=
  List.filter (fun s => negb (done_with (outcome_of s recorded))) closeout_ladder.
Definition blocked_by (s : CloseoutStep) (recorded : Recorded) : option CloseoutStep :=
  List.find (fun d => obstructs (outcome_of d recorded)) (consumes s).
(** [retain] and [push]. *)
Definition replace_recorded (recorded : Recorded) (s : CloseoutStep) (o : StepOutcome) : Recorded :=
  filter (fun p => p.1 <> s) recorded ++ [(s, o)].
Definition report_from_recorded (run_id : string) (a : CloseoutAvailability) (recorded : Recorded) (resumed_at : option CloseoutStep) : CloseoutReport :=
  mkCloseoutReport RUN_CLOSEOUT_SCHEMA_VERSION run_id a (omap (fun s => mkStepRecord s <$> outcome_of s recorded) closeout_ladder) resumed_at.

(** ** Spelling *)
Definition debug_step (s : CloseoutStep) : string :=
  match s with
  | Triage => "Triage" | Minimize => "Minimize" | CorpusAbsorb => "CorpusAbsorb" | EdgeSet => "EdgeSet"
  | Disposition => "Disposition" | TrustReport => "TrustReport"
  end.
Definition position_of (s : CloseoutStep) : Z :=
  match s with Triage => 0 | Minimize => 1 | CorpusAbsorb => 2 | EdgeSet => 3 | Disposition => 4 | TrustReport => 5 end.
Definition decode_step (name : string) : option CloseoutStep := List.find (fun s => String.eqb (debug_step s) name) closeout_ladder.
Definition legacy_reason (d : CloseoutStep) : string := debug_step d +:+ " failed, and this step reads its output".
Definition may_wait_for (s d : CloseoutStep) : bool :=
  if bool_decide (s = TrustReport) then position_of d <? position_of TrustReport else bool_decide (d ∈ consumes s).
Definition decode_outcome (s : CloseoutStep) (outcome detail : string) : option StepOutcome :=
  if String.eqb outcome "completed" then Some (Completed detail)
  else if String.eqb outcome "skipped" then
    match List.find (fun d => String.eqb detail (legacy_reason d)) (consumes s) with
    | None => Some (Skipped detail)
    | Some d => Some (Blocked d)
    end
  else if String.eqb outcome "blocked" then
    d ← decode_step detail; if may_wait_for s d then Some (Blocked d) else None
  else if String.eqb outcome "failed" then Some (Failed detail)
  else None.
Definition encode (s : CloseoutStep) (o : StepOutcome) : string * string * string :=
  let name := debug_step s in
  match o with
  | Completed detail => (name, "completed", detail)
  | Skipped reason => (name, "skipped", reason)
  | Blocked d => (name, "blocked", debug_step d)
  | Failed error => (name, "failed", error)
  end%string.

(** The cases of the module's own tests. *)
Example resumes_after : pending_steps [(Triage, Completed ""); (Minimize, Skipped ""); (CorpusAbsorb, Failed "")] = [CorpusAbsorb; EdgeSet; Disposition; TrustReport].
Proof. reflexivity. Qed.
Example blocks : blocked_by Minimize [(Triage, Failed "")] = Some Triage /\ blocked_by EdgeSet [(Triage, Failed "")] = None /\ blocked_by Minimize [] = None.
Proof. split_and!; reflexivity. Qed.

(** ** Outcomes read back *)
(** What a step may come to: it waits only for what it reads, and a reason is not the
    legacy spelling of a failed dependency. *)
Definition valid (s : CloseoutStep) (o : StepOutcome) : Prop :=
  match o with
  | Blocked d => may_wait_for s d = true
  | Skipped reason => forall d, d ∈ consumes s -> reason <> legacy_reason d
  | _ => True
  end.
Lemma decode_debug s : decode_step (debug_step s) = Some s.
Proof. by destruct s. Qed.
Lemma debug_step_inj s s' : debug_step s = debug_step s' -> s = s'.
Proof. intros E. pose proof (decode_debug s) as Hs. rewrite E, decode_debug in Hs. by injection Hs. Qed.
Lemma outcome_roundtrip s o : valid s o -> decode_step (encode s o).1.1 = Some s /\ decode_outcome s (encode s o).1.2 (encode s o).2 = Some o.
Proof.
  intros Hv. split; [destruct o; apply decode_debug|]. destruct o as [d|r|d|e]; try reflexivity; cbn in Hv.
  - unfold decode_outcome. cbn [encode fst snd String.eqb]. change (String.eqb "skipped" "completed") with false.
    change (String.eqb "skipped" "skipped") with true. cbv iota. destruct (List.find _ _) as [d|] eqn:E; [|done].
    apply find_some in E as [Hd%list_elem_of_In Er%String.eqb_eq]. by destruct (Hv d Hd).
  - unfold decode_outcome. cbn [encode fst snd]. change (String.eqb "blocked" "completed") with false.
    change (String.eqb "blocked" "skipped") with false. change (String.eqb "blocked" "blocked") with true. cbv iota.
    rewrite decode_debug. cbn. by rewrite Hv.
Qed.
Lemma encode_name s o : (encode s o).1.1 = debug_step s.
Proof. by destruct o. Qed.

(** ** The last outcome of a step *)
Lemma outcome_replace s s' o recorded : outcome_of s (replace_recorded recorded s' o) = if bool_decide (s = s') then Some o else outcome_of s recorded.
Proof.
  unfold outcome_of, replace_recorded. rewrite reverse_app, reverse_singleton. cbn [List.find app fst].
  destruct (decide (s = s')) as [->|Hne]; [by rewrite !bool_decide_eq_true_2|]. rewrite !bool_decide_eq_false_2 by done.
  f_equal. rewrite <- filter_reverse. induction (reverse recorded) as [|[x y] l IH]; [done|]. rewrite filter_cons. cbn [List.find fst].
  case_decide as Ex.
  - cbn [List.find fst]. by rewrite IH.
  - assert (x = s') as -> by (destruct (decide (x = s')); [done|by destruct Ex]). by rewrite (bool_decide_eq_false_2 (s' = s)) by done.
Qed.
Lemma pending_spec s recorded : s ∈ pending_steps recorded <-> done_with (outcome_of s recorded) = false.
Proof.
  unfold pending_steps. rewrite list_elem_of_In, filter_In, negb_true_iff. split; [by intros [_ ?]|]. intros Hd. split; [by destruct s; cbn; auto 10|done].
Qed.
Lemma blocked_by_spec s recorded : match blocked_by s recorded with
  | Some d => d ∈ consumes s /\ obstructs (outcome_of d recorded) = true
  | None => forall d, d ∈ consumes s -> obstructs (outcome_of d recorded) = false
  end.
Proof.
  unfold blocked_by. destruct (List.find _ _) as [d|] eqn:E.
  - apply find_some in E as [Hd Ho]. by rewrite list_elem_of_In.
  - intros d Hd%list_elem_of_In. by apply (find_none _ _ E).
Qed.

(** ** Ladder order *)
Lemma position_bounds s : 0 <= position_of s < 6.
Proof. by destruct s. Qed.
Lemma position_inj s s' : position_of s = position_of s' -> s = s'.
Proof. by destruct s, s'. Qed.
Lemma consumes_before s d : d ∈ consumes s -> position_of d < position_of s.
Proof. destruct s; cbn; intros Hd; try (by apply not_elem_of_nil in Hd); apply list_elem_of_singleton in Hd as ->; done. Qed.
Lemma consumes_wait s d : d ∈ consumes s -> may_wait_for s d = true.
Proof.
  intros Hd. pose proof (consumes_before s d Hd) as Hlt. unfold may_wait_for. case_bool_decide as Es; [subst s; by apply Z.ltb_lt|].
  by apply bool_decide_eq_true_2.
Qed.
Lemma ladder_next n s rest : drop n closeout_ladder = s :: rest -> position_of s = Z.of_nat n /\ rest = drop (S n) closeout_ladder /\ (n < 6)%nat.
Proof. do 6 (destruct n as [|n]; [cbn; intros [= <- <-]; repeat split; lia|]). by destruct n. Qed.
