(* ===== verification/EdgeCapture.v ===== *)
(** * Capture of edge sets

    Models [crates/hf-service/src/container/edge_sets.rs]: a run's corpus is replayed
    through [afl-showmap], the edges of all replays make the set that is retained, and
    two retained sets are compared.  The store, the file system, the sandbox, the
    guardrails and the clock are an interface; [RunEdgeSets.v] has the store behind
    two of its operations, [Workspace.v] the paths. *)
From S2P Require Import Prelude Text Engine Errors Interaction Workspace RunEdgeSets.
From S2P Require EdgeSet Showmap Journal RunCloseout.

Definition EDGE_SET_CAPTURE_MAX_INPUTS : Z := 10000.
Definition EDGE_SET_CAPTURE_OPERATION_SECS : Z := 600.
Definition EDGE_SET_CAPTURE_COMMAND_SECS : Z := 10.
Definition EDGE_DIFF_SAMPLE_CAP : nat := 64.

(** ** What it calls *)
Record ResolvedFuzzingRun := mkResolved { duration_secs : Z; max_mem_mb : Z; max_cpus : Z }.
Record ResourceLimits := mkLimits { l_max_mem_mb : Z; l_max_cpus : Z; l_max_duration_secs : Z; l_ptrace : bool }.
(** The options set here; the others have their defaults. *)
Record SandboxOptions := mkSandbox { image : option string; workspace_read_only : bool }.
Inductive CommandTermination := Completed | TimedOut | Cancelled.
Record CommandResult := mkCommandResult { exit_code : Z; stdout : Text; termination : CommandTermination }.
Record CorpusEntry := mkCorpusEntry { entry_path : Path; entry_sha256 : string; entry_size : Z }.
Record TargetCandidate := mkTarget { target_id : string; target_project_root : Path; symbol : string; relative_file : string }.
Inductive Op :=
| GetRun (i : string) | ReadRunEdgeSet (i : string) | RecordRunEdgeSet (r : RunEdgeSetRecord)
| GetHarness (i : string) | ListAllTargets
| AcquireWorkspaceOperation
| WorkspaceRoot | Canonicalize (p : Path) | SymlinkMetadata (p : Path) | IsDir (p : Path) | Sha256File (p : Path)
| CorpusList (root : Path)
| ResolveInternalRun (e : EngineKind) (secs : Z)
| Authorize (engine : string) (secs : Z) (origin : string) (project : Path)
| InstantNow | UtcNow
| RunCommandOpts (remaining : Z) (args : list string) (workspace : Path) (limits : ResourceLimits) (sandbox : SandboxOptions)
| JournalNote (run : string) (event : string) (detail : string).
(** [RunCommandOpts] under a timeout answers nothing when the time runs out. *)
Definition Answer (op : Op) : Type :=
  match op with
  | GetRun _ => Result StorageError (option RunRecord)
  | ReadRunEdgeSet _ => Result StorageError (option RunEdgeSetRecord)
  | RecordRunEdgeSet _ => Result StorageError unit
  | GetHarness _ => Result StorageError (option string)
  | ListAllTargets => Result StorageError (list TargetCandidate)
  | AcquireWorkspaceOperation => Result ClassifiedError unit
  | WorkspaceRoot => Path
  | Canonicalize _ => Result string Path
  | SymlinkMetadata _ => Result string FileType
  | IsDir _ => bool
  | Sha256File _ => Result ClassifiedError string
  | CorpusList _ => Result ClassifiedError (list CorpusEntry)
  | ResolveInternalRun _ _ => Result ClassifiedError ResolvedFuzzingRun
  | Authorize _ _ _ _ => Result ClassifiedError unit
  | InstantNow | UtcNow => Z
  | RunCommandOpts _ _ _ _ _ => option (Result ClassifiedError CommandResult)
  | JournalNote _ _ _ => unit
  end.
Definition Service : Interface := mkInterface Op Answer.
Definition call (op : Op) : Prog Service (Answer op) := ask (I := Service) op.
#[export] Instance Service_files : Files Service := {|
  canonicalize p := call (Canonicalize p);
  symlink_metadata p := call (SymlinkMetadata p);
  sha256_file p := call (Sha256File p);
  workspace_root := call WorkspaceRoot;
|}.
Abbreviation Fallible A := (Prog Service (Result ClassifiedError A)).

(** [build_showmap_args], with [build_target_args] of [afl.rs] for one input. *)
Definition build_target_args (binary input : string) : list string := [binary; input].
Definition build_showmap_args (binary input : string) : list string :=
  ["afl-showmap"%string; "-o"%string; "-"%string; "-q"%string; "--"%string] ++ build_target_args binary input.
Definition require_completed (r : CommandResult) (operation : string) : Result ClassifiedError CommandResult :=
  match termination r with
  | Completed => Ok r
  | TimedOut => Err (Sandbox (operation +:+ " timed out"))
  | Cancelled => Err (Sandbox (operation +:+ " was cancelled"))
  end.
Fixpoint path_cmp (a b : Path) : comparison :=
  match a, b with
  | [], [] => Eq
  | [], _ => Lt
  | _, [] => Gt
  | c :: a, d :: b => match String.compare c d with Eq => path_cmp a b | o => o end
  end.
Definition storage (e : StorageError) : ClassifiedError := Storage (Journal.display_storage_error e).
Definition stored {A} (p : Prog Service (Result StorageError A)) : Fallible A := map_prog storage p.
Definition from_option {A} (e : ClassifiedError) (o : option A) : Fallible A := mret (ok_or e o).

Section capture.
(** Whether the service has a store, and SHA-256 in hexadecimal. *)
Context (has_store : bool) (sha256_hex : string -> string).

Definition require_store (message : string) : Fallible unit := mret (if has_store then Ok tt else Err (Validation message)).
Definition run_record (i : string) : Fallible RunRecord :=
  _ ←? require_store "run history requires the persistent store";
  run ←? stored (call (GetRun i));
  from_option (Validation ("run '" +:+ i +:+ "' not found")) run.

Definition debug_kind (k : RunKind) : string := match k with Campaign => "Campaign" | Smoke => "Smoke" end.
Definition is_none {A} (o : option A) : bool := match o with None => true | Some _ => false end.
Definition edge_set_capture_block (run : RunRecord) : option string :=
  let named := "run '" +:+ id run +:+ "' " in
  if negb (bool_decide (kind run = Campaign))
  then Some (named +:+ "is a " +:+ debug_kind (kind run) +:+ " run; edge sets are captured for campaign runs")
  else if negb match status run with Done | RunEdgeSets.Failed | RunEdgeSets.Cancelled => true | _ => false end
  then Some (named +:+ "is still in flight; its edge set can be captured once the run is terminal")
  else if negb (bool_decide (engine run = AflPlusPlus))
  then Some (named +:+ "ran " +:+ as_str (engine run)
             +:+ "; edge-set capture replays the retained corpus through afl-showmap, which measures AFL++-instrumented binaries only")
  else if is_none (binary_rev run) || is_none (sandbox_rev run) || is_none (config run)
  then Some (named +:+ "predates retained execution evidence (staged binary and image digests); re-run the campaign to capture an edge set")
  else None.
Definition missing_edge_set (i : string) : ClassifiedError :=
  Validation ("run " +:+ i +:+ " has no captured edge set; capture one with `oxfuzz runs capture-edges " +:+ i
    +:+ "` (requires the run's retained corpus and binary to still be staged), or re-run the campaign with this oxfuzz version").

(** ** Scope *)
Definition qualified_target_selector (target : TargetCandidate) : string := relative_file target +:+ "::" +:+ symbol target.
Fixpoint selector_of (corpus : Path) (project : Path) (selectors : list string) : Prog Service (option string) :=
  match selectors with
  | [] => mret None
  | selector :: selectors =>
      workspace ← workspace_dir sha256_hex project selector;
      if bool_decide (corpus = workspace ++ ["corpus"%string]) then mret (Some selector) else selector_of corpus project selectors
  end.
Definition retained_run_target_selector (run : RunRecord) (target : TargetCandidate) : Fallible string :=
  match c ← config run; seed_corpus c with
  | None => mret (Ok (symbol target))
  | Some corpus =>
      found ← selector_of (path_of corpus) (path_of (project_root run)) [symbol target; qualified_target_selector target];
      from_option (Validation ("run " +:+ id run +:+ " retained corpus path does not identify a workspace for target " +:+ target_id target)) found
  end.
Definition run_capture_scope (run : RunRecord) : Fallible (Path * string) :=
  _ ←? require_store "edge-set capture requires the persistent store";
  harness_id ←? from_option (Validation ("run '" +:+ id run +:+ "' retained no harness-backed target")) (harness_id <$> config run);
  harness ←? stored (call (GetHarness harness_id));
  harness_target ←? from_option (Validation ("run '" +:+ id run +:+ "' names an unknown harness")) harness;
  targets ←? stored (call ListAllTargets);
  target ←? from_option (Validation ("run '" +:+ id run +:+ "' names an unknown target"))
              (List.find (fun c => String.eqb (target_id c) harness_target) targets);
  matches ← stored_project_matches (target_project_root target) (path_of (project_root run));
  if negb matches
  then mret (Err (Validation ("run '" +:+ id run +:+ "' target project does not match its retained project")))
  else
    selector ←? retained_run_target_selector run target;
    mret (Ok (path_of (project_root run), selector)).

(** ** Measuring *)
Definition over_budget : ClassifiedError := Sandbox "edge-set capture exceeded its 10-minute operation budget".
Record Replay := mkReplay { r_workspace : Path; r_binary : string; r_limits : ResourceLimits; r_sandbox : SandboxOptions; r_deadline : Z }.
Definition replay_args (c : Replay) (e : CorpusEntry) : list string :=
  build_showmap_args (r_binary c) (container_input_path (r_workspace c) (entry_path e)).
Fixpoint replay (c : Replay) (entries : list CorpusEntry) (set : EdgeSet.EdgeSet) (replayed : Z) : Fallible (EdgeSet.EdgeSet * Z) :=
  match entries with
  | [] => mret (Ok (set, replayed))
  | entry :: entries =>
      now ← call InstantNow;
      if r_deadline c <? now then mret (Err over_budget)
      else
        result ← call (RunCommandOpts (r_deadline c - now) (replay_args c entry) (r_workspace c) (r_limits c) (r_sandbox c));
        result ←? from_option over_budget result;
        result ←? mret result;
        result ←? mret (require_completed result "AFL++ edge-set capture");
        match Showmap.fold_showmap_into_edge_set set (stdout result) with
        | (set, Ok _) => replay c entries set (replayed + 1)
        | (_, Err e) => mret (Err e)
        end
  end.
Definition NANOS : Z := 10 ^ 9.
Definition measure_run_edge_set (run : RunRecord) (target : string) (resolved : ResolvedFuzzingRun) : Fallible RunEdgeSetRecord :=
  let named := "run '" +:+ id run +:+ "' " in
  workspace ← workspace_dir sha256_hex (path_of (project_root run)) target;
  corpus_dir ←? map_prog (fun _ => Validation (named +:+ "retained corpus directory is no longer staged"))
                  (resolve_workspace_directory workspace ["runs"%string; id run; "corpus"%string]);
  _ ←? run_binary_path sha256_hex workspace (id run) (binary_rev run) target;
  binary_sha256 ←? from_option (Validation (named +:+ "has no staged binary digest")) (binary_rev run);
  sandbox_rev ←? from_option (Validation (named +:+ "has no sandbox image identity")) (sandbox_rev run);
  image_digest ←? from_option (Validation (named +:+ "sandbox image identity is not content-addressed"))
                    (ErrorClassifier.strip_prefix SANDBOX_IMAGE_REV_PREFIX sandbox_rev);
  corpus ←? call (CorpusList corpus_dir);
  if bool_decide (corpus = []) then mret (Err (Validation (named +:+ "retained no corpus inputs to measure")))
  else if EDGE_SET_CAPTURE_MAX_INPUTS <? zlen corpus
  then mret (Err (Validation ("edge-set capture is limited to " +:+ pretty EDGE_SET_CAPTURE_MAX_INPUTS +:+ " corpus inputs; " +:+ named
                   +:+ "retained " +:+ pretty (zlen corpus))))
  else
    let entries := sort_by (fun l r => path_cmp (entry_path l) (entry_path r)) corpus in
    let binary_container := "/work/runs/" +:+ id run +:+ "/input/harness" in
    let limits := mkLimits (max_mem_mb resolved) (max_cpus resolved) (Z.min EDGE_SET_CAPTURE_COMMAND_SECS (duration_secs resolved)) false in
    let sandbox := mkSandbox (Some ("sha256:" +:+ image_digest)) true in
    now ← call InstantNow;
    let deadline := now + duration_secs resolved * NANOS in
    out ←? replay (mkReplay workspace binary_container limits sandbox deadline) entries EdgeSet.new 0;
    let '(set, replayed) := out in
    if EdgeSet.count set =? 0
    then mret (Err (Validation ("no replayed input of " +:+ named
           +:+ "produced a coverage edge; the run's binary is not AFL-instrumented or cannot execute its retained inputs")))
    else
      collected_at ← call UtcNow;
      mret (Ok (mkRunEdgeSetRecord (id run) binary_sha256 sandbox_rev replayed (EdgeSet.count set) (EdgeSet.as_bytes set) collected_at)).

(** ** The three ways to capture *)
Record RunEdgeSetCapture := mkCapture {
  c_run_id : string;
  c_binary_sha256 : string;
  c_inputs : Z;
  c_edges : Z;
  c_collected_at : Timestamp;
  already_retained : bool;
}.
Definition captured (i : string) (r : RunEdgeSetRecord) (already : bool) : RunEdgeSetCapture :=
  mkCapture i (binary_sha256 r) (inputs r) (edge_count r) (collected_at r) already.
Definition resolve_capture : Fallible ResolvedFuzzingRun := call (ResolveInternalRun AflPlusPlus EDGE_SET_CAPTURE_OPERATION_SECS).
Definition record (r : RunEdgeSetRecord) : Fallible unit := stored (call (RecordRunEdgeSet r)).
Definition capture_run_edge_set (i : string) : Fallible RunEdgeSetCapture :=
  _ ←? call AcquireWorkspaceOperation;
  _ ←? require_store "edge-set capture requires the persistent store";
  run ←? run_record i;
  match edge_set_capture_block run with
  | Some reason => mret (Err (Validation reason))
  | None =>
      existing ←? stored (call (ReadRunEdgeSet i));
      match existing with
      | Some existing => mret (Ok (captured i existing true))
      | None =>
          scope ←? run_capture_scope run;
          let '(project, target) := scope in
          resolved ←? resolve_capture;
          _ ←? call (Authorize "AFL++ showmap" (duration_secs resolved) "run_edge_set_capture" project);
          measured ←? measure_run_edge_set run target resolved;
          _ ←? record measured;
          mret (Ok (captured i measured false))
      end
  end.
(** At the end of a run: best effort, with failures in the journal. *)
Definition close_run_edge_set (run : RunRecord) (target : string) : Prog Service unit :=
  if negb (bool_decide (engine run = AflPlusPlus)) then mret tt
  else if negb has_store then mret tt
  else
    result ← (resolved ←? resolve_capture; measured ←? measure_run_edge_set run target resolved; record measured);
    match result with
    | Ok _ => mret tt
    | Err error => call (JournalNote (id run) "edge_set_capture_unavailable" (display_classified error))
    end.

(** A [match] that returns at once on an error. *)
Definition or_failed {A} (p : Fallible A) (k : A -> Prog Service RunCloseout.StepOutcome) : Prog Service RunCloseout.StepOutcome :=
  r ← p; match r with Ok a => k a | Err e => mret (RunCloseout.Failed (display_classified e)) end.
Definition closeout_edge_set (i target : string) : Prog Service RunCloseout.StepOutcome :=
  if negb has_store then mret (RunCloseout.Failed "no persistent store")
  else
    or_failed (run_record i) (fun run =>
      match edge_set_capture_block run with
      | Some reason => mret (RunCloseout.Skipped reason)
      | None =>
          retained ← call (ReadRunEdgeSet i);
          match retained with
          | Err e => mret (RunCloseout.Failed (Journal.display_storage_error e))
          | Ok (Some r) => mret (RunCloseout.Completed ("edge set retained: " +:+ pretty (edge_count r) +:+ " edges from " +:+ pretty (inputs r) +:+ " inputs"))
          | Ok None =>
              workspace ← workspace_dir sha256_hex (path_of (project_root run)) target;
              let run_root := workspace ++ ["runs"%string; i] in
              corpus ← call (IsDir (run_root ++ ["corpus"%string]));
              if negb corpus then mret (RunCloseout.Skipped "the run's retained corpus directory is no longer staged")
              else
                harness ← is_regular_file (run_root ++ ["input"%string; "harness"%string]);
                if negb harness then mret (RunCloseout.Skipped "the run's retained harness binary is no longer staged")
                else
                  or_failed resolve_capture (fun resolved =>
                  or_failed (call AcquireWorkspaceOperation) (fun _ =>
                  or_failed (measure_run_edge_set run target resolved) (fun r =>
                    let detail := "captured " +:+ pretty (edge_count r) +:+ " edges from " +:+ pretty (inputs r) +:+ " corpus inputs" in
                    out ← call (RecordRunEdgeSet r);
                    mret (match out with Ok _ => RunCloseout.Completed detail | Err e => RunCloseout.Failed (Journal.display_storage_error e) end))))
          end
      end).

(** ** Comparing two runs *)
Record CoverageDiffReport := mkReport {
  run_a : string;
  run_b : string;
  same_binary : bool;
  edges_a : Z;
  edges_b : Z;
  only_a : Z;
  only_b : Z;
  common : Z;
  union : Z;
  only_a_sample : list Z;
  only_b_sample : list Z;
  sample_cap : nat;
}.
Definition retained_set (i : string) : Fallible RunEdgeSetRecord :=
  r ←? stored (call (ReadRunEdgeSet i)); from_option (missing_edge_set i) r.
Definition coverage_diff (a b : string) : Fallible CoverageDiffReport :=
  if String.eqb a b then mret (Err (Validation "select two distinct runs"))
  else
    _ ←? require_store "coverage diff requires the persistent store";
    first ←? run_record a;
    second ←? run_record b;
    matches ← stored_project_matches (path_of (project_root first)) (path_of (project_root second));
    if negb matches then mret (Err (Validation "select two runs from the same project"))
    else
      set_a ←? retained_set a;
      set_b ←? retained_set b;
      map_a ←? mret (EdgeSet.from_bytes (edge_map set_a));
      map_b ←? mret (EdgeSet.from_bytes (edge_map set_b));
      let diff := EdgeSet.diff map_a map_b EDGE_DIFF_SAMPLE_CAP in
      mret (Ok (mkReport a b (String.eqb (binary_sha256 set_a) (binary_sha256 set_b)) (edge_count set_a) (edge_count set_b)
              (EdgeSet.only_a diff) (EdgeSet.only_b diff) (EdgeSet.common diff) (EdgeSet.union diff)
              (EdgeSet.only_a_sample diff) (EdgeSet.only_b_sample diff) EDGE_DIFF_SAMPLE_CAP)).
End capture.

(** ** What is recorded was measured *)
Abbreviation Calls := (Trace Service).
Implicit Types t : Calls.
Abbreviation Command := (list string * Path * SandboxOptions * option (Result ClassifiedError CommandResult))%type.
Definition command_of (e : Event Service) : option Command :=
  match asked e as op return Answer op -> option Command with
  | RunCommandOpts _ args workspace _ sandbox => fun answer => Some (args, workspace, sandbox, answer)
  | _ => fun _ => None
  end (answered e).
(** The commands run, each in the workspace mounted for it, with their outcomes. *)
Definition commands (t : Calls) := omap command_of t.
Definition busy (op : Op) : bool := match op with RunCommandOpts _ _ _ _ _ | RecordRunEdgeSet _ => true | _ => false end.
Definition asks (f : Op -> bool) (e : Event Service) : Prop := f (asked e) = true.
(** Nothing but operations that satisfy [f]. *)
Definition only {A} (f : Op -> bool) (p : Prog Service A) : Prop := ensures p (fun t _ => Forall (asks f) t).
Definition free (op : Op) : bool := negb (busy op).
Definition not_record (op : Op) : bool := match op with RecordRunEdgeSet _ => false | _ => true end.

Lemma commands_app t t' : commands (t ++ t') = commands t ++ commands t'.
Proof. apply omap_app. Qed.
Lemma commands_idle t : Forall (asks free) t -> commands t = [].
Proof.
  induction 1 as [|[op x] t Hb _ IH]; [done|]. unfold commands in *. cbn [omap list_omap]. rewrite IH. by destruct op.
Qed.
Lemma ensures_true {A} (p : Prog Service A) : ensures p (fun _ _ => True).
Proof. by intros t r _. Qed.
Lemma ensures_true_steps {A} (p : Prog Service A) (Q : Calls -> A -> Prop) : (forall t r, Q t r) -> ensures p Q.
Proof. intros HQ t r _. apply HQ. Qed.
Lemma ensures_try {A B} (k : A -> Fallible B) (p : Fallible A) (Q : Calls -> Result ClassifiedError B -> Prop) :
  ensures p (fun t r => match r with Ok a => ensures (k a) (fun t' b => Q (t ++ t') b) | Err e => Q t (Err e) end) ->
  ensures (x ←? p; k x) Q.
Proof.
  intros H. unfold try_bind. apply ensures_bind. eapply ensures_mono; [exact H|]. intros t [a|e] Hk; [done|].
  apply ensures_ret. by rewrite app_nil_r.
Qed.
(** When only success matters. *)
Lemma ensures_try_ok {A B} (k : A -> Fallible B) (p : Fallible A) (Q : Calls -> B -> Prop) :
  ensures p (fun t r => forall a, r = Ok a -> ensures (k a) (fun t' r' => forall b, r' = Ok b -> Q (t ++ t') b)) ->
  ensures (x ←? p; k x) (fun t r => forall b, r = Ok b -> Q t b).
Proof.
  intros H. apply ensures_try. eapply ensures_mono; [exact H|]. intros t [a|e] Hk; [by apply Hk|done].
Qed.
Lemma only_ret {A} f (a : A) : only f (mret a).
Proof. by apply ensures_ret. Qed.
Lemma only_call f op : f op = true -> only f (call op).
Proof. intros Hb. apply (ensures_ask (I := Service) op). intros x. by repeat constructor. Qed.
Lemma only_bind {A B} f (k : A -> Prog Service B) (p : Prog Service A) : only f p -> (forall a, only f (k a)) -> only f (p ≫= k).
Proof.
  intros Hp Hk. apply ensures_bind. eapply ensures_mono; [exact Hp|]. intros t a Ht.
  eapply ensures_mono; [apply Hk|]. intros t' b Ht'. by apply list.Forall_app.
Qed.
Lemma only_try {E A B} f (k : A -> Prog Service (Result E B)) (p : Prog Service (Result E A)) :
  only f p -> (forall a, only f (k a)) -> only f (x ←? p; k x).
Proof. intros Hp Hk. apply only_bind; [done|]. intros [a|e]; [apply Hk|apply only_ret]. Qed.
Lemma only_map {E F A} f (g : E -> F) (p : Prog Service (Result E A)) : only f p -> only f (map_prog g p).
Proof. intros Hp. apply only_bind; [done|]. intros r. apply only_ret. Qed.
Lemma only_weaken {A} f g (p : Prog Service A) : (forall op, f op = true -> g op = true) -> only f p -> only g p.
Proof. intros Hfg Hp. eapply ensures_mono; [exact Hp|]. intros t r Ht. eapply list.Forall_impl; [exact Ht|]. intros e. apply Hfg. Qed.
Lemma free_not_record op : free op = true -> not_record op = true.
Proof. by destruct op. Qed.
Ltac only_step :=
  match goal with
  | |- only _ (mret _) => apply only_ret
  | |- only ?f (call ?op) => exact (only_call f op eq_refl)
  | |- only _ (from_option _ _) => apply only_ret
  | |- only _ (require_store _ _) => apply only_ret
  | |- only _ (map_prog _ _) => apply only_map
  | |- only _ (stored _) => apply only_map
  | |- only _ (try_bind _ _) => apply only_try; [|intros ?]
  | |- only _ (_ ≫= _) => apply only_bind; [|intros ?]
  | |- only _ (match ?x with _ => _ end) => destruct x
  | |- only ?f (canonicalize ?p) => exact (only_call f (Canonicalize p) eq_refl)
  | |- only ?f (symlink_metadata ?p) => exact (only_call f (SymlinkMetadata p) eq_refl)
  | |- only ?f (sha256_file ?p) => exact (only_call f (Sha256File p) eq_refl)
  | |- only ?f workspace_root => exact (only_call f WorkspaceRoot eq_refl)
  end.
Ltac only_tac := repeat only_step.
Abbreviation idle p := (only free p).

Section measuring.
Context (has_store : bool) (sha256_hex : string -> string).

Lemma idle_workspace_dir project target : idle (workspace_dir sha256_hex project target).
Proof. unfold workspace_dir, project_slug. only_tac. Qed.
Lemma idle_walk relative : forall current, idle (walk_directories current relative).
Proof. induction relative as [|name relative IH]; intros current; cbn [walk_directories]; only_tac. apply IH. Qed.
Lemma idle_resolve workspace relative : idle (resolve_workspace_directory workspace relative).
Proof. unfold resolve_workspace_directory. only_tac. apply idle_walk. Qed.
Lemma idle_regular p : idle (is_regular_file p).
Proof. unfold is_regular_file. only_tac. Qed.
Lemma idle_binary workspace i rev target : idle (run_binary_path sha256_hex workspace i rev target).
Proof. unfold run_binary_path. only_tac. apply idle_regular. Qed.
Lemma idle_matches a b : idle (stored_project_matches a b).
Proof. unfold stored_project_matches. only_tac. Qed.
Lemma idle_run_record i : idle (run_record has_store i).
Proof. unfold run_record. only_tac. Qed.
Lemma idle_selector corpus project selectors : idle (selector_of sha256_hex corpus project selectors).
Proof. induction selectors as [|s ss IH]; cbn [selector_of]; only_tac; [apply idle_workspace_dir|done]. Qed.
Lemma idle_scope run : idle (run_capture_scope has_store sha256_hex run).
Proof.
  unfold run_capture_scope, retained_run_target_selector. only_tac; [apply idle_matches|apply idle_selector].
Qed.

(** ** One replay per input *)
Definition completed (r : CommandResult) : Prop := termination r = Completed.
Definition shown_by (outs : list CommandResult) (e : Z) : Prop := exists out, out ∈ outs /\ Showmap.edge_shown (stdout out) e.
Definition ran (c : Replay) (e : CorpusEntry) (r : CommandResult) : Command :=
  (replay_args c e, r_workspace c, r_sandbox c, Some (Ok r)).
Definition replayed_all (c : Replay) (entries : list CorpusEntry) (outs : list CommandResult) (t : Calls) : Prop :=
  commands t = zip_with (ran c) entries outs /\ length outs = length entries /\ Forall completed outs.
(** A replay that went through: its commands, how many, and the edges of the set. *)
Definition replay_done (c : Replay) (entries : list CorpusEntry) (set : EdgeSet.EdgeSet) (n : Z) (t : Calls) (b : EdgeSet.EdgeSet * Z) : Prop :=
  exists outs, replayed_all c entries outs t /\ b.2 = n + zlen entries /\ EdgeSet.wf b.1 /\
    forall e, 0 <= e < EdgeSet.EDGE_SET_CAPACITY -> EdgeSet.contains b.1 e = true <-> EdgeSet.contains set e = true \/ shown_by outs e.
Lemma replay_done_cons c entry entries set set' n now remaining result t b :
  completed result -> Showmap.fold_showmap_into_edge_set set (stdout result) = (set', Ok tt) -> EdgeSet.wf set ->
  replay_done c entries set' (n + 1) t b ->
  replay_done c (entry :: entries) set n
    ([mkEvent (I := Service) InstantNow now] ++
      ([mkEvent (I := Service) (RunCommandOpts remaining (replay_args c entry) (r_workspace c) (r_limits c) (r_sandbox c)) (Some (Ok result))] ++ t)) b.
Proof.
  intros Hcomp Hf Hwf (outs & (Hc & Hl & Hall) & Hn & Hwfb & Hcont). pose proof (Showmap.fold_showmap_spec set (stdout result) Hwf) as Hfold.
  rewrite Hf in Hfold. destruct Hfold as (Hwf' & Hin & _). exists (result :: outs). split; [split; [|split]|].
  - cbn [zip_with]. rewrite <- Hc. reflexivity.
  - cbn. by rewrite Hl.
  - by constructor.
  - split; [rewrite Hn, zlen_cons; lia|]. split; [done|]. intros e He. rewrite (Hcont e He), (Hin eq_refl e He). unfold shown_by.
    setoid_rewrite elem_of_cons. naive_solver.
Qed.
Lemma replay_spec c entries : forall set n, EdgeSet.wf set ->
  ensures (replay c entries set n) (fun t r => forall b, r = Ok b -> replay_done c entries set n t b).
Proof.
  induction entries as [|entry entries IH]; intros set n Hwf; cbn [replay].
  - apply ensures_ret. intros b [= <-]. exists []. split; [split; [done|split; [done|constructor]]|].
    split; [unfold zlen; cbn; lia|]. split; [done|].
    intros e _. split; [by left|]. by intros [?|(out & ?%not_elem_of_nil & _)].
  - apply ensures_bind, (ensures_ask (I := Service) InstantNow). intros now.
    destruct (r_deadline c <? now); [by apply ensures_ret|].
    apply ensures_bind. refine (ensures_ask (I := Service) (RunCommandOpts _ _ _ _ _) _ _). intros answer.
    refine (ensures_try_ok _ _ (fun t b => replay_done _ _ _ _ (_ ++ (_ ++ t)) b) _). apply ensures_ret. intros answer' Hans.
    destruct answer as [answer|]; [|done]. injection Hans as <-.
    refine (ensures_try_ok _ _ (fun t b => replay_done _ _ _ _ (_ ++ (_ ++ t)) b) _). apply ensures_ret. intros result ->.
    refine (ensures_try_ok _ _ (fun t b => replay_done _ _ _ _ (_ ++ (_ ++ t)) b) _). apply ensures_ret. intros result' Hres.
    unfold require_completed in Hres. destruct (termination result) eqn:Et; [|done..]. injection Hres as <-.
    destruct (Showmap.fold_showmap_into_edge_set set (stdout result)) as [set' [[]|e]] eqn:Ef; [|by apply ensures_ret].
    pose proof (Showmap.fold_showmap_spec set (stdout result) Hwf) as Hfold. rewrite Ef in Hfold. destruct Hfold as (Hwf' & _).
    eapply ensures_mono; [apply (IH set' (n + 1) Hwf')|]. intros t r Hr b Hb. eapply replay_done_cons; [done|done|done|by apply Hr].
Qed.

(** ** A measurement *)
(** What was asked, and answered so. *)
Definition told (t : Calls) (op : Op) (x : Answer op) : Prop := mkEvent (I := Service) op x ∈ t.
Definition performed {A} (t : Calls) (p : Prog Service A) (x : A) : Prop := exists t1 t2 t3, t = t1 ++ t2 ++ t3 /\ Interaction.runs p t2 x.
(** A path below a directory, as it is found: the directory resolved to [root], and the
    path, resolved again, still below it. *)
Record Found := mkFound { f_root : Path; f_path : Path }.
Definition found (t : Calls) (workspace relative : Path) (f : Found) : Prop :=
  told t (Canonicalize workspace) (Ok (f_root f)) /\ told t (Canonicalize (f_root f ++ relative)) (Ok (f_path f)) /\
  path_starts_with (f_path f) (f_root f) = true.
Definition corpus_at (run : RunRecord) : Path := ["runs"%string; id run; "corpus"%string].
Definition harness_at (i : string) : Path := ["runs"%string; i; "input"%string; "harness"%string].
(** The corpus a run retains in the workspace of its target, no component of its path a
    link, and the harness it was measured with, whose digest is the run's. *)
Definition staged (t : Calls) (run : RunRecord) (target : string) (workspace : Path) (corpus harness : Found) (digest : string) : Prop :=
  performed t (workspace_dir sha256_hex (path_of (project_root run)) target) workspace /\
  found t workspace (corpus_at run) corpus /\
  (forall n, (0 < n <= 3)%nat -> told t (SymlinkMetadata (f_root corpus ++ take n (corpus_at run))) (Ok Directory)) /\
  found t workspace (harness_at (id run)) harness /\ told t (SymlinkMetadata (f_root harness ++ harness_at (id run))) (Ok Regular) /\
  told t (Sha256File (f_path harness)) (Ok digest).
(** The file the command is given is the input itself, where the workspace is mounted. *)
Definition in_place (workspace : Path) (e : CorpusEntry) : Prop :=
  exists relative, entry_path e = workspace ++ relative /\ container_input_path workspace (entry_path e) = "/work/" +:+ posix_relative relative.
(** What a run did when it measured: it listed the run's own corpus, ran one command
    for every input listed, in the order of their paths, on the run's own harness, in
    the mounted workspace and the image that is recorded, and the set is exactly what
    these commands showed.  The commands are given the inputs in place where the
    workspace is its own resolution; where a link leads to it they are not, because the
    corpus is listed under its resolved path ([linked_root_loses_inputs]). *)
Definition measured (t : Calls) (run : RunRecord) (target : string) (r : RunEdgeSetRecord) : Prop :=
  exists c at_corpus at_harness corpus outs digest,
    staged t run target (r_workspace c) at_corpus at_harness (binary_sha256 r) /\
    told t (CorpusList (f_path at_corpus)) (Ok corpus) /\ corpus <> [] /\ zlen corpus <= EDGE_SET_CAPTURE_MAX_INPUTS /\
    replayed_all c (sort_by (fun l r => path_cmp (entry_path l) (entry_path r)) corpus) outs t /\
    (f_root at_corpus = r_workspace c -> Forall (fun e => path_starts_with (entry_path e) (f_path at_corpus) = true) corpus ->
       Forall (in_place (r_workspace c)) corpus) /\
    r_binary c = "/work/runs/" +:+ id run +:+ "/input/harness" /\
    r_sandbox c = mkSandbox (Some ("sha256:" +:+ digest)) true /\ set_sandbox_rev r = SANDBOX_IMAGE_REV_PREFIX +:+ digest /\
    run_id r = id run /\ binary_rev run = Some (binary_sha256 r) /\ sandbox_rev run = Some (set_sandbox_rev r) /\
    inputs r = zlen corpus /\ EdgeSet.wf (EdgeSet.mkEdgeSet (edge_map r)) /\
    edge_count r = EdgeSet.count (EdgeSet.mkEdgeSet (edge_map r)) /\ edge_count r <> 0 /\
    forall e, 0 <= e < EdgeSet.EDGE_SET_CAPACITY -> EdgeSet.contains (EdgeSet.mkEdgeSet (edge_map r)) e = true <-> shown_by outs e.
Lemma told_left t u op x : told t op x -> told (t ++ u) op x.
Proof. intros H. apply elem_of_app. by left. Qed.
Lemma told_right t u op x : told u op x -> told (t ++ u) op x.
Proof. intros H. apply elem_of_app. by right. Qed.
Lemma told_one op x : told [mkEvent (I := Service) op x] op x.
Proof. left. Qed.
Lemma found_left t u w rel f : found t w rel f -> found (t ++ u) w rel f.
Proof. intros (H1 & H2 & H3). split; [by apply told_left|]. split; [by apply told_left|done]. Qed.
Lemma found_right t u w rel f : found u w rel f -> found (t ++ u) w rel f.
Proof. intros (H1 & H2 & H3). split; [by apply told_right|]. split; [by apply told_right|done]. Qed.
Lemma performed_left {A} t u (p : Prog Service A) x : performed t p x -> performed (t ++ u) p x.
Proof. intros (t1 & t2 & t3 & -> & H). exists t1, t2, (t3 ++ u). by rewrite <- !app_assoc. Qed.
Lemma performed_right {A} t u (p : Prog Service A) x : performed u p x -> performed (t ++ u) p x.
Proof. intros (t1 & t2 & t3 & -> & H). exists (t ++ t1), t2, t3. by rewrite <- !app_assoc. Qed.
Lemma measured_after t0 t run target r : commands t0 = [] -> measured t run target r -> measured (t0 ++ t) run target r.
Proof.
  intros H0 (c & ac & ah & corpus & outs & digest & (Hw & Hc & Hd & Hh & Hf & Hs) & Hl & Hne & Hmax & (Hr & Hr') & Hm).
  exists c, ac, ah, corpus, outs, digest. split.
  { split; [by apply performed_right|]. split; [by apply found_right|]. split; [intros n Hn; by apply told_right, Hd|].
    split; [by apply found_right|]. split; by apply told_right. }
  split; [by apply told_right|]. split; [done|]. split; [done|]. split; [|done]. split; [by rewrite commands_app, H0|done].
Qed.
(** Steps of a program of which success matters. *)
Lemma try_idle {A B} (k : A -> Fallible B) (p : Fallible A) (Q : Calls -> B -> Prop) : idle p ->
  (forall t a, commands t = [] -> ensures (k a) (fun t' r' => forall b, r' = Ok b -> Q (t ++ t') b)) ->
  ensures (x ←? p; k x) (fun t r => forall b, r = Ok b -> Q t b).
Proof.
  intros Hp Hk. apply ensures_try_ok. eapply ensures_mono; [exact Hp|]. intros t r Ht a _. by apply Hk, commands_idle.
Qed.
Lemma try_pure {A B} (k : A -> Fallible B) (r : Result ClassifiedError A) (Q : Calls -> B -> Prop) :
  (forall a, r = Ok a -> ensures (k a) (fun t' r' => forall b, r' = Ok b -> Q t' b)) ->
  ensures (x ←? mret r; k x) (fun t r => forall b, r = Ok b -> Q t b).
Proof. intros Hk. apply ensures_try_ok, ensures_ret. intros a Ha. by apply Hk. Qed.
Lemma bind_idle {A B} (k : A -> Fallible B) (p : Prog Service A) (Q : Calls -> B -> Prop) : idle p ->
  (forall t a, commands t = [] -> ensures (k a) (fun t' r' => forall b, r' = Ok b -> Q (t ++ t') b)) ->
  ensures (p ≫= k) (fun t r => forall b, r = Ok b -> Q t b).
Proof.
  intros Hp Hk. apply ensures_bind. eapply ensures_mono; [exact Hp|]. intros t a Ht. by apply Hk, commands_idle.
Qed.
(** Looking at files. *)
Lemma told_canonicalize (f : string -> ClassifiedError) p :
  ensures (map_prog f (call (Canonicalize p))) (fun t r => forall q, r = Ok q -> commands t = [] /\ told t (Canonicalize p) (Ok q)).
Proof.
  unfold map_prog. apply ensures_bind. refine (ensures_ask (I := Service) (Canonicalize p) _ _). intros [q|e]; apply ensures_ret; [|done].
  intros q' [= <-]. split; [done|left].
Qed.
Lemma told_metadata (f : string -> ClassifiedError) p :
  ensures (map_prog f (call (SymlinkMetadata p))) (fun t r => forall k, r = Ok k -> commands t = [] /\ told t (SymlinkMetadata p) (Ok k)).
Proof.
  unfold map_prog. apply ensures_bind. refine (ensures_ask (I := Service) (SymlinkMetadata p) _ _). intros [q|e]; apply ensures_ret; [|done].
  intros q' [= <-]. split; [done|left].
Qed.
Lemma told_regular p : ensures (is_regular_file p) (fun t r => commands t = [] /\ (r = true -> told t (SymlinkMetadata p) (Ok Regular))).
Proof.
  unfold is_regular_file. apply ensures_bind. refine (ensures_ask (I := Service) (SymlinkMetadata p) _ _). intros [k|e]; apply ensures_ret; [|done].
  split; [done|]. intros ->%bool_decide_eq_true_1. left.
Qed.
Definition walked (current relative : Path) (t : Calls) (d : Path) : Prop :=
  commands t = [] /\ d = current ++ relative /\ forall n, (0 < n <= length relative)%nat -> told t (SymlinkMetadata (current ++ take n relative)) (Ok Directory).
Lemma walk_told relative : forall current, ensures (walk_directories current relative) (fun t r => forall d, r = Ok d -> walked current relative t d).
Proof.
  induction relative as [|name relative IH]; intros current; cbn [walk_directories].
  - apply ensures_ret. intros d [= <-]. split; [done|]. split; [by rewrite app_nil_r|]. cbn. lia.
  - refine (ensures_try_ok _ _ (walked current (name :: relative)) _). eapply ensures_mono; [apply told_metadata|]. intros t r Ht k Hk.
    destruct (Ht k Hk) as [Hc Hm]. case_bool_decide as Ek; [|by apply ensures_ret]. subst k. eapply ensures_mono; [apply IH|].
    intros t' r' Hr' d Hd. destruct (Hr' d Hd) as (Hc' & -> & Hn). split; [by rewrite commands_app, Hc, Hc'|]. split; [by rewrite <- app_assoc|].
    intros [|n] Hlen; [lia|]. cbn [take firstn]. destruct n as [|n]; [by apply told_left|]. apply told_right.
    specialize (Hn (S n)). rewrite <- app_assoc in Hn. apply Hn. cbn in Hlen. lia.
Qed.
Definition resolved_at (workspace relative : Path) (t : Calls) (d : Path) : Prop :=
  commands t = [] /\ exists f, f_path f = d /\ found t workspace relative f /\
    forall n, (0 < n <= length relative)%nat -> told t (SymlinkMetadata (f_root f ++ take n relative)) (Ok Directory).
Lemma resolve_told workspace relative :
  ensures (resolve_workspace_directory workspace relative) (fun t r => forall d, r = Ok d -> resolved_at workspace relative t d).
Proof.
  unfold resolve_workspace_directory. destruct (_ || _ || _); [by apply ensures_ret|].
  refine (ensures_try_ok _ _ (resolved_at workspace relative) _). eapply ensures_mono; [apply told_canonicalize|]. intros t1 r1 H1 root Er.
  destruct (H1 root Er) as [C1 T1]. refine (ensures_try_ok _ _ (fun t => resolved_at workspace relative (t1 ++ t)) _).
  eapply ensures_mono; [apply walk_told|]. intros t2 r2 H2 current Ec. destruct (H2 current Ec) as (C2 & -> & T2).
  refine (ensures_try_ok _ _ (fun t => resolved_at workspace relative (t1 ++ t2 ++ t)) _).
  eapply ensures_mono; [apply told_canonicalize|]. intros t3 r3 H3 d Ed. destruct (H3 d Ed) as [C3 T3].
  destruct (path_starts_with d root) eqn:Es; [|by apply ensures_ret]. apply ensures_ret. intros d' [= <-].
  split; [by rewrite !commands_app, C1, C2, C3|]. exists (mkFound root d). cbn [f_path f_root]. split; [done|]. rewrite app_nil_r. split.
  - split; [by apply told_left|]. split; [by do 2 apply told_right|done].
  - intros n Hn. apply told_right, told_left, T2, Hn.
Qed.
(** The binary that is replayed has the digest the run retained. *)
Definition binary_checked (workspace : Path) (i : string) (rev : option string) (t : Calls) (p : Path) : Prop :=
  commands t = [] /\ forall d, rev = Some d -> exists f, f_path f = p /\ found t workspace (harness_at i) f /\
    told t (SymlinkMetadata (f_root f ++ harness_at i)) (Ok Regular) /\ told t (Sha256File p) (Ok d).
Lemma binary_digest workspace i rev target :
  ensures (run_binary_path sha256_hex workspace i rev target)
    (fun t r => forall p, r = Ok p -> binary_checked workspace i rev t p).
Proof.
  unfold run_binary_path. set (relative := match rev with Some _ => _ | None => _ end).
  assert (Hrel : forall d, rev = Some d -> relative = harness_at i) by (unfold relative; by intros d ->).
  clearbody relative. destruct (_ || _); [by apply ensures_ret|].
  refine (ensures_try_ok _ _ (binary_checked workspace i rev) _). eapply ensures_mono; [apply told_canonicalize|]. intros t1 r1 H1 root Er.
  destruct (H1 root Er) as [C1 T1]. apply ensures_bind. eapply ensures_mono; [apply told_regular|]. intros t2 regular [C2 T2].
  destruct regular; [|by apply ensures_ret]. specialize (T2 eq_refl).
  refine (ensures_try_ok _ _ (fun t => binary_checked workspace i rev (t1 ++ t2 ++ t)) _).
  eapply ensures_mono; [apply told_canonicalize|]. intros t3 r3 H3 p Ep. destruct (H3 p Ep) as [C3 T3].
  destruct (path_starts_with p root) eqn:Es; [|by apply ensures_ret]. destruct rev as [expected|].
  - apply ensures_try. refine (ensures_ask (I := Service) (Sha256File _) _ _). intros [actual|e]; [|done].
    destruct (String.eqb actual expected) eqn:E; [|by apply ensures_ret]. apply String.eqb_eq in E as ->. apply ensures_ret. intros p' [= <-].
    split; [by rewrite !commands_app, C1, C2, C3|]. intros d [= <-]. exists (mkFound root p). cbn [f_path f_root]. rewrite app_nil_r, <- (Hrel _ eq_refl).
    split; [done|]. split; [split; [by apply told_left|]; split; [by do 2 apply told_right; apply told_left|done]|].
    split; [by apply told_right, told_left|]. do 3 apply told_right. apply told_one.
  - apply ensures_ret. intros p' [= <-]. split; [by rewrite !commands_app, C1, C2, C3|done].
Qed.
Lemma prefix_split p s : String.prefix p s = true -> exists d, s = p +:+ d.
Proof.
  revert s. induction p as [|c p IH]; intros s E; [by exists s|]. destruct s as [|a s]; [done|]. cbn in E.
  destruct (Ascii.ascii_dec c a) as [->|]; [|done]. destruct (IH s E) as [d ->]. by exists d.
Qed.
Lemma strip_prefix_split p s d : ErrorClassifier.strip_prefix p s = Some d -> s = p +:+ d.
Proof.
  intros Hs. destruct (String.prefix p s) eqn:E; [|unfold ErrorClassifier.strip_prefix in Hs; by rewrite E in Hs].
  apply prefix_split in E as [r ->]. rewrite ErrorClassifier.strip_prefix_app in Hs. by injection Hs as ->.
Qed.
Lemma below_corpus run workspace f t corpus : found t workspace (corpus_at run) f -> f_root f = workspace ->
  Forall (fun e => path_starts_with (entry_path e) (f_path f) = true) corpus -> Forall (in_place workspace) corpus.
Proof.
  intros (_ & _ & Hs) Hroot Hall. eapply list.Forall_impl; [exact Hall|]. intros e He. cbn in He.
  apply path_starts_with_spec in Hs as [u Hu], He as [v Hv]. rewrite Hu, Hroot in Hv. exists (u ++ v). rewrite Hv, <- app_assoc.
  split; [done|apply container_path_below].
Qed.
Theorem measure_spec run target resolved :
  ensures (measure_run_edge_set sha256_hex run target resolved) (fun t r => forall b, r = Ok b -> measured t run target b).
Proof.
  unfold measure_run_edge_set. apply ensures_bind. eapply ensures_mono with (P := fun t w => Interaction.runs (workspace_dir sha256_hex (path_of (project_root run)) target) t w /\ commands t = []).
  { intros t w Hr. split; [exact Hr|]. apply commands_idle. exact (idle_workspace_dir (path_of (project_root run)) target t w Hr). }
  intros t1 workspace [R1 C1].
  refine (ensures_try_ok _ _ (fun t b => measured (t1 ++ t) run target b) _).
  eapply ensures_mono with (P := fun t r => forall d, r = Ok d -> resolved_at workspace (corpus_at run) t d).
  { unfold map_prog. apply ensures_bind. eapply ensures_mono; [apply resolve_told|]. intros t [d|e] Hd; apply ensures_ret; [|done].
    rewrite app_nil_r. exact Hd. }
  intros t2 r2 H2 corpus_dir E2. destruct (H2 corpus_dir E2) as [C2 (fc & Hfc & Fc & Dc)].
  refine (ensures_try_ok _ _ (fun t b => measured (t1 ++ t2 ++ t) run target b) _). eapply ensures_mono; [apply binary_digest|].
  intros t3 r3 H3 file E3. destruct (H3 file E3) as [C3 Hbin]. clear H2 E2 H3 E3 r2 r3.
  refine (try_pure _ _ (fun t b => measured (t1 ++ t2 ++ t3 ++ t) run target b) _). intros binary Hb.
  refine (try_pure _ _ (fun t b => measured (t1 ++ t2 ++ t3 ++ t) run target b) _). intros rev Hrev.
  refine (try_pure _ _ (fun t b => measured (t1 ++ t2 ++ t3 ++ t) run target b) _). intros digest Hd.
  apply ok_or_Ok in Hb, Hrev, Hd. apply strip_prefix_split in Hd. destruct (Hbin binary Hb) as (fh & Hfh & Fh & Rh & Sh). clear Hbin. subst corpus_dir file.
  apply ensures_try_ok. refine (ensures_ask (I := Service) (CorpusList (f_path fc)) _ _). intros listed corpus ->.
  case_bool_decide as Hne; [by apply ensures_ret|]. destruct (EDGE_SET_CAPTURE_MAX_INPUTS <? zlen corpus) eqn:Emax; [by apply ensures_ret|].
  apply ensures_bind. refine (ensures_ask (I := Service) InstantNow _ _). intros now.
  refine (ensures_try_ok _ _ (fun t b => measured (t1 ++ t2 ++ t3 ++ (_ ++ (_ ++ t))) run target b) _).
  eapply ensures_mono; [apply replay_spec, EdgeSet.empty_wf|].
  intros t4 r Hr [set n] Hok. destruct (Hr _ Hok) as (outs & (Hc & Hl & Hall) & Hn & Hwf & Hcont). cbn [fst snd] in *. clear Hr Hok.
  destruct (EdgeSet.count set =? 0) eqn:E0; [by apply ensures_ret|].
  apply ensures_bind. refine (ensures_ask (I := Service) UtcNow _ _). intros collected. apply ensures_ret. intros b [= <-].
  match type of Hc with _ = zip_with (ran ?c) _ _ => exists c end. exists fc, fh, corpus, outs, digest. cbn [r_workspace]. split.
  { split; [apply performed_left; exists [], t1, []; by rewrite app_nil_r|]. split; [by apply found_right, found_left|].
    split; [intros k Hk; by apply told_right, told_left, Dc|]. split; [by do 2 apply found_right; apply found_left|].
    split; [by do 2 apply told_right; apply told_left|by do 2 apply told_right; apply told_left]. }
  cbn [r_workspace r_binary r_sandbox run_id binary_sha256 set_sandbox_rev inputs edge_count edge_map collected_at].
  split; [do 3 apply told_right; left|]. split; [done|]. split; [lia|]. split.
  { split; [|done]. rewrite !commands_app, C1, C2, C3, Hc. cbn [app]. by rewrite app_nil_r. }
  split; [by eapply below_corpus|]. do 3 (split; [done|]). split; [exact eq_refl|]. split; [exact Hb|]. split; [exact Hrev|].
  split; [rewrite Hn; unfold zlen; by rewrite sort_by_perm|]. split; [destruct set; exact Hwf|]. split; [destruct set; exact eq_refl|]. split; [by apply Z.eqb_neq|].
  intros e He. destruct set. rewrite (Hcont e He). split; [|by right]. intros [Hf|Hs]; [|done]. by rewrite EdgeSet.contains_new in Hf.
Qed.

(** ** Captures *)
Lemma always_only {A} f (p : Prog Service A) P before : only f p -> (forall t e, asks f e -> P (before ++ t) e) -> always P before p.
Proof.
  intros Hp HP t r Hr t1 e t2 ->. apply HP. pose proof (Hp _ _ Hr) as Hall. apply list.Forall_app in Hall as [_ Hall].
  by inversion Hall.
Qed.
Lemma always_try {A B} (k : A -> Fallible B) (p : Fallible A) P before :
  always P before p -> ensures p (fun t r => forall a, r = Ok a -> always P (before ++ t) (k a)) -> always P before (x ←? p; k x).
Proof.
  intros Hp Hk. apply always_bind; [done|]. eapply ensures_mono; [exact Hk|]. intros t [a|e] Ha; [by apply Ha|apply always_ret].
Qed.
Lemma always_or_failed {A} (k : A -> Prog Service RunCloseout.StepOutcome) (p : Fallible A) P before :
  always P before p -> ensures p (fun t r => forall a, r = Ok a -> always P (before ++ t) (k a)) -> always P before (or_failed p k).
Proof.
  intros Hp Hk. apply always_bind; [done|]. eapply ensures_mono; [exact Hk|]. intros t [a|e] Ha; [by apply Ha|apply always_ret].
Qed.
Lemma record_asked i : ensures (run_record has_store i) (fun t r => commands t = [] /\ forall run, r = Ok run -> mkEvent (I := Service) (GetRun i) (Ok (Some run)) ∈ t).
Proof.
  apply ensures_and; [eapply ensures_mono; [apply idle_run_record|]; intros; by apply commands_idle|].
  unfold run_record. refine (try_pure _ _ (fun t run => mkEvent (I := Service) (GetRun i) (Ok (Some run)) ∈ t) _). intros _ _.
  apply ensures_try_ok. unfold stored, map_prog. apply ensures_bind. refine (ensures_ask (I := Service) (GetRun i) _ _). intros [found|e].
  - apply ensures_ret. intros found' [= <-]. apply ensures_ret. intros run Hrun%ok_or_Ok. rewrite Hrun. cbn. left.
  - by apply ensures_ret.
Qed.
Lemma only_measure run target resolved : only not_record (measure_run_edge_set sha256_hex run target resolved).
Proof.
  assert (Hreplay : forall c entries set n, only not_record (replay c entries set n)).
  { intros c entries. induction entries as [|e entries IH]; intros set n; cbn [replay]; only_tac. apply IH. }
  unfold measure_run_edge_set. only_tac; try apply Hreplay; eapply only_weaken;
    [apply free_not_record|apply idle_workspace_dir|apply free_not_record|apply idle_resolve|apply free_not_record|apply idle_binary].
Qed.

Definition read_absent (i : string) (t : Calls) : Prop := mkEvent (I := Service) (ReadRunEdgeSet i) (Ok None) ∈ t.
Definition approved (t : Calls) : Prop :=
  exists secs project, mkEvent (I := Service) (Authorize "AFL++ showmap" secs "run_edge_set_capture" project) (Ok tt) ∈ t.
(** A run that may be captured, and of which nothing is retained. *)
Definition capturable (i : string) (run : RunRecord) (t : Calls) : Prop :=
  mkEvent (I := Service) (GetRun i) (Ok (Some run)) ∈ t /\ edge_set_capture_block run = None /\ read_absent i t.
(** What may be asked of the sandbox and of the store to capture the edges of [i]. *)
(** The target is the one given, or else the run's own, and then the operator approves. *)
Definition targeted (run : RunRecord) (given : option string) (before : Calls) (target : string) : Prop :=
  match given with
  | Some given => target = given
  | None => exists project, performed before (run_capture_scope has_store sha256_hex run) (Ok (project, target))
  end.
Definition capture_step (i : string) (given : option string) (before : Calls) (e : Event Service) : Prop :=
  match asked e with
  | RecordRunEdgeSet r => exists run target, capturable i run before /\ targeted run given before target /\ measured before run target r
  | RunCommandOpts _ _ _ _ _ => (exists run, capturable i run before) /\ (given = None -> approved before)
  | _ => True
  end.
Lemma targeted_app run given t t' target : targeted run given t target -> targeted run given (t ++ t') target.
Proof. destruct given; [done|]. intros (p & Hp). exists p. by apply performed_left. Qed.
Lemma capturable_app i run t t' : capturable i run t -> capturable i run (t ++ t').
Proof. intros (Hg & Hb & Hr). split_and!; [apply elem_of_app; by left|done|apply elem_of_app; by left]. Qed.
Lemma approved_app t t' : approved t -> approved (t ++ t').
Proof. intros (secs & project & Ha). exists secs, project. apply elem_of_app. by left. Qed.
Lemma idle_steps {A} i given before (p : Prog Service A) : idle p -> always (capture_step i given) before p.
Proof. intros Hp. eapply always_only; [exact Hp|]. intros t [op x] Hop. by destruct op. Qed.
Lemma measure_steps i given before run target resolved : capturable i run before -> (given = None -> approved before) ->
  always (capture_step i given) before (measure_run_edge_set sha256_hex run target resolved).
Proof.
  intros Hc Ha. eapply always_only; [apply only_measure|]. intros t [op x] Hop. destruct op; try done.
  split; [exists run; by apply capturable_app|]. intros Hg. by apply approved_app, Ha.
Qed.
Lemma record_steps i given before run target r : capturable i run before -> targeted run given before target -> measured before run target r ->
  always (capture_step i given) before (call (RecordRunEdgeSet r)).
Proof. intros Hc Ht Hm. apply (always_ask (I := Service) (RecordRunEdgeSet r)). intros x. by exists run, target. Qed.
(** The first steps: an idle program, and then a run with nothing retained. *)
Lemma always_idle_try {A B} i given (k : A -> Fallible B) (p : Fallible A) before : idle p ->
  (forall t a, commands t = [] -> always (capture_step i given) (before ++ t) (k a)) -> always (capture_step i given) before (x ←? p; k x).
Proof.
  intros Hp Hk. apply always_try; [by apply idle_steps|]. eapply ensures_mono; [exact Hp|]. intros t r Ht a _. by apply Hk, commands_idle.
Qed.
Lemma always_idle_bind {A B} i given (k : A -> Prog Service B) (p : Prog Service A) before : idle p ->
  (forall t a, commands t = [] -> always (capture_step i given) (before ++ t) (k a)) -> always (capture_step i given) before (p ≫= k).
Proof.
  intros Hp Hk. apply always_bind; [by apply idle_steps|]. eapply ensures_mono; [exact Hp|]. intros t a Ht. by apply Hk, commands_idle.
Qed.
Lemma always_idle_or_failed {A} i given (k : A -> Prog Service RunCloseout.StepOutcome) (p : Fallible A) before : idle p ->
  (forall t a, commands t = [] -> always (capture_step i given) (before ++ t) (k a)) -> always (capture_step i given) before (or_failed p k).
Proof.
  intros Hp Hk. apply always_idle_bind; [done|]. intros t [a|e] Ht; [by apply Hk|apply always_ret].
Qed.
(** Past the reading: scope, limits, approval, measurement, recording. *)
Lemma capture_rest i run before : capturable i run before -> commands before = [] ->
  always (capture_step i None) before
    (scope ←? run_capture_scope has_store sha256_hex run;
     let '(project, target) := scope in
     resolved ←? resolve_capture;
     _ ←? call (Authorize "AFL++ showmap" (duration_secs resolved) "run_edge_set_capture" project);
     measured ←? measure_run_edge_set sha256_hex run target resolved;
     _ ←? record measured;
     mret (Ok (captured i measured false))).
Proof.
  intros Hc H0. apply always_try; [apply idle_steps, idle_scope|].
  eapply ensures_mono with (P := fun t r => Interaction.runs (run_capture_scope has_store sha256_hex run) t r /\ commands t = []).
  { intros t r Hr. split; [exact Hr|]. apply commands_idle. exact (idle_scope run t r Hr). }
  intros t1 r1 [R1 H1] [project target] ->.
  apply always_idle_try; [exact (only_call _ (ResolveInternalRun _ _) eq_refl)|]. intros t2 resolved H2.
  apply always_try; [apply idle_steps; exact (only_call _ (Authorize _ _ _ _) eq_refl)|].
  refine (ensures_ask (I := Service) (Authorize _ _ _ _) _ _). intros answer [] ->. set (t3 := [_]).
  assert (Hc' : capturable i run (((before ++ t1) ++ t2) ++ t3)) by by repeat apply capturable_app.
  assert (Ha : approved (((before ++ t1) ++ t2) ++ t3)).
  { exists (duration_secs resolved), project. apply elem_of_app. right. left. }
  assert (Ht : targeted run None (((before ++ t1) ++ t2) ++ t3) target).
  { do 2 apply targeted_app. exists project. apply performed_right. exists [], t1, []. by rewrite app_nil_r. }
  assert (H3 : commands (((before ++ t1) ++ t2) ++ t3) = []) by (rewrite !commands_app, H0, H1, H2; reflexivity).
  apply always_try; [by apply measure_steps|]. eapply ensures_mono; [apply measure_spec|]. intros t r Hr m ->. specialize (Hr m eq_refl).
  apply always_try; [|apply ensures_true_steps; intros; apply always_ret].
  apply always_bind; [|eapply ensures_mono; [apply ensures_true|]; intros; apply always_ret].
  eapply record_steps; [by apply capturable_app|by apply targeted_app|by apply measured_after].
Qed.
Lemma capture_steps i : always (capture_step i None) [] (capture_run_edge_set has_store sha256_hex i).
Proof.
  unfold capture_run_edge_set. apply always_idle_try; [exact (only_call _ AcquireWorkspaceOperation eq_refl)|]. intros t1 _ H1.
  apply always_idle_try; [apply only_ret|]. intros t2 _ H2.
  apply always_try; [apply idle_steps, idle_run_record|]. eapply ensures_mono; [apply record_asked|]. intros t3 r3 [H3 Hrun] run Hr.
  specialize (Hrun run Hr). destruct (edge_set_capture_block run) as [reason|] eqn:Eb; [apply always_ret|].
  apply always_try; [apply idle_steps, only_map; exact (only_call _ (ReadRunEdgeSet i) eq_refl)|].
  unfold stored, map_prog. apply ensures_bind. refine (ensures_ask (I := Service) (ReadRunEdgeSet i) _ _). intros [x|e];
    [|apply ensures_ret; intros ? [=]]. apply ensures_ret. intros existing [= <-]. destruct x as [x|]; [apply always_ret|].
  apply capture_rest.
  - split_and!; [|done|]; unfold read_absent; rewrite !elem_of_app; [left; by right|right; left; left].
  - rewrite !commands_app, H1, H2, H3. reflexivity.
Qed.
Lemma closeout_steps i target : always (capture_step i (Some target)) [] (closeout_edge_set has_store sha256_hex i target).
Proof.
  unfold closeout_edge_set. destruct (negb has_store); [apply always_ret|].
  apply always_or_failed; [apply idle_steps, idle_run_record|]. eapply ensures_mono; [apply record_asked|]. intros t1 r1 [H1 Hrun] run Hr.
  specialize (Hrun run Hr). destruct (edge_set_capture_block run) as [reason|] eqn:Eb; [apply always_ret|].
  apply always_bind; [apply idle_steps; exact (only_call _ (ReadRunEdgeSet i) eq_refl)|].
  refine (ensures_ask (I := Service) (ReadRunEdgeSet i) _ _). intros [[x|]|e]; [apply always_ret| |apply always_ret]. set (t2 := [_]).
  assert (Hc : capturable i run (([] ++ t1) ++ t2)).
  { split_and!; [|done|]; unfold read_absent; rewrite !elem_of_app; [left; by right|right; left]. }
  assert (H2 : commands (([] ++ t1) ++ t2) = []) by (rewrite !commands_app, H1; reflexivity). revert Hc H2. generalize (([] ++ t1) ++ t2).
  intros before Hc H2. apply always_idle_bind; [apply idle_workspace_dir|]. intros t3 workspace H3.
  apply always_idle_bind; [exact (only_call _ (IsDir _) eq_refl)|]. intros t4 corpus H4. destruct corpus; [|apply always_ret].
  apply always_idle_bind; [apply idle_regular|]. intros t5 harness H5. destruct harness; [|apply always_ret].
  apply always_idle_or_failed; [exact (only_call _ (ResolveInternalRun _ _) eq_refl)|]. intros t6 resolved H6.
  apply always_idle_or_failed; [exact (only_call _ AcquireWorkspaceOperation eq_refl)|]. intros t7 _ H7.
  assert (Hc' : capturable i run (((((before ++ t3) ++ t4) ++ t5) ++ t6) ++ t7)) by by repeat apply capturable_app.
  apply always_or_failed; [by apply measure_steps|]. eapply ensures_mono; [apply measure_spec|]. intros t r Hm m ->. specialize (Hm m eq_refl).
  apply always_bind; [|eapply ensures_mono; [apply ensures_true|]; intros; apply always_ret].
  apply (record_steps _ _ _ run target); [by apply capturable_app|done|]. apply measured_after; [|done]. by rewrite !commands_app, H2, H3, H4, H5, H6, H7.
Qed.
(** At the end of a run nothing is read first: it is the store that refuses a second set. *)
Definition close_step (run : RunRecord) (target : string) (before : Calls) (e : Event Service) : Prop :=
  match asked e with
  | RecordRunEdgeSet r => engine run = AflPlusPlus /\ has_store = true /\ measured before run target r
  | RunCommandOpts _ _ _ _ _ => engine run = AflPlusPlus /\ has_store = true
  | _ => True
  end.
Lemma close_steps run target : always (close_step run target) [] (close_run_edge_set has_store sha256_hex run target).
Proof.
  unfold close_run_edge_set. case_bool_decide as He; cbn [negb]; [|apply always_ret]. destruct (negb has_store) eqn:Eh; [apply always_ret|].
  apply negb_false_iff in Eh.
  assert (Hnr : forall A (p : Prog Service A) before, only not_record p -> always (close_step run target) before p).
  { intros A p before Hp. eapply always_only; [exact Hp|]. intros t [op x] Hop. by destruct op. }
  apply always_bind.
  - apply always_try; [apply Hnr; exact (only_call _ (ResolveInternalRun _ _) eq_refl)|].
    refine (ensures_ask (I := Service) (ResolveInternalRun _ _) _ _). intros answer resolved ->. set (t1 := [_]).
    apply always_try; [apply Hnr, only_measure|]. eapply ensures_mono; [apply measure_spec|]. intros t r Hm m ->. specialize (Hm m eq_refl).
    apply always_bind; [|eapply ensures_mono; [apply ensures_true|]; intros; apply always_ret].
    apply (always_ask (I := Service) (RecordRunEdgeSet m)). intros x. split; [done|]. split; [done|]. by apply measured_after.
  - eapply ensures_mono; [apply ensures_true|]. intros t r _. apply Hnr. destruct r; only_tac.
Qed.
(** What a capture reports. *)
Definition recorded (i : string) (t : Calls) (c : RunEdgeSetCapture) : Prop :=
  exists x, mkEvent (I := Service) (RecordRunEdgeSet x) (Ok tt) ∈ t /\ c = captured i x false.
Definition report_ok (i : string) (t : Calls) (c : RunEdgeSetCapture) : Prop :=
  (exists x, mkEvent (I := Service) (ReadRunEdgeSet i) (Ok (Some x)) ∈ t /\ commands t = [] /\ c = captured i x true) \/
  recorded i t c.
Lemma recorded_app i t0 t c : recorded i t c -> recorded i (t0 ++ t) c.
Proof. intros (y & Hy & ->). exists y. split; [apply elem_of_app; by right|done]. Qed.
Lemma try_recorded {A} i (k : A -> Fallible RunEdgeSetCapture) (p : Fallible A) :
  (forall a, ensures (k a) (fun t r => forall c, r = Ok c -> recorded i t c)) ->
  ensures (x ←? p; k x) (fun t r => forall c, r = Ok c -> recorded i t c).
Proof.
  intros Hk. apply ensures_try_ok, ensures_true_steps. intros t _ a _. eapply ensures_mono; [apply Hk|].
  intros t' r Hr c Hc. by apply recorded_app, Hr.
Qed.
Lemma capture_reports i :
  ensures (capture_run_edge_set has_store sha256_hex i) (fun t r => forall c, r = Ok c -> report_ok i t c).
Proof.
  unfold capture_run_edge_set. refine (try_idle _ _ (report_ok i) (only_call _ AcquireWorkspaceOperation eq_refl) _). intros t1 _ H1.
  refine (try_pure _ _ (fun t c => report_ok i (t1 ++ t) c) _). intros _ _.
  refine (try_idle _ _ (fun t c => report_ok i (t1 ++ t) c) (idle_run_record _) _). intros t2 run H2.
  destruct (edge_set_capture_block run) as [reason|]; [by apply ensures_ret|].
  refine (ensures_try_ok _ _ (fun t c => report_ok i (t1 ++ t2 ++ t) c) _).
  unfold stored, map_prog. apply ensures_bind. refine (ensures_ask (I := Service) (ReadRunEdgeSet i) _ _). intros [x|e]; [|by apply ensures_ret].
  apply ensures_ret. intros existing [= <-]. destruct x as [x|].
  - apply ensures_ret. intros c [= <-]. left. exists x. rewrite !elem_of_app, !commands_app, H1, H2. split; [|done]. right. right. left. left. left.
  - eapply ensures_mono with (P := fun t r => forall c, r = Ok c -> recorded i t c); [|intros t r Hr c Hc; right; by do 3 apply recorded_app; apply Hr].
    apply try_recorded. intros [project target]. do 3 (apply try_recorded; intros ?).
    apply ensures_try_ok. unfold record, stored, map_prog. apply ensures_bind. refine (ensures_ask (I := Service) (RecordRunEdgeSet _) _ _).
    intros [[]|e]; [|by apply ensures_ret]. apply ensures_ret. intros _ _. apply ensures_ret. intros c [= <-]. eexists. split; [left|done].
Qed.
End measuring.

(** C37: whatever the store, the file system, the sandbox and the operator answer, a
    set is recorded only if it was measured: the corpus listed is the one the run
    retains in the workspace of its target, reached through no link below that
    workspace; the harness there is a regular file with the digest that the run retains
    and the record names; one command went through for every input listed, in the order
    of their paths, with that workspace mounted read-only in the run's own image; and
    the set holds exactly the edges these commands showed, at least one.  A command is
    given the input in its place under the mount where the workspace is its own
    resolution and the listing is of files below the directory listed; where a link
    leads to the workspace root it is given another path, a defect of the code
    ([linked_root_loses_inputs]).  A capture on demand and the closeout step measure
    only a run that may be captured and of which nothing was retained when they began;
    at the end of a run, whose engine must be AFL++, nothing is read, and it is the
    store that leaves what it retains and refuses any other set.  A capture on demand
    takes the target of the run, runs nothing before the operator has approved it,
    nothing at all where a set is retained, and reports what is retained or what it
    recorded. *)
Theorem capture_sound has_store sha256_hex :
  (forall i, always (capture_step has_store sha256_hex i None) [] (capture_run_edge_set has_store sha256_hex i)) /\
  (forall i target, always (capture_step has_store sha256_hex i (Some target)) [] (closeout_edge_set has_store sha256_hex i target)) /\
  (forall run target, always (close_step has_store sha256_hex run target) [] (close_run_edge_set has_store sha256_hex run target)) /\
  (forall i, ensures (capture_run_edge_set has_store sha256_hex i) (fun t r => forall c, r = Ok c -> report_ok i t c)) /\
  (forall (columns : Columns) d r x, retained d (run_id r) = Some x ->
     retained (record_run_edge_set r d).1 (run_id r) = Some x /\ ((record_run_edge_set r d).2 = Ok tt -> r = x)).
Proof.
  split; [intros i; apply capture_steps|]. split; [intros i target; apply closeout_steps|].
  split; [intros run target; apply close_steps|]. split; [intros i; apply capture_reports|]. intros columns. apply record_refuses.
Qed.
(** The store refuses such a record only for its digests, for the run's artifacts, or
    because other evidence is retained. *)
Lemma measured_valid sha256_hex t run target r digest : measured sha256_hex t run target r ->
  lower_hex_digest (binary_sha256 r) = true -> set_sandbox_rev r = SANDBOX_IMAGE_REV_PREFIX +:+ digest -> lower_hex_digest digest = true ->
  validate r = Ok tt.
Proof.
  intros (c & ac & ah & corpus & outs & digest' & _ & _ & Hne & _ & _ & _ & _ & _ & _ & _ & _ & _ & Hin & [Hl _] & Hcount & _) Hb Hs Hd.
  unfold validate. rewrite Hb, Hs, ErrorClassifier.strip_prefix_app, Hd. cbn [negb]. rewrite Hin.
  assert (zlen corpus <> 0) by (intros ?%zlen_0; done). replace (zlen corpus =? 0) with false by lia.
  rewrite bool_decide_eq_true_2 by done. cbn [negb]. rewrite Hcount. unfold popcount. by rewrite Z.eqb_refl.
Qed.

(** ** Comparisons *)
(** What the store returns. *)
Definition stored_ok (r : RunEdgeSetRecord) : Prop := validate r = Ok tt /\ Forall is_u8 (edge_map r).
Definition edges (r : RunEdgeSetRecord) : EdgeSet.EdgeSet := EdgeSet.mkEdgeSet (edge_map r).
Definition only_in (x y : EdgeSet.EdgeSet) : list Z := EdgeSet.offsets EdgeSet.EDGE_SET_CAPACITY (EdgeSet.minus x y).
Definition report_exact (rep : CoverageDiffReport) (a b : string) (x y : RunEdgeSetRecord) : Prop :=
  run_a rep = a /\ run_b rep = b /\ same_binary rep = bool_decide (binary_sha256 x = binary_sha256 y) /\
  only_a rep = zlen (only_in (edges x) (edges y)) /\ only_b rep = zlen (only_in (edges y) (edges x)) /\
  common rep = zlen (EdgeSet.offsets EdgeSet.EDGE_SET_CAPACITY (EdgeSet.both (edges x) (edges y))) /\
  edges_a rep = only_a rep + common rep /\ edges_b rep = only_b rep + common rep /\ union rep = only_a rep + only_b rep + common rep /\
  only_a_sample rep = take EDGE_DIFF_SAMPLE_CAP (only_in (edges x) (edges y)) /\
  only_b_sample rep = take EDGE_DIFF_SAMPLE_CAP (only_in (edges y) (edges x)) /\ sample_cap rep = EDGE_DIFF_SAMPLE_CAP.
Lemma diff_report a b x y : stored_ok x -> stored_ok y ->
  let d := EdgeSet.diff (edges x) (edges y) EDGE_DIFF_SAMPLE_CAP in
  report_exact (mkReport a b (String.eqb (binary_sha256 x) (binary_sha256 y)) (edge_count x) (edge_count y)
    (EdgeSet.only_a d) (EdgeSet.only_b d) (EdgeSet.common d) (EdgeSet.union d)
    (EdgeSet.only_a_sample d) (EdgeSet.only_b_sample d) EDGE_DIFF_SAMPLE_CAP) a b x y.
Proof.
  intros [Hx Hux] [Hy Huy]. cbv zeta. apply validate_Ok in Hx as (Hlx & Hcx & _), Hy as (Hly & Hcy & _).
  assert (Hwx : EdgeSet.wf (edges x)) by by split. assert (Hwy : EdgeSet.wf (edges y)) by by split.
  pose proof (EdgeSet.edge_diff_exact (edges x) (edges y) EDGE_DIFF_SAMPLE_CAP Hwx Hwy) as Hd. cbv zeta in Hd.
  assert (Hedges : forall u v, EdgeSet.wf u -> EdgeSet.count u = zlen (only_in u v) + zlen (EdgeSet.offsets EdgeSet.EDGE_SET_CAPACITY (EdgeSet.both u v))).
  { intros u v Hu. rewrite EdgeSet.count_elements by done. apply EdgeSet.offsets_split. }
  assert (Hcomm : EdgeSet.offsets EdgeSet.EDGE_SET_CAPACITY (EdgeSet.both (edges y) (edges x)) = EdgeSet.offsets EdgeSet.EDGE_SET_CAPACITY (EdgeSet.both (edges x) (edges y))).
  { apply EdgeSet.offsets_ext. intros e. apply andb_comm. }
  pose proof (EdgeSet.offsets_union EdgeSet.EDGE_SET_CAPACITY (EdgeSet.contains (edges x)) (EdgeSet.contains (edges y))) as Hunion.
  change (edge_count x = EdgeSet.count (edges x)) in Hcx. change (edge_count y = EdgeSet.count (edges y)) in Hcy.
  pose proof (Hedges _ (edges y) Hwx) as Ex. pose proof (Hedges _ (edges x) Hwy) as Ey. rewrite Hcomm in Ey.
  unfold report_exact. rewrite Hd.
  cbn [run_a run_b same_binary only_a only_b common union only_a_sample only_b_sample sample_cap edges_a edges_b
       EdgeSet.only_a EdgeSet.only_b EdgeSet.common EdgeSet.union EdgeSet.only_a_sample EdgeSet.only_b_sample].
  split; [exact eq_refl|]. split; [exact eq_refl|]. split.
  { destruct (String.eqb_spec (binary_sha256 x) (binary_sha256 y)); [by rewrite bool_decide_eq_true_2|by rewrite bool_decide_eq_false_2]. }
  do 3 (split; [exact eq_refl|]). split; [rewrite Hcx; exact Ex|]. split; [rewrite Hcy; exact Ey|]. split; [exact Hunion|].
  do 2 (split; [exact eq_refl|]). exact eq_refl.
Qed.
Lemma read_retained i : ensures (retained_set i) (fun t r => forall x, r = Ok x -> mkEvent (I := Service) (ReadRunEdgeSet i) (Ok (Some x)) ∈ t).
Proof.
  unfold retained_set. refine (ensures_try_ok _ _ (fun t x => mkEvent (I := Service) (ReadRunEdgeSet i) (Ok (Some x)) ∈ t) _).
  unfold stored, map_prog. apply ensures_bind. refine (ensures_ask (I := Service) (ReadRunEdgeSet i) _ _). intros [found|e]; [|by apply ensures_ret].
  apply ensures_ret. intros found' [= <-]. apply ensures_ret. intros x Hx%ok_or_Ok. rewrite Hx. cbn. left.
Qed.
Lemma from_bytes_edges r m : EdgeSet.from_bytes (edge_map r) = Ok m -> m = edges r.
Proof. unfold EdgeSet.from_bytes. case_bool_decide; [|done]. by intros [= <-]. Qed.

(** C38: a comparison of two runs reads the sets retained of both and runs nothing; for
    the sets the store keeps, which are valid, its counts are exact, the edges of each
    run are those it has alone and those it shares, and the samples are the lowest
    edges of each side. *)
Theorem coverage_diff_exact has_store a b :
  ensures (coverage_diff has_store a b) (fun t r => forall rep, r = Ok rep -> a <> b /\ commands t = [] /\
    exists x y, mkEvent (I := Service) (ReadRunEdgeSet a) (Ok (Some x)) ∈ t /\ mkEvent (I := Service) (ReadRunEdgeSet b) (Ok (Some y)) ∈ t /\
      (stored_ok x -> stored_ok y -> report_exact rep a b x y)).
Proof.
  assert (Hidle : idle (coverage_diff has_store a b)).
  { unfold coverage_diff, retained_set. only_tac; try apply idle_run_record. apply idle_matches. }
  unfold coverage_diff in *. destruct (String.eqb_spec a b) as [|Hne]; [by apply ensures_ret|].
  eapply ensures_mono; [apply ensures_and; [exact Hidle|]|].
  2: { intros t r [Hf Hr] rep Hrep. split; [exact Hne|]. split; [by apply commands_idle|]. exact (Hr rep Hrep). }
  set (goal := fun (t : Calls) (rep : CoverageDiffReport) => exists x y, mkEvent (I := Service) (ReadRunEdgeSet a) (Ok (Some x)) ∈ t /\
    mkEvent (I := Service) (ReadRunEdgeSet b) (Ok (Some y)) ∈ t /\ (stored_ok x -> stored_ok y -> report_exact rep a b x y)).
  change (ensures (_ ←? require_store has_store "coverage diff requires the persistent store"; first ←? run_record has_store a;
    second ←? run_record has_store b; matches ← stored_project_matches (path_of (project_root first)) (path_of (project_root second));
    if negb matches then mret (Err (Validation "select two runs from the same project"))
    else
      set_a ←? retained_set a; set_b ←? retained_set b;
      map_a ←? mret (EdgeSet.from_bytes (edge_map set_a)); map_b ←? mret (EdgeSet.from_bytes (edge_map set_b));
      let diff := EdgeSet.diff map_a map_b EDGE_DIFF_SAMPLE_CAP in
      mret (Ok (mkReport a b (String.eqb (binary_sha256 set_a) (binary_sha256 set_b)) (edge_count set_a) (edge_count set_b)
              (EdgeSet.only_a diff) (EdgeSet.only_b diff) (EdgeSet.common diff) (EdgeSet.union diff)
              (EdgeSet.only_a_sample diff) (EdgeSet.only_b_sample diff) EDGE_DIFF_SAMPLE_CAP))) (fun t r => forall rep, r = Ok rep -> goal t rep)).
  assert (Happ : forall t0 t rep, goal t rep -> goal (t0 ++ t) rep).
  { intros t0 t rep (x & y & Hx & Hy & Hr). exists x, y. rewrite !elem_of_app. auto. }
  refine (try_pure _ _ goal _). intros _ _.
  apply ensures_try_ok, ensures_true_steps. intros t1 r1 first _. eapply ensures_mono; [|intros t r Hr c Hc; apply Happ, (Hr c Hc)].
  apply ensures_try_ok, ensures_true_steps. intros t2 r2 second _. eapply ensures_mono; [|intros t r Hr c Hc; apply Happ, (Hr c Hc)].
  apply ensures_bind, ensures_true_steps. intros t3 matches. eapply ensures_mono; [|intros t r Hr c Hc; apply Happ, (Hr c Hc)].
  destruct matches; [|by apply ensures_ret].
  apply ensures_try_ok. eapply ensures_mono; [apply read_retained|]. intros t4 r4 Hx x Ex. specialize (Hx x Ex).
  apply ensures_try_ok. eapply ensures_mono; [apply read_retained|]. intros t5 r5 Hy y Ey. specialize (Hy y Ey).
  refine (try_pure _ _ (fun t => goal (t4 ++ t5 ++ t)) _). intros map_a ->%from_bytes_edges.
  refine (try_pure _ _ (fun t => goal (t4 ++ t5 ++ t)) _). intros map_b ->%from_bytes_edges.
  apply ensures_ret. intros rep [= <-]. exists x, y.
  split; [apply elem_of_app; by left|]. split; [apply elem_of_app; right; apply elem_of_app; by left|]. apply diff_report.
Qed.

(** ** A capture, step by step *)
Section example.
(** The workspace root as configured, and where it really is. *)
Context (root real : Path).
Definition sample_record : RunRecord :=
  mkRunRecord "r" "/src" AflPlusPlus Done Campaign 0 None (Some (mkFuzzRunConfig "h" None)) (Some digest) (Some image_rev).
Definition real_path (p : Path) : Path := match strip_prefix root p with Some q => real ++ q | None => p end.
Definition in_corpus (p : Path) (name : string) : CorpusEntry := mkCorpusEntry (p ++ [name]) "" 1.
Definition map_of (args : list string) : Text :=
  if bool_decide (list.last args = Some "/work/runs/r/corpus/a"%string) then t "000001:1" ++ [10] ++ t "000009:200" else t "000009:1".
Definition sample_answer (_ : Calls) (op : Op) : Answer op :=
  match op with
  | GetRun _ => Ok (Some sample_record)
  | ReadRunEdgeSet _ => Ok None
  | RecordRunEdgeSet _ => Ok tt
  | GetHarness _ => Ok (Some "t"%string)
  | ListAllTargets => Ok [mkTarget "t" (path_of "/src") "parse" "src/a.c"]
  | AcquireWorkspaceOperation => Ok tt
  | WorkspaceRoot => root
  | Canonicalize p => Ok (real_path p)
  | SymlinkMetadata p => Ok (if bool_decide (list.last p = Some "harness"%string) then Regular else Directory)
  | IsDir _ => true
  | Sha256File _ => Ok digest
  | CorpusList p => Ok [in_corpus p "b"; in_corpus p "a"]
  | ResolveInternalRun _ secs => Ok (mkResolved secs 1024 1)
  | Authorize _ _ _ _ => Ok tt
  | InstantNow | UtcNow => 0
  | RunCommandOpts _ args _ _ _ => Some (Ok (mkCommandResult 0 (map_of args) Completed))
  | JournalNote _ _ _ => tt
  end.
Definition sample_capture : Calls * Result ClassifiedError RunEdgeSetCapture :=
  play sample_answer [] (capture_run_edge_set true (fun _ => digest) "r").
Definition replayed_inputs : list (option string) := (fun c => list.last c.1.1.1) <$> commands sample_capture.1.
End example.
Example capture_ex :
  let ws := ["/"; "ws"]%string in
  (sample_capture ws ws).2 = Ok (mkCapture "r" digest 2 2 0 false)
  /\ replayed_inputs ws ws = [Some "/work/runs/r/corpus/a"; Some "/work/runs/r/corpus/b"]%string.
Proof. split; vm_compute; reflexivity. Qed.
(** Where the workspace root is reached through a link, as [/tmp] is on macOS, the corpus
    is listed under its resolved path, and every replay is given a file that is not an
    input of the run; what it shows is recorded all the same. *)
Theorem linked_root_loses_inputs :
  let root := ["/"; "tmp"; "ws"]%string in let real := ["/"; "private"; "tmp"; "ws"]%string in
  replayed_inputs root real = [Some "/work/out/a"; Some "/work/out/b"]%string
  /\ (sample_capture root real).2 = Ok (mkCapture "r" digest 2 1 0 false).
Proof. split; vm_compute; reflexivity. Qed.
