(* ===== verification/CloseoutRun.v ===== *)
(** * Closing out a run

    Models [crates/hf-service/src/container/run_closeout.rs], with the reading and
    writing of its rows in [crates/hf-storage/src/store.rs]: a pass takes the steps of
    [RunCloseout.v] that are still to do, one after the other, and writes what became
    of each before the next begins.  The analyses a step composes are an interface;
    the capture of edge sets is the program of [EdgeCapture.v]. *)
From stdpp Require Import gmap strings.
From S2P Require Import Prelude Text Engine Errors Interaction Workspace RunEdgeSets RunCloseout.
From S2P Require EdgeCapture Journal Occurrence.
#[local] Existing Instance EdgeCapture.Service_files.

(** ** What it calls *)
Module Finding.
Inductive Disposition :=
| ReportReady | ReachabilityUnproven | MinimizationPending | SymbolizationPending | RuntimeArtifact | HarnessDefect | Resolved.
End Finding.
#[export] Instance Disposition_eq_dec : EqDecision Finding.Disposition.
Proof. solve_decision. Defined.
Inductive TrustDetermination := Untrustworthy | Unqualified | Qualified | Trusted.
Abbreviation Row := (string * string * string)%type.
Inductive Op :=
| Capture (op : EdgeCapture.Op)
| AcquireRunCloseoutLease (i : string)
| CloseoutSteps (i : string)
| RecordCloseoutStep (i name label detail : string)
| TriageRun (project : Path) (target i : string)
| ListCrashesByRun (i : string)
| CorpusAbsorbCrashesForRun (project : Path) (target i : string)
| FindingReviewQueue (project : Path) (i : string)
| CampaignTrustReport (i : string).
(** Of what they answer, what is read here: how many crashes and inputs, whether a
    crash is minimized, the disposition of a finding, the determination of a report. *)
Definition Answer (op : Op) : Type :=
  match op with
  | Capture op => EdgeCapture.Answer op
  | AcquireRunCloseoutLease _ => Result ClassifiedError unit
  | CloseoutSteps _ => Result StorageError (list Row)
  | RecordCloseoutStep _ _ _ _ => Result StorageError unit
  | TriageRun _ _ _ => Result ClassifiedError Z
  | ListCrashesByRun _ => Result StorageError (list bool)
  | CorpusAbsorbCrashesForRun _ _ _ => Result ClassifiedError Z
  | FindingReviewQueue _ _ => Result ClassifiedError (list Finding.Disposition)
  | CampaignTrustReport _ => Result ClassifiedError TrustDetermination
  end.
Definition Closeout : Interface := mkInterface Op Answer.
Definition call (op : Op) : Prog Closeout (Answer op) := ask (I := Closeout) op.
Abbreviation Fallible A := (Prog Closeout (Result ClassifiedError A)).
(** What the container does elsewhere. *)
Definition service {A} (p : Prog EdgeCapture.Service A) : Prog Closeout A :=
  translate (I := EdgeCapture.Service) (J := Closeout) Capture (fun _ x => x) p.
Definition stored {A} (p : Prog Closeout (Result StorageError A)) : Fallible A := map_prog EdgeCapture.storage p.

Record RunScope := mkScope { project : Path; target : string }.
Definition debug_determination (d : TrustDetermination) : string :=
  match d with Untrustworthy => "Untrustworthy" | Unqualified => "Unqualified" | Qualified => "Qualified" | Trusted => "Trusted" end.

Section closeout.
(** Whether the service has a store, and SHA-256 in hexadecimal. *)
Context (has_store : bool) (sha256_hex : string -> string).
Definition require_store : Result ClassifiedError unit :=
  if has_store then Ok tt else Err (Validation "run closeout requires the persistent store").

Definition run_scope (i : string) : EdgeCapture.Fallible RunScope :=
  let named := "run '" +:+ i +:+ "' " in
  _ ←? mret require_store;
  run ←? EdgeCapture.run_record has_store i;
  if negb (bool_decide (kind run = Campaign)) then mret (Err (Validation (named +:+ "is not a campaign run")))
  else if negb match status run with Done | RunEdgeSets.Failed | RunEdgeSets.Cancelled => true | _ => false end
  then mret (Err (Validation (named +:+ "is not terminal")))
  else
    harness_id ←? EdgeCapture.from_option (Validation (named +:+ "retained no harness-backed target; closeout is unavailable")) (harness_id <$> config run);
    harness ←? EdgeCapture.stored (EdgeCapture.call (EdgeCapture.GetHarness harness_id));
    harness_target ←? EdgeCapture.from_option (Validation (named +:+ "names an unknown harness")) harness;
    targets ←? EdgeCapture.stored (EdgeCapture.call EdgeCapture.ListAllTargets);
    target ←? EdgeCapture.from_option (Validation (named +:+ "names an unknown target"))
                (List.find (fun c => String.eqb (EdgeCapture.target_id c) harness_target) targets);
    matches ← stored_project_matches (EdgeCapture.target_project_root target) (path_of (project_root run));
    if negb matches then mret (Err (Validation (named +:+ "target project does not match its retained project")))
    else
      selector ←? EdgeCapture.retained_run_target_selector sha256_hex run target;
      mret (Ok (mkScope (path_of (project_root run)) selector)).

(** ** Rows *)
Definition decode_row (i : string) (row : Row) : Result ClassifiedError (CloseoutStep * StepOutcome) :=
  let '(step_name, outcome, detail) := row in
  match decode_step step_name with
  | None => Err (Storage ("decode retained closeout step '" +:+ step_name +:+ "' for run '" +:+ i +:+ "'"))
  | Some step =>
      match decode_outcome step outcome detail with
      | None => Err (Storage ("decode retained closeout outcome '" +:+ outcome +:+ "' for step '" +:+ step_name +:+ "' and run '" +:+ i +:+ "'"))
      | Some outcome => Ok (step, outcome)
      end
  end.
Fixpoint decode_rows (i : string) (rows : list Row) : Result ClassifiedError Recorded :=
  match rows with
  | [] => Ok []
  | row :: rows =>
      match decode_row i row with
      | Err e => Err e
      | Ok p => match decode_rows i rows with Ok ps => Ok (p :: ps) | Err e => Err e end
      end
  end.
Definition recorded_steps (i : string) : Fallible Recorded :=
  _ ←? mret require_store;
  rows ←? stored (call (CloseoutSteps i));
  mret (decode_rows i rows).
Definition record (i : string) (s : CloseoutStep) (o : StepOutcome) : Fallible unit :=
  let '(name, label, detail) := encode s o in stored (call (RecordCloseoutStep i name label detail)).

(** ** Steps *)
Definition closeout_minimize (i : string) : Prog Closeout StepOutcome :=
  if negb has_store then mret (Failed "no persistent store")
  else
    r ← call (ListCrashesByRun i);
    mret match r with
    | Ok [] => Skipped "the run retained no crashes"
    | Ok crashes =>
        Completed ("triage retained " +:+ pretty (zlen (List.filter (fun minimized => minimized) crashes)) +:+ " of " +:+ pretty (zlen crashes)
          +:+ " crash(es) as already minimized")
    | Err error => Failed (Journal.display_storage_error error)
    end.
Definition closeout_disposition (project : Path) (i : string) : Prog Closeout StepOutcome :=
  r ← call (FindingReviewQueue project i);
  mret match r with
  | Ok [] => Skipped "the run retained no crashes"
  | Ok items =>
      Completed (pretty (zlen items) +:+ " crash(es) dispositioned, "
        +:+ pretty (zlen (List.filter (fun d => bool_decide (d = Finding.HarnessDefect)) items)) +:+ " of them harness defects")
  | Err error => Failed (display_classified error)
  end.
Definition run_step (s : CloseoutStep) (i : string) (scope : RunScope) : Prog Closeout StepOutcome :=
  match s with
  | Triage =>
      r ← call (TriageRun (project scope) (target scope) i);
      mret match r with Ok crashes => Completed (pretty crashes +:+ " crash(es) attributed") | Err error => Failed (display_classified error) end
  | Minimize => closeout_minimize i
  | CorpusAbsorb =>
      r ← call (CorpusAbsorbCrashesForRun (project scope) (target scope) i);
      mret match r with Ok count => Completed (pretty count +:+ " input(s) absorbed") | Err error => Failed (display_classified error) end
  | EdgeSet => service (EdgeCapture.closeout_edge_set has_store sha256_hex i (target scope))
  | Disposition => closeout_disposition (project scope) i
  | TrustReport =>
      r ← call (CampaignTrustReport i);
      mret match r with Ok determination => Completed (debug_determination determination) | Err error => Failed (display_classified error) end
  end.

(** ** A pass *)
(** A trust report that no longer covers what is to be done again is withdrawn. *)
Definition withdraw (i : string) (recorded : Recorded) : Fallible Recorded :=
  match List.find (fun s => negb (bool_decide (s = TrustReport))) (pending_steps recorded) with
  | Some changed =>
      if existsb (fun p => bool_decide (p.1 = TrustReport) && is_terminal p.2) recorded
      then _ ←? record i TrustReport (Blocked changed); mret (Ok (replace_recorded recorded TrustReport (Blocked changed)))
      else mret (Ok recorded)
  | None => mret (Ok recorded)
  end.
Fixpoint walk (i : string) (scope : RunScope) (pending : list CloseoutStep) (recorded : Recorded) : Fallible Recorded :=
  match pending with
  | [] => mret (Ok recorded)
  | s :: pending =>
      outcome ← match blocked_by s recorded with Some d => mret (Blocked d) | None => run_step s i scope end;
      _ ←? record i s outcome;
      walk i scope pending (replace_recorded recorded s outcome)
  end.
Definition close_out_run (i : string) : Fallible CloseoutReport :=
  _ ←? mret require_store;
  scope ←? service (run_scope i);
  _ ←? call (AcquireRunCloseoutLease i);
  recorded ←? recorded_steps i;
  recorded ←? withdraw i recorded;
  let pending := pending_steps recorded in
  let resumed_at := if (length pending <? length closeout_ladder)%nat then head pending else None in
  recorded ←? walk i scope pending recorded;
  mret (Ok (report_from_recorded i Available recorded resumed_at)).
Definition retained_run_closeout (i : string) : Fallible CloseoutReport :=
  recorded ←? recorded_steps i;
  scope ← service (run_scope i);
  availability ←? mret match scope with
    | Ok _ => Ok Available
    | Err (Validation reason) => Ok (Unavailable reason)
    | Err error => Err error
    end;
  let resumed_at := match recorded with [] => None | _ => head (pending_steps recorded) end in
  mret (Ok (report_from_recorded i availability recorded resumed_at)).
End closeout.

(** ** The store, as passes see it *)
(** The rows of every run, and for every run the rows its last trust report was
    derived from. *)
Abbreviation Table := (gmap string (string * string)).
Record State := mkState { rows : gmap string Table; audited : gmap string Table }.
Definition table (s : State) (i : string) : Table := default ∅ (rows s !! i).
Definition row_of (r : string * (string * string)) : Row := (r.1, r.2.1, r.2.2).
Definition write (s : State) (i name label detail : string) : State :=
  mkState (<[i := <[name := (label, detail)]> (table s i)]> (rows s)) (audited s).
(** The rows come in any order, a failed call may or may not have been carried out, and
    whatever else is asked changes no row. *)
Definition serve (s : State) (op : Op) : Answer op -> State -> Prop :=
  match op with
  | CloseoutSteps i => fun a s' => s' = s /\ match a with Ok l => l ≡ₚ row_of <$> map_to_list (table s i) | Err _ => True end
  | RecordCloseoutStep i name label detail => fun a s' => s' = write s i name label detail \/ (s' = s /\ a <> Ok tt)
  | CampaignTrustReport i => fun _ s' => s' = mkState (rows s) (<[i := table s i]> (audited s))
  | _ => fun _ s' => s' = s
  end.
Definition row_outcome (t : Table) (s : CloseoutStep) : option StepOutcome :=
  r ← t !! debug_step s; decode_outcome s r.1 r.2.
(** Every row is read back as the outcome that was written, and a trust report that
    stands was derived from the other rows as they stand, one of each step. *)
Definition row_ok (name : string) (r : string * string) : Prop := exists s o, valid s o /\ encode s o = (name, r.1, r.2).
Definition audit_ok (t : Table) (a : option Table) : Prop :=
  done_with (row_outcome t TrustReport) = true ->
  exists seen, a = Some seen /\ forall s, s <> TrustReport -> is_Some (t !! debug_step s) /\ seen !! debug_step s = t !! debug_step s.
Definition ledger_ok (s : State) (i : string) : Prop :=
  map_Forall row_ok (table s i) /\ audit_ok (table s i) (audited s !! i).
Definition inv (s : State) : Prop := forall i, ledger_ok s i.

(** What a call works on: the row of the step is not terminal, its dependencies have
    not failed, and every earlier step has a row. *)
Definition works_on (op : Op) : option CloseoutStep :=
  match op with
  | Capture op => if EdgeCapture.busy op then Some EdgeSet else None
  | TriageRun _ _ _ => Some Triage
  | ListCrashesByRun _ => Some Minimize
  | CorpusAbsorbCrashesForRun _ _ _ => Some CorpusAbsorb
  | FindingReviewQueue _ _ => Some Disposition
  | CampaignTrustReport _ => Some TrustReport
  | AcquireRunCloseoutLease _ | CloseoutSteps _ | RecordCloseoutStep _ _ _ _ => None
  end.
Definition due (t : Table) (s : CloseoutStep) : Prop :=
  done_with (row_outcome t s) = false /\
  (forall d, d ∈ consumes s -> obstructs (row_outcome t d) = false) /\
  forall s', position_of s' < position_of s -> is_Some (t !! debug_step s').
(** A row that is written: of a step that was to do, or a trust report withdrawn for one. *)
Definition may_write (t : Table) (name label detail : string) : Prop :=
  exists s o, encode s o = (name, label, detail) /\ valid s o /\
    (done_with (row_outcome t s) = false \/
     s = TrustReport /\ exists d, d <> TrustReport /\ o = Blocked d /\ done_with (row_outcome t d) = false).
Definition concerns (i : string) (op : Op) : Prop :=
  match op with
  | Capture _ => True
  | AcquireRunCloseoutLease i' | CloseoutSteps i' | RecordCloseoutStep i' _ _ _ | TriageRun _ _ i' | ListCrashesByRun i'
  | CorpusAbsorbCrashesForRun _ _ i' | FindingReviewQueue _ i' | CampaignTrustReport i' => i' = i
  end.
Definition may (i : string) (s : State) (op : Op) : Prop :=
  concerns i op /\
  match op with
  | RecordCloseoutStep _ name label detail => may_write (table s i) name label detail
  | op => match works_on op with Some st => due (table s i) st | None => True end
  end.

(** ** Rows and outcomes *)
Definition tracks (i : string) (recorded : Recorded) (s : State) : Prop := forall st, outcome_of st recorded = row_outcome (table s i) st.
Definition record_row (s : State) (i : string) (st : CloseoutStep) (o : StepOutcome) : State :=
  write s i (encode st o).1.1 (encode st o).1.2 (encode st o).2.
Lemma table_record s i st o : table (record_row s i st o) i = <[debug_step st := ((encode st o).1.2, (encode st o).2)]> (table s i).
Proof. unfold record_row, write, table at 1. cbn [rows]. by rewrite lookup_insert_eq, encode_name. Qed.
Lemma table_record_ne s i j st o : j <> i -> table (record_row s i st o) j = table s j.
Proof. intros Hne. unfold record_row, write, table at 1. cbn [rows]. by rewrite lookup_insert_ne. Qed.
Lemma row_outcome_record s i st o st' : valid st o ->
  row_outcome (table (record_row s i st o) i) st' = if bool_decide (st' = st) then Some o else row_outcome (table s i) st'.
Proof.
  intros Hv. rewrite table_record. unfold row_outcome. case_bool_decide as Est.
  - subst st'. rewrite lookup_insert_eq. cbn [mbind option_bind fst snd]. by apply outcome_roundtrip.
  - rewrite lookup_insert_ne; [done|]. intros E. by apply Est, debug_step_inj.
Qed.
Lemma tracks_record i recorded s st o : tracks i recorded s -> valid st o -> tracks i (replace_recorded recorded st o) (record_row s i st o).
Proof. intros Ht Hv st'. rewrite outcome_replace, row_outcome_record by done. by case_bool_decide. Qed.
Lemma row_some s i st : is_Some (row_outcome (table s i) st) -> is_Some (table s i !! debug_step st).
Proof. intros [o Ho]. unfold row_outcome in Ho. destruct (table s i !! debug_step st) eqn:E; [by eexists|done]. Qed.
Lemma inv_record s i st o : inv s -> valid st o -> audit_ok (table (record_row s i st o) i) (audited s !! i) -> inv (record_row s i st o).
Proof.
  intros Hi Hv Ha j. destruct (decide (j = i)) as [->|Hne].
  - split; [|exact Ha]. rewrite table_record. apply map_Forall_insert_2; [|apply Hi]. exists st, o. cbn. split; [done|].
    by rewrite <- encode_name with (o := o), <- !surjective_pairing.
  - unfold ledger_ok. rewrite table_record_ne by done. apply (Hi j).
Qed.
(** A row that makes no trust report stand. *)
Lemma inv_record_open s i st o : inv s -> valid st o -> done_with (row_outcome (table (record_row s i st o) i) TrustReport) = false -> inv (record_row s i st o).
Proof. intros Hi Hv Hd. apply inv_record; [done|done|]. intros Hd'. by rewrite Hd in Hd'. Qed.
Lemma inv_record_trust s i o : inv s -> valid TrustReport o -> audited s !! i = Some (table s i) ->
  (forall st, st <> TrustReport -> is_Some (table s i !! debug_step st)) -> inv (record_row s i TrustReport o).
Proof.
  intros Hi Hv Ha Hall. apply inv_record; [done|done|]. intros _. exists (table s i). split; [exact Ha|]. intros st Hst.
  rewrite table_record, lookup_insert_ne; [by split; [apply Hall|]|]. intros E%debug_step_inj. by apply Hst.
Qed.

(** *** Read back *)
Lemma decode_row_ok i name r : row_ok name r -> exists s o, decode_row i (row_of (name, r)) = Ok (s, o) /\ name = debug_step s /\ decode_outcome s r.1 r.2 = Some o.
Proof.
  intros (s & o & Hv & He). exists s, o. pose proof (outcome_roundtrip s o Hv) as [Hs Ho]. pose proof (encode_name s o) as En.
  rewrite He in Hs, Ho, En. cbn in *. by rewrite Hs, Ho.
Qed.
Lemma outcome_of_elem (recorded : Recorded) s o : NoDup recorded.*1 -> outcome_of s recorded = Some o <-> (s, o) ∈ recorded.
Proof.
  intros Hn. unfold outcome_of. split.
  - destruct (List.find _ _) as [[s' o']|] eqn:E; [|done]. cbn. intros [= ->]. apply find_some in E as [Hin Hb%bool_decide_eq_true_1].
    cbn in Hb. subst s'. by rewrite <- list_elem_of_In, elem_of_reverse in Hin.
  - intros Hin. destruct (List.find _ _) as [[s' o']|] eqn:E.
    + apply find_some in E as [Hin' Hb%bool_decide_eq_true_1]. cbn in Hb |- *. subst s'. rewrite <- list_elem_of_In, elem_of_reverse in Hin'.
      f_equal. apply list_elem_of_lookup in Hin as [n Hn1], Hin' as [m Hm1].
      assert (m = n) as ->; [|congruence]. eapply NoDup_lookup; [exact Hn|rewrite list_lookup_fmap, Hm1|rewrite list_lookup_fmap, Hn1]; reflexivity.
    + apply (find_none _ _) with (x := (s, o)) in E; [|by rewrite <- list_elem_of_In, elem_of_reverse]. cbn in E. by rewrite bool_decide_eq_true_2 in E.
Qed.
Lemma decode_rows_elems i (l : list (string * (string * string))) :
  Forall (fun r => row_ok r.1 r.2) l -> NoDup l.*1 ->
  exists recorded, decode_rows i (row_of <$> l) = Ok recorded /\ debug_step <$> recorded.*1 = l.*1 /\
    forall s o, (s, o) ∈ recorded <-> exists r, (debug_step s, r) ∈ l /\ decode_outcome s r.1 r.2 = Some o.
Proof.
  induction l as [|[name r] l IH]; intros Hall Hn.
  - exists []. split; [done|]. split; [done|]. intros s o. split; [by intros ?%not_elem_of_nil|by intros (r & ?%not_elem_of_nil & _)].
  - apply list.Forall_cons in Hall as [Hr Hall]. cbn in Hr, Hn. apply list.NoDup_cons in Hn as [Hnot Hn].
    destruct (decode_row_ok i name r Hr) as (s & o & Hd & -> & Ho), (IH Hall Hn) as (recorded & Hrec & Hnames & Hin).
    exists ((s, o) :: recorded). cbn [fmap list_fmap decode_rows]. rewrite Hd, Hrec. split; [done|]. split; [cbn; by rewrite Hnames|].
    intros s' o'. rewrite elem_of_cons. split.
    + intros [[= -> ->]|(r' & Hr' & Ho')%Hin]; [exists r; by split; [left|]|]. exists r'. by split; [right|].
    + intros (r' & [[= E%debug_step_inj ->]|Hr']%elem_of_cons & Ho'); [left; subst s'; congruence|]. right. apply Hin. by exists r'.
Qed.
Lemma decode_rows_ok i s l : map_Forall row_ok (table s i) -> l ≡ₚ row_of <$> map_to_list (table s i) ->
  exists recorded, decode_rows i l = Ok recorded /\ tracks i recorded s.
Proof.
  intros Hok Hp. destruct (Permutation_map_inv _ _ Hp) as (l' & -> & Hp').
  assert (Hl : forall n r, (n, r) ∈ l' <-> table s i !! n = Some r) by (intros n r; by rewrite <- Hp', elem_of_map_to_list).
  assert (Hn : NoDup l'.*1) by (rewrite <- Hp'; apply NoDup_fst_map_to_list).
  destruct (decode_rows_elems i l') as (recorded & Hrec & Hnames & Hin); [|exact Hn|].
  - apply list.Forall_forall. intros [n r] Hnr%Hl. by apply (Hok n r).
  - exists recorded. split; [exact Hrec|]. intros st. apply option_eq. intros o.
    rewrite outcome_of_elem by (apply (NoDup_fmap_1 debug_step); by rewrite Hnames). rewrite Hin. unfold row_outcome. split.
    + intros (r & Hr%Hl & Ho). by rewrite Hr.
    + intros Ho. destruct (table s i !! debug_step st) as [r|] eqn:E; [|done]. exists r. by rewrite Hl.
Qed.

(** ** What a step does *)
Lemma find_blocked st recorded d : blocked_by st recorded = Some d <-> d ∈ consumes st /\ obstructs (outcome_of d recorded) = true.
Proof.
  unfold blocked_by. split.
  - by intros [Hd%list_elem_of_In Ho]%find_some.
  - intros [Hd Ho]. destruct st; cbn in Hd |- *; try (by apply not_elem_of_nil in Hd); apply list_elem_of_singleton in Hd as ->; by rewrite Ho.
Qed.
Lemma blocked_ext st r r' : (forall d, d ∈ consumes st -> outcome_of d r = outcome_of d r') -> blocked_by st r = blocked_by st r'.
Proof.
  intros He. apply option_eq. intros d. rewrite !find_blocked. split; intros [Hd Ho]; (split; [done|]); [by rewrite <- He|by rewrite He].
Qed.
(** What a program of the capture may come to, whatever it asks. *)
Lemma ends_bind {A B} (k : A -> Prog EdgeCapture.Service B) (p : Prog EdgeCapture.Service A) (Q : B -> Prop) :
  (forall a, ensures (k a) (fun _ b => Q b)) -> ensures (p ≫= k) (fun _ b => Q b).
Proof. intros Hk. apply ensures_bind. intros t a _. apply Hk. Qed.
Definition unblocked (o : StepOutcome) : Prop := forall d, o <> Blocked d.
Lemma edge_set_unblocked has_store sha i target : ensures (EdgeCapture.closeout_edge_set has_store sha i target) (fun _ o => unblocked o).
Proof.
  unfold EdgeCapture.closeout_edge_set, EdgeCapture.or_failed.
  repeat (match goal with
    | |- ensures (_ ≫= _) _ => apply ends_bind; intros ?
    | |- ensures (mret (match ?x with _ => _ end)) _ => destruct x
    | |- ensures (mret _) _ => by apply ensures_ret
    | |- ensures (match ?x with _ => _ end) _ => destruct x
    end).
Qed.
Lemma capture_answers (op : EdgeCapture.Op) : exists x : answer EdgeCapture.Service op, True.
Proof.
  destruct op; (eexists; [|exact I]) ; cbn;
    first [exact (Err (Occurrence.NotFound ""))|exact (Err (Validation ""))|exact (Err ""%string)|exact tt|exact []|exact true|exact 0|exact None].
Qed.

Section steps.
Context (has_store : bool) (sha256_hex : string -> string) (i : string).
Abbreviation ok p := (sat (I := Closeout) serve (may i) inv p).
Lemma record_ok s st o (Q : Result ClassifiedError unit -> State -> Prop) :
  inv s -> inv (record_row s i st o) -> may_write (table s i) (encode st o).1.1 (encode st o).1.2 (encode st o).2 ->
  Q (Ok tt) (record_row s i st o) -> (forall e s', inv s' -> Q (Err e) s') -> ok (record i st o) s Q.
Proof.
  intros Hi Hi' Hm Hq He. unfold record. rewrite (surjective_pairing (encode st o)), (surjective_pairing (encode st o).1).
  unfold stored, map_prog. apply sat_bind. unfold call. apply sat_ask; [done|by split|]. intros x s' [->|[-> Hx]].
  - split; [done|]. apply sat_ret; [done|]. destruct x as [[]|e]; [exact Hq|by apply He].
  - split; [done|]. apply sat_ret; [done|]. destruct x as [[]|e]; [by destruct Hx|by apply He].
Qed.
(** The result of a step leaves the rows as they are. *)
Definition stepped_to (st : CloseoutStep) (s : State) (o : StepOutcome) (s' : State) : Prop :=
  rows s' = rows s /\ inv s' /\ valid st o /\ unblocked o /\ (st = TrustReport -> audited s' !! i = Some (table s' i)).
Lemma plain_step st s o : inv s -> st <> TrustReport -> valid st o -> unblocked o -> ok (mret o) s (stepped_to st s).
Proof. intros Hi Hst Hv Hu. apply sat_ret; [done|]. by unfold stepped_to; split_and!; [done..|]. Qed.
Lemma asked_step st s op (f : Answer op -> StepOutcome) :
  inv s -> st <> TrustReport -> may i s op -> (forall x s', serve s op x s' -> s' = s) -> (forall x, valid st (f x) /\ unblocked (f x)) ->
  ok (x ← call op; mret (f x)) s (stepped_to st s).
Proof.
  intros Hi Hst Hm Hs Hf. apply sat_bind. unfold call. apply sat_ask; [done|done|]. intros x s' Hx%Hs. subst s'.
  split; [done|]. by apply plain_step; [..|apply Hf|apply Hf].
Qed.
Lemma no_crashes st : st <> TrustReport -> valid st (Skipped "the run retained no crashes") /\ unblocked (Skipped "the run retained no crashes").
Proof. intros _. split; [|done]. intros d _. by destruct d. Qed.
Lemma run_step_ok st scope s : inv s -> due (table s i) st -> ok (run_step has_store sha256_hex st i scope) s (stepped_to st s).
Proof.
  intros Hi Hd. destruct st; cbn [run_step].
  - apply asked_step; [done|done|by split|by intros x s' ->|by intros [x|e]].
  - unfold closeout_minimize. destruct (negb has_store); [by apply plain_step|].
    apply asked_step; [done|done|by split|by intros x s' ->|]. intros [[|x l]|e]; [by apply no_crashes|done|done].
  - apply asked_step; [done|done|by split|by intros x s' ->|by intros [x|e]].
  - eapply sat_mono; [apply (translate_sat (I := EdgeCapture.Service) (J := Closeout) Capture (fun _ x => x) serve (may i) inv _ s (fun _ => True) unblocked)|].
    + eapply ensures_mono; [apply edge_set_unblocked|]. intros t o Ho. split; [|done]. by apply list.Forall_true.
    + apply capture_answers.
    + done.
    + intros op _. split; [done|]. unfold works_on. by destruct (EdgeCapture.busy op).
    + by intros op x s' ->.
    + intros o s' [-> Ho]. split; [done|]. split; [done|]. split; [|by split]. destruct o as [x|x|x|x]; [done| |by destruct (Ho x)|done].
      intros d Hin. by apply not_elem_of_nil in Hin.
  - unfold closeout_disposition. apply asked_step; [done|done|by split|by intros x s' ->|]. intros [[|x l]|e]; [by apply no_crashes|done|done].
  - apply sat_bind. unfold call. apply sat_ask; [done|by split|]. intros x s' ->.
    assert (Hi' : inv (mkState (rows s) (<[i := table s i]> (audited s)))).
    { intros j. destruct (Hi j) as [Hr Ha]. split; [exact Hr|]. destruct (decide (j = i)) as [->|Hne].
      - intros Hdone. destruct Hd as [Hopen _]. change (table (mkState _ _) i) with (table s i) in Hdone. by rewrite Hopen in Hdone.
      - cbn [audited]. rewrite lookup_insert_ne by done. exact Ha. }
    split; [exact Hi'|]. apply sat_ret; [exact Hi'|]. split; [done|]. split; [exact Hi'|].
    split; [by destruct x|]. split; [by destruct x|]. intros _. cbn [audited]. by rewrite lookup_insert_eq.
Qed.

(** ** What a pass does *)
(** What became of a step that was to do, or was not. *)
Definition stepped (r0 r : Recorded) (st : CloseoutStep) : Prop :=
  if done_with (outcome_of st r0) then outcome_of st r = outcome_of st r0
  else exists o, outcome_of st r = Some o /\ forall d, o = Blocked d <-> blocked_by st r = Some d.
(** Before step [n]: the earlier ones have been taken, the others not. *)
Record walking (r0 : Recorded) (n : nat) (r : Recorded) (s : State) : Prop := mkWalking {
  w_inv : inv s;
  w_tracks : tracks i r s;
  w_later : forall st, Z.of_nat n <= position_of st -> outcome_of st r = outcome_of st r0;
  w_earlier : forall st, position_of st < Z.of_nat n -> stepped r0 r st;
}.
Lemma stepped_some r0 r st : stepped r0 r st -> is_Some (outcome_of st r).
Proof. unfold stepped. destruct (outcome_of st r0) as [o|] eqn:E; cbn; [destruct (is_terminal o)|]; [intros ->; by eexists|intros (o' & -> & _); by eexists..]. Qed.
Lemma earlier_rows r0 n r s st : walking r0 n r s -> position_of st < Z.of_nat n -> is_Some (table s i !! debug_step st).
Proof. intros [_ Ht _ Hs] Hst. apply row_some. rewrite <- Ht. eapply stepped_some, Hs, Hst. Qed.
Lemma walking_due r0 n r s st : walking r0 n r s -> position_of st = Z.of_nat n -> done_with (outcome_of st r0) = false -> blocked_by st r = None -> due (table s i) st.
Proof.
  intros Hw Hn Hd Hb. split; [|split].
  - rewrite <- (w_tracks _ _ _ _ Hw), (w_later _ _ _ _ Hw); [done|lia].
  - intros d Hin. rewrite <- (w_tracks _ _ _ _ Hw). destruct (obstructs (outcome_of d r)) eqn:E; [|done].
    assert (blocked_by st r = Some d) as H by by apply find_blocked. congruence.
  - intros st' Hlt. apply (earlier_rows _ _ _ _ _ Hw). lia.
Qed.
Lemma walking_step r0 n r s st o : walking r0 n r s -> position_of st = Z.of_nat n -> done_with (outcome_of st r0) = false ->
  valid st o -> inv (record_row s i st o) -> (forall d, o = Blocked d <-> blocked_by st r = Some d) ->
  walking r0 (S n) (replace_recorded r st o) (record_row s i st o).
Proof.
  intros [Hi Ht Hl He] Hn Hd Hv Hi' Hb.
  assert (Hext : forall st', position_of st' <= Z.of_nat n -> blocked_by st' (replace_recorded r st o) = blocked_by st' r).
  { intros st' Hle. apply blocked_ext. intros d Hin%consumes_before. rewrite outcome_replace, bool_decide_eq_false_2; [done|]. intros ->. lia. }
  split; [exact Hi'|by apply tracks_record|..]; intros st' Hst'; unfold stepped; rewrite outcome_replace; case_bool_decide as E.
  - subst st'. lia.
  - apply Hl. lia.
  - subst st'. rewrite Hd. exists o. split; [done|]. intros d. rewrite Hext by lia. apply Hb.
  - assert (position_of st' <> position_of st) by (intros ?%position_inj; done). rewrite Hext by lia. apply He. lia.
Qed.
Lemma walking_skip r0 n r s st : walking r0 n r s -> position_of st = Z.of_nat n -> done_with (outcome_of st r0) = true -> walking r0 (S n) r s.
Proof.
  intros [Hi Ht Hl He] Hn Hd. split; [exact Hi|exact Ht|..]; intros st' Hst'.
  - apply Hl. lia.
  - destruct (decide (st' = st)) as [->|Hne]; [unfold stepped; rewrite Hd; apply Hl; lia|].
    assert (position_of st' <> position_of st) by (intros ?%position_inj; done). apply He. lia.
Qed.
(** The trust report does not stand while a step is to do, and is the last. *)
Definition fresh (r0 : Recorded) : Prop := (exists st, done_with (outcome_of st r0) = false) -> done_with (outcome_of TrustReport r0) = false.
Lemma blocked_valid st r d : blocked_by st r = Some d -> valid st (Blocked d).
Proof. intros [Hd _]%find_blocked. by apply consumes_wait. Qed.
(** The row of a step that was to do may be written. *)
Lemma step_written r0 n r s st o : walking r0 n r s -> fresh r0 -> position_of st = Z.of_nat n -> done_with (outcome_of st r0) = false ->
  valid st o -> (st = TrustReport -> audited s !! i = Some (table s i)) -> inv (record_row s i st o) /\
  may_write (table s i) (encode st o).1.1 (encode st o).1.2 (encode st o).2.
Proof.
  intros Hw Hf Hn Hd Hv Ha. pose proof (w_tracks _ _ _ _ Hw) as Ht. split.
  - destruct (decide (st = TrustReport)) as [->|Hst].
    + apply inv_record_trust; [apply Hw|done|by apply Ha|]. intros st' Hst'. apply (earlier_rows _ _ _ _ _ Hw).
      pose proof (position_bounds st'). assert (position_of st' <> position_of TrustReport) by (intros ?%position_inj; done). cbn in *. lia.
    + apply inv_record_open; [apply Hw|done|]. rewrite row_outcome_record, bool_decide_eq_false_2 by done. rewrite <- Ht, (w_later _ _ _ _ Hw).
      * apply Hf. by exists st.
      * pose proof (position_bounds st). cbn. lia.
  - exists st, o. rewrite <- !surjective_pairing. split; [done|]. split; [done|]. left. rewrite <- Ht, (w_later _ _ _ _ Hw); [done|lia].
Qed.
Lemma walk_ok scope r0 : fresh r0 -> forall rest n r s, drop n closeout_ladder = rest -> (n <= 6)%nat -> walking r0 n r s ->
  ok (walk has_store sha256_hex i scope (List.filter (fun st => negb (done_with (outcome_of st r0))) rest) r) s
    (fun x s' => forall r', x = Ok r' -> walking r0 6 r' s').
Proof.
  intros Hf. induction rest as [|st rest IH]; intros n r s Hdrop Hn6 Hw.
  - apply sat_ret; [apply Hw|]. intros r' [= <-]. assert (n = 6)%nat as <-; [|done].
    apply (f_equal length) in Hdrop. rewrite length_drop in Hdrop. cbn in Hdrop. lia.
  - apply ladder_next in Hdrop as (Hn & Hrest & Hlt). cbn [List.filter]. destruct (done_with (outcome_of st r0)) eqn:Hd; cbn [negb].
    + apply (IH (S n)); [done|lia|]. by eapply walking_skip.
    + cbn [walk]. apply sat_bind.
      assert (Hstep : forall o s1, rows s1 = rows s -> inv s1 -> valid st o -> (forall d, o = Blocked d <-> blocked_by st r = Some d) ->
        (st = TrustReport -> audited s1 !! i = Some (table s1 i)) ->
        ok (_ ←? record i st o; walk has_store sha256_hex i scope (List.filter (fun st => negb (done_with (outcome_of st r0))) rest) (replace_recorded r st o)) s1
          (fun x s' => forall r', x = Ok r' -> walking r0 6 r' s')).
      { intros o s1 Hrows Hi1 Hv Hb Ha. assert (Hw1 : walking r0 n r s1).
        { destruct Hw as [_ Ht Hl He]. split; [done| |done|done]. intros st'. unfold table. rewrite Hrows. apply Ht. }
        destruct (step_written r0 n r s1 st o) as [Hi2 Hm]; [done..|]. unfold try_bind. apply sat_bind. apply record_ok; [done|done|done|..].
        - apply (IH (S n)); [done|lia|]. by apply walking_step.
        - intros e s' Hs'. by apply sat_ret. }
      destruct (blocked_by st r) as [d|] eqn:Hb.
      * apply sat_ret; [apply Hw|]. apply Hstep; [done|apply Hw|by eapply blocked_valid|intros d'; by split; intros [= ->]|].
        intros ->. by apply find_blocked in Hb as [Hb%not_elem_of_nil _].
      * eapply sat_mono; [apply run_step_ok; [apply Hw|by eapply walking_due]|]. intros o s1 (Hrows & Hi1 & Hv & Hu & Ha).
        apply Hstep; [done|done|done| |exact Ha]. intros d. split; [by intros ?%Hu|done].
Qed.
Lemma try_ok {A B} (k : A -> Fallible B) (p : Fallible A) s (P : A -> State -> Prop) (Q : Result ClassifiedError B -> State -> Prop) :
  ok p s (fun x s' => inv s' /\ forall a, x = Ok a -> P a s') -> (forall a s', P a s' -> ok (k a) s' Q) -> (forall e s', inv s' -> Q (Err e) s') ->
  ok (x ←? p; k x) s Q.
Proof.
  intros Hp Hk He. unfold try_bind. apply sat_bind. eapply sat_mono; [exact Hp|]. intros [a|e] s' [Hi HP]; [by apply Hk, HP|apply sat_ret; auto].
Qed.

(** *** The trust report is withdrawn *)
Definition withdrawn (r : Recorded) (s : State) (r0 : Recorded) (s0 : State) : Prop :=
  inv s0 /\ tracks i r0 s0 /\ fresh r0 /\ (forall st, st <> TrustReport -> outcome_of st r0 = outcome_of st r) /\
  ((forall st, done_with (outcome_of st r) = true) -> s0 = s /\ r0 = r) /\
  ((forall st, st <> TrustReport -> done_with (outcome_of st r) = true) -> outcome_of TrustReport r0 = outcome_of TrustReport r).
Lemma done_elem st (r : Recorded) : done_with (outcome_of st r) = true -> exists o, (st, o) ∈ r /\ is_terminal o = true.
Proof.
  unfold outcome_of. destruct (List.find _ _) as [[s' o]|] eqn:E; [|done]. cbn. intros Ho.
  apply find_some in E as [Hin Hb%bool_decide_eq_true_1]. cbn in Hb. subst s'. rewrite <- list_elem_of_In, elem_of_reverse in Hin. by exists o.
Qed.
Lemma withdraw_ok r s : inv s -> tracks i r s ->
  ok (withdraw i r) s (fun x s' => inv s' /\ forall r0, x = Ok r0 -> withdrawn r s r0 s').
Proof.
  intros Hi Ht. unfold withdraw. destruct (List.find _ _) as [changed|] eqn:E.
  - apply find_some in E as [Hp Hc]. rewrite <- list_elem_of_In, pending_spec in Hp. apply negb_true_iff, bool_decide_eq_false_1 in Hc.
    destruct (existsb _ r) eqn:Et.
    + assert (Hv : valid TrustReport (Blocked changed)) by by destruct changed.
      apply (try_ok _ _ _ (fun _ s' => s' = record_row s i TrustReport (Blocked changed))).
      * apply record_ok; [done| | | |].
        -- apply inv_record_open; [done|done|]. by rewrite row_outcome_record, bool_decide_eq_true_2.
        -- exists TrustReport, (Blocked changed). split; [done|]. split; [done|]. right. split; [done|]. exists changed. by rewrite <- Ht.
        -- split; [|done]. apply inv_record_open; [done|done|]. by rewrite row_outcome_record, bool_decide_eq_true_2.
        -- intros e s' Hs'. by split.
      * intros [] s' ->. assert (Hi' : inv (record_row s i TrustReport (Blocked changed))).
        { apply inv_record_open; [done|done|]. by rewrite row_outcome_record, bool_decide_eq_true_2. }
        apply sat_ret; [exact Hi'|]. split; [exact Hi'|]. intros r0 [= <-]. split; [exact Hi'|]. split; [by apply tracks_record|].
        split; [intros _; by rewrite outcome_replace, bool_decide_eq_true_2|].
        split; [intros st Hst; by rewrite outcome_replace, bool_decide_eq_false_2|].
        split; intros Hall; [by rewrite Hall in Hp|]. by rewrite Hall in Hp.
      * by intros e s' Hs'.
    + apply sat_ret; [done|]. split; [done|]. intros r0 [= <-]. split_and!; try done. intros _.
      destruct (done_with (outcome_of TrustReport r)) eqn:Ed; [|done]. apply done_elem in Ed as (o & Hin & Ho).
      assert (existsb (fun p => bool_decide (p.1 = TrustReport) && is_terminal p.2) r = true) as Hex; [|congruence].
      apply existsb_exists. exists (TrustReport, o). rewrite <- list_elem_of_In. split; [done|]. cbn. by rewrite Ho.
  - apply sat_ret; [done|]. split; [done|]. intros r0 [= <-]. split_and!; try done. intros [st Hst].
    destruct (decide (st = TrustReport)) as [->|Hne]; [done|]. eapply find_none in E; [|apply list_elem_of_In, pending_spec; exact Hst].
    by rewrite bool_decide_eq_false_2 in E.
Qed.

(** *** The whole pass *)
Lemma service_ok {A} (p : Prog EdgeCapture.Service A) s : EdgeCapture.only EdgeCapture.free p -> inv s ->
  ok (service p) s (fun _ s' => s' = s).
Proof.
  intros Hp Hi. eapply sat_mono; [apply (translate_sat (I := EdgeCapture.Service) (J := Closeout) Capture (fun _ x => x) serve (may i) inv p s
    (fun op => EdgeCapture.free op = true) (fun _ => True))|].
  - eapply ensures_mono; [exact Hp|]. by intros t a Ht.
  - apply capture_answers.
  - done.
  - intros op Hop. split; [done|]. unfold works_on. apply negb_true_iff in Hop. by rewrite Hop.
  - by intros op x s' ->.
  - by intros a s' [-> _].
Qed.
Lemma idle_run_scope : EdgeCapture.only EdgeCapture.free (run_scope has_store sha256_hex i).
Proof.
  unfold run_scope, EdgeCapture.retained_run_target_selector. EdgeCapture.only_tac; [apply EdgeCapture.idle_run_record|apply EdgeCapture.idle_matches|apply EdgeCapture.idle_selector].
Qed.
Lemma recorded_steps_ok s : inv s -> ok (recorded_steps has_store i) s (fun x s' => s' = s /\ forall r, x = Ok r -> tracks i r s).
Proof.
  intros Hi. unfold recorded_steps, require_store. destruct has_store; [|by apply sat_ret]. cbn. split; [done|]. split; [done|].
intros x s' [-> Hx]. destruct x as [l|e]; (apply sat_ret; [done|]; split; [done|]); [|done]. intros r Hr.
  destruct (decode_rows_ok i s l) as (r' & Hr' & Ht); [apply Hi|exact Hx|]. congruence.
Qed.
(** What a pass that returns a report has done. *)
Record closed (s : State) (rep : CloseoutReport) (s' : State) : Prop := mkClosed {
  c_report : rep = mkCloseoutReport RUN_CLOSEOUT_SCHEMA_VERSION i Available
    (omap (fun st => mkStepRecord st <$> row_outcome (table s' i) st) closeout_ladder) (resumed_at rep);
  c_all : forall st, is_Some (row_outcome (table s' i) st);
  c_kept : forall st, st <> TrustReport -> done_with (row_outcome (table s i) st) = true -> row_outcome (table s' i) st = row_outcome (table s i) st;
  c_blocked : forall st d, row_outcome (table s' i) st = Some (Blocked d) <->
    done_with (row_outcome (table s i) st) = false /\ d ∈ consumes st /\ obstructs (row_outcome (table s' i) d) = true;
  c_again : (forall st, done_with (row_outcome (table s i) st) = true) -> s' = s /\ resumed_at rep = None;
  c_resumed : forall st, resumed_at rep = Some st -> done_with (row_outcome (table s i) st) = false /\
    forall st', position_of st' < position_of st -> done_with (row_outcome (table s i) st') = true;
}.
Lemma first_pending r st : head (pending_steps r) = Some st ->
  done_with (outcome_of st r) = false /\ forall st', position_of st' < position_of st -> done_with (outcome_of st' r) = true.
Proof.
  unfold pending_steps. cbn [closeout_ladder List.filter].
  repeat match goal with |- context [if negb ?b then _ else _] => destruct b eqn:?; cbn [negb head] end;
    try done; intros [= <-]; (split; [done|]); intros st'; destruct st'; cbn; intros ?; try lia; done.
Qed.
Lemma none_pending r : pending_steps r = [] -> forall st, done_with (outcome_of st r) = true.
Proof.
  intros E st. destruct (done_with (outcome_of st r)) eqn:Ed; [done|]. apply pending_spec in Ed. rewrite E in Ed. by apply not_elem_of_nil in Ed.
Qed.
Lemma report_omap a r s re : tracks i r s ->
  report_from_recorded i a r re = mkCloseoutReport RUN_CLOSEOUT_SCHEMA_VERSION i a (omap (fun st => mkStepRecord st <$> row_outcome (table s i) st) closeout_ladder) re.
Proof. intros Ht. unfold report_from_recorded. cbn [omap list_omap closeout_ladder]. by rewrite !Ht. Qed.
Lemma done_not_blocked o d : done_with (Some o) = true -> o <> Blocked d.
Proof. by intros Ho ->. Qed.
Lemma stepped_blocked r0 r' st d : stepped r0 r' st ->
  outcome_of st r' = Some (Blocked d) <-> done_with (outcome_of st r0) = false /\ blocked_by st r' = Some d.
Proof.
  unfold stepped. destruct (done_with (outcome_of st r0)) eqn:Ed.
  - intros ->. split; [intros E; by rewrite E in Ed|by intros [? _]].
  - intros (o & -> & Hb). rewrite <- Hb. split; [intros [= ->]; by split|by intros [_ ->]].
Qed.
Lemma walked_closed r s r0 s0 r' s' re : tracks i r s -> withdrawn r s r0 s0 -> walking r0 6 r' s' -> (pending_steps r0 = [] -> s' = s0) ->
  re = (if (length (pending_steps r0) <? length closeout_ladder)%nat then head (pending_steps r0) else None) ->
  closed s (report_from_recorded i Available r' re) s'.
Proof.
  intros Ht (_ & Ht0 & Hf & Hsame & Hall & Htrust) Hw Hnone Hre. pose proof (w_tracks _ _ _ _ Hw) as Ht'.
  assert (Hs : forall st, stepped r0 r' st) by (intros st; apply (w_earlier _ _ _ _ Hw); pose proof (position_bounds st); lia).
  split.
  - by rewrite (report_omap _ _ s').
  - intros st. rewrite <- Ht'. by eapply stepped_some.
  - intros st Hst. rewrite <- Ht, <- Ht', <- (Hsame st Hst). intros Hd. specialize (Hs st). unfold stepped in Hs. by rewrite Hd in Hs.
  - intros st d. rewrite <- Ht, <- !Ht', (stepped_blocked _ _ _ _ (Hs st)), find_blocked.
    destruct (decide (st = TrustReport)) as [->|Hst]; [|by rewrite (Hsame st Hst)].
    split; [by intros (_ & ?%not_elem_of_nil & _)|by intros (_ & ?%not_elem_of_nil & _)].
  - intros Hd. destruct Hall as [-> ->]; [intros st; rewrite Ht; apply Hd|].
    assert (pending_steps r = []) as Hp.
    { destruct (pending_steps r) as [|x l] eqn:E; [done|]. assert (x ∈ pending_steps r) as Hx by (rewrite E; left). rewrite pending_spec, Ht, Hd in Hx. done. }
    split; [by apply Hnone|]. cbn. rewrite Hre, Hp. by destruct (_ <? _)%nat.
  - cbn [resumed_at report_from_recorded]. intros st E. rewrite Hre in E. destruct (_ <? _)%nat; [|done]. apply first_pending in E as [Hd Hb].
    assert (Hb' : forall st', position_of st' < position_of st -> done_with (outcome_of st' r) = true).
    { intros st' Hlt. rewrite <- (Hsame st'); [by apply Hb|]. intros ->. pose proof (position_bounds st). cbn in Hlt. lia. }
    split; [|intros st' Hlt; rewrite <- Ht; by apply Hb']. rewrite <- Ht. destruct (decide (st = TrustReport)) as [->|Hst]; [|by rewrite <- (Hsame st Hst)].
    rewrite <- Htrust; [done|]. intros st' Hst'. apply Hb'. pose proof (position_bounds st'). assert (position_of st' <> position_of TrustReport) by (intros ?%position_inj; done).
    cbn in *. lia.
Qed.
Lemma close_out_run_ok s : inv s -> ok (close_out_run has_store sha256_hex i) s (fun x s' => inv s' /\ forall rep, x = Ok rep -> closed s rep s').
Proof.
  intros Hi. unfold close_out_run.
  apply (try_ok _ _ _ (fun _ s' => s' = s)); [by apply sat_ret| |by intros e s' Hs']. intros [] s' ->.
  apply (try_ok _ _ _ (fun _ s' => s' = s)); [eapply sat_mono; [apply service_ok; [apply idle_run_scope|done]|by intros x s' ->]| |by intros e s' Hs'].
  intros scope s' ->. apply (try_ok _ _ _ (fun _ s' => s' = s)); [unfold call; apply sat_ask; [done|done|by intros x s' ->]| |by intros e s' Hs'].
  intros [] s' ->. apply (try_ok _ _ _ (fun r s' => s' = s /\ tracks i r s)); [eapply sat_mono; [by apply recorded_steps_ok|]| |by intros e s' Hs'].
  { intros x s' [-> Hx]. split; [done|]. intros r Hr. split; [done|by apply Hx]. }
  intros r s' [-> Ht]. apply (try_ok _ _ _ (withdrawn r s)); [by apply withdraw_ok| |by intros e s' Hs'].
  intros r0 s0 Hwd. pose proof Hwd as (Hi0 & Ht0 & Hf & _).
  apply (try_ok _ _ _ (fun r' s' => walking r0 6 r' s' /\ (pending_steps r0 = [] -> s' = s0))).
  - assert (Hw0 : walking r0 0 r0 s0) by (split; [done|done|done|]; intros st Hst; pose proof (position_bounds st); lia).
    destruct (pending_steps r0) as [|p ps] eqn:Ep.
    + pose proof (walk_ok scope r0 Hf closeout_ladder 0 r0 s0 eq_refl ltac:(lia) Hw0) as Hw. unfold pending_steps in Ep. rewrite Ep in Hw.
      cbn in Hw |- *. destruct Hw as [_ Hw]. split; [done|]. split; [done|]. intros r' [= <-]. split; [by apply Hw|done].
    + rewrite <- Ep. pose proof (walk_ok scope r0 Hf closeout_ladder 0 r0 s0 eq_refl ltac:(lia) Hw0) as Hw.
      change (List.filter (fun st => negb (done_with (outcome_of st r0))) closeout_ladder) with (pending_steps r0) in Hw.
      apply sat_post_inv. eapply sat_mono; [exact Hw|]. intros x s' Hx r' Hr. split; [by apply Hx|]. by rewrite Ep.
  - intros r' s' [Hw Hn]. apply sat_ret; [apply Hw|]. split; [apply Hw|]. intros rep [= <-]. by eapply walked_closed.
  - by intros e s' Hs'.
Qed.

(** *** Errors *)
Definition quiet (op : Op) : bool := match op with RecordCloseoutStep _ _ _ _ => false | op => match works_on op with None => true | _ => false end end.
Definition quietly (e : Event Closeout) : Prop := quiet (asked e) = true.
Abbreviation silent p := (ensures (I := Closeout) p (fun t _ => Forall quietly t)).
Definition write_failed (t : Trace Closeout) : Prop :=
  exists name label detail e, mkEvent (I := Closeout) (RecordCloseoutStep i name label detail) (Err e) ∈ t.
Lemma silent_ret {A} (a : A) : silent (mret a).
Proof. by apply ensures_ret. Qed.
Lemma silent_call op : quiet op = true -> silent (call op).
Proof. intros Hq. apply (ensures_ask (I := Closeout) op). intros x. by repeat constructor. Qed.
Lemma silent_bind {A B} (k : A -> Prog Closeout B) (p : Prog Closeout A) : silent p -> (forall a, silent (k a)) -> silent (p ≫= k).
Proof.
  intros Hp Hk. apply ensures_bind. eapply ensures_mono; [exact Hp|]. intros t a Ht.
  eapply ensures_mono; [apply Hk|]. intros t' b Ht'. by apply list.Forall_app.
Qed.
Lemma silent_try {A B} (k : A -> Fallible B) (p : Fallible A) : silent p -> (forall a, silent (k a)) -> silent (x ←? p; k x).
Proof. intros Hp Hk. apply silent_bind; [done|]. intros [a|e]; [apply Hk|apply silent_ret]. Qed.
Lemma silent_service {A} (p : Prog EdgeCapture.Service A) : EdgeCapture.only EdgeCapture.free p -> silent (service p).
Proof.
  intros Hp t r Hr. assert (exists t0, Interaction.runs p t0 r /\ Forall2 (fun (e : Event Closeout) (e0 : Event EdgeCapture.Service) => asked e = Capture (asked e0)) t t0) as (t0 & Hr0 & Ht).
  { clear Hp. unfold service in Hr. revert t Hr. induction p as [a|op k IH]; intros t Hr; [destruct Hr as [-> ->]; by exists []|].
    destruct Hr as (x & t' & -> & (t0 & Hr & Ht)%IH). exists (mkEvent (I := EdgeCapture.Service) op x :: t0). split; [by exists x, t0|by constructor]. }
  specialize (Hp t0 r Hr0). clear Hr Hr0. induction Ht as [|e e0 t t0 He _ IH]; [constructor|]. inversion Hp as [|? ? Hf Hp']; subst.
  constructor; [|by apply IH]. unfold quietly. rewrite He. cbn. apply negb_true_iff in Hf. by rewrite Hf.
Qed.
Lemma silent_recorded : silent (recorded_steps has_store i).
Proof.
  unfold recorded_steps. apply silent_try; [apply silent_ret|intros _]. apply silent_try; [|intros l; apply silent_ret].
  unfold stored, map_prog. apply silent_bind; [exact (silent_call (CloseoutSteps i) eq_refl)|intros l; apply silent_ret].
Qed.
Lemma write_failed_app t0 t : write_failed t -> write_failed (t0 ++ t).
Proof. intros (n & l & d & e & H). exists n, l, d, e. apply elem_of_app. by right. Qed.
Definition fails_by_write {A} (t : Trace Closeout) (x : Result ClassifiedError A) : Prop := forall e, x = Err e -> write_failed t.
Lemma fails_bind {A B} (k : A -> Fallible B) (p : Prog Closeout A) : (forall a, ensures (k a) fails_by_write) -> ensures (p ≫= k) fails_by_write.
Proof.
  intros Hk. apply ensures_bind. intros t a _. eapply ensures_mono; [apply Hk|]. intros t' x Hx e He. by eapply write_failed_app, Hx.
Qed.
Lemma fails_try {A B} (k : A -> Fallible B) (p : Fallible A) : ensures p fails_by_write -> (forall a, ensures (k a) fails_by_write) -> ensures (x ←? p; k x) fails_by_write.
Proof.
  intros Hp Hk. apply ensures_bind. eapply ensures_mono; [exact Hp|]. intros t [a|e] Ht.
  - eapply ensures_mono; [apply Hk|]. intros t' x Hx e He. by eapply write_failed_app, Hx.
  - apply ensures_ret. intros e' _. rewrite app_nil_r. by apply (Ht e).
Qed.
Lemma record_errors st o : ensures (record i st o) fails_by_write.
Proof.
  unfold record. rewrite (surjective_pairing (encode st o)), (surjective_pairing (encode st o).1). unfold stored, map_prog. apply ensures_bind.
  refine (ensures_ask (I := Closeout) (RecordCloseoutStep _ _ _ _) _ _). intros [[]|e]; apply ensures_ret; [done|]. intros e' _. eexists _, _, _, e. left.
Qed.
Lemma withdraw_errors r : ensures (withdraw i r) fails_by_write.
Proof.
  unfold withdraw. destruct (List.find _ _); [|by apply ensures_ret]. destruct (existsb _ r); [|by apply ensures_ret].
  apply fails_try; [apply record_errors|]. intros []. by apply ensures_ret.
Qed.
Lemma walk_errors scope pending : forall r, ensures (walk has_store sha256_hex i scope pending r) fails_by_write.
Proof.
  induction pending as [|st pending IH]; intros r; cbn [walk]; [by apply ensures_ret|]. apply fails_bind. intros o.
  apply fails_try; [apply record_errors|intros []; apply IH].
Qed.
Definition pass_fails {A} (t : Trace Closeout) (x : Result ClassifiedError A) : Prop := forall e, x = Err e -> write_failed t \/ Forall quietly t.
Lemma pass_fails_try {A B} (k : A -> Fallible B) (p : Fallible A) : silent p -> (forall a, ensures (k a) pass_fails) -> ensures (x ←? p; k x) pass_fails.
Proof.
  intros Hp Hk. apply ensures_bind. eapply ensures_mono; [exact Hp|]. intros t [a|e] Ht.
  - eapply ensures_mono; [apply Hk|]. intros t' x Hx e He. destruct (Hx e He) as [Hf|Hq]; [left; by apply write_failed_app|right]. by apply list.Forall_app.
  - apply ensures_ret. intros e' _. right. by rewrite app_nil_r.
Qed.
Lemma pass_errors : ensures (close_out_run has_store sha256_hex i) pass_fails.
Proof.
  unfold close_out_run. apply pass_fails_try; [apply silent_ret|intros _].
  apply pass_fails_try; [apply silent_service, idle_run_scope|intros scope]. apply pass_fails_try; [exact (silent_call (AcquireRunCloseoutLease i) eq_refl)|intros _].
  apply pass_fails_try; [apply silent_recorded|intros r]. eapply ensures_mono with (P := fails_by_write); [|intros t x Hx e He; left; by eapply Hx].
  apply fails_try; [apply withdraw_errors|intros r0]. apply fails_try; [apply walk_errors|intros r']. by apply ensures_ret.
Qed.
End steps.

(** ** Passes, one after the other *)
(** The lease, a lock of the operating system, lets one pass of a run work at a time,
    and a pass touches the rows of its own run only.  Clearing runs deletes their rows,
    between passes here. *)
Section passes.
Context (has_store : bool) (sha256_hex : string -> string).
Abbreviation pass i := (close_out_run has_store sha256_hex i).
Inductive reached : State -> Prop :=
| reached_new : reached (mkState ∅ ∅)
| reached_clear s i : reached s -> reached (mkState (delete i (rows s)) (audited s))
| reached_pass s i t s' : reached s -> follows (pass i) t -> served (I := Closeout) serve s t s' -> reached s'.
Lemma reached_inv s : reached s -> inv s.
Proof.
  induction 1 as [|s i _ IH|s i t s' _ IH Hf Hs].
  - intros i. split; [apply map_Forall_empty|done].
  - intros j. unfold ledger_ok, table. cbn [rows audited]. destruct (decide (j = i)) as [->|Hne].
    + rewrite lookup_delete_eq. split; [apply map_Forall_empty|done].
    + rewrite lookup_delete_ne by done. apply (IH j).
  - eapply (sat_follows (I := Closeout) serve (may i) inv); [by apply close_out_run_ok|exact Hf|exact Hs].
Qed.

(** C39: the rows of closeouts are durable: after any sequence of passes over any runs,
    and of runs cleared between them, each pass stopped at any call, with any call
    failing and any write that failed carried out or not, the rows of every run are
    read back in whatever order as the last outcome written of each step, and a trust
    report that stands was derived from the very rows that stand, one of every other
    step.  A pass, stopped at any call, works on a step only if its row is not
    terminal, no step it reads from has failed and every earlier step has a row; it
    writes only its own run's rows, of steps that were to do, or withdraws the trust
    report when one is. *)
Theorem closeout_durable s i : reached s ->
  (forall l, l ≡ₚ row_of <$> map_to_list (table s i) ->
    exists recorded, decode_rows i l = Ok recorded /\ forall st, outcome_of st recorded = row_outcome (table s i) st) /\
  audit_ok (table s i) (audited s !! i) /\
  (forall t1 e t2 s1, follows (pass i) (t1 ++ e :: t2) -> served (I := Closeout) serve s t1 s1 -> may i s1 (asked e)).
Proof.
  intros Hs%reached_inv. split; [intros l; apply decode_rows_ok, Hs|]. split; [apply Hs|]. intros t1 e t2 s1.
  eapply (sat_may (I := Closeout) serve (may i) inv). by apply close_out_run_ok.
Qed.
(** C40: a pass that returns a report leaves an outcome of every step, and reports what
    the rows hold: what was terminal is kept, except that a trust report is withdrawn
    and derived anew when another step was to do; a step is blocked exactly if it was
    to do and a step it reads from failed or is blocked; and a pass over a finished
    closeout changes nothing.  A failed step does not stop a pass: one that returns an
    error had a write fail, or has neither worked on a step nor written. *)
Theorem closeout_pass s i : reached s ->
  (forall t rep s', Interaction.runs (pass i) t (Ok rep) -> served (I := Closeout) serve s t s' -> closed i s rep s') /\
  (forall t e, Interaction.runs (pass i) t (Err e) -> write_failed i t \/ Forall quietly t).
Proof.
  intros Hs%reached_inv. split.
  - intros t rep s' Hr Hv. pose proof (close_out_run_ok has_store sha256_hex i s Hs) as Hok. by destruct (sat_runs (I := Closeout) serve _ _ _ _ _ _ _ _ Hok Hr Hv) as [_ Hc]; apply Hc.
  - intros t e Hr. by apply (pass_errors has_store sha256_hex i t (Err e) Hr e).
Qed.
(** Reading the closeout back runs nothing and reports the same rows. *)
Theorem retained_reads s i t rep s' : reached s -> Interaction.runs (retained_run_closeout has_store sha256_hex i) t (Ok rep) -> served (I := Closeout) serve s t s' ->
  Forall quietly t /\ s' = s /\
  steps rep = omap (fun st => mkStepRecord st <$> row_outcome (table s i) st) closeout_ladder /\
  (forall st, resumed_at rep = Some st -> done_with (row_outcome (table s i) st) = false).
Proof.
  intros Hs%reached_inv Hr Hv. split.
  - assert (Hq : ensures (I := Closeout) (retained_run_closeout has_store sha256_hex i) (fun t _ => Forall quietly t)); [|exact (Hq t _ Hr)].
    unfold retained_run_closeout. apply silent_try; [apply silent_recorded|intros r].
    apply silent_bind; [apply silent_service, idle_run_scope|intros scope]. apply silent_try; [apply silent_ret|intros a; apply silent_ret].
  - assert (Hok : sat (I := Closeout) serve (may i) inv (retained_run_closeout has_store sha256_hex i) s (fun x s' => s' = s /\ forall rep, x = Ok rep ->
      steps rep = omap (fun st => mkStepRecord st <$> row_outcome (table s i) st) closeout_ladder /\
      forall st, resumed_at rep = Some st -> done_with (row_outcome (table s i) st) = false)).
    { unfold retained_run_closeout, try_bind. apply sat_bind. eapply sat_mono; [by apply recorded_steps_ok|]. intros [r|e] s1 [-> Ht]; [|by apply sat_ret].
      specialize (Ht r eq_refl). apply sat_bind. eapply sat_mono; [apply service_ok; [apply idle_run_scope|done]|]. intros scope s1 ->.
      apply sat_bind, sat_ret; [done|]. destruct (match scope with Ok _ => _ | Err _ => _ end) as [a|e]; apply sat_ret; try done.
      split; [done|]. intros rep' [= <-]. rewrite (report_omap i a r s) by done. split; [done|]. intros st. cbn [resumed_at].
      rewrite <- Ht. destruct r; [done|]. by intros [? _]%first_pending. }
    destruct (sat_runs (I := Closeout) serve _ _ _ _ _ _ _ _ Hok Hr Hv) as [-> Hc]. by destruct (Hc rep eq_refl).
Qed.
End passes.

(** ** Two passes *)
Section sample.
Definition capture_answer (op : EdgeCapture.Op) : EdgeCapture.Answer op :=
  match op return EdgeCapture.Answer op with
  | EdgeCapture.ReadRunEdgeSet i => Ok (Some (mkRunEdgeSetRecord i "" "" 1 2 [] 0))
  | op => EdgeCapture.sample_answer ["/"; "ws"]%string ["/"; "ws"]%string [] op
  end.
(** The first triage fails. *)
Definition act (s : State) (op : Op) : Answer op * State :=
  match op return Answer op * State with
  | Capture op => (capture_answer op, s)
  | AcquireRunCloseoutLease _ => (Ok tt, s)
  | CloseoutSteps i => (Ok (row_of <$> map_to_list (table s i)), s)
  | RecordCloseoutStep i name label detail => (Ok tt, write s i name label detail)
  | TriageRun _ _ i => (if bool_decide (table s i = ∅) then Err (Validation "no debugger") else Ok 1, s)
  | ListCrashesByRun _ => (Ok [true], s)
  | CorpusAbsorbCrashesForRun _ _ _ => (Ok 1, s)
  | FindingReviewQueue _ _ => (Ok [Finding.HarnessDefect], s)
  | CampaignTrustReport i => (Ok Unqualified, mkState (rows s) (<[i := table s i]> (audited s)))
  end.
Lemma act_serves s op : serve s op (act s op).1 (act s op).2.
Proof. destruct op; cbn; auto. Qed.
Fixpoint act_out {A} (p : Prog Closeout A) (s : State) : Trace Closeout * A * State :=
  match p with
  | Ret a => ([], a, s)
  | Ask op k => let x := act s op in let '(t, a, s') := act_out (k x.1) x.2 in (mkEvent (I := Closeout) op x.1 :: t, a, s')
  end.
Lemma act_out_runs {A} (p : Prog Closeout A) s :
  Interaction.runs p (act_out p s).1.1 (act_out p s).1.2 /\ served (I := Closeout) serve s (act_out p s).1.1 (act_out p s).2.
Proof.
  revert s. induction p as [a|op k IH]; intros s; [done|]. cbn [act_out]. specialize (IH (act s op).1 (act s op).2).
  destruct (act_out (k (act s op).1) (act s op).2) as [[t a] s'] eqn:E. cbn [fst snd] in *. destruct IH as [Hr Hv]. split.
  - by exists (act s op).1, t.
  - exists (act s op).2. split; [apply act_serves|exact Hv].
Qed.
Lemma runs_follows {A} (p : Prog Closeout A) t r : Interaction.runs p t r -> follows p t.
Proof.
  revert t. induction p as [a|op k IH]; intros t; [by intros [-> _]|]. intros (x & t' & -> & Hr). exists x. split; [done|]. by apply IH.
Qed.
Definition sample_pass := act_out (close_out_run true (fun s => s) "r").
Definition after_first : State := (sample_pass (mkState ∅ ∅)).2.
Definition outcomes (x : Result ClassifiedError CloseoutReport) : option (list StepOutcome * option CloseoutStep) :=
  match x with Ok rep => Some (outcome <$> steps rep, resumed_at rep) | Err _ => None end.
Lemma after_first_reached : reached true (fun s => s) after_first.
Proof.
  destruct (act_out_runs (close_out_run true (fun s => s) "r") (mkState ∅ ∅)) as [Hr Hv].
  eapply reached_pass; [apply reached_new|by eapply runs_follows|exact Hv].
Qed.
End sample.
Example first_pass_ex : outcomes (sample_pass (mkState ∅ ∅)).1.2 =
  Some ([Failed "validation error: no debugger"; Blocked Triage; Blocked Triage; Completed "edge set retained: 2 edges from 1 inputs"; Blocked Triage; Completed "Unqualified"], None).
Proof. vm_compute. reflexivity. Qed.
Example second_pass_ex : outcomes (sample_pass after_first).1.2 =
  Some ([Completed "1 crash(es) attributed"; Completed "triage retained 1 of 1 crash(es) as already minimized"; Completed "1 input(s) absorbed";
         Completed "edge set retained: 2 edges from 1 inputs"; Completed "1 crash(es) dispositioned, 1 of them harness defects"; Completed "Unqualified"], Some Triage)
  /\ length (sample_pass after_first).1.1 = 16%nat.
Proof. split; vm_compute; reflexivity. Qed.
(** The trust report that the first pass left is withdrawn before anything is done again. *)
Lemma closeout_durable_witness : audit_ok (table after_first "r") (audited after_first !! "r"%string) /\
  done_with (row_outcome (table after_first "r") TrustReport) = true.
Proof. split; [apply (closeout_durable true (fun s => s) after_first "r" after_first_reached)|vm_compute; reflexivity]. Defined.
Lemma closeout_pass_witness : exists rep, (sample_pass after_first).1.2 = Ok rep /\ closed "r" after_first rep (sample_pass after_first).2.
Proof.
  destruct (act_out_runs (close_out_run true (fun s => s) "r") after_first) as [Hr Hv].
  destruct (act_out (close_out_run true (fun s => s) "r") after_first) as [[t [rep|e]] s'] eqn:E.
  - exists rep. unfold sample_pass. rewrite E. split; [reflexivity|].
    exact (proj1 (closeout_pass true (fun s => s) after_first "r" after_first_reached) t rep s' Hr Hv).
  - exfalso. assert (H : outcomes (sample_pass after_first).1.2 = None) by (unfold sample_pass; rewrite E; reflexivity). vm_compute in H. discriminate H.
Defined.
