(* ===== verification/Canonical.v ===== *)
(** * Canonical sessions

    Models [crates/hf-session/src/canonical.rs]: one conversation over several
    channels.  The two maps the manager keeps behind locks are its state; every call
    holds the lock of the first from its start to its end, so that calls are steps.  A
    counter counts the messages of a vector, which holds fewer than [2^63]. *)
From stdpp Require Import gmap strings.
From S2P Require Import Prelude Context.

Inductive Channel := Cli | Api | Web | Custom (name : string).
#[export] Instance Channel_eq_dec : EqDecision Channel.
Proof. solve_decision. Defined.
#[export] Instance Channel_countable : Countable Channel.
Proof.
  refine (inj_countable' (fun c => match c with Cli => inl 0%nat | Api => inl 1%nat | Web => inl 2%nat | Custom n => inr n end)
    (fun x => match x with inl 0%nat => Cli | inl 1%nat => Api | inl _ => Web | inr n => Custom n end) _).
  by intros [].
Defined.
Definition display_channel (c : Channel) : string :=
  match c with Cli => "cli" | Api => "api" | Web => "web" | Custom name => name end.
Record CanonicalMessage := mkCanonical { message : Message; channel : Channel; sequence : Z }.
Record CanonicalConfig := mkConfig { max_channels : nat; auto_merge : bool }.
Definition default_config : CanonicalConfig := mkConfig 8 true.
Record ChannelState := mkState { channels : gmap Channel string; transcript : list CanonicalMessage }.
Record Manager := mkManager { channel_map : gmap string ChannelState; sequence_counters : gmap string Z }.
Definition new : Manager := mkManager ∅ ∅.
Inductive CanonicalError := NotFound (canonical_id : string) | ChannelNotFound (canonical_id channel : string) | TooManyChannels (canonical_id : string) (max : nat).

(** ** Operations *)
Definition register_channel (cfg : CanonicalConfig) (i : string) (c : Channel) (child : string) (m : Manager) : Manager * Result CanonicalError unit :=
  let state := default (mkState ∅ []) (channel_map m !! i) in
  let store s := mkManager (<[i := s]> (channel_map m)) (sequence_counters m) in
  if bool_decide (channels state !! c = None) && (max_channels cfg <=? size (channels state))%nat
  then (store state, Err (TooManyChannels i (max_channels cfg)))
  else (store (mkState (<[c := child]> (channels state)) (transcript state)), Ok tt).
Definition append_message (i : string) (c : Channel) (msg : Message) (m : Manager) : Manager * Result CanonicalError Z :=
  match channel_map m !! i with
  | None => (m, Err (NotFound i))
  | Some state =>
      let sequence := default 0 (sequence_counters m !! i) + 1 in
      (mkManager (<[i := mkState (channels state) (transcript state ++ [mkCanonical msg c sequence])]> (channel_map m))
         (<[i := sequence]> (sequence_counters m)), Ok sequence)
  end.
Definition state_of (i : string) (m : Manager) : Result CanonicalError ChannelState := ok_or (NotFound i) (channel_map m !! i).
Definition by_sequence (a b : CanonicalMessage) : comparison := Z.compare (sequence a) (sequence b).
Definition canonical_transcript (i : string) (m : Manager) : Result CanonicalError (list CanonicalMessage) :=
  state ← state_of i m; Ok (sort_by by_sequence (transcript state)).
Definition channel_session (i : string) (c : Channel) (m : Manager) : Result CanonicalError string :=
  state ← state_of i m; ok_or (ChannelNotFound i (display_channel c)) (channels state !! c).
(** The keys of a [HashMap], in no particular order. *)
Definition list_channels (i : string) (m : Manager) : Result CanonicalError (gset Channel) :=
  state ← state_of i m; Ok (dom (channels state)).
Definition messages_by_role (i : string) (r : Role) (m : Manager) : Result CanonicalError (list CanonicalMessage) :=
  transcript ← canonical_transcript i m; Ok (filter (fun x => role (message x) = r) transcript).
Definition message_count (i : string) (m : Manager) : Result CanonicalError Z := state ← state_of i m; Ok (zlen (transcript state)).

Inductive Call := Register (i : string) (c : Channel) (child : string) | Append (i : string) (c : Channel) (msg : Message).
Definition perform (cfg : CanonicalConfig) (m : Manager) (call : Call) : Manager :=
  match call with Register i c child => (register_channel cfg i c child m).1 | Append i c msg => (append_message i c msg m).1 end.
Definition after (cfg : CanonicalConfig) (calls : list Call) : Manager := fold_left (perform cfg) calls new.

(** The cases of the module's own tests. *)
Example append_unknown : append_message "missing" Cli (new_message "m" User "hi") new = (new, Err (NotFound "missing")).
Proof. reflexivity. Qed.
Example channel_limit :
  let m := after (mkConfig 2 true) [Register "c" Cli "s1"; Register "c" Api "s2"] in
  (register_channel (mkConfig 2 true) "c" Web "s3" m).2 = Err (TooManyChannels "c" 2)
  /\ (register_channel (mkConfig 2 true) "c" Api "s4" m).2 = Ok tt.
Proof. split; vm_compute; reflexivity. Qed.

(** ** What was said, in the order it was said *)
(** The messages a list of calls leaves in a canonical session: those appended since it
    was first registered. *)
Definition said_step (i : string) (acc : option (list (Channel * Message))) (call : Call) : option (list (Channel * Message)) :=
  match call with
  | Register j _ _ => if bool_decide (i = j) then Some (default [] acc) else acc
  | Append j c msg => if bool_decide (i = j) then (fun l => l ++ [(c, msg)]) <$> acc else acc
  end.
Definition said (i : string) (calls : list Call) : option (list (Channel * Message)) := fold_left (said_step i) calls None.
(** Numbered from one. *)
Definition numbered (l : list (Channel * Message)) : list CanonicalMessage :=
  imap (fun n x => mkCanonical x.2 x.1 (Z.of_nat n + 1)) l.
Lemma numbered_snoc l x : numbered (l ++ [x]) = numbered l ++ [mkCanonical x.2 x.1 (zlen l + 1)].
Proof. unfold numbered, zlen. rewrite imap_app. cbn. by rewrite Nat.add_0_r. Qed.
Lemma length_numbered l : zlen (numbered l) = zlen l.
Proof. unfold numbered, zlen. by rewrite length_imap. Qed.

(** The state implements that log. *)
Definition logs (i : string) (m : Manager) (log : option (list (Channel * Message))) : Prop :=
  transcript <$> channel_map m !! i = numbered <$> log /\ default 0 (sequence_counters m !! i) = zlen (default [] log).
Lemma perform_logs cfg i m log call : logs i m log -> logs i (perform cfg m call) (said_step i log call).
Proof.
  intros [Ht Hc]. destruct call as [j c child|j c msg]; cbn [perform said_step].
  - unfold register_channel. set (state := default _ _).
    destruct (decide (i = j)) as [<-|E]; [rewrite (bool_decide_eq_true_2 (i = i)) by done|rewrite (bool_decide_eq_false_2 (i = j)) by done].
    + assert (Hs : transcript state = numbered (default [] log)).
      { subst state. destruct (channel_map m !! i) as [s|], log as [l|]; cbn in *; by simplify_eq. }
      destruct (_ && _); cbn; (split; [cbn [channel_map]; rewrite lookup_insert_eq; cbn; by rewrite Hs|cbn [sequence_counters default]; exact Hc]).
    + destruct (_ && _); cbn; (split; [cbn [channel_map]; by rewrite lookup_insert_ne|exact Hc]).
  - unfold append_message.
    destruct (decide (i = j)) as [<-|E]; [rewrite (bool_decide_eq_true_2 (i = i)) by done|rewrite (bool_decide_eq_false_2 (i = j)) by done].
    + destruct (channel_map m !! i) as [s|] eqn:Es, log as [l|]; cbn in Ht; simplify_eq; cbn [fst fmap option_fmap option_map].
      * split; cbn [channel_map sequence_counters].
        -- rewrite lookup_insert_eq. cbn. by rewrite Ht, numbered_snoc, Hc.
        -- rewrite lookup_insert_eq. cbn in *. rewrite Hc, zlen_app. done.
      * split; [by rewrite Es|exact Hc].
    + destruct (channel_map m !! j) as [s|] eqn:Es; cbn [fst]; [|by split].
      split; cbn [channel_map sequence_counters]; by rewrite lookup_insert_ne.
Qed.
Lemma after_logs cfg calls i : logs i (after cfg calls) (said i calls).
Proof.
  unfold after, said. assert (H0 : logs i new None) by (split; cbn; by rewrite ?lookup_empty).
  revert H0. generalize new (@None (list (Channel * Message))). induction calls as [|call calls IH]; intros m log H; [done|].
  cbn [fold_left]. by apply IH, perform_logs.
Qed.
Lemma sorted_numbered_from l : forall k, sort_by by_sequence (imap (fun n x => mkCanonical x.2 x.1 (Z.of_nat (k + n) + 1)) l)
  = imap (fun n (x : Channel * Message) => mkCanonical x.2 x.1 (Z.of_nat (k + n) + 1)) l.
Proof.
  induction l as [|x l IH]; intros k; [done|]. cbn [imap]. change (sort_by by_sequence (?a :: ?r)) with (insert_by by_sequence a (sort_by by_sequence r)).
  assert (Hs : imap ((fun n (y : Channel * Message) => mkCanonical y.2 y.1 (Z.of_nat (k + n) + 1)) ∘ S) l
    = imap (fun n y => mkCanonical y.2 y.1 (Z.of_nat (S k + n) + 1)) l).
  { apply imap_ext. intros n y _. cbn. do 2 f_equal. lia. }
  rewrite Hs, IH. destruct l as [|y l]; [done|]. cbn [imap insert_by]. unfold by_sequence at 1. cbn [sequence].
  replace (Z.of_nat (k + 0) + 1 ?= _) with Lt; [done|]. symmetry. apply Z.compare_lt_iff. lia.
Qed.

(** Whatever calls were made, a canonical session that was never registered is unknown,
    and one that was shows the messages appended since, in the order they came from
    whichever channel, numbered one by one without a gap; appending gives the next
    number. *)
Theorem canonical_refines cfg calls i :
  canonical_transcript i (after cfg calls) = match said i calls with Some l => Ok (numbered l) | None => Err (NotFound i) end /\
  message_count i (after cfg calls) = match said i calls with Some l => Ok (zlen l) | None => Err (NotFound i) end /\
  forall c msg, (append_message i c msg (after cfg calls)).2 = match said i calls with Some l => Ok (zlen l + 1) | None => Err (NotFound i) end.
Proof.
  destruct (after_logs cfg calls i) as [Ht Hc]. unfold canonical_transcript, message_count, append_message, state_of.
  destruct (channel_map _ !! i) as [s|], (said i calls) as [l|]; cbn in *; simplify_eq; [|done].
  rewrite Ht, length_numbered. split_and!; [f_equal; apply (sorted_numbered_from l 0)|done|]. intros c msg. by rewrite Hc.
Qed.

(** The channels of a session are never more than the limit, but a session whose first
    registration is refused exists all the same. *)
Lemma channels_bounded cfg calls i s : channel_map (after cfg calls) !! i = Some s -> (size (channels s) <= max_channels cfg)%nat.
Proof.
  unfold after. assert (H0 : forall j x, channel_map new !! j = Some x -> (size (channels x) <= max_channels cfg)%nat).
  { intros j x. cbn. by rewrite lookup_empty. }
  revert H0 s. generalize new. induction calls as [|call calls IH]; intros m Hm s; [apply Hm|]. cbn [fold_left]. apply IH. clear IH s. intros j x.
  destruct call as [k c child|k c msg]; cbn [perform].
  - unfold register_channel. set (state := default _ _).
    assert (Hs : (size (channels state) <= max_channels cfg)%nat).
    { subst state. destruct (channel_map m !! k) as [s|] eqn:E; cbn; [by eapply Hm|rewrite map_size_empty; lia]. }
    destruct (bool_decide _ && _) eqn:Eb; cbn [fst channel_map]; rewrite lookup_insert_Some; (intros [[_ <-]|[_ Hx]]; [|by eapply Hm]); [done|].
    cbn [channels]. rewrite map_size_insert. destruct (channels state !! c) as [y|] eqn:Ec; [done|].
    apply andb_false_iff in Eb as [Eb|Eb]; [by apply bool_decide_eq_false_1 in Eb|]. apply Nat.leb_gt in Eb. cbn. lia.
  - unfold append_message. destruct (channel_map m !! k) as [s|] eqn:E; cbn [fst]; [|apply Hm]. cbn [channel_map].
    rewrite lookup_insert_Some. intros [[_ <-]|[_ Hx]]; [cbn; by eapply Hm|by eapply Hm].
Qed.
Example refused_session_exists :
  let m := after (mkConfig 0 true) [Register "c" Cli "s"] in
  message_count "c" m = Ok 0 /\ (append_message "c" Web (new_message "m" User "hi") m).2 = Ok 1.
Proof. split; vm_compute; reflexivity. Qed.
